(* ===== verification/_CoqProject ===== *)
-Q . S2P
Prelude.v
Util.v
Base64.v
Clock.v
Value.v
Storage.v
RocksDB.v
Ring.v
Placement.v
Metrics.v
Prometheus.v
Log.v
Hints.v
Wire.v
Coordinator.v
Quorum.v
Events.v
Membership.v
Sync.v
Gossip.v
Node.v
Server.v
Boot.v
Framing.v
Pool.v
Reaper.v
Workers.v
Threads.v
Socket.v
Merkle.v
AntiEntropy.v
Utf8.v
Gateway.v
GatewayClient.v
GatewayTransport.v
GatewayService.v
GatewayApp.v
Cluster.v
