(* ===== verification/Prelude.v ===== *)
(** * Mini Dynamo: a verification development

    Mini Dynamo is a replicated key-value store: C++ nodes under [src/], and a
    Java gateway under [gateway/] that speaks to them.  A key is placed on a
    consistent-hash ring; a write is coordinated by the key's first owner, stamped
    with a vector clock and replicated to N owners, W of which must acknowledge; a
    read asks N owners, waits for R answers and returns the causally maximal
    versions.  Membership is a SWIM gossip protocol that drives the ring.  Hinted
    handoff, read repair and a Merkle-tree comparison repair replicas that missed
    a write.

    ** How the code is modelled

    Pure functions are functions.  An object is a record and a method a function
    to the new record; callbacks it fires are returned in firing order.  A
    [std::map] is a [gmap] iterated by [entries], in key order; a [uint64_t] is an
    integer followed by [u64] wherever an operation can leave the range; a
    [std::string] is a byte string.  Clocks, random choices and the network are
    arguments: a network call is a function on an arbitrary state, or the fate of
    each attempt is chosen by the environment.  Code that runs in several threads
    is a step relation or a function of an explicit sequence of events, so that a
    theorem about all sequences is about all interleavings.  A loop that need not
    end has fuel, and running out of it is [None], never a result.

    ** Files, in dependency order

    - [Prelude]: integers, strings, parsers of decimals, finite maps in key
      order, list lemmas, tactics.
    - [Util] (util.h): the ring hash and the node-id allowlist.
    - [Base64] (base64.cpp), [Clock] (vector_clock.cpp), [Value]
      (versioned_value.cpp): the data of a version and its text formats.
    - [Storage] (storage/, replica_ops.cpp): the storage interface as a class with
      its laws, the in-memory engine as an instance, and the never-regress rule of
      a replica.  [RocksDB] (storage/rocksdb_storage.cpp): the durable engine, a
      second instance over any database with the documented behaviour.
    - [Ring] (router.cpp) and [Placement]: the ring, the owners of a key, and why
      two nodes agree on the order of the nodes both know.
    - [Metrics] (metrics.h), [Prometheus] (metrics_prometheus.cpp): the metrics
      interface as a class, its in-memory and its exported implementation.  [Log]
      (log.cpp): the lines of the structured log by either backend, and a reader.  [Hints]
      (hints/): the hint store and the delivery thread.
    - [Wire] (replica_client.h, net/tcp_replica_client.cpp,
      net/pooled_replica_client.cpp, net/tcp_client.cpp): the replica protocol.
      [ReplicaClient] is the interface, [ReplicaLaws] what the coordinator relies
      on, and both clients are proved to satisfy it.
    - [Coordinator], [Quorum] (coordinator.cpp): the clock of a write, the fan-out,
      reconciliation; then whole puts, deletes and reads as interleaved runs.
    - [Events], [Membership], [Sync], [Gossip] (gossip/): the event format, the
      SWIM state machine, the full-state exchange, and the driver with its messages.
    - [Node] (node.cpp): parsing, dispatch, forwarding and replies.  [Server]
      (main.cpp): the environment it reads, the callbacks it registers, and the
      process in which gossip, ring, gauge, hint store and handoff thread meet.
      [Boot] (main.cpp): [main] itself, as a program that acts or stops, and its
      interleaving with the threads it starts.
    - [Framing] (net/framing.cpp, net/tcp_server.cpp), [Pool]
      (net/connection_pool.cpp, net/pooled_replica_client.cpp), [Workers]
      (net/thread_pool.cpp): the transport.  [Reaper]
      (ConnectionPool::reaperLoop): the pool's own thread.  [Threads] (gossip/gossip_thread.cpp,
      antientropy/antientropy_thread.cpp, coordinator.cpp): start and stop of the
      periodic threads, the coordinator's detached workers.  [Socket]
      (net/tcp_connect.cpp, net/tcp_client.cpp, net/tcp_server.cpp): connecting, the
      one-shot call and the accept loop over system calls with any results.
    - [Merkle], [AntiEntropy] (antientropy/): the tree and the repair tick.
    - [Utf8]: how the gateway makes strings of bytes.
    - [Gateway], [GatewayClient] (gateway/: HashUtil, RingRouter, ClusterClient,
      KvController.validateKey): the Java side of the ring and of the protocol.
      [GatewayTransport] (ClusterClient): its framing and socket pool.
      [GatewayService] (service/, controller/, exception/, security/,
      RingPoller): from an HTTP request to the cluster and back.  [GatewayApp]
      (config/, RequestIdFilter): properties, start-up, ids of log lines.
    - [Cluster]: the parts put together, clients that speak HTTP to a gateway whose
      requests any node may answer, forward or coordinate.

    ** What the theorems show

    - Quorums ([Quorum], [Coordinator], [Storage]): an acknowledged write was stored
      by W distinct replicas, less one for every dead owner beyond the first; with
      W + R above the number of owners every quorum read that starts later sees it,
      beside any number of such reads and their repairs; the wait ends; reconciliation
      returns the siblings and nothing else; REPLICATEs applied one at a time never
      regress a replica, and replicas converge.  Other threads may put anything into
      any store at any moment; what stays after an acknowledgement is stated for
      interference that does not replace a version at least as new as the write by one
      that is not ([friendly]), which the repairs of later reads never do.
    - Clocks and formats ([Clock], [Value], [Base64], [Events], [Wire]): [compare]
      decides causality, [merge] is the join, pruning drops the oldest; what is
      written is read back.
    - Ring and membership ([Ring], [Placement], [Membership], [Sync], [Gossip]):
      [findOwners] ends with the first members of the preference list; a change
      moves no other key; a departure is final; the ring follows the membership
      through any run; two exchanges make two views equal, and [performSync]
      implements the exchange.
    - Requests ([Node]): only gossip and LEAVE change the ring; an acknowledged
      LEAVE took effect; a forwarded write reaches a coordinator in the cluster's
      size of hops, if every process is on its own ring and the rings name running
      processes by their present addresses, and the reply comes back unchanged.
    - The process ([Server], [Boot], [Threads]): only a usable identity boots, any
      other has no effect; at every moment of the start-up the process is one the
      running process reaches, and no hint is taken too early; the gauge is
      the size of the ring; every promised write is stored, in flight, delivered,
      expired, refused or dropped; a node that comes back is given every hint held for
      it; a hint counted as delivered is at its target, as a live value; threads start and stop safely and
      the coordinator outlives its workers.
    - Transport ([Framing], [Pool], [Reaper], [Workers], [Socket]): a frame is read as it was
      written, whatever the short reads; a connection has one owner on either side
      and is idle for at most one and a half times the limit ([Reaper]);
      tasks run once and in order; a shutdown drains and ends; no failed call leaves
      a descriptor behind; and a call over byte streams has one of the three fates
      that [Wire] gives a network call, which is what the theorems on replication
      are proved from.
    - Repair ([Hints], [Merkle], [AntiEntropy]): handoff loses no hint; [diff]
      reports exactly the visible differences; a tick never makes a key older.
    - Libraries behind interfaces ([RocksDB], [Prometheus], [Log]): the durable
      engine keeps the storage laws and its data across restarts; the exporter
      reports what the in-memory counters report, under the right series; a log line
      reads back as what was logged, and the two log backends write the same line.
    - Gateway ([Gateway], [GatewayClient], [GatewayTransport], [GatewayService]): the
      Java hash, ring and framing agree with the C++ ones; requests and replies are
      understood; a put reported as stored is on W replicas; the HTTP status is the
      node's outcome; but for the public routes nothing is served without a valid
      token; a delete is audited
      exactly when it is answered with success; a poll adopts the ring it read;
      sockets are accounted for; lines of a request carry its id ([GatewayApp]).
    - End to end ([Cluster]): a PUT answered 200 is on W replicas, less one for every
      dead owner beyond the first, through failed targets and forwarding nodes; a GET
      after it sees it.

    Further theorems are about behaviour that the comments of the code exclude:
    a tombstone replicated as a live value, a stand-in counted twice, a local
    repair that regresses, racing REPLICATEs that regress, a lead that is never repaired, events injected through
    a host name, writes that bounce off a retired node, values that cancel in the
    Merkle tree, a refused write reported as written, a hint kept for a node that
    has left, a length line that leaks a gateway socket, a join that the gauge
    misses, a reaper that does not wait, a delete without its audit record, faults of
    a node reported as bad requests.  Each is stated on a
    concrete run or for every state.

    ** Bounds and fuel

    [to_string] prints at most 20 digits, enough for 64 bits.  [splitAll] and
    [getlines] have one unit of fuel per character, [findOwners] and the gateway's
    [walk] one turn of the ring ([findOwners_correct], [gateway_ring_agrees] show
    that it suffices), [diff] one turn per level of the tree, framing one unit per
    byte and system call, [receive] one hop per process.
    A scan of the durable engine has one unit per pair and a reader of log lines one
    per member.  A stopping loop of [Threads] ends within three turns.

    ** Libraries

    RocksDB, the Prometheus registry, spdlog and the token library are classes: their
    operations, and the documented facts the code relies on as laws.  Each has a
    concrete instance on which the theorems are applied.  The gateway's database is a
    class that says which rows a table takes, and the pages Spring serves by itself are
    another.  The JDK's UTF-8 decoder is written out.  A system call is an
    argument that may return anything its manual allows.

    ** Not modelled

    The HTTP exposer of the metrics and the buckets of a latency histogram, which
    belong to their library; how long the periodic threads sleep, except the pool's
    reaper; data races on the members that [main] sets while workers read them, each
    setter being one step here.  A storage engine's operations are atomic.  A replica
    call of a run tests and puts in one step ([applyReplicate] takes no lock between
    the two); the put that comes later is the [Store] event of [Quorum].  On the gateway: routing, JSON, strings with
    unpaired surrogates, the container's error pages, the binding of properties, the OpenAPI description, and calls that share its socket pool at the
    same moment.  Benchmarks, tests, scripts and deployment files are not part of the
    program.  Memory is unbounded and allocation does not fail. *)
From Stdlib Require Import Ascii String ZArith Lia.
From stdpp Require Import sorting base gmap sets list strings numbers.

Declare Scope dynamo_scope.
Delimit Scope dynamo_scope with dynamo.

(** ** Machine integers

    [uint64_t], [uint32_t] and [uint16_t] are integers with their wrap-around
    written out: every C++ operation that can leave the range is followed by
    the matching [uN]. *)

Definition U64_MAX : Z := 18446744073709551615.
Definition u64 (z : Z) : Z := Z.modulo z 18446744073709551616.
Definition u32 (z : Z) : Z := Z.modulo z 4294967296.
Definition u16 (z : Z) : Z := Z.modulo z 65536.
Definition is_u64 (z : Z) : Prop := (0 ≤ z ≤ U64_MAX)%Z.
Definition is_u16 (z : Z) : Prop := (0 ≤ z < 65536)%Z.

Global Instance is_u64_dec z : Decision (is_u64 z).
Proof. unfold is_u64. apply _. Defined.
Global Instance is_u16_dec z : Decision (is_u16 z).
Proof. unfold is_u16. apply _. Defined.

Create HintDb dynamo.

(** Evaluate a decidable proposition. *)
Ltac vm_decide := apply (bool_decide_unpack _); vm_compute; exact I.

(** Compare two closed terms with the virtual machine, at [Qed]. *)
Ltac vm_refl := match goal with |- ?a = ?b => vm_cast_no_check (@eq_refl _ b) end.

Lemma u64_range z : is_u64 (u64 z).
Proof. unfold is_u64, u64, U64_MAX. pose proof (Z.mod_pos_bound z 18446744073709551616). lia. Qed.

Lemma u64_id z : is_u64 z → u64 z = z.
Proof. unfold is_u64, u64, U64_MAX. intros. apply Z.mod_small. lia. Qed.

Lemma u16_range z : is_u16 (u16 z).
Proof. unfold is_u16, u16. pose proof (Z.mod_pos_bound z 65536). lia. Qed.

Lemma u16_id z : is_u16 z → u16 z = z.
Proof. unfold is_u16, u16. intros. apply Z.mod_small. lia. Qed.

#[export] Hint Resolve u64_range u16_range : dynamo.

(** ** Characters and strings

    A [std::string] is a [string]: a sequence of 8-bit characters.  [find],
    [substr] and [operator==] keep their C++ meaning; a position past the end
    never reaches [substr] in the modelled code. *)

Definition byte_of (c : ascii) : Z := Z.of_N (N_of_ascii c).
Definition char_of (b : Z) : ascii := ascii_of_N (Z.to_N b).

Lemma byte_of_range c : (0 ≤ byte_of c < 256)%Z.
Proof. unfold byte_of. pose proof (N_ascii_bounded c). lia. Qed.

Lemma char_of_byte_of c : char_of (byte_of c) = c.
Proof. unfold char_of, byte_of. rewrite N2Z.id. apply ascii_N_embedding. Qed.

Lemma byte_of_char_of b : (0 ≤ b < 256)%Z → byte_of (char_of b) = b.
Proof.
  intros. unfold char_of, byte_of. rewrite N_ascii_embedding by lia. lia.
Qed.

#[export] Hint Resolve byte_of_range : dynamo.

Fixpoint str_all (f : ascii → bool) (s : string) : bool :=
  match s with
  | EmptyString => true
  | String c s => f c && str_all f s
  end.

(** [str_free c s]: the delimiter [c] does not occur in [s]. *)
Definition str_free (c : ascii) (s : string) : bool :=
  str_all (λ x, negb (Ascii.eqb x c)) s.

Fixpoint str_take (n : nat) (s : string) : string :=
  match n, s with
  | S n, String c s => String c (str_take n s)
  | _, _ => EmptyString
  end.

Fixpoint str_drop (n : nat) (s : string) : string :=
  match n, s with
  | S n, String _ s => str_drop n s
  | _, _ => s
  end.

(** [s.substr(pos)] and [s.substr(pos, len)]. *)
Definition substr_from (s : string) (pos : nat) : string := str_drop pos s.
Definition substr (s : string) (pos len : nat) : string := str_take len (str_drop pos s).

(** [s.find(c)] and [s.find(c, start)]; [None] is [npos]. *)
Fixpoint find_char (c : ascii) (s : string) : option nat :=
  match s with
  | EmptyString => None
  | String x s => if Ascii.eqb x c then Some 0 else S <$> find_char c s
  end.

Definition find_from (c : ascii) (s : string) (start : nat) : option nat :=
  Nat.add start <$> find_char c (str_drop start s).

Definition str_empty (s : string) : bool :=
  match s with EmptyString => true | _ => false end.

(** The [while (true) { p = s.find(delim, start); ... }] loop that every parser
    of the program uses, with its index arithmetic.  [splitAll_eq] proves it
    equal to the structural [split_on]. *)
Fixpoint splitAll_loop (fuel : nat) (s : string) (delim : ascii) (start : nat) : list string :=
  match fuel with
  | O => []
  | S fuel =>
      match find_from delim s start with
      | None => [substr_from s start]
      | Some p => substr s start (p - start) :: splitAll_loop fuel s delim (p + 1)
      end
  end.

Definition splitAll (s : string) (delim : ascii) : list string :=
  splitAll_loop (S (String.length s)) s delim 0.

Fixpoint split_on (c : ascii) (s : string) : list string :=
  match s with
  | EmptyString => [EmptyString]
  | String x s =>
      if Ascii.eqb x c then EmptyString :: split_on c s
      else match split_on c s with
           | [] => [String x EmptyString]
           | h :: t => String x h :: t
           end
  end.

(** [i < f.size() ? f[i] : std::string()]. *)
Definition field (f : list string) (i : nat) : string := default EmptyString (f !! i).

(** [std::getline(ss, token, delim)] until it fails: the delimiter is consumed,
    and the stream is at its end when no character is left to extract. *)
Fixpoint getlines_loop (fuel : nat) (s : string) (delim : ascii) : list string :=
  match fuel with
  | O => []
  | S fuel =>
      if str_empty s then []
      else match find_char delim s with
           | None => [s]
           | Some p => str_take p s :: getlines_loop fuel (str_drop (p + 1) s) delim
           end
  end.

Definition getlines (s : string) (delim : ascii) : list string :=
  getlines_loop (S (String.length s)) s delim.

(** [oss << sep] between consecutive items. *)
Fixpoint str_join (sep : string) (l : list string) : string :=
  match l with
  | [] => EmptyString
  | [x] => x
  | x :: l => x +:+ sep +:+ str_join sep l
  end.

(** ** Decimal numbers

    [operator<<] and [std::to_string] on an unsigned integer (at most 20
    digits for 64 bits), and [std::stoull] / [std::stoi]: white space, a sign,
    then digits up to the first other character.  [None] is the exception
    ([invalid_argument] or [out_of_range]) that the callers catch. *)

Definition is_digit (c : ascii) : bool := ((48 <=? byte_of c) && (byte_of c <=? 57))%Z.
Definition digit_val (c : ascii) : Z := (byte_of c - 48)%Z.
Definition digit_char (d : Z) : ascii := char_of (48 + d).

Fixpoint dec_loop (fuel : nat) (n : Z) (acc : string) : string :=
  match fuel with
  | O => acc
  | S fuel =>
      let acc := String (digit_char (n mod 10)) acc in
      if (n <? 10)%Z then acc else dec_loop fuel (n / 10) acc
  end.

Definition to_string (n : Z) : string := dec_loop 20 n EmptyString.

(** Of a signed integer. *)
Definition int_string (n : Z) : string :=
  if (n <? 0)%Z then String "-" (to_string (- n)) else to_string n.

Fixpoint skip_space (s : string) : string :=
  match s with
  | String c s' => if Ascii.is_space c then skip_space s' else s
  | EmptyString => EmptyString
  end.

(** The value of the longest digit prefix; [None] when it is empty. *)
Fixpoint read_digits (s : string) (acc : option Z) : option Z :=
  match s with
  | String c s =>
      if is_digit c
      then read_digits s (Some (default 0 acc * 10 + digit_val c)%Z)
      else acc
  | EmptyString => acc
  end.

(** Sign and magnitude read by [strtoull] / [strtol] in base 10. *)
Definition read_number (s : string) : option (bool * Z) :=
  match skip_space s with
  | String "-" s => pair true <$> read_digits s None
  | String "+" s => pair false <$> read_digits s None
  | s => pair false <$> read_digits s None
  end.

Definition stoull (s : string) : option Z :=
  match read_number s with
  | None => None
  | Some (neg, v) =>
      if (U64_MAX <? v)%Z then None
      else Some (if neg : bool then u64 (- v) else v)
  end.

Definition stoi (s : string) : option Z :=
  match read_number s with
  | None => None
  | Some (neg, v) =>
      let v := if neg : bool then (- v)%Z else v in
      if ((v <? -2147483648) || (2147483647 <? v))%Z then None else Some v
  end.

(** ** Lemmas on strings *)

Lemma str_app_cons x a b : String x a +:+ b = String x (a +:+ b).
Proof. done. Qed.

Lemma str_app_empty_l a : EmptyString +:+ a = a.
Proof. done. Qed.

(** [String.append] is opaque to [simpl]; this exposes its head. *)
Ltac str_simpl := rewrite ?str_app_cons, ?str_app_empty_l in *; cbn in *.

Lemma str_app_nil_r s : s +:+ EmptyString = s.
Proof. induction s as [|c s IH]; [done|]. rewrite str_app_cons. by f_equal. Qed.

Lemma str_app_assoc a b c : (a +:+ b) +:+ c = a +:+ (b +:+ c).
Proof. induction a as [|x a IH]; [done|]. rewrite !str_app_cons. by f_equal. Qed.

Lemma str_length_app a b : String.length (a +:+ b) = String.length a + String.length b.
Proof. induction a as [|x a IH]; [done|]. str_simpl. by rewrite <- IH. Qed.

Lemma str_all_app f a b : str_all f (a +:+ b) = str_all f a && str_all f b.
Proof. induction a as [|x a IH]; [done|]. str_simpl. rewrite IH. by destruct (f x). Qed.

Lemma str_all_impl (f g : ascii → bool) s :
  (∀ c, f c = true → g c = true) → str_all f s = true → str_all g s = true.
Proof.
  intros Hfg. induction s as [|c s IH]; [done|]. cbn.
  intros [Hc Hs]%andb_true_iff. by rewrite (Hfg _ Hc), IH.
Qed.

Lemma str_free_cons c x s : str_free c (String x s) = true → x ≠ c ∧ str_free c s = true.
Proof.
  unfold str_free. cbn. intros H. apply andb_true_iff in H as [Hx Hs]. split; [|done]. intros ->. by rewrite Ascii.eqb_refl in Hx.
Qed.

Lemma str_free_app c a b : str_free c (a +:+ b) = str_free c a && str_free c b.
Proof. apply str_all_app. Qed.

Lemma str_take_app a b : str_take (String.length a) (a +:+ b) = a.
Proof. induction a as [|x a IH]; [by destruct b|]. str_simpl. by f_equal. Qed.

Lemma str_drop_app a b : str_drop (String.length a) (a +:+ b) = b.
Proof. induction a as [|x a IH]; [by destruct b|]. done. Qed.

Lemma str_drop_app_S a x b : str_drop (String.length a + 1) (a +:+ String x b) = b.
Proof. induction a as [|y a IH]; [by destruct b|]. done. Qed.

Lemma str_take_all s : str_take (String.length s) s = s.
Proof. induction s as [|x s IH]; [done|]. cbn. by f_equal. Qed.

Lemma str_drop_0 s : str_drop 0 s = s.
Proof. by destruct s. Qed.

Lemma str_drop_drop n m s : str_drop n (str_drop m s) = str_drop (m + n) s.
Proof.
  revert s. induction m as [|m IH]; intros s; [by rewrite str_drop_0|].
  destruct s as [|c s]; [by destruct n|]. apply IH.
Qed.

Lemma str_length_drop n s : String.length (str_drop n s) = String.length s - n.
Proof.
  revert s. induction n as [|n IH]; intros s; cbn; [destruct s; cbn; lia|].
  destruct s; cbn; [done|apply IH].
Qed.

Lemma find_char_free c s : str_free c s = true → find_char c s = None.
Proof.
  induction s as [|x s IH]; [done|]. unfold str_free. cbn.
  intros [Hx Hs]%andb_true_iff. destruct (Ascii.eqb x c); [done|]. by rewrite IH.
Qed.

Lemma find_char_app c a b :
  str_free c a = true → find_char c (a +:+ String c b) = Some (String.length a).
Proof.
  unfold str_free. induction a as [|x a IH]; str_simpl; [by rewrite Ascii.eqb_refl|].
  intros [Hx Ha]%andb_true_iff. destruct (Ascii.eqb x c); [done|]. by rewrite IH.
Qed.

(** Every occurrence found splits the string there. *)
Lemma find_char_Some c s p :
  find_char c s = Some p →
  ∃ a b, s = a +:+ String c b ∧ str_free c a = true ∧ String.length a = p.
Proof.
  revert p. induction s as [|x s IH]; intros p; cbn; [done|].
  destruct (Ascii.eqb x c) eqn:Hx.
  - apply Ascii.eqb_eq in Hx as ->. intros [= <-]. by exists EmptyString, s.
  - destruct (find_char c s) as [q|]; cbn; intros [= <-].
    destruct (IH q eq_refl) as (a & b & -> & Ha & <-).
    exists (String x a), b. split_and!; [done| |done].
    unfold str_free in *. cbn. by rewrite Hx, Ha.
Qed.

Lemma find_char_None c s : find_char c s = None → str_free c s = true.
Proof.
  induction s as [|x s IH]; [done|]. unfold str_free. cbn.
  destruct (Ascii.eqb x c); [done|].
  destruct (find_char c s); cbn; [done|]. intros _. by apply IH.
Qed.

Lemma split_on_free c a : str_free c a = true → split_on c a = [a].
Proof.
  induction a as [|x a IH]; [done|]. unfold str_free. cbn.
  intros [Hx Ha]%andb_true_iff. destruct (Ascii.eqb x c); [done|]. by rewrite IH.
Qed.

Lemma split_on_app c a b :
  str_free c a = true → split_on c (a +:+ String c b) = a :: split_on c b.
Proof.
  unfold str_free. induction a as [|x a IH]; str_simpl; [by rewrite Ascii.eqb_refl|].
  intros [Hx Ha]%andb_true_iff. destruct (Ascii.eqb x c); [done|]. by rewrite IH.
Qed.

Lemma splitAll_loop_eq fuel s c start :
  String.length (str_drop start s) < fuel →
  splitAll_loop fuel s c start = split_on c (str_drop start s).
Proof.
  revert start. induction fuel as [|fuel IH]; intros start Hfuel; [lia|]. cbn.
  unfold find_from. destruct (find_char c (str_drop start s)) as [q|] eqn:Hq; cbn.
  - apply find_char_Some in Hq as (a & b & Hs & Ha & <-).
    unfold substr. rewrite Hs. replace (start + String.length a - start) with (String.length a) by lia.
    rewrite str_take_app, split_on_app by done. f_equal.
    replace (start + String.length a + 1) with (start + (String.length a + 1)) by lia.
    rewrite IH; rewrite <- str_drop_drop, Hs, str_drop_app_S; [done|].
    rewrite Hs, str_length_app in Hfuel. cbn in Hfuel. lia.
  - apply find_char_None in Hq. unfold substr_from. by rewrite split_on_free.
Qed.

Lemma splitAll_eq s c : splitAll s c = split_on c s.
Proof. unfold splitAll. rewrite splitAll_loop_eq; rewrite str_drop_0; [done|lia]. Qed.

Lemma splitAll_free c a : str_free c a = true → splitAll a c = [a].
Proof. intros. rewrite splitAll_eq. by apply split_on_free. Qed.

Lemma splitAll_app c a b :
  str_free c a = true → splitAll (a +:+ String c b) c = a :: splitAll b c.
Proof. intros. rewrite !splitAll_eq. by apply split_on_app. Qed.

Lemma splitAll_join c l :
  Forall (λ x, str_free c x = true) l → l ≠ [] →
  splitAll (str_join (String c EmptyString) l) c = l.
Proof.
  intros Hl Hne. induction Hl as [|x l Hx Hl IH]; [done|]. destruct l as [|y l].
  - by apply splitAll_free.
  - change (str_join (String c EmptyString) (x :: y :: l)) with
      (x +:+ String c (str_join (String c EmptyString) (y :: l))).
    rewrite splitAll_app by done. by rewrite IH.
Qed.

Lemma getlines_join c l :
  Forall (λ x, str_free c x = true ∧ x ≠ EmptyString) l →
  getlines (str_join (String c EmptyString) l) c = l.
Proof.
  intros Hl. unfold getlines.
  set (fuel := S (String.length _)).
  assert (String.length (str_join (String c EmptyString) l) < fuel) as Hf by (subst fuel; lia).
  clearbody fuel. revert fuel Hf.
  induction Hl as [|x l [Hx Hne] Hl IH]; intros fuel Hf.
  - destruct fuel; [cbn in Hf; lia|done].
  - destruct fuel as [|fuel]; [lia|].
    destruct x as [|x0 x]; [done|]. destruct l as [|y l].
    + cbn [str_join] in *. cbn [getlines_loop str_empty].
      by rewrite find_char_free.
    + change (str_join (String c EmptyString) (String x0 x :: y :: l)) with
        (String x0 x +:+ String c (str_join (String c EmptyString) (y :: l))) in *.
      set (rest := str_join _ (y :: l)) in *. cbn [getlines_loop].
      assert (str_empty (String x0 x +:+ String c rest) = false) as -> by done.
      rewrite find_char_app, str_take_app, str_drop_app_S by done. f_equal.
      apply IH. clearbody rest. rewrite str_length_app in Hf. cbn in Hf. lia.
Qed.

Lemma getlines_free c s : Forall (λ x, str_free c x = true) (getlines s c).
Proof.
  unfold getlines. generalize (S (String.length s)) as fuel. intros fuel. revert s.
  induction fuel as [|fuel IH]; intros s; [constructor|]. cbn.
  destruct (str_empty s); [constructor|].
  destruct (find_char c s) as [p|] eqn:Hp.
  - apply find_char_Some in Hp as (a & b & -> & Ha & <-). rewrite str_take_app. by constructor.
  - constructor; [by apply find_char_None|constructor].
Qed.

Lemma getlines_sub_free d c s :
  str_free d s = true → Forall (λ x, str_free d x = true) (getlines s c).
Proof.
  unfold getlines. generalize (S (String.length s)) as fuel. intros fuel. revert s.
  induction fuel as [|fuel IH]; intros s Hs; [constructor|]. cbn.
  destruct (str_empty s); [constructor|].
  destruct (find_char c s) as [p|] eqn:Hp; [|by repeat constructor].
  apply find_char_Some in Hp as (a & b & -> & Ha & <-).
  rewrite str_take_app, str_drop_app_S. rewrite str_free_app in Hs.
  apply andb_true_iff in Hs as [Hs1 Hs2]. apply andb_true_iff in Hs2 as [_ Hs2].
  constructor; [done|]. by apply IH.
Qed.

Lemma split_on_free_all c s : Forall (λ x, str_free c x = true) (split_on c s).
Proof.
  induction s as [|x s IH]; [by repeat constructor|]. cbn.
  destruct (Ascii.eqb x c) eqn:Hx; [by constructor|].
  inversion IH as [E|h t Hh Ht E]; (constructor; [|done || constructor]);
    unfold str_free in *; cbn; by rewrite Hx.
Qed.

Lemma splitAll_fields_free s c i : str_free c (field (splitAll s c) i) = true.
Proof.
  rewrite splitAll_eq. unfold field. destruct (split_on c s !! i) as [x|] eqn:E; [|done].
  apply list_elem_of_lookup_2 in E. pose proof (split_on_free_all c s) as Hall.
  rewrite list.Forall_forall in Hall. by apply Hall.
Qed.

Lemma str_join_free c sep l :
  str_free c sep = true → Forall (λ x, str_free c x = true) l → str_free c (str_join sep l) = true.
Proof.
  intros Hsep. induction 1 as [|x l Hx Hl IH]; [done|]. destruct l as [|y l]; [done|].
  change (str_join sep (x :: y :: l)) with (x +:+ sep +:+ str_join sep (y :: l)).
  by rewrite !str_free_app, Hx, Hsep, IH.
Qed.

Lemma str_join_app sep l k :
  l ≠ [] → k ≠ [] → str_join sep (l ++ k) = str_join sep l +:+ sep +:+ str_join sep k.
Proof.
  intros Hl Hk. induction l as [|x l IH]; [done|]. destruct l as [|y l]; [by destruct k|].
  change (str_join sep ((x :: y :: l) ++ k)) with (x +:+ sep +:+ str_join sep ((y :: l) ++ k)).
  rewrite IH by done. change (str_join sep (x :: y :: l)) with (x +:+ sep +:+ str_join sep (y :: l)).
  by rewrite !str_app_assoc.
Qed.

Lemma str_empty_spec s : str_empty s = true ↔ s = EmptyString.
Proof. by destruct s. Qed.

Lemma str_empty_false s : s ≠ EmptyString → str_empty s = false.
Proof. by destruct s. Qed.

(** ** Lemmas on decimal numbers *)

Lemma digit_char_ok d : (0 ≤ d < 10)%Z → is_digit (digit_char d) = true ∧ digit_val (digit_char d) = d.
Proof.
  intros. unfold is_digit, digit_val, digit_char.
  rewrite byte_of_char_of by lia. split; [|lia].
  apply andb_true_iff. rewrite !Z.leb_le. lia.
Qed.

Fixpoint dec_value (s : string) (acc : Z) : Z :=
  match s with
  | EmptyString => acc
  | String c s => dec_value s (acc * 10 + digit_val c)
  end.

Lemma dec_value_app a b acc : dec_value (a +:+ b) acc = dec_value b (dec_value a acc).
Proof. revert acc. induction a as [|x a IH]; intros; [done|]. str_simpl. apply IH. Qed.

Lemma dec_loop_ok fuel n acc :
  (0 ≤ n < 10 ^ Z.of_nat fuel)%Z → 0 < fuel →
  ∃ ds, dec_loop fuel n acc = ds +:+ acc ∧ str_all is_digit ds = true ∧
        ds ≠ EmptyString ∧ dec_value ds 0 = n ∧ String.length ds ≤ fuel.
Proof.
  revert n acc. induction fuel as [|fuel IH]; intros n acc Hn Hf; [lia|]. cbn [dec_loop].
  destruct (digit_char_ok (n mod 10)) as [Hd Hv]; [apply Z.mod_pos_bound; lia|].
  destruct (Z.ltb_spec n 10).
  - exists (String (digit_char (n mod 10)) EmptyString).
    split_and!; [done|cbn; by rewrite Hd|done|cbn|cbn; lia].
    rewrite Hv. rewrite Z.mod_small by lia. lia.
  - rewrite Nat2Z.inj_succ, Z.pow_succ_r in Hn by lia.
    assert (0 < fuel) by (destruct fuel; [cbn in Hn; lia|lia]).
    destruct (IH (n / 10)%Z (String (digit_char (n mod 10)) acc)) as (ds & -> & Hds & Hne & Hval & Hlen);
      [split; [apply Z.div_pos; lia|apply Z.div_lt_upper_bound; lia]|done|].
    exists (ds +:+ String (digit_char (n mod 10)) EmptyString). split_and!.
    + by rewrite str_app_assoc.
    + rewrite str_all_app, Hds. cbn. by rewrite Hd.
    + by destruct ds.
    + rewrite dec_value_app, Hval. cbn. rewrite Hv. pose proof (Z.div_mod n 10). lia.
    + rewrite str_length_app. cbn. lia.
Qed.

Lemma to_string_ok n : is_u64 n →
  str_all is_digit (to_string n) = true ∧ to_string n ≠ EmptyString ∧
  dec_value (to_string n) 0 = n ∧ String.length (to_string n) ≤ 20.
Proof.
  unfold is_u64, U64_MAX. intros Hn. unfold to_string.
  destruct (dec_loop_ok 20 n EmptyString) as (ds & -> & ?); [|lia|].
  - change (10 ^ Z.of_nat 20)%Z with 100000000000000000000%Z. lia.
  - by rewrite str_app_nil_r.
Qed.

Lemma read_digits_value s acc :
  str_all is_digit s = true → s ≠ EmptyString →
  read_digits s acc = Some (dec_value s (default 0%Z acc)).
Proof.
  revert acc. induction s as [|c s IH]; intros acc; [done|]. cbn.
  intros [Hc Hs]%andb_true_iff _. rewrite Hc.
  destruct s as [|c' s]; [done|]. by rewrite IH.
Qed.

Lemma is_digit_not_space c : is_digit c = true → Ascii.is_space c = false.
Proof. by destruct c as [[] [] [] [] [] [] [] []]. Qed.

Lemma read_number_digits s :
  str_all is_digit s = true → s ≠ EmptyString → read_number s = Some (false, dec_value s 0).
Proof.
  intros Hs Hne. unfold read_number. destruct s as [|c s]; [done|].
  assert (is_digit c = true) as Hc by (cbn in Hs; by apply andb_true_iff in Hs as [? _]).
  cbn [skip_space]. rewrite is_digit_not_space by done.
  pose proof (read_digits_value (String c s) None Hs Hne) as Hr. cbn [default] in Hr.
  revert Hr. generalize (dec_value (String c s) 0) as v. intros v Hr.
  destruct c as [[] [] [] [] [] [] [] []]; try discriminate Hc; by rewrite Hr.
Qed.

Lemma stoull_to_string n : is_u64 n → stoull (to_string n) = Some n.
Proof.
  intros Hn. destruct (to_string_ok n Hn) as (Hd & Hne & Hv & _).
  unfold stoull. rewrite read_number_digits, Hv by done.
  unfold is_u64 in Hn. by destruct (Z.ltb_spec U64_MAX n); [lia|].
Qed.

Lemma stoi_to_string n : is_u16 n → stoi (to_string n) = Some n.
Proof.
  unfold is_u16. intros Hn.
  destruct (to_string_ok n) as (Hd & Hne & Hv & _); [unfold is_u64, U64_MAX; lia|].
  unfold stoi. rewrite read_number_digits, Hv by done.
  destruct (Z.ltb_spec n (-2147483648)); [lia|].
  by destruct (Z.ltb_spec 2147483647 n); [lia|].
Qed.

Lemma stoull_range s n : stoull s = Some n → is_u64 n.
Proof.
  unfold stoull. assert (∀ s o v, (∀ z, o = Some z → (0 ≤ z)%Z) → read_digits s o = Some v → (0 ≤ v)%Z) as Hrd.
  { clear. induction s as [|c s IH]; intros o v Ho; cbn; [auto|].
    destruct (is_digit c) eqn:Hc; [|auto]. apply IH. intros z [= <-].
    unfold is_digit, digit_val in *. apply andb_true_iff in Hc as [H1 H2].
    rewrite Z.leb_le in *. destruct o as [z|]; cbn; [specialize (Ho z eq_refl)|]; lia. }
  destruct (read_number s) as [[neg v]|] eqn:Hr; [|done].
  assert (0 ≤ v)%Z as Hv.
  { unfold read_number in Hr. revert Hr. generalize (skip_space s) as t. intros t.
    assert (∀ b t, pair b <$> read_digits t None = Some (neg, v) → (0 ≤ v)%Z) as Haux.
    { intros b t'. destruct (read_digits t' None) eqn:E; [|done]. intros [= _ <-].
      eapply (Hrd t' None); [done|exact E]. }
    destruct t as [|[[] [] [] [] [] [] [] []] t]; apply Haux. }
  destruct (Z.ltb_spec U64_MAX v); [done|]. intros [= <-].
  destruct neg; [apply u64_range|]. unfold is_u64. lia.
Qed.

(** Whatever the number, only digits are printed. *)
Lemma to_string_digits n : str_all is_digit (to_string n) = true.
Proof.
  unfold to_string. generalize 20 as fuel. intros fuel. assert (str_all is_digit EmptyString = true) as Ha by done.
  revert n Ha. generalize EmptyString as acc. induction fuel as [|fuel IH]; intros acc n Ha; [done|]. cbn [dec_loop].
  assert (str_all is_digit (String (digit_char (n mod 10)) acc) = true) as Hd.
  { cbn. rewrite Ha. destruct (digit_char_ok (n mod 10)) as [-> _]; [apply Z.mod_pos_bound; lia|done]. }
  destruct (n <? 10)%Z; [done|]. by apply IH.
Qed.

Lemma to_string_nonempty n : to_string n ≠ EmptyString.
Proof.
  unfold to_string. assert (∀ f m a, 0 < f ∨ a ≠ EmptyString → dec_loop f m a ≠ EmptyString) as Hl; [|by apply Hl; left; lia].
  induction f as [|f IH]; intros m a Ha; cbn [dec_loop]; [by destruct Ha; [lia|]|].
  destruct (m <? 10)%Z; [done|]. apply IH. by right.
Qed.

(** A decimal never contains a delimiter. *)
Lemma to_string_free c n : is_u64 n → is_digit c = false → str_free c (to_string n) = true.
Proof.
  intros Hn Hc. destruct (to_string_ok n Hn) as (Hd & _).
  unfold str_free. eapply str_all_impl; [|exact Hd]. intros x Hx. cbn.
  destruct (Ascii.eqb_spec x c); [congruence|done].
Qed.

(** ** [std::map]: a finite map iterated in key order

    A [std::map<K, V>] is a [gmap K V]; [entries m] is the sequence a range-for
    over it visits.  The key order is [std::less]: byte-wise lexicographic on
    strings, numeric on [uint64_t]. *)

Class KeyOrder (K : Type) := {
  key_le : relation K;
  key_le_dec :: RelDecision key_le;
  key_le_po :: PartialOrder key_le;
  key_le_total :: Total key_le;
}.

#[export] Instance string_key_order : KeyOrder string := {| key_le := String.le |}.
#[export] Instance Z_key_order : KeyOrder Z := {| key_le := Z.le |}.

Lemma NoDup_fst_cons {A B} (k : A) (v : B) (l : list (A * B)) :
  NoDup (((k, v) :: l).*1) → (k ∉ l.*1) ∧ NoDup (l.*1).
Proof. rewrite fmap_cons. apply list.NoDup_cons. Qed.

Section ordered_map.
Context {K V : Type} `{Countable K} `{!KeyOrder K}.
Implicit Types m : gmap K V.

Definition entry_le (a b : K * V) : Prop := key_le a.1 b.1.

#[local] Instance entry_le_dec : RelDecision entry_le.
Proof. intros a b. unfold entry_le. apply _. Defined.
#[local] Instance entry_le_trans : Transitive entry_le.
Proof. intros a b c. unfold entry_le. apply transitivity. Qed.
#[local] Instance entry_le_total : Total entry_le.
Proof. intros a b. unfold entry_le. apply total, _. Qed.

Definition entries (m : gmap K V) : list (K * V) := merge_sort entry_le (map_to_list m).

Lemma entries_perm m : entries m ≡ₚ map_to_list m.
Proof. apply merge_sort_Permutation. Qed.

Lemma elem_of_entries m k v : (k, v) ∈ entries m ↔ m !! k = Some v.
Proof. rewrite entries_perm. apply elem_of_map_to_list. Qed.

Lemma length_entries m : length (entries m) = size m.
Proof. by rewrite entries_perm, length_map_to_list. Qed.

Lemma NoDup_entries_fst m : NoDup (entries m).*1.
Proof. rewrite entries_perm. apply NoDup_fst_map_to_list. Qed.

Lemma NoDup_entries m : NoDup (entries m).
Proof. rewrite entries_perm. apply NoDup_map_to_list. Qed.

Lemma entries_sorted m : StronglySorted entry_le (entries m).
Proof. apply (StronglySorted_merge_sort entry_le). Qed.

Lemma list_to_map_entries m : list_to_map (entries m) = m.
Proof.
  rewrite <- (list_to_map_to_list m) at 2.
  apply list_to_map_proper; [apply NoDup_entries_fst|apply entries_perm].
Qed.

(** The iteration sequence is canonical: it is the only sorted enumeration. *)
Lemma entries_unique m l :
  NoDup l.*1 → StronglySorted entry_le l → (∀ k v, (k, v) ∈ l ↔ m !! k = Some v) → entries m = l.
Proof.
  intros Hnd Hs Hl.
  assert (entries m ≡ₚ l) as Hp.
  { apply NoDup_Permutation; [apply NoDup_entries|by eapply NoDup_fmap_1|].
    intros [k v]. by rewrite elem_of_entries, Hl. }
  apply (StronglySorted_unique_strong entry_le); [|apply entries_sorted|done|done].
  intros [k1 v1] [k2 v2] H1 H2 Hle1 Hle2. unfold entry_le in *. cbn in *.
  assert (k1 = k2) as -> by (by apply (anti_symm key_le)).
  apply elem_of_entries in H1. apply Hl in H2. congruence.
Qed.

Lemma entries_empty : entries (∅ : gmap K V) = [].
Proof. unfold entries. by rewrite map_to_list_empty. Qed.

Lemma entries_inj m1 m2 : entries m1 = entries m2 → m1 = m2.
Proof. intros E. rewrite <- (list_to_map_entries m1), E. apply list_to_map_entries. Qed.

End ordered_map.

(** Range-for loops that look for an element. *)
Lemma existsb_entries {K V} `{Countable K, !KeyOrder K} (f : K * V → bool) (m : gmap K V) :
  existsb f (entries m) = true ↔ ∃ k v, m !! k = Some v ∧ f (k, v) = true.
Proof.
  rewrite existsb_exists. split.
  - intros ([k v] & Hin & Hf). exists k, v. split; [|done].
    by apply elem_of_entries, list_elem_of_In.
  - intros (k & v & Hm & Hf). exists (k, v). split; [|done].
    by apply list_elem_of_In, elem_of_entries.
Qed.

Lemma forallb_entries {K V} `{Countable K, !KeyOrder K} (f : K * V → bool) (m : gmap K V) :
  forallb f (entries m) = true ↔ ∀ k v, m !! k = Some v → f (k, v) = true.
Proof.
  rewrite forallb_forall. split.
  - intros Hf k v Hm. by apply Hf, list_elem_of_In, elem_of_entries.
  - intros Hf [k v] Hin. by apply Hf, elem_of_entries, list_elem_of_In.
Qed.

(** ** Lists *)

Lemma filter_all {A} (P : A → Prop) `{!∀ x, Decision (P x)} l : Forall P l → filter P l = l.
Proof. induction 1; [done|]. rewrite filter_cons_True by done. by f_equal. Qed.

Lemma filter_none {A} (P : A → Prop) `{!∀ x, Decision (P x)} l : Forall (λ x, ¬ P x) l → filter P l = [].
Proof. induction 1; [done|]. by rewrite filter_cons_False. Qed.

Lemma filter_swap {A} (P Q : A → Prop) `{!∀ x, Decision (P x), !∀ x, Decision (Q x)} (l : list A) :
  filter P (filter Q l) = filter Q (filter P l).
Proof.
  induction l as [|x l IH]; [done|].
  rewrite !filter_cons. repeat case_decide; rewrite ?filter_cons; repeat case_decide; by rewrite ?IH.
Qed.

Lemma fmap_filter {A B} (f : A → B) (P : B → Prop) `{!∀ x, Decision (P x)} (l : list A) :
  filter P (f <$> l) = f <$> filter (λ x, P (f x)) l.
Proof.
  induction l as [|x l IH]; [done|]. rewrite fmap_cons, !filter_cons.
  case_decide; by rewrite ?fmap_cons, IH.
Qed.

(** Filtering a map filters its iteration sequence. *)
Lemma entries_filter {K V} `{Countable K, !KeyOrder K} (P : K * V → Prop) `{!∀ x, Decision (P x)}
    (m : gmap K V) :
  entries (filter P m) = filter P (entries m).
Proof.
  apply entries_unique.
  - apply NoDup_fmap_fst; [|apply list.NoDup_filter, NoDup_entries].
    intros k v1 v2 [_ H1]%list_elem_of_filter [_ H2]%list_elem_of_filter.
    apply elem_of_entries in H1, H2. congruence.
  - pose proof (entries_sorted m) as Hs. induction (entries m) as [|x l IH]; [constructor|].
    apply StronglySorted_cons in Hs as [Hx Hs]. rewrite filter_cons. case_decide; [|by apply IH].
    apply StronglySorted_cons. split; [|by apply IH].
    rewrite list.Forall_forall in *. intros y [_ Hy]%list_elem_of_filter. by apply Hx.
  - intros k v. rewrite list_elem_of_filter, elem_of_entries, map_lookup_filter_Some. naive_solver.
Qed.

Lemma entries_fmap {K V W} `{Countable K, !KeyOrder K} (f : V → W) (m : gmap K V) :
  entries (f <$> m) = prod_map id f <$> entries m.
Proof.
  apply entries_unique.
  - rewrite <- list_fmap_compose. exact (NoDup_entries_fst m).
  - pose proof (entries_sorted m) as Hs. induction Hs as [|x l Hs IH Hx]; [constructor|].
    rewrite fmap_cons. constructor; [done|]. by apply list.Forall_fmap.
  - intros k w. rewrite list_elem_of_fmap, lookup_fmap, fmap_Some. split.
    + intros ([k' v] & [= -> ->] & Hv%elem_of_entries). eauto.
    + intros (v & Hv%elem_of_entries & ->). by exists (k, v).
Qed.

Lemma find_fmap {A B} (f : A → B) (p : B → bool) (l : list A) :
  List.find p (f <$> l) = f <$> List.find (λ x, p (f x)) l.
Proof. induction l as [|x l IH]; [done|]. cbn. by destruct (p (f x)). Qed.

Lemma list_fmap_id_on {A} (f : A → A) (l : list A) : (∀ x, x ∈ l → f x = x) → f <$> l = l.
Proof.
  induction l as [|x l IH]; intros Hf; [done|]. rewrite fmap_cons. f_equal; [apply Hf|apply IH]; set_solver.
Qed.

Lemma Forall_filter_keep {A} (P Q : A → Prop) `{∀ x, Decision (Q x)} l :
  Forall P l → Forall P (filter Q l).
Proof. rewrite !list.Forall_forall. intros H1 x [_ Hx]%list_elem_of_filter. by apply H1. Qed.

(** A filter by a stronger condition that loses a witness is strictly shorter. *)
Lemma filter_length_lt {A} (P Q : A → Prop) `{∀ x, Decision (P x), ∀ x, Decision (Q x)} (l : list A) y :
  (∀ x, x ∈ l → P x → Q x) → y ∈ l → ¬ P y → Q y → length (filter P l) < length (filter Q l).
Proof.
  assert (∀ l : list A, (∀ x, x ∈ l → P x → Q x) → length (filter P l) ≤ length (filter Q l)) as Hle.
  { clear. induction l as [|x l IH]; intros HPQ; [done|]. rewrite !filter_cons.
    pose proof (IH (λ z Hz, HPQ z (list_elem_of_further _ _ _ Hz))).
    pose proof (HPQ x (list_elem_of_here _ _)). repeat case_decide; cbn; try lia; naive_solver. }
  intros HPQ Hy HP HQ. induction l as [|x l IH]; [by apply elem_of_nil in Hy|].
  pose proof (Hle l (λ z Hz, HPQ z (list_elem_of_further _ _ _ Hz))).
  pose proof (HPQ x (list_elem_of_here _ _)). rewrite !filter_cons.
  apply elem_of_cons in Hy as [<-|Hy].
  - rewrite decide_False, decide_True by done. cbn. lia.
  - pose proof (IH (λ z Hz, HPQ z (list_elem_of_further _ _ _ Hz)) Hy).
    repeat case_decide; cbn; try lia; naive_solver.
Qed.

(** Two duplicate-free sublists too long to be disjoint meet. *)
Lemma pigeonhole {A} `{EqDecision A} (l a b : list A) :
  NoDup a → NoDup b → a ⊆ l → b ⊆ l → length l < length a + length b → ∃ x, x ∈ a ∧ x ∈ b.
Proof.
  intros Ha Hb Hal Hbl Hlen. destruct (decide (Exists (λ x, x ∈ b) a)) as [He|Hn].
  - apply list.Exists_exists in He as (x & ? & ?). by exists x.
  - exfalso. assert (NoDup (a ++ b)) as Hab.
    { apply list.NoDup_app. split_and!; [done| |done]. intros x Hxa Hxb. apply Hn.
      apply list.Exists_exists. by exists x. }
    assert (a ++ b ⊆+ l) as Hl by (apply NoDup_submseteq; [done|set_solver]).
    apply submseteq_length in Hl. rewrite length_app in Hl. lia.
Qed.

Lemma find_ext {A} (f g : A → bool) l : (∀ x, f x = g x) → List.find f l = List.find g l.
Proof. intros Hfg. induction l as [|x l IH]; [done|]. cbn. by rewrite Hfg, IH. Qed.

Lemma submseteq_NoDup_sub {A} (k l : list A) : k ⊆+ l → NoDup l → NoDup k.
Proof.
  intros [k' ->]%submseteq_Permutation Hnd. by apply list.NoDup_app in Hnd as [? _].
Qed.

(** ** Exclusive or over a list *)

Definition xor_all (l : list Z) : Z := foldr Z.lxor 0%Z l.

Lemma xor_all_cons x l : xor_all (x :: l) = Z.lxor x (xor_all l).
Proof. done. Qed.

Lemma xor_all_perm l k : l ≡ₚ k → xor_all l = xor_all k.
Proof.
  unfold xor_all. induction 1 as [|x l k _ IH|x y l|l k j _ IH1 _ IH2]; cbn; [done|by rewrite IH| |by rewrite IH1].
  by rewrite <- !Z.lxor_assoc, (Z.lxor_comm x).
Qed.

Lemma foldl_xor {A} (f : A → Z) (l : list A) h :
  foldl (λ h x, Z.lxor h (f x)) h l = Z.lxor h (xor_all (f <$> l)).
Proof.
  revert h. unfold xor_all. induction l as [|x l IH]; intros h; cbn; [by rewrite Z.lxor_0_r|].
  by rewrite IH, Z.lxor_assoc.
Qed.

Lemma xor_all_app l k : xor_all (l ++ k) = Z.lxor (xor_all l) (xor_all k).
Proof.
  unfold xor_all. induction l as [|x l IH]; cbn; [by rewrite Z.lxor_0_l|]. by rewrite IH, Z.lxor_assoc.
Qed.
