(* ===== verification/Util.v ===== *)
(** * Ring hash and node-id check (src/util.h)

    [hash64] is FNV-1a over the bytes of the key followed by the MurmurHash3
    [fmix64] finalizer, all on 64-bit words; [isValidNodeId] is the allowlist
    that every ingress of a node id applies.  The theorems show that the
    finalizer is a bijection on 64-bit words (so it adds no collision to
    FNV-1a) and that an accepted id contains none of the delimiters of the
    text formats it is embedded in. *)
From S2P Require Import Prelude.
From Stdlib Require Import Ascii String ZArith Lia.
From stdpp Require Import base list strings numbers.

Local Open Scope Z_scope.

(** ** [hash64] *)

Definition fnv_offset : Z := 1469598103934665603.
Definition fnv_prime : Z := 1099511628211.

(** The [for (unsigned char c : s)] loop. *)
Fixpoint fnv_loop (s : string) (h : Z) : Z :=
  match s with
  | EmptyString => h
  | String c s =>
      let h := Z.lxor h (byte_of c) in
      let h := u64 (h * fnv_prime) in
      fnv_loop s h
  end.

(** The MurmurHash3 tail. *)
Definition fmix64 (h : Z) : Z :=
  let h := Z.lxor h (Z.shiftr h 33) in
  let h := u64 (h * 0xff51afd7ed558ccd) in
  let h := Z.lxor h (Z.shiftr h 33) in
  let h := u64 (h * 0xc4ceb9fe1a85ec53) in
  let h := Z.lxor h (Z.shiftr h 33) in
  h.

Definition hash64 (s : string) : Z := fmix64 (fnv_loop s fnv_offset).

(** ** [isValidNodeId] *)

Definition id_char_ok (c : ascii) : bool :=
  let b := byte_of c in
  ((97 <=? b) && (b <=? 122)) || ((65 <=? b) && (b <=? 90)) ||
  ((48 <=? b) && (b <=? 57)) || Ascii.eqb c "." || Ascii.eqb c "_" || Ascii.eqb c "-".

Definition isValidNodeId (id : string) : bool :=
  if str_empty id || (64 <? Z.of_nat (String.length id)) then false
  else str_all id_char_ok id.

(** ** Lemmas on the hash *)

Lemma testbit_u64_high z i : is_u64 z → 64 <= i → Z.testbit z i = false.
Proof.
  unfold is_u64, U64_MAX. intros Hz Hi.
  destruct (Z.eq_dec z 0) as [->|]; [apply Z.testbit_0_l|].
  apply Z.bits_above_log2; [lia|].
  assert (Z.log2 z < 64); [|lia]. apply Z.log2_lt_pow2; [lia|].
  change (2 ^ 64) with 18446744073709551616. lia.
Qed.

Lemma lxor_u64 a b : is_u64 a → is_u64 b → is_u64 (Z.lxor a b).
Proof.
  unfold is_u64, U64_MAX. intros Ha Hb.
  assert (0 <= Z.lxor a b) by (apply Z.lxor_nonneg; lia). split; [done|].
  destruct (Z.eq_dec (Z.lxor a b) 0) as [->|]; [lia|].
  assert (Z.lxor a b < 2 ^ 64); [|change (2 ^ 64) with 18446744073709551616 in *; lia].
  apply Z.log2_lt_pow2; [lia|]. eapply Z.le_lt_trans; [apply Z.log2_lxor; lia|].
  assert (∀ z, 0 <= z <= 18446744073709551615 → Z.log2 z < 64) as Hlog.
  { intros z Hz. destruct (Z.eq_dec z 0) as [->|]; [cbn; lia|].
    apply Z.log2_lt_pow2; [lia|]. change (2 ^ 64) with 18446744073709551616. lia. }
  apply Z.max_lub_lt; apply Hlog; lia.
Qed.

Lemma shiftr_u64 a n : 0 <= n → is_u64 a → is_u64 (Z.shiftr a n).
Proof.
  unfold is_u64, U64_MAX. intros Hn Ha. rewrite Z.shiftr_div_pow2 by lia.
  assert (0 < 2 ^ n) by (apply Z.pow_pos_nonneg; lia). split.
  - apply Z.div_pos; lia.
  - apply Z.div_le_upper_bound; [lia|]. nia.
Qed.

Lemma byte_of_u64 c : is_u64 (byte_of c).
Proof. unfold is_u64, U64_MAX. pose proof (byte_of_range c). lia. Qed.

#[export] Hint Resolve lxor_u64 byte_of_u64 : dynamo.
#[export] Hint Extern 1 (is_u64 (Z.shiftr _ _)) => apply shiftr_u64; [lia|] : dynamo.

(** [h ^= h >> 33] undoes itself on 64-bit words. *)
Lemma xorshift33_involutive h :
  is_u64 h →
  let g := Z.lxor h (Z.shiftr h 33) in Z.lxor g (Z.shiftr g 33) = h.
Proof.
  intros Hh g. apply Z.bits_inj'. intros i Hi. subst g.
  rewrite Z.lxor_spec, Z.shiftr_spec, !Z.lxor_spec, !Z.shiftr_spec by lia.
  rewrite (testbit_u64_high h (i + 33 + 33)) by (done || lia).
  by destruct (Z.testbit h i), (Z.testbit h (i + 33)).
Qed.

(** Multiplication by an odd constant is undone by its inverse modulo 2^64. *)
Lemma u64_mul_inverse a b x :
  u64 (a * b) = 1 → is_u64 x → u64 (u64 (x * a) * b) = x.
Proof.
  intros Hab Hx. unfold u64 in *. rewrite Z.mul_mod_idemp_l by done.
  rewrite <- Z.mul_assoc, <- Z.mul_mod_idemp_r, Hab, Z.mul_1_r by done.
  by apply u64_id.
Qed.

Definition unmix64 (h : Z) : Z :=
  let h := Z.lxor h (Z.shiftr h 33) in
  let h := u64 (h * 0x9cb4b2f8129337db) in
  let h := Z.lxor h (Z.shiftr h 33) in
  let h := u64 (h * 0x4f74430c22a54005) in
  Z.lxor h (Z.shiftr h 33).

Lemma unmix64_fmix64 h : is_u64 h → unmix64 (fmix64 h) = h.
Proof.
  intros Hh. unfold unmix64, fmix64. cbv zeta.
  rewrite xorshift33_involutive by auto with dynamo.
  rewrite u64_mul_inverse by first [solve [auto with dynamo]|reflexivity].
  rewrite xorshift33_involutive by auto with dynamo.
  rewrite u64_mul_inverse by first [solve [auto with dynamo]|reflexivity].
  by apply xorshift33_involutive.
Qed.

(** Hashes are 64-bit words. *)
Lemma fnv_loop_range s h : is_u64 h → is_u64 (fnv_loop s h).
Proof. revert h. induction s as [|c s IH]; intros h Hh; [done|]. cbn. apply IH. auto with dynamo. Qed.

Lemma fmix64_range h : is_u64 (fmix64 h).
Proof. unfold fmix64. cbv zeta. auto with dynamo. Qed.

Lemma hash64_range s : is_u64 (hash64 s).
Proof. apply fmix64_range. Qed.
#[export] Hint Resolve hash64_range : dynamo.

(** The finalizer of [hash64] adds no collision: two keys share a ring
    position exactly when their FNV-1a hashes agree. *)
Theorem hash64_collision_iff s1 s2 :
  hash64 s1 = hash64 s2 ↔ fnv_loop s1 fnv_offset = fnv_loop s2 fnv_offset.
Proof.
  assert (is_u64 fnv_offset) by (vm_compute; split; discriminate).
  unfold hash64. split; [|congruence]. intros E%(f_equal unmix64).
  by rewrite !unmix64_fmix64 in E by (by apply fnv_loop_range).
Qed.

(** The golden vectors shared with the Java gateway. *)
Example hash64_golden :
  hash64 "" = 0xd725c98e9509182e ∧ hash64 "a" = 0x43a941547f0150e5 ∧
  hash64 "hello" = 0xdfd47fc080e72add ∧ hash64 "user:42" = 0x673075b2a3d34704 ∧
  hash64 "node3#vn127" = 0x6ec2f14861562723 ∧
  hash64 "the quick brown fox" = 0x0a7e28780b4036a3.
Proof. vm_compute. repeat split. Qed.

(** ** Node ids *)

Definition is_delimiter (c : ascii) : bool := negb (id_char_ok c).

Lemma isValidNodeId_spec id :
  isValidNodeId id = true ↔
  (1 <= Z.of_nat (String.length id) <= 64 ∧ str_all id_char_ok id = true).
Proof.
  unfold isValidNodeId. destruct id as [|c id]; [cbn; split; [done|lia]|].
  cbn [str_empty orb]. destruct (Z.ltb_spec 64 (Z.of_nat (String.length (String c id)))).
  - split; [done|]. lia.
  - cbn [String.length] in *. split; [|tauto]. intros ->. split; [lia|done].
Qed.

(** An accepted id contains no character outside the allowlist. *)
Lemma valid_id_free id c : isValidNodeId id = true → id_char_ok c = false → str_free c id = true.
Proof.
  intros [_ Hid]%isValidNodeId_spec Hc. unfold str_free. eapply str_all_impl; [|exact Hid].
  intros x Hx. cbn. destruct (Ascii.eqb_spec x c); [congruence|done].
Qed.

Lemma valid_id_nonempty id : isValidNodeId id = true → id ≠ EmptyString.
Proof. by intros Hid ->. Qed.

(** An id accepted at an ingress is non-empty, at most 64 bytes, and free
    of every delimiter of the wire, gossip, clock and seed formats. *)
Theorem valid_id_has_no_delimiter id :
  isValidNodeId id = true →
  id ≠ EmptyString ∧ (String.length id ≤ 64)%nat ∧
  Forall (λ c, str_free c id = true) ["|"; ";"; ":"; ","; "#"; "010"]%char.
Proof.
  intros Hid. split_and!.
  - by apply valid_id_nonempty.
  - apply isValidNodeId_spec in Hid. lia.
  - repeat constructor; by apply valid_id_free.
Qed.

Lemma valid_id_has_no_delimiter_witness :
  isValidNodeId "kvstore-3.local_A" = true ∧ str_free ":" "kvstore-3.local_A" = true.
Proof.
  split; [reflexivity|].
  destruct (valid_id_has_no_delimiter "kvstore-3.local_A" eq_refl) as (_ & _ & H).
  inversion_clear H as [|? ? _ H2]. inversion_clear H2 as [|? ? _ H3].
  by inversion_clear H3.
Defined.
