(* ===== verification/Base64.v ===== *)
(** * Base64 (src/base64.cpp)

    [encode] and [decode] over byte strings, with the 32-bit [buffer] of the
    decoder and its reverse table as the code builds them.  The theorems show
    that decoding undoes encoding on every byte string, that the encoding has
    the length of RFC 4648, and that it contains no wire delimiter. *)
From S2P Require Import Prelude.
From Stdlib Require Import Ascii String ZArith Lia.
From stdpp Require Import base list strings numbers.

Local Open Scope Z_scope.

Module base64.

Definition kAlphabet : string :=
  "ABCDEFGHIJKLMNOPQRSTUVWXYZabcdefghijklmnopqrstuvwxyz0123456789+/".

(** [kAlphabet[i]]. *)
Definition alpha (i : Z) : ascii := default "A"%char (String.get (Z.to_nat i) kAlphabet).

(** [t.fill(0xFF)], then [t[kAlphabet[i]] = i] for [i < 64]. *)
Definition makeDecodeTable : list Z :=
  foldl (λ t i, <[Z.to_nat (byte_of (alpha (Z.of_nat i))) := Z.of_nat i]> t)
        (replicate 256 0xFF) (seq 0 64).

Definition kDecodeTable : list Z := Eval vm_compute in makeDecodeTable.

Definition kDecode (c : ascii) : Z := default 0xFF (kDecodeTable !! Z.to_nat (byte_of c)).

Definition sextet (n sh : Z) : ascii := alpha (Z.land (Z.shiftr n sh) 0x3F).

(** The three-byte loop and the padded tail of one or two bytes. *)
Fixpoint encode (raw : string) : string :=
  match raw with
  | String a (String b (String c rest)) =>
      let n := Z.lor (Z.lor (Z.shiftl (byte_of a) 16) (Z.shiftl (byte_of b) 8)) (byte_of c) in
      String (sextet n 18) (String (sextet n 12)
        (String (sextet n 6) (String (alpha (Z.land n 0x3F)) (encode rest))))
  | String a (String b EmptyString) =>
      let n := Z.lor (Z.shiftl (byte_of a) 16) (Z.shiftl (byte_of b) 8) in
      String (sextet n 18) (String (sextet n 12)
        (String (sextet n 6) (String "=" EmptyString)))
  | String a EmptyString =>
      let n := Z.shiftl (byte_of a) 16 in
      String (sextet n 18) (String (sextet n 12)
        (String "=" (String "=" EmptyString)))
  | EmptyString => EmptyString
  end.

(** The decoder loop, with [buffer] a [uint32_t] and [bits] the number of
    pending bits. *)
Fixpoint decode_loop (encoded : string) (buffer bits : Z) : string :=
  match encoded with
  | EmptyString => EmptyString
  | String c rest =>
      let v := kDecode c in
      if (v =? 0xFF) then decode_loop rest buffer bits
      else
        let buffer := Z.lor (u32 (Z.shiftl buffer 6)) v in
        let bits := bits + 6 in
        if (8 <=? bits) then
          let bits := bits - 8 in
          String (char_of (Z.land (Z.shiftr buffer bits) 0xFF)) (decode_loop rest buffer bits)
        else decode_loop rest buffer bits
  end.

Definition decode (encoded : string) : string := decode_loop encoded 0 0.

(** ** Lemmas *)

Lemma kDecodeTable_eq : kDecodeTable = makeDecodeTable.
Proof. vm_compute. reflexivity. Qed.

Definition alpha_ok (c : ascii) : bool := negb (kDecode c =? 0xFF).

Lemma alpha_table :
  forallb (λ i, kDecode (alpha (Z.of_nat i)) =? Z.of_nat i) (seq 0 64) = true.
Proof. vm_compute. reflexivity. Qed.

Lemma kDecode_alpha v : 0 <= v < 64 → kDecode (alpha v) = v.
Proof.
  intros Hv. pose proof (proj1 (forallb_forall _ _) alpha_table (Z.to_nat v)) as Ht. cbv beta in Ht.
  rewrite Z2Nat.id in Ht by lia. apply Z.eqb_eq, Ht, in_seq. lia.
Qed.

(** Bit operations as arithmetic. *)
Lemma lor_add a b k : 0 <= b < 2 ^ k → 0 <= k → Z.lor (Z.shiftl a k) b = a * 2 ^ k + b.
Proof.
  intros Hb Hk. rewrite Z.shiftl_mul_pow2, Z.add_nocarry_lxor, Z.lxor_lor; [done| | |done];
    apply Z.bits_inj'; intros i Hi; rewrite Z.land_spec, Z.testbit_0_l;
    (destruct (Z.lt_ge_cases i k);
     [by rewrite Z.mul_pow2_bits_low|]; rewrite andb_comm;
     (destruct (Z.eq_dec b 0) as [->|]; [by rewrite Z.testbit_0_l|]);
     rewrite Z.bits_above_log2; [done|lia|]; apply Z.log2_lt_pow2; [lia|];
     eapply Z.lt_le_trans; [apply Hb|apply Z.pow_le_mono_r; lia]).
Qed.

Lemma sextet_arith n sh : 0 <= sh → sextet n sh = alpha ((n / 2 ^ sh) mod 64).
Proof.
  intros. unfold sextet. change 0x3F with (Z.ones 6).
  by rewrite Z.land_ones, Z.shiftr_div_pow2 by lia.
Qed.

Lemma land_byte n : Z.land n 0xFF = n mod 256.
Proof. change 0xFF with (Z.ones 8). by rewrite Z.land_ones by lia. Qed.

Lemma land_sextet n : Z.land n 0x3F = n mod 64.
Proof. change 0x3F with (Z.ones 6). by rewrite Z.land_ones by lia. Qed.

(** One decoder step on an alphabet character. *)
Lemma decode_loop_alpha v rest buffer bits :
  0 <= v < 64 →
  decode_loop (String (alpha v) rest) buffer bits =
  let buffer := u32 (buffer * 64) + v in
  if (8 <=? bits + 6)
  then String (char_of ((buffer / 2 ^ (bits - 2)) mod 256)) (decode_loop rest buffer (bits - 2))
  else decode_loop rest buffer (bits + 6).
Proof.
  intros Hv. cbn [decode_loop]. rewrite kDecode_alpha by done.
  destruct (Z.eqb_spec v 255); [lia|]. cbv zeta.
  assert (Z.lor (u32 (Z.shiftl buffer 6)) v = u32 (buffer * 64) + v) as ->.
  { rewrite Z.shiftl_mul_pow2 by lia. change (2 ^ 6) with 64.
    set (w := u32 (buffer * 64)).
    assert (w = w / 64 * 2 ^ 6) as Hw by (subst w; unfold u32; Z.div_mod_to_equations; lia).
    rewrite Hw at 1. rewrite <- Z.shiftl_mul_pow2, lor_add by lia. lia. }
  replace (bits + 6 - 8) with (bits - 2) by lia.
  destruct (Z.leb_spec 8 (bits + 6)); [|done].
  by rewrite land_byte, Z.shiftr_div_pow2 by lia.
Qed.

Lemma decode_loop_pad rest buffer bits :
  decode_loop (String "=" rest) buffer bits = decode_loop rest buffer bits.
Proof. done. Qed.

Lemma char_of_eq b c : b = byte_of c → char_of b = c.
Proof. intros ->. apply char_of_byte_of. Qed.

(** [buffer << 6] keeps the low bits and only shifts in multiples of 2^32. *)
Lemma u32_shl6 b : ∃ q, u32 (b * 64) = b * 64 + q * 4294967296.
Proof. exists (- (b * 64 / 4294967296)). unfold u32. Z.div_mod_to_equations; lia. Qed.

(** The bytes produced by two, three and four alphabet characters, whatever
    the stale high bits of [buffer]. *)
Lemma decode_2 v0 v1 rest B :
  0 <= v0 < 64 → 0 <= v1 < 64 →
  ∃ B1, B1 mod 4096 = v0 * 64 + v1 ∧
  decode_loop (String (alpha v0) (String (alpha v1) rest)) B 0 =
  String (char_of (v0 * 4 + v1 / 16)) (decode_loop rest B1 4).
Proof.
  intros H0 H1. rewrite decode_loop_alpha by done. cbv zeta.
  change (8 <=? 0 + 6) with false. change (0 + 6) with 6. cbv iota.
  rewrite decode_loop_alpha by done. cbv zeta.
  change (8 <=? 6 + 6) with true. change (6 - 2) with 4. change (2 ^ 4) with 16. cbv iota.
  destruct (u32_shl6 B) as [q ->]. destruct (u32_shl6 (B * 64 + q * 4294967296 + v0)) as [q' ->].
  set (k := B + q * 67108864 + q' * 1048576).
  replace ((B * 64 + q * 4294967296 + v0) * 64 + q' * 4294967296 + v1)
    with (v0 * 64 + v1 + k * 4096) by lia.
  exists (v0 * 64 + v1 + k * 4096). clearbody k.
  split; [|do 2 f_equal]; Z.div_mod_to_equations; lia.
Qed.

Lemma decode_3 v0 v1 v2 rest B :
  0 <= v0 < 64 → 0 <= v1 < 64 → 0 <= v2 < 64 →
  ∃ B2, B2 mod 4 = v2 mod 4 ∧
  decode_loop (String (alpha v0) (String (alpha v1) (String (alpha v2) rest))) B 0 =
  String (char_of (v0 * 4 + v1 / 16))
    (String (char_of (v1 mod 16 * 16 + v2 / 4)) (decode_loop rest B2 2)).
Proof.
  intros H0 H1 H2. destruct (decode_2 v0 v1 (String (alpha v2) rest) B H0 H1) as (B1 & HB & ->).
  rewrite decode_loop_alpha by done. cbv zeta.
  change (8 <=? 4 + 6) with true. change (4 - 2) with 2. change (2 ^ 2) with 4. cbv iota.
  destruct (u32_shl6 B1) as [q ->]. exists (B1 * 64 + q * 4294967296 + v2).
  split; [|do 3 f_equal]; Z.div_mod_to_equations; lia.
Qed.

Lemma decode_4 v0 v1 v2 v3 rest B :
  0 <= v0 < 64 → 0 <= v1 < 64 → 0 <= v2 < 64 → 0 <= v3 < 64 →
  ∃ B3,
  decode_loop (String (alpha v0) (String (alpha v1) (String (alpha v2) (String (alpha v3) rest)))) B 0 =
  String (char_of (v0 * 4 + v1 / 16))
    (String (char_of (v1 mod 16 * 16 + v2 / 4))
       (String (char_of (v2 mod 4 * 64 + v3)) (decode_loop rest B3 0))).
Proof.
  intros H0 H1 H2 H3.
  destruct (decode_3 v0 v1 v2 (String (alpha v3) rest) B H0 H1 H2) as (B2 & HB & ->).
  rewrite decode_loop_alpha by done. cbv zeta.
  change (8 <=? 2 + 6) with true. change (2 - 2) with 0. change (2 ^ 0) with 1. cbv iota.
  destruct (u32_shl6 B2) as [q ->]. exists (B2 * 64 + q * 4294967296 + v3).
  do 4 f_equal. rewrite Z.div_1_r. Z.div_mod_to_equations; lia.
Qed.

Lemma encode_3 a b c rest n :
  n = byte_of a * 65536 + byte_of b * 256 + byte_of c →
  encode (String a (String b (String c rest))) =
  String (alpha (n / 262144 mod 64)) (String (alpha (n / 4096 mod 64))
    (String (alpha (n / 64 mod 64)) (String (alpha (n mod 64)) (encode rest)))).
Proof.
  intros ->. pose proof (byte_of_range a). pose proof (byte_of_range b). pose proof (byte_of_range c).
  cbn [encode]. rewrite !sextet_arith, land_sextet by lia.
  assert (Z.lor (Z.lor (Z.shiftl (byte_of a) 16) (Z.shiftl (byte_of b) 8)) (byte_of c)
          = byte_of a * 65536 + byte_of b * 256 + byte_of c) as ->; [|done].
  rewrite <- Z.lor_assoc, (lor_add (byte_of b)), lor_add by lia. lia.
Qed.

Lemma encode_2 a b n :
  n = byte_of a * 65536 + byte_of b * 256 →
  encode (String a (String b EmptyString)) =
  String (alpha (n / 262144 mod 64)) (String (alpha (n / 4096 mod 64))
    (String (alpha (n / 64 mod 64)) (String "=" EmptyString))).
Proof.
  intros ->. pose proof (byte_of_range a). pose proof (byte_of_range b).
  cbn [encode]. rewrite !sextet_arith by lia.
  assert (Z.lor (Z.shiftl (byte_of a) 16) (Z.shiftl (byte_of b) 8)
          = byte_of a * 65536 + byte_of b * 256) as ->; [|done].
  rewrite Z.shiftl_mul_pow2 with (a := byte_of b) by lia. rewrite lor_add by lia. lia.
Qed.

Lemma encode_1 a n :
  n = byte_of a * 65536 →
  encode (String a EmptyString) =
  String (alpha (n / 262144 mod 64)) (String (alpha (n / 4096 mod 64)) (String "=" (String "=" EmptyString))).
Proof.
  intros ->. cbn [encode]. rewrite !sextet_arith by lia.
  by rewrite Z.shiftl_mul_pow2 by lia.
Qed.

(** Induction three bytes at a time, as the encoder walks. *)
Lemma string_ind3 (P : string → Prop) :
  P EmptyString → (∀ a, P (String a EmptyString)) → (∀ a b, P (String a (String b EmptyString))) →
  (∀ a b c r, P r → P (String a (String b (String c r)))) → ∀ s, P s.
Proof.
  intros H0 H1 H2 H3. fix IH 1. intros [|a [|b [|c r]]]; [done|done|done|]. by apply H3.
Qed.

Ltac sextet_bounds := apply Z.mod_pos_bound; lia.

Lemma decode_loop_encode raw B : decode_loop (encode raw) B 0 = raw.
Proof.
  revert B. induction raw as [|a|a b|a b c r IH] using string_ind3; intros B; [done|..];
    pose proof (byte_of_range a); try pose proof (byte_of_range b); try pose proof (byte_of_range c).
  - erewrite encode_1 by reflexivity. set (n := byte_of a * 65536).
    destruct (decode_2 (n / 262144 mod 64) (n / 4096 mod 64) (String "=" (String "=" EmptyString)) B)
      as (B1 & _ & ->); [sextet_bounds..|].
    rewrite !decode_loop_pad. cbn [decode_loop]. f_equal. apply char_of_eq.
    subst n. Z.div_mod_to_equations; lia.
  - erewrite encode_2 by reflexivity. set (n := byte_of a * 65536 + byte_of b * 256).
    destruct (decode_3 (n / 262144 mod 64) (n / 4096 mod 64) (n / 64 mod 64) (String "=" EmptyString) B)
      as (B1 & _ & ->); [sextet_bounds..|].
    rewrite !decode_loop_pad. cbn [decode_loop].
    f_equal; [|f_equal]; apply char_of_eq; subst n; Z.div_mod_to_equations; lia.
  - erewrite encode_3 by reflexivity. set (n := byte_of a * 65536 + byte_of b * 256 + byte_of c).
    destruct (decode_4 (n / 262144 mod 64) (n / 4096 mod 64) (n / 64 mod 64) (n mod 64) (encode r) B)
      as (B1 & ->); [sextet_bounds..|].
    rewrite IH. f_equal; [|f_equal; [|f_equal]]; apply char_of_eq; subst n; Z.div_mod_to_equations; lia.
Qed.

Lemma decode_encode raw : decode (encode raw) = raw.
Proof. apply decode_loop_encode. Qed.

(** The characters [encode] emits. *)
Definition out_char (c : ascii) : bool := alpha_ok c || Ascii.eqb c "=".

Lemma alpha_out v : 0 <= v < 64 → out_char (alpha v) = true.
Proof.
  intros Hv. unfold out_char, alpha_ok. rewrite kDecode_alpha by done.
  by destruct (Z.eqb_spec v 255); [lia|].
Qed.

Lemma encode_chars raw : str_all out_char (encode raw) = true.
Proof.
  induction raw as [|a|a b|a b c r IH] using string_ind3; [done|..];
    [erewrite encode_1|erewrite encode_2|erewrite encode_3]; try reflexivity;
    cbn [str_all]; rewrite !alpha_out by sextet_bounds; [done|done|exact IH].
Qed.

Lemma encode_free c raw : out_char c = false → str_free c (encode raw) = true.
Proof.
  intros Hc. unfold str_free. eapply str_all_impl; [|apply encode_chars].
  intros x Hx. cbn. destruct (Ascii.eqb_spec x c); [congruence|done].
Qed.

(** [decode] undoes [encode] on every byte string, delimiters and NULs
    included, and the encoded text is padded to a multiple of four. *)
Theorem base64_roundtrip raw :
  decode (encode raw) = raw ∧
  Z.of_nat (String.length (encode raw)) = (Z.of_nat (String.length raw) + 2) / 3 * 4.
Proof.
  split; [apply decode_encode|].
  induction raw as [|a|a b|a b c r IH] using string_ind3; [done..|].
  cbn [encode String.length]. rewrite !Nat2Z.inj_succ, IH.
  Z.div_mod_to_equations; lia.
Qed.

(** The test vectors of the repository. *)
Example base64_vectors :
  encode "Man" = "TWFu" ∧ encode "Ma" = "TWE=" ∧ encode "M" = "TQ==" ∧ decode "TW F|u" = "Man".
Proof. vm_compute. repeat split. Qed.

End base64.
