(* ===== verification/Clock.v ===== *)
(** * Vector clocks (src/vector_clock.h, src/vector_clock.cpp)

    The clock is the [std::map<string, Entry>] of the class, a [gmap] iterated
    in key order.  Every operation is a definition: [get], [set] (both
    overloads), [increment], [prune], [compare], [merge], [operator==],
    [serialize] and [parse].  The wall clock [nowMs()] is an argument.

    The theorems relate the code to the pointwise order on counters: [compare]
    decides it, [merge] is its least upper bound, [operator==] is its
    equivalence, [prune] keeps exactly the newest entries, and [parse] undoes
    [serialize]. *)
From S2P Require Import Prelude.
From Stdlib Require Import Ascii String ZArith Lia.
From stdpp Require Import sorting base gmap sets list strings numbers.

Local Open Scope Z_scope.

Module VectorClock.

Inductive Ordering := EQUAL | A_DOMINATES | B_DOMINATES | CONCURRENT.

Record Entry := mkEntry { counter : Z; updated_ms : Z }.

#[global] Instance Ordering_eq_dec : EqDecision Ordering.
Proof. solve_decision. Defined.
#[global] Instance Entry_eq_dec : EqDecision Entry.
Proof. solve_decision. Defined.

Abbreviation clock := (gmap string Entry).

Definition get (vc : clock) (node : string) : Z :=
  match vc !! node with
  | None => 0
  | Some e => counter e
  end.

(** [set(node, counter, updated_ms)]: zeros are never stored. *)
Definition set_at (vc : clock) (node : string) (c ms : Z) : clock :=
  if c =? 0 then delete node vc else <[node := mkEntry c ms]> vc.

(** [set(node, counter)] stamps the current time. *)
Definition set (now : Z) (vc : clock) (node : string) (c : Z) : clock := set_at vc node c now.

(** [counts_[node]] default-constructs a missing entry. *)
Definition increment (now : Z) (vc : clock) (node : string) : clock :=
  let e := default (mkEntry 0 0) (vc !! node) in
  <[node := mkEntry (u64 (counter e + 1)) now]> vc.

(** [pair<uint64_t, string>] compared by [std::sort]. *)
Definition age_le (a b : Z * string) : Prop :=
  a.1 < b.1 ∨ (a.1 = b.1 ∧ String.le a.2 b.2).

#[global] Instance age_le_dec : RelDecision age_le.
Proof. intros a b. unfold age_le. apply _. Defined.

Definition by_age (vc : clock) : list (Z * string) :=
  merge_sort age_le ((λ kv, (updated_ms kv.2, kv.1)) <$> entries vc).

Definition prune (vc : clock) (max_entries : nat) : clock :=
  if bool_decide (size vc ≤ max_entries)%nat then vc
  else
    let to_drop := (size vc - max_entries)%nat in
    foldl (λ vc p, delete p.2 vc) vc (take to_drop (by_age vc)).

(** The two loops of [compare], carrying the two flags. *)
Definition compare_a (b : clock) (fl : bool * bool) (kv : string * Entry) : bool * bool :=
  let bv := get b kv.1 in
  if bv <? counter kv.2 then (true, fl.2)
  else if counter kv.2 <? bv then (fl.1, true)
  else fl.

Definition compare_b (a : clock) (fl : bool * bool) (kv : string * Entry) : bool * bool :=
  match a !! kv.1 with
  | Some _ => fl
  | None => (fl.1, true)
  end.

Definition compare (a b : clock) : Ordering :=
  let fl := foldl (compare_a b) (false, false) (entries a) in
  let '(aGreaterSomewhere, bGreaterSomewhere) := foldl (compare_b a) fl (entries b) in
  if negb aGreaterSomewhere && negb bGreaterSomewhere then EQUAL
  else if aGreaterSomewhere && negb bGreaterSomewhere then A_DOMINATES
  else if bGreaterSomewhere && negb aGreaterSomewhere then B_DOMINATES
  else CONCURRENT.

Definition merge (a b : clock) : clock :=
  foldl (λ out kv, if get out kv.1 <? counter kv.2 then <[kv.1 := kv.2]> out else out)
        a (entries b).

(** [operator==]. *)
Definition eqb (a b : clock) : bool :=
  if negb (bool_decide (size a = size b)) then false
  else forallb (λ kv, match b !! kv.1 with
                      | None => false
                      | Some e => counter e =? counter kv.2
                      end) (entries a).

Definition entry_token (kv : string * Entry) : string :=
  kv.1 +:+ ":" +:+ to_string (counter kv.2) +:+ ":" +:+ to_string (updated_ms kv.2).

Definition serialize (vc : clock) : string := str_join "," (entry_token <$> entries vc).

(** One iteration of the [getline] loop of [parse]; [None] is [continue] (or
    the swallowed [stoull] exception). *)
Definition parse_entry (entry : string) : option (string * Z * Z) :=
  if str_empty entry then None else
  match find_char ":" entry with
  | None => None
  | Some first_colon =>
      let node := substr entry 0 first_colon in
      let tail := substr_from entry (first_colon + 1) in
      if str_empty node || str_empty tail then None else
      let '(num, ts) :=
        match find_char ":" tail with
        | None => (tail, "0")
        | Some second_colon =>
            let ts := substr_from tail (second_colon + 1) in
            (substr tail 0 second_colon, if str_empty ts then "0" else ts)
        end in
      if str_empty num then None else
      match stoull num, stoull ts with
      | Some n, Some t => Some (node, n, t)
      | _, _ => None
      end
  end.

Definition parse (s : string) : clock :=
  if str_empty s then ∅
  else foldl (λ vc entry, match parse_entry entry with
                          | Some (node, n, t) => set_at vc node n t
                          | None => vc
                          end) ∅ (getlines s ",").

(** ** The causal order on clocks *)

(** Stored counters are positive 64-bit words, and so are the stamps. *)
Definition entry_wf (e : Entry) : Prop := 0 < counter e <= U64_MAX ∧ is_u64 (updated_ms e).
Definition wf (vc : clock) : Prop := map_Forall (λ _, entry_wf) vc.

Definition causal_le (a b : clock) : Prop := ∀ k, get a k <= get b k.
Definition causal_eq (a b : clock) : Prop := ∀ k, get a k = get b k.
Definition causal_lt (a b : clock) : Prop := causal_le a b ∧ ∃ k, get a k < get b k.

#[global] Instance entry_wf_dec e : Decision (entry_wf e).
Proof. unfold entry_wf, is_u64. apply _. Defined.
#[global] Instance wf_dec vc : Decision (wf vc).
Proof. unfold wf. apply _. Defined.

#[global] Instance causal_eq_equiv : Equivalence causal_eq.
Proof. split; [by intros ? ?|by intros a b E k|]. intros a b c H1 H2 k. by rewrite H1. Qed.
#[global] Instance causal_le_preorder : PreOrder causal_le.
Proof. split; [intros a k; lia|]. intros a b c H1 H2 k. specialize (H1 k). specialize (H2 k). lia. Qed.
#[global] Instance causal_le_antisymm : AntiSymm causal_eq causal_le.
Proof. intros a b H1 H2 k. specialize (H1 k). specialize (H2 k). lia. Qed.
#[global] Instance causal_lt_trans : Transitive causal_lt.
Proof.
  intros a b c [H1 [k Hk]] [H2 _]. split; [by transitivity b|].
  exists k. specialize (H2 k). lia.
Qed.

#[global] Instance get_proper : Proper (causal_eq ==> eq ==> eq) get.
Proof. intros a b E k ? <-. apply E. Qed.
#[global] Instance causal_le_proper : Proper (causal_eq ==> causal_eq ==> iff) causal_le.
Proof. intros a a' Ea b b' Eb. unfold causal_le. by setoid_rewrite Ea; setoid_rewrite Eb. Qed.
#[global] Instance causal_lt_proper : Proper (causal_eq ==> causal_eq ==> iff) causal_lt.
Proof.
  intros a a' Ea b b' Eb. unfold causal_lt. rewrite Ea, Eb.
  by setoid_rewrite Ea; setoid_rewrite Eb.
Qed.

Lemma get_wf vc k : wf vc → 0 <= get vc k <= U64_MAX.
Proof.
  intros Hwf. unfold get. destruct (vc !! k) as [e|] eqn:E; [|unfold U64_MAX; lia].
  destruct (Hwf k e E). lia.
Qed.

Lemma get_None vc k : wf vc → get vc k = 0 ↔ vc !! k = None.
Proof.
  intros Hwf. unfold get. destruct (vc !! k) as [e|] eqn:E; [|done].
  destruct (Hwf k e E) as [? _]. split; [lia|done].
Qed.

Lemma get_insert vc k e j :
  get (<[k := e]> vc) j = if decide (k = j) then counter e else get vc j.
Proof. unfold get. rewrite lookup_insert. by case_decide. Qed.

Lemma get_delete vc k j : get (delete k vc) j = if decide (k = j) then 0 else get vc j.
Proof. unfold get. rewrite lookup_delete. by case_decide. Qed.

Lemma get_set_at vc k c ms j : get (set_at vc k c ms) j = if decide (k = j) then c else get vc j.
Proof.
  unfold set_at. destruct (Z.eqb_spec c 0) as [->|].
  - by rewrite get_delete.
  - by rewrite get_insert.
Qed.

Lemma wf_empty : wf ∅.
Proof. apply map_Forall_empty. Qed.

Lemma wf_delete vc k : wf vc → wf (delete k vc).
Proof. apply map_Forall_delete. Qed.

Lemma wf_set_at vc k c ms : is_u64 c → is_u64 ms → wf vc → wf (set_at vc k c ms).
Proof.
  intros Hc Hms Hwf. unfold set_at. destruct (Z.eqb_spec c 0); [by apply wf_delete|].
  apply map_Forall_insert_2; [|done]. split; [|done]. unfold is_u64 in Hc. cbn. lia.
Qed.

#[export] Hint Resolve wf_empty wf_delete wf_set_at : dynamo.

(** ** [compare] decides the causal order *)

Lemma compare_a_flags a b l fl :
  (∀ kv, kv ∈ l → get a kv.1 = counter kv.2) →
  foldl (compare_a b) fl l =
  (fl.1 || existsb (λ kv, get b kv.1 <? get a kv.1) l,
   fl.2 || existsb (λ kv, get a kv.1 <? get b kv.1) l).
Proof.
  revert fl. induction l as [|kv l IH]; intros fl Hl; cbn [foldl existsb].
  { destruct fl as [[] []]; done. }
  rewrite IH by set_solver. unfold compare_a. rewrite (Hl kv) by set_solver.
  destruct fl as [f1 f2]. cbn [fst snd].
  destruct (Z.ltb_spec (get b kv.1) (counter kv.2)), (Z.ltb_spec (counter kv.2) (get b kv.1));
    try lia; cbn [fst snd]; destruct f1, f2; done.
Qed.

Lemma compare_b_flags a l fl :
  foldl (compare_b a) fl l =
  (fl.1, fl.2 || existsb (λ kv, bool_decide (a !! kv.1 = None)) l).
Proof.
  revert fl. induction l as [|kv l IH]; intros fl; cbn [foldl existsb].
  { by destruct fl as [? []]. }
  rewrite IH. unfold compare_b. destruct (a !! kv.1) eqn:E; cbn [fst snd].
  - done.
  - destruct fl as [? []]; done.
Qed.

(** Both flags, computed over the union of the keys. *)
Definition some_greater (a b : clock) : Prop := ∃ k, get b k < get a k.

Lemma compare_flags a b :
  wf a → wf b →
  ∃ ga gb, (ga = true ↔ some_greater a b) ∧ (gb = true ↔ some_greater b a) ∧
  compare a b = if negb ga && negb gb then EQUAL else if ga && negb gb then A_DOMINATES
                else if gb && negb ga then B_DOMINATES else CONCURRENT.
Proof.
  intros Ha Hb. unfold compare.
  rewrite (compare_a_flags a b) by
    (intros [k e] He; apply elem_of_entries in He; unfold get; cbn; by rewrite He).
  rewrite compare_b_flags. cbn [fst snd]. eexists _, _. split_and!; [| |reflexivity].
  - cbn. rewrite existsb_entries. unfold some_greater. split.
    + intros (k & e & _ & Hlt%Z.ltb_lt). eauto.
    + intros [k Hlt]. pose proof (get_wf b k Hb).
      destruct (a !! k) as [e|] eqn:E; [|apply (get_None a k Ha) in E; lia].
      exists k, e. split; [done|]. by apply Z.ltb_lt.
  - cbn. rewrite orb_true_iff, !existsb_entries. unfold some_greater. split.
    + intros [(k & e & _ & Hlt%Z.ltb_lt)|(k & e & He & HN%bool_decide_eq_true)]; [by eauto|].
      exists k. cbn in HN. apply (get_None a k Ha) in HN as ->.
      unfold get. rewrite He. by destruct (Hb k e He) as [[? _] _].
    + intros [k Hlt]. destruct (a !! k) as [e|] eqn:E.
      * left. exists k, e. split; [done|]. by apply Z.ltb_lt.
      * right. pose proof (get_wf a k Ha).
        destruct (b !! k) as [e|] eqn:E'; [|apply (get_None b k Hb) in E'; lia].
        exists k, e. split; [done|]. by apply bool_decide_eq_true.
Qed.

Lemma not_some_greater a b : ¬ some_greater a b ↔ causal_le a b.
Proof.
  unfold some_greater, causal_le. split.
  - intros H k. destruct (Z.lt_ge_cases (get b k) (get a k)); [|done]. exfalso. eauto.
  - intros H [k Hk]. specialize (H k). lia.
Qed.

(** What each verdict of [compare] means. *)
Definition ordering_spec (o : Ordering) (a b : clock) : Prop :=
  match o with
  | EQUAL => causal_eq a b
  | A_DOMINATES => causal_lt b a
  | B_DOMINATES => causal_lt a b
  | CONCURRENT => ¬ causal_le a b ∧ ¬ causal_le b a
  end.

Lemma compare_sound a b : wf a → wf b → ordering_spec (compare a b) a b.
Proof.
  intros Ha Hb. destruct (compare_flags a b Ha Hb) as (ga & gb & Hga & Hgb & ->).
  assert (ga = false ↔ causal_le a b) as Hla.
  { rewrite <- not_some_greater, <- Hga. by destruct ga. }
  assert (gb = false ↔ causal_le b a) as Hlb.
  { rewrite <- not_some_greater, <- Hgb. by destruct gb. }
  destruct ga, gb; cbn.
  - rewrite <- Hla, <- Hlb. done.
  - split; [by apply Hlb|]. by apply Hga.
  - split; [by apply Hla|]. by apply Hgb.
  - apply (anti_symm causal_le); [by apply Hla|by apply Hlb].
Qed.

(** The four verdicts exclude each other, so the verdict is determined. *)
Lemma ordering_spec_le o a b :
  ordering_spec o a b →
  (causal_le a b ↔ o = EQUAL ∨ o = B_DOMINATES) ∧ (causal_le b a ↔ o = EQUAL ∨ o = A_DOMINATES).
Proof.
  assert (∀ x y, causal_eq x y → causal_le x y) as Heq by (intros x y E k; rewrite (E k); lia).
  assert (∀ x y, causal_lt x y → causal_le y x → False) as Hex.
  { intros x y [_ [k Hk]] H. specialize (H k). lia. }
  destruct o; cbn.
  - intros E. split; split; auto. intros _. apply Heq. by symmetry.
  - intros Hlt. split; split; intros H; auto; [by destruct (Hex b a)|by destruct H|by apply Hlt].
  - intros Hlt. split; split; intros H; auto; [by apply Hlt|by destruct (Hex a b)|by destruct H].
  - intros [H1 H2]. split; split; naive_solver.
Qed.

Lemma ordering_spec_unique o1 o2 a b : ordering_spec o1 a b → ordering_spec o2 a b → o1 = o2.
Proof.
  intros [H1 H2]%ordering_spec_le [H3 H4]%ordering_spec_le.
  rewrite H1 in H3. rewrite H2 in H4. clear H1 H2. destruct o1, o2; naive_solver.
Qed.

Lemma compare_spec a b o : wf a → wf b → compare a b = o ↔ ordering_spec o a b.
Proof.
  intros Ha Hb. split; [intros <-; by apply compare_sound|].
  intros Ho. eapply ordering_spec_unique; [by apply compare_sound|done].
Qed.

(** ** [merge] is the least upper bound *)

Lemma merge_lookup a b k :
  merge a b !! k = match b !! k with
                   | Some e => if get a k <? counter e then Some e else a !! k
                   | None => a !! k
                   end.
Proof.
  unfold merge. rewrite <- (list_to_map_entries b) at 2.
  pose proof (NoDup_entries_fst b) as Hnd. revert a Hnd.
  induction (entries b) as [|[j e] l IH]; intros a Hnd; cbn [foldl]; [done|].
  apply NoDup_fst_cons in Hnd as [Hj Hnd]. cbn [fst snd].
  rewrite list_to_map_cons, lookup_insert. rewrite IH by done. cbn.
  destruct (decide (j = k)) as [->|Hne].
  - rewrite (not_elem_of_list_to_map_1 l k) by done.
    destruct (get a k <? counter e); [|done]. apply lookup_insert_eq.
  - assert (∀ m : clock, <[j := e]> m !! k = m !! k) as Hm by (intros; by rewrite lookup_insert_ne).
    destruct (get a j <? counter e); [|done].
    unfold get at 1. rewrite !Hm. done.
Qed.

Lemma get_merge a b k : wf a → wf b → get (merge a b) k = Z.max (get a k) (get b k).
Proof.
  intros Ha Hb. pose proof (get_wf a k Ha). unfold get at 1 3. rewrite merge_lookup.
  destruct (b !! k) as [e|] eqn:E; [|fold (get a k); lia].
  destruct (Z.ltb_spec (get a k) (counter e)); [lia|]. fold (get a k). lia.
Qed.

Lemma wf_merge a b : wf a → wf b → wf (merge a b).
Proof.
  intros Ha Hb k e. rewrite merge_lookup. destruct (b !! k) as [e'|] eqn:E; [|apply Ha].
  case_match; [|apply Ha]. intros [= <-]. by apply (Hb k).
Qed.

(** ** [operator==] *)

Lemma eqb_spec a b : wf a → wf b → eqb a b = true ↔ causal_eq a b.
Proof.
  intros Ha Hb. unfold eqb.
  assert (forallb (λ kv, match b !! kv.1 with None => false | Some e => counter e =? counter kv.2 end)
            (entries a) = true ↔ ∀ k e, a !! k = Some e → ∃ e', b !! k = Some e' ∧ counter e' = counter e) as Hf.
  { rewrite forallb_entries. apply forall_proper. intros k. apply forall_proper. intros e. cbn.
    apply forall_proper. intros _. destruct (b !! k) as [e'|]; [|naive_solver].
    rewrite Z.eqb_eq. naive_solver. }
  split.
  - case_bool_decide as Hsz; cbn; [|done]. rewrite Hf. intros Hin k.
    assert (dom a = dom b) as Hdom.
    { apply set_subseteq_size_eq; [|rewrite !size_dom; lia].
      intros x [e He]%elem_of_dom. destruct (Hin x e He) as (e' & He' & _).
      apply elem_of_dom. eauto. }
    destruct (a !! k) as [e|] eqn:E.
    + destruct (Hin k e E) as (e' & E' & Hc). unfold get. by rewrite E, E'.
    + assert (b !! k = None) as E' by (apply not_elem_of_dom; rewrite <- Hdom; by apply not_elem_of_dom).
      unfold get. by rewrite E, E'.
  - intros E. assert (dom a = dom b) as Hdom.
    { apply set_eq. intros k. rewrite !elem_of_dom, <- !not_eq_None_Some.
      by rewrite <- !get_None, (E k). }
    rewrite bool_decide_eq_true_2 by (by rewrite <- !size_dom, Hdom). cbn. rewrite Hf.
    intros k e He. specialize (E k). unfold get in E. rewrite He in E.
    destruct (b !! k) as [e'|] eqn:E'; [by exists e'|].
    destruct (Ha k e He). lia.
Qed.

(** ** Local updates *)

Lemma get_increment now vc k j :
  get (increment now vc k) j = if decide (k = j) then u64 (get vc k + 1) else get vc j.
Proof.
  unfold increment. rewrite get_insert. cbn. case_decide; [|done].
  unfold get. by destruct (vc !! k).
Qed.

Lemma wf_increment now vc k :
  is_u64 now → wf vc → get vc k < U64_MAX → wf (increment now vc k).
Proof.
  intros Hnow Hwf Hlt. apply map_Forall_insert_2; [|done]. split; [|done]. cbn.
  pose proof (get_wf vc k Hwf). unfold get in *. destruct (vc !! k); cbn in *;
    rewrite u64_id by (unfold is_u64; lia); lia.
Qed.

(** ** [prune] drops the oldest entries *)

#[global] Instance age_le_trans : Transitive age_le.
Proof.
  intros [x1 x2] [y1 y2] [z1 z2]. unfold age_le. cbn.
  intros [H1|[-> H1]] [H2|[-> H2]]; [left; lia|left; lia|left; lia|].
  right. split; [done|]. by transitivity y2.
Qed.
#[global] Instance age_le_total : Total age_le.
Proof.
  intros [x1 x2] [y1 y2]. unfold age_le. cbn.
  destruct (Z.lt_trichotomy x1 y1) as [?|[->|?]]; [by left; left| |by right; left].
  destruct (total String.le x2 y2); [left|right]; by right.
Qed.
#[global] Instance age_le_antisymm : AntiSymm eq age_le.
Proof.
  intros [x1 x2] [y1 y2]. unfold age_le. cbn. intros [?|[-> H1]] [?|[? H2]]; try lia.
  f_equal. by apply (anti_symm String.le).
Qed.

Lemma elem_of_by_age vc t k : (t, k) ∈ by_age vc ↔ ∃ e, vc !! k = Some e ∧ updated_ms e = t.
Proof.
  unfold by_age. rewrite merge_sort_Permutation, list_elem_of_fmap. split.
  - intros ([j e] & [= -> ->] & Hin). apply elem_of_entries in Hin. eauto.
  - intros (e & He & <-). exists (k, e). split; [done|]. by apply elem_of_entries.
Qed.

Lemma by_age_keys vc : (by_age vc).*2 ≡ₚ (entries vc).*1.
Proof.
  unfold by_age. rewrite merge_sort_Permutation, <- list_fmap_compose. done.
Qed.

Lemma by_age_length vc : length (by_age vc) = size vc.
Proof. unfold by_age. by rewrite merge_sort_Permutation, length_fmap, length_entries. Qed.

Lemma by_age_sorted vc : StronglySorted age_le (by_age vc).
Proof. apply (StronglySorted_merge_sort age_le). Qed.

Lemma foldl_delete_lookup (l : list (Z * string)) (vc : clock) k :
  foldl (λ vc p, delete p.2 vc) vc l !! k = if bool_decide (k ∈ l.*2) then None else vc !! k.
Proof.
  revert vc. induction l as [|[t j] l IH]; intros vc; cbn [foldl fmap list_fmap]; [done|].
  rewrite IH, lookup_delete. cbn [snd].
  repeat case_bool_decide; try case_decide; set_solver.
Qed.

(** The keys [prune] erases. *)
Definition dropped (vc : clock) (max_entries : nat) : list string :=
  (take (size vc - max_entries) (by_age vc)).*2.

Lemma prune_lookup vc max k :
  prune vc max !! k = if bool_decide (k ∈ dropped vc max) then None else vc !! k.
Proof.
  unfold prune, dropped. case_bool_decide as Hsz.
  - replace (size vc - max)%nat with 0%nat by lia. cbn. by case_bool_decide; set_solver.
  - apply foldl_delete_lookup.
Qed.

Lemma prune_sub vc max k e : prune vc max !! k = Some e → vc !! k = Some e.
Proof. rewrite prune_lookup. by case_bool_decide. Qed.

Lemma wf_prune vc max : wf vc → wf (prune vc max).
Proof. intros Hwf k e He. eapply Hwf, prune_sub, He. Qed.

Lemma prune_causal_le vc max : wf vc → causal_le (prune vc max) vc.
Proof.
  intros Hwf k. pose proof (get_wf vc k Hwf). unfold get at 1.
  destruct (prune vc max !! k) as [e|] eqn:E; [|lia].
  apply prune_sub in E. unfold get. rewrite E. lia.
Qed.

Lemma dropped_nodup vc max : NoDup (dropped vc max).
Proof.
  unfold dropped. rewrite fmap_take. eapply sublist_NoDup; [|apply sublist_take].
  rewrite by_age_keys. apply NoDup_entries_fst.
Qed.

Lemma dropped_in vc max k : k ∈ dropped vc max → is_Some (vc !! k).
Proof.
  unfold dropped. intros ([t j] & -> & Hin)%list_elem_of_fmap.
  eapply elem_of_sublist in Hin; [|apply sublist_take].
  apply elem_of_by_age in Hin as (e & He & _). by exists e.
Qed.

Lemma prune_size vc max : size (prune vc max) = (size vc `min` max)%nat.
Proof.
  assert (dom (prune vc max) = dom vc ∖ list_to_set (dropped vc max)) as Hdom.
  { apply set_eq. intros k. rewrite elem_of_difference, !elem_of_dom, prune_lookup, elem_of_list_to_set.
    case_bool_decide; [|naive_solver]. split; [by intros [? ?]|naive_solver]. }
  rewrite <- !size_dom, Hdom, size_difference.
  - rewrite size_list_to_set by apply dropped_nodup. unfold dropped.
    rewrite length_fmap, length_take, by_age_length, size_dom. lia.
  - intros k Hk%elem_of_list_to_set. by apply elem_of_dom, (dropped_in _ max).
Qed.

(** Everything erased is older than everything kept. *)
Lemma prune_oldest_first vc max k e j d :
  prune vc max !! k = Some e → vc !! j = Some d → prune vc max !! j = None →
  age_le (updated_ms d, j) (updated_ms e, k).
Proof.
  rewrite !prune_lookup. case_bool_decide as Hk; [done|]. intros He Hd.
  case_bool_decide as Hj; [|congruence]. intros _. unfold dropped in *.
  set (n := (size vc - max)%nat) in *.
  assert ((updated_ms d, j) ∈ take n (by_age vc)) as Hjin.
  { apply list_elem_of_fmap in Hj as ([t j'] & E & Hin). cbn in E. subst j'.
    assert ((t, j) ∈ by_age vc) as Hin'.
    { eapply elem_of_sublist; [exact Hin|apply sublist_take]. }
    apply elem_of_by_age in Hin' as (d' & Hd' & <-). congruence. }
  assert ((updated_ms e, k) ∈ drop n (by_age vc)) as Hkin.
  { assert ((updated_ms e, k) ∈ by_age vc) as Hin by (apply elem_of_by_age; eauto).
    rewrite <- (take_drop n (by_age vc)) in Hin. apply elem_of_app in Hin as [Hin|Hin]; [|done].
    exfalso. apply Hk, list_elem_of_fmap. by exists (updated_ms e, k). }
  pose proof (by_age_sorted vc) as Hs. rewrite <- (take_drop n (by_age vc)) in Hs.
  by eapply StronglySorted_app_1_elem_of.
Qed.

(** An entry that is newer than every other one survives. *)
Lemma prune_keeps_newest vc max k e :
  vc !! k = Some e → (0 < max)%nat →
  (∀ j d, vc !! j = Some d → j ≠ k → ¬ age_le (updated_ms e, k) (updated_ms d, j)) →
  prune vc max !! k = Some e.
Proof.
  intros He Hmax Hnew. destruct (prune vc max !! k) as [e'|] eqn:E.
  { apply prune_sub in E. congruence. }
  assert (0 < size (prune vc max))%nat as Hsz.
  { rewrite prune_size. assert (size vc ≠ 0%nat); [|lia].
    intros ->%map_size_empty_iff. by rewrite lookup_empty in He. }
  destruct (map_choose (prune vc max)) as (j & d & Hj).
  { intros E0. rewrite E0, map_size_empty in Hsz. lia. }
  exfalso. apply (Hnew j d).
  - by eapply prune_sub.
  - intros ->. congruence.
  - by eapply prune_oldest_first.
Qed.

(** ** [parse] undoes [serialize] *)

(** Ids that the token format can carry. *)
Definition id_ok (k : string) : Prop :=
  k ≠ EmptyString ∧ str_free ":" k = true ∧ str_free "," k = true.
Definition ids_ok (vc : clock) : Prop := map_Forall (λ k _, id_ok k) vc.

#[global] Instance id_ok_dec k : Decision (id_ok k).
Proof. unfold id_ok. apply _. Defined.
#[global] Instance ids_ok_dec vc : Decision (ids_ok vc).
Proof. unfold ids_ok. apply _. Defined.

Lemma parse_entry_token k e :
  id_ok k → entry_wf e → parse_entry (entry_token (k, e)) = Some (k, counter e, updated_ms e).
Proof.
  intros (Hne & Hcol & _) [Hc Hms]. unfold parse_entry, entry_token. cbn [fst snd].
  assert (is_u64 (counter e)) as Hcu by (unfold is_u64; lia).
  pose proof (to_string_free ":" (counter e) Hcu eq_refl) as Hfree.
  pose proof (stoull_to_string (counter e) Hcu) as Hn. pose proof (stoull_to_string _ Hms) as Ht.
  destruct (to_string_ok (counter e) Hcu) as (_ & Hnum & _).
  destruct (to_string_ok (updated_ms e) Hms) as (_ & Hts & _).
  generalize dependent (to_string (counter e)). intros num Hfree Hn Hnum.
  generalize dependent (to_string (updated_ms e)). intros ts Ht Hts.
  rewrite !str_app_cons, !str_app_empty_l.
  rewrite (str_empty_false (k +:+ _)) by (by destruct k).
  rewrite find_char_app by done. unfold substr, substr_from.
  rewrite str_drop_0, str_take_app, str_drop_app_S.
  rewrite (str_empty_false k), (str_empty_false (num +:+ _)) by (done || by destruct num). cbn [orb].
  rewrite find_char_app by done.
  rewrite str_drop_0, str_take_app, str_drop_app_S, !str_empty_false by done.
  by rewrite Hn, Ht.
Qed.

Lemma entry_token_free k e :
  id_ok k → entry_wf e → str_free "," (entry_token (k, e)) = true ∧ entry_token (k, e) ≠ EmptyString.
Proof.
  intros (Hne & _ & Hcom) [Hc Hms]. unfold entry_token. cbn [fst snd]. split; [|by destruct k].
  assert (is_u64 (counter e)) by (unfold is_u64; lia).
  by rewrite !str_free_app, Hcom, !to_string_free.
Qed.

Lemma parse_fold l m :
  Forall (λ kv, id_ok kv.1 ∧ entry_wf kv.2) l → NoDup (l.*1) →
  foldl (λ vc entry, match parse_entry entry with
                     | Some (node, n, t) => set_at vc node n t
                     | None => vc
                     end) m (entry_token <$> l) = list_to_map l ∪ m.
Proof.
  intros Hl. revert m. induction Hl as [|[k e] l [Hk He] Hl IH]; intros m Hnd; cbn [fmap list_fmap foldl].
  { by rewrite list_to_map_nil, (left_id_L ∅ (∪)). }
  apply NoDup_fst_cons in Hnd as [Hkl Hnd]. rewrite parse_entry_token, IH by done.
  unfold set_at. destruct (Z.eqb_spec (counter e) 0); [destruct He as [He _]; cbn in He; lia|].
  destruct e as [c ms]. cbn [counter updated_ms]. rewrite list_to_map_cons.
  rewrite <- insert_union_r by (by apply not_elem_of_list_to_map_1).
  by rewrite insert_union_l.
Qed.

Lemma parse_serialize vc : wf vc → ids_ok vc → parse (serialize vc) = vc.
Proof.
  intros Hwf Hids. unfold parse, serialize.
  assert (Forall (λ kv, id_ok kv.1 ∧ entry_wf kv.2) (entries vc)) as Hl.
  { apply list.Forall_forall. intros [k e] Hin. apply elem_of_entries in Hin.
    split; [by eapply Hids|by eapply Hwf]. }
  destruct (str_empty _) eqn:Hemp.
  - destruct (entries vc) as [|[k e] l] eqn:E.
    + rewrite <- (list_to_map_entries vc), E. done.
    + exfalso. apply str_empty_spec in Hemp. apply list.Forall_cons in Hl as [[Hk He] _].
      destruct (entry_token_free k e Hk He) as [_ Hne]. cbn in Hemp.
      destruct (entry_token (k, e)); [done|]. by destruct (entry_token <$> l).
  - rewrite getlines_join.
    + rewrite parse_fold by (done || apply NoDup_entries_fst).
      by rewrite (right_id_L ∅ (∪)), list_to_map_entries.
    + apply list.Forall_fmap. eapply list.Forall_impl; [exact Hl|]. intros [k e] [Hk He].
      by apply entry_token_free.
Qed.

(** Whatever the text, [parse] builds a well-formed clock. *)
Lemma parse_entry_ok entry node n t :
  str_free "," entry = true → parse_entry entry = Some (node, n, t) →
  id_ok node ∧ is_u64 n ∧ is_u64 t.
Proof.
  unfold parse_entry. intros Hfree. destruct (str_empty entry); [done|].
  destruct (find_char ":" entry) as [p|] eqn:Hp; [|done].
  apply find_char_Some in Hp as (a & b & -> & Ha & <-).
  unfold substr, substr_from. rewrite str_drop_0, str_take_app, str_drop_app_S.
  destruct (str_empty a) eqn:Hae; [done|]. destruct (str_empty b); [done|]. cbn [orb].
  destruct (match find_char ":" b with None => _ | Some _ => _ end) as [num ts].
  destruct (str_empty num); [done|].
  destruct (stoull num) as [n'|] eqn:Hn; [|done]. destruct (stoull ts) as [t'|] eqn:Ht; [|done].
  intros [= <- <- <-]. rewrite str_free_app in Hfree. apply andb_true_iff in Hfree as [Hfree _].
  split_and!; [split_and!; [|done|done]|by eapply stoull_range|by eapply stoull_range].
  by intros ->.
Qed.

Lemma parse_wf s : wf (parse s) ∧ ids_ok (parse s).
Proof.
  unfold parse. destruct (str_empty s); [by split; apply map_Forall_empty|].
  pose proof (getlines_free "," s) as Hfree.
  assert (wf ∅ ∧ ids_ok ∅) as Hm by (by split; apply map_Forall_empty).
  revert Hm. generalize (∅ : clock) as m. induction Hfree as [|x l Hx Hfree IH]; intros m [Hm1 Hm2]; [done|].
  cbn [foldl]. apply IH. destruct (parse_entry x) as [[[node n] t]|] eqn:E; [|done].
  apply parse_entry_ok in E as (Hid & Hn & Ht); [|done]. split; [auto with dynamo|].
  unfold set_at. destruct (n =? 0); [by apply map_Forall_delete|by apply map_Forall_insert_2].
Qed.

(** Clocks whose token can be embedded in a ['|']-delimited message. *)
Definition bar_free (vc : clock) : Prop := map_Forall (λ k _, str_free "|" k = true) vc.
Definition wire_ok (vc : clock) : Prop := wf vc ∧ ids_ok vc ∧ bar_free vc.

#[global] Instance bar_free_dec vc : Decision (bar_free vc).
Proof. unfold bar_free. apply _. Defined.
#[global] Instance wire_ok_dec vc : Decision (wire_ok vc).
Proof. unfold wire_ok. apply _. Defined.

Lemma wire_ok_empty : wire_ok ∅.
Proof. split_and!; apply map_Forall_empty. Qed.

Lemma wire_ok_sub a b : a ⊆ b → wire_ok b → wire_ok a.
Proof.
  intros Hsub (H1 & H2 & H3). rewrite map_subseteq_spec in Hsub.
  split_and!; intros k e He; [eapply H1|eapply H2|eapply H3]; by apply Hsub.
Qed.

Lemma wire_ok_set_at vc k c ms :
  wire_ok vc → id_ok k → str_free "|" k = true → is_u64 c → is_u64 ms → wire_ok (set_at vc k c ms).
Proof.
  intros (H1 & H2 & H3) Hk Hbar Hc Hms. unfold set_at.
  split; [by apply wf_set_at|]. destruct (c =? 0).
  - by split; apply map_Forall_delete.
  - by split; apply map_Forall_insert_2.
Qed.

Lemma serialize_bar_free vc : wire_ok vc → str_free "|" (serialize vc) = true.
Proof.
  intros (Hwf & _ & Hbar). unfold serialize. apply str_join_free; [done|].
  apply list.Forall_fmap, list.Forall_forall. intros [k e] He%elem_of_entries.
  destruct (Hwf k e He) as [Hc Hms]. assert (is_u64 (counter e)) by (unfold is_u64; lia).
  unfold compose, entry_token. cbn [fst snd].
  by rewrite !str_free_app, (Hbar k e He), !to_string_free.
Qed.

Lemma parse_wire_ok s : str_free "|" s = true → wire_ok (parse s).
Proof.
  intros Hs. destruct (parse_wf s) as [H1 H2]. split_and!; [done..|].
  unfold parse. destruct (str_empty s); [apply map_Forall_empty|].
  assert (bar_free ∅) as Hm by apply map_Forall_empty. revert Hm.
  pose proof (getlines_sub_free "|" "," s Hs) as Hl. generalize (∅ : clock) as m.
  induction Hl as [|x l Hx Hl IH]; intros m Hm; [done|]. cbn [foldl]. apply IH.
  destruct (parse_entry x) as [[[node n] t]|] eqn:E; [|done].
  assert (str_free "|" node = true).
  { unfold parse_entry in E. destruct (str_empty x); [done|].
    destruct (find_char ":" x) as [p|] eqn:Hp; [|done].
    apply find_char_Some in Hp as (a & b & -> & Ha & <-).
    unfold substr in E. rewrite str_drop_0, str_take_app in E.
    rewrite str_free_app in Hx. apply andb_true_iff in Hx as [Hx _].
    repeat case_match; naive_solver. }
  unfold set_at. destruct (n =? 0); [by apply map_Forall_delete|by apply map_Forall_insert_2].
Qed.

(** ** Theorems *)

(** [compare] decides the causal (pointwise counter) order: each of its
    four verdicts holds exactly when the clocks are related that way. *)
Theorem compare_decides_causality a b o :
  wf a → wf b → compare a b = o ↔ ordering_spec o a b.
Proof. apply compare_spec. Qed.

Definition clk (l : list (string * Z)) : clock :=
  list_to_map ((λ p, (p.1, mkEntry p.2 0)) <$> l).

Lemma compare_decides_causality_witness :
  wf (clk [("node1", 2); ("node2", 1)]) ∧
  ordering_spec CONCURRENT (clk [("node1", 2); ("node2", 1)]) (clk [("node1", 1); ("node3", 4)]).
Proof.
  assert (wf (clk [("node1", 2); ("node2", 1)])) as Ha by vm_decide.
  assert (wf (clk [("node1", 1); ("node3", 4)])) as Hb by vm_decide.
  split; [done|].
  apply (compare_decides_causality _ _ CONCURRENT Ha Hb). vm_compute. reflexivity.
Defined.

(** [merge] is the least upper bound of two clocks, each merged entry is
    one of the two input entries (its stamp rides along), and the result is
    again well-formed. *)
Theorem merge_least_upper_bound a b c :
  wf a → wf b →
  wf (merge a b) ∧ causal_le a (merge a b) ∧ causal_le b (merge a b) ∧
  (causal_le a c → causal_le b c → causal_le (merge a b) c) ∧
  (∀ k e, merge a b !! k = Some e → a !! k = Some e ∨ b !! k = Some e).
Proof.
  intros Ha Hb. split_and!.
  - by apply wf_merge.
  - intros k. rewrite get_merge by done. lia.
  - intros k. rewrite get_merge by done. lia.
  - intros Hac Hbc k. rewrite get_merge by done. specialize (Hac k). specialize (Hbc k). lia.
  - intros k e. rewrite merge_lookup. repeat case_match; naive_solver.
Qed.

Lemma merge_least_upper_bound_witness :
  causal_le (clk [("node1", 2)]) (merge (clk [("node1", 2)]) (clk [("node2", 7)])).
Proof.
  apply (merge_least_upper_bound (clk [("node1", 2)]) (clk [("node2", 7)]) ∅);
    vm_decide.
Defined.

(** [prune] leaves at most [max_entries] entries, changes none of those it
    keeps, and erases only entries that are older (by stamp, ties by id) than
    every entry it keeps. *)
Theorem prune_drops_oldest vc max :
  size (prune vc max) = (size vc `min` max)%nat ∧
  prune vc max ⊆ vc ∧
  (∀ k e j d, prune vc max !! k = Some e → vc !! j = Some d → prune vc max !! j = None →
     age_le (updated_ms d, j) (updated_ms e, k)).
Proof.
  split_and!; [apply prune_size| |intros; by eapply prune_oldest_first].
  apply map_subseteq_spec. apply prune_sub.
Qed.

(** A clock read back from the wire or from storage is the clock that was
    written, stamps included. *)
Theorem parse_serialize_roundtrip vc : wf vc → ids_ok vc → parse (serialize vc) = vc.
Proof. apply parse_serialize. Qed.

Lemma parse_serialize_roundtrip_witness :
  parse (serialize (set_at (set_at ∅ "node2" 1 1720000000001) "node1" 3 1720000000000)) =
  set_at (set_at ∅ "node2" 1 1720000000001) "node1" 3 1720000000000.
Proof. apply parse_serialize_roundtrip; vm_decide. Defined.

Example serialize_canonical :
  serialize (set_at (set_at ∅ "node2" 1 1720000000001) "node1" 3 1720000000000) =
  "node1:3:1720000000000,node2:1:1720000000001".
Proof. vm_compute. reflexivity. Qed.

(** [parse] accepts any text: it always yields a clock with positive
    64-bit counters and usable ids, and re-serializing that clock is lossless. *)
Theorem parse_normalizes s :
  wf (parse s) ∧ ids_ok (parse s) ∧ parse (serialize (parse s)) = parse s.
Proof. destruct (parse_wf s). split_and!; [done..|]. by apply parse_serialize. Qed.

(** The legacy two-field form, a negative counter and junk. *)
Example parse_defensive :
  serialize (parse "a:3,,b,:4,c:x:1,d:-1:7,e:0:5,f: 12z:") =
  "a:3:0,d:18446744073709551615:7,f:12:0".
Proof. vm_compute. reflexivity. Qed.

End VectorClock.
