(* ===== verification/Value.v ===== *)
(** * Versioned values (src/versioned_value.h, src/versioned_value.cpp)

    A value with the clock that versions it and its tombstone flag, and the
    storage form ["<base64(data)>|<clock>"] with ["|D"] for a tombstone.  The
    theorem shows that storage loses nothing of a value whose clock carries
    embeddable ids. *)
From S2P Require Import Prelude Base64 Clock.
From Stdlib Require Import Ascii String ZArith Lia.
From stdpp Require Import base gmap list strings numbers.

Module VersionedValue.

Record VersionedValue := mkVV {
  data : string;
  clock : VectorClock.clock;
  deleted : bool;
}.

#[global] Instance VersionedValue_eq_dec : EqDecision VersionedValue.
Proof. solve_decision. Defined.

Definition serialize (v : VersionedValue) : string :=
  let s := base64.encode (data v) +:+ "|" +:+ VectorClock.serialize (clock v) in
  if deleted v then s +:+ "|D" else s.

Definition deserialize (stored : string) : VersionedValue :=
  match find_char "|" stored with
  | None => mkVV (base64.decode stored) ∅ false
  | Some bar =>
      let d := base64.decode (substr stored 0 bar) in
      let rest := substr_from stored (bar + 1) in
      match find_char "|" rest with
      | None => mkVV d (VectorClock.parse rest) false
      | Some bar2 =>
          mkVV d (VectorClock.parse (substr rest 0 bar2))
               (String.eqb (substr_from rest (bar2 + 1)) "D")
      end
  end.

(** Values the node stores: the clock's ids are embeddable. *)
Definition vv_ok (v : VersionedValue) : Prop := VectorClock.wire_ok (clock v).

#[global] Instance vv_ok_dec v : Decision (vv_ok v).
Proof. unfold vv_ok. apply _. Defined.

Lemma deserialize_serialize v : vv_ok v → deserialize (serialize v) = v.
Proof.
  intros Hok. destruct v as [d c del]. unfold vv_ok in Hok. cbn in Hok.
  pose proof (VectorClock.serialize_bar_free c Hok) as Hbar. destruct Hok as (Hwf & Hids & _).
  pose proof (VectorClock.parse_serialize c Hwf Hids) as Hparse.
  pose proof (base64.encode_free "|" d eq_refl) as Henc.
  pose proof (base64.decode_encode d) as Hdec.
  unfold serialize, deserialize. cbn [data clock deleted].
  generalize dependent (base64.encode d). intros b Hb Hdec.
  generalize dependent (VectorClock.serialize c). intros t Ht Hparse.
  rewrite ?str_app_cons, ?str_app_empty_l.
  destruct del.
  - rewrite str_app_assoc, str_app_cons, find_char_app by done.
    unfold substr, substr_from. rewrite str_drop_0, str_take_app, str_drop_app_S, Hdec.
    rewrite find_char_app by done. rewrite str_drop_0, str_take_app, str_drop_app_S. by rewrite Hparse.
  - rewrite find_char_app by done.
    unfold substr, substr_from. rewrite str_drop_0, str_take_app, str_drop_app_S, Hdec.
    rewrite find_char_free by done. by rewrite Hparse.
Qed.

(** Storing a version and reading it back gives the same data bytes,
    clock and tombstone flag, whatever delimiters the data contains. *)
Theorem storage_roundtrip v : vv_ok v → deserialize (serialize v) = v.
Proof. apply deserialize_serialize. Qed.

Lemma storage_roundtrip_witness :
  deserialize (serialize (mkVV "a|b;c:d" (VectorClock.set_at ∅ "node-1.x" 7 12) true)) =
  mkVV "a|b;c:d" (VectorClock.set_at ∅ "node-1.x" 7 12) true.
Proof. apply storage_roundtrip. vm_decide. Defined.

(** Whatever the stored text, [deserialize] yields an embeddable clock. *)
Lemma deserialize_ok s : vv_ok (deserialize s).
Proof.
  unfold vv_ok, deserialize. destruct (find_char "|" s) as [p|] eqn:Hp; [|apply VectorClock.wire_ok_empty].
  cbv zeta. destruct (find_char "|" (substr_from s (p + 1))) as [q|] eqn:Hq; cbn [clock].
  - apply find_char_Some in Hq as (a & b & -> & Ha & <-).
    unfold substr. rewrite str_drop_0, str_take_app. by apply VectorClock.parse_wire_ok.
  - by apply VectorClock.parse_wire_ok, find_char_None.
Qed.

Example legacy_forms :
  data (deserialize "TWFu") = "Man" ∧ deleted (deserialize "TWFu|a:1") = false ∧
  deleted (deserialize "|a:1:2|D") = true ∧ deleted (deserialize "|a:1:2|d") = false.
Proof. vm_compute. repeat split. Qed.

End VersionedValue.

Export VersionedValue (VersionedValue, mkVV).
