(* ===== verification/Storage.v ===== *)
(** * Storage and replica operations
    (src/storage/storage_engine.h, src/storage/in_memory_storage.cpp,
     src/replica_ops.cpp)

    [StorageEngine] is the abstract seam of the program: its operations and,
    in [StorageLaws], what its clients rely on.  The in-memory engine is an
    instance; RocksDB is third-party code and enters only through the class.
    On top of it, [applyReplicate] and [readLocal] are what a replica does with
    REPLICATE and READ.  The theorems show that a replica never goes back to a
    version it has superseded, and that replicas which receive the same chain
    of versions converge whatever the order and repetition of delivery. *)
From S2P Require Import Prelude Clock Value.
From Stdlib Require Import Ascii String ZArith Lia.
From stdpp Require Import base gmap list strings numbers.

(** ** The interface *)

Class StorageEngine (S : Type) := {
  put : string → string → S → S;
  get : string → S → option string;
  (** The pairs [forEach] visits, in its (implementation-defined) order. *)
  forEach : S → list (string * string);
}.

Class StorageLaws (S : Type) `{StorageEngine S} := {
  get_put k v k' (s : S) : get k' (put k v s) = if decide (k = k') then Some v else get k' s;
  forEach_get (s : S) k v : (k, v) ∈ forEach s ↔ get k s = Some v;
  forEach_NoDup (s : S) : NoDup (forEach s).*1;
}.

(** ** The in-memory engine *)

Module InMemoryStorageEngine.

Definition mem_put (key value : string) (data : gmap string string) : gmap string string :=
  <[key := value]> data.

Definition mem_get (key : string) (data : gmap string string) : option string :=
  match data !! key with
  | Some v => Some v
  | None => None
  end.

Definition mem_forEach (data : gmap string string) : list (string * string) := map_to_list data.

#[global] Instance in_memory_engine : StorageEngine (gmap string string) := {|
  put := mem_put; get := mem_get; forEach := mem_forEach |}.

#[global] Instance in_memory_laws : StorageLaws (gmap string string).
Proof.
  assert (∀ k (s : gmap string string), get k s = s !! k) as Hget.
  { intros k s. cbn. unfold mem_get. by destruct (s !! k). }
  split; intros *; rewrite ?Hget.
  - cbn. unfold mem_put. by rewrite lookup_insert.
  - cbn. unfold mem_forEach. apply elem_of_map_to_list.
  - apply NoDup_fst_map_to_list.
Qed.

End InMemoryStorageEngine.

(** ** Replica operations *)

Module replica_ops.
Import VersionedValue.
Section replica_ops.
Context {S : Type} `{StorageLaws S}.

(** The new store and whether it was written. *)
Definition applyReplicate (storage : S) (key : string) (incoming : VersionedValue) : S * bool :=
  match get key storage with
  | Some stored =>
      let local := deserialize stored in
      match VectorClock.compare (clock local) (clock incoming) with
      | VectorClock.A_DOMINATES => (storage, false)
      | _ => (put key (serialize incoming) storage, true)
      end
  | None => (put key (serialize incoming) storage, true)
  end.

Definition readLocal (storage : S) (key : string) : option VersionedValue :=
  match get key storage with
  | None => None
  | Some stored => Some (deserialize stored)
  end.

(** The test of [applyReplicate] by itself: nothing is locked between it and the put. *)
Definition replicate_stores (storage : S) (key : string) (incoming : VersionedValue) : bool :=
  match readLocal storage key with
  | Some local => negb (bool_decide (VectorClock.compare (clock local) (clock incoming) = VectorClock.A_DOMINATES))
  | None => true
  end.

Lemma applyReplicate_halves storage key incoming :
  applyReplicate storage key incoming =
    if replicate_stores storage key incoming then (put key (serialize incoming) storage, true) else (storage, false).
Proof.
  unfold applyReplicate, replicate_stores, readLocal. destruct (get key storage) as [stored|]; [|done].
  by destruct (VectorClock.compare _ _).
Qed.

(** [a] is strictly superseded by [b]. *)
Definition superseded (a b : VersionedValue) : Prop := VectorClock.causal_lt (clock a) (clock b).

Lemma vv_ok_wf v : vv_ok v → VectorClock.wf (clock v).
Proof. by intros (? & _). Qed.

Lemma readLocal_ok s k v : readLocal s k = Some v → vv_ok v.
Proof. unfold readLocal. destruct (get k s); [|done]. intros [= <-]. apply deserialize_ok. Qed.

Lemma readLocal_put s k v k' :
  vv_ok v →
  readLocal (put k (serialize v) s) k' = if decide (k = k') then Some v else readLocal s k'.
Proof.
  intros Hv. unfold readLocal. rewrite get_put. case_decide; [|done].
  by rewrite deserialize_serialize.
Qed.

(** The outcome of a REPLICATE: the local version wins only if it strictly
    dominates the incoming one. *)
Lemma applyReplicate_read s k v k' :
  vv_ok v →
  readLocal (applyReplicate s k v).1 k' =
  if decide (k = k') then
    match readLocal s k with
    | Some l => if decide (VectorClock.compare (clock l) (clock v) = VectorClock.A_DOMINATES)
                then Some l else Some v
    | None => Some v
    end
  else readLocal s k'.
Proof.
  intros Hv. unfold applyReplicate. unfold readLocal at 2.
  destruct (get k s) as [st|] eqn:E.
  - destruct (VectorClock.compare (clock (deserialize st)) (clock v)) eqn:Hc; cbn [fst];
      rewrite ?readLocal_put by done; case_decide; try done.
    subst k'. unfold readLocal. by rewrite E.
  - by apply readLocal_put.
Qed.

Lemma compare_dominates a b :
  vv_ok a → vv_ok b →
  VectorClock.compare (clock a) (clock b) = VectorClock.A_DOMINATES ↔ superseded b a.
Proof. intros Ha Hb. apply (VectorClock.compare_spec _ _ VectorClock.A_DOMINATES); by apply vv_ok_wf. Qed.

(** Replaying a list of REPLICATEs of one key. *)
Definition replay (s : S) (k : string) (vs : list VersionedValue) : S :=
  foldl (λ s v, (applyReplicate s k v).1) s vs.

(** The property a replica's copy keeps along [replay]. *)
Lemma replay_keeps_max s k vs m :
  Forall vv_ok vs → vv_ok m →
  Forall (λ v, v = m ∨ superseded v m) vs → readLocal s k = Some m →
  readLocal (replay s k vs) k = Some m.
Proof.
  intros Hok Hm Hvs. revert s. induction Hvs as [|v vs Hv Hvs IH]; intros s Hs; [done|].
  apply list.Forall_cons in Hok as [Hvok Hok]. cbn. apply IH; [done|].
  rewrite applyReplicate_read by done. rewrite decide_True by done. rewrite Hs.
  destruct Hv as [->|Hv]; [by case_decide|].
  rewrite decide_True; [done|]. by apply compare_dominates.
Qed.

(** C9: a REPLICATE never makes a replica regress.  Afterwards the key holds a
    version at least as new as the incoming one, and that version does not
    precede the one held before; no other key changes. *)
Theorem replicate_never_regresses s k v :
  vv_ok v →
  ∃ r, readLocal (applyReplicate s k v).1 k = Some r ∧
       VectorClock.causal_le (clock v) (clock r) ∧
       (∀ l, readLocal s k = Some l → ¬ superseded r l) ∧
       (∀ k', k' ≠ k → readLocal (applyReplicate s k v).1 k' = readLocal s k').
Proof.
  intros Hv.
  assert (∀ k', k' ≠ k → readLocal (applyReplicate s k v).1 k' = readLocal s k') as Hother.
  { intros k' Hk. rewrite applyReplicate_read by done. by rewrite decide_False. }
  pose proof (applyReplicate_read s k v k Hv) as Hr. rewrite decide_True in Hr by done.
  destruct (readLocal s k) as [l|] eqn:Hl; [|exists v; split_and!; [done..|by intros ?|done]].
  pose proof (readLocal_ok _ _ _ Hl) as Hlok.
  case_decide as Hc; (eexists; split_and!; [exact Hr| | |exact Hother]).
  - apply compare_dominates in Hc; [|done..]. by destruct Hc.
  - intros ? [= <-] [_ [x Hx]]. lia.
  - done.
  - intros ? [= <-]. by rewrite <- compare_dominates.
Qed.

(** C12: replicas converge.  If a version [m] supersedes every other version of
    a key that is in flight, then after the versions are delivered, in any
    order and any number of times, the key holds [m]. *)
Theorem replicas_converge s k vs m :
  Forall vv_ok vs → m ∈ vs →
  Forall (λ v, v = m ∨ superseded v m) vs →
  (∀ l, readLocal s k = Some l → l = m ∨ superseded l m) →
  readLocal (replay s k vs) k = Some m.
Proof.
  intros Hok Hin Hvs. assert (vv_ok m) as Hm by (by rewrite list.Forall_forall in Hok; apply Hok).
  revert s. induction Hvs as [|v vs Hv Hvs IH]; intros s Hs; [by apply elem_of_nil in Hin|].
  apply list.Forall_cons in Hok as [Hvok Hok]. cbn.
  apply elem_of_cons in Hin as [<-|Hin].
  - apply replay_keeps_max; [done..|]. rewrite applyReplicate_read by done. rewrite decide_True by done.
    destruct (readLocal s k) as [l|] eqn:Hl; [|done]. case_decide as Hc; [|done].
    apply compare_dominates in Hc; [|by eapply readLocal_ok|done].
    destruct (Hs l eq_refl) as [->|Hlt]; [done|].
    destruct Hc as [Hle _], Hlt as [_ [x Hx]]. specialize (Hle x). lia.
  - apply IH; [done..|]. intros l. rewrite applyReplicate_read by done. rewrite decide_True by done.
    destruct (readLocal s k) as [l'|] eqn:Hl; [|naive_solver].
    case_decide; intros [= <-]; [by apply Hs|done].
Qed.

End replica_ops.

Definition v1 := mkVV "old" (VectorClock.clk [("node1", 1%Z)]) false.
Definition v2 := mkVV "new" (VectorClock.clk [("node1", 2%Z); ("node2", 1%Z)]) false.

Lemma superseded_v1_v2 : superseded v1 v2.
Proof.
  apply (VectorClock.compare_spec _ _ VectorClock.B_DOMINATES); [vm_decide..|vm_compute; reflexivity].
Qed.

Lemma replicate_never_regresses_witness :
  ∃ r, readLocal (applyReplicate (S := gmap string string) ∅ "k" v1).1 "k" = Some r ∧
       VectorClock.causal_le (clock v1) (clock r).
Proof.
  destruct (replicate_never_regresses (S := gmap string string) ∅ "k" v1) as (r & H1 & H2 & _);
    [vm_decide|]. exact (ex_intro _ r (conj H1 H2)).
Defined.

Lemma replicas_converge_witness :
  readLocal (replay (S := gmap string string) ∅ "k" [v2; v1; v2; v1]) "k" = Some v2.
Proof.
  apply (replicas_converge (S := gmap string string) ∅ "k" [v2; v1; v2; v1] v2).
  - vm_decide.
  - vm_decide.
  - repeat (apply Forall_cons_2; [first [left; reflexivity|right; apply superseded_v1_v2]|]).
    apply Forall_nil_2.
  - intros l Hl. vm_compute in Hl. discriminate.
Defined.

End replica_ops.
