(* ===== verification/RocksDB.v ===== *)
(** * The durable engine (src/storage/rocksdb_storage.cpp)

    [RocksDBStorageEngine] over the library it wraps.  RocksDB itself is not part
    of the sources: the class [DBApi] lists the calls the engine makes, and
    [DBLaws] what RocksDB documents of them, in terms of the contents of a database
    and what a process crash leaves on disk.  A [Put] or a [Get] may fail; only the
    laws of a healthy database ([DBHealthy]) exclude it.

    The theorems: on a healthy database the engine satisfies the storage laws that
    every client theorem is proved against, a scan visits every pair once and ends,
    and a restart finds every write.  On a database whose writes fail the engine
    drops them without a sign, so a replica acknowledges what it does not hold. *)
From Stdlib Require Import Ascii String ZArith Lia.
From stdpp Require Import base gmap list strings numbers sorting.
From S2P Require Import Prelude Clock Value Storage.

Module RocksDBStorageEngine.

(** [rocksdb::Status]: success, absence, or an error with its text. *)
Inductive Status := StatusOk | StatusNotFound | StatusError (what : string).

Definition status_ok (s : Status) : bool := match s with StatusOk => true | _ => false end.

Definition ToString (s : Status) : string :=
  match s with StatusOk => "OK" | StatusNotFound => "NotFound: " | StatusError w => w end.

Class DBApi (DB Disk Iterator : Type) := {
  Open : string → Disk → Status * option DB;
  Put : string → string → DB → Status * DB;
  Get : string → DB → Status * string;
  NewIterator : DB → Iterator;
  SeekToFirst : Iterator → Iterator;
  Valid : Iterator → bool;
  Next : Iterator → Iterator;
  it_key : Iterator → string;
  it_value : Iterator → string;
}.

Section engine.
Context {DB Disk Iterator : Type} `{DBApi DB Disk Iterator}.

(** The constructor: the engine, or the text of the exception it throws. *)
Definition open_engine (path : string) (disk : Disk) : string + DB :=
  let '(s, raw) := Open path disk in
  match status_ok s, raw with
  | true, Some db => inr db
  | _, _ => inl ("RocksDB open failed at '" +:+ path +:+ "': " +:+ ToString s)
  end.

Definition db_put (key value : string) (db : DB) : DB := (Put key value db).2.

Definition db_get (key : string) (db : DB) : option string :=
  let '(s, value) := Get key db in
  if status_ok s then Some value else None.

(** The scan: the pairs handed to [fn], in order. *)
Fixpoint forEach_loop (fuel : nat) (it : Iterator) : option (list (string * string)) :=
  if Valid it then
    match fuel with
    | O => None
    | S fuel => rest ← forEach_loop fuel (Next it); Some ((it_key it, it_value it) :: rest)
    end
  else Some [].

Definition db_forEach (fuel : nat) (db : DB) : option (list (string * string)) :=
  forEach_loop fuel (SeekToFirst (NewIterator db)).

End engine.

(** ** What RocksDB documents *)

Class DBLaws (DB Disk Iterator : Type) `{DBApi DB Disk Iterator} := {
  (** The latest value of every key. *)
  contents : DB → gmap string string;
  (** What is on disk when the process stops: the write-ahead log is replayed. *)
  crash : DB → Disk;
  (** What an iterator has yet to visit. *)
  remaining : Iterator → list (string * string);
  put_ok k v db : (Put k v db).1 = StatusOk → contents (Put k v db).2 = <[k := v]> (contents db);
  get_ok k db v : Get k db = (StatusOk, v) → contents db !! k = Some v;
  get_notfound k db v : Get k db = (StatusNotFound, v) → contents db !! k = None;
  seek_first db : remaining (SeekToFirst (NewIterator db)) = entries (contents db);
  valid_remaining it : Valid it = negb (bool_decide (remaining it = []));
  key_remaining it p l : remaining it = p :: l → (it_key it, it_value it) = p ∧ remaining (Next it) = l;
  open_recovers path db db' : Open path (crash db) = (StatusOk, Some db') → contents db' = contents db;
}.

Class DBHealthy (DB Disk Iterator : Type) `{DBApi DB Disk Iterator} := {
  put_succeeds k v (db : DB) : (Put k v db).1 = StatusOk;
  get_succeeds k (db : DB) : (Get k db).1 = StatusOk ∨ (Get k db).1 = StatusNotFound;
}.

Section laws.
Context {DB Disk Iterator : Type} `{DBLaws DB Disk Iterator}.

(** A scan ends: its fuel is the number of pairs, and it visits the contents in
    key order. *)
Lemma forEach_loop_remaining fuel it :
  length (remaining it) ≤ fuel → forEach_loop fuel it = Some (remaining it).
Proof.
  revert it. induction fuel as [|fuel IH]; intros it Hf; cbn; rewrite valid_remaining;
    destruct (remaining it) as [|p l] eqn:E; try done; cbn in Hf; [lia|].
  destruct (key_remaining it p l E) as [<- Hl]. cbn. rewrite IH by (rewrite Hl; lia). cbn. by rewrite Hl.
Qed.

Lemma forEach_returns fuel db :
  size (contents db) ≤ fuel → db_forEach fuel db = Some (entries (contents db)).
Proof. intros Hf. unfold db_forEach. rewrite forEach_loop_remaining; rewrite seek_first; [done|]. by rewrite length_entries. Qed.

Context `{!DBHealthy DB Disk Iterator}.

Lemma get_contents k db : db_get k db = contents db !! k.
Proof.
  unfold db_get. destruct (Get k db) as [s v] eqn:E. destruct (get_succeeds k db) as [Hs|Hs]; rewrite E in Hs; cbn in Hs; subst s.
  - by rewrite (get_ok _ _ _ E).
  - by rewrite (get_notfound _ _ _ E).
Qed.

Lemma put_contents k v db : contents (db_put k v db) = <[k := v]> (contents db).
Proof. apply put_ok, put_succeeds. Qed.

(** The engine as the program's storage. *)
Definition rocksdb_engine : StorageEngine DB := {|
  put := db_put; get := db_get;
  forEach db := default [] (db_forEach (size (contents db)) db) |}.

Lemma rocksdb_laws : @StorageLaws DB rocksdb_engine.
Proof.
  assert (∀ db, @forEach _ rocksdb_engine db = entries (contents db)) as Hf
    by (intros db; cbn; by rewrite forEach_returns).
  split.
  - intros k v k' db. change (db_get k' (db_put k v db) = if decide (k = k') then Some v else db_get k' db).
    rewrite !get_contents, put_contents. apply lookup_insert.
  - intros db k v. rewrite Hf, elem_of_entries. change (get k db) with (db_get k db). by rewrite get_contents.
  - intros db. rewrite Hf. apply NoDup_entries_fst.
Qed.

(** C30: The durable engine keeps its contract, across restarts included.  On a
    healthy database it satisfies the laws of the storage interface, its scan
    returns with every pair exactly once in key order, and after any sequence of
    writes and a crash, an engine reopened on the same path returns for every key
    the value last written. *)
Theorem rocksdb_engine_is_durable path db ws db' :
  let stored := foldl (λ db kv, db_put kv.1 kv.2 db) db ws in
  open_engine path (crash stored) = inr db' →
  @StorageLaws DB rocksdb_engine ∧
  (∀ k, db_get k db' = db_get k stored) ∧
  (∀ k, db_get k db' = foldl (λ o kv, if decide (kv.1 = k) then Some kv.2 else o) (db_get k db) ws) ∧
  ∃ n, db_forEach n db' = Some (entries (contents stored)).
Proof.
  intros stored Ho. assert (contents db' = contents stored) as Hc.
  { unfold open_engine in Ho. destruct (Open _ _) as [[] [db2|]] eqn:E; try done. cbn in Ho.
    injection Ho as ->. by eapply open_recovers. }
  split; [apply rocksdb_laws|]. split; [intros k; by rewrite !get_contents, Hc|]. split.
  - intros k. rewrite !get_contents, Hc. clear Ho Hc db'. subst stored. revert db.
    induction ws as [|[k' v] ws IH]; intros db; [done|]. cbn. rewrite IH, put_contents. f_equal. apply lookup_insert.
  - exists (size (contents db')). by rewrite forEach_returns, Hc.
Qed.

End laws.

(** The engine ignores the status of a write: where [Put] fails and leaves the
    database as it was, a REPLICATE of a key the replica does not hold is reported
    as written, and the replica still does not hold it. *)
Theorem failed_write_is_reported_written {DB Disk Iterator} `{DBLaws DB Disk Iterator} (db : DB) k v w :
  Put k (VersionedValue.serialize v) db = (StatusError w, db) → db_get k db = None →
  @replica_ops.applyReplicate _ rocksdb_engine db k v = (db, true) ∧
  @replica_ops.readLocal _ rocksdb_engine db k = None.
Proof.
  intros Hp Hg. unfold replica_ops.applyReplicate, replica_ops.readLocal. cbn [get put rocksdb_engine].
  rewrite Hg. unfold db_put. by rewrite Hp.
Qed.

(** ** A database *)

(** A database held in memory, whose writes succeed or all fail. *)
Definition model_put (writable : bool) (k v : string) (db : gmap string string) : Status * gmap string string :=
  if writable then (StatusOk, <[k := v]> db) else (StatusError "IO error: No space left on device", db).
Definition model_get (k : string) (db : gmap string string) : Status * string :=
  match db !! k with Some v => (StatusOk, v) | None => (StatusNotFound, EmptyString) end.

Definition model_api (writable : bool) : DBApi (gmap string string) (gmap string string) (list (string * string)) := {|
  Open _ disk := (StatusOk, Some disk);
  Put := model_put writable;
  Get := model_get;
  NewIterator db := entries db;
  SeekToFirst it := it;
  Valid it := negb (bool_decide (it = []));
  Next it := tail it;
  it_key it := (hd (EmptyString, EmptyString) it).1;
  it_value it := (hd (EmptyString, EmptyString) it).2;
|}.

Lemma model_get_ok k db v : model_get k db = (StatusOk, v) → db !! k = Some v.
Proof. unfold model_get. by destruct (db !! k); intros [= ->]. Qed.

Lemma model_get_notfound k db v : model_get k db = (StatusNotFound, v) → db !! k = None.
Proof. unfold model_get. by destruct (db !! k). Qed.

Definition model_laws (writable : bool) : @DBLaws _ _ _ (model_api writable).
Proof.
  refine (@Build_DBLaws _ _ _ (model_api writable) (λ db, db) (λ db, db) (λ it, it)
            _ model_get_ok model_get_notfound _ _ _ _); try done.
  - intros k v db. by destruct writable.
  - by intros it p l ->; destruct p.
  - intros path db db'. cbn. by intros [= ->].
Defined.

Lemma model_healthy : @DBHealthy _ _ _ (model_api true).
Proof. split; [done|]. intros k db. cbn. unfold model_get. destruct (db !! k); auto. Qed.

Lemma rocksdb_engine_is_durable_witness :
  @db_get _ _ _ (model_api true) "k" {[ "k" := "new"; "j" := "w" ]} = Some "new" ∧
  ∃ n, @db_forEach _ _ _ (model_api true) n {[ "k" := "new"; "j" := "w" ]} = Some [("j", "w"); ("k", "new")].
Proof.
  destruct (@rocksdb_engine_is_durable _ _ _ (model_api true) (model_laws true) model_healthy "/data/n1"
              ∅ [("k", "old"); ("j", "w"); ("k", "new")] {[ "k" := "new"; "j" := "w" ]}) as (_ & _ & Hg & n & Hn).
  - vm_compute. reflexivity.
  - split; [exact (Hg "k")|]. exists n. etransitivity; [exact Hn|]. vm_compute. reflexivity.
Defined.

End RocksDBStorageEngine.
