(* ===== verification/Ring.v ===== *)
(** * Consistent-hash ring (src/node_info.h, src/router.h, src/router.cpp)

    [Router] keeps a [map<uint64_t, string>] of virtual nodes and a
    [map<string, NodeInfo>] of physical nodes; every method is one locked
    operation.  [findOwners] walks the ring clockwise from the key's hash with
    the wrap-around iterator of the code; a run that never stops is [None].

    The theorems show that on a well-formed ring [findOwners] terminates after
    at most one turn and returns the first [replicas] nodes of the key's
    preference list (all of them when there are fewer), that membership
    operations keep the ring well-formed, and that removing or adding a node
    moves no key between the other nodes. *)
From S2P Require Import Prelude Util.
From Stdlib Require Import Ascii String ZArith Lia.
From stdpp Require Import sorting base gmap sets list strings numbers.

Record NodeInfo := mkNode { node_id : string; host : string; port : Z }.

#[export] Instance NodeInfo_eq_dec : EqDecision NodeInfo.
Proof. solve_decision. Defined.
#[export] Instance NodeInfo_inhabited : Inhabited NodeInfo := populate (mkNode "" "" 0).

Module Router.

Record Router := mkRouter {
  virtual_nodes : Z;
  ring : gmap Z string;
  nodes : gmap string NodeInfo;
}.

Definition new (vnodes : Z) : Router := mkRouter vnodes ∅ ∅.

Definition vnode_hash (id : string) (replica_index : nat) : Z :=
  hash64 (id +:+ "#vn" +:+ to_string (Z.of_nat replica_index)).

Definition insertVNode (node : NodeInfo) (rg : gmap Z string) (replica_index : nat) : gmap Z string :=
  <[vnode_hash (node_id node) replica_index := node_id node]> rg.

Definition addPhysicalNode (node : NodeInfo) (r : Router) : Router :=
  match nodes r !! node_id node with
  | Some _ => r
  | None =>
      mkRouter (virtual_nodes r)
               (foldl (insertVNode node) (ring r) (seq 0 (Z.to_nat (virtual_nodes r))))
               (<[node_id node := node]> (nodes r))
  end.

Definition removePhysicalNode (id : string) (r : Router) : Router :=
  match nodes r !! id with
  | None => r
  | Some _ =>
      mkRouter (virtual_nodes r) (filter (λ kv, kv.2 ≠ id) (ring r)) (delete id (nodes r))
  end.

Definition physicalCount (r : Router) : nat := size (nodes r).

Definition debugRing (r : Router) : list (Z * string) := entries (ring r).

Definition getAllPhysicalNodes (r : Router) : list NodeInfo := (entries (nodes r)).*2.

(** [ring.lower_bound(h)], as an index into the iteration order, with
    [if (it == ring.end()) it = ring.begin()]. *)
Fixpoint lower_bound (l : list (Z * string)) (h : Z) : nat :=
  match l with
  | [] => 0
  | kv :: l => if (kv.1 <? h)%Z then S (lower_bound l h) else 0
  end.

Definition start_index (l : list (Z * string)) (h : Z) : nat :=
  let it := lower_bound l h in
  if bool_decide (it = length l) then 0 else it.

(** The [while] loop; [it] is the iterator's index. *)
Fixpoint owners_loop (fuel : nat) (l : list (Z * string)) (nds : gmap string NodeInfo)
    (replicas : Z) (it : nat) (owners : list NodeInfo) (chosen : gset string)
    : option (list NodeInfo) :=
  match fuel with
  | O => None
  | S fuel =>
      if negb (Z.of_nat (length owners) <? replicas)%Z then Some owners
      else
        let phys := (l !!! it).2 in
        let '(owners, chosen) :=
          match nds !! phys with
          | Some info =>
              if bool_decide (phys ∈ chosen) then (owners, chosen)
              else (owners ++ [info], {[phys]} ∪ chosen)
          | None => (owners, chosen)
          end in
        let it := S it in
        let it := if bool_decide (it = length l) then 0 else it in
        if bool_decide (size chosen = size nds) then Some owners
        else owners_loop fuel l nds replicas it owners chosen
  end.

Definition findOwners (r : Router) (key : string) (replicas : Z) : option (list NodeInfo) :=
  let replicas := if (replicas <=? 0)%Z then 1%Z else replicas in
  let h := hash64 key in
  if bool_decide (ring r = ∅) then Some []
  else
    let l := entries (ring r) in
    owners_loop (S (length l)) l (nodes r) replicas (start_index l h) [] ∅.

(** ** Well-formed rings *)

Record ring_ok (r : Router) : Prop := {
  ring_vals : ∀ h id, ring r !! h = Some id → is_Some (nodes r !! id);
  ring_full : ∀ id n, nodes r !! id = Some n → ∃ h, ring r !! h = Some id;
  ring_ids : ∀ id n, nodes r !! id = Some n → node_id n = id;
}.

(** No virtual node of [node] lands on an occupied position. *)
Definition no_collision (node : NodeInfo) (r : Router) : Prop :=
  Forall (λ i, ring r !! vnode_hash (node_id node) i = None) (seq 0 (Z.to_nat (virtual_nodes r))).

#[global] Instance no_collision_dec node r : Decision (no_collision node r).
Proof. unfold no_collision. apply _. Defined.

(** ** The preference list: what [findOwners] is meant to enumerate *)

(** The ring read clockwise from [h]. *)
Definition clockwise (l : list (Z * string)) (h : Z) : list string :=
  (filter (λ kv, h ≤ kv.1)%Z l).*2 ++ (filter (λ kv, kv.1 < h)%Z l).*2.

(** First occurrences. *)
Fixpoint firsts (seen : list string) (l : list string) : list string :=
  match l with
  | [] => []
  | x :: l => if bool_decide (x ∈ seen) then firsts seen l else x :: firsts (x :: seen) l
  end.

Definition info_of (nds : gmap string NodeInfo) (id : string) : NodeInfo :=
  default inhabitant (nds !! id).

Definition preference (r : Router) (key : string) : list NodeInfo :=
  info_of (nodes r) <$> firsts [] (clockwise (entries (ring r)) (hash64 key)).

(** ** Lemmas on first occurrences *)

Lemma elem_of_firsts seen l x : x ∈ firsts seen l ↔ x ∈ l ∧ x ∉ seen.
Proof.
  revert seen. induction l as [|y l IH]; intros seen; cbn; [set_solver|].
  case_bool_decide as Hy; rewrite ?elem_of_cons, IH; [set_solver|].
  rewrite elem_of_cons. destruct (decide (x = y)); set_solver.
Qed.

Lemma NoDup_firsts seen l : NoDup (firsts seen l).
Proof.
  revert seen. induction l as [|y l IH]; intros seen; cbn; [constructor|].
  case_bool_decide; [apply IH|]. constructor; [|apply IH]. rewrite elem_of_firsts. set_solver.
Qed.

Lemma firsts_ext seen seen' l : (∀ x, x ∈ seen ↔ x ∈ seen') → firsts seen l = firsts seen' l.
Proof.
  revert seen seen'. induction l as [|y l IH]; intros seen seen' Hs; cbn; [done|].
  rewrite (bool_decide_ext _ (y ∈ seen')) by apply Hs.
  case_bool_decide; [by apply IH|]. f_equal. apply IH. set_solver.
Qed.

Lemma firsts_nil seen l : (∀ x, x ∈ l → x ∈ seen) → firsts seen l = [].
Proof.
  induction l as [|y l IH]; intros Hl; cbn; [done|].
  rewrite bool_decide_eq_true_2 by set_solver. apply IH. set_solver.
Qed.

(** Having seen [x] only matters for [x] itself. *)
Lemma filter_firsts_seen x seen l :
  filter (λ y, y ≠ x) (firsts seen l) = filter (λ y, y ≠ x) (firsts (x :: seen) l).
Proof.
  revert seen. induction l as [|z l IH]; intros seen; cbn [firsts]; [done|].
  destruct (decide (z = x)) as [->|Hzx].
  - rewrite (bool_decide_eq_true_2 (x ∈ x :: seen)) by set_solver. case_bool_decide; [apply IH|].
    by rewrite filter_cons_False by tauto.
  - rewrite (bool_decide_ext (z ∈ x :: seen) (z ∈ seen)) by set_solver.
    case_bool_decide as Hz; [apply IH|]. rewrite !filter_cons_True by done. f_equal.
    rewrite IH. f_equal. apply firsts_ext. set_solver.
Qed.

(** Dropping an element from the walk drops it from the enumeration. *)
Lemma firsts_filter x seen l :
  firsts seen (filter (λ y, y ≠ x) l) = filter (λ y, y ≠ x) (firsts seen l).
Proof.
  revert seen. induction l as [|y l IH]; intros seen; cbn [firsts]; [done|].
  rewrite filter_cons. case_bool_decide as Hy.
  - case_decide; cbn [firsts]; [|apply IH]. by rewrite bool_decide_eq_true_2, IH.
  - rewrite filter_cons. case_decide as Hne; cbn [firsts].
    + rewrite bool_decide_eq_false_2 by done. by rewrite IH.
    + assert (y = x) as -> by (by destruct (decide (y = x))).
      rewrite IH. apply filter_firsts_seen.
Qed.

(** ** The iterator walk *)

Lemma lower_bound_split l h :
  StronglySorted entry_le l → NoDup l.*1 →
  drop (lower_bound l h) l = filter (λ kv, h ≤ kv.1)%Z l ∧
  take (lower_bound l h) l = filter (λ kv, kv.1 < h)%Z l.
Proof.
  intros Hs _. induction l as [|kv l IH]; [done|]. cbn [lower_bound].
  apply StronglySorted_cons in Hs as [Hall Hs]. destruct (IH Hs) as [IH1 IH2].
  destruct (Z.ltb_spec kv.1 h) as [Hlt|Hge].
  - rewrite filter_cons_False, filter_cons_True by lia. cbn [drop take]. by rewrite IH1, IH2.
  - rewrite filter_cons_True, filter_cons_False by lia. cbn [drop take].
    rewrite list.Forall_forall in Hall. split.
    + f_equal. symmetry. apply filter_all. apply list.Forall_forall. intros x Hx.
      specialize (Hall x Hx). unfold entry_le, key_le in Hall. cbn in Hall. lia.
    + symmetry. apply filter_none. apply list.Forall_forall. intros x Hx.
      specialize (Hall x Hx). unfold entry_le, key_le in Hall. cbn in Hall. lia.
Qed.

(** The rotation that the wrapping iterator performs. *)
Definition rotated (l : list (Z * string)) (i : nat) : list (Z * string) := drop i l ++ take i l.

Lemma rotated_lookup l i j x :
  i < length l → rotated l i !! j = Some x → l !! ((i + j) mod length l) = Some x.
Proof.
  intros Hi Hj. assert (j < length l) as Hlen.
  { apply lookup_lt_Some in Hj. unfold rotated in Hj.
    rewrite length_app, length_drop, length_take in Hj. lia. }
  unfold rotated in Hj. destruct (decide (j < length l - i)).
  - rewrite lookup_app_l, lookup_drop in Hj by (rewrite length_drop; lia).
    by rewrite Nat.mod_small by lia.
  - rewrite lookup_app_r, length_drop in Hj by (rewrite length_drop; lia).
    replace (i + j) with ((j - (length l - i)) + 1 * length l) by lia.
    rewrite Nat.Div0.mod_add, Nat.mod_small by lia. apply lookup_take_Some in Hj. by destruct Hj.
Qed.

Lemma clockwise_rotated l h :
  StronglySorted entry_le l → NoDup l.*1 → (rotated l (start_index l h)).*2 = clockwise l h.
Proof.
  intros Hs Hnd. destruct (lower_bound_split l h Hs Hnd) as [H1 H2]. unfold clockwise, rotated, start_index.
  rewrite <- H1, <- H2, <- fmap_app. f_equal. case_bool_decide as E; [|done]. rewrite E.
  by rewrite drop_0, take_0, drop_all, firstn_all, app_nil_r.
Qed.

(** A duplicate-free list of node ids as long as the membership covers it. *)
Lemma chosen_all (nds : gmap string NodeInfo) c :
  NoDup c → (∀ x, x ∈ c → is_Some (nds !! x)) → length c = size nds →
  ∀ x, is_Some (nds !! x) → x ∈ c.
Proof.
  intros Hnd Hc Hlen x Hx. assert (list_to_set c = dom nds) as E.
  { apply set_subseteq_size_eq; [|by rewrite size_dom, size_list_to_set, Hlen].
    intros y Hy%elem_of_list_to_set. by apply elem_of_dom, Hc. }
  apply (elem_of_list_to_set (C := gset string)). rewrite E. by apply elem_of_dom.
Qed.

Lemma chosen_not_all (nds : gmap string NodeInfo) c :
  NoDup c → length c < size nds → ∃ x, is_Some (nds !! x) ∧ x ∉ c.
Proof.
  intros Hnd Hlen. destruct (set_choose_or_empty (dom nds ∖ list_to_set c)) as [[x Hx]|Hemp].
  - exists x. rewrite <- elem_of_dom, <- (elem_of_list_to_set (C := gset string)). set_solver.
  - assert (dom nds ⊆ list_to_set c) as Hsub.
    { intros x Hx. destruct (decide (x ∈ c)); set_solver. }
    apply subseteq_size in Hsub. rewrite size_dom, size_list_to_set in Hsub by done. lia.
Qed.

(** Advancing the iterator shifts the entries ahead of it. *)
Lemma advance_lookup (l rest : list (Z * string)) it x :
  it < length l →
  (∀ j y, (x :: rest) !! j = Some y → l !! ((it + j) mod length l) = Some y) →
  let it' := if bool_decide (S it = length l) then 0 else S it in
  l !!! it = x ∧ it' < length l ∧
  (∀ j y, rest !! j = Some y → l !! ((it' + j) mod length l) = Some y).
Proof.
  intros Hit Hrest it'. split_and!.
  - apply list_lookup_total_correct. specialize (Hrest 0 x eq_refl).
    by rewrite Nat.add_0_r, Nat.mod_small in Hrest.
  - subst it'. case_bool_decide; lia.
  - intros j y Hy. rewrite <- (Hrest (S j) y Hy). f_equal. subst it'.
    case_bool_decide as E; [|f_equal; lia].
    replace (it + S j) with (j + 1 * length l) by lia. by rewrite Nat.Div0.mod_add.
Qed.

(** One turn of the loop.  [c] lists the ids chosen so far, [rest] the ring
    entries still ahead of the iterator in this turn. *)
Lemma owners_loop_turn l nds n it rest c :
  it < length l →
  (∀ j x, rest !! j = Some x → l !! ((it + j) mod length l) = Some x) →
  (∀ x, x ∈ rest.*2 → is_Some (nds !! x)) →
  NoDup c → (∀ x, x ∈ c → is_Some (nds !! x)) → (Z.of_nat (length c) ≤ n)%Z → length c < size nds →
  (∀ x, is_Some (nds !! x) → x ∈ c ∨ x ∈ rest.*2) →
  owners_loop (S (length rest)) l nds n it (info_of nds <$> c) (list_to_set c) =
  Some (take (Z.to_nat n) (info_of nds <$> (c ++ firsts c rest.*2))).
Proof.
  revert it c. induction rest as [|x rest IH];
    intros it c Hit Hrest Hvals Hnd Hc Hcn Hsz Hcov;
    [set (f := length []) in *|set (f := length (x :: rest)) in *]; cbn [owners_loop]; rewrite length_fmap;
    (destruct (Z.ltb_spec (Z.of_nat (length c)) n) as [Hlt|Hge]; cbn [negb]; cycle 1;
     [rewrite fmap_app, take_app_le, take_ge; [done|..]; rewrite length_fmap; lia|]).
  { destruct (chosen_not_all nds c Hnd Hsz) as (y & Hy & Hn). destruct (Hcov y Hy); set_solver. }
  destruct (advance_lookup l rest it x Hit Hrest) as (-> & Hit' & Hrest').
  set (it' := if bool_decide (S it = length l) then 0 else S it) in *.
  destruct (Hvals x.2) as [info Hinfo]; [set_solver|]. rewrite Hinfo.
  subst f. cbn [fmap list_fmap firsts length].
  rewrite (bool_decide_ext (x.2 ∈ (list_to_set c : gset string)) (x.2 ∈ c)) by (by rewrite elem_of_list_to_set).
  case_bool_decide as Hin.
  - rewrite size_list_to_set by done. rewrite bool_decide_eq_false_2 by lia.
    rewrite IH; [done|done|done|set_solver|done|done|done|done|].
    intros y Hy. destruct (Hcov y Hy) as [?|Hy']; [by left|]. set_solver.
  - assert (NoDup (c ++ [x.2])) as Hnd'.
    { apply list.NoDup_app. split_and!; [done|set_solver|apply NoDup_singleton]. }
    assert (∀ y, y ∈ c ++ [x.2] → is_Some (nds !! y)) as Hc' by set_solver.
    assert ({[x.2]} ∪ list_to_set c = (list_to_set (c ++ [x.2]) : gset string)) as -> by set_solver.
    assert ((info_of nds <$> c) ++ [info] = info_of nds <$> (c ++ [x.2])) as ->
      by (rewrite fmap_app; cbn; unfold info_of at 3; by rewrite Hinfo).
    rewrite (firsts_ext (x.2 :: c) (c ++ [x.2])) by set_solver.
    replace (c ++ x.2 :: firsts (c ++ [x.2]) rest.*2) with ((c ++ [x.2]) ++ firsts (c ++ [x.2]) rest.*2)
      by (by rewrite <- app_assoc).
    rewrite size_list_to_set by done. case_bool_decide as Hall.
    + rewrite firsts_nil by (intros y Hy; apply (chosen_all nds); [done..|]; apply Hvals; set_solver).
      rewrite app_nil_r, take_ge; [done|]. rewrite length_fmap, length_app. cbn. lia.
    + rewrite length_app in Hall. cbn in Hall.
      apply IH; try done; [set_solver|rewrite length_app; cbn; lia..|].
      intros y Hy. destruct (Hcov y Hy); set_solver.
Qed.

(** ** [findOwners] enumerates the preference list *)

Lemma entries_ring_nil (m : gmap Z string) : m ≠ ∅ → 0 < length (entries m).
Proof. intros Hne. rewrite length_entries. apply map_size_non_empty_iff in Hne. lia. Qed.

Lemma elem_of_clockwise l h x : x ∈ clockwise l h ↔ x ∈ l.*2.
Proof.
  unfold clockwise. rewrite elem_of_app, !list_elem_of_fmap.
  setoid_rewrite list_elem_of_filter. split; [naive_solver|].
  intros (kv & -> & Hin). destruct (decide (h ≤ kv.1)%Z); [left|right]; exists kv; split_and!; lia || done.
Qed.

Lemma elem_of_ring_ids r x : ring_ok r → x ∈ (entries (ring r)).*2 ↔ is_Some (nodes r !! x).
Proof.
  intros Hok. rewrite list_elem_of_fmap. split.
  - intros ([h id] & -> & Hin%elem_of_entries). by eapply ring_vals.
  - intros [n Hn]. destruct (ring_full r Hok x n Hn) as [h Hh].
    exists (h, x). split; [done|]. by apply elem_of_entries.
Qed.

Lemma findOwners_preference r key n :
  ring_ok r → findOwners r key n = Some (take (Z.to_nat (Z.max n 1)) (preference r key)).
Proof.
  intros Hok. unfold findOwners.
  assert ((if (n <=? 0)%Z then 1%Z else n) = Z.max n 1) as -> by (destruct (Z.leb_spec n 0); lia).
  unfold preference. case_bool_decide as Hemp.
  { rewrite Hemp, entries_empty. by destruct (Z.to_nat (Z.max n 1)). }
  set (l := entries (ring r)).
  assert (0 < length l) as Hlen by (by apply entries_ring_nil).
  assert (start_index l (hash64 key) < length l) as Hst.
  { unfold start_index. case_bool_decide; [done|].
    assert (∀ l h, lower_bound l h ≤ length l); [|specialize (H0 l (hash64 key)); lia].
    clear. induction l as [|kv l IH]; intros h; cbn; [done|]. specialize (IH h). case_match; lia. }
  rewrite <- clockwise_rotated by (apply entries_sorted || apply NoDup_entries_fst).
  fold l. set (rest := rotated l (start_index l (hash64 key))).
  assert (length l = length rest) as ->.
  { unfold rest, rotated. rewrite length_app, length_drop, length_take. lia. }
  assert (∀ x, x ∈ rest.*2 ↔ is_Some (nodes r !! x)) as Hmem.
  { intros x. unfold rest. rewrite clockwise_rotated by (apply entries_sorted || apply NoDup_entries_fst).
    rewrite elem_of_clockwise. by apply elem_of_ring_ids. }
  apply (owners_loop_turn l (nodes r) (Z.max n 1) _ rest []).
  - done.
  - intros j x. by apply rotated_lookup.
  - intros x. by apply Hmem.
  - constructor.
  - intros x Hx. by apply elem_of_nil in Hx.
  - cbn. lia.
  - cbn. destruct (map_choose _ Hemp) as (h & id & Hh). apply (ring_vals r Hok) in Hh as [nd Hnd].
    assert (nodes r ≠ ∅) as Hne by (intros E; by rewrite E, lookup_empty in Hnd).
    apply map_size_non_empty_iff in Hne. lia.
  - intros x Hx. right. by apply Hmem.
Qed.

(** The preference list names every member exactly once. *)
Lemma preference_ids r key :
  ring_ok r → node_id <$> preference r key = firsts [] (clockwise (entries (ring r)) (hash64 key)).
Proof.
  intros Hok. unfold preference. rewrite <- list_fmap_compose. apply list_fmap_id_on.
  intros x [Hx _]%elem_of_firsts. apply elem_of_clockwise, (elem_of_ring_ids r x Hok) in Hx as [n Hn].
  unfold compose, info_of. rewrite Hn. by apply (ring_ids r Hok).
Qed.

Lemma preference_NoDup r key : ring_ok r → NoDup (node_id <$> preference r key).
Proof. intros Hok. rewrite preference_ids by done. apply NoDup_firsts. Qed.

Lemma elem_of_preference r key n :
  ring_ok r → n ∈ preference r key ↔ nodes r !! node_id n = Some n.
Proof.
  intros Hok. unfold preference. rewrite list_elem_of_fmap. split.
  - intros (x & -> & [Hx _]%elem_of_firsts).
    apply elem_of_clockwise, (elem_of_ring_ids r x Hok) in Hx as [m Hm].
    unfold info_of. rewrite Hm. cbn. by rewrite (ring_ids r Hok x m Hm).
  - intros Hn. exists (node_id n). split; [unfold info_of; by rewrite Hn|].
    apply elem_of_firsts. split; [|apply not_elem_of_nil].
    apply elem_of_clockwise, (elem_of_ring_ids r _ Hok). by exists n.
Qed.

Lemma preference_length r key : ring_ok r → length (preference r key) = size (nodes r).
Proof.
  intros Hok. rewrite <- size_dom, <- (length_fmap node_id).
  rewrite <- (size_list_to_set (C := gset string)) by (by apply preference_NoDup).
  f_equal. apply set_eq. intros x. rewrite elem_of_list_to_set, list_elem_of_fmap, elem_of_dom. split.
  - intros (n & -> & Hn). apply elem_of_preference in Hn; [|done]. by exists n.
  - intros [n Hn]. exists n. rewrite elem_of_preference by done.
    pose proof (ring_ids r Hok x n Hn) as <-. by split.
Qed.

(** ** Membership operations *)

Lemma ring_ok_new v : ring_ok (new v).
Proof. split; intros *; cbn; by rewrite lookup_empty. Qed.

Lemma foldl_insertVNode_lookup node rg idx h id :
  foldl (insertVNode node) rg idx !! h = Some id ↔
  (id = node_id node ∧ h ∈ vnode_hash (node_id node) <$> idx) ∨
  (h ∉ (vnode_hash (node_id node) <$> idx)) ∧ rg !! h = Some id.
Proof.
  revert rg. induction idx as [|i idx IH]; intros rg; cbn [foldl fmap list_fmap]; [set_solver|].
  rewrite IH. unfold insertVNode. rewrite elem_of_cons, lookup_insert_Some.
  destruct (decide (h ∈ vnode_hash (node_id node) <$> idx)); destruct (decide (h = vnode_hash (node_id node) i));
    naive_solver.
Qed.

(** Adding a node keeps the ring well-formed as long as no virtual node of the
    new member overwrites another member's. *)
Lemma ring_ok_add node r :
  (1 ≤ virtual_nodes r)%Z → no_collision node r → ring_ok r → ring_ok (addPhysicalNode node r).
Proof.
  intros Hv Hnc Hok. unfold addPhysicalNode. destruct (nodes r !! node_id node) eqn:E; [done|].
  unfold no_collision in Hnc. rewrite list.Forall_forall in Hnc. split; cbn.
  - intros h id. rewrite foldl_insertVNode_lookup. intros [[-> _]|[_ Hh]].
    + rewrite lookup_insert_eq. eauto.
    + rewrite lookup_insert. case_decide; [eauto|]. by eapply ring_vals.
  - intros id n. rewrite lookup_insert. case_decide as Hid.
    + intros [= <-]. subst id. exists (vnode_hash (node_id node) 0). apply foldl_insertVNode_lookup.
      left. split; [done|]. apply list_elem_of_fmap. exists 0. split; [done|]. apply elem_of_seq. lia.
    + intros Hn. destruct (ring_full r Hok id n Hn) as [h Hh]. exists h.
      apply foldl_insertVNode_lookup. right. split; [|done].
      intros (i & -> & Hi)%list_elem_of_fmap. rewrite (Hnc i Hi) in Hh. done.
  - intros id n. rewrite lookup_insert. case_decide as Hid; [by intros [= <-]|by apply ring_ids].
Qed.

Lemma ring_ok_remove id r : ring_ok r → ring_ok (removePhysicalNode id r).
Proof.
  intros Hok. unfold removePhysicalNode. destruct (nodes r !! id) eqn:E; [|done]. split; cbn.
  - intros h x [Hh Hne]%map_lookup_filter_Some. cbn in Hne. rewrite lookup_delete_ne by done.
    by eapply ring_vals.
  - intros x m [Hne Hn]%lookup_delete_Some. destruct (ring_full r Hok x m Hn) as [h Hh]. exists h.
    apply map_lookup_filter_Some. cbn. auto.
  - intros x m [_ Hn]%lookup_delete_Some. by apply (ring_ids r Hok).
Qed.

Lemma preference_remove id r key :
  ring_ok r →
  preference (removePhysicalNode id r) key = filter (λ n, node_id n ≠ id) (preference r key).
Proof.
  intros Hok. assert (∀ x n, nodes r !! x = Some n → node_id n = x) as Hids by apply ring_ids, Hok.
  unfold removePhysicalNode. destruct (nodes r !! id) as [nd|] eqn:E.
  - unfold preference at 1. cbn [ring nodes]. rewrite entries_filter.
    assert (∀ l, clockwise (filter (λ kv, kv.2 ≠ id) l) (hash64 key) =
                 filter (λ y, y ≠ id) (clockwise l (hash64 key))) as ->.
    { intros l. unfold clockwise. rewrite list.filter_app, !fmap_filter. f_equal; f_equal; apply filter_swap. }
    rewrite firsts_filter. unfold preference. rewrite fmap_filter.
    set (ids := firsts [] _). assert (∀ x, x ∈ ids → is_Some (nodes r !! x)) as Hin.
    { intros x [Hx _]%elem_of_firsts. by apply elem_of_clockwise, (elem_of_ring_ids r x Hok) in Hx. }
    clearbody ids. induction ids as [|x ids IH]; [done|].
    destruct (Hin x) as [n Hn]; [set_solver|]. rewrite !filter_cons.
    assert (node_id (info_of (nodes r) x) = x) as -> by (unfold info_of; rewrite Hn; by apply Hids).
    case_decide; [|apply IH; set_solver]. rewrite !fmap_cons. f_equal; [|apply IH; set_solver].
    unfold info_of. by rewrite lookup_delete_ne.
  - symmetry. apply filter_all, list.Forall_forall. intros n Hn Hid. subst id.
    apply elem_of_preference in Hn; [|done]. congruence.
Qed.

Lemma remove_add node r :
  ring_ok r → nodes r !! node_id node = None → no_collision node r →
  removePhysicalNode (node_id node) (addPhysicalNode node r) = r.
Proof.
  intros Hok HN Hnc. unfold addPhysicalNode. rewrite HN. unfold removePhysicalNode. cbn [nodes ring virtual_nodes].
  rewrite lookup_insert_eq. destruct r as [v rg nds]. cbn in *. f_equal.
  - apply map_eq. intros h. apply option_eq. intros id.
    rewrite map_lookup_filter_Some, foldl_insertVNode_lookup. cbn.
    unfold no_collision in Hnc. rewrite list.Forall_forall in Hnc. cbn in Hnc. split.
    + intros [[[-> _]|[_ Hh]] Hne]; [done|exact Hh].
    + intros Hh. assert (id ≠ node_id node) as Hne.
      { intros ->. destruct (ring_vals _ Hok h (node_id node) Hh) as [? Hs]. cbn in Hs. congruence. }
      split; [|done]. right. split; [|done]. intros (i & -> & Hi)%list_elem_of_fmap.
      rewrite (Hnc i Hi) in Hh. done.
  - by rewrite delete_insert_id.
Qed.

(** ** Theorems *)

(** C10: on a well-formed ring [findOwners] terminates within one turn and
    returns the first [max(replicas, 1)] members of the key's preference list:
    distinct nodes of the current membership, all of them when there are not
    enough. *)
Theorem findOwners_correct r key replicas :
  ring_ok r →
  ∃ owners, findOwners r key replicas = Some owners ∧
    owners `prefix_of` preference r key ∧
    length owners = (Z.to_nat (Z.max replicas 1) `min` physicalCount r) ∧
    NoDup (node_id <$> owners) ∧
    (∀ n, n ∈ owners → nodes r !! node_id n = Some n).
Proof.
  intros Hok. eexists. split; [by apply findOwners_preference|].
  assert (∀ k, take k (preference r key) `prefix_of` preference r key) as Hpre.
  { intros k. exists (drop k (preference r key)). by rewrite take_drop. }
  split_and!.
  - apply Hpre.
  - rewrite length_take, preference_length by done. done.
  - rewrite fmap_take. eapply sublist_NoDup; [by apply (preference_NoDup r key)|apply sublist_take].
  - intros n Hn. apply (elem_of_preference r key n Hok).
    eapply elem_of_sublist; [exact Hn|apply sublist_take].
Qed.

(** The invariant of the ring: an empty router has it, removal keeps it,
    and so does adding a node whose virtual nodes hit free positions. *)
Theorem ring_invariant r node id :
  ring_ok (new (virtual_nodes r)) ∧
  (ring_ok r → ring_ok (removePhysicalNode id r)) ∧
  ((1 ≤ virtual_nodes r)%Z → no_collision node r → ring_ok r → ring_ok (addPhysicalNode node r)).
Proof. split_and!; [apply ring_ok_new|apply ring_ok_remove|apply ring_ok_add]. Qed.

(** C16: consistent hashing.  Removing a node leaves every key's other owners in
    their order, and adding a node whose virtual nodes collide with none on the ring
    only inserts it: filtering the newcomer out of the owners gives back the owners of
    before. *)
Theorem membership_change_moves_no_other_key r key node :
  ring_ok r →
  (∀ id n, findOwners (removePhysicalNode id r) key n =
     Some (take (Z.to_nat (Z.max n 1)) (filter (λ x, node_id x ≠ id) (preference r key)))) ∧
  (nodes r !! node_id node = None → no_collision node r → (1 ≤ virtual_nodes r)%Z →
   filter (λ x, node_id x ≠ node_id node) (preference (addPhysicalNode node r) key) = preference r key).
Proof.
  intros Hok. split.
  - intros id n. rewrite findOwners_preference by (by apply ring_ok_remove).
    by rewrite preference_remove.
  - intros HN Hnc Hv. rewrite <- preference_remove by (by apply ring_ok_add). by rewrite remove_add.
Qed.

(** A three-node ring. *)
Definition n1 := mkNode "node1" "h1" 5001.
Definition n2 := mkNode "node2" "h2" 5002.
Definition n3 := mkNode "node3" "h3" 5003.
Definition r3 := addPhysicalNode n3 (addPhysicalNode n2 (addPhysicalNode n1 (new 4))).

Lemma r3_ok : ring_ok r3.
Proof.
  unfold r3. do 3 (apply ring_ok_add; [vm_compute; discriminate|vm_decide|]). apply ring_ok_new.
Qed.

Lemma findOwners_correct_witness :
  ∃ owners, findOwners r3 "user:42" 2 = Some owners ∧ length owners = 2.
Proof.
  destruct (findOwners_correct r3 "user:42" 2 r3_ok) as (o & Ho & _ & Hlen & _).
  exists o. split; [exact Ho|]. rewrite Hlen. vm_compute. reflexivity.
Defined.

Lemma ring_invariant_witness : ring_ok (addPhysicalNode n2 (new 4)).
Proof.
  destruct (ring_invariant (new 4) n2 "") as (H0 & _ & Hadd).
  apply Hadd; [vm_compute; discriminate|vm_decide|exact H0].
Defined.

Lemma membership_change_moves_no_other_key_witness :
  findOwners (removePhysicalNode "node2" r3) "user:42" 3 =
  Some (take 3 (filter (λ x, node_id x ≠ "node2") (preference r3 "user:42"))).
Proof. apply (membership_change_moves_no_other_key r3 "user:42" n1 r3_ok). Defined.

Example owners_of_user_42 :
  findOwners r3 "user:42" 2 = Some [n1; n3].
Proof. vm_compute. reflexivity. Qed.

End Router.
