(* ===== verification/Placement.v ===== *)
(** * Placement on the ring

    Which node comes first for a key is a property of the node's name alone:
    its virtual nodes have fixed positions, and the nearest of them, clockwise
    from the key, decides.  [placed] says that a ring holds every virtual node
    of its members and nothing else (no two members collided), [rank] is the
    clockwise distance from a key to a node, and [primary_is_nearest] shows that
    the first owner has the smallest rank.  Two nodes with different views of
    the membership therefore still agree on the order of the nodes both know. *)
From S2P Require Import Prelude Util Ring.
From Stdlib Require Import Ascii String ZArith Lia.
From stdpp Require Import sorting base gmap sets list strings numbers.

Module Placement.
Import Router.

(** The positions of a node's virtual nodes. *)
Definition positions (vnodes : Z) (id : string) : list Z :=
  vnode_hash id <$> seq 0 (Z.to_nat vnodes).

Definition placed (r : Router) : Prop :=
  ∀ h id, ring r !! h = Some id ↔ is_Some (nodes r !! id) ∧ h ∈ positions (virtual_nodes r) id.

Lemma placed_new v : placed (new v).
Proof. intros h id. cbn. rewrite !lookup_empty. split; [done|]. intros [[? [=]] _]. Qed.

Lemma placed_add node r : no_collision node r → placed r → placed (addPhysicalNode node r).
Proof.
  intros Hnc Hp. unfold addPhysicalNode. destruct (nodes r !! node_id node) eqn:E; [done|].
  intros h id. cbn [ring nodes virtual_nodes]. rewrite foldl_insertVNode_lookup.
  change (vnode_hash (node_id node) <$> seq 0 (Z.to_nat (virtual_nodes r)))
    with (positions (virtual_nodes r) (node_id node)).
  rewrite lookup_insert. case_decide as Hid.
  - subst id. split; [|intros [_ ?]; by left].
    intros [[_ ?]|[_ Hh]]; [by eauto|]. apply Hp in Hh as [[? ?] _]. congruence.
  - rewrite (Hp h id). split; [intros [[-> _]|[_ ?]]; done|]. intros [Hn Hh]. right. split; [|done].
    intros (i & -> & Hi)%list_elem_of_fmap. unfold no_collision in Hnc. rewrite list.Forall_forall in Hnc.
    specialize (Hnc i Hi). assert (ring r !! vnode_hash (node_id node) i = Some id) by (by apply Hp). congruence.
Qed.

Lemma placed_remove id r : placed r → placed (removePhysicalNode id r).
Proof.
  intros Hp. unfold removePhysicalNode. destruct (nodes r !! id) eqn:E; [|done].
  intros h x. cbn [ring nodes virtual_nodes]. rewrite map_lookup_filter_Some, (Hp h x). cbn.
  destruct (decide (id = x)) as [->|Hne].
  - rewrite lookup_delete_eq. split; [by intros [_ ?]|]. intros [[? [=]] _].
  - rewrite lookup_delete_ne by done. naive_solver.
Qed.

(** ** Distances *)

(** How far clockwise [x] is from [h]. *)
Definition distance (h x : Z) : Z := u64 (x - h).

Lemma distance_split h x : is_u64 h → is_u64 x →
  distance h x = if (h <=? x)%Z then (x - h)%Z else (x - h + 18446744073709551616)%Z.
Proof.
  unfold is_u64, U64_MAX, distance, u64. intros. destruct (Z.leb_spec h x).
  - apply Z.mod_small. lia.
  - rewrite <- (Z_mod_plus_full (x - h) 1), Z.mod_small; lia.
Qed.

Lemma distance_inj h x y : is_u64 h → is_u64 x → is_u64 y → distance h x = distance h y → x = y.
Proof.
  intros Hh Hx Hy. rewrite !distance_split by done. unfold is_u64, U64_MAX in *.
  destruct (Z.leb_spec h x), (Z.leb_spec h y); lia.
Qed.

Definition rank (vnodes : Z) (key id : string) : Z :=
  foldr Z.min 18446744073709551616%Z (distance (hash64 key) <$> positions vnodes id).

Lemma position_u64 v id h : h ∈ positions v id → is_u64 h.
Proof. intros (i & -> & _)%list_elem_of_fmap. apply hash64_range. Qed.

Lemma rank_le v key id h : h ∈ positions v id → (rank v key id ≤ distance (hash64 key) h)%Z.
Proof.
  unfold rank. induction (positions v id) as [|x l IH]; [by intros ?%elem_of_nil|].
  rewrite fmap_cons, foldr_cons. intros [->|Hh]%elem_of_cons; [lia|]. specialize (IH Hh). lia.
Qed.

Lemma rank_gt v key id d :
  (d < 18446744073709551616)%Z → (∀ h, h ∈ positions v id → d < distance (hash64 key) h)%Z →
  (d < rank v key id)%Z.
Proof.
  unfold rank. intros Hd. induction (positions v id) as [|x l IH]; intros Hall; [done|]. rewrite fmap_cons, foldr_cons.
  pose proof (Hall x ltac:(left)). pose proof (IH (λ h Hh, Hall h ltac:(by right))). lia.
Qed.

Lemma rank_nonneg v key id : (0 ≤ rank v key id)%Z.
Proof.
  unfold rank. induction (positions v id) as [|x l IH]; [done|]. rewrite fmap_cons, foldr_cons.
  assert (0 ≤ distance (hash64 key) x)%Z by apply (u64_range (x - hash64 key)). lia.
Qed.

(** ** The nearest virtual node *)

Lemma sorted_head (l : list (Z * string)) e t (P : Z * string → Prop) `{!∀ x, Decision (P x)} :
  StronglySorted entry_le l → filter P l = e :: t → P e ∧ e ∈ l ∧ ∀ x, x ∈ l → P x → (e.1 ≤ x.1)%Z.
Proof.
  intros Hs Hf. assert (e ∈ filter P l) as [He Hin]%list_elem_of_filter by (rewrite Hf; left).
  split_and!; [done..|]. intros x Hx HPx. clear He Hin. induction Hs as [|y l Hs IH Hy]; [by apply elem_of_nil in Hx|].
  rewrite filter_cons in Hf. apply elem_of_cons in Hx. destruct (decide (P y)) as [Hpy|Hpy].
  - injection Hf as -> _. destruct Hx as [->|Hx]; [lia|].
    rewrite list.Forall_forall in Hy. exact (Hy x Hx).
  - destruct Hx as [->|Hx]; [done|]. by apply IH.
Qed.

Lemma clockwise_head l h id t :
  StronglySorted entry_le l → Forall (λ e, is_u64 e.1) l → is_u64 h → clockwise l h = id :: t →
  ∃ x, (x, id) ∈ l ∧ ∀ e, e ∈ l → (distance h x ≤ distance h e.1)%Z.
Proof.
  intros Hs Hu Hh. rewrite list.Forall_forall in Hu. unfold clockwise.
  set (front := filter (λ kv, h ≤ kv.1)%Z l). set (back := filter (λ kv, kv.1 < h)%Z l).
  destruct front as [|e1 l1] eqn:E1; unfold front in E1; clear front.
  - destruct back as [|e2 l2] eqn:E2; unfold back in E2; [done|]. intros [= <- _].
    apply sorted_head in E2 as (_ & Hin & Hmin); [|done]. exists e2.1. split; [by destruct e2|].
    intros e He. assert (e.1 < h)%Z as Hlt.
    { destruct (decide (h ≤ e.1)%Z) as [Hle|]; [|lia].
      assert (e ∈ filter (λ kv, h ≤ kv.1)%Z l) as Habs by (by apply list_elem_of_filter).
      rewrite E1 in Habs. by apply elem_of_nil in Habs. }
    specialize (Hmin e He ltac:(lia)). rewrite !distance_split by auto.
    destruct (Z.leb_spec h e2.1), (Z.leb_spec h e.1); lia.
  - intros [= <- _]. apply sorted_head in E1 as (Hle & Hin & Hmin); [|done].
    exists e1.1. split; [by destruct e1|]. intros e He. rewrite !distance_split by auto.
    pose proof (Hu e1 Hin) as [? ?]. pose proof (Hu e He) as [? ?]. destruct Hh. cbn in Hle.
    destruct (Z.leb_spec h e1.1), (Z.leb_spec h e.1); [by specialize (Hmin e He ltac:(done)); lia|unfold U64_MAX in *; lia|lia|lia].
Qed.

Lemma entries_u64 r : placed r → Forall (λ e, is_u64 e.1) (entries (ring r)).
Proof.
  intros Hp. apply list.Forall_forall. intros [h id] [_ Hh]%elem_of_entries%Hp. by eapply position_u64.
Qed.

Lemma primary_is_nearest r key p rest id :
  ring_ok r → placed r → preference r key = p :: rest → is_Some (nodes r !! id) → id ≠ node_id p →
  (rank (virtual_nodes r) key (node_id p) < rank (virtual_nodes r) key id)%Z.
Proof.
  intros Hok Hp Hpref Hid Hne. pose proof (preference_ids r key Hok) as Hids. rewrite Hpref in Hids.
  destruct (clockwise (entries (ring r)) (hash64 key)) as [|x t] eqn:Ecw; cbn in Hids; [done|].
  injection Hids as Hx _.
  destruct (clockwise_head _ _ _ _ (entries_sorted _) (entries_u64 r Hp) (hash64_range key) Ecw) as (h0 & Hin & Hmin).
  apply elem_of_entries in Hin. pose proof Hin as [_ Hpos]%Hp. rewrite <- Hx in Hpos, Hin.
  eapply Z.le_lt_trans; [apply rank_le, Hpos|]. apply rank_gt.
  { pose proof (u64_range (h0 - hash64 key)) as [_ ?]. unfold distance, U64_MAX in *. lia. }
  intros h Hh. assert (ring r !! h = Some id) as Hr by (by apply Hp).
  pose proof (Hmin (h, id) ltac:(by apply elem_of_entries)) as Hle. cbn in Hle.
  enough (distance (hash64 key) h0 ≠ distance (hash64 key) h) by lia.
  intros Heq%distance_inj; [|apply hash64_range|by eapply position_u64..]. subst h0. congruence.
Qed.

End Placement.
