(* ===== verification/Metrics.v ===== *)
(** * Metrics (src/metrics.h)

    The operation labels, the [Metrics] interface as a type class, and the
    process-local counters of [InMemoryMetrics]: [std::atomic<uint64_t>] counters
    that wrap at 64 bits, and one gauge.  Relaxed [fetch_add] on one counter is an
    atomic increment, so a counter is a state component that each call bumps.

    [Metrics.count] says what an implementation has to report after a sequence
    of calls; [InMemoryMetrics] does, modulo 2^64. *)
From S2P Require Import Prelude.
From Stdlib Require Import String ZArith Lia.
From stdpp Require Import base list strings numbers.

Inductive Op := Put | Get | Delete.

#[global] Instance Op_eq_dec : EqDecision Op.
Proof. solve_decision. Defined.

Definition opLabel (op : Op) : string :=
  match op with Put => "put" | Get => "get" | Delete => "delete" end.

(** ** The interface *)

Module Metrics.

(** The calls that record something, one per virtual method. *)
Inductive call :=
  | IncRequest (op : Op)
  | ObserveLatency (op : Op)
  | IncQuorumSuccess (op : Op)
  | IncQuorumFailure (op : Op)
  | IncReadRepair
  | IncHintStored
  | IncHintDelivered
  | IncAntiEntropySync
  | IncAntiEntropyKeysRepaired
  | IncMembershipSync
  | SetRingNodes (n : Z)
  | IncPoolConnectionCreated
  | IncPoolConnectionReused.

#[global] Instance call_eq_dec : EqDecision call.
Proof. solve_decision. Defined.

(** The virtual methods: [record] dispatches to the method of the call, and the
    rest are the getters. *)
Class Metrics (M : Type) := {
  record : call → M → M;
  readRepairCount : M → Z;
  hintStoredCount : M → Z;
  hintDeliveredCount : M → Z;
  antiEntropySyncCount : M → Z;
  antiEntropyKeysRepairedCount : M → Z;
  membershipSyncCount : M → Z;
  ringNodesCount : M → Z;
  poolConnectionCreatedCount : M → Z;
  poolConnectionReusedCount : M → Z;
}.

Definition run {M} `{Metrics M} (l : list call) (m : M) : M := foldl (flip record) m l.

(** How many times a call occurs, and the value the ring gauge was last set to. *)
Definition count (c : call) (l : list call) : Z := Z.of_nat (length (filter (c =.) l)).

Fixpoint last_ring (l : list call) (n : Z) : Z :=
  match l with
  | [] => n
  | SetRingNodes n' :: l => last_ring l n'
  | _ :: l => last_ring l n
  end.

(** Everything the interface reports. *)
Definition report {M} `{Metrics M} (m : M) : list Z :=
  [readRepairCount m; hintStoredCount m; hintDeliveredCount m; antiEntropySyncCount m;
   antiEntropyKeysRepairedCount m; membershipSyncCount m; ringNodesCount m;
   poolConnectionCreatedCount m; poolConnectionReusedCount m].

(** What it has to report after the calls [l]. *)
Definition expected (l : list call) : list Z :=
  [count IncReadRepair l; count IncHintStored l; count IncHintDelivered l; count IncAntiEntropySync l;
   count IncAntiEntropyKeysRepaired l; count IncMembershipSync l; last_ring l 0;
   count IncPoolConnectionCreated l; count IncPoolConnectionReused l].

Lemma run_snoc {M} `{Metrics M} l c (m : M) : run (l ++ [c]) m = record c (run l m).
Proof. unfold run. by rewrite foldl_app. Qed.

Lemma count_snoc c d l : count c (l ++ [d]) = (count c l + (if decide (c = d) then 1 else 0))%Z.
Proof.
  unfold count. rewrite list.filter_app, length_app. destruct (decide (c = d)) as [->|].
  - rewrite filter_cons_True by done. cbn. lia.
  - rewrite filter_cons_False by done. cbn. lia.
Qed.

Lemma count_snoc_same c l : count c (l ++ [c]) = (count c l + 1)%Z.
Proof. rewrite count_snoc, decide_True by done. done. Qed.

Lemma count_snoc_other c d l : c ≠ d → count c (l ++ [d]) = count c l.
Proof. intros. rewrite count_snoc, decide_False by done. lia. Qed.

Lemma count_bound c l : (0 ≤ count c l ≤ Z.of_nat (length l))%Z.
Proof. unfold count. pose proof (length_filter (c =.) l). lia. Qed.

Lemma last_ring_snoc l d n :
  last_ring (l ++ [d]) n = match d with SetRingNodes k => k | _ => last_ring l n end.
Proof. revert n. induction l as [|c l IH]; intros n; [by destruct d|]. destruct c; apply IH. Qed.

End Metrics.

Module InMemoryMetrics.

Record t := mk {
  requests_ : Z;
  quorum_ok_ : Z;
  quorum_fail_ : Z;
  read_repair_ : Z;
  hints_stored_ : Z;
  hints_delivered_ : Z;
  ae_syncs_ : Z;
  ae_keys_repaired_ : Z;
  membership_syncs_ : Z;
  ring_nodes_ : Z;
  pool_created_ : Z;
  pool_reused_ : Z;
}.

Definition zero : t := mk 0 0 0 0 0 0 0 0 0 0 0 0.

(** [fetch_add(1)]. *)
Definition inc (z : Z) : Z := u64 (z + 1).

Definition incRequest (_ : Op) (m : t) : t :=
  let '(mk a b c d e f g h i j k l) := m in mk (inc a) b c d e f g h i j k l.
Definition observeLatency {A} (_ : Op) (_ : A) (m : t) : t := m.
Definition incQuorumSuccess (_ : Op) (m : t) : t :=
  let '(mk a b c d e f g h i j k l) := m in mk a (inc b) c d e f g h i j k l.
Definition incQuorumFailure (_ : Op) (m : t) : t :=
  let '(mk a b c d e f g h i j k l) := m in mk a b (inc c) d e f g h i j k l.
Definition incReadRepair (m : t) : t :=
  let '(mk a b c d e f g h i j k l) := m in mk a b c (inc d) e f g h i j k l.
Definition incHintStored (m : t) : t :=
  let '(mk a b c d e f g h i j k l) := m in mk a b c d (inc e) f g h i j k l.
Definition incHintDelivered (m : t) : t :=
  let '(mk a b c d e f g h i j k l) := m in mk a b c d e (inc f) g h i j k l.
Definition incAntiEntropySync (m : t) : t :=
  let '(mk a b c d e f g h i j k l) := m in mk a b c d e f (inc g) h i j k l.
Definition incAntiEntropyKeysRepaired (m : t) : t :=
  let '(mk a b c d e f g h i j k l) := m in mk a b c d e f g (inc h) i j k l.
Definition incMembershipSync (m : t) : t :=
  let '(mk a b c d e f g h i j k l) := m in mk a b c d e f g h (inc i) j k l.
Definition setRingNodes (n : Z) (m : t) : t :=
  let '(mk a b c d e f g h i j k l) := m in mk a b c d e f g h i n k l.
Definition incPoolConnectionCreated (m : t) : t :=
  let '(mk a b c d e f g h i j k l) := m in mk a b c d e f g h i j (inc k) l.
Definition incPoolConnectionReused (m : t) : t :=
  let '(mk a b c d e f g h i j k l) := m in mk a b c d e f g h i j k (inc l).

Import Metrics.

#[global] Instance in_memory_metrics : Metrics t := {|
  record c :=
    match c with
    | IncRequest op => incRequest op
    | ObserveLatency op => observeLatency op tt
    | IncQuorumSuccess op => incQuorumSuccess op
    | IncQuorumFailure op => incQuorumFailure op
    | IncReadRepair => incReadRepair
    | IncHintStored => incHintStored
    | IncHintDelivered => incHintDelivered
    | IncAntiEntropySync => incAntiEntropySync
    | IncAntiEntropyKeysRepaired => incAntiEntropyKeysRepaired
    | IncMembershipSync => incMembershipSync
    | SetRingNodes n => setRingNodes n
    | IncPoolConnectionCreated => incPoolConnectionCreated
    | IncPoolConnectionReused => incPoolConnectionReused
    end;
  readRepairCount := read_repair_;
  hintStoredCount := hints_stored_;
  hintDeliveredCount := hints_delivered_;
  antiEntropySyncCount := ae_syncs_;
  antiEntropyKeysRepairedCount := ae_keys_repaired_;
  membershipSyncCount := membership_syncs_;
  ringNodesCount := ring_nodes_;
  poolConnectionCreatedCount := pool_created_;
  poolConnectionReusedCount := pool_reused_;
|}.

Lemma inc_u64 n : inc (u64 n) = u64 (n + 1).
Proof. unfold inc, u64. by rewrite Zplus_mod_idemp_l. Qed.

(** The counters after any sequence of calls, at their width. *)
Definition requests_of (f : Op → call) (l : list call) : Z :=
  (count (f Put) l + count (f Get) l + count (f Delete) l)%Z.

Definition summary (l : list call) : t :=
  mk (u64 (requests_of IncRequest l)) (u64 (requests_of IncQuorumSuccess l)) (u64 (requests_of IncQuorumFailure l))
     (u64 (count IncReadRepair l)) (u64 (count IncHintStored l)) (u64 (count IncHintDelivered l))
     (u64 (count IncAntiEntropySync l)) (u64 (count IncAntiEntropyKeysRepaired l))
     (u64 (count IncMembershipSync l)) (last_ring l 0)
     (u64 (count IncPoolConnectionCreated l)) (u64 (count IncPoolConnectionReused l)).

(** The in-memory counters report exactly the calls made, modulo 2^64: each call
    bumps its own counter and no other, and the gauge holds the last value set. *)
Theorem in_memory_counts_calls l : run l zero = summary l.
Proof.
  induction l as [|c l IH] using rev_ind; [done|]. rewrite run_snoc, IH. unfold summary, requests_of.
  rewrite last_ring_snoc.
  destruct c as [[]| |[]|[]| | | | | | | | |]; cbn [record in_memory_metrics];
    rewrite ?count_snoc_same, !count_snoc_other by done; cbn; rewrite ?inc_u64; f_equal; f_equal; lia.
Qed.

End InMemoryMetrics.
