(* ===== verification/Prometheus.v ===== *)
(** * Prometheus metrics (src/metrics_prometheus.h, src/metrics_prometheus.cpp)

    [PrometheusMetrics] over the registry of prometheus-cpp, which is not part of
    the sources: the class [Registry] lists the operations the code calls, and
    [RegistryLaws] what its documentation says of them.  A metric is exposed under
    its family's name and its labels, which identify it; a counter or a gauge holds
    a double, so counting by one is exact below 2^53.  For a histogram [Value] is
    the number of samples a scrape reports.  The exposer's HTTP server is not
    modelled.

    The theorems: every series is registered once and starts at zero, every call
    of the interface reaches its own series and no other, and the exporter reports
    what the in-memory counters report. *)
From Stdlib Require Import String ZArith Lia.
From stdpp Require Import base list gmap strings numbers.
From S2P Require Import Prelude Metrics.

Module PrometheusMetrics.

Import Metrics.

Definition labels := gmap string string.
Definition series_name : Type := string * labels.

Inductive kind := Counter | Gauge | Histogram.

(** Doubles count exactly up to here. *)
Definition exact : Z := 9007199254740992.

(** ** The library *)

Class Registry (R Metric : Type) := {
  make_registry : R;
  Add : kind → string → labels → R → Metric * R;
  Increment : Metric → R → R;
  SetTo : Metric → Z → R → R;
  Observe : Metric → R → R;
  Value : Metric → R → Z;
}.

Class RegistryLaws (R Metric : Type) `{Registry R Metric} := {
  series : Metric → series_name;
  registered : R → list series_name;
  make_registered : registered make_registry = [];
  add_series k n l r : series (Add k n l r).1 = (n, l);
  add_registered k n l r : registered (Add k n l r).2 = (n, l) :: registered r;
  add_new k n l r m : (n, l) ∉ registered r → series m = (n, l) → Value m (Add k n l r).2 = 0%Z;
  add_other k n l r m : series m ≠ (n, l) → Value m (Add k n l r).2 = Value m r;
  increment_same m r : (0 ≤ Value m r < exact)%Z → Value m (Increment m r) = (Value m r + 1)%Z;
  increment_other m m' r : series m ≠ series m' → Value m' (Increment m r) = Value m' r;
  set_same m m' n r : (0 ≤ n ≤ exact)%Z → series m = series m' → Value m' (SetTo m n r) = n;
  set_other m m' n r : series m ≠ series m' → Value m' (SetTo m n r) = Value m' r;
  observe_same m r : (0 ≤ Value m r < exact)%Z → Value m (Observe m r) = (Value m r + 1)%Z;
  observe_other m m' r : series m ≠ series m' → Value m' (Observe m r) = Value m' r;
}.

(** ** The exporter *)

Definition idx (op : Op) : nat := match op with Put => 0 | Get => 1 | Delete => 2 end.

(** [std::array<T *, 3>]. *)
Record array3 (A : Type) := arr3 { at0 : A; at1 : A; at2 : A }.
#[global] Arguments arr3 {A} _ _ _.
#[global] Arguments at0 {A} _.
#[global] Arguments at1 {A} _.
#[global] Arguments at2 {A} _.

Definition at_ {A} (a : array3 A) (i : nat) : A :=
  match i with 0 => at0 a | 1 => at1 a | _ => at2 a end.

Section exporter.
Context {R Metric : Type} `{Registry R Metric}.

Record t := mk {
  registry_ : R;
  requests_ : array3 Metric;
  latency_ : array3 Metric;
  quorum_ok_ : array3 Metric;
  quorum_fail_ : array3 Metric;
  read_repair_ : Metric;
  hints_stored_ : Metric;
  hints_delivered_ : Metric;
  ae_syncs_ : Metric;
  ae_keys_repaired_ : Metric;
  pool_created_ : Metric;
  pool_reused_ : Metric;
  membership_syncs_ : Metric;
  ring_nodes_ : Metric;
  node_up_ : Metric;
}.

Definition op_labels (node : labels) (op : Op) : labels := <["op" := opLabel op]> node.

(** The body of the constructor's loop over the operations. *)
Definition add_op (node : labels) (op : Op) (r : R) : (Metric * Metric * Metric * Metric) * R :=
  let l := op_labels node op in
  let '(req, r) := Add Counter "minidynamo_requests_total" l r in
  let '(lat, r) := Add Histogram "minidynamo_request_latency_seconds" l r in
  let '(ok, r) := Add Counter "minidynamo_quorum_total" (<["outcome" := "success"]> l) r in
  let '(fail, r) := Add Counter "minidynamo_quorum_total" (<["outcome" := "failure"]> l) r in
  ((req, lat, ok, fail), r).

Definition new (node_id : string) : t :=
  let node : labels := {[ "node_id" := node_id ]} in
  let r := make_registry in
  let '((req0, lat0, ok0, fail0), r) := add_op node Put r in
  let '((req1, lat1, ok1, fail1), r) := add_op node Get r in
  let '((req2, lat2, ok2, fail2), r) := add_op node Delete r in
  let '(repair, r) := Add Counter "minidynamo_read_repair_total" node r in
  let '(stored, r) := Add Counter "minidynamo_hints_stored_total" node r in
  let '(delivered, r) := Add Counter "minidynamo_hints_delivered_total" node r in
  let '(syncs, r) := Add Counter "minidynamo_antientropy_syncs_total" node r in
  let '(keys, r) := Add Counter "minidynamo_antientropy_keys_repaired_total" node r in
  let '(created, r) := Add Counter "minidynamo_pool_connections_created_total" node r in
  let '(reused, r) := Add Counter "minidynamo_pool_connections_reused_total" node r in
  let '(msyncs, r) := Add Counter "minidynamo_membership_syncs_total" node r in
  let '(ring, r) := Add Gauge "minidynamo_ring_physical_nodes" node r in
  let '(up, r) := Add Gauge "minidynamo_node_up" node r in
  let r := SetTo up 1 r in
  mk r (arr3 req0 req1 req2) (arr3 lat0 lat1 lat2) (arr3 ok0 ok1 ok2) (arr3 fail0 fail1 fail2)
     repair stored delivered syncs keys created reused msyncs ring up.

(** A call through one of the stored pointers. *)
Definition on_registry (f : R → R) (p : t) : t :=
  let '(mk r a b c d e f1 g h i j k l m n) := p in mk (f r) a b c d e f1 g h i j k l m n.

Definition incRequest (op : Op) (p : t) : t := on_registry (Increment (at_ (requests_ p) (idx op))) p.
Definition observeLatency (op : Op) (p : t) : t := on_registry (Observe (at_ (latency_ p) (idx op))) p.
Definition incQuorumSuccess (op : Op) (p : t) : t := on_registry (Increment (at_ (quorum_ok_ p) (idx op))) p.
Definition incQuorumFailure (op : Op) (p : t) : t := on_registry (Increment (at_ (quorum_fail_ p) (idx op))) p.
Definition incReadRepair (p : t) : t := on_registry (Increment (read_repair_ p)) p.
Definition incHintStored (p : t) : t := on_registry (Increment (hints_stored_ p)) p.
Definition incHintDelivered (p : t) : t := on_registry (Increment (hints_delivered_ p)) p.
Definition incAntiEntropySync (p : t) : t := on_registry (Increment (ae_syncs_ p)) p.
Definition incAntiEntropyKeysRepaired (p : t) : t := on_registry (Increment (ae_keys_repaired_ p)) p.
Definition incPoolConnectionCreated (p : t) : t := on_registry (Increment (pool_created_ p)) p.
Definition incPoolConnectionReused (p : t) : t := on_registry (Increment (pool_reused_ p)) p.
Definition incMembershipSync (p : t) : t := on_registry (Increment (membership_syncs_ p)) p.
Definition setRingNodes (n : Z) (p : t) : t := on_registry (SetTo (ring_nodes_ p) n) p.

(** [static_cast<uint64_t>(m->Value())]. *)
Definition count_of (m : t → Metric) (p : t) : Z := u64 (Value (m p) (registry_ p)).

#[global] Instance prometheus_metrics : Metrics t := {|
  record c :=
    match c with
    | IncRequest op => incRequest op
    | ObserveLatency op => observeLatency op
    | IncQuorumSuccess op => incQuorumSuccess op
    | IncQuorumFailure op => incQuorumFailure op
    | IncReadRepair => incReadRepair
    | IncHintStored => incHintStored
    | IncHintDelivered => incHintDelivered
    | IncAntiEntropySync => incAntiEntropySync
    | IncAntiEntropyKeysRepaired => incAntiEntropyKeysRepaired
    | IncMembershipSync => incMembershipSync
    | SetRingNodes n => setRingNodes n
    | IncPoolConnectionCreated => incPoolConnectionCreated
    | IncPoolConnectionReused => incPoolConnectionReused
    end;
  readRepairCount := count_of read_repair_;
  hintStoredCount := count_of hints_stored_;
  hintDeliveredCount := count_of hints_delivered_;
  antiEntropySyncCount := count_of ae_syncs_;
  antiEntropyKeysRepairedCount := count_of ae_keys_repaired_;
  membershipSyncCount := count_of membership_syncs_;
  ringNodesCount := count_of ring_nodes_;
  poolConnectionCreatedCount := count_of pool_created_;
  poolConnectionReusedCount := count_of pool_reused_;
|}.

(** ** Series *)

(** The metric a call reaches, and the series it is exposed as. *)
Definition target (p : t) (c : call) : Metric :=
  match c with
  | IncRequest op => at_ (requests_ p) (idx op)
  | ObserveLatency op => at_ (latency_ p) (idx op)
  | IncQuorumSuccess op => at_ (quorum_ok_ p) (idx op)
  | IncQuorumFailure op => at_ (quorum_fail_ p) (idx op)
  | IncReadRepair => read_repair_ p
  | IncHintStored => hints_stored_ p
  | IncHintDelivered => hints_delivered_ p
  | IncAntiEntropySync => ae_syncs_ p
  | IncAntiEntropyKeysRepaired => ae_keys_repaired_ p
  | IncMembershipSync => membership_syncs_ p
  | SetRingNodes _ => ring_nodes_ p
  | IncPoolConnectionCreated => pool_created_ p
  | IncPoolConnectionReused => pool_reused_ p
  end.

End exporter.
#[global] Arguments t : clear implicits.

Definition series_of (node_id : string) (c : call) : series_name :=
  let node : labels := {[ "node_id" := node_id ]} in
  match c with
  | IncRequest op => ("minidynamo_requests_total", op_labels node op)
  | ObserveLatency op => ("minidynamo_request_latency_seconds", op_labels node op)
  | IncQuorumSuccess op => ("minidynamo_quorum_total", <["outcome" := "success"]> (op_labels node op))
  | IncQuorumFailure op => ("minidynamo_quorum_total", <["outcome" := "failure"]> (op_labels node op))
  | IncReadRepair => ("minidynamo_read_repair_total", node)
  | IncHintStored => ("minidynamo_hints_stored_total", node)
  | IncHintDelivered => ("minidynamo_hints_delivered_total", node)
  | IncAntiEntropySync => ("minidynamo_antientropy_syncs_total", node)
  | IncAntiEntropyKeysRepaired => ("minidynamo_antientropy_keys_repaired_total", node)
  | IncMembershipSync => ("minidynamo_membership_syncs_total", node)
  | SetRingNodes _ => ("minidynamo_ring_physical_nodes", node)
  | IncPoolConnectionCreated => ("minidynamo_pool_connections_created_total", node)
  | IncPoolConnectionReused => ("minidynamo_pool_connections_reused_total", node)
  end.

(** The gauge is one series, whatever it is set to. *)
Definition slot (c : call) : call := match c with SetRingNodes _ => SetRingNodes 0 | c => c end.

Definition label (k : string) (s : series_name) : option string := s.2 !! k.

Lemma series_inj node_id c d : series_of node_id c = series_of node_id d → slot c = slot d.
Proof.
  intros Hs. pose proof (f_equal fst Hs) as Hn. pose proof (f_equal (label "op") Hs) as Ho.
  pose proof (f_equal (label "outcome") Hs) as Hr. clear Hs.
  destruct c as [[]|[]|[]|[]| | | | | | | | |], d as [[]|[]|[]|[]| | | | | | | | |];
    first [reflexivity | discriminate Hn | discriminate Ho | discriminate Hr].
Qed.

(** What tells two series of a node apart. *)
Definition tag (s : series_name) : string * option string * option string :=
  (s.1, label "op" s, label "outcome" s).

Section laws.
Context {R Metric : Type} `{RegistryLaws R Metric}.
Implicit Types (p : t R Metric) (r : R).

(** ** Construction *)

(** The series in [l] are registered, and read zero. *)
Definition fresh (r : R) (l : list series_name) : Prop :=
  registered r = l ∧ ∀ m, series m ∈ l → Value m r = 0%Z.

Lemma add_fresh k n lb r l :
  fresh r l → (n, lb) ∉ l →
  series (Add k n lb r).1 = (n, lb) ∧ fresh (Add k n lb r).2 ((n, lb) :: l).
Proof.
  intros [Hr Hv] Hn. split; [apply add_series|]. split; [by rewrite add_registered, Hr|].
  intros m [Hm|Hm]%elem_of_cons; [apply add_new; [by rewrite Hr|done]|].
  rewrite add_other; [by apply Hv|]. intros He. by rewrite He in Hm.
Qed.

Lemma tag_fresh (s : series_name) (l : list series_name) : bool_decide (tag s ∈ tag <$> l) = false → s ∉ l.
Proof. intros Ht%bool_decide_eq_false Hs. apply Ht, list_elem_of_fmap. eauto. Qed.

(** One registration of the constructor: what follows may rely on a fresh series. *)
Lemma add_bind {A} (P : A → Prop) k n lb r l (K : Metric → R → A) :
  fresh r l → bool_decide (tag (n, lb) ∈ tag <$> l) = false →
  (∀ m r', series m = (n, lb) → fresh r' ((n, lb) :: l) → P (K m r')) →
  P (let '(m, r') := Add k n lb r in K m r').
Proof.
  intros Hf Hn HK. destruct (add_fresh k n lb r l Hf (tag_fresh _ _ Hn)) as [Hs Hf'].
  destruct (Add k n lb r) as [m r']. by apply HK.
Qed.

Lemma add_op_bind {A} (P : A → Prop) node op r l (K : Metric * Metric * Metric * Metric → R → A) :
  let lo := op_labels node op in
  let s0 := ("minidynamo_requests_total", lo) in
  let s1 := ("minidynamo_request_latency_seconds", lo) in
  let s2 := ("minidynamo_quorum_total", <["outcome" := "success"]> lo) in
  let s3 := ("minidynamo_quorum_total", <["outcome" := "failure"]> lo) in
  fresh r l →
  bool_decide (tag s0 ∈ tag <$> l) || bool_decide (tag s1 ∈ tag <$> s0 :: l)
  || bool_decide (tag s2 ∈ tag <$> s1 :: s0 :: l) || bool_decide (tag s3 ∈ tag <$> s2 :: s1 :: s0 :: l) = false →
  (∀ m0 m1 m2 m3 r', series m0 = s0 → series m1 = s1 → series m2 = s2 → series m3 = s3 →
     fresh r' (s3 :: s2 :: s1 :: s0 :: l) → P (K (m0, m1, m2, m3) r')) →
  P (let '(ms, r') := add_op node op r in K ms r').
Proof.
  intros lo s0 s1 s2 s3 Hf Hn HK. rewrite !orb_false_iff in Hn. destruct Hn as [[[Hn0 Hn1] Hn2] Hn3].
  pose (P' := λ a : (Metric * Metric * Metric * Metric) * R, P (K a.1 a.2)).
  enough (P' (add_op node op r)) as HP by (by unfold P' in HP; destruct (add_op node op r)).
  unfold add_op. apply (add_bind P' _ _ _ _ l); [done..|intros m0 r0 E0 F0].
  apply (add_bind P' _ _ _ _ (s0 :: l)); [done..|intros m1 r1 E1 F1].
  apply (add_bind P' _ _ _ _ (s1 :: s0 :: l)); [done..|intros m2 r2 E2 F2].
  apply (add_bind P' _ _ _ _ (s2 :: s1 :: s0 :: l)); [done..|intros m3 r3 E3 F3].
  by apply HK.
Qed.

Ltac next_add := eapply add_bind; [eassumption | vm_compute; reflexivity | intros ?m ?r ?Es ?Hf].
Ltac next_op := eapply add_op_bind; [eassumption | vm_compute; reflexivity | intros ?m ?m ?m ?m ?r ?Es ?Es ?Es ?Es ?Hf].

Definition starts_ok (node_id : string) (p : t R Metric) : Prop :=
  ∀ c, series (target p c) = series_of node_id c ∧ Value (target p c) (registry_ p) = 0%Z.

Lemma exporter_new_ok node_id : starts_ok node_id (new node_id).
Proof.
  remember (starts_ok node_id) as P eqn:HP. unfold new. assert (fresh make_registry []) as Hf.
  { split; [apply make_registered|]. by intros m ?%elem_of_nil. }
  do 3 next_op. do 10 next_add. subst P. intros c.
  assert (∀ mt up r l, fresh r l → series up = ("minidynamo_node_up", {[ "node_id" := node_id ]}) →
            series mt = series_of node_id c → series_of node_id c ∈ l →
            series mt = series_of node_id c ∧ Value mt (SetTo up 1 r) = 0%Z) as Hup.
  { intros mt up rg l [_ Hv] Hup Hm Hl. split; [done|]. rewrite set_other; [apply Hv; by rewrite Hm|].
    rewrite Hup, Hm. intros E%(f_equal fst). by destruct c. }
  eapply Hup; [eassumption | eassumption | by destruct c as [[]|[]|[]|[]| | | | | | | | |] |].
  destruct c as [[]|[]|[]|[]| | | | | | | | |];
    repeat first [apply list_elem_of_here | apply list_elem_of_further].
Qed.

(** ** Calls *)

Lemma record_handles (c d : call) p : target (record c p) d = target p d.
Proof. by destruct p, c. Qed.

Lemma run_handles l p c : target (run l p) c = target p c.
Proof. induction l as [|d l IH] using rev_ind; [done|]. by rewrite run_snoc, record_handles. Qed.

Lemma record_other c d p :
  series (target p c) ≠ series (target p d) →
  Value (target p d) (registry_ (record c p)) = Value (target p d) (registry_ p).
Proof.
  intros Hne. destruct p; destruct c; cbn in *;
    first [by apply increment_other | by apply observe_other | by apply set_other].
Qed.

Lemma record_bumps c p :
  (∀ n, c ≠ SetRingNodes n) → (0 ≤ Value (target p c) (registry_ p) < exact)%Z →
  Value (target p c) (registry_ (record c p)) = (Value (target p c) (registry_ p) + 1)%Z.
Proof.
  intros Hc Hv. destruct p; destruct c; cbn in *; try by apply increment_same.
  - by apply observe_same.
  - by destruct (Hc n).
Qed.

(** Every value the gauge is set to is one a double holds. *)
Definition exact_gauge (l : list call) : Prop :=
  Forall (λ c, match c with SetRingNodes n => (0 ≤ n ≤ exact)%Z | _ => True end) l.

(** What a series reads after the calls [l]. *)
Definition expected_value (c : call) (l : list call) : Z :=
  match c with SetRingNodes _ => last_ring l 0 | c => count c l end.

Lemma expected_other c d l : slot d ≠ slot c → expected_value c (l ++ [d]) = expected_value c l.
Proof.
  intros Hne. assert (c ≠ d) by (by intros ->). destruct c; cbn [expected_value];
    rewrite ?count_snoc_other, ?last_ring_snoc by done; try done. by destruct d.
Qed.

Lemma expected_same c d l :
  slot d = slot c →
  (∃ n, d = SetRingNodes n ∧ expected_value c (l ++ [d]) = n) ∨
  ((∀ n, d ≠ SetRingNodes n) ∧ c = d ∧ expected_value c (l ++ [d]) = (expected_value c l + 1)%Z).
Proof.
  intros Hs. destruct d; [right..|left|right|right]; destruct c; try done; cbn [expected_value];
    try (injection Hs as ->); rewrite ?count_snoc_same, ?last_ring_snoc; eauto.
Qed.

Lemma expected_bound c l : exact_gauge l → (Z.of_nat (length l) < exact)%Z → (∀ n, c ≠ SetRingNodes n) →
  (0 ≤ expected_value c l < exact)%Z.
Proof. intros _ Hl Hc. pose proof (count_bound c l). destruct c; cbn [expected_value]; try lia. by destruct (Hc n). Qed.

Lemma exports_calls node_id l c :
  (Z.of_nat (length l) ≤ exact)%Z → exact_gauge l →
  let p : t R Metric := run l (new node_id) in
  Value (target p c) (registry_ p) = expected_value c l.
Proof.
  cbv zeta. induction l as [|d l IH] using rev_ind; intros Hl Hg.
  { transitivity 0%Z; [apply (exporter_new_ok node_id c)|by destruct c]. }
  rewrite length_app in Hl. cbn in Hl. apply list.Forall_app in Hg as [Hg Hd]. rewrite list.Forall_singleton in Hd.
  specialize (IH ltac:(lia) Hg). rewrite run_snoc, record_handles.
  assert (∀ e, series (target (run l (new node_id : t R Metric)) e) = series_of node_id e) as Hs
    by (intros e; rewrite run_handles; apply exporter_new_ok).
  set (p := run l (new node_id : t R Metric)) in *. destruct (decide (slot d = slot c)) as [Hslot|Hslot].
  - destruct (expected_same c d l Hslot) as [(n & -> & ->)|(Hn & -> & ->)].
    + assert (series (target p (SetRingNodes n)) = series (target p c)) as He by (rewrite !Hs; by destruct c).
      clearbody p. destruct p. cbn [record prometheus_metrics setRingNodes on_registry registry_].
      apply set_same; [exact Hd|exact He].
    + rewrite record_bumps, IH by (done || rewrite IH; by apply expected_bound; [..|lia|]). done.
  - rewrite record_other, IH, expected_other; [done..|].
    rewrite !Hs. by intros ?%series_inj.
Qed.

Lemma last_ring_bound l k : exact_gauge l → (0 ≤ k ≤ exact)%Z → (0 ≤ last_ring l k ≤ exact)%Z.
Proof.
  intros Hg. revert k. induction Hg as [|d l Hd Hg IH]; intros k Hk; [done|]. destruct d; cbn; by apply IH.
Qed.

Lemma expected_u64 c l : (Z.of_nat (length l) ≤ exact)%Z → exact_gauge l → is_u64 (expected_value c l).
Proof.
  intros Hl Hg. pose proof (last_ring_bound l 0 Hg ltac:(done)). pose proof (count_bound c l).
  unfold exact, is_u64, U64_MAX in *. destruct c; cbn [expected_value]; lia.
Qed.

Lemma summary_report l : (∀ c, is_u64 (expected_value c l)) → report (InMemoryMetrics.summary l) = expected l.
Proof.
  intros Hb. unfold report, expected, InMemoryMetrics.summary. cbn -[u64 count].
  rewrite !u64_id; try done; match goal with |- is_u64 (count ?c _) => apply (Hb c) end.
Qed.

(** C31: The Prometheus exporter implements the metrics interface: after any
    sequence of calls, up to the 2^53 that a double counts exactly, each series is
    exported under its own name and labels with the number of calls made for it
    (the ring gauge with the last value set), and every getter returns what the
    in-memory implementation returns.  No call reaches another call's series. *)
Theorem exporter_refines_counters node_id l :
  (Z.of_nat (length l) ≤ exact)%Z → exact_gauge l →
  let p : t R Metric := run l (new node_id) in
  (∀ c, series (target p c) = series_of node_id c ∧ Value (target p c) (registry_ p) = expected_value c l) ∧
  report p = report (run l InMemoryMetrics.zero) ∧ report p = expected l.
Proof.
  intros Hl Hg p. assert (∀ c, Value (target p c) (registry_ p) = expected_value c l) as Hv
    by (intros c; by apply exports_calls).
  split; [intros c; split; [unfold p; rewrite run_handles; apply exporter_new_ok|apply Hv]|].
  assert (∀ c, is_u64 (expected_value c l)) as Hb by (intros c; by apply expected_u64).
  assert (∀ c, u64 (Value (target p c) (registry_ p)) = expected_value c l) as Hu
    by (intros c; rewrite Hv; by apply u64_id).
  assert (report p = expected l) as Hp.
  { repeat (apply (f_equal2 cons);
      [match goal with |- _ = count ?c _ => exact (Hu c) | _ => exact (Hu (SetRingNodes 0)) end|]). done. }
  split; [|done]. rewrite Hp, InMemoryMetrics.in_memory_counts_calls. symmetry. by apply summary_report.
Qed.

End laws.

(** ** A registry *)

(** Series by name, with the names that were added. *)
Definition table : Type := list series_name * gmap series_name Z.

Definition read_table (m : series_name) (r : table) : Z := default 0%Z (r.2 !! m).
Definition write_table (m : series_name) (n : Z) (r : table) : table := (r.1, <[m := n]> r.2).

#[global] Instance table_registry : Registry table series_name := {|
  make_registry := ([], ∅);
  Add _ n l r := ((n, l), ((n, l) :: r.1, if decide ((n, l) ∈ r.1) then r.2 else <[(n, l) := 0%Z]> r.2));
  Increment m r := write_table m (read_table m r + 1) r;
  SetTo m n r := write_table m n r;
  Observe m r := write_table m (read_table m r + 1) r;
  Value := read_table;
|}.

Lemma read_write_same m n r : read_table m (write_table m n r) = n.
Proof. unfold read_table, write_table. cbn. by rewrite lookup_insert_eq. Qed.

Lemma read_write_other m m' n r : m ≠ m' → read_table m' (write_table m n r) = read_table m' r.
Proof. intros. unfold read_table, write_table. cbn. by rewrite lookup_insert_ne. Qed.

Lemma table_add_new k n l (r : table) m : (n, l) ∉ r.1 → m = (n, l) → Value m (Add k n l r).2 = 0%Z.
Proof. intros Hn ->. cbn. unfold read_table. cbn. rewrite decide_False by done. by rewrite lookup_insert_eq. Qed.

Lemma table_add_other k n l (r : table) m : m ≠ (n, l) → Value m (Add k n l r).2 = Value m r.
Proof.
  intros Hn. cbn. unfold read_table. cbn. destruct (decide _); [done|]. by rewrite lookup_insert_ne.
Qed.

#[global] Instance table_laws : RegistryLaws table series_name.
Proof.
  refine {| series m := m; registered := fst; add_new := table_add_new; add_other := table_add_other |};
    intros; try done; subst; cbn in *; first [apply read_write_same | by apply read_write_other].
Defined.

Definition busy : list call :=
  [IncRequest Put; IncQuorumSuccess Put; SetRingNodes 3; IncRequest Get; IncReadRepair; IncRequest Put;
   IncQuorumFailure Put; IncHintStored; SetRingNodes 2].

Lemma exporter_refines_counters_witness :
  let p : t table series_name := run busy (new "n1") in
  report p = [1; 1; 0; 0; 0; 0; 2; 0; 0]%Z ∧
  read_table ("minidynamo_requests_total", op_labels {[ "node_id" := "n1" ]} Put) (registry_ p) = 2%Z.
Proof.
  intros p.
  destruct (exporter_refines_counters (R := table) "n1" busy ltac:(unfold exact; cbn; lia) ltac:(repeat constructor; done))
    as (Hc & _ & Hr).
  split; [exact Hr|]. destruct (Hc (IncRequest Put)) as [Hs Hv].
  etransitivity; [|exact Hv]. exact (f_equal (λ m, read_table m (registry_ p)) (eq_sym Hs)).
Defined.

End PrometheusMetrics.
