(* ===== verification/Log.v ===== *)
(** * Structured log (src/log.h, src/log.cpp)

    The escaping of [jesc], the two kinds of fields, the line that the stdout
    backend writes ([jlog]), and [init] and [emit] of the spdlog backend with the
    library as a class ([spdlog]).  Keys, outcomes and messages are arbitrary bytes, a
    client chooses them.  [gmtime_r] and [strftime] are the proleptic Gregorian
    calendar.  The reader below reads JSON objects whose members are strings, with
    the escapes and the control-character rule of RFC 8259, on bytes: it does not check
    that they are UTF-8, which the logger does not either.

    The theorems: every event is one line, and reading it gives back exactly the
    fields that were logged, whatever the bytes in them; so no input can forge a
    field, end a line or break the object; the two backends write the same line, up
    to the zone and spdlog's names of the levels.  The timestamp names the
    millisecond it was taken at. *)
From S2P Require Import Prelude.
From Stdlib Require Import Ascii String ZArith Lia.
From stdpp Require Import base list strings numbers.

(** Division and remainder by constants. *)
Ltac zdiv := Z.to_euclidean_division_equations; lia.

Module jlog.

Definition dquote : ascii := "034".
Definition backslash : ascii := "092".
Definition newline : ascii := "010".

Definition str1 (c : ascii) : string := String c EmptyString.
Definition escaped (c : ascii) : string := String backslash (str1 c).

Definition hex_digit (d : Z) : ascii := if (d <? 10)%Z then char_of (48 + d) else char_of (87 + d).

(** [snprintf("\\u%04x", c)]. *)
Definition unicode_escape (b : Z) : string :=
  escaped "u" +:+ str1 (hex_digit (b / 4096 mod 16)) +:+ str1 (hex_digit (b / 256 mod 16))
  +:+ str1 (hex_digit (b / 16 mod 16)) +:+ str1 (hex_digit (b mod 16)).

Definition jesc_char (c : ascii) : string :=
  if Ascii.eqb c dquote then escaped dquote
  else if Ascii.eqb c backslash then escaped backslash
  else if Ascii.eqb c newline then escaped "n"
  else if Ascii.eqb c "013" then escaped "r"
  else if Ascii.eqb c "009" then escaped "t"
  else if (byte_of c <? 32)%Z then unicode_escape (byte_of c)
  else str1 c.

Fixpoint jesc (s : string) : string :=
  match s with
  | EmptyString => EmptyString
  | String c s => jesc_char c +:+ jesc s
  end.

(** A quoted string as it stands, and a member with an escaped value. *)
Definition quoted (s : string) : string := String dquote (s +:+ str1 dquote).
Definition member (name value : string) : string := quoted name +:+ ":" +:+ quoted (jesc value).

Definition opFields (operation key outcome : string) : string :=
  member "operation" operation +:+ "," +:+ member "key" key +:+ "," +:+ member "outcome" outcome.

Definition msgFields (message : string) : string := member "msg" message.

(** ** Time *)

(** [gmtime_r]: the calendar day [z] days after 1970-01-01. *)
Definition civil_from_days (z : Z) : Z * Z * Z :=
  (let z := z + 719468 in
   let era := z / 146097 in
   let doe := z mod 146097 in
   let yoe := (doe - doe / 1460 + doe / 36524 - doe / 146096) / 365 in
   let doy := doe - (365 * yoe + yoe / 4 - yoe / 100) in
   let mp := (5 * doy + 2) / 153 in
   let d := doy - (153 * mp + 2) / 5 + 1 in
   let m := if mp <? 10 then mp + 3 else mp - 9 in
   (yoe + era * 400 + (if m <=? 2 then 1 else 0), m, d))%Z.

(** [%02d], [%03d] and the four-digit year of [%Y]. *)
Definition pad2 (n : Z) : string := str1 (digit_char (n / 10 mod 10)) +:+ str1 (digit_char (n mod 10)).
Definition pad3 (n : Z) : string := str1 (digit_char (n / 100 mod 10)) +:+ pad2 (n mod 100).
Definition pad4 (n : Z) : string := pad2 (n / 100) +:+ pad2 (n mod 100).

(** [nowIso] at [now] milliseconds after the epoch, in the years 1970 to 9999. *)
Definition nowIso (now : Z) : string :=
  (let secs := now / 1000 in
   let ms := now mod 1000 in
   let '(y, m, d) := civil_from_days (secs / 86400) in
   let t := secs mod 86400 in
   pad4 y +:+ "-" +:+ pad2 m +:+ "-" +:+ pad2 d +:+ "T" +:+ pad2 (t / 3600) +:+ ":"
   +:+ pad2 (t / 60 mod 60) +:+ ":" +:+ pad2 (t mod 60) +:+ "." +:+ pad3 ms +:+ "Z")%Z.

(** ** Lines *)

Definition emit (g_node_id : string) (now : Z) (level fields : string) : string :=
  "{" +:+ quoted "ts" +:+ ":" +:+ quoted (nowIso now) +:+ "," +:+ quoted "service" +:+ ":" +:+ quoted "node"
  +:+ "," +:+ quoted "level" +:+ ":" +:+ quoted level +:+ "," +:+ member "node_id" g_node_id
  +:+ "," +:+ fields +:+ "}" +:+ str1 newline.

Definition op (g_node_id : string) (now : Z) (level operation key outcome : string) : string :=
  emit g_node_id now level (opFields operation key outcome).

Definition msg (g_node_id : string) (now : Z) (level message : string) : string :=
  emit g_node_id now level (msgFields message).

(** ** A reader *)

Definition hex_value (c : ascii) : option Z :=
  let b := byte_of c in
  (if is_digit c then Some (b - 48)
   else if (97 <=? b) && (b <=? 102) then Some (b - 87)
   else if (65 <=? b) && (b <=? 70) then Some (b - 55)
   else None)%Z.

(** The character of a [\uXXXX] below 128; others do not occur in the log. *)
Definition code_char (a b c d : ascii) : option ascii :=
  va ← hex_value a; vb ← hex_value b; vc ← hex_value c; vd ← hex_value d;
  let v := (va * 4096 + vb * 256 + vc * 16 + vd)%Z in
  if (v <? 128)%Z then Some (char_of v) else None.

Definition escape_char (c : ascii) : option ascii :=
  if Ascii.eqb c dquote then Some dquote
  else if Ascii.eqb c backslash then Some backslash
  else if Ascii.eqb c "/" then Some "/"%char
  else if Ascii.eqb c "b" then Some "008"%char
  else if Ascii.eqb c "f" then Some "012"%char
  else if Ascii.eqb c "n" then Some "010"%char
  else if Ascii.eqb c "r" then Some "013"%char
  else if Ascii.eqb c "t" then Some "009"%char
  else None.

Definition consed (c : ascii) (r : option (string * string)) : option (string * string) :=
  '(s, rest) ← r; Some (String c s, rest).

(** The rest of a string literal after its opening quote, and what follows. *)
Fixpoint read_literal (s : string) : option (string * string) :=
  match s with
  | EmptyString => None
  | String c s =>
      if Ascii.eqb c dquote then Some (EmptyString, s)
      else if Ascii.eqb c backslash then
        match s with
        | String "u" (String a (String b (String c (String d s)))) =>
            x ← code_char a b c d; consed x (read_literal s)
        | String e s => x ← escape_char e; consed x (read_literal s)
        | EmptyString => None
        end
      else if (byte_of c <? 32)%Z then None
      else consed c (read_literal s)
  end.

Definition read_string (s : string) : option (string * string) :=
  match s with
  | String c s => if Ascii.eqb c dquote then read_literal s else None
  | EmptyString => None
  end.

Definition read_member (s : string) : option (string * string * string) :=
  '(name, s) ← read_string s;
  match s with
  | String ":" s => '(value, s) ← read_string s; Some (name, value, s)
  | _ => None
  end.

Fixpoint read_members (fuel : nat) (s : string) : option (list (string * string) * string) :=
  match fuel with
  | O => None
  | S fuel =>
      '(name, value, s) ← read_member s;
      match s with
      | String "," s => '(l, s) ← read_members fuel s; Some ((name, value) :: l, s)
      | String "}" s => Some ([(name, value)], s)
      | _ => None
      end
  end.

(** One object on one line. *)
Definition read_line (s : string) : option (list (string * string)) :=
  match s with
  | String "{" s =>
      '(l, s) ← read_members (String.length s) s;
      if String.eqb s (str1 newline) then Some l else None
  | _ => None
  end.

(** ** Reading what was escaped *)

Lemma read_jesc_char c t : read_literal (jesc_char c +:+ t) = consed c (read_literal t).
Proof. by destruct c as [[] [] [] [] [] [] [] []]. Qed.

Lemma read_jesc s t : read_literal (jesc s +:+ String dquote t) = Some (s, t).
Proof.
  induction s as [|c s IH]; [done|]. cbn [jesc].
  by rewrite str_app_assoc, read_jesc_char, IH.
Qed.

(** Characters that stand for themselves inside a literal. *)
Definition plain (c : ascii) : bool :=
  negb (Ascii.eqb c dquote) && negb (Ascii.eqb c backslash) && negb (byte_of c <? 32)%Z.

Lemma jesc_plain s : str_all plain s = true → jesc s = s.
Proof.
  induction s as [|c s IH]; [done|]. cbn [str_all jesc]. intros [Hc Hs]%andb_prop. rewrite (IH Hs).
  assert (jesc_char c = str1 c) as -> by (by destruct c as [[] [] [] [] [] [] [] []]). done.
Qed.

Lemma read_quoted s t : read_string (quoted (jesc s) +:+ t) = Some (s, t).
Proof.
  unfold quoted. rewrite str_app_cons. cbn [read_string]. rewrite str_app_assoc. apply read_jesc.
Qed.

Lemma read_member_ok name value t :
  str_all plain name = true → read_member (member name value +:+ t) = Some (name, value, t).
Proof.
  intros Hn. unfold member, read_member. rewrite <- (jesc_plain name Hn) at 1. rewrite !str_app_assoc, read_quoted.
  cbn [mbind option_bind]. rewrite str_app_cons, str_app_empty_l, read_quoted. done.
Qed.

Lemma jesc_char_free c : str_free newline (jesc_char c) = true.
Proof. by destruct c as [[] [] [] [] [] [] [] []]. Qed.

Lemma jesc_free s : str_free newline (jesc s) = true.
Proof. induction s as [|c s IH]; [done|]. cbn [jesc]. by rewrite str_free_app, jesc_char_free. Qed.

Lemma quoted_free s : str_free newline s = true → str_free newline (quoted s) = true.
Proof. intros H. unfold quoted. change (str_free newline (s +:+ str1 dquote) = true). by rewrite str_free_app, H. Qed.

Lemma plain_free s : str_all plain s = true → str_free newline s = true.
Proof. intros H. rewrite <- (jesc_plain s H). apply jesc_free. Qed.

(** ** Objects *)

(** The members of an object, the names standing for themselves. *)
Definition members (l : list (string * string)) : string :=
  str_join "," ((λ p, member p.1 p.2) <$> l).

Definition names_plain (l : list (string * string)) : Prop := Forall (λ p, str_all plain p.1 = true) l.

Lemma members_cons p q l : members (p :: q :: l) = member p.1 p.2 +:+ "," +:+ members (q :: l).
Proof. done. Qed.

Lemma read_members_ok l fuel t :
  names_plain l → l ≠ [] → length l ≤ fuel →
  read_members fuel (members l +:+ String "}" t) = Some (l, t).
Proof.
  revert fuel. induction l as [|[n v] l IH]; [done|]. intros [|fuel] Hp _ Hf; [cbn in Hf; lia|].
  apply list.Forall_cons in Hp as [Hn Hp]. destruct l as [|q l].
  - change (members [(n, v)]) with (member n v). cbn [read_members]. by rewrite read_member_ok.
  - rewrite members_cons. cbn [fst snd]. rewrite !str_app_assoc. cbn [read_members].
    rewrite read_member_ok by done. cbn [mbind option_bind]. rewrite str_app_cons, str_app_empty_l.
    rewrite IH by (done || cbn in *; lia). done.
Qed.

Lemma members_length l : length l ≤ String.length (members l).
Proof.
  induction l as [|p l IH]; [done|]. destruct l as [|q l].
  - change (members [p]) with (member p.1 p.2). unfold member. rewrite !str_length_app. cbn. lia.
  - rewrite members_cons, !str_length_app. cbn [length String.length] in *. lia.
Qed.

Lemma read_object_ok l :
  names_plain l → l ≠ [] → read_line ("{" +:+ members l +:+ "}" +:+ str1 newline) = Some l.
Proof.
  intros Hp Hl. unfold read_line. rewrite !str_app_cons, !str_app_empty_l, read_members_ok; [done..|].
  rewrite str_length_app. pose proof (members_length l). lia.
Qed.

Lemma members_free l : names_plain l → str_free newline (members l) = true.
Proof.
  induction l as [|p l IH]; [done|]. intros [Hn Hp]%list.Forall_cons.
  assert (str_free newline (member p.1 p.2) = true) as Hm.
  { unfold member. rewrite !str_free_app, !quoted_free by auto using plain_free, jesc_free. done. }
  destruct l as [|q l]; [done|]. rewrite members_cons, !str_free_app, Hm, IH by done. done.
Qed.

(** ** The timestamp *)

Lemma pad2_plain n : str_all plain (pad2 n) = true.
Proof.
  unfold pad2. rewrite str_all_app. cbn [str_all str1].
  assert (∀ d, (0 ≤ d < 10)%Z → plain (digit_char d) = true) as Hd.
  { intros d Hd. assert (d ∈ [0;1;2;3;4;5;6;7;8;9]%Z) as H by (rewrite !elem_of_cons; lia).
    repeat (apply elem_of_cons in H as [->|H]; [done|]). by apply elem_of_nil in H. }
  rewrite !Hd by (apply Z.mod_pos_bound; lia). done.
Qed.

Lemma nowIso_plain now : str_all plain (nowIso now) = true.
Proof.
  unfold nowIso. destruct (civil_from_days _) as [[y m] d]. unfold pad4, pad3.
  assert (∀ n, str_all plain (str1 (digit_char (n mod 10))) = true) as H1.
  { intros n. pose proof (pad2_plain n) as H. unfold pad2 in H. rewrite str_all_app in H. by apply andb_prop in H as [_ H]. }
  rewrite !str_all_app, !pad2_plain, !H1. done.
Qed.

(** ** Events *)

Definition header (g_node_id : string) (now : Z) (level : string) : list (string * string) :=
  [("ts", nowIso now); ("service", "node"); ("level", level); ("node_id", g_node_id)].

Lemma emit_members g_node_id now level l :
  str_all plain level = true → l ≠ [] →
  emit g_node_id now level (members l) =
  "{" +:+ members (header g_node_id now level ++ l) +:+ "}" +:+ str1 newline.
Proof.
  intros Hl Hne. destruct l as [|q l]; [done|]. cbn [app header]. rewrite !members_cons. cbn [fst snd].
  unfold emit, member. rewrite (jesc_plain (nowIso now)), (jesc_plain level), (jesc_plain "node") by auto using nowIso_plain.
  by rewrite !str_app_assoc.
Qed.

Lemma emit_reads g_node_id now level l :
  str_all plain level = true → names_plain l → l ≠ [] →
  read_line (emit g_node_id now level (members l)) = Some (header g_node_id now level ++ l) ∧
  ∃ body, emit g_node_id now level (members l) = body +:+ str1 newline ∧ str_free newline body = true.
Proof.
  intros Hl Hp Hne. rewrite emit_members by done.
  assert (names_plain (header g_node_id now level ++ l)) as Hall by (repeat constructor; done).
  split; [by apply read_object_ok|].
  exists ("{" +:+ members (header g_node_id now level ++ l) +:+ "}"). split; [by rewrite !str_app_assoc|].
  rewrite !str_free_app, members_free by done. done.
Qed.

(** C32: A logged operation is one line that reads back as what was logged.
    Whatever bytes the operation, the key and the outcome hold, quotes, line ends
    and control characters included, the line written for them has its only line
    end at its end, and a JSON reader gets the four header members and exactly the
    three fields: a client cannot forge a field or split a line through a key. *)
Theorem logged_operation_reads_back g_node_id now level operation key outcome :
  str_all plain level = true →
  read_line (op g_node_id now level operation key outcome) =
    Some (header g_node_id now level ++ [("operation", operation); ("key", key); ("outcome", outcome)]) ∧
  ∃ body, op g_node_id now level operation key outcome = body +:+ str1 newline ∧ str_free newline body = true.
Proof.
  intros Hl. exact (emit_reads g_node_id now level
    [("operation", operation); ("key", key); ("outcome", outcome)] Hl ltac:(by repeat constructor) ltac:(done)).
Qed.

(** A message likewise. *)
Theorem logged_message_reads_back g_node_id now level message :
  str_all plain level = true →
  read_line (msg g_node_id now level message) = Some (header g_node_id now level ++ [("msg", message)]).
Proof.
  intros Hl. exact (proj1 (emit_reads g_node_id now level [("msg", message)] Hl ltac:(by repeat constructor) ltac:(done))).
Qed.

(** A key that tries to close its field and start another. *)
Definition forging_key : string :=
  "k" +:+ str1 dquote +:+ "," +:+ quoted "outcome" +:+ ":" +:+ str1 dquote +:+ "ok" +:+ str1 newline.

Lemma logged_operation_reads_back_witness :
  read_line (op "n1" 1700000000123 "warn" "put" forging_key "quorum_not_met") =
    Some [("ts", "2023-11-14T22:13:20.123Z"); ("service", "node"); ("level", "warn"); ("node_id", "n1");
          ("operation", "put"); ("key", forging_key); ("outcome", "quorum_not_met")].
Proof.
  destruct (logged_operation_reads_back "n1" 1700000000123 "warn" "put" forging_key "quorum_not_met" eq_refl) as [H _].
  rewrite H. vm_compute. reflexivity.
Defined.

(** ** The calendar *)

(** Days since 1970-01-01 of a calendar day. *)
Definition days_from_civil (y m d : Z) : Z :=
  (let y := if m <=? 2 then y - 1 else y in
   let doy := (153 * (if 2 <? m then m - 3 else m + 9) + 2) / 5 + d - 1 in
   365 * y + y / 4 - y / 100 + y / 400 + doy - 719468)%Z.

(** The year of a day of an era, and the day of that year counted from March. *)
Lemma yoe_ok doe : (0 ≤ doe < 146097 →
  let yoe := (doe - doe / 1460 + doe / 36524 - doe / 146096) / 365 in
  0 ≤ yoe < 400 ∧ 0 ≤ doe - (365 * yoe + yoe / 4 - yoe / 100) ≤ 365)%Z.
Proof. intros H yoe. subst yoe. zdiv. Qed.

Lemma month_ok doy : (0 ≤ doy ≤ 365 →
  let mp := (5 * doy + 2) / 153 in
  let d := doy - (153 * mp + 2) / 5 + 1 in
  0 ≤ mp ≤ 11 ∧ 1 ≤ d ≤ 31)%Z.
Proof. intros H mp d. subst mp d. zdiv. Qed.

Lemma era_ok doe : (0 ≤ doe < 146097)%Z →
  let '(y, m, d) := civil_from_days (doe - 719468) in
  days_from_civil y m d = (doe - 719468)%Z ∧ (1 ≤ m ≤ 12)%Z ∧ (1 ≤ d ≤ 31)%Z.
Proof.
  intros H. unfold civil_from_days. cbv zeta. rewrite Z.sub_add, (Z.mod_small doe 146097), (Z.div_small doe 146097) by lia.
  destruct (yoe_ok doe H) as [Hy Hdoy]. set (yoe := (_ / 365)%Z) in *. set (doy := (doe - (_ - _))%Z) in *.
  destruct (month_ok doy Hdoy) as [Hmp Hd]. set (mp := ((5 * doy + 2) / 153)%Z) in *.
  set (m := (if (mp <? 10)%Z then (mp + 3)%Z else (mp - 9)%Z)).
  assert (1 ≤ m ≤ 12)%Z as Hm by (subst m; destruct (Z.ltb_spec mp 10); lia).
  split; [|lia]. unfold days_from_civil. cbv zeta.
  replace (if 2 <? m then m - 3 else m + 9)%Z with mp
    by (subst m; destruct (Z.ltb_spec mp 10), (Z.ltb_spec 2 (mp + 3)), (Z.ltb_spec 2 (mp - 9)); lia).
  set (y := (if (m <=? 2)%Z then _ else _)).
  assert (y = yoe) as -> by (subst y; destruct (m <=? 2)%Z; lia).
  rewrite (Z.div_small yoe 400) by lia. subst doy. lia.
Qed.

(** The calendar repeats every 400 years. *)
Lemma civil_period z k :
  civil_from_days (z + 146097 * k) =
  (let '(y, m, d) := civil_from_days z in (y + 400 * k, m, d))%Z.
Proof.
  unfold civil_from_days. replace (z + 146097 * k + 719468)%Z with (z + 719468 + k * 146097)%Z by lia.
  rewrite Z.mod_add, Z.div_add by lia. f_equal. f_equal. lia.
Qed.

Lemma days_period y m d k : days_from_civil (y + 400 * k) m d = (days_from_civil y m d + 146097 * k)%Z.
Proof.
  unfold days_from_civil. cbv zeta.
  replace (if m <=? 2 then y + 400 * k - 1 else y + 400 * k)%Z
    with ((if m <=? 2 then y - 1 else y) + 400 * k)%Z by (destruct (_ <=? _)%Z; lia).
  set (y' := (if (m <=? 2)%Z then (y - 1)%Z else y)). set (doy := ((_ + 2) / 5 + d - 1)%Z).
  assert ((y' + 400 * k) / 4 = y' / 4 + 100 * k)%Z as -> by (rewrite <- Z.div_add by lia; f_equal; lia).
  assert ((y' + 400 * k) / 100 = y' / 100 + 4 * k)%Z as -> by (rewrite <- Z.div_add by lia; f_equal; lia).
  assert ((y' + 400 * k) / 400 = y' / 400 + k)%Z as -> by (rewrite <- Z.div_add by lia; f_equal; lia).
  lia.
Qed.

Lemma civil_days z :
  let '(y, m, d) := civil_from_days z in
  days_from_civil y m d = z ∧ (1 ≤ m ≤ 12)%Z ∧ (1 ≤ d ≤ 31)%Z.
Proof.
  set (k := ((z + 719468) / 146097)%Z). set (doe := ((z + 719468) mod 146097)%Z).
  assert (0 ≤ doe < 146097)%Z as Hdoe by (apply Z.mod_pos_bound; lia).
  assert (z = doe - 719468 + 146097 * k)%Z as Hz by (subst k doe; pose proof (Z.div_mod (z + 719468) 146097); lia).
  clearbody k doe. subst z. rewrite civil_period. pose proof (era_ok doe Hdoe) as H.
  destruct (civil_from_days (doe - 719468)) as [[y m] d]. rewrite days_period. lia.
Qed.

(** The moment a timestamp names. *)
Definition read_iso (s : string) : Z :=
  (let num a n := dec_value (substr s a n) 0 in
   (days_from_civil (num 0%nat 4%nat) (num 5%nat 2%nat) (num 8%nat 2%nat) * 86400
    + num 11%nat 2%nat * 3600 + num 14%nat 2%nat * 60 + num 17%nat 2%nat) * 1000 + num 20%nat 3%nat)%Z.

Lemma pad2_value n acc : (0 ≤ n < 100)%Z → dec_value (pad2 n) acc = (100 * acc + n)%Z.
Proof.
  intros H. unfold pad2, str1. rewrite ?str_app_cons, ?str_app_empty_l. cbn [dec_value].
  rewrite !(proj2 (digit_char_ok _ ltac:(apply Z.mod_pos_bound; lia))). zdiv.
Qed.

Lemma pad3_value n : (0 ≤ n < 1000)%Z → dec_value (pad3 n) 0 = n.
Proof.
  intros H. unfold pad3. rewrite dec_value_app, pad2_value by zdiv. unfold str1. cbn [dec_value].
  rewrite (proj2 (digit_char_ok _ ltac:(apply Z.mod_pos_bound; lia))). zdiv.
Qed.

Lemma pad4_value n : (0 ≤ n < 10000)%Z → dec_value (pad4 n) 0 = n.
Proof. intros H. unfold pad4. rewrite dec_value_app, !pad2_value by zdiv. zdiv. Qed.

(** A timestamp names the millisecond it was taken at, until the end of the year
    9999; so two events of different milliseconds have different timestamps. *)
Theorem timestamp_names_the_moment now :
  (0 ≤ now < 253402300800000)%Z → read_iso (nowIso now) = now.
Proof.
  intros Hnow. unfold read_iso, nowIso. pose proof (civil_days (now / 1000 / 86400)) as Hc.
  destruct (civil_from_days _) as [[y m] d]. destruct Hc as (Hd & Hm & Hdd).
  assert (0 ≤ y < 10000)%Z as Hy.
  { unfold days_from_civil in Hd. destruct (m <=? 2)%Z eqn:E1, (2 <? m)%Z eqn:E2; zdiv. }
  set (t := ((now / 1000) mod 86400)%Z). assert (0 ≤ t < 86400)%Z as Ht by (apply Z.mod_pos_bound; lia).
  change (substr _ 0 4) with (pad4 y). change (substr _ 5 2) with (pad2 m). change (substr _ 8 2) with (pad2 d).
  change (substr _ 11 2) with (pad2 (t / 3600)). change (substr _ 14 2) with (pad2 (t / 60 mod 60)).
  change (substr _ 17 2) with (pad2 (t mod 60)). change (substr _ 20 3) with (pad3 (now mod 1000)).
  rewrite pad4_value, pad3_value, !pad2_value by (subst t; zdiv). rewrite !Z.mul_0_r, !Z.add_0_l, Hd. subst t. clear Hd. zdiv.
Qed.

End jlog.

(** * The spdlog backend

    spdlog is a parameter: what it prints of an event under a pattern, by the
    documentation of its flags.  A character that is not part of a flag stands for
    itself; [%Y] to [%S] are the fields of local time, [%e] the milliseconds, [%l]
    the library's name of the level, [%v] the message; a line ends the event. *)
Module spdlog.
Import jlog.

Inductive level := info | warn | err.

Definition level_name (l : level) : string :=
  match l with info => "info" | warn => "warning" | err => "error" end.

(** Moments in milliseconds after the epoch; the zone's offset at a moment. *)
Definition year (t : Z) : Z := (civil_from_days (t / 1000 / 86400)).1.1.
Definition month (t : Z) : Z := (civil_from_days (t / 1000 / 86400)).1.2.
Definition day (t : Z) : Z := (civil_from_days (t / 1000 / 86400)).2.
Definition hour (t : Z) : Z := ((t / 1000) mod 86400 / 3600)%Z.
Definition minute (t : Z) : Z := ((t / 1000) mod 86400 / 60 mod 60)%Z.
Definition second (t : Z) : Z := ((t / 1000) mod 86400 mod 60)%Z.

Class Spdlog := {
  zone : Z → Z;
  print : string → Z → level → string → string;
}.

Definition local `{Spdlog} (now : Z) : Z := (now + zone now)%Z.

Class SpdlogLaws `{Spdlog} : Prop := {
  print_end now l v : print "" now l v = str1 newline;
  print_char c p now l v : c ≠ "%"%char → print (String c p) now l v = String c (print p now l v);
  print_Y p now l v : print ("%Y" +:+ p) now l v = pad4 (year (local now)) +:+ print p now l v;
  print_m p now l v : print ("%m" +:+ p) now l v = pad2 (month (local now)) +:+ print p now l v;
  print_d p now l v : print ("%d" +:+ p) now l v = pad2 (day (local now)) +:+ print p now l v;
  print_H p now l v : print ("%H" +:+ p) now l v = pad2 (hour (local now)) +:+ print p now l v;
  print_M p now l v : print ("%M" +:+ p) now l v = pad2 (minute (local now)) +:+ print p now l v;
  print_S p now l v : print ("%S" +:+ p) now l v = pad2 (second (local now)) +:+ print p now l v;
  print_e p now l v : print ("%e" +:+ p) now l v = pad3 (now mod 1000) +:+ print p now l v;
  print_l p now l v : print ("%l" +:+ p) now l v = level_name l +:+ print p now l v;
  print_v p now l v : print ("%v" +:+ p) now l v = v +:+ print p now l v;
}.

(** The globals: the id and, once made, the logger with its pattern. *)
Record State := mkState { g_node_id : string; g_logger : option string }.

Definition initial : State := mkState "unknown" None.

Definition pattern (node_id : string) : string :=
  "{" +:+ quoted "ts" +:+ ":" +:+ quoted "%Y-%m-%dT%H:%M:%S.%eZ" +:+ "," +:+ quoted "service" +:+ ":" +:+ quoted "node"
  +:+ "," +:+ quoted "level" +:+ ":" +:+ quoted "%l" +:+ "," +:+ member "node_id" node_id +:+ "," +:+ "%v}".

(** A logger of the same name a second time makes [stdout_logger_mt] throw. *)
Definition init (node_id : string) (st : State) : option State :=
  match g_logger st with
  | Some _ => None
  | None => Some (mkState node_id (Some (pattern node_id)))
  end.

Definition severity (l : string) : level :=
  if String.eqb l "error" then err else if String.eqb l "warn" then warn else info.

(** What an event puts on stdout; before [init] nothing. *)
Definition emit `{Spdlog} (st : State) (now : Z) (l fields : string) : string :=
  match g_logger st with
  | None => ""
  | Some p => print p now (severity l) fields
  end.

Section backend.
Context `{Hlaws : SpdlogLaws}.

Lemma print_plain s p now l v : str_free "%" s = true → print (s +:+ p) now l v = s +:+ print p now l v.
Proof.
  induction s as [|c s IH]; [done|]. intros Hs. apply str_free_cons in Hs as [Hc Hs].
  rewrite !str_app_cons, print_char, IH by done. done.
Qed.

Lemma jesc_percent s : str_free "%" s = true → str_free "%" (jesc s) = true.
Proof.
  induction s as [|c s IH]; [done|]. intros Hs. apply str_free_cons in Hs as [Hc Hs]. cbn [jesc].
  rewrite str_free_app, IH by done. rewrite andb_true_r. clear -Hc. destruct c as [[] [] [] [] [] [] [] []]; done.
Qed.

Lemma nowIso_fields t :
  nowIso t = pad4 (year t) +:+ "-" +:+ pad2 (month t) +:+ "-" +:+ pad2 (day t) +:+ "T" +:+ pad2 (hour t) +:+ ":"
    +:+ pad2 (minute t) +:+ ":" +:+ pad2 (second t) +:+ "." +:+ pad3 (t mod 1000) +:+ "Z".
Proof. unfold nowIso, year, month, day. by destruct (civil_from_days _) as [[y m] d]. Qed.

Lemma print_ts p now l v :
  (zone now mod 1000 = 0)%Z → print ("%Y-%m-%dT%H:%M:%S.%eZ" +:+ p) now l v = nowIso (local now) +:+ print p now l v.
Proof.
  intros Hz. assert ((local now) mod 1000 = now mod 1000)%Z as Hms by (unfold local; zdiv).
  change ("%Y-%m-%dT%H:%M:%S.%eZ" +:+ p) with
    ("%Y" +:+ "-" +:+ "%m" +:+ "-" +:+ "%d" +:+ "T" +:+ "%H" +:+ ":" +:+ "%M" +:+ ":" +:+ "%S" +:+ "." +:+ "%e" +:+ "Z" +:+ p).
  rewrite nowIso_fields, Hms.
  rewrite print_Y, print_plain, print_m, print_plain, print_d, print_plain, print_H, print_plain, print_M, print_plain,
    print_S, print_plain, print_e, print_plain by done.
  by rewrite !str_app_assoc.
Qed.

(** The pattern and the fallback's line, in the same pieces. *)
Definition lead : string := "{" +:+ quoted "ts" +:+ ":" +:+ str1 dquote.
Definition service : string := str1 dquote +:+ "," +:+ quoted "service" +:+ ":" +:+ quoted "node" +:+ ","
  +:+ quoted "level" +:+ ":" +:+ str1 dquote.
Definition ident : string := str1 dquote +:+ "," +:+ quoted "node_id" +:+ ":" +:+ str1 dquote.

Ltac str_assoc := repeat first [rewrite str_app_assoc|rewrite str_app_cons|rewrite str_app_empty_l].

Lemma pattern_pieces node_id :
  pattern node_id = lead +:+ "%Y-%m-%dT%H:%M:%S.%eZ" +:+ service +:+ "%l" +:+ ident +:+ jesc node_id
    +:+ (str1 dquote +:+ ",") +:+ "%v" +:+ "}" +:+ "".
Proof. unfold pattern, lead, service, ident, member, quoted, str1. str_assoc. reflexivity. Qed.

Lemma jlog_emit_pieces node_id now l fields :
  jlog.emit node_id now l fields = lead +:+ nowIso now +:+ service +:+ l +:+ ident +:+ jesc node_id
    +:+ (str1 dquote +:+ ",") +:+ fields +:+ "}" +:+ str1 newline.
Proof. unfold jlog.emit, lead, service, ident, member, quoted, str1. str_assoc. reflexivity. Qed.

(** C33: The two backends write the same line.  Under a node id without a percent
    sign, which every valid id is, the event that spdlog prints is, byte for byte,
    the one that the fallback writes, at the time of the local zone and under
    spdlog's name of the level; so in UTC, and for the levels info and error, the
    two are identical, and what is shown of the fallback's lines holds of both. *)
Theorem backends_agree node_id :
  str_free "%" node_id = true →
  ∃ st, init node_id initial = Some st ∧
    ∀ now l fields, (zone now mod 1000 = 0)%Z →
      emit st now l fields = jlog.emit node_id (local now) (level_name (severity l)) fields.
Proof using Hlaws.
  intros Hid. eexists. split; [reflexivity|]. intros now l fields Hz. unfold emit. cbn [g_logger].
  rewrite pattern_pieces, jlog_emit_pieces, print_plain, print_ts, print_plain, print_l, print_plain by done.
  rewrite print_plain by (by apply jesc_percent). rewrite print_plain, print_v, print_plain, print_end by done. done.
Qed.

End backend.

(** ** spdlog, concretely *)

Module SpdlogExample.

(** The flags that the pattern uses; any other is printed as it stands. *)
Definition flag (c : ascii) (now t : Z) (l : level) (v : string) : string :=
  if Ascii.eqb c "Y" then pad4 (year t) else if Ascii.eqb c "m" then pad2 (month t)
  else if Ascii.eqb c "d" then pad2 (day t) else if Ascii.eqb c "H" then pad2 (hour t)
  else if Ascii.eqb c "M" then pad2 (minute t) else if Ascii.eqb c "S" then pad2 (second t)
  else if Ascii.eqb c "e" then pad3 (now mod 1000) else if Ascii.eqb c "l" then level_name l
  else if Ascii.eqb c "v" then v else String "%" (str1 c).

Fixpoint prints (z : Z) (p : string) (now : Z) (l : level) (v : string) : string :=
  match p with
  | EmptyString => str1 newline
  | String c p' =>
      if Ascii.eqb c "%" then
        match p' with
        | EmptyString => String c (str1 newline)
        | String d q => flag d now (now + z) l v +:+ prints z q now l v
        end
      else String c (prints z p' now l v)
  end.

Definition in_zone (z : Z) : Spdlog := {| zone := λ _, z; print := prints z |}.

Lemma in_zone_laws z : @SpdlogLaws (in_zone z).
Proof.
  split; try reflexivity. intros c p now l v Hc. cbn. destruct (Ascii.eqb_spec c "%"); done.
Qed.

Lemma backends_agree_witness :
  ∃ st, init "n1" initial = Some st ∧
    @emit (in_zone 0) st 1700000000123 "info" (opFields "put" "k{}" "ok") = op "n1" 1700000000123 "info" "put" "k{}" "ok".
Proof.
  destruct (@backends_agree (in_zone 0) (in_zone_laws 0) "n1" eq_refl) as (st & Hst & H). exists st. split; [exact Hst|].
  exact (H 1700000000123%Z "info" _ eq_refl).
Defined.

(** But a warning is spelt differently, a zone other than UTC shows under the same
    [Z], an event before [init] is lost, and a percent sign in the id, which is
    given to [init] before it is validated, is read as a flag. *)
Theorem backends_differ :
  (∃ st, init "n1" initial = Some st ∧
     @emit (in_zone 0) st 0 "warn" (msgFields "m") ≠ msg "n1" 0 "warn" "m" ∧
     @emit (in_zone 3600000) st 0 "info" (msgFields "m") ≠ msg "n1" 0 "info" "m") ∧
  @emit (in_zone 0) initial 0 "info" (msgFields "m") ≠ msg "unknown" 0 "info" "m" ∧
  (∃ st, init "n%l" initial = Some st ∧
     @emit (in_zone 0) st 0 "error" (msgFields "m") = msg "nerror" 0 "error" "m").
Proof.
  split; [|split; [vm_compute; discriminate|]]; eexists; (split; [reflexivity|]); [|vm_compute; reflexivity].
  split; vm_compute; discriminate.
Qed.

End SpdlogExample.

End spdlog.
