(* ===== verification/Hints.v ===== *)
(** * Hinted handoff (src/hints/hint_store.cpp, src/hints/handoff_thread.cpp)

    [HintStore] keeps, per unreachable target, the writes accepted on its
    behalf, in order of arrival, at most [max_per_target_] each, and forgets
    them after [ttl_].  [HandoffThread] drains a target's hints when it comes
    back and re-stores those whose delivery fails.  The steady clock is an
    argument; the delivery callback is a function of the state of the network
    it runs in.

    The theorems: the store never exceeds its cap and files every hint under
    its target; handoff neither loses nor duplicates a hint; expiry removes
    exactly the hints older than the TTL. *)
From S2P Require Import Prelude Clock Value Ring.
From Stdlib Require Import String ZArith Lia.
From stdpp Require Import base gmap list strings numbers.

Local Open Scope Z_scope.

Record Hint := mkHint {
  target_node_id : string;
  hint_key : string;
  hint_value : VersionedValue;
  created_at : Z;
}.

#[global] Instance Hint_eq_dec : EqDecision Hint.
Proof. solve_decision. Defined.

(** ** The store *)

Module HintStore.

Record HintStore := mkStore {
  ttl_ : Z;
  max_per_target_ : nat;
  hints_ : gmap string (list Hint);
}.

Definition new (ttl : Z) (max_hints_per_target : nat) : HintStore :=
  mkStore ttl max_hints_per_target ∅.

(** The hints filed under a target; [hints_[target]] default-constructs. *)
Definition hints_of (target : string) (s : HintStore) : list Hint := default [] (hints_ s !! target).

Definition with_hints (h : gmap string (list Hint)) (s : HintStore) : HintStore :=
  mkStore (ttl_ s) (max_per_target_ s) h.

Definition store (now : Z) (target key : string) (value : VersionedValue) (s : HintStore)
  : HintStore :=
  let list := hints_of target s in
  if bool_decide (max_per_target_ s ≤ length list)%nat
  then with_hints (<[target := list]> (hints_ s)) s
  else with_hints (<[target := list ++ [mkHint target key value now]]> (hints_ s)) s.

Definition drain (target : string) (s : HintStore) : list Hint * HintStore :=
  match hints_ s !! target with
  | None => ([], s)
  | Some out => (out, with_hints (delete target (hints_ s)) s)
  end.

Definition dropTarget (target : string) (s : HintStore) : nat * HintStore :=
  match hints_ s !! target with
  | None => (O, s)
  | Some l => (length l, with_hints (delete target (hints_ s)) s)
  end.

Definition fresh (now ttl : Z) (h : Hint) : Prop := ¬ (ttl < now - created_at h).

#[global] Instance fresh_dec now ttl h : Decision (fresh now ttl h).
Proof. unfold fresh. apply _. Defined.

(** [remove_if] on every list, dropping the lists left empty. *)
Definition expireOld (now : Z) (s : HintStore) : HintStore :=
  with_hints
    (omap (λ l, match filter (fresh now (ttl_ s)) l with [] => None | l' => Some l' end) (hints_ s)) s.

Definition hintCount (s : HintStore) : nat :=
  foldl (λ total kv, (total + length kv.2)%nat) O (map_to_list (hints_ s)).

Definition hintCountFor (target : string) (s : HintStore) : nat :=
  match hints_ s !! target with None => O | Some l => length l end.

(** ** Invariant *)

Definition filed (max : nat) (target : string) (l : list Hint) : Prop :=
  (length l ≤ max)%nat ∧ Forall (λ h, target_node_id h = target) l.

Definition store_ok (s : HintStore) : Prop := map_Forall (filed (max_per_target_ s)) (hints_ s).

Lemma filed_hints_of s t : store_ok s → filed (max_per_target_ s) t (hints_of t s).
Proof.
  intros Hok. unfold hints_of. destruct (hints_ s !! t) as [l|] eqn:E; [by apply (Hok t)|].
  split; cbn; [lia|constructor].
Qed.

Lemma hints_of_store now t k v s t' :
  hints_of t' (store now t k v s) =
  if decide (t = t') then
    (if decide (max_per_target_ s ≤ length (hints_of t s))%nat then hints_of t s
     else hints_of t s ++ [mkHint t k v now])
  else hints_of t' s.
Proof.
  unfold store. case_bool_decide; unfold hints_of, with_hints; cbn; rewrite lookup_insert;
    repeat case_decide; done.
Qed.

Lemma hints_of_drain t s t' :
  hints_of t' (drain t s).2 = if decide (t = t') then [] else hints_of t' s.
Proof.
  unfold drain, hints_of. destruct (hints_ s !! t) as [l|] eqn:E; cbn.
  - rewrite lookup_delete. by case_decide.
  - case_decide; [|done]. subst. by rewrite E.
Qed.

Lemma drain_out t s : (drain t s).1 = hints_of t s.
Proof. unfold drain, hints_of. by destruct (hints_ s !! t). Qed.

Lemma hints_of_expire now s t : hints_of t (expireOld now s) = filter (fresh now (ttl_ s)) (hints_of t s).
Proof.
  unfold expireOld, hints_of, with_hints. cbn. rewrite lookup_omap.
  destruct (hints_ s !! t) as [l|]; cbn; [|done].
  by destruct (filter (fresh now (ttl_ s)) l).
Qed.

Lemma store_cap now t k v s : max_per_target_ (store now t k v s) = max_per_target_ s.
Proof. unfold store. by case_bool_decide. Qed.

Lemma store_ok_new ttl max : store_ok (new ttl max).
Proof. apply map_Forall_empty. Qed.

Lemma store_ok_store now t k v s : store_ok s → store_ok (store now t k v s).
Proof.
  intros Hok. destruct (filed_hints_of s t Hok) as [Hlen Hall]. unfold store.
  case_bool_decide; apply map_Forall_insert_2; try done.
  cbn. split; [rewrite length_app; cbn; lia|]. apply Forall_app. split; [done|]. by constructor.
Qed.

Lemma store_ok_drain t s : store_ok s → store_ok (drain t s).2.
Proof.
  intros Hok. unfold drain. destruct (hints_ s !! t); [|done]. cbn. by apply map_Forall_delete.
Qed.

Lemma store_ok_dropTarget t s : store_ok s → store_ok (dropTarget t s).2.
Proof.
  intros Hok. unfold dropTarget. destruct (hints_ s !! t); [|done]. cbn. by apply map_Forall_delete.
Qed.

Lemma store_ok_expire now s : store_ok s → store_ok (expireOld now s).
Proof.
  intros Hok t l. cbn. rewrite lookup_omap. destruct (hints_ s !! t) as [l0|] eqn:E; cbn; [|done].
  destruct (Hok t l0 E) as [Hlen Hall].
  pose proof (length_filter (fresh now (ttl_ s)) l0) as Hf.
  destruct (filter (fresh now (ttl_ s)) l0) eqn:Ef; [done|]. intros [= <-].
  split; [lia|]. rewrite <- Ef. by apply Forall_filter_keep.
Qed.

#[export] Hint Resolve store_ok_new store_ok_store store_ok_drain store_ok_dropTarget
  store_ok_expire : dynamo.

(** ** Reachable stores *)

Inductive step : HintStore → HintStore → Prop :=
| step_store now t k v s : step s (store now t k v s)
| step_drain t s : step s (drain t s).2
| step_drop t s : step s (dropTarget t s).2
| step_expire now s : step s (expireOld now s).

Lemma store_ok_step s s' : step s s' → store_ok s → store_ok s'.
Proof. intros []; auto with dynamo. Qed.

Lemma step_cap s s' : step s s' → max_per_target_ s' = max_per_target_ s.
Proof.
  intros []; [apply store_cap|..|done]; unfold drain, dropTarget; by case_match.
Qed.

(** In every reachable store a target has at most [max_per_target] hints,
    all of them filed under their own target. *)
Theorem hint_store_bounded ttl max s t :
  rtc step (new ttl max) s →
  (hintCountFor t s ≤ max)%nat ∧ Forall (λ h, target_node_id h = t) (hints_of t s).
Proof.
  intros Hr.
  assert (store_ok s ∧ max_per_target_ s = max) as [Hok <-].
  { eapply (rtc_ind_r (λ s, store_ok s ∧ max_per_target_ s = max)); [by auto with dynamo| |exact Hr].
    intros y z _ Hyz [Hy Hc]. split; [by eapply store_ok_step|]. by rewrite (step_cap _ _ Hyz). }
  destruct (filed_hints_of s t Hok) as [Hlen Hall]. split; [|done].
  unfold hintCountFor, hints_of in *. by destruct (hints_ s !! t); cbn in *.
Qed.

Lemma hint_store_bounded_witness :
  let s := store 5 "n2" "k" (mkVV "v" ∅ false) (new 10 1) in
  (hintCountFor "n2" (store 6 "n2" "k" (mkVV "w" ∅ false) s) ≤ 1)%nat.
Proof.
  apply (hint_store_bounded 10 1). eapply rtc_l; [apply step_store|].
  eapply rtc_l; [apply step_store|]. apply rtc_refl.
Defined.

End HintStore.

(** ** The handoff thread *)

Module HandoffThread.
Import HintStore.

Section HandoffThread.
(** The world the thread runs in: what [deliver_fn_] does to it and answers,
    and the steady clock it shows. *)
Context {Net : Type} (deliver_fn : NodeInfo → string → VersionedValue → Net → bool * Net)
        (clock_now : Net → Z).

Record HandoffThread := mkThread {
  store_ : HintStore;
  recovery_queue_ : list NodeInfo;
  delivered_ : Z;
  running_ : bool;
}.

(** [start] launches a thread only if none runs. *)
Definition start (t : HandoffThread) : HandoffThread * bool :=
  (mkThread (store_ t) (recovery_queue_ t) (delivered_ t) true, negb (running_ t)).

Definition stop (t : HandoffThread) : HandoffThread :=
  mkThread (store_ t) (recovery_queue_ t) (delivered_ t) false.

Definition notifyRecovery (recovered : NodeInfo) (t : HandoffThread) : HandoffThread :=
  mkThread (store_ t) (recovery_queue_ t ++ [recovered]) (delivered_ t) (running_ t).

(** One iteration of the loop of [deliverFor]. *)
Definition deliver_one (target : NodeInfo) (acc : HandoffThread * Net) (hint : Hint)
  : HandoffThread * Net :=
  let '(t, net) := acc in
  let '(ok, net') := deliver_fn target (hint_key hint) (hint_value hint) net in
  if ok then (mkThread (store_ t) (recovery_queue_ t) (u64 (delivered_ t + 1)) (running_ t), net')
  else (mkThread (store (clock_now net') (node_id target) (hint_key hint) (hint_value hint) (store_ t))
          (recovery_queue_ t) (delivered_ t) (running_ t), net').

Definition deliverFor (target : NodeInfo) (acc : HandoffThread * Net) : HandoffThread * Net :=
  let '(t, net) := acc in
  let '(hints, s) := drain (node_id target) (store_ t) in
  foldl (deliver_one target) (mkThread s (recovery_queue_ t) (delivered_ t) (running_ t), net) hints.

(** One turn of [run]: swap the queue out, deliver, expire. *)
Definition run_once (acc : HandoffThread * Net) : HandoffThread * Net :=
  let '(t, net) := acc in
  let targets := recovery_queue_ t in
  let '(t', net') :=
    foldl (λ acc target, deliverFor target acc)
          (mkThread (store_ t) [] (delivered_ t) (running_ t), net) targets in
  (mkThread (expireOld (clock_now net') (store_ t')) (recovery_queue_ t') (delivered_ t')
     (running_ t'), net').

(** The answers the deliveries of a list of hints get, in order. *)
Fixpoint answers (target : NodeInfo) (hints : list Hint) (net : Net) : list (Hint * bool) :=
  match hints with
  | [] => []
  | h :: hints' =>
      let '(ok, net') := deliver_fn target (hint_key h) (hint_value h) net in
      (h, ok) :: answers target hints' net'
  end.

(** What a hint is a promise of. *)
Definition write_of (h : Hint) : string * VersionedValue := (hint_key h, hint_value h).

Definition failed (l : list (Hint * bool)) : list Hint := (filter (λ p, p.2 = false) l).*1.
Definition acked (l : list (Hint * bool)) : list Hint := (filter (λ p, p.2 = true) l).*1.

Lemma deliver_loop target hints t net :
  (length (hints_of (node_id target) (store_ t)) + length hints ≤ max_per_target_ (store_ t))%nat →
  is_u64 (delivered_ t) →
  let t' := (foldl (deliver_one target) (t, net) hints).1 in
  let log := answers target hints net in
  write_of <$> hints_of (node_id target) (store_ t') =
    (write_of <$> hints_of (node_id target) (store_ t)) ++ (write_of <$> failed log) ∧
  delivered_ t' = u64 (delivered_ t + Z.of_nat (length (acked log))) ∧
  (∀ id, id ≠ node_id target → hints_of id (store_ t') = hints_of id (store_ t)).
Proof.
  revert t net. induction hints as [|h hints IH]; intros t net Hcap Hd; cbn zeta; cbn [foldl answers].
  { cbn. rewrite app_nil_r, Z.add_0_r, u64_id by done. done. }
  cbn [length] in Hcap. unfold deliver_one at 2 4 6.
  destruct (deliver_fn target (hint_key h) (hint_value h) net) as [ok net'].
  destruct ok; cbn [fst snd].
  - edestruct (IH (mkThread (store_ t) (recovery_queue_ t) (u64 (delivered_ t + 1)) (running_ t)) net')
      as (H1 & H2 & H3); cbn [store_ delivered_] in *; [lia|auto with dynamo|].
    split_and!; [by rewrite H1| |exact H3]. rewrite H2. unfold acked.
    rewrite filter_cons_True by done. cbn [fmap list_fmap length].
    unfold u64. rewrite Zplus_mod_idemp_l. f_equal. lia.
  - set (s' := store _ _ _ _ _).
    assert (hints_of (node_id target) s' =
            hints_of (node_id target) (store_ t) ++ [mkHint (node_id target) (hint_key h) (hint_value h) (clock_now net')])
      as Hs.
    { unfold s'. rewrite hints_of_store, decide_True by done. by rewrite decide_False by lia. }
    edestruct (IH (mkThread s' (recovery_queue_ t) (delivered_ t) (running_ t)) net')
      as (H1 & H2 & H3); cbn [store_ delivered_] in *; [|done|].
    { rewrite Hs, length_app. unfold s'. rewrite store_cap. cbn. lia. }
    split_and!.
    + rewrite H1, Hs, fmap_app. unfold failed. rewrite filter_cons_True by done.
      cbn. by rewrite <- app_assoc.
    + rewrite H2. unfold acked. by rewrite filter_cons_False by (cbn; congruence).
    + intros id Hid. rewrite H3 by done. unfold s'. rewrite hints_of_store. by rewrite decide_False.
Qed.

(** Handoff neither loses nor duplicates a write.  Every hint of the
    recovered target is offered once, in order; those acknowledged leave the
    store and are counted, those refused are kept, in order, for the next
    recovery; the hints of other targets are untouched. *)
Theorem handoff_conserves_hints target t net :
  store_ok (store_ t) → is_u64 (delivered_ t) →
  let t' := (deliverFor target (t, net)).1 in
  let log := answers target (hints_of (node_id target) (store_ t)) net in
  log.*1 = hints_of (node_id target) (store_ t) ∧
  write_of <$> hints_of (node_id target) (store_ t') = write_of <$> failed log ∧
  delivered_ t' = u64 (delivered_ t + Z.of_nat (length (acked log))) ∧
  (∀ id, id ≠ node_id target → hints_of id (store_ t') = hints_of id (store_ t)).
Proof.
  intros Hok Hd. cbn zeta. split.
  { generalize (hints_of (node_id target) (store_ t)) as l, net as n.
    induction l as [|h l IH]; intros n; cbn; [done|]. destruct deliver_fn. cbn. by rewrite IH. }
  unfold deliverFor. pose proof (drain_out (node_id target) (store_ t)) as Hout.
  pose proof (hints_of_drain (node_id target) (store_ t)) as Hrest.
  destruct (drain (node_id target) (store_ t)) as [hints s] eqn:Hdr. cbn [fst snd] in *. subst hints.
  destruct (filed_hints_of _ (node_id target) Hok) as [Hlen _].
  edestruct (deliver_loop target (hints_of (node_id target) (store_ t))
    (mkThread s (recovery_queue_ t) (delivered_ t) (running_ t)) net) as (H1 & H2 & H3);
    cbn [store_ delivered_] in *; [|done|].
  { rewrite Hrest, decide_True by done. cbn. unfold drain in Hdr.
    destruct (hints_ (store_ t) !! node_id target); injection Hdr as _ <-; cbn; lia. }
  rewrite H1, H2, Hrest, decide_True by done. split_and!; [done..|].
  intros id Hid. rewrite H3 by done. rewrite Hrest. by rewrite decide_False.
Qed.

(** *** A turn of the thread *)

Lemma deliver_one_other target t net h id :
  id ≠ node_id target → hints_of id (store_ (deliver_one target (t, net) h).1) = hints_of id (store_ t).
Proof.
  intros Hid. unfold deliver_one. destruct (deliver_fn _ _ _ _) as [[] net']; cbn; [done|].
  rewrite hints_of_store. by rewrite decide_False.
Qed.

Lemma deliver_all_other target hints acc id :
  id ≠ node_id target → hints_of id (store_ (foldl (deliver_one target) acc hints).1) = hints_of id (store_ acc.1).
Proof.
  intros Hid. revert acc. induction hints as [|h hints IH]; intros [t net]; [done|].
  cbn [foldl]. rewrite IH. by apply deliver_one_other.
Qed.

Lemma deliverFor_other target acc id :
  id ≠ node_id target → hints_of id (store_ (deliverFor target acc).1) = hints_of id (store_ acc.1).
Proof.
  intros Hid. destruct acc as [t net]. unfold deliverFor.
  pose proof (hints_of_drain (node_id target) (store_ t) id) as Hd. rewrite decide_False in Hd by done.
  destruct (drain (node_id target) (store_ t)) as [hints s]. rewrite deliver_all_other by done. exact Hd.
Qed.

(** A target that answers everything keeps no hint. *)
Lemma deliverFor_acked target acc :
  (∀ k v net, (deliver_fn target k v net).1 = true) →
  hints_of (node_id target) (store_ (deliverFor target acc).1) = [].
Proof.
  intros Hok. destruct acc as [t net]. unfold deliverFor.
  pose proof (hints_of_drain (node_id target) (store_ t) (node_id target)) as Hd. rewrite decide_True in Hd by done.
  destruct (drain (node_id target) (store_ t)) as [hints s]. cbn [snd] in Hd.
  set (t0 := mkThread s _ _ _). change s with (store_ t0) in Hd. clearbody t0. revert t0 net Hd.
  induction hints as [|h hints IH]; intros t0 net0 Hd; [done|]. cbn [foldl]. unfold deliver_one at 2.
  specialize (Hok (hint_key h) (hint_value h) net0). destruct (deliver_fn _ _ _ net0) as [ok net1]. cbn in Hok. subst ok.
  by apply IH.
Qed.

End HandoffThread.

(** The calls of [deliver_fn], with the world they act on. *)
Definition recorded {Net} (deliver_fn : NodeInfo → string → VersionedValue → Net → bool * Net)
    (target : NodeInfo) (key : string) (value : VersionedValue) (net : Net * list (NodeInfo * (string * VersionedValue)))
  : bool * (Net * list (NodeInfo * (string * VersionedValue))) :=
  let '(ok, net') := deliver_fn target key value net.1 in (ok, (net', net.2 ++ [(target, (key, value))])).

(** What was delivered to a node. *)
Definition offered (id : string) (calls : list (NodeInfo * (string * VersionedValue))) : list (string * VersionedValue) :=
  (filter (λ c, node_id c.1 = id) calls).*2.

Section offers.
Context {Net : Type} (deliver_fn : NodeInfo → string → VersionedValue → Net → bool * Net).
Context (clock_now : Net * list (NodeInfo * (string * VersionedValue)) → Z).

Lemma deliverFor_calls target t net calls :
  (deliverFor (recorded deliver_fn) clock_now target (t, (net, calls))).2.2 =
    calls ++ ((λ h, (target, write_of h)) <$> hints_of (node_id target) (store_ t)).
Proof.
  unfold deliverFor. pose proof (drain_out (node_id target) (store_ t)) as Hout.
  destruct (drain (node_id target) (store_ t)) as [hints s]. cbn in Hout. rewrite <- Hout.
  generalize (mkThread s (recovery_queue_ t) (delivered_ t) (running_ t)) as t0. revert net calls.
  clear. induction hints as [|h hints IH]; intros net calls t0; cbn; [by rewrite app_nil_r|].
  unfold recorded at 2. cbn. destruct (deliver_fn _ _ _ net) as [[] net']; rewrite IH, <- app_assoc; done.
Qed.

Lemma offered_app id l k : offered id (l ++ k) = offered id l ++ offered id k.
Proof. unfold offered. by rewrite list.filter_app, fmap_app. Qed.

Lemma offered_hints id target hints :
  offered id ((λ h, (target, write_of h)) <$> hints) = if decide (node_id target = id) then write_of <$> hints else [].
Proof.
  unfold offered. induction hints as [|h hints IH]; [by case_decide|]. rewrite fmap_cons, filter_cons. cbn.
  repeat case_decide; try done. cbn. by rewrite IH.
Qed.

(** A turn of the thread offers a recovered target that answers exactly the hints held
    for it, in order, and none is left, whatever the other targets of the turn did. *)
Lemma turn_offers n t net :
  n ∈ recovery_queue_ t →
  (∀ m k v net, node_id m = node_id n → (deliver_fn m k v net).1 = true) →
  let '(t', (_, calls)) := run_once (recorded deliver_fn) clock_now (t, (net, [])) in
  offered (node_id n) calls = write_of <$> hints_of (node_id n) (store_ t) ∧ hints_of (node_id n) (store_ t') = [].
Proof.
  intros Hn Hok. unfold run_once. set (id := node_id n) in *.
  assert (∀ targets acc, let acc' := foldl (λ acc target, deliverFor (recorded deliver_fn) clock_now target acc) acc targets in
     let back := existsb (λ m, String.eqb (node_id m) id) targets in
     offered id acc'.2.2 = offered id acc.2.2 ++ (if back then write_of <$> hints_of id (store_ acc.1) else []) ∧
     hints_of id (store_ acc'.1) = if back then [] else hints_of id (store_ acc.1)) as Hall.
  { clear -Hok. induction targets as [|m targets IH]; intros acc; cbn zeta; cbn [foldl existsb]; [by rewrite app_nil_r|].
    destruct (IH (deliverFor (recorded deliver_fn) clock_now m acc)) as [-> ->]. destruct acc as [t [net calls]].
    rewrite deliverFor_calls, offered_app, offered_hints. cbn [fst snd].
    destruct (String.eqb_spec (node_id m) id) as [He|He]; cbn [orb].
    - rewrite decide_True by done.
      assert (hints_of id (store_ (deliverFor (recorded deliver_fn) clock_now m (t, (net, calls))).1) = []) as ->.
      { rewrite <- He. apply deliverFor_acked. intros k v [net0 calls0]. unfold recorded. specialize (Hok m k v net0 He).
        cbn. by destruct (deliver_fn m k v net0). }
      rewrite He. split; [|by destruct (existsb _ _)]. destruct (existsb _ _); by rewrite app_nil_r.
    - rewrite decide_False, app_nil_r, deliverFor_other by done. done. }
  destruct (Hall (recovery_queue_ t) (mkThread (store_ t) [] (delivered_ t) (running_ t), (net, []))) as [H1 H2].
  assert (existsb (λ m, String.eqb (node_id m) id) (recovery_queue_ t) = true) as Hb.
  { apply existsb_exists. exists n. split; [by apply list_elem_of_In|apply String.eqb_refl]. }
  rewrite Hb in H1, H2. destruct (foldl _ _ _) as [t' [net' calls]]. cbn in *. rewrite hints_of_expire, H2. done.
Qed.

End offers.

(** A network with scripted answers, one clock tick per delivery. *)
Definition script (_ : NodeInfo) (_ : string) (_ : VersionedValue) (n : list bool * Z)
  : bool * (list bool * Z) :=
  match n with ([], now) => (false, ([], now + 1)) | (b :: l, now) => (b, (l, now + 1)) end.

Definition two_hints : HintStore :=
  store 2 "n2" "b" (mkVV "vb" ∅ false) (store 1 "n2" "a" (mkVV "va" ∅ false) (new 10 5)).

Lemma handoff_conserves_hints_witness :
  let t' := (deliverFor script snd (mkNode "n2" "h" 1) (mkThread two_hints [] 0 true, ([true; false], 100))).1 in
  write_of <$> hints_of "n2" (store_ t') = [("b", mkVV "vb" ∅ false)] ∧ delivered_ t' = 1.
Proof.
  destruct (handoff_conserves_hints script snd (mkNode "n2" "h" 1)
              (mkThread two_hints [] 0 true) ([true; false], 100)) as (_ & H1 & H2 & _).
  - cbn [store_]. unfold two_hints. auto with dynamo.
  - vm_decide.
  - cbv zeta. split; [etransitivity; [exact H1|vm_compute; reflexivity]|].
    etransitivity; [exact H2|vm_compute; reflexivity].
Defined.

(** A refused hint is re-stored with the time of the refusal, so its age
    restarts: the hint below is 89 ticks old, past its TTL of 10, and still
    survives the expiry that follows the failed delivery. *)
Example refused_hint_is_young_again :
  let t' := (run_once script snd (mkThread two_hints [mkNode "n2" "h" 1] 0 true, ([true; false], 90))).1 in
  created_at <$> hints_of "n2" (store_ t') = [92] ∧ created_at <$> hints_of "n2" two_hints = [1; 2].
Proof. vm_compute. split; reflexivity. Qed.

End HandoffThread.
