(* ===== verification/Wire.v ===== *)
(** * Replica traffic (src/replica_client.h, src/net/tcp_replica_client.cpp,
      src/net/pooled_replica_client.cpp, src/net/tcp_client.cpp,
      the REPLICATE and READ verbs of src/node.cpp)

    [ReplicaClient] is the seam between the coordinator and the network.  Its
    two implementations build and parse the same messages and differ in how
    they carry them: one connection per request, or a pooled connection with one
    retry.  The other end is the protocol edge of a node, which applies
    [replica_ops] to its store.

    The processes of a cluster are a map from addresses to stores.  What the
    network does to one attempt is a [Fate]: no connection, a round trip that
    fails with the request delivered or not, or a complete one.  Both clients are
    functions of the fates of their attempts and are proved against the same laws
    ([ReplicaLaws]), which are all the coordinator's theorems use. *)
From S2P Require Import Prelude Base64 Clock Value Storage Ring.
From Stdlib Require Import Ascii String ZArith Lia.
From stdpp Require Import base gmap list strings numbers.
Import VersionedValue replica_ops.

Record ReplicaReadResult := mkRead {
  read_ok : bool;
  found : bool;
  read_value : VersionedValue;
}.

(** A default-constructed [VersionedValue] and [ReplicaReadResult]. *)
Definition no_value : VersionedValue := mkVV EmptyString ∅ false.
Definition no_reply : ReplicaReadResult := mkRead false false no_value.

(** ** Messages *)

Module ReplicaMessages.

Definition write_msg (origin key : string) (value : VersionedValue) : string :=
  "REPLICATE|" +:+ key +:+ "|" +:+ base64.encode (data value) +:+ "|" +:+ origin +:+ "|"
  +:+ VectorClock.serialize (clock value).

(** [reply.rfind("RESPONSE|OK", 0) == 0]. *)
Definition write_acked (reply : string) : bool := String.prefix "RESPONSE|OK" reply.

Definition read_msg (origin key : string) : string := "READ|" +:+ key +:+ "|" +:+ origin.

Definition parse_read (reply : string) : ReplicaReadResult :=
  if str_empty reply then no_reply else
  let f := splitAll reply "|" in
  if negb (String.eqb (field f 0) "VAL") then no_reply else
  if bool_decide (2 ≤ length f) && String.eqb (field f 1) "NOTFOUND" then mkRead true false no_value
  else mkRead true true
         (mkVV (base64.decode (if bool_decide (2 ≤ length f) then field f 1 else ""))
               (VectorClock.parse (if bool_decide (3 ≤ length f) then field f 2 else "")) false).

End ReplicaMessages.

(** ** The serving side *)

Module NodeReplica.
Section NodeReplica.
Context {S : Type} `{StorageLaws S}.

Definition handleReplicate (f : list string) (storage : S) : S * string :=
  let key := field f 1 in
  let incoming := mkVV (base64.decode (field f 2)) (VectorClock.parse (field f 4)) false in
  ((applyReplicate storage key incoming).1, "RESPONSE|OK").

Definition handleReadReplica (f : list string) (storage : S) : string :=
  match readLocal storage (field f 1) with
  | None => "VAL|NOTFOUND"
  | Some v => "VAL|" +:+ base64.encode (data v) +:+ "|" +:+ VectorClock.serialize (clock v)
  end.

(** The replica verbs of [handleRequest]; [None] for the other ones. *)
Definition serve (payload : string) (storage : S) : option (S * string) :=
  let f := splitAll payload "|" in
  let type := field f 0 in
  if String.eqb type "REPLICATE" then Some (handleReplicate f storage)
  else if String.eqb type "READ" then Some (storage, handleReadReplica f storage)
  else None.

End NodeReplica.
End NodeReplica.

(** ** The network *)

(** Processes listen on addresses. *)
Abbreviation Addr := (string * Z)%type.
#[global] Instance Addr_eq_dec : EqDecision Addr.
Proof. apply _. Defined.
#[global] Instance Addr_countable : Countable Addr.
Proof. apply _. Defined.
Abbreviation World S := (@gmap Addr Addr_eq_dec Addr_countable S).

Definition addr (n : NodeInfo) : Addr := (host n, port n).

Inductive Fate :=
| NoConnection
| Broken (delivered : bool)
| RoundTrip.

#[global] Instance Fate_eq_dec : EqDecision Fate.
Proof. solve_decision. Defined.

(** What a round trip obtains, for the two ways a caller goes on. *)
Inductive Attempt := Unreachable | Failed | Replied (reply : string).

Section network.
Context {S : Type} `{StorageLaws S}.

(** The version of [key] the process at [n]'s address stores. *)
Definition copy (w : World S) (n : NodeInfo) (key : string) : option VersionedValue :=
  w !! addr n ≫= λ s, readLocal s key.

(** The process at [a] handles one request. *)
Definition serve_at (a : Addr) (request : string) (w : World S) : World S * option string :=
  match w !! a with
  | None => (w, None)
  | Some s => match NodeReplica.serve request s with
              | None => (w, None)
              | Some (s', reply) => (<[a := s']> w, Some reply)
              end
  end.

(** One framed request over one connection. *)
Definition attempt (fate : Fate) (peer : NodeInfo) (request : string) (w : World S)
  : World S * Attempt :=
  match fate with
  | NoConnection => (w, Unreachable)
  | Broken delivered => (if delivered then (serve_at (addr peer) request w).1 else w, Failed)
  | RoundTrip => let '(w', r) := serve_at (addr peer) request w in
                 (w', match r with None => Failed | Some reply => Replied reply end)
  end.

(** [TCPClient::sendAndReceiveFramed]: one attempt, [""] on any failure. *)
Definition sendAndReceiveFramed (fate : Fate) (peer : NodeInfo) (request : string) (w : World S)
  : World S * string :=
  let '(w', r) := attempt fate peer request w in
  (w', match r with Replied reply => reply | _ => "" end).

(** [PooledReplicaClient::exchange]: a failed round trip is retried once. *)
Definition exchange (fates : Fate * Fate) (peer : NodeInfo) (request : string) (w : World S)
  : World S * string :=
  let '(w1, r1) := attempt fates.1 peer request w in
  match r1 with
  | Unreachable => (w1, "")
  | Replied reply => (w1, reply)
  | Failed =>
      let '(w2, r2) := attempt fates.2 peer request w1 in
      (w2, match r2 with Replied reply => reply | _ => "" end)
  end.

(** ** The interface of the coordinator *)

Class ReplicaClient (F : Type) := {
  writeReplica : F → NodeInfo → string → VersionedValue → World S → World S * bool;
  readReplica : F → NodeInfo → string → World S → World S * ReplicaReadResult;
}.

(** What arrives at the other end: the tombstone flag is not part of a message. *)
Definition on_wire (v : VersionedValue) : VersionedValue := mkVV (data v) (clock v) false.

(** The version a replica keeps when [v] arrives. *)
Definition keep (old : option VersionedValue) (v : VersionedValue) : VersionedValue :=
  match old with
  | Some l => if decide (VectorClock.compare (clock l) (clock v) = VectorClock.A_DOMINATES)
              then l else v
  | None => v
  end.

(** Data a replica can report: one encoding reads as the absence of the key. *)
Definition readable (v : VersionedValue) : Prop := base64.encode (data v) ≠ "NOTFOUND".

Class ReplicaLaws (F : Type) `{ReplicaClient F} := {
  write_copy f p k v w n k' : str_free "|" k = true → vv_ok v →
    copy (writeReplica f p k v w).1 n k' = copy w n k' ∨
    (addr n = addr p ∧ k' = k ∧
     copy (writeReplica f p k v w).1 n k = Some (keep (copy w n k) (on_wire v)));
  write_ok f p k v w : str_free "|" k = true → vv_ok v →
    (writeReplica f p k v w).2 = true →
    copy (writeReplica f p k v w).1 p k = Some (keep (copy w p k) (on_wire v));
  write_dom f p k v w a : str_free "|" k = true → vv_ok v →
    is_Some ((writeReplica f p k v w).1 !! a) ↔ is_Some (w !! a);
  read_world f p k w : str_free "|" k = true → (readReplica f p k w).1 = w;
  read_copy f p k w : str_free "|" k = true →
    read_ok (readReplica f p k w).2 = true →
    match copy w p k with
    | None => found (readReplica f p k w).2 = false
    | Some v => readable v →
                found (readReplica f p k w).2 = true ∧ read_value (readReplica f p k w).2 = on_wire v
    end;
}.

End network.
Arguments ReplicaClient S F : clear implicits.
Arguments ReplicaLaws S {H} F {H0} : rename.

(** ** Encoding and decoding of replica messages *)

Section messages.
Context {S : Type} `{StorageLaws S}.
Import ReplicaMessages NodeReplica.

Lemma on_wire_ok v : vv_ok v → vv_ok (on_wire v).
Proof. done. Qed.

Lemma serve_write origin k v (s : S) :
  str_free "|" k = true → str_free "|" origin = true → vv_ok v →
  serve (write_msg origin k v) s = Some ((applyReplicate s k (on_wire v)).1, "RESPONSE|OK").
Proof.
  intros Hk Ho Hv. pose proof (VectorClock.serialize_bar_free _ Hv) as Hc.
  pose proof (base64.encode_free "|" (data v) eq_refl) as Hb. destruct Hv as (Hwf & Hids & _).
  assert (splitAll (write_msg origin k v) "|" =
          ["REPLICATE"; k; base64.encode (data v); origin; VectorClock.serialize (clock v)]) as Hf.
  { change (write_msg origin k v) with
      ("REPLICATE" +:+ String "|" (k +:+ String "|" (base64.encode (data v) +:+
        String "|" (origin +:+ String "|" (VectorClock.serialize (clock v)))))).
    rewrite !splitAll_app by done. by rewrite splitAll_free. }
  unfold serve. rewrite Hf. unfold field. cbn -[handleReplicate]. unfold handleReplicate, field.
  cbn -[applyReplicate base64.decode VectorClock.parse].
  by rewrite base64.decode_encode, VectorClock.parse_serialize.
Qed.

Lemma serve_read origin k (s : S) :
  str_free "|" k = true → str_free "|" origin = true →
  serve (read_msg origin k) s =
  Some (s, match readLocal s k with
           | None => "VAL|NOTFOUND"
           | Some v => "VAL|" +:+ base64.encode (data v) +:+ "|" +:+ VectorClock.serialize (clock v)
           end).
Proof.
  intros Hk Ho.
  assert (splitAll (read_msg origin k) "|" = ["READ"; k; origin]) as Hf.
  { change (read_msg origin k) with ("READ" +:+ String "|" (k +:+ String "|" origin)).
    rewrite !splitAll_app by done. by rewrite splitAll_free. }
  unfold serve. rewrite Hf. reflexivity.
Qed.

(** The answer to a READ, as the client understands it. *)
Definition read_as (c : option VersionedValue) : ReplicaReadResult :=
  match c with
  | None => mkRead true false no_value
  | Some v => if decide (readable v) then mkRead true true (on_wire v) else mkRead true false no_value
  end.

Lemma parse_read_reply (s : S) k :
  parse_read (match readLocal s k with
              | None => "VAL|NOTFOUND"
              | Some v => "VAL|" +:+ base64.encode (data v) +:+ "|" +:+ VectorClock.serialize (clock v)
              end) = read_as (readLocal s k).
Proof.
  destruct (readLocal s k) as [v|] eqn:E; [|reflexivity].
  pose proof (readLocal_ok _ _ _ E) as Hv. pose proof (VectorClock.serialize_bar_free _ Hv) as Hc.
  pose proof (base64.encode_free "|" (data v) eq_refl) as Hb. destruct Hv as (Hwf & Hids & _).
  set (reply := _ +:+ _ +:+ _). assert (splitAll reply "|" = ["VAL"; base64.encode (data v); VectorClock.serialize (clock v)]) as Hf.
  { change reply with ("VAL" +:+ String "|" (base64.encode (data v) +:+ String "|" (VectorClock.serialize (clock v)))).
    rewrite !splitAll_app by done. by rewrite splitAll_free. }
  unfold parse_read. change (str_empty reply) with false. rewrite Hf. unfold field.
  cbn -[base64.decode VectorClock.parse String.eqb readable]. unfold read_as, readable.
  rewrite !(bool_decide_eq_true_2 (_ ≤ _)) by lia.
  change (String.eqb "VAL" "VAL") with true. cbn -[base64.decode VectorClock.parse String.eqb].
  destruct (String.eqb_spec (base64.encode (data v)) "NOTFOUND") as [Hn|Hn].
  - by rewrite decide_False by naive_solver.
  - rewrite decide_True by done. unfold on_wire.
    by rewrite base64.decode_encode, VectorClock.parse_serialize.
Qed.

(** ** Effect of one attempt *)

Definition apply_at (a : Addr) (k : string) (v : VersionedValue) (w : World S) : World S :=
  alter (λ s, (applyReplicate s k v).1) a w.

Lemma readLocal_apply s k v k' :
  vv_ok v →
  readLocal (applyReplicate s k v).1 k' =
  if decide (k' = k) then Some (keep (readLocal s k) v) else readLocal s k'.
Proof.
  intros Hv. rewrite applyReplicate_read by done. unfold keep. repeat case_decide; try congruence.
  destruct (readLocal s k); [by case_decide|done].
Qed.

Lemma copy_apply_at a k v w n k' :
  vv_ok v →
  copy (apply_at a k v w) n k' =
  if decide (addr n = a ∧ k' = k ∧ is_Some (w !! a)) then Some (keep (copy w n k) v) else copy w n k'.
Proof.
  intros Hv. unfold copy, apply_at. rewrite lookup_alter. case_decide as Ha.
  - subst a. destruct (w !! addr n) as [s|] eqn:E; cbn.
    + rewrite readLocal_apply by done. repeat case_decide; naive_solver.
    + rewrite decide_False; [done|]. intros (_ & _ & [? ?]). congruence.
  - rewrite decide_False by naive_solver. done.
Qed.

Lemma keep_idem o v : keep (Some (keep o v)) v = keep o v.
Proof. unfold keep. destruct o; repeat case_decide; done. Qed.

Lemma serve_at_write origin a k v w :
  str_free "|" k = true → str_free "|" origin = true → vv_ok v →
  serve_at a (write_msg origin k v) w =
  (apply_at a k (on_wire v) w, if decide (is_Some (w !! a)) then Some "RESPONSE|OK" else None).
Proof.
  intros Hk Ho Hv. unfold serve_at, apply_at. destruct (w !! a) as [s|] eqn:E.
  - rewrite serve_write by done. rewrite decide_True by done. f_equal.
    apply map_eq. intros b. rewrite lookup_alter, lookup_insert. case_decide; [|done].
    subst. by rewrite E.
  - rewrite decide_False by (by intros [? ?]). f_equal.
    apply map_eq. intros b. rewrite lookup_alter. case_decide; [|done]. subst. by rewrite E.
Qed.

Lemma serve_at_read origin a k w :
  str_free "|" k = true → str_free "|" origin = true →
  (serve_at a (read_msg origin k) w).1 = w ∧
  ∀ r, (serve_at a (read_msg origin k) w).2 = Some r →
       parse_read r = read_as (w !! a ≫= λ s, readLocal s k).
Proof.
  intros Hk Ho. unfold serve_at. destruct (w !! a) as [s|] eqn:E; cbn; [|by split].
  rewrite serve_read by done. cbn [fst snd]. split; [by apply insert_id|].
  intros r [= <-]. apply parse_read_reply.
Qed.

Lemma attempt_write fate origin p k v w :
  str_free "|" k = true → str_free "|" origin = true → vv_ok v →
  let '(w', r) := attempt fate p (write_msg origin k v) w in
  (w' = w ∨ w' = apply_at (addr p) k (on_wire v) w) ∧
  (∀ reply, r = Replied reply →
     reply = "RESPONSE|OK" ∧ is_Some (w !! addr p) ∧ w' = apply_at (addr p) k (on_wire v) w).
Proof.
  intros Hk Ho Hv. destruct fate as [|[]|]; cbn; rewrite ?serve_at_write by done; cbn;
    try (split; [by auto|by intros ?]).
  case_decide; (split; [by auto|]); intros reply [= <-]. done.
Qed.

Lemma attempt_read fate origin p k w :
  str_free "|" k = true → str_free "|" origin = true →
  let '(w', r) := attempt fate p (read_msg origin k) w in
  w' = w ∧ (∀ reply, r = Replied reply → parse_read reply = read_as (copy w p k)).
Proof.
  intros Hk Ho. destruct (serve_at_read origin (addr p) k w Hk Ho) as [Hw Hr].
  destruct fate as [|[]|]; cbn; try (split; [done|by intros ?]).
  destruct (serve_at (addr p) (read_msg origin k) w) as [w' [r|]]; cbn in *;
    (split; [done|]); intros reply [= <-]. by apply Hr.
Qed.

End messages.

(** ** The two clients *)

Module TcpReplicaClient.
Import ReplicaMessages.
Section client.
Context {S : Type} `{StorageLaws S} (origin : string).

Definition writeReplica (fate : Fate) (peer : NodeInfo) (key : string) (value : VersionedValue)
  (w : World S) : World S * bool :=
  let '(w', reply) := sendAndReceiveFramed fate peer (write_msg origin key value) w in
  (w', write_acked reply).

Definition readReplica (fate : Fate) (peer : NodeInfo) (key : string) (w : World S)
  : World S * ReplicaReadResult :=
  let '(w', reply) := sendAndReceiveFramed fate peer (read_msg origin key) w in
  (w', parse_read reply).

Definition client : ReplicaClient S Fate := {|
  Wire.writeReplica := writeReplica; Wire.readReplica := readReplica |}.

End client.
End TcpReplicaClient.

Module PooledReplicaClient.
Import ReplicaMessages.
Section client.
Context {S : Type} `{StorageLaws S} (origin : string).

Definition writeReplica (fates : Fate * Fate) (peer : NodeInfo) (key : string)
  (value : VersionedValue) (w : World S) : World S * bool :=
  let '(w', reply) := exchange fates peer (write_msg origin key value) w in
  (w', write_acked reply).

Definition readReplica (fates : Fate * Fate) (peer : NodeInfo) (key : string) (w : World S)
  : World S * ReplicaReadResult :=
  let '(w', reply) := exchange fates peer (read_msg origin key) w in
  (w', parse_read reply).

Definition client : ReplicaClient S (Fate * Fate) := {|
  Wire.writeReplica := writeReplica; Wire.readReplica := readReplica |}.

End client.
End PooledReplicaClient.

(** ** Both implement the interface *)

Section clients.
Context {S : Type} `{StorageLaws S} (origin : string) (Horigin : str_free "|" origin = true).
Import ReplicaMessages.

Lemma is_Some_apply_at (a : Addr) (k : string) (v : VersionedValue) (w : World S) b : is_Some (apply_at a k v w !! b) ↔ is_Some (w !! b).
Proof. unfold apply_at. rewrite lookup_alter. case_decide; [by rewrite fmap_is_Some; subst|done]. Qed.

(** Any number of deliveries of one version have the effect of one. *)
Lemma copy_deliveries n a k v w q k' :
  vv_ok v →
  copy (Nat.iter n (apply_at a k v) w) q k' =
  if decide (n ≠ 0 ∧ addr q = a ∧ k' = k ∧ is_Some (w !! a)) then Some (keep (copy w q k) v)
  else copy w q k'.
Proof.
  intros Hv. induction n as [|n IH]; [by rewrite decide_False by naive_solver|].
  assert (∀ b, is_Some (Nat.iter n (apply_at a k v) w !! b) ↔ is_Some (w !! b)) as Hdom.
  { intros b. clear IH. induction n as [|n IH]; [done|]. by rewrite Nat.iter_succ, is_Some_apply_at. }
  rewrite Nat.iter_succ, copy_apply_at by done. destruct (decide (addr q = a ∧ k' = k ∧ is_Some (w !! a))) as [Hd|Hd].
  - rewrite !decide_True by (rewrite ?Hdom; naive_solver). f_equal.
    destruct Hd as (<- & -> & Hs). destruct n as [|n]; [done|].
    rewrite IH, decide_True by done. apply keep_idem.
  - rewrite decide_False by (rewrite Hdom; naive_solver). rewrite IH.
    by rewrite !decide_False by naive_solver.
Qed.

(** A client whose writes deliver the message some number of times, at least
    once when it reports success, and whose answers come from a served READ,
    has the laws of the interface. *)
Lemma laws_intro F (C : ReplicaClient S F) :
  (∀ f p k v w, str_free "|" k = true → vv_ok v → ∃ n,
     (writeReplica f p k v w).1 = Nat.iter n (apply_at (addr p) k (on_wire v)) w ∧
     ((writeReplica f p k v w).2 = true → n ≠ 0 ∧ is_Some (w !! addr p))) →
  (∀ f p k w, str_free "|" k = true →
     (readReplica f p k w).1 = w ∧
     (read_ok (readReplica f p k w).2 = true → (readReplica f p k w).2 = read_as (copy w p k))) →
  ReplicaLaws S F.
Proof.
  intros Hw Hr. split.
  - intros f p k v w n k' Hk Hv. destruct (Hw f p k v w Hk Hv) as (m & -> & _).
    rewrite !copy_deliveries by done. case_decide as Hd; [|by left].
    right. destruct Hd as (? & ? & -> & ?). by rewrite decide_True.
  - intros f p k v w Hk Hv Hok. destruct (Hw f p k v w Hk Hv) as (m & -> & Hm).
    destruct (Hm Hok) as [? ?]. rewrite copy_deliveries by done. by rewrite decide_True.
  - intros f p k v w a Hk Hv. destruct (Hw f p k v w Hk Hv) as (m & -> & _). clear Hw.
    induction m as [|m IH]; [done|]. by rewrite Nat.iter_succ, is_Some_apply_at.
  - intros f p k w Hk. by apply Hr.
  - intros f p k w Hk Hok. rewrite (proj2 (Hr f p k w Hk) Hok). unfold read_as.
    destruct (copy w p k); [|done]. intros Hv. by rewrite decide_True.
Qed.

Lemma tcp_laws : @ReplicaLaws S _ Fate (TcpReplicaClient.client origin).
Proof using All.
  apply laws_intro.
  - intros f p k v w Hk Hv. cbn. unfold TcpReplicaClient.writeReplica, sendAndReceiveFramed.
    pose proof (attempt_write f origin p k v w Hk Horigin Hv) as Ha.
    destruct attempt as [w' r]. destruct Ha as [Hw Hr]. destruct r as [| |reply]; cbn.
    1,2: destruct Hw as [->| ->]; [by exists 0|by exists 1].
    destruct (Hr reply eq_refl) as (-> & Hs & ->). exists 1. by split.
  - intros f p k w Hk. cbn. unfold TcpReplicaClient.readReplica, sendAndReceiveFramed.
    pose proof (attempt_read f origin p k w Hk Horigin) as Ha.
    destruct attempt as [w' r]. destruct Ha as [-> Hr]. split; [by destruct r|].
    destruct r as [| |reply]; cbn; [done..|]. intros _. by apply Hr.
Qed.

Lemma pooled_laws : @ReplicaLaws S _ (Fate * Fate) (PooledReplicaClient.client origin).
Proof using All.
  apply laws_intro.
  - intros [f1 f2] p k v w Hk Hv. cbn. unfold PooledReplicaClient.writeReplica, exchange. cbn [fst snd].
    pose proof (attempt_write f1 origin p k v w Hk Horigin Hv) as Ha.
    destruct attempt as [w1 r1]. destruct Ha as [Hw Hr].
    assert (∃ n, w1 = Nat.iter n (apply_at (addr p) k (on_wire v)) w) as [n Hn].
    { destruct Hw as [->| ->]; [by exists 0|by exists 1]. }
    destruct r1 as [| |reply]; cbn; [by exists n| |].
    2: { destruct (Hr reply eq_refl) as (-> & Hs & ->). exists 1. by split. }
    pose proof (attempt_write f2 origin p k v w1 Hk Horigin Hv) as Ha.
    destruct attempt as [w2 r2]. destruct Ha as [Hw2 Hr2]. destruct r2 as [| |reply]; cbn.
    1,2: subst w1; destruct Hw2 as [->| ->]; [by exists n|by exists (Datatypes.S n)].
    destruct (Hr2 reply eq_refl) as (-> & Hs & ->). subst w1. exists (Datatypes.S n).
    split; [done|]. intros _. split; [done|]. clear -Hs. induction n as [|n IH]; [done|].
    apply IH. by rewrite Nat.iter_succ, is_Some_apply_at in Hs.
  - intros [f1 f2] p k w Hk. cbn. unfold PooledReplicaClient.readReplica, exchange. cbn [fst snd].
    pose proof (attempt_read f1 origin p k w Hk Horigin) as Ha.
    destruct attempt as [w1 r1]. destruct Ha as [-> Hr]. destruct r1 as [| |reply]; cbn; [done| |].
    + pose proof (attempt_read f2 origin p k w Hk Horigin) as Ha.
      destruct attempt as [w2 r2]. destruct Ha as [-> Hr2]. split; [by destruct r2|].
      destruct r2; cbn; [done..|]. intros _. by apply Hr2.
    + split; [done|]. intros _. by apply Hr.
Qed.

End clients.

(** ** Theorems *)

(** The one-shot and the pooled client (with its retry) both implement the
    interface the coordinator relies on: whatever the network does, a write
    changes at most the peer's copy of the key and only as [applyReplicate]
    would; an acknowledged write has been applied; an answered read reports the
    copy. *)
Theorem clients_implement_interface (S : Type) `{StorageLaws S} origin :
  str_free "|" origin = true →
  @ReplicaLaws S _ Fate (TcpReplicaClient.client origin) ∧
  @ReplicaLaws S _ (Fate * Fate) (PooledReplicaClient.client origin).
Proof. intros Ho. split; [by apply tcp_laws|by apply pooled_laws]. Qed.

Lemma clients_implement_interface_witness :
  @ReplicaLaws (gmap string string) _ Fate (TcpReplicaClient.client "node1").
Proof. apply (clients_implement_interface (gmap string string) "node1" eq_refl). Defined.

(** The two ends of the replica protocol agree.  A node serving the
    client's REPLICATE applies exactly the data and clock that were sent, and
    the client reads out of a READ answer the data and clock the node stores. *)
Theorem replica_messages_roundtrip (S : Type) `{StorageLaws S} origin k v (s : S) :
  str_free "|" k = true → str_free "|" origin = true → vv_ok v →
  NodeReplica.serve (ReplicaMessages.write_msg origin k v) s =
    Some ((applyReplicate s k (on_wire v)).1, "RESPONSE|OK") ∧
  ∃ reply, NodeReplica.serve (ReplicaMessages.read_msg origin k) s = Some (s, reply) ∧
           ReplicaMessages.parse_read reply = read_as (readLocal s k).
Proof.
  intros Hk Ho Hv. split; [by apply serve_write|].
  eexists. split; [by apply serve_read|]. apply parse_read_reply.
Qed.

Definition tombstone : VersionedValue := mkVV "" (VectorClock.set_at ∅ "node1" 2 50) true.

Lemma replica_messages_roundtrip_witness :
  NodeReplica.serve (S := gmap string string) (ReplicaMessages.write_msg "node1" "k" tombstone) ∅ =
  Some ((applyReplicate (S := gmap string string) ∅ "k" (on_wire tombstone)).1, "RESPONSE|OK").
Proof.
  apply (replica_messages_roundtrip (gmap string string) "node1" "k" tombstone ∅); vm_decide.
Defined.

(** A delete does not reach the other replicas as a delete.  An
    acknowledged REPLICATE of a tombstone to a replica that does not dominate it
    leaves a live value there, empty and with the tombstone's clock. *)
Theorem replicated_tombstone_is_live (S : Type) `{StorageLaws S} (origin : string) (f : Fate * Fate) (p : NodeInfo)
  (k : string) (v : VersionedValue) (w : World S) :
  str_free "|" k = true → str_free "|" origin = true → vv_ok v → deleted v = true →
  (PooledReplicaClient.writeReplica origin f p k v w).2 = true →
  (∀ l, copy w p k = Some l → VectorClock.compare (clock l) (clock v) ≠ VectorClock.A_DOMINATES) →
  copy (PooledReplicaClient.writeReplica origin f p k v w).1 p k = Some (mkVV (data v) (clock v) false).
Proof.
  intros Hk Ho Hv _ Hok Hnd.
  etransitivity; [exact (@write_ok _ _ _ _ (pooled_laws origin Ho) f p k v w Hk Hv Hok)|].
  f_equal. unfold keep. destruct (copy w p k) as [l|] eqn:E; [|done].
  by rewrite decide_False by (by apply Hnd).
Qed.

Definition peer2 : NodeInfo := mkNode "node2" "10.0.0.2" 5000.
Definition world2 : World (gmap string string) := {[ addr peer2 := ∅ ]}.

Lemma replicated_tombstone_is_live_witness :
  copy (PooledReplicaClient.writeReplica "node1" (RoundTrip, RoundTrip) peer2 "k" tombstone world2).1 peer2 "k"
  = Some (mkVV "" (VectorClock.set_at ∅ "node1" 2 50) false).
Proof.
  apply (replicated_tombstone_is_live (gmap string string) "node1" (RoundTrip, RoundTrip) peer2 "k" tombstone world2);
    [vm_decide..|vm_compute; reflexivity|].
  intros l Hl. vm_compute in Hl. discriminate Hl.
Defined.

(** Six bytes read as nothing.  The data whose base64 form is the word
    NOTFOUND is stored by a replica, and every READ of it is understood by the
    client as the absence of the key. *)
Theorem notfound_bytes_read_as_missing (S : Type) `{StorageLaws S} origin k c (s : S) :
  str_free "|" k = true → str_free "|" origin = true →
  let v := mkVV (base64.decode "NOTFOUND") c false in
  readLocal s k = Some v →
  ∃ reply, NodeReplica.serve (ReplicaMessages.read_msg origin k) s = Some (s, reply) ∧
           ReplicaMessages.parse_read reply = mkRead true false no_value.
Proof.
  intros Hk Ho v Hs. eexists. split; [by apply serve_read|]. rewrite parse_read_reply, Hs.
  unfold read_as. rewrite decide_False; [done|]. intros Hr. apply Hr. vm_compute. reflexivity.
Qed.

Lemma notfound_bytes_read_as_missing_witness :
  let v := mkVV (base64.decode "NOTFOUND") (VectorClock.set_at ∅ "node1" 1 50) false in
  ∃ reply, NodeReplica.serve (ReplicaMessages.read_msg "node1" "k")
             ({[ "k" := VersionedValue.serialize v ]} : gmap string string) =
           Some ({[ "k" := VersionedValue.serialize v ]}, reply) ∧
           ReplicaMessages.parse_read reply = mkRead true false no_value.
Proof.
  apply (notfound_bytes_read_as_missing (gmap string string) "node1" "k" (VectorClock.set_at ∅ "node1" 1 50));
    [vm_decide..|vm_compute; reflexivity].
Defined.
