(* ===== verification/Coordinator.v ===== *)
(** * The coordinator (src/coordinator.h, src/coordinator.cpp)

    Quorum writes, quorum reads, reconciliation and read repair.  The local
    store of the coordinating node is its process's entry in the world; remote
    replicas are reached through [ReplicaClient] only.

    This file holds the sequential parts: the clock of a new write, the choice
    of targets and stand-ins, the maximal versions of a set of responses and
    what is done with them.  The fan-out threads and the waiting loop are in
    [Quorum]. *)
From S2P Require Import Prelude Base64 Clock Value Storage Ring Metrics Hints Wire.
From Stdlib Require Import Ascii String ZArith Lia.
From stdpp Require Import base gmap list strings numbers.
Import VersionedValue replica_ops.

Record QuorumConfig := mkConfig {
  N : Z;
  W : Z;
  R : Z;
  max_clock_entries : nat;
}.

Record PutResult := mkPut {
  put_ok : bool;
  put_clock : VectorClock.clock;
  put_error : string;
}.

Inductive Status := OK | SIBLINGS | NOTFOUND | ERROR.

Record GetResult := mkGet {
  status : Status;
  values : list VersionedValue;
  get_error : string;
}.

Record Resp := mkResp {
  resp_peer : NodeInfo;
  resp_found : bool;
  resp_vv : VersionedValue;
}.

#[global] Instance Status_eq_dec : EqDecision Status.
Proof. solve_decision. Defined.
#[global] Instance PutResult_eq_dec : EqDecision PutResult.
Proof. solve_decision. Defined.
#[global] Instance GetResult_eq_dec : EqDecision GetResult.
Proof. solve_decision. Defined.

Module Coordinator.
Section Coordinator.
Context {S : Type} `{StorageLaws S}.

(** What a coordinator is configured with.  The hint store and the liveness
    check are absent until the gossip layer is ready. *)
Record Coordinator := mkCoordinator {
  self_ : NodeInfo;
  router_ : Router.Router;
  defaults_ : QuorumConfig;
  is_alive_fn_ : option (string → bool);
}.

(** What it changes. *)
Record State := mkState {
  world : World S;
  hint_store_ : option HintStore.HintStore;
  metrics_ : InMemoryMetrics.t;
}.

Definition with_world (w : World S) (st : State) : State := mkState w (hint_store_ st) (metrics_ st).
Definition with_metrics (m : InMemoryMetrics.t) (st : State) : State :=
  mkState (world st) (hint_store_ st) m.

(** [storage_->get] and [storage_->put]: the store of the process at our own
    address. *)
Definition local_get (c : Coordinator) (key : string) (w : World S) : option string :=
  w !! addr (self_ c) ≫= Storage.get key.
Definition local_put (c : Coordinator) (key value : string) (w : World S) : World S :=
  alter (Storage.put key value) (addr (self_ c)) w.

Definition localClock (c : Coordinator) (key : string) (w : World S) : VectorClock.clock :=
  match local_get c key w with
  | None => ∅
  | Some stored => clock (deserialize stored)
  end.

Definition bumpedClock (c : Coordinator) (now : Z) (key : string) (context : VectorClock.clock)
  (w : World S) : VectorClock.clock :=
  let id := node_id (self_ c) in
  let base := Z.max (VectorClock.get context id) (VectorClock.get (localClock c key w) id) in
  let newClock := VectorClock.set now context id (u64 (base + 1)) in
  VectorClock.prune newClock (max_clock_entries (defaults_ c)).

(** ** Write targets *)

(** [is_alive_fn_ && !is_alive_fn_(id)]. *)
Definition known_dead (c : Coordinator) (id : string) : bool :=
  match is_alive_fn_ c with
  | None => false
  | Some alive => negb (alive id)
  end.

(** The first candidate the loop over all physical nodes does not skip. *)
Definition eligible (c : Coordinator) (owners : list NodeInfo) (owner candidate : NodeInfo) : bool :=
  negb (String.eqb (node_id candidate) (node_id (self_ c))) &&
  negb (String.eqb (node_id candidate) (node_id owner)) &&
  negb (existsb (λ o, String.eqb (node_id o) (node_id candidate)) owners) &&
  negb (known_dead c (node_id candidate)).

Definition standin (c : Coordinator) (owners : list NodeInfo) (owner : NodeInfo) : option NodeInfo :=
  List.find (eligible c owners owner) (Router.getAllPhysicalNodes (router_ c)).

Record Fanout := mkFanout {
  fan_state : State;
  localAcks : Z;
  remotes : list NodeInfo;
}.

(** [steady] is the reading of the clock that stamps a hint. *)
Definition write_owner (c : Coordinator) (steady : Z) (key : string) (vv : VersionedValue)
  (owners : list NodeInfo) (fan : Fanout) (owner : NodeInfo) : Fanout :=
  let st := fan_state fan in
  if String.eqb (node_id owner) (node_id (self_ c)) then
    mkFanout (with_world (local_put c key (serialize vv) (world st)) st) (localAcks fan + 1) (remotes fan)
  else if known_dead c (node_id owner) then
    let remotes' := match standin c owners owner with
                    | Some candidate => remotes fan ++ [candidate]
                    | None => remotes fan
                    end in
    let st' := match hint_store_ st with
               | Some h => mkState (world st) (Some (HintStore.store steady (node_id owner) key vv h))
                             (InMemoryMetrics.incHintStored (metrics_ st))
               | None => st
               end in
    mkFanout st' (localAcks fan) remotes'
  else mkFanout st (localAcks fan) (remotes fan ++ [owner]).

Definition write_fanout (c : Coordinator) (steady : Z) (key : string) (vv : VersionedValue)
  (owners : list NodeInfo) (st : State) : Fanout :=
  foldl (write_owner c steady key vv owners) (mkFanout st 0 []) owners.

(** ** Reconciliation *)

Definition maximalVersions (responses : list Resp) : list VersionedValue :=
  let found := resp_vv <$> filter (λ r, resp_found r = true) responses in
  foldl (λ maximal cand,
    if existsb (λ other, bool_decide
         (VectorClock.compare (clock other) (clock cand) = VectorClock.A_DOMINATES)) found
    then maximal
    else if existsb (λ m, bool_decide
         (VectorClock.compare (clock m) (clock cand) = VectorClock.EQUAL)) maximal
    then maximal
    else maximal ++ [cand]) [] found.

(** [repairAsync]: the peer's write is left to a background thread. *)
Definition repairAsync (c : Coordinator) (peer : NodeInfo) (key : string) (value : VersionedValue)
  (st : State) : State * list (NodeInfo * VersionedValue) :=
  let st := with_metrics (InMemoryMetrics.incReadRepair (metrics_ st)) st in
  if String.eqb (node_id peer) (node_id (self_ c))
  then (with_world (local_put c key (serialize value) (world st)) st, [])
  else (st, [(peer, value)]).

Definition stale (dominant : VersionedValue) (r : Resp) : bool :=
  negb (resp_found r) ||
  bool_decide (VectorClock.compare (clock dominant) (clock (resp_vv r)) = VectorClock.A_DOMINATES).

(** [coordinateGet] from the snapshot of the responses on. *)
Definition finish_get (c : Coordinator) (key : string) (R : Z) (responses : list Resp) (st : State)
  : GetResult * State * list (NodeInfo * VersionedValue) :=
  if (Z.of_nat (length responses) <? R)%Z then
    (mkGet ERROR [] "quorum_not_met", with_metrics (InMemoryMetrics.incQuorumFailure Get (metrics_ st)) st, [])
  else
    let st := with_metrics (InMemoryMetrics.incQuorumSuccess Get (metrics_ st)) st in
    match maximalVersions responses with
    | [] => (mkGet NOTFOUND [] "", st, [])
    | [dominant] =>
        let '(st', bg) :=
          foldl (λ acc r,
            if stale dominant r then
              let '(st', bg) := repairAsync c (resp_peer r) key dominant acc.1 in (st', acc.2 ++ bg)
            else acc) (st, []) responses in
        (if deleted dominant then mkGet NOTFOUND [] "" else mkGet OK [dominant] "", st', bg)
    | maximal => (mkGet SIBLINGS maximal "", st, [])
    end.

(** ** Read targets *)

Record ReadFanout := mkReadFanout {
  read_responses : list Resp;
  read_remotes : list NodeInfo;
}.

Definition read_owner (c : Coordinator) (key : string) (w : World S) (fan : ReadFanout)
  (owner : NodeInfo) : ReadFanout :=
  if String.eqb (node_id owner) (node_id (self_ c)) then
    let r := match local_get c key w with
             | Some stored => mkResp owner true (deserialize stored)
             | None => mkResp owner false no_value
             end in
    mkReadFanout (read_responses fan ++ [r]) (read_remotes fan)
  else if known_dead c (node_id owner) then fan
  else mkReadFanout (read_responses fan) (read_remotes fan ++ [owner]).

Definition read_fanout (c : Coordinator) (key : string) (owners : list NodeInfo) (w : World S)
  : ReadFanout := foldl (read_owner c key w) (mkReadFanout [] []) owners.

(** ** The local store *)

Lemma localClock_copy c key w :
  localClock c key w = match copy w (self_ c) key with None => ∅ | Some v => clock v end.
Proof.
  unfold localClock, local_get, copy, readLocal. destruct (w !! addr (self_ c)) as [s|]; cbn; [|done].
  by destruct (Storage.get key s).
Qed.

Lemma local_get_copy c key w : deserialize <$> local_get c key w = copy w (self_ c) key.
Proof.
  unfold local_get, copy, readLocal. destruct (w !! addr (self_ c)) as [s|]; cbn; [|done].
  by destruct (Storage.get key s).
Qed.

Lemma copy_ok w n key v : copy w n key = Some v → vv_ok v.
Proof. unfold copy. destruct (w !! addr n); [apply readLocal_ok|done]. Qed.

Lemma localClock_ok c key w : VectorClock.wire_ok (localClock c key w).
Proof.
  rewrite localClock_copy. destruct (copy w (self_ c) key) eqn:E;
    [by apply copy_ok in E|apply VectorClock.wire_ok_empty].
Qed.

Lemma copy_local_put c key v w n k :
  vv_ok v →
  copy (local_put c key (serialize v) w) n k =
  if decide (addr n = addr (self_ c) ∧ k = key ∧ is_Some (w !! addr n)) then Some v else copy w n k.
Proof.
  intros Hv. unfold copy, local_put. rewrite lookup_alter.
  destruct (decide (addr (self_ c) = addr n)) as [Ha|Ha].
  - rewrite Ha. destruct (w !! addr n) as [s|] eqn:E; cbn.
    + rewrite readLocal_put by done. repeat case_decide; naive_solver.
    + rewrite decide_False; [done|]. intros (_ & _ & [? ?]). congruence.
  - rewrite decide_False by naive_solver. done.
Qed.

Lemma is_Some_local_put c key s (w : World S) a :
  is_Some (local_put c key s w !! a) ↔ is_Some (w !! a).
Proof. unfold local_put. rewrite lookup_alter. case_decide; [by rewrite fmap_is_Some; subst|done]. Qed.

(** ** The clock of a new write *)

(** What [isValidNodeId] guarantees about the coordinator's own id. *)
Definition self_ok (c : Coordinator) : Prop :=
  VectorClock.id_ok (node_id (self_ c)) ∧ str_free "|" (node_id (self_ c)) = true.

Lemma bumped_ok c now key ctx w :
  self_ok c → is_u64 now → VectorClock.wire_ok ctx →
  VectorClock.wire_ok (bumpedClock c now key ctx w).
Proof.
  intros [Hid Hbar] Hnow Hctx. unfold bumpedClock.
  eapply VectorClock.wire_ok_sub.
  - apply map_subseteq_spec. intros k e. apply VectorClock.prune_sub.
  - apply VectorClock.wire_ok_set_at; auto with dynamo.
Qed.

(** The clock before pruning. *)
Definition bumped_base (c : Coordinator) (key : string) (ctx : VectorClock.clock) (w : World S) : Z :=
  Z.max (VectorClock.get ctx (node_id (self_ c)))
        (VectorClock.get (localClock c key w) (node_id (self_ c))).

Lemma bumped_get c now key ctx w k :
  (size (VectorClock.set now ctx (node_id (self_ c)) (u64 (bumped_base c key ctx w + 1)))
     ≤ max_clock_entries (defaults_ c)) →
  VectorClock.get (bumpedClock c now key ctx w) k =
  if decide (node_id (self_ c) = k) then u64 (bumped_base c key ctx w + 1)
  else VectorClock.get ctx k.
Proof.
  intros Hsz. unfold bumpedClock. fold (bumped_base c key ctx w).
  unfold VectorClock.prune. rewrite bool_decide_eq_true_2 by done.
  apply VectorClock.get_set_at.
Qed.

Lemma bumped_base_range c key ctx w :
  VectorClock.wf ctx → (0 ≤ bumped_base c key ctx w ≤ U64_MAX)%Z.
Proof.
  intros Hctx. unfold bumped_base.
  pose proof (VectorClock.get_wf ctx (node_id (self_ c)) Hctx).
  pose proof (VectorClock.get_wf _ (node_id (self_ c)) (proj1 (localClock_ok c key w))). lia.
Qed.

End Coordinator.
Arguments State S : clear implicits.
Arguments Fanout S : clear implicits.

(** ** Theorems on the clock of a write *)

Section bumped.
Context {S : Type} `{StorageLaws S}.

(** C35: the clock of a new write.  When nothing is pruned and the counter does
    not overflow, it strictly supersedes the client's context, never precedes
    the local version, and supersedes the local version whenever the context
    covers that version's entries of the other nodes. *)
Theorem bumped_clock_supersedes_context c now key ctx (w : World S) :
  VectorClock.wf ctx →
  (bumped_base c key ctx w < U64_MAX)%Z →
  size (VectorClock.set now ctx (node_id (self_ c)) (u64 (bumped_base c key ctx w + 1)))
    ≤ max_clock_entries (defaults_ c) →
  VectorClock.causal_lt ctx (bumpedClock c now key ctx w) ∧
  ¬ VectorClock.causal_le (bumpedClock c now key ctx w) (localClock c key w) ∧
  ((∀ k, k ≠ node_id (self_ c) →
      (VectorClock.get (localClock c key w) k ≤ VectorClock.get ctx k)%Z) →
   VectorClock.causal_lt (localClock c key w) (bumpedClock c now key ctx w)).
Proof.
  intros Hctx Hlt Hsz. pose proof (bumped_base_range c key ctx w Hctx) as Hb.
  pose proof (λ k, bumped_get c now key ctx w k Hsz) as Hget.
  rewrite u64_id in Hget by (unfold is_u64, U64_MAX in *; lia).
  set (id := node_id (self_ c)) in *.
  assert (VectorClock.get (bumpedClock c now key ctx w) id = bumped_base c key ctx w + 1)%Z as Hid.
  { by rewrite Hget, decide_True. }
  assert (VectorClock.get ctx id ≤ bumped_base c key ctx w ∧
          VectorClock.get (localClock c key w) id ≤ bumped_base c key ctx w)%Z as [H1 H2].
  { unfold bumped_base. fold id. lia. }
  split_and!.
  - split; [|exists id; lia]. intros k. rewrite Hget. case_decide; [subst k; lia|lia].
  - intros Hle. specialize (Hle id). lia.
  - intros Hoth. split; [|exists id; lia]. intros k. rewrite Hget. case_decide as Hk; [subst k; lia|].
    apply Hoth. congruence.
Qed.

(** A blind write does not supersede what other coordinators wrote.  With
    an empty context and a local version that carries another node's entry, the
    new clock is concurrent with the local one. *)
Theorem blind_write_is_concurrent c now key (w : World S) other :
  (VectorClock.get (localClock c key w) (node_id (self_ c)) < U64_MAX)%Z →
  1 ≤ max_clock_entries (defaults_ c) →
  is_u64 now →
  other ≠ node_id (self_ c) → (0 < VectorClock.get (localClock c key w) other)%Z →
  VectorClock.compare (bumpedClock c now key ∅ w) (localClock c key w) = VectorClock.CONCURRENT.
Proof.
  intros Hlt Hmax Hnow Hne Hpos.
  assert (bumped_base c key ∅ w = VectorClock.get (localClock c key w) (node_id (self_ c))) as Hbase.
  { unfold bumped_base. pose proof (bumped_base_range c key ∅ w VectorClock.wf_empty) as Hb.
    unfold bumped_base in Hb. change (VectorClock.get ∅ (node_id (self_ c))) with 0%Z in *.
    pose proof (VectorClock.get_wf _ (node_id (self_ c)) (proj1 (localClock_ok c key w))). lia. }
  assert (size (VectorClock.set now ∅ (node_id (self_ c)) (u64 (bumped_base c key ∅ w + 1)))
            ≤ max_clock_entries (defaults_ c)) as Hsz.
  { etransitivity; [|exact Hmax]. unfold VectorClock.set, VectorClock.set_at. case_match.
    - rewrite delete_empty, map_size_empty. lia.
    - rewrite insert_empty, map_size_singleton. lia. }
  pose proof (λ k, bumped_get c now key ∅ w k Hsz) as Hget.
  pose proof (bumped_base_range c key ∅ w VectorClock.wf_empty) as Hb.
  rewrite u64_id in Hget by (unfold is_u64, U64_MAX in *; lia).
  apply (VectorClock.compare_spec _ _ VectorClock.CONCURRENT).
  - unfold bumpedClock. apply VectorClock.wf_prune, VectorClock.wf_set_at; [auto with dynamo|done|apply VectorClock.wf_empty].
  - apply localClock_ok.
  - split; intros Hle.
    + specialize (Hle (node_id (self_ c))). rewrite Hget, decide_True in Hle by done. lia.
    + specialize (Hle other). rewrite Hget, decide_False in Hle by congruence.
      change (VectorClock.get ∅ other) with 0%Z in Hle. lia.
Qed.

End bumped.

(** *** A concrete cluster *)

Abbreviation store := (gmap string string).

Definition config (max : nat) : QuorumConfig := mkConfig 3 2 2 max.
Definition at_node1 : Coordinator := mkCoordinator Router.n1 Router.r3 (config 20) None.
Definition boot : World store := {[ addr Router.n1 := ∅; addr Router.n2 := ∅; addr Router.n3 := ∅ ]}.
Definition holding (n : NodeInfo) (key : string) (v : VersionedValue) (w : World store) : World store :=
  alter (Storage.put key (serialize v)) (addr n) w.

Definition by_node2 : VersionedValue := mkVV "theirs" (VectorClock.set_at ∅ "node2" 1 40) false.

Lemma bumped_clock_supersedes_context_witness :
  VectorClock.causal_lt (clock by_node2) (bumpedClock at_node1 50 "k" (clock by_node2) (holding Router.n1 "k" by_node2 boot)).
Proof.
  apply (bumped_clock_supersedes_context at_node1 50 "k" (clock by_node2) (holding Router.n1 "k" by_node2 boot)).
  - vm_decide.
  - vm_compute. reflexivity.
  - apply (bool_decide_unpack _). vm_compute. exact I.
Defined.

Lemma blind_write_is_concurrent_witness :
  VectorClock.compare (bumpedClock at_node1 50 "k" ∅ (holding Router.n1 "k" by_node2 boot))
    (localClock at_node1 "k" (holding Router.n1 "k" by_node2 boot)) = VectorClock.CONCURRENT.
Proof.
  apply (blind_write_is_concurrent at_node1 50 "k" (holding Router.n1 "k" by_node2 boot) "node2").
  - vm_compute. reflexivity.
  - vm_decide.
  - vm_decide.
  - vm_decide.
  - vm_compute. reflexivity.
Defined.

(** Pruning can drop the entry of the write being coordinated.  With the
    clock full and the other entry stamped in the same millisecond, the order of
    the ids decides, and the new clock equals the context it should supersede. *)
Theorem own_entry_can_be_pruned :
  let c := mkCoordinator Router.n1 Router.r3 (config 1) None in
  let ctx := VectorClock.set_at ∅ "node2" 1 50 in
  VectorClock.get (bumpedClock c 50 "k" ctx boot) "node1" = 0%Z ∧
  VectorClock.compare (bumpedClock c 50 "k" ctx boot) ctx = VectorClock.EQUAL.
Proof. vm_compute. split; reflexivity. Qed.

(** A context whose counter is the largest 64-bit value makes the bump
    wrap to zero, which erases the coordinator's entry: the new clock precedes
    the context. *)
Theorem counter_overflow_erases_entry :
  let ctx := VectorClock.set_at (VectorClock.set_at ∅ "node2" 1 50) "node1" U64_MAX 40 in
  VectorClock.compare (bumpedClock at_node1 60 "k" ctx boot) ctx = VectorClock.B_DOMINATES.
Proof. vm_compute. reflexivity. Qed.

(** ** Reconciliation keeps exactly the maximal versions *)

Section maximal.

Definition clock_le (a b : VersionedValue) : Prop := VectorClock.causal_le (clock a) (clock b).

Definition found_versions (responses : list Resp) : list VersionedValue :=
  resp_vv <$> filter (λ r, resp_found r = true) responses.

(** Not strictly dominated within [l]. *)
Definition undominated (l : list VersionedValue) (v : VersionedValue) : bool :=
  negb (existsb (λ other, bool_decide
    (VectorClock.compare (clock other) (clock v) = VectorClock.A_DOMINATES)) l).

Lemma undominated_spec l v :
  Forall vv_ok l → vv_ok v →
  undominated l v = true ↔ ∀ o, o ∈ l → ¬ VectorClock.causal_lt (clock v) (clock o).
Proof.
  intros Hl Hv. unfold undominated. rewrite negb_true_iff, <- not_true_iff_false, existsb_exists.
  rewrite list.Forall_forall in Hl. split.
  - intros Hn o Ho Hlt. apply Hn. exists o. split; [by apply list_elem_of_In|].
    apply bool_decide_eq_true. apply compare_dominates; [by apply Hl|done..].
  - intros Hn (o & Ho%list_elem_of_In & Hc%bool_decide_eq_true).
    apply (Hn o Ho). apply compare_dominates; [by apply Hl|done..].
Qed.

(** Above every version there is an undominated one. *)
Lemma undominated_above l v :
  Forall vv_ok l → v ∈ l → ∃ m, m ∈ l ∧ undominated l m = true ∧ clock_le v m.
Proof.
  intros Hl. pose proof Hl as Hok. rewrite list.Forall_forall in Hok.
  remember (length (filter (λ o, VectorClock.compare (clock o) (clock v) = VectorClock.A_DOMINATES) l)) as n eqn:Hn.
  revert v Hn. induction (lt_wf n) as [n _ IH]. intros v Hn Hv.
  destruct (undominated l v) eqn:Hu; [exists v; split_and!; [done..|]; unfold clock_le; reflexivity|].
  unfold undominated in Hu. rewrite negb_false_iff, existsb_exists in Hu.
  destruct Hu as (o & Ho%list_elem_of_In & Hc%bool_decide_eq_true).
  assert (VectorClock.causal_lt (clock v) (clock o)) as Hlt.
  { apply compare_dominates in Hc; [done|by apply Hok..]. }
  edestruct (IH (length (filter (λ x, VectorClock.compare (clock x) (clock o) = VectorClock.A_DOMINATES) l)))
    as (m & Hm & Hum & Hle); [|reflexivity|exact Ho|].
  - subst n. apply filter_length_lt with o; [|done| |done].
    + intros x Hx Hxo. apply compare_dominates in Hxo; [|by apply Hok..].
      apply compare_dominates; [by apply Hok..|]. unfold superseded in *. by etransitivity.
    + intros Hoo. apply compare_dominates in Hoo; [|by apply Hok..]. destruct Hoo as [_ [k Hk]]. lia.
  - exists m. split_and!; [done..|]. unfold clock_le in *. transitivity (clock o); [apply Hlt|done].
Qed.

(** The accumulating loop, over the rest [l] of [all]. *)
Definition maximal_loop (all acc l : list VersionedValue) : list VersionedValue :=
  foldl (λ maximal cand,
    if existsb (λ other, bool_decide
         (VectorClock.compare (clock other) (clock cand) = VectorClock.A_DOMINATES)) all
    then maximal
    else if existsb (λ m, bool_decide
         (VectorClock.compare (clock m) (clock cand) = VectorClock.EQUAL)) maximal
    then maximal
    else maximal ++ [cand]) acc l.

(** Distinct positions hold causally different clocks. *)
Definition distinct_clocks (l : list VersionedValue) : Prop :=
  ∀ i j a b, l !! i = Some a → l !! j = Some b → VectorClock.causal_eq (clock a) (clock b) → i = j.

Lemma distinct_clocks_snoc l v :
  distinct_clocks l → (∀ m, m ∈ l → ¬ VectorClock.causal_eq (clock m) (clock v)) →
  distinct_clocks (l ++ [v]).
Proof.
  intros Hl Hv i j a b Hi Hj Hab.
  apply lookup_app_Some in Hi as [Hi|[Hi0 Hi]], Hj as [Hj|[Hj0 Hj]].
  - by eapply Hl.
  - apply list_lookup_singleton_Some in Hj as [_ <-]. destruct (Hv a); [by eapply list_elem_of_lookup_2|done].
  - apply list_lookup_singleton_Some in Hi as [_ <-].
    destruct (Hv b); [by eapply list_elem_of_lookup_2|by symmetry].
  - apply list_lookup_singleton_Some in Hi as [? _], Hj as [? _]. lia.
Qed.

Lemma maximal_loop_spec all acc l :
  Forall vv_ok all → Forall vv_ok acc → Forall vv_ok l → distinct_clocks acc →
  let res := maximal_loop all acc l in
  distinct_clocks res ∧ acc ⊆ res ∧
  (∀ x, x ∈ res → x ∈ acc ∨ (x ∈ l ∧ undominated all x = true)) ∧
  (∀ x, x ∈ l → undominated all x = true →
        ∃ m, m ∈ res ∧ VectorClock.causal_eq (clock x) (clock m)).
Proof.
  intros Hall. revert acc. induction l as [|v l IH]; intros acc Hacc Hl Hd; cbn zeta.
  { split_and!; [done..|by left|]. intros x Hx. by apply elem_of_nil in Hx. }
  apply list.Forall_cons in Hl as [Hv Hl]. unfold maximal_loop. cbn [foldl].
  fold (maximal_loop all). destruct (existsb _ all) eqn:Hdom.
  { destruct (IH acc Hacc Hl Hd) as (H1 & H2 & H3 & H4). split_and!; [done..| |].
    { intros x [?|[? ?]]%H3; [by left|right]. split; [by apply elem_of_cons; right|done]. }
    intros x [->|Hx]%elem_of_cons Hu; [|by apply H4]. unfold undominated in Hu. by rewrite Hdom in Hu. }
  assert (undominated all v = true) as Huv by (unfold undominated; by rewrite Hdom).
  rewrite list.Forall_forall in Hacc. destruct (existsb _ acc) eqn:Hdup.
  - apply existsb_exists in Hdup as (m & Hm%list_elem_of_In & Hc%bool_decide_eq_true).
    apply VectorClock.compare_spec in Hc; [|by apply vv_ok_wf; auto..].
    destruct (IH acc) as (H1 & H2 & H3 & H4); [by apply list.Forall_forall|done..|].
    split_and!; [done..| |].
    { intros x [?|[? ?]]%H3; [by left|right]. split; [by apply elem_of_cons; right|done]. }
    intros x [->|Hx]%elem_of_cons Hu; [|by apply H4]. exists m. split; [by apply H2|]. by symmetry.
  - assert (∀ m, m ∈ acc → ¬ VectorClock.causal_eq (clock m) (clock v)) as Hne.
    { intros m Hm He. apply not_true_iff_false in Hdup. apply Hdup, existsb_exists.
      exists m. split; [by apply list_elem_of_In|]. apply bool_decide_eq_true.
      apply VectorClock.compare_spec; [by apply vv_ok_wf; auto..|done]. }
    destruct (IH (acc ++ [v])) as (H1 & H2 & H3 & H4);
      [apply Forall_app; split; [by apply list.Forall_forall|by constructor]|done
      |by apply distinct_clocks_snoc|].
    split_and!; [done|set_solver| |].
    + intros x [[Hx|Hx]%elem_of_app|[Hx Hu]]%H3; [by left|right|right; set_solver].
      apply list_elem_of_singleton in Hx as ->. set_solver.
    + intros x [->|Hx]%elem_of_cons Hu; [|by apply H4]. exists v. split; [set_solver|]. reflexivity.
Qed.

(** What reconciliation computes from well-formed responses. *)
Lemma maximal_facts responses :
  Forall vv_ok (found_versions responses) →
  let M := maximalVersions responses in
  (∀ m, m ∈ M → m ∈ found_versions responses) ∧
  (∀ v, v ∈ found_versions responses → ∃ m, m ∈ M ∧ clock_le v m) ∧
  (∀ i j a b, M !! i = Some a → M !! j = Some b → clock_le a b → i = j).
Proof.
  intros Hok. cbn zeta. set (all := found_versions responses) in *.
  destruct (maximal_loop_spec all [] all) as (H1 & _ & H3 & H4); [done|constructor|done|by intros ?|].
  change (maximal_loop all [] all) with (maximalVersions responses) in *.
  assert (∀ m, m ∈ maximalVersions responses → m ∈ all ∧ undominated all m = true) as Hin.
  { intros m [Hm|Hm]%H3; [by apply elem_of_nil in Hm|done]. }
  pose proof Hok as Hok'. rewrite list.Forall_forall in Hok'. split_and!.
  - intros m Hm. by apply Hin.
  - intros v Hv. destruct (undominated_above all v Hok Hv) as (u & Hu & Hund & Hle).
    destruct (H4 u Hu Hund) as (m & Hm & Heq). exists m. split; [done|].
    unfold clock_le in *. by rewrite <- Heq.
  - intros i j a b Hi Hj Hle. eapply H1; [done..|].
    destruct (Hin a) as [Ha Hua]; [by eapply list_elem_of_lookup_2|].
    destruct (Hin b) as [Hb _]; [by eapply list_elem_of_lookup_2|].
    rewrite undominated_spec in Hua by auto. apply (anti_symm VectorClock.causal_le); [exact Hle|].
    intros k. destruct (Z.le_gt_cases (VectorClock.get (clock b) k) (VectorClock.get (clock a) k)); [done|].
    exfalso. apply (Hua b Hb). split; [exact Hle|]. exists k. lia.
Qed.

(** C11: reconciliation returns the maximal elements of the versions received:
    each is one of them, every received version is at or below one of them, and
    no two of them are ordered, so more than one means a real conflict. *)
Theorem maximal_versions_are_the_siblings responses :
  Forall vv_ok (found_versions responses) →
  let M := maximalVersions responses in
  (∀ m, m ∈ M → m ∈ found_versions responses) ∧
  (∀ v, v ∈ found_versions responses → ∃ m, m ∈ M ∧ clock_le v m) ∧
  (∀ i j a b, M !! i = Some a → M !! j = Some b → i ≠ j →
     VectorClock.compare (clock a) (clock b) = VectorClock.CONCURRENT).
Proof.
  intros Hok. destruct (maximal_facts responses Hok) as (H1 & H2 & H3). split_and!; [done..|].
  rewrite list.Forall_forall in Hok. intros i j a b Hi Hj Hij.
  apply VectorClock.compare_spec; [apply vv_ok_wf, Hok, H1; by eapply list_elem_of_lookup_2..|].
  split; intros Hle; apply Hij; [by eapply H3|symmetry; by eapply H3].
Qed.

Lemma maximal_versions_are_the_siblings_witness :
  maximalVersions [mkResp Router.n1 true v1; mkResp Router.n2 true v2; mkResp Router.n3 false no_value] = [v2] ∧
  ∃ m, m ∈ maximalVersions [mkResp Router.n1 true v1; mkResp Router.n2 true v2; mkResp Router.n3 false no_value]
       ∧ clock_le v1 m.
Proof.
  split; [vm_compute; reflexivity|].
  apply (maximal_versions_are_the_siblings
    [mkResp Router.n1 true v1; mkResp Router.n2 true v2; mkResp Router.n3 false no_value]); vm_decide.
Defined.

End maximal.

End Coordinator.
