(* ===== verification/Quorum.v ===== *)
(** * Quorum writes and reads as concurrent runs (src/coordinator.cpp)

    [writeQuorum] and [coordinateGet] spawn one thread per remote target and
    wait on a condition variable until the quorum is met, every thread is done
    or the deadline passes.  A run is the shared accumulator, the threads still
    calling their replica, the threads that have an answer and still have to
    take the lock, the waiting call and its result.  Each event is one atomic
    step: a call returns, a thread takes the lock, the waiter wakes, a
    background repair runs, another coordinator's REPLICATE is applied somewhere,
    or any other thread of any process puts a version into its store.

    Every change of a store in the code is such a put.  [applyReplicate] reads and
    then puts without a lock; one whose put comes later than its test is a [Store]
    event, and for a replica call of the run itself a [Store] followed by the call,
    which then finds its own version.  What a theorem allows other threads to do is
    [friendly]: they must not put, over a version at least as new as the write, one
    that is not.  REPLICATEs applied in one step, and the repairs of reads that began
    after the write was acknowledged, are friendly; a local repair by an older read
    and racing REPLICATEs need not be, and two theorems show what they then do.

    The theorems: an acknowledged write was stored by W processes, less one for every
    dead owner beyond the first, and is still there under friendly interference; a
    read quorum that overlaps it returns it, also after any number of other reads;
    the waiter never waits for a thread that is gone; and what goes wrong when two
    owners are down, when a local repair meets a newer write, when REPLICATEs race. *)
From S2P Require Import Prelude Base64 Clock Value Storage Ring Metrics Hints Wire Coordinator.
From Stdlib Require Import Ascii String ZArith Lia.
From stdpp Require Import base gmap list strings numbers.
Import VersionedValue replica_ops Coordinator.

Section runs.
Context {S : Type} `{StorageLaws S} {F : Type} `{!ReplicaClient S F}.

(** ** Writes *)

Record WriteRequest := mkWriteRequest {
  wr_key : string;
  wr_vv : VersionedValue;
  wr_W : Z;
  wr_op : Op;
  remoteCount : nat;
}.

Record WriteRun := mkWriteRun {
  w_state : State S;
  acks : Z;
  completed : nat;
  calling : list NodeInfo;
  returned : list (NodeInfo * bool);
  result : option PutResult;
}.

Inductive Event :=
| Call (i : nat) (f : F)
| Record_ (i : nat)
| Wake (deadline : bool)
| Repair (i : nat) (f : F)
| Foreign (a : Addr) (k : string) (v : VersionedValue)
| Store (a : Addr) (k : string) (v : VersionedValue).

(** [storage_->put] by a thread of the process at [a]. *)
Definition put_at (a : Addr) (k : string) (v : VersionedValue) (w : World S) : World S :=
  alter (put k (serialize v)) a w.

Inductive Started :=
| Refused (res : PutResult) (st : State S)
| Running (req : WriteRequest) (run : WriteRun).

(** [writeQuorum] up to the wait; [None] when [findOwners] does not return. *)
Definition writeQuorum (c : Coordinator) (steady : Z) (key : string) (vv : VersionedValue) (N W : Z)
  (op : Op) (st : State S) : option Started :=
  match Router.findOwners (router_ c) key N with
  | None => None
  | Some [] =>
      Some (Refused (mkPut false ∅ "no_nodes_in_ring")
              (with_metrics (InMemoryMetrics.incQuorumFailure op (metrics_ st)) st))
  | Some owners =>
      let fan := write_fanout c steady key vv owners st in
      Some (Running (mkWriteRequest key vv W op (length (remotes fan)))
              (mkWriteRun (fan_state fan) (localAcks fan) 0 (remotes fan) [] None))
  end.

Definition coordinatePut (c : Coordinator) (now steady : Z) (key value : string)
  (context : VectorClock.clock) (N W : Z) (st : State S) : option Started :=
  writeQuorum c steady key (mkVV value (bumpedClock c now key context (world st)) false) N W Metrics.Put st.

Definition coordinateDelete (c : Coordinator) (now steady : Z) (key : string)
  (context : VectorClock.clock) (N W : Z) (st : State S) : option Started :=
  writeQuorum c steady key (mkVV "" (bumpedClock c now key context (world st)) true) N W Metrics.Delete st.

(** The predicate of [wait_until]. *)
Definition write_done (req : WriteRequest) (r : WriteRun) : bool :=
  (wr_W req <=? acks r)%Z || bool_decide (completed r = remoteCount req).

Definition write_step (req : WriteRequest) (e : Event) (r : WriteRun) : option WriteRun :=
  match e with
  | Call i f =>
      match calling r !! i with
      | None => None
      | Some peer =>
          let '(w, ok) := writeReplica f peer (wr_key req) (wr_vv req) (world (w_state r)) in
          Some (mkWriteRun (with_world w (w_state r)) (acks r) (completed r)
                  (delete i (calling r)) (returned r ++ [(peer, ok)]) (result r))
      end
  | Record_ i =>
      match (returned r !! i : option (NodeInfo * bool)) with
      | None => None
      | Some (_, ok) =>
          Some (mkWriteRun (w_state r) (if ok then acks r + 1 else acks r)%Z (1 + completed r)
                  (calling r) (delete i (returned r)) (result r))
      end
  | Wake deadline =>
      match result r with
      | Some _ => None
      | None =>
          if deadline || write_done req r then
            let finalAcks := acks r in
            let m := metrics_ (w_state r) in
            let '(res, m') :=
              if (wr_W req <=? finalAcks)%Z
              then (mkPut true (clock (wr_vv req)) "", InMemoryMetrics.incQuorumSuccess (wr_op req) m)
              else (mkPut false ∅ "quorum_not_met", InMemoryMetrics.incQuorumFailure (wr_op req) m) in
            Some (mkWriteRun (with_metrics m' (w_state r)) (acks r) (completed r) (calling r)
                    (returned r) (Some res))
          else None
      end
  | Repair _ _ => None
  | Foreign a k v =>
      Some (mkWriteRun (with_world (apply_at a k v (world (w_state r))) (w_state r)) (acks r)
              (completed r) (calling r) (returned r) (result r))
  | Store a k v =>
      Some (mkWriteRun (with_world (put_at a k v (world (w_state r))) (w_state r)) (acks r)
              (completed r) (calling r) (returned r) (result r))
  end.

(** ** Reads *)

Record ReadRun := mkReadRun {
  r_state : State S;
  responses : list Resp;
  r_completed : nat;
  r_calling : list NodeInfo;
  r_returned : list (NodeInfo * ReplicaReadResult);
  snapshot : option (list Resp);
  r_result : option GetResult;
  repairs : list (NodeInfo * VersionedValue);
}.

Record ReadRequest := mkReadRequest {
  rd_self : Coordinator;
  rd_key : string;
  rd_R : Z;
  rd_remoteCount : nat;
}.

Definition coordinateGet (c : Coordinator) (key : string) (N R : Z) (st : State S)
  : option ((GetResult * State S) + (ReadRequest * ReadRun)) :=
  match Router.findOwners (router_ c) key N with
  | None => None
  | Some [] =>
      Some (inl (mkGet ERROR [] "no_nodes_in_ring",
                 with_metrics (InMemoryMetrics.incQuorumFailure Metrics.Get (metrics_ st)) st))
  | Some owners =>
      let fan := read_fanout c key owners (world st) in
      Some (inr (mkReadRequest c key R (length (read_remotes fan)),
                 mkReadRun st (read_responses fan) 0 (read_remotes fan) [] None None []))
  end.

Definition read_done (req : ReadRequest) (r : ReadRun) : bool :=
  (rd_R req <=? Z.of_nat (length (responses r)))%Z || bool_decide (r_completed r = rd_remoteCount req).

Definition read_step (req : ReadRequest) (e : Event) (r : ReadRun) : option ReadRun :=
  match e with
  | Call i f =>
      match r_calling r !! i with
      | None => None
      | Some peer =>
          let '(w, rr) := readReplica f peer (rd_key req) (world (r_state r)) in
          Some (mkReadRun (with_world w (r_state r)) (responses r) (r_completed r)
                  (delete i (r_calling r)) (r_returned r ++ [(peer, rr)]) (snapshot r)
                  (r_result r) (repairs r))
      end
  | Record_ i =>
      match (r_returned r !! i : option (NodeInfo * ReplicaReadResult)) with
      | None => None
      | Some (peer, rr) =>
          let resp := if read_ok rr then [mkResp peer (found rr) (read_value rr)] else [] in
          Some (mkReadRun (r_state r) (responses r ++ resp) (1 + r_completed r) (r_calling r)
                  (delete i (r_returned r)) (snapshot r) (r_result r) (repairs r))
      end
  | Wake deadline =>
      match r_result r with
      | Some _ => None
      | None =>
          if deadline || read_done req r then
            let '(res, st, bg) :=
              finish_get (rd_self req) (rd_key req) (rd_R req) (responses r) (r_state r) in
            Some (mkReadRun st (responses r) (r_completed r) (r_calling r) (r_returned r)
                    (Some (responses r)) (Some res) bg)
          else None
      end
  | Repair i f =>
      match (repairs r !! i : option (NodeInfo * VersionedValue)) with
      | None => None
      | Some (peer, v) =>
          let '(w, _) := writeReplica f peer (rd_key req) v (world (r_state r)) in
          Some (mkReadRun (with_world w (r_state r)) (responses r) (r_completed r) (r_calling r)
                  (r_returned r) (snapshot r) (r_result r) (delete i (repairs r)))
      end
  | Foreign a k v =>
      Some (mkReadRun (with_world (apply_at a k v (world (r_state r))) (r_state r)) (responses r)
              (r_completed r) (r_calling r) (r_returned r) (snapshot r) (r_result r) (repairs r))
  | Store a k v =>
      Some (mkReadRun (with_world (put_at a k v (world (r_state r))) (r_state r)) (responses r)
              (r_completed r) (r_calling r) (r_returned r) (snapshot r) (r_result r) (repairs r))
  end.

(** Schedules, for concrete executions. *)
Definition write_run (req : WriteRequest) (es : list Event) (r : WriteRun) : option WriteRun :=
  foldl (λ o e, o ≫= write_step req e) (Some r) es.
Definition read_run (req : ReadRequest) (es : list Event) (r : ReadRun) : option ReadRun :=
  foldl (λ o e, o ≫= read_step req e) (Some r) es.
End runs.

(** ** Copies that are at least as new as a clock *)

Section holds.
Context {S : Type} `{StorageLaws S} {F : Type} `{!ReplicaClient S F, !ReplicaLaws S F}.

Definition holds (w : World S) (n : NodeInfo) (key : string) (c : VectorClock.clock) : Prop :=
  ∃ r, copy w n key = Some r ∧ VectorClock.causal_le c (clock r).

Definition comparable (a b : VectorClock.clock) : Prop :=
  VectorClock.causal_le a b ∨ VectorClock.causal_le b a.

(** Interference that the guarantees of a write with clock [c] tolerate.  A version
    of the key may be replicated anywhere as long as it is not concurrent with the
    write, and put anywhere as long as it does not replace a version at least as new
    as the write by one that is not; versions of other keys without restriction. *)
Definition friendly (key : string) (c : VectorClock.clock) (w : World S) (e : @Event F) : Prop :=
  match e with
  | Foreign _ k v => vv_ok v ∧ (k = key → comparable c (clock v) ∧ readable v)
  | Store a k v => vv_ok v ∧ (k = key → readable v ∧
      ∀ n, addr n = a → holds w n key c → VectorClock.causal_le c (clock v))
  | _ => True
  end.

Lemma copy_put_at a k v w n k' :
  vv_ok v →
  copy (put_at a k v w) n k' = if decide (addr n = a ∧ k' = k ∧ is_Some (w !! addr n)) then Some v else copy w n k'.
Proof.
  intros Hv. unfold copy, put_at. rewrite lookup_alter. destruct (decide (a = addr n)) as [->|Ha].
  - destruct (w !! addr n) as [s|] eqn:E; cbn.
    + rewrite readLocal_put by done. repeat case_decide; naive_solver.
    + rewrite decide_False; [done|]. intros (_ & _ & [? ?]). congruence.
  - rewrite decide_False by naive_solver. done.
Qed.

Lemma holds_put_at c a k v w n key :
  vv_ok v → (k = key → ∀ n, addr n = a → holds w n key c → VectorClock.causal_le c (clock v)) →
  holds w n key c → holds (put_at a k v w) n key c.
Proof.
  intros Hv Hc Hh. unfold holds. rewrite copy_put_at by done. case_decide as Hd; [|exact Hh].
  destruct Hd as (Ha & <- & _). exists v. split; [done|]. by eapply Hc.
Qed.

Lemma keep_ge_new old v :
  (∀ l, old = Some l → vv_ok l) → vv_ok v → VectorClock.causal_le (clock v) (clock (keep old v)).
Proof.
  intros Hold Hv. unfold keep. destruct old as [l|]; [|reflexivity]. case_decide as Hc; [|reflexivity].
  apply compare_dominates in Hc; [|by auto..]. by destruct Hc.
Qed.

Lemma keep_ge_old c l v :
  vv_ok l → vv_ok v → VectorClock.causal_le c (clock l) → comparable c (clock v) →
  VectorClock.causal_le c (clock (keep (Some l) v)).
Proof.
  intros Hl Hv Hcl Hcmp. cbn. case_decide as Hc; [done|]. destruct Hcmp as [Hle|Hle]; [done|].
  rewrite compare_dominates in Hc by done. intros k.
  destruct (Z.le_gt_cases (VectorClock.get c k) (VectorClock.get (clock v) k)) as [?|Hgt]; [done|].
  exfalso. apply Hc. split; [by transitivity c|]. exists k. specialize (Hcl k). lia.
Qed.

(** The two ways a version arrives at a process. *)
Lemma holds_apply_at c a k v w n key :
  vv_ok v → (k = key → comparable c (clock v)) → holds w n key c → holds (apply_at a k v w) n key c.
Proof.
  intros Hv Hcmp (r & Hr & Hle). unfold holds. rewrite copy_apply_at by done.
  case_decide as Hd; [|by exists r]. destruct Hd as (_ & <- & _). eexists. split; [done|].
  rewrite Hr. apply keep_ge_old; [by eapply copy_ok|done|done|by apply Hcmp].
Qed.

Lemma holds_write c f p key v w n :
  str_free "|" key = true → vv_ok v → comparable c (clock v) → holds w n key c →
  holds (writeReplica f p key v w).1 n key c.
Proof using All.
  intros Hk Hv Hcmp (r & Hr & Hle). unfold holds.
  destruct (write_copy f p key v w n key Hk Hv) as [->|(_ & _ & Hc)]; [by exists r|].
  rewrite Hc. eexists. split; [done|]. rewrite Hr.
  apply (keep_ge_old c r (on_wire v)); [by eapply copy_ok|done..].
Qed.

Lemma holds_acked f p key v w :
  str_free "|" key = true → vv_ok v → (writeReplica f p key v w).2 = true →
  holds (writeReplica f p key v w).1 p key (clock v).
Proof using All.
  intros Hk Hv Hok. unfold holds. rewrite write_ok by done. eexists. split; [done|].
  apply (keep_ge_new _ (on_wire v)); [|done]. intros l. apply copy_ok.
Qed.

(** A friendly event keeps every copy that is as new as the write. *)
Lemma holds_friendly req e r r' n :
  str_free "|" (wr_key req) = true → vv_ok (wr_vv req) →
  friendly (wr_key req) (clock (wr_vv req)) (world (w_state r)) e → write_step req e r = Some r' →
  holds (world (w_state r)) n (wr_key req) (clock (wr_vv req)) →
  holds (world (w_state r')) n (wr_key req) (clock (wr_vv req)).
Proof using All.
  intros Hk Hv Hf Hs Hh. destruct e as [i f|i|d|i f|a k v|a k v]; cbn in Hs.
  - destruct (calling r !! i) as [p|]; [|done].
    pose proof (holds_write (clock (wr_vv req)) f p (wr_key req) (wr_vv req) _ n Hk Hv
                  (or_introl (reflexivity _)) Hh) as Hh'.
    destruct writeReplica. by injection Hs as <-.
  - destruct (returned r !! i) as [[p ok]|]; [|done]. by injection Hs as <-.
  - destruct (result r); [done|]. destruct (d || write_done req r); [|done].
    by destruct (wr_W req <=? acks r)%Z; injection Hs as <-.
  - done.
  - injection Hs as <-. destruct Hf as [Hvok Hcmp]. apply holds_apply_at; [done| |done].
    intros E. by destruct (Hcmp E).
  - injection Hs as <-. destruct Hf as [Hvok Hcmp]. apply holds_put_at; [done| |done].
    intros E. by destruct (Hcmp E).
Qed.

(** ** The invariant of a quorum write

    [P] is what is known of the processes that acknowledged. *)

Record write_inv (req : WriteRequest) (local : Z) (targets : list NodeInfo) (P : NodeInfo → Prop)
    (r : @WriteRun S) : Prop := {
  wi_threads : ∃ yes no,
    targets ≡ₚ calling r ++ (returned r).*1 ++ yes ++ no ∧
    acks r = (local + Z.of_nat (length yes))%Z ∧ completed r = length yes + length no ∧
    (∀ p, p ∈ yes → P p);
  wi_returned : ∀ p, (p, true) ∈ returned r → P p;
  wi_result : ∀ res, result r = Some res → put_ok res = true →
    (wr_W req ≤ acks r)%Z ∧ put_clock res = clock (wr_vv req);
}.

Lemma write_inv_mono req local ts (P Q : NodeInfo → Prop) r :
  (∀ p, P p → Q p) → write_inv req local ts P r → write_inv req local ts Q r.
Proof.
  intros Hpq [(yes & no & Hp & Ha & Hc & Hy) Hr Hres]. split; [|by auto|done]. exists yes, no. split_and!; [done..|by auto].
Qed.

(** The stores may change in any way. *)
Lemma write_inv_world req local ts P r w' :
  write_inv req local ts P r →
  write_inv req local ts P (mkWriteRun (with_world w' (w_state r)) (acks r) (completed r) (calling r)
                              (returned r) (result r)).
Proof. by intros [Hth Hr Hres]. Qed.

Lemma write_inv_call req local ts (P : NodeInfo → Prop) r i p (ok : bool) :
  calling r !! i = Some p → (ok = true → P p) →
  write_inv req local ts P r →
  write_inv req local ts P (mkWriteRun (w_state r) (acks r) (completed r) (delete i (calling r))
                              (returned r ++ [(p, ok)]) (result r)).
Proof.
  intros Hi Hok [(yes & no & Hp & Ha & Hc & Hy) Hr Hres]. split; cbn; [| |done].
  - exists yes, no. split_and!; [|done..]. rewrite (delete_Permutation _ _ _ Hi) in Hp. rewrite Hp, fmap_app. cbn.
    solve_Permutation.
  - intros q [Hq|Hq]%elem_of_app; [by auto|]. apply list_elem_of_singleton in Hq as [= -> <-]. by auto.
Qed.

Lemma write_inv_record req local ts P r i p (ok : bool) :
  returned r !! i = Some (p, ok) →
  write_inv req local ts P r →
  write_inv req local ts P (mkWriteRun (w_state r) (if ok then acks r + 1 else acks r)%Z
                              (1 + completed r) (calling r) (delete i (returned r)) (result r)).
Proof.
  intros Hi [(yes & no & Hp & Ha & Hc & Hy) Hr Hres]. pose proof (delete_Permutation _ _ _ Hi) as Hd.
  split; cbn.
  - rewrite Hd in Hp. destruct ok; [exists (p :: yes), no|exists yes, (p :: no)];
      (split_and!; [rewrite Hp; cbn; solve_Permutation|cbn; lia|cbn; lia|]).
    + intros q [->|Hq]%elem_of_cons; [|by auto]. apply Hr. by eapply list_elem_of_lookup_2.
    + done.
  - intros q Hq. apply Hr. rewrite Hd. by apply elem_of_cons; right.
  - intros res Hs Ho. destruct (Hres res Hs Ho). split; [|done]. destruct ok; lia.
Qed.

(** Any event, whatever other threads do: what a process must have done to be
    counted is to hold the version when it acknowledges. *)
Lemma write_inv_step req local ts (P Q : NodeInfo → Prop) e r r' :
  str_free "|" (wr_key req) = true → vv_ok (wr_vv req) → write_step req e r = Some r' →
  (∀ p, P p → Q p) → (∀ p, holds (world (w_state r')) p (wr_key req) (clock (wr_vv req)) → Q p) →
  write_inv req local ts P r → write_inv req local ts Q r'.
Proof using All.
  intros Hk Hv Hs Hpq Hq Hinv. apply (write_inv_mono _ _ _ P Q) in Hinv; [|done]. clear P Hpq.
  destruct e as [i f|i|d|i f|a k v|a k v]; cbn in Hs.
  - destruct (calling r !! i) as [p|] eqn:Hi; [|done].
    pose proof (holds_acked f p (wr_key req) (wr_vv req) (world (w_state r)) Hk Hv) as Hack.
    destruct (writeReplica f p (wr_key req) (wr_vv req) (world (w_state r))) as [w ok]. cbn in *.
    injection Hs as <-. apply (write_inv_world _ _ _ _ _ w) in Hinv.
    apply (write_inv_call _ _ _ _ _ i p ok) in Hinv; [done..|]. intros Ho. by apply Hq, Hack.
  - destruct (returned r !! i) as [[p ok]|] eqn:Hi; [|done]. injection Hs as <-.
    by apply write_inv_record with p.
  - destruct (result r) eqn:Hr; [done|]. destruct (d || write_done req r); [|done].
    destruct Hinv as [Hth Hret Hres]. destruct (Z.leb_spec (wr_W req) (acks r)) as [Hle|Hle];
      injection Hs as <-; split; cbn; try done; intros res [= <-]; done.
  - done.
  - injection Hs as <-. by apply write_inv_world.
  - injection Hs as <-. by apply write_inv_world.
Qed.

End holds.

(** ** The targets of a write *)

Section targets.
Context {S : Type} `{StorageLaws S}.

Definition is_self (c : Coordinator) (o : NodeInfo) : Prop := node_id o = node_id (self_ c).

#[global] Instance is_self_dec c o : Decision (is_self c o).
Proof. unfold is_self. apply _. Defined.

Definition remote_target (c : Coordinator) (owners : list NodeInfo) (o : NodeInfo) : option NodeInfo :=
  if decide (is_self c o) then None
  else if known_dead c (node_id o) then standin c owners o
  else Some o.

Lemma write_fanout_targets c steady key vv owners l (fan : Fanout S) :
  let fan' := foldl (write_owner c steady key vv owners) fan l in
  remotes fan' = remotes fan ++ omap (remote_target c owners) l ∧
  localAcks fan' = (localAcks fan + Z.of_nat (length (filter (is_self c) l)))%Z.
Proof.
  revert fan. induction l as [|o l IH]; intros fan; cbn zeta; cbn [foldl].
  { cbn. rewrite app_nil_r. split; [done|lia]. }
  destruct (IH (write_owner c steady key vv owners fan o)) as [-> ->]. clear IH. rewrite filter_cons.
  unfold write_owner. cbn [omap list_omap]. unfold remote_target at 2, is_self at 2 3.
  destruct (String.eqb_spec (node_id o) (node_id (self_ c))).
  - rewrite !decide_True by done. cbn. split; [done|lia].
  - rewrite !decide_False by done. destruct (known_dead c (node_id o)); cbn.
    + split; [|done]. destruct (standin c owners o); [by rewrite <- app_assoc|done].
    + split; [by rewrite <- app_assoc|done].
Qed.

(** The fan-out loop stores the value locally when this node is an owner and
    touches no other process. *)
Lemma write_fanout_world c steady key vv owners l (fan : Fanout S) :
  vv_ok vv → is_Some (world (fan_state fan) !! addr (self_ c)) →
  (copy (world (fan_state fan)) (self_ c) key = Some vv ∨ Exists (is_self c) l) →
  copy (world (fan_state (foldl (write_owner c steady key vv owners) fan l))) (self_ c) key = Some vv.
Proof.
  intros Hv. revert fan. induction l as [|o l IH]; intros fan Hs Hor; cbn [foldl].
  { destruct Hor as [?|He]; [done|]. by apply List.Exists_nil in He. }
  rewrite List.Exists_cons in Hor.
  assert (world (fan_state (write_owner c steady key vv owners fan o)) =
          if decide (is_self c o) then local_put c key (serialize vv) (world (fan_state fan))
          else world (fan_state fan)) as Hw.
  { unfold write_owner, is_self. destruct (String.eqb_spec (node_id o) (node_id (self_ c))).
    - by rewrite decide_True.
    - rewrite decide_False by done. destruct known_dead; [|done]. cbn. by destruct hint_store_. }
  apply IH; rewrite Hw; clear Hw; case_decide as Hd; [by rewrite is_Some_local_put|done| |].
  - left. rewrite copy_local_put by done. by rewrite decide_True.
  - naive_solver.
Qed.

(** Membership data the coordinator works with. *)
Record coherent (c : Coordinator) : Prop := {
  co_ring : Router.ring_ok (router_ c);
  co_self : ∀ n, Router.nodes (router_ c) !! node_id (self_ c) = Some n → n = self_ c;
  co_addr : ∀ i j n m, Router.nodes (router_ c) !! i = Some n → Router.nodes (router_ c) !! j = Some m →
    addr n = addr m → i = j;
  co_id : self_ok c;
}.

Definition member (c : Coordinator) (n : NodeInfo) : Prop :=
  Router.nodes (router_ c) !! node_id n = Some n.

Lemma owners_facts c key N owners :
  coherent c → Router.findOwners (router_ c) key N = Some owners →
  NoDup owners ∧ (∀ n, n ∈ owners → member c n).
Proof.
  intros Hc Ho. rewrite Router.findOwners_preference in Ho by apply Hc. injection Ho as <-. split.
  - eapply sublist_NoDup; [|apply sublist_take]. eapply NoDup_fmap_1, Router.preference_NoDup, Hc.
  - intros n Hn. apply (Router.elem_of_preference (router_ c) key); [apply Hc|].
    eapply elem_of_sublist; [exact Hn|apply sublist_take].
Qed.

Lemma standin_facts c owners o n :
  coherent c → standin c owners o = Some n →
  member c n ∧ (n ∉ owners) ∧ ¬ is_self c n ∧ known_dead c (node_id n) = false.
Proof.
  intros Hc Hst. apply List.find_some in Hst as [Hin Hel]. apply list_elem_of_In in Hin.
  unfold eligible in Hel. rewrite !andb_true_iff, !negb_true_iff in Hel.
  destruct Hel as (((Hs & _) & Hown) & Hd). split_and!.
  - unfold Router.getAllPhysicalNodes in Hin. apply list_elem_of_fmap in Hin as ([id m] & -> & Hm).
    apply elem_of_entries in Hm. cbn. unfold member. by rewrite (Router.ring_ids _ (co_ring c Hc) _ _ Hm).
  - intros Ho. apply not_true_iff_false in Hown. apply Hown, existsb_exists. exists n.
    split; [by apply list_elem_of_In|]. apply String.eqb_refl.
  - unfold is_self. by apply String.eqb_neq.
  - done.
Qed.

(** Every dead owner gets the same stand-in. *)
Lemma standin_same c owners o o' :
  o ∈ owners → o' ∈ owners → standin c owners o = standin c owners o'.
Proof.
  assert (∀ o, o ∈ owners → standin c owners o =
    List.find (λ x, negb (String.eqb (node_id x) (node_id (self_ c))) &&
                    negb (existsb (λ y, String.eqb (node_id y) (node_id x)) owners) && negb (known_dead c (node_id x)))
      (Router.getAllPhysicalNodes (router_ c))) as Hs.
  { intros x Hx. unfold standin. apply find_ext. intros y. unfold eligible.
    destruct (String.eqb_spec (node_id y) (node_id x)) as [E|E]; [|by rewrite andb_true_r].
    destruct (existsb _ owners) eqn:Ex; cbn [negb]; [by rewrite !andb_false_r|].
    apply not_true_iff_false in Ex. destruct Ex. apply existsb_exists. exists x.
    split; [by apply list_elem_of_In|]. rewrite E. apply String.eqb_refl. }
  intros Ho Ho'. by rewrite !Hs.
Qed.

(** The number of owners the coordinator knows to be dead. *)
Definition dead_owners (c : Coordinator) (owners : list NodeInfo) : nat :=
  length (filter (λ o, known_dead c (node_id o) = true) owners).

(** The targets: owners, and the stand-in once for every dead owner at most. *)
Lemma targets_split c owners l :
  l ⊆ owners →
  ∃ U ss, filter (is_self c) l ++ omap (remote_target c owners) l ≡ₚ U ++ ss ∧ U ⊆+ l ∧
    length ss ≤ dead_owners c l ∧ ∀ x, x ∈ ss → ∃ o, o ∈ owners ∧ standin c owners o = Some x.
Proof.
  unfold dead_owners. induction l as [|o l IH]; intros Hl; [by exists [], []; split_and!; [..|intros ? ?%elem_of_nil]|].
  destruct IH as (U & ss & Hp & HU & Hlen & Hss); [set_solver|].
  rewrite !filter_cons. cbn [omap list_omap]. unfold remote_target at 1.
  assert (length (filter (λ o, known_dead c (node_id o) = true) l) ≤
          length (if decide (known_dead c (node_id o) = true) then o :: filter (λ o, known_dead c (node_id o) = true) l
                  else filter (λ o, known_dead c (node_id o) = true) l)) as Hle by (case_decide; cbn; lia).
  destruct (decide (is_self c o)) as [Hs|Hs].
  { exists (o :: U), ss. split_and!; [by cbn; f_equiv|by apply submseteq_skip|lia|done]. }
  destruct (known_dead c (node_id o)) eqn:Hd.
  - rewrite decide_True in * by done. destruct (standin c owners o) as [x|] eqn:Hx.
    + exists U, (x :: ss). split_and!; [rewrite <- Permutation_middle, Hp; solve_Permutation|by apply submseteq_cons|cbn; lia|].
      intros y [->|Hy]%elem_of_cons; [exists o; split; [set_solver|done]|by apply Hss].
    + exists U, ss. split_and!; [done|by apply submseteq_cons|lia|done].
  - exists (o :: U), ss. split_and!; [rewrite <- Permutation_middle, Hp; solve_Permutation|by apply submseteq_skip|lia|done].
Qed.

Lemma members_at c l : coherent c → NoDup l → (∀ n, n ∈ l → member c n) → NoDup (addr <$> l).
Proof.
  intros Hc Hnd Hm. apply NoDup_fmap_2_strong; [|done]. intros x y Hx%Hm Hy%Hm Hxy. unfold member in *.
  pose proof (co_addr c Hc _ _ _ _ Hx Hy Hxy) as E. rewrite E in Hx. congruence.
Qed.

(** Among acknowledgements from the targets there are as many different processes,
    less one for every dead owner beyond the first. *)
Lemma acked_distinct c key N owners A :
  coherent c → Router.findOwners (router_ c) key N = Some owners →
  A ⊆+ filter (is_self c) owners ++ omap (remote_target c owners) owners →
  ∃ B, NoDup (addr <$> B) ∧ length A ≤ length B + (dead_owners c owners - 1) ∧ ∀ n, n ∈ B → n ∈ A ∧ member c n.
Proof.
  intros Hc Ho HA. destruct (owners_facts c key N owners Hc Ho) as [Hnd Hmem].
  destruct (targets_split c owners owners) as (U & ss & Hp & HU & Hlen & Hss); [done|]. rewrite Hp in HA.
  apply submseteq_app_r in HA as (A1 & A2 & HA & HA1 & HA2).
  assert (A1 ⊆+ owners) as H1 by (by etrans). pose proof (submseteq_length _ _ HA2) as Hl2.
  destruct A2 as [|x A2].
  { exists A1. split_and!.
    - apply (members_at c); [done|by eapply submseteq_NoDup_sub|]. intros n Hn. apply Hmem. by eapply elem_of_submseteq.
    - rewrite HA, app_nil_r. lia.
    - intros n Hn. rewrite HA. split; [set_solver|]. apply Hmem. by eapply elem_of_submseteq. }
  destruct (Hss x) as (o & Hoo & Hx); [by eapply elem_of_submseteq; [left|]|].
  pose proof (standin_facts c owners o x Hc Hx) as (Hxm & Hxo & _).
  assert (∀ n, n ∈ A1 ++ [x] → member c n) as Hm.
  { intros n [Hn|Hn]%elem_of_app; [apply Hmem; by eapply elem_of_submseteq|]. by apply list_elem_of_singleton in Hn as ->. }
  exists (A1 ++ [x]). split_and!.
  - apply (members_at c); [done| |done]. apply list.NoDup_app. split_and!; [by eapply submseteq_NoDup_sub| |apply NoDup_singleton].
    intros y Hy ->%list_elem_of_singleton. apply Hxo. by eapply elem_of_submseteq.
  - rewrite HA, !length_app. cbn in *. lia.
  - intros n Hn. split; [|by apply Hm]. rewrite HA. set_solver.
Qed.

End targets.

(** ** Quorum writes *)

Section writes.
Context {S : Type} `{StorageLaws S} {F : Type} `{!ReplicaClient S F, !ReplicaLaws S F}.

(** One event of a run, with any interference at all. *)
Definition write_any (req : WriteRequest) (r r' : @WriteRun S) : Prop := ∃ e : @Event F, write_step req e r = Some r'.

(** One event of a run, with friendly interference. *)
Definition write_next (req : WriteRequest) (r r' : @WriteRun S) : Prop :=
  ∃ e, friendly (F := F) (wr_key req) (clock (wr_vv req)) (world (w_state r)) e ∧ write_step req e r = Some r'.

Lemma write_inv_start c steady key vv N W op (st : State S) req run :
  coherent c → vv_ok vv → is_Some (world st !! addr (self_ c)) →
  writeQuorum c steady key vv N W op st = Some (Running req run) →
  ∃ owners,
    Router.findOwners (router_ c) key N = Some owners ∧
    wr_key req = key ∧ wr_vv req = vv ∧ wr_W req = W ∧
    remoteCount req = length (omap (remote_target c owners) owners) ∧
    (∀ o, o ∈ filter (is_self c) owners → holds (world (w_state run)) o key (clock vv)) ∧
    ∀ P, write_inv req (Z.of_nat (length (filter (is_self c) owners)))
           (omap (remote_target c owners) owners) P run.
Proof.
  intros Hc Hv Hs Hq. unfold writeQuorum in Hq.
  destruct (Router.findOwners (router_ c) key N) as [owners|] eqn:Ho; [|done].
  exists owners. split; [done|].
  destruct (write_fanout_targets c steady key vv owners owners (mkFanout st 0 [])) as [Hr Hl].
  pose proof (write_fanout_world c steady key vv owners owners (mkFanout st 0 []) Hv Hs) as Hcopy.
  destruct (owners_facts c key N owners Hc Ho) as [_ Hmem].
  unfold write_fanout in Hq. cbn in Hr, Hl.
  assert (∀ o, o ∈ filter (is_self c) owners →
    holds (world (fan_state (foldl (write_owner c steady key vv owners) (mkFanout st 0 []) owners))) o key (clock vv)) as Hh.
  { intros o [Hself Hin]%list_elem_of_filter. assert (o = self_ c) as ->.
    { apply (co_self c Hc). rewrite <- Hself. by apply Hmem. }
    exists vv. split; [|reflexivity]. apply Hcopy. right. apply list.Exists_exists. eauto. }
  remember (foldl (write_owner c steady key vv owners) (mkFanout st 0 []) owners) as fan eqn:Hfan.
  remember (omap (remote_target c owners) owners) as ts eqn:Hts. clear Hfan Hts Hcopy.
  destruct owners as [|o0 owners']; [done|]. injection Hq as <- <-.
  cbn [wr_key wr_vv wr_W remoteCount w_state acks completed calling returned result].
  split_and!; [done..|by rewrite <- Hr|done|]. intros P. split; cbn [result returned]; [|by intros ? ?%elem_of_nil|done].
  exists [], []. cbn [acks completed calling returned]. rewrite Hr, Hl. rewrite ?app_nil_r.
  split_and!; [done|cbn [length]; lia|done|by intros ? ?%elem_of_nil].
Qed.

(** The moments of a run: [r0] was passed on the way from [run] to [r]. *)
Definition passed (req : WriteRequest) (run r r0 : @WriteRun S) : Prop :=
  rtc (write_any req) run r0 ∧ rtc (write_any req) r0 r.

Definition held (req : WriteRequest) (run r : @WriteRun S) (n : NodeInfo) : Prop :=
  ∃ r0, passed req run r r0 ∧ holds (world (w_state r0)) n (wr_key req) (clock (wr_vv req)).

Lemma write_inv_any req local ts run r :
  str_free "|" (wr_key req) = true → vv_ok (wr_vv req) →
  rtc (write_any req) run r → (∀ P, write_inv req local ts P run) → write_inv req local ts (held req run r) r.
Proof using All.
  intros Hk Hv Hr Hstart. revert r Hr. refine (rtc_ind_r _ _ _ _); [by apply Hstart|].
  intros r1 r2 Hr1 [e He] Hinv. assert (rtc (write_any req) r1 r2) as H12 by (apply rtc_once; by exists e).
  eapply write_inv_step; [done..| | |exact Hinv].
  - intros p (r0 & [Ha Hb] & Hh). exists r0. split; [split; [done|by etrans]|done].
  - intros p Hh. exists r2. split; [split; [by etrans|done]|done].
Qed.

Lemma write_next_any req r r' : rtc (write_next req) r r' → rtc (write_any req) r r'.
Proof. apply rtc_subrel. intros x y (e & _ & He). by exists e. Qed.

Lemma holds_reach req r r' n :
  str_free "|" (wr_key req) = true → vv_ok (wr_vv req) →
  rtc (write_next req) r r' → holds (world (w_state r)) n (wr_key req) (clock (wr_vv req)) →
  holds (world (w_state r')) n (wr_key req) (clock (wr_vv req)).
Proof using All.
  intros Hk Hv Hr. induction Hr as [|r1 r2 r3 (e & Hf & Hs) _ IH]; [done|].
  intros Hh. apply IH. by eapply holds_friendly.
Qed.

Lemma write_inv_reach req local ts r r' :
  str_free "|" (wr_key req) = true → vv_ok (wr_vv req) → rtc (write_next req) r r' →
  write_inv req local ts (λ p, holds (world (w_state r)) p (wr_key req) (clock (wr_vv req))) r →
  write_inv req local ts (λ p, holds (world (w_state r')) p (wr_key req) (clock (wr_vv req))) r'.
Proof using All.
  intros Hk Hv Hr. induction Hr as [|r1 r2 r3 (e & Hf & Hs) _ IH]; [done|].
  intros Hi. apply IH. eapply write_inv_step; [done..| |done|exact Hi]. intros p Hp. by eapply holds_friendly.
Qed.

(** The targets behind a successful result. *)
Lemma acked_targets c steady key vv N W op (st : State S) req run (r : @WriteRun S) res (P : NodeInfo → Prop) :
  coherent c → vv_ok vv → str_free "|" key = true → is_Some (world st !! addr (self_ c)) →
  writeQuorum c steady key vv N W op st = Some (Running req run) →
  (wr_key req = key → wr_vv req = vv → ∀ local ts, (∀ Q, write_inv req local ts Q run) → write_inv req local ts P r) →
  (wr_key req = key → wr_vv req = vv → ∀ n, holds (world (w_state run)) n key (clock vv) → P n) →
  result r = Some res → put_ok res = true →
  ∃ owners A, Router.findOwners (router_ c) key N = Some owners ∧
    A ⊆+ filter (is_self c) owners ++ omap (remote_target c owners) owners ∧
    (W ≤ Z.of_nat (length A))%Z ∧ put_clock res = clock vv ∧ (∀ n, n ∈ A → P n).
Proof using All.
  intros Hc Hv Hk Hs Hq Hend Hlocal Hres Hok.
  destruct (write_inv_start c steady key vv N W op st req run Hc Hv Hs Hq)
    as (owners & Ho & <- & <- & <- & _ & Hself & Hinv).
  destruct (Hend eq_refl eq_refl _ _ Hinv) as [(yes & no & Hp & Ha & _ & Hy) _ Hr].
  destruct (Hr res Hres Hok) as [HW Hcl].
  exists owners, (filter (is_self c) owners ++ yes). split_and!; [done| |rewrite length_app; lia|done|].
  - apply submseteq_skips_l. rewrite Hp, (assoc_L (++)), (assoc_L (++)).
    apply submseteq_inserts_r, submseteq_inserts_l. done.
  - intros n [Hn|Hn]%elem_of_app; [|by apply Hy]. by apply Hlocal, Hself.
Qed.

(** They hold the version at the end of a run with friendly interference. *)
Lemma acked_holding c steady key vv N W op (st : State S) req run r res :
  coherent c → vv_ok vv → str_free "|" key = true → is_Some (world st !! addr (self_ c)) →
  writeQuorum c steady key vv N W op st = Some (Running req run) →
  rtc (write_next req) run r → result r = Some res → put_ok res = true →
  ∃ owners A, Router.findOwners (router_ c) key N = Some owners ∧
    A ⊆+ filter (is_self c) owners ++ omap (remote_target c owners) owners ∧
    (W ≤ Z.of_nat (length A))%Z ∧ put_clock res = clock vv ∧ (∀ n, n ∈ A → holds (world (w_state r)) n key (clock vv)).
Proof using All.
  intros Hc Hv Hk Hs Hq Hr Hres Hok.
  apply (acked_targets c steady key vv N W op st req run r res (λ n, holds (world (w_state r)) n key (clock vv))); try done.
  - intros <- <- local ts Hi. by eapply write_inv_reach, Hi.
  - intros <- <- n. by apply holds_reach.
Qed.

(** They held it at some moment of the run, with any interference. *)
Lemma acked_held c steady key vv N W op (st : State S) req run r res :
  coherent c → vv_ok vv → str_free "|" key = true → is_Some (world st !! addr (self_ c)) →
  writeQuorum c steady key vv N W op st = Some (Running req run) →
  rtc (write_any req) run r → result r = Some res → put_ok res = true →
  ∃ owners A, Router.findOwners (router_ c) key N = Some owners ∧
    A ⊆+ filter (is_self c) owners ++ omap (remote_target c owners) owners ∧
    (W ≤ Z.of_nat (length A))%Z ∧ put_clock res = clock vv ∧
    (∀ n, n ∈ A → ∃ r0, passed req run r r0 ∧ holds (world (w_state r0)) n key (clock vv)).
Proof using All.
  intros Hc Hv Hk Hs Hq Hr Hres Hok.
  apply (acked_targets c steady key vv N W op st req run r res
           (λ n, ∃ r0, passed req run r r0 ∧ holds (world (w_state r0)) n key (clock vv))); try done.
  - intros <- <- local ts Hi. by apply write_inv_any.
  - intros <- <- n Hh. exists run. by split.
Qed.

(** A put or a delete as the quorum write it is. *)
Lemma coordinated_write c now steady key value ctx N W (st : State S) req run :
  coherent c → is_u64 now → VectorClock.wire_ok ctx →
  (coordinatePut c now steady key value ctx N W st = Some (Running req run) ∨
   coordinateDelete c now steady key ctx N W st = Some (Running req run)) →
  ∃ vv op, vv_ok vv ∧ writeQuorum c steady key vv N W op st = Some (Running req run).
Proof.
  intros Hc Hnow Hctx Hst. pose proof (bumped_ok c now key ctx (world st) (co_id c Hc) Hnow Hctx) as Hb.
  destruct Hst as [Hst|Hst]; (eexists _, _; split; [|exact Hst]); exact Hb.
Qed.

(** The replicas that hold an acknowledged write. *)
Lemma acked_on_replicas c now steady key value ctx N W (st : State S) req run r res :
  coherent c → str_free "|" key = true → is_u64 now → VectorClock.wire_ok ctx →
  is_Some (world st !! addr (self_ c)) →
  (coordinatePut c now steady key value ctx N W st = Some (Running req run) ∨
   coordinateDelete c now steady key ctx N W st = Some (Running req run)) →
  rtc (write_next req) run r → result r = Some res → put_ok res = true →
  VectorClock.wire_ok (put_clock res) ∧
  ∃ owners A, Router.findOwners (router_ c) key N = Some owners ∧ NoDup (addr <$> A) ∧
    (W ≤ Z.of_nat (length A + (dead_owners c owners - 1)))%Z ∧
    (∀ n, n ∈ A → member c n ∧ holds (world (w_state r)) n key (put_clock res)).
Proof using All.
  intros Hc Hk Hnow Hctx Hs Hst Hreach Hres Hok.
  destruct (coordinated_write c now steady key value ctx N W st req run) as (vv & op & Hv & Hq); [done..|].
  destruct (acked_holding c steady key vv N W op st req run r res) as (owners & A & Ho & HA & HW & Hcl & Hh); [done..|].
  destruct (acked_distinct c key N owners A Hc Ho HA) as (B & Hnd & Hlen & HB).
  split; [by rewrite Hcl; apply Hv|]. exists owners, B. split_and!; [done|done|lia|].
  intros n Hn. destruct (HB n Hn) as [HnA Hm]. rewrite Hcl. split; [done|by apply Hh].
Qed.

(** C2: an acknowledged put or delete was stored by W different replicas.  When the
    call returns OK, as many processes with different addresses as W, less one for
    every owner known dead beyond the first (they share a stand-in), have each held,
    at some moment of the call, a version at least as new as the clock returned to
    the client, whatever other threads did meanwhile; and they hold one when the call
    returns, and ever after, if no other thread replaces a version at least as new as
    the write by one that is not. *)
Theorem acknowledged_write_on_W_replicas c now steady key value ctx N W (st : State S) req run r res :
  coherent c → str_free "|" key = true → is_u64 now → VectorClock.wire_ok ctx →
  is_Some (world st !! addr (self_ c)) →
  (coordinatePut c now steady key value ctx N W st = Some (Running req run) ∨
   coordinateDelete c now steady key ctx N W st = Some (Running req run)) →
  rtc (write_any req) run r → result r = Some res → put_ok res = true →
  ∃ owners, Router.findOwners (router_ c) key N = Some owners ∧
  (∃ A, NoDup (addr <$> A) ∧ (W ≤ Z.of_nat (length A + (dead_owners c owners - 1)))%Z ∧
     ∀ n, n ∈ A → member c n ∧ ∃ r0, passed req run r r0 ∧ holds (world (w_state r0)) n key (put_clock res)) ∧
  (rtc (write_next req) run r →
   ∃ A, NoDup (addr <$> A) ∧ (W ≤ Z.of_nat (length A + (dead_owners c owners - 1)))%Z ∧
     ∀ n, n ∈ A → member c n ∧ holds (world (w_state r)) n key (put_clock res)).
Proof using All.
  intros Hc Hk Hnow Hctx Hs Hst Hr Hres Hok.
  destruct (coordinated_write c now steady key value ctx N W st req run) as (vv & op & Hv & Hq); [done..|].
  destruct (acked_held c steady key vv N W op st req run r res) as (owners & A & Ho & HA & HW & Hcl & Hh); [done..|].
  exists owners. split; [done|]. split.
  - destruct (acked_distinct c key N owners A Hc Ho HA) as (B & Hnd & Hlen & HB). exists B. split_and!; [done|lia|].
    intros n Hn. destruct (HB n Hn) as [HnA Hm]. rewrite Hcl. split; [done|by apply Hh].
  - intros Hnext. destruct (acked_on_replicas c now steady key value ctx N W st req run r res)
      as (_ & owners' & B & Ho' & Hnd & Hlen & HB); [done..|]. simplify_eq. by exists B.
Qed.

(** C40: the wait never blocks on threads that are gone, and its verdict is
    honest.  Once every fan-out thread has finished, the waiting call can wake
    without the deadline, and it then reports quorum_not_met exactly when the
    acknowledgements received are fewer than W. *)
Theorem write_wait_terminates c steady key vv N W op (st : State S) req run r :
  coherent c → vv_ok vv → str_free "|" key = true → is_Some (world st !! addr (self_ c)) →
  writeQuorum c steady key vv N W op st = Some (Running req run) →
  rtc (write_any req) run r → calling r = [] → returned r = [] → result r = None →
  ∃ r', write_step (F := F) req (Wake false) r = Some r' ∧
    result r' = Some (if (W <=? acks r)%Z then mkPut true (clock vv) "" else mkPut false ∅ "quorum_not_met").
Proof using All.
  intros Hc Hv Hk Hs Hq Hreach Hcall Hret Hres.
  destruct (write_inv_start c steady key vv N W op st req run Hc Hv Hs Hq)
    as (owners & Ho & <- & <- & <- & Hcnt & Hself & Hinv).
  destruct (write_inv_any req _ _ run r Hk Hv Hreach Hinv) as [(yes & no & Hp & _ & Hcomp & _) _ _].
  assert (completed r = remoteCount req) as Hdone.
  { rewrite Hcnt, Hp, Hcall, Hret. cbn. rewrite length_app. lia. }
  cbn. rewrite Hres. unfold write_done. rewrite (bool_decide_eq_true_2 _ Hdone), orb_true_r. cbn.
  destruct (wr_W req <=? acks r)%Z; eexists; split; reflexivity.
Qed.

End writes.

(** ** Quorum reads *)

Section reads.
Context {S : Type} `{StorageLaws S} {F : Type} `{!ReplicaClient S F, !ReplicaLaws S F}.

Definition all_readable (w : World S) (key : string) : Prop :=
  ∀ n v, copy w n key = Some v → readable v.

Definition read_next (cl : VectorClock.clock) (req : @ReadRequest) (r r' : @ReadRun S) : Prop :=
  ∃ e, friendly (F := F) (rd_key req) cl (world (r_state r)) e ∧ read_step req e r = Some r'.

(** What the client is told, as a function of the snapshot. *)
Definition get_outcome (R : Z) (snap : list Resp) : GetResult :=
  if (Z.of_nat (length snap) <? R)%Z then mkGet ERROR [] "quorum_not_met"
  else match maximalVersions snap with
       | [] => mkGet NOTFOUND [] ""
       | [dominant] => if deleted dominant then mkGet NOTFOUND [] "" else mkGet OK [dominant] ""
       | maximal => mkGet SIBLINGS maximal ""
       end.

Lemma finish_get_outcome c key R snap (st : State S) :
  (finish_get c key R snap st).1.1 = get_outcome R snap.
Proof.
  unfold finish_get, get_outcome. destruct (_ <? R)%Z; [done|].
  destruct (maximalVersions snap) as [|d [|? ?]]; [done| |done].
  destruct (foldl _ _ snap). by destruct (deleted d).
Qed.

Section invariant.
(** The clock looked for, replicas that have it, and the tombstones there are. *)
Context (cl : VectorClock.clock) (A owners : list NodeInfo) (tomb : VersionedValue → Prop).

Definition good (x : Resp) : Prop :=
  (resp_found x = true → vv_ok (resp_vv x) ∧ readable (resp_vv x) ∧ (deleted (resp_vv x) = true → tomb (resp_vv x))) ∧
  (resp_peer x ∈ A → resp_found x = true ∧ VectorClock.causal_le cl (clock (resp_vv x))).

Record read_live (req : @ReadRequest) (r : @ReadRun S) : Prop := {
  rl_threads : (resp_peer <$> responses r) ++ (r_returned r).*1 ++ r_calling r ⊆+ owners;
  rl_count : r_completed r + length (r_returned r) + length (r_calling r) = rd_remoteCount req;
  rl_responses : Forall good (responses r);
  rl_returned : ∀ p rr, (p, rr) ∈ r_returned r → read_ok rr = true →
    good (mkResp p (found rr) (read_value rr));
  rl_holds : ∀ p, p ∈ A → holds (world (r_state r)) p (rd_key req) cl;
  rl_readable : all_readable (world (r_state r)) (rd_key req);
  rl_repairs : repairs r = [];
}.

(** The stores and the repairs on their way, once there is a result. *)
Record read_over (key : string) (w : World S) (bg : list (NodeInfo * VersionedValue)) : Prop := {
  ro_holds : ∀ p, p ∈ A → holds w p key cl;
  ro_readable : all_readable w key;
  ro_repairs : ∀ p v, (p, v) ∈ bg → vv_ok v ∧ readable v ∧ VectorClock.causal_le cl (clock v);
}.

Definition read_inv (req : @ReadRequest) (r : @ReadRun S) : Prop :=
  match r_result r with
  | None => read_live req r
  | Some res => read_over (rd_key req) (world (r_state r)) (repairs r) ∧
                ∃ snap, snapshot r = Some snap ∧ resp_peer <$> snap ⊆+ owners ∧ Forall good snap ∧
                        res = get_outcome (rd_R req) snap
  end.

Lemma read_inv_stores req r :
  read_inv req r → (∀ p, p ∈ A → holds (world (r_state r)) p (rd_key req) cl) ∧ all_readable (world (r_state r)) (rd_key req).
Proof. unfold read_inv. destruct (r_result r); [by intros [[] _]|by intros []]. Qed.

(** An answer is as good as the copy it reports. *)
Lemma answer_good f p key w :
  str_free "|" key = true → all_readable w key →
  (∀ n, n ∈ A → holds w n key cl) →
  read_ok (readReplica f p key w).2 = true →
  good (mkResp p (found (readReplica f p key w).2) (read_value (readReplica f p key w).2)).
Proof using All.
  intros Hk Hrd Hh Hok. pose proof (read_copy f p key w Hk Hok) as Hc. unfold good. cbn.
  destruct (copy w p key) as [v|] eqn:E.
  - destruct (Hc (Hrd p v E)) as [-> ->]. split; [intros _; split_and!; [by eapply copy_ok in E|by apply (Hrd p v E)|done]|].
    intros Hp. split; [done|]. destruct (Hh p Hp) as (v' & Hv' & Hle). by simplify_eq.
  - rewrite Hc. split; [done|]. intros Hp. destruct (Hh p Hp) as (v' & Hv' & _). congruence.
Qed.

Lemma all_readable_apply a k v w key :
  vv_ok v → (k = key → readable v) → all_readable w key → all_readable (apply_at a k v w) key.
Proof.
  intros Hv Hr Hw n u. rewrite copy_apply_at by done. case_decide as Hd; [|apply Hw].
  destruct Hd as (_ & <- & _). intros [= <-]. unfold keep.
  destruct (copy w n key) as [l|] eqn:E; [|by apply Hr]. case_decide; [by eapply Hw|by apply Hr].
Qed.

Lemma all_readable_put a k v w key :
  vv_ok v → (k = key → readable v) → all_readable w key → all_readable (put_at a k v w) key.
Proof.
  intros Hv Hr Hw n u. rewrite copy_put_at by done. case_decide as Hd; [|apply Hw].
  destruct Hd as (_ & <- & _). intros [= <-]. by apply Hr.
Qed.

Lemma all_readable_write f p v w key :
  str_free "|" key = true → vv_ok v → readable v → all_readable w key → all_readable (writeReplica f p key v w).1 key.
Proof using All.
  intros Hk Hv Hr Hw n u Hu. destruct (write_copy f p key v w n key Hk Hv) as [E|(_ & _ & E)]; rewrite E in Hu; [by eapply Hw|].
  injection Hu as <-. unfold keep. destruct (copy w n key) as [l|] eqn:El; [|done]. case_decide; [by eapply Hw|done].
Qed.

(** What other threads do to the stores. *)
Lemma friendly_stores key w (e : @Event F) w' :
  friendly key cl w e →
  match e with Foreign a k v => w' = apply_at a k v w | Store a k v => w' = put_at a k v w | _ => False end →
  (∀ p, holds w p key cl → holds w' p key cl) ∧ (all_readable w key → all_readable w' key).
Proof.
  destruct e as [| | | |a k v|a k v]; try done; intros [Hv Hf] ->.
  - split; [intros p; apply holds_apply_at; [done|]|apply all_readable_apply; [done|]]; intros E; by destruct (Hf E).
  - split; [intros p; apply holds_put_at; [done|]|apply all_readable_put; [done|]]; intros E; by destruct (Hf E).
Qed.

(** The state in which the fan-out threads start. *)
Lemma read_fanout_spec c key w l (fan : ReadFanout) :
  (∀ o, o ∈ l → is_self c o → o = self_ c) →
  (∀ p, p ∈ A → holds w p key cl) → (∀ v, copy w (self_ c) key = Some v → tomb v ∧ readable v) →
  Forall good (read_responses fan) →
  let fan' := foldl (read_owner c key w) fan l in
  Forall good (read_responses fan') ∧
  (resp_peer <$> read_responses fan') ++ read_remotes fan' ⊆+
    (resp_peer <$> read_responses fan) ++ read_remotes fan ++ l.
Proof.
  intros Hself Hh Ht. revert fan. induction l as [|o l IH]; intros fan Hg; cbn zeta; cbn [foldl].
  { by rewrite app_nil_r. }
  assert (∀ o, o ∈ l → is_self c o → o = self_ c) as Hself'.
  { intros x Hx. apply Hself. by apply elem_of_cons; right. }
  unfold read_owner at 2 4 6. destruct (String.eqb_spec (node_id o) (node_id (self_ c))) as [Hs|Hs].
  - assert (o = self_ c) as -> by (apply Hself; [by apply elem_of_cons; left|done]). clear Hs.
    pose proof (local_get_copy c key w) as Hlg. 
    set (x := match local_get c key w with
              | Some stored => mkResp (self_ c) true (deserialize stored)
              | None => mkResp (self_ c) false no_value
              end).
    assert (good x ∧ resp_peer x = self_ c) as [Hgx Hpx].
    { unfold x, good. destruct (local_get c key w) as [stored|]; cbn in *; (split; [|done]).
      - destruct (Ht _ (eq_sym Hlg)). split; [intros _; split; [apply deserialize_ok|done]|]. intros Hp. split; [done|].
        destruct (Hh _ Hp) as (v & Hv & Hle). rewrite Hv in Hlg. by injection Hlg as ->.
      - split; [done|]. intros Hp. destruct (Hh _ Hp) as (v & Hv & _). congruence. }
    edestruct (IH Hself' (mkReadFanout (read_responses fan ++ [x]) (read_remotes fan))) as [H1 H2].
    { cbn. apply Forall_app. split; [done|]. by constructor. }
    split; [done|]. etrans; [exact H2|]. cbn. rewrite fmap_app. cbn. rewrite Hpx. solve_submseteq.
  - destruct (known_dead c (node_id o)).
    + destruct (IH Hself' fan Hg) as [H1 H2]. split; [done|]. etrans; [exact H2|]. solve_submseteq.
    + edestruct (IH Hself' (mkReadFanout (read_responses fan) (read_remotes fan ++ [o]))) as [H1 H2]; [done|].
      split; [done|]. etrans; [exact H2|]. cbn. rewrite <- app_assoc. cbn. solve_submseteq.
Qed.

Lemma read_inv_start c key N R (st : State S) req run :
  coherent c → Router.findOwners (router_ c) key N = Some owners →
  coordinateGet c key N R st = Some (inr (req, run)) →
  (∀ p, p ∈ A → holds (world st) p key cl) → (∀ v, copy (world st) (self_ c) key = Some v → tomb v) →
  all_readable (world st) key →
  rd_key req = key ∧ rd_R req = R ∧ read_inv req run.
Proof.
  intros Hc Ho Hg Hh Ht Hrd. unfold coordinateGet in Hg. rewrite Ho in Hg.
  destruct (owners_facts c key N owners Hc Ho) as [_ Hmem].
  destruct (read_fanout_spec c key (world st) owners (mkReadFanout [] [])) as [H1 H2];
    [|done|intros v Hv; split; [by apply Ht|by eapply Hrd]|constructor|].
  { intros o Hin Hs. apply (co_self c Hc). rewrite <- Hs. by apply Hmem. }
  unfold read_fanout in Hg.
  remember (foldl (read_owner c key (world st)) (mkReadFanout [] []) owners) as fan eqn:Hfan.
  clear Hfan. destruct owners as [|o0 os] eqn:Eo; [done|]. injection Hg as <- <-.
  split_and!; [done..|]. unfold read_inv. cbn. split; cbn; [by rewrite Eo|done|done| |done..].
  by intros ? ? ?%elem_of_nil.
Qed.

(** A quorum of good responses that meets [A] has the version looked for among its
    maximal ones. *)
Context (Hnd : NoDup owners) (HndA : NoDup A) (HA : A ⊆ owners).

Lemma maximal_sees R snap :
  resp_peer <$> snap ⊆+ owners → Forall good snap →
  (Z.of_nat (length owners) < R + Z.of_nat (length A))%Z → (R ≤ Z.of_nat (length snap))%Z →
  ∃ m y, m ∈ maximalVersions snap ∧ VectorClock.causal_le cl (clock m) ∧
    y ∈ snap ∧ resp_found y = true ∧ m = resp_vv y.
Proof using All.
  intros Hsnap Hgood Hq HR.
  destruct (pigeonhole owners A (resp_peer <$> snap)) as (p & HpA & (x & -> & Hx)%list_elem_of_fmap);
    [done|by eapply submseteq_NoDup_sub|done|intros y Hy; by eapply elem_of_submseteq
    |rewrite length_fmap; lia|].
  rewrite list.Forall_forall in Hgood. destruct (Hgood x Hx) as [_ Hgx]. destruct (Hgx HpA) as [Hf Hle].
  destruct (maximal_facts snap) as (Hin & Hcov & _).
  { unfold found_versions. apply list.Forall_fmap, list.Forall_forall.
    intros y [Hfy Hy]%list_elem_of_filter. by destruct (proj1 (Hgood y Hy) Hfy). }
  destruct (Hcov (resp_vv x)) as (m & Hm & Hxm).
  { apply list_elem_of_fmap. exists x. split; [done|]. by apply list_elem_of_filter. }
  specialize (Hin m Hm). apply list_elem_of_fmap in Hin as (y & -> & [Hfy Hy]%list_elem_of_filter).
  exists (resp_vv y), y. split_and!; try done. by etrans.
Qed.

(** The repairs of a read that met [A] regress nothing. *)
Lemma finish_get_over c key R snap (st : State S) :
  resp_peer <$> snap ⊆+ owners → Forall good snap → (Z.of_nat (length owners) < R + Z.of_nat (length A))%Z →
  (∀ p, p ∈ A → holds (world st) p key cl) → all_readable (world st) key →
  read_over key (world (finish_get c key R snap st).1.2) (finish_get c key R snap st).2.
Proof using All.
  intros Hsnap Hgood Hq Hh Hrd. unfold finish_get.
  assert (∀ st', world st' = world st → read_over key (world st') []) as H0'.
  { intros st' ->. split; [done..|]. by intros ? ? ?%elem_of_nil. }
  destruct (Z.ltb_spec (Z.of_nat (length snap)) R) as [|HR]; [by apply H0'|].
  destruct (maximal_sees R snap Hsnap Hgood Hq HR) as (m & y & Hm & Hle & Hy & Hfy & ->).
  destruct (maximalVersions snap) as [|d [|d' M]]; [by apply elem_of_nil in Hm| |by apply H0'].
  apply list_elem_of_singleton in Hm as <-. rewrite list.Forall_forall in Hgood.
  destruct (proj1 (Hgood y Hy) Hfy) as (Hv & Hr & _). set (d := resp_vv y) in *. clearbody d.
  set (st1 := with_metrics _ st). assert (read_over key (world st1) []) as Hstart by (by apply H0').
  enough (∀ l st1 bg, read_over key (world st1) bg →
    let acc := foldl (λ acc r, if stale d r then
        let '(st', bg) := repairAsync c (resp_peer r) key d acc.1 in (st', acc.2 ++ bg) else acc) (st1, bg) l in
    read_over key (world acc.1) acc.2) as Hfold.
  { specialize (Hfold snap st1 [] Hstart). cbn zeta in Hfold. by destruct (foldl _ _ snap). }
  clear Hstart st1. induction l as [|x l IH]; intros st1 bg Hover; [done|]. cbn zeta. cbn [foldl].
  destruct (stale d x); [|by apply IH]. unfold repairAsync. cbn [fst snd].
  destruct (String.eqb _ _); apply IH; destruct Hover as [O1 O2 O3]; cbn; [rewrite app_nil_r|]; split; try done.
  - intros p Hp. apply (holds_put_at cl (addr (self_ c)) key d); [done| |by apply O1]. done.
  - apply (all_readable_put (addr (self_ c)) key d); done.
  - intros p v [Hin|Hin]%elem_of_app; [by apply (O3 p)|]. by apply list_elem_of_singleton in Hin as [= -> ->].
Qed.

(** Once there is a result, only stores and repairs change. *)
Lemma read_over_step req e r r' res :
  str_free "|" (rd_key req) = true → friendly (rd_key req) cl (world (r_state r)) e →
  read_step req e r = Some r' → r_result r = Some res → read_over (rd_key req) (world (r_state r)) (repairs r) →
  r_result r' = Some res ∧ snapshot r' = snapshot r ∧ read_over (rd_key req) (world (r_state r')) (repairs r').
Proof using All.
  intros Hk Hf Hs Hres [O1 O2 O3].
  destruct e as [i f|i|d|i f|a k v|a k v]; cbn in Hs; rewrite ?Hres in Hs; [| |done| | |].
  - destruct (r_calling r !! i) as [p|]; [|done].
    pose proof (read_world f p (rd_key req) (world (r_state r)) Hk) as Hw.
    destruct (readReplica _ _ _ _) as [w rr]. cbn in Hw. subst w. by injection Hs as <-.
  - destruct (r_returned r !! i) as [[p rr]|]; [|done]. by injection Hs as <-.
  - destruct (repairs r !! i) as [[p v]|] eqn:Hi; [|done].
    destruct (O3 p v) as (Hv & Hr & Hle); [by eapply list_elem_of_lookup_2|].
    pose proof (λ n, holds_write cl f p (rd_key req) v (world (r_state r)) n Hk Hv (or_introl Hle)) as Hh.
    pose proof (all_readable_write f p v (world (r_state r)) (rd_key req) Hk Hv Hr O2) as Hrd.
    destruct (writeReplica _ _ _ _ _) as [w ok]. injection Hs as <-. cbn in *. split_and!; [done..|].
    split; cbn; [by auto|done|]. intros q u Hu. apply (O3 q). rewrite (delete_Permutation _ _ _ Hi). by right.
  - injection Hs as <-. destruct (friendly_stores _ _ _ _ Hf eq_refl) as [Hh Hrd]. split_and!; [done..|]. split; cbn; auto.
  - injection Hs as <-. destruct (friendly_stores _ _ _ _ Hf eq_refl) as [Hh Hrd]. split_and!; [done..|]. split; cbn; auto.
Qed.

Lemma read_inv_step req e r r' :
  str_free "|" (rd_key req) = true → (Z.of_nat (length owners) < rd_R req + Z.of_nat (length A))%Z →
  friendly (rd_key req) cl (world (r_state r)) e →
  read_step req e r = Some r' → read_inv req r → read_inv req r'.
Proof using All.
  intros Hk Hq Hf Hs Hinv. unfold read_inv in Hinv. destruct (r_result r) as [res|] eqn:Hres.
  { destruct Hinv as [Hover (snap & Hsn & Hinv)]. destruct (read_over_step req e r r' res) as (Hr & Hsn' & Ho); [done..|].
    unfold read_inv. rewrite Hr, Hsn'. split; [done|]. by exists snap. }
  destruct Hinv as [Hth Hcnt Hrs Hrt Hh Hrd Hrep].
  destruct e as [i f|i|d|i f|a k v|a k v]; cbn in Hs.
  - destruct (r_calling r !! i) as [p|] eqn:Hi; [|done].
    pose proof (answer_good f p (rd_key req) _ Hk Hrd Hh) as Hg.
    pose proof (read_world f p (rd_key req) (world (r_state r)) Hk) as Hw.
    destruct (readReplica f p (rd_key req) (world (r_state r))) as [w rr]. cbn in Hg, Hw. subst w.
    injection Hs as <-. unfold read_inv. cbn. rewrite Hres. pose proof (delete_Permutation _ _ _ Hi) as Hd.
    split; cbn; [| |done| |done..].
    + rewrite Hd in Hth. etrans; [|exact Hth]. rewrite fmap_app. cbn. solve_submseteq.
    + rewrite Hd in Hcnt. rewrite length_app. cbn in *. lia.
    + intros q rr' [Hq'|Hq']%elem_of_app Hok; [by apply Hrt|].
      apply list_elem_of_singleton in Hq' as [= -> ->]. by apply Hg.
  - destruct (r_returned r !! i) as [[p rr]|] eqn:Hi; [|done].
    injection Hs as <-. unfold read_inv. cbn. rewrite Hres. pose proof (delete_Permutation _ _ _ Hi) as Hd.
    assert ((p, rr) ∈ r_returned r) as Hin by (by eapply list_elem_of_lookup_2).
    split; cbn; [| | | |done..].
    + rewrite Hd in Hth. etrans; [|exact Hth]. rewrite fmap_app. cbn. destruct (read_ok rr); cbn; solve_submseteq.
    + rewrite Hd in Hcnt. cbn in Hcnt. lia.
    + apply Forall_app. split; [done|]. destruct (read_ok rr) eqn:Ek; [|constructor].
      constructor; [by apply Hrt|constructor].
    + intros q rr' Hq'. apply Hrt. rewrite Hd. by apply elem_of_cons; right.
  - rewrite Hres in Hs. destruct (d || read_done req r); [|done].
    assert (resp_peer <$> responses r ⊆+ owners) as Hsub by (etrans; [|exact Hth]; by apply submseteq_inserts_r).
    pose proof (finish_get_outcome (rd_self req) (rd_key req) (rd_R req) (responses r) (r_state r)) as Hout.
    pose proof (finish_get_over (rd_self req) (rd_key req) (rd_R req) (responses r) (r_state r) Hsub Hrs Hq Hh Hrd) as Hover.
    destruct (finish_get (rd_self req) (rd_key req) (rd_R req) (responses r) (r_state r)) as [[res st] bg].
    injection Hs as <-. unfold read_inv. cbn in *. split; [done|]. by exists (responses r).
  - by rewrite Hrep in Hs.
  - injection Hs as <-. destruct (friendly_stores _ _ _ _ Hf eq_refl). unfold read_inv. cbn. rewrite Hres. split; cbn; auto.
  - injection Hs as <-. destruct (friendly_stores _ _ _ _ Hf eq_refl). unfold read_inv. cbn. rewrite Hres. split; cbn; auto.
Qed.

Lemma read_inv_reach req r r' :
  str_free "|" (rd_key req) = true → (Z.of_nat (length owners) < rd_R req + Z.of_nat (length A))%Z →
  rtc (read_next cl req) r r' → read_inv req r → read_inv req r'.
Proof using All.
  intros Hk Hq Hr. induction Hr as [|r1 r2 r3 (e & Hf & Hs) _ IH]; [done|].
  intros Hi. apply IH. by eapply read_inv_step.
Qed.

(** A quorum of good responses that meets [A] yields the version looked for. *)
Lemma outcome_sees R snap :
  resp_peer <$> snap ⊆+ owners → Forall good snap →
  (Z.of_nat (length owners) < R + Z.of_nat (length A))%Z →
  status (get_outcome R snap) ≠ ERROR →
  ∃ v, VectorClock.causal_le cl (clock v) ∧
    match status (get_outcome R snap) with
    | OK => values (get_outcome R snap) = [v]
    | SIBLINGS => v ∈ values (get_outcome R snap)
    | NOTFOUND => deleted v = true ∧ tomb v
    | ERROR => False
    end.
Proof using All.
  intros Hsnap Hgood Hq. unfold get_outcome.
  destruct (Z.ltb_spec (Z.of_nat (length snap)) R) as [|HR]; [done|]. intros _.
  destruct (maximal_sees R snap) as (m & y & Hm & Hle & Hy & Hfy & ->); [done..|].
  rewrite list.Forall_forall in Hgood. destruct (proj1 (Hgood y Hy) Hfy) as (_ & _ & Ht).
  exists (resp_vv y). split; [done|].
  destruct (maximalVersions snap) as [|d [|d' M]]; [by apply elem_of_nil in Hm| |done].
  apply list_elem_of_singleton in Hm as <-. destruct (deleted (resp_vv y)) eqn:Hd; [|done]. split; [done|by apply Ht].
Qed.

(** What a read returns comes from the responses. *)
Lemma outcome_wire R snap :
  Forall good snap → Forall vv_ok (values (get_outcome R snap)) ∧ str_free "|" (get_error (get_outcome R snap)) = true.
Proof.
  intros Hgood. assert (Forall vv_ok (found_versions snap)) as Hf.
  { unfold found_versions. apply list.Forall_fmap, list.Forall_forall. rewrite list.Forall_forall in Hgood.
    intros y [Hfy Hy]%list_elem_of_filter. by destruct (proj1 (Hgood y Hy) Hfy). }
  assert (Forall vv_ok (maximalVersions snap)) as Hm.
  { destruct (maximal_facts snap Hf) as (Hin & _). apply list.Forall_forall. intros v Hv.
    rewrite list.Forall_forall in Hf. apply Hf. by apply Hin. }
  unfold get_outcome. destruct (_ <? R)%Z; [by split|].
  destruct (maximalVersions snap) as [|d [|d' M]]; [by split| |by split]. by destruct (deleted d).
Qed.

End invariant.

(** The owners that acknowledged a write, none being known dead. *)
Lemma acked_owners {Fw : Type} {Cw : ReplicaClient S Fw} {Lw : @ReplicaLaws S _ Fw Cw}
    c now steady key value ctx N W (st : State S) req run r res owners :
  coherent c → str_free "|" key = true → is_u64 now → VectorClock.wire_ok ctx →
  is_Some (world st !! addr (self_ c)) → Router.findOwners (router_ c) key N = Some owners →
  (∀ o, o ∈ owners → known_dead c (node_id o) = false) →
  coordinatePut c now steady key value ctx N W st = Some (Running req run) →
  rtc (write_next (F := Fw) req) run r → result r = Some res → put_ok res = true →
  VectorClock.wire_ok (put_clock res) ∧
  ∃ A, A ⊆+ owners ∧ (W ≤ Z.of_nat (length A))%Z ∧ ∀ n, n ∈ A → holds (world (w_state r)) n key (put_clock res).
Proof.
  intros Hc Hk Hnow Hctx Hs Ho Hal Hput Hw Hres Hok.
  set (vv := mkVV value (bumpedClock c now key ctx (world st)) false).
  assert (vv_ok vv) as Hb by (apply bumped_ok; [apply Hc|done..]).
  destruct (acked_holding (F := Fw) c steady key vv N W Metrics.Put st req run r res Hc Hb Hk Hs Hput Hw Hres Hok)
    as (owners' & A & Ho' & HA & HW & Hcl & Hh). rewrite Ho in Ho'. injection Ho' as <-.
  assert (filter (is_self c) owners ++ omap (remote_target c owners) owners ≡ₚ owners) as Hperm.
  { assert (∀ l, l ⊆ owners → filter (is_self c) l ++ omap (remote_target c owners) l ≡ₚ l) as Hl;
      [|by apply Hl]. induction l as [|o l IH]; intros Hl; [done|]. rewrite filter_cons. cbn.
    unfold remote_target at 1. rewrite (Hal o) by (apply Hl; by apply elem_of_cons; left).
    specialize (IH (λ x Hx, Hl x (list_elem_of_further _ _ _ Hx))).
    case_decide; cbn; rewrite <- ?Permutation_middle; by f_equiv. }
  rewrite Hperm in HA. rewrite Hcl. split; [exact Hb|]. by exists A.
Qed.

(** What a read that returned [res] saw of the version looked for: it, or a newer
    one, alone or among the siblings, or a tombstone that [tomb] describes. *)
Definition sees (cl : VectorClock.clock) (tomb : VersionedValue → Prop) (res : GetResult) : Prop :=
  ∃ v, VectorClock.causal_le cl (clock v) ∧
    match status res with
    | OK => values res = [v]
    | SIBLINGS => v ∈ values res
    | NOTFOUND => deleted v = true ∧ tomb v
    | ERROR => False
    end.

(** A quorum read meets replicas that have the version, and what it returns can be
    put on the wire. *)
Lemma read_meets cl A owners c key N R (st : State S) req run r res :
  coherent c → str_free "|" key = true → Router.findOwners (router_ c) key N = Some owners → A ⊆+ owners →
  (Z.of_nat (length owners) < Z.of_nat (length A) + R)%Z →
  (∀ p, p ∈ A → holds (world st) p key cl) → all_readable (world st) key →
  coordinateGet c key N R st = Some (inr (req, run)) →
  rtc (read_next cl req) run r → r_result r = Some res →
  Forall vv_ok (values res) ∧ str_free "|" (get_error res) = true ∧
  (status res ≠ ERROR → sees cl (λ v, copy (world st) (self_ c) key = Some v) res).
Proof using All.
  intros Hc Hk Ho HA Hq Hh Hrd Hget Hr Hg. destruct (owners_facts c key N owners Hc Ho) as [Hnd _].
  set (tomb v := copy (world st) (self_ c) key = Some v).
  assert (NoDup A) as HndA by (by eapply submseteq_NoDup_sub).
  assert (A ⊆ owners) as HAo by (intros y Hy; by eapply elem_of_submseteq).
  destruct (read_inv_start cl A owners tomb c key N R st req run) as (HK & HR & Hinv); [done..|].
  eapply read_inv_reach in Hinv; [|done|done|done|by rewrite HK|rewrite HR; lia|exact Hr].
  unfold read_inv in Hinv. rewrite Hg in Hinv. destruct Hinv as (_ & snap & _ & Hsn & Hgood & ->). rewrite HR in *.
  destruct (outcome_wire cl A tomb R snap Hgood) as [Hv He]. split_and!; [done..|].
  apply (outcome_sees cl A owners tomb); [done..|lia].
Qed.

(** ** Reads that run beside each other

    The stores and the reads in flight: each is a run of [coordinateGet] by some
    coordinator with the ring, and all of them work on the same stores. *)

Definition in_world (w : World S) (r : @ReadRun S) : @ReadRun S :=
  mkReadRun (with_world w (r_state r)) (responses r) (r_completed r) (r_calling r) (r_returned r)
            (snapshot r) (r_result r) (repairs r).

Inductive reads_next (ring : Router.Router) (key : string) (N R : Z) (cl : VectorClock.clock) :
    World S * list (@ReadRequest * @ReadRun S) → World S * list (@ReadRequest * @ReadRun S) → Prop :=
| reads_start c st l req run :
    coherent c → router_ c = ring → coordinateGet c key N R st = Some (inr (req, run)) →
    reads_next ring key N R cl (world st, l) (world st, l ++ [(req, run)])
| reads_event w l i req r e r' :
    l !! i = Some (req, r) → friendly (F := F) key cl w e → read_step req e (in_world w r) = Some r' →
    reads_next ring key N R cl (w, l) (world (r_state r'), <[i := (req, r')]> l)
| reads_foreign w l a k v :
    friendly (F := F) key cl w (Foreign a k v) → reads_next ring key N R cl (w, l) (apply_at a k v w, l)
| reads_store w l a k v :
    friendly (F := F) key cl w (Store a k v) → reads_next ring key N R cl (w, l) (put_at a k v w, l).

Section beside.
Context (ring : Router.Router) (key : string) (N R : Z) (cl : VectorClock.clock) (A owners : list NodeInfo).
Context (Hkey : str_free "|" key = true) (Hown : Router.findOwners ring key N = Some owners).
Context (Hnd : NoDup owners) (HA : A ⊆+ owners) (Hq : (Z.of_nat (length owners) < Z.of_nat (length A) + R)%Z).

(** [T i] describes the tombstones the [i]-th read may report. *)
Record reads_inv (T : nat → VersionedValue → Prop) (s : World S * list (@ReadRequest * @ReadRun S)) : Prop := {
  rs_holds : ∀ p, p ∈ A → holds s.1 p key cl;
  rs_readable : all_readable s.1 key;
  rs_reads : ∀ i req r, s.2 !! i = Some (req, r) →
    rd_key req = key ∧ rd_R req = R ∧ read_inv cl A owners (T i) req (in_world s.1 r);
}.

Lemma read_inv_world T req r w :
  read_inv cl A owners T req r → (∀ p, p ∈ A → holds w p (rd_key req) cl) → all_readable w (rd_key req) →
  read_inv cl A owners T req (in_world w r).
Proof.
  unfold read_inv. cbn. destruct (r_result r) as [res|].
  - intros [[] Hs] Hh Hr. split; [by split|done].
  - intros [] Hh Hr. by split.
Qed.

Lemma reads_inv_world T w w' l :
  (∀ p, holds w p key cl → holds w' p key cl) → (all_readable w key → all_readable w' key) →
  reads_inv T (w, l) → reads_inv T (w', l).
Proof.
  intros Hh Hr [H1 H2 H3]. split; cbn in *; [by auto..|]. intros i req r Hi.
  destruct (H3 i req r Hi) as (Ek & ER & Hinv). split_and!; [done..|].
  apply (read_inv_world _ _ _ w') in Hinv; rewrite ?Ek; auto.
Qed.

Lemma reads_inv_next T s s' :
  (∀ i v, length s.2 ≤ i → T i v) → reads_next ring key N R cl s s' → reads_inv T s → reads_inv T s'.
Proof using All.
  intros HT Hs. destruct Hs as [c st l req run Hc Hrt Hg|w l i req r e r' Hi Hf Hs|w l a k v Hf|w l a k v Hf]; intros Hinv.
  - destruct Hinv as [H1 H2 H3]. split; cbn in *; [done..|]. intros i req' r [Hl|[Hl Hin]]%lookup_app_Some; [by apply H3|].
    apply list_lookup_singleton_Some in Hin as [Hi [= <- <-]].
    destruct (read_inv_start cl A owners (T i) c key N R st req run) as (Ek & ER & Hr);
      [done|by rewrite Hrt|done|done|intros v _; by apply HT|done|].
    split_and!; [done..|]. apply read_inv_world; by rewrite ?Ek.
  - destruct (rs_reads _ _ Hinv i req r Hi) as (Ek & ER & Hr). cbn in Hr.
    assert (read_inv cl A owners (T i) req r') as Hr'.
    { eapply (read_inv_step cl A owners (T i)); [done|by eapply submseteq_NoDup_sub
        |intros y Hy; by eapply elem_of_submseteq|by rewrite Ek|rewrite ER; lia| |exact Hs|exact Hr]. by rewrite Ek. }
    destruct (read_inv_stores _ _ _ _ _ _ Hr') as [Hh' Hrd']. rewrite Ek in Hh', Hrd'.
    destruct Hinv as [H1 H2 H3]. split; cbn in *; [done..|]. intros j req' r0 Hj.
    destruct (decide (i = j)) as [<-|Hij].
    + rewrite list_lookup_insert_eq in Hj by (by eapply lookup_lt_Some). injection Hj as <- <-.
      split_and!; [done..|]. apply read_inv_world; by rewrite ?Ek.
    + rewrite list_lookup_insert_ne in Hj by done. destruct (H3 j req' r0 Hj) as (Ek' & ER' & Hinv').
      split_and!; [done..|]. apply (read_inv_world _ _ _ (world (r_state r'))) in Hinv'; by rewrite ?Ek'.
  - destruct (friendly_stores cl key w _ _ Hf eq_refl). by apply (reads_inv_world T w).
  - destruct (friendly_stores cl key w _ _ Hf eq_refl). by apply (reads_inv_world T w).
Qed.

Lemma reads_grow s s' : reads_next ring key N R cl s s' → length s.2 ≤ length s'.2.
Proof. destruct 1; cbn; rewrite ?length_app, ?length_insert; lia. Qed.

Lemma reads_inv_reach T s s' :
  (∀ i v, length s.2 ≤ i → T i v) → rtc (reads_next ring key N R cl) s s' → reads_inv T s → reads_inv T s'.
Proof using All.
  intros HT Hr. induction Hr as [|s1 s2 s3 Hs _ IH]; [done|]. intros Hinv. apply IH; [|by eapply reads_inv_next].
  intros i v Hi. apply HT. apply reads_grow in Hs. lia.
Qed.

(** A read among others meets the replicas that hold the version. *)
Lemma reads_meet w l c st req run w' l' r res :
  coherent c → router_ c = ring → (∀ p, p ∈ A → holds w p key cl) → all_readable w key →
  rtc (reads_next ring key N R cl) (w, []) (world st, l) →
  coordinateGet c key N R st = Some (inr (req, run)) →
  rtc (reads_next ring key N R cl) (world st, l ++ [(req, run)]) (w', l') →
  l' !! length l = Some (req, r) → r_result r = Some res →
  (∀ p, p ∈ A → holds w' p key cl) ∧ (status res ≠ ERROR → sees cl (λ v, copy (world st) (self_ c) key = Some v) res).
Proof using All.
  intros Hc Hrt Hh Hrd H1 Hg H2 Hl Hres.
  apply (reads_inv_reach (λ _ _, True)) in H1; [|done|by split]. destruct H1 as [Hh1 Hrd1 Hl1]. cbn in *.
  set (tomb v := copy (world st) (self_ c) key = Some v).
  set (T i := if decide (i = length l) then tomb else λ _, True).
  apply (reads_inv_reach T) in H2.
  - destruct H2 as [Hh2 _ H3]. split; [exact Hh2|]. destruct (H3 _ _ _ Hl) as (Ek & ER & Hinv). cbn in Hinv.
    unfold read_inv in Hinv. cbn in Hinv. rewrite Hres in Hinv. destruct Hinv as (_ & snap & _ & Hsn & Hgood & ->).
    unfold T in Hgood. rewrite decide_True in Hgood by done. rewrite ER.
    apply (outcome_sees cl A owners tomb); [done|by eapply submseteq_NoDup_sub
      |intros y Hy; by eapply elem_of_submseteq|done|done|lia].
  - cbn. intros i v. rewrite length_app. cbn. intros Hi. unfold T. rewrite decide_False by lia. done.
  - split; cbn; [done..|]. intros i req' r0 [Hi|[Hi Hin]]%lookup_app_Some.
    + unfold T. rewrite decide_False by (apply lookup_lt_Some in Hi; lia). exact (Hl1 i req' r0 Hi).
    + apply list_lookup_singleton_Some in Hin as [Hi' [= <- <-]]. unfold T. rewrite decide_True by lia.
      destruct (read_inv_start cl A owners tomb c key N R st req run) as (Ek & ER & Hr); [done|by rewrite Hrt|done..|].
      split_and!; [done..|]. apply read_inv_world; by rewrite ?Ek.
Qed.

End beside.

(** C1: read your writes.  With no owner known dead at the writer, [W + R > |owners|]
    and no stored version of the key that reads back as absent ([all_readable]), a
    write that returned OK is seen by every quorum read of the key that starts
    afterwards, through any coordinator with the same ring, beside any number of other
    such reads and their repairs: if it does not fail it returns a version at least as
    new as the acknowledged clock, alone or among the siblings, or reports the key as
    deleted by such a version that its coordinator held.  Meanwhile other threads may
    do what is [friendly]: apply a REPLICATE that is not concurrent with the write, and
    put any version that does not replace one at least as new as the write by one that
    is not.  The owners that acknowledged the write still hold it after the read. *)
Theorem quorum_read_sees_write {Fw : Type} {Cw : ReplicaClient S Fw} {Lw : @ReplicaLaws S _ Fw Cw}
    cw cr now steady key value ctx N W R (st : State S) req run r res
    owners st' l rreq rrun w' l' rr gres :
  coherent cw → coherent cr → router_ cr = router_ cw →
  str_free "|" key = true → is_u64 now → VectorClock.wire_ok ctx →
  is_Some (world st !! addr (self_ cw)) →
  Router.findOwners (router_ cw) key N = Some owners →
  (∀ o, o ∈ owners → known_dead cw (node_id o) = false) →
  (Z.of_nat (length owners) < W + R)%Z →
  coordinatePut cw now steady key value ctx N W st = Some (Running req run) →
  rtc (write_next (F := Fw) req) run r → result r = Some res → put_ok res = true →
  all_readable (world (w_state r)) key →
  rtc (reads_next (router_ cw) key N R (put_clock res)) (world (w_state r), []) (world st', l) →
  coordinateGet cr key N R st' = Some (inr (rreq, rrun)) →
  rtc (reads_next (router_ cw) key N R (put_clock res)) (world st', l ++ [(rreq, rrun)]) (w', l') →
  l' !! length l = Some (rreq, rr) → r_result rr = Some gres →
  (∃ A, A ⊆+ owners ∧ (W ≤ Z.of_nat (length A))%Z ∧ ∀ n, n ∈ A → holds w' n key (put_clock res)) ∧
  (status gres ≠ ERROR →
   ∃ v, VectorClock.causal_le (put_clock res) (clock v) ∧
     match status gres with
     | OK => values gres = [v]
     | SIBLINGS => v ∈ values gres
     | NOTFOUND => deleted v = true ∧ copy (world st') (self_ cr) key = Some v
     | ERROR => False
     end).
Proof using All.
  intros Hcw Hcr Hrt Hk Hnow Hctx Hs Ho Hal Hq Hput Hw Hres Hok Hrd Hr1 Hget Hr2 Hl Hg.
  destruct (acked_owners (Fw := Fw) cw now steady key value ctx N W st req run r res owners) as (_ & A & HA & HW & Hh);
    [done..|].
  destruct (owners_facts cw key N owners Hcw Ho) as [Hnd _].
  destruct (reads_meet (router_ cw) key N R (put_clock res) A owners Hk Ho Hnd HA ltac:(lia)
              (world (w_state r)) l cr st' rreq rrun w' l' rr gres) as [Hh' Hsee]; [done..|].
  split; [by exists A|exact Hsee].
Qed.

End reads.

(** ** Concrete executions *)

Section executions.
Context {S : Type} `{StorageLaws S} {F : Type} `{!ReplicaClient S F}.

(** The events of the call itself. *)
Definition own_event (e : @Event F) : Prop :=
  match e with Foreign _ _ _ | Store _ _ _ => False | _ => True end.

Lemma own_friendly key cl (w : World S) e : own_event e → friendly key cl w e.
Proof. by destruct e. Qed.

Lemma write_run_reach req es r r' :
  Forall own_event es →
  write_run req es r = Some r' → rtc (write_next (F := F) req) r r'.
Proof.
  intros Hes. revert r. induction Hes as [|e es He Hes IH]; intros r Hr; [by injection Hr as ->|].
  unfold write_run in Hr. cbn [foldl] in Hr. cbn [mbind option_bind] in Hr.
  destruct (write_step req e r) as [r1|] eqn:E.
  - eapply rtc_l; [exists e; split; [by apply own_friendly|done]|]. by apply IH.
  - exfalso. clear -Hr. induction es as [|e' es IH]; [done|]. by apply IH.
Qed.

Lemma read_run_reach cl req es r r' :
  Forall own_event es →
  read_run req es r = Some r' → rtc (read_next (F := F) cl req) r r'.
Proof.
  intros Hes. revert r. induction Hes as [|e es He Hes IH]; intros r Hr; [by injection Hr as ->|].
  unfold read_run in Hr. cbn [foldl] in Hr. cbn [mbind option_bind] in Hr.
  destruct (read_step req e r) as [r1|] eqn:E.
  - eapply rtc_l; [exists e; split; [by apply own_friendly|done]|]. by apply IH.
  - exfalso. clear -Hr. induction es as [|e' es IH]; [done|]. by apply IH.
Qed.

(** A read that has the stores to itself is one of the reads of the cluster. *)
Lemma read_alone ring N R cl req r r' l :
  rtc (read_next (F := F) cl req) r r' →
  rtc (reads_next (F := F) ring (rd_key req) N R cl) (world (r_state r), l ++ [(req, r)]) (world (r_state r'), l ++ [(req, r')]).
Proof.
  induction 1 as [|r1 r2 r3 (e & Hf & Hs) _ IH]; [done|]. eapply rtc_l; [|exact IH].
  replace (l ++ [(req, r2)]) with (<[length l := (req, r2)]> (l ++ [(req, r1)]))
    by (by rewrite insert_app_r_alt, Nat.sub_diag).
  eapply reads_event; [by apply list_lookup_middle|exact Hf|]. by destruct r1 as [[]].
Qed.

Definition readable_at (key : string) (s : S) : Prop :=
  match readLocal s key with Some v => readable v | None => True end.

#[global] Instance readable_at_dec key s : Decision (readable_at key s).
Proof. unfold readable_at, readable. destruct (readLocal s key); apply _. Defined.

Lemma all_readable_check (w : World S) key :
  map_Forall (λ _ s, readable_at key s) w → all_readable w key.
Proof.
  intros Hw n v. unfold copy. destruct (w !! addr n) as [s|] eqn:E; cbn; [|done].
  intros Hr. specialize (Hw _ _ E). unfold readable_at in Hw. by rewrite Hr in Hw.
Qed.

End executions.

(** The three nodes of [Router.r3], with the one-shot client. *)
Module Example3.

Definition net1 : ReplicaClient store Fate := TcpReplicaClient.client "node1".
#[global] Existing Instance net1.

#[global] Instance net1_laws : ReplicaLaws store Fate.
Proof. exact (tcp_laws "node1" eq_refl). Qed.

Definition at_node2 : Coordinator := mkCoordinator Router.n2 Router.r3 (config 20) None.
Definition st0 : State store := mkState boot None InMemoryMetrics.zero.

Definition answered : list (@Event Fate) := [Call 0 RoundTrip; Record_ 0; Wake false].

Lemma coherent_r3 n : n ∈ [Router.n1; Router.n2; Router.n3] →
  coherent (mkCoordinator n Router.r3 (config 20) None).
Proof.
  intros Hn. split; [apply Router.r3_ok| | |].
  - intros m Hm. repeat (apply elem_of_cons in Hn as [->|Hn]; [vm_compute in Hm; by injection Hm|]).
    by apply elem_of_nil in Hn.
  - assert (map_Forall (λ i n, map_Forall (λ j m, addr n = addr m → i = j) (Router.nodes Router.r3))
              (Router.nodes Router.r3)) as Hd by vm_decide.
    intros i j a b Ha Hb. by apply (Hd i a Ha j b Hb).
  - unfold self_ok. repeat (apply elem_of_cons in Hn as [->|Hn]; [vm_decide|]). by apply elem_of_nil in Hn.
Qed.

(** Projections of a started request; the defaults are never reached below. *)
Definition req_of (o : option (@Started store)) : WriteRequest :=
  match o with Some (Running req _) => req | _ => mkWriteRequest "" no_value 0 Metrics.Put 0 end.
Definition run_of (o : option (@Started store)) : @WriteRun store :=
  match o with Some (Running _ run) => run | _ => mkWriteRun st0 0 0 [] [] None end.
Definition put_of (r : @WriteRun store) : PutResult := default (mkPut false ∅ "") (result r).

(** A put at node1 acknowledged by one more replica. *)
Definition put1 := coordinatePut at_node1 50 0 "user:42" "v" ∅ 3 2 st0.
Definition put1_end : @WriteRun store := Eval vm_compute in default (run_of put1) (write_run (req_of put1) answered (run_of put1)).

Lemma put1_reach : rtc (write_next (F := Fate) (req_of put1)) (run_of put1) put1_end.
Proof.
  apply (write_run_reach (F := Fate) (req_of put1) answered);
    [by repeat constructor|vm_refl].
Qed.

Lemma acknowledged_write_on_W_replicas_witness :
  ∃ A, NoDup (addr <$> A) ∧ 2 ≤ length A ∧
    (∀ n, n ∈ A → member at_node1 n ∧ holds (world (w_state put1_end)) n "user:42" (put_clock (put_of put1_end))).
Proof.
  destruct (acknowledged_write_on_W_replicas (F := Fate) at_node1 50 0 "user:42" "v" ∅ 3 2 st0
              (req_of put1) (run_of put1) put1_end (put_of put1_end)) as (owners & _ & _ & Hend).
  - apply coherent_r3. vm_decide.
  - reflexivity.
  - vm_decide.
  - vm_decide.
  - vm_decide.
  - left. vm_refl.
  - apply write_next_any, put1_reach.
  - vm_refl.
  - vm_refl.
  - destruct (Hend put1_reach) as (A & Hnd & Hlen & HA). exists A. split_and!; [exact Hnd| |exact HA].
    unfold dead_owners in Hlen. cbn in Hlen.
    rewrite filter_none in Hlen by (apply list.Forall_forall; done). cbn in Hlen. lia.
Defined.

Lemma write_wait_terminates_witness :
  let all := default (run_of put1) (write_run (req_of put1)
               [Call 0 RoundTrip; Call 0 NoConnection; Record_ 0; Record_ 0] (run_of put1)) in
  ∃ r', write_step (F := Fate) (req_of put1) (Wake false) all = Some r' ∧
        put_ok (put_of r') = true.
Proof.
  cbv zeta. set (all := default _ _).
  destruct (write_wait_terminates (F := Fate) at_node1 0 "user:42" (wr_vv (req_of put1)) 3 2 Metrics.Put st0
              (req_of put1) (run_of put1) all) as (r' & Hs & Hr).
  - apply coherent_r3. vm_decide.
  - vm_decide.
  - reflexivity.
  - vm_decide.
  - vm_refl.
  - apply write_next_any, (write_run_reach (F := Fate) _ [Call 0 RoundTrip; Call 0 NoConnection; Record_ 0; Record_ 0]);
      [by repeat constructor|vm_refl].
  - vm_refl.
  - vm_refl.
  - vm_refl.
  - exists r'. split; [exact Hs|]. unfold put_of. rewrite Hr. vm_refl.
Defined.

(** A read at node2 of what node1 wrote. *)
Definition rreq_of (o : option ((GetResult * State store) + (ReadRequest * @ReadRun store))) : ReadRequest :=
  match o with Some (inr (req, _)) => req | _ => mkReadRequest at_node2 "" 0 0 end.
Definition rrun_of (o : option ((GetResult * State store) + (ReadRequest * @ReadRun store))) : @ReadRun store :=
  match o with Some (inr (_, run)) => run | _ => mkReadRun st0 [] 0 [] [] None None [] end.
Definition get_of (r : @ReadRun store) : GetResult := default (mkGet ERROR [] "") (r_result r).

Definition get1 := coordinateGet at_node2 "user:42" 3 2 (w_state put1_end).
Definition get1_end : @ReadRun store := Eval vm_compute in default (rrun_of get1) (read_run (rreq_of get1) answered (rrun_of get1)).

Lemma quorum_read_sees_write_witness :
  ∃ v, VectorClock.causal_le (put_clock (put_of put1_end)) (clock v) ∧ values (get_of get1_end) = [v].
Proof.
  destruct (quorum_read_sees_write (F := Fate) (Fw := Fate) at_node1 at_node2 50 0 "user:42" "v" ∅ 3 2 2 st0
    (req_of put1) (run_of put1) put1_end (put_of put1_end) [Router.n1; Router.n3; Router.n2]
    (w_state put1_end) [] (rreq_of get1) (rrun_of get1) (world (r_state get1_end)) [(rreq_of get1, get1_end)]
    get1_end (get_of get1_end)) as (_ & Hsee).
  - apply coherent_r3. vm_decide.
  - apply coherent_r3. vm_decide.
  - reflexivity.
  - reflexivity.
  - vm_decide.
  - vm_decide.
  - vm_decide.
  - vm_refl.
  - intros o _. reflexivity.
  - vm_compute. reflexivity.
  - vm_refl.
  - exact put1_reach.
  - vm_refl.
  - vm_refl.
  - apply all_readable_check. vm_decide.
  - apply rtc_refl.
  - vm_refl.
  - apply (read_alone _ _ _ _ (rreq_of get1) (rrun_of get1) get1_end []).
    apply (read_run_reach (F := Fate) _ _ answered); [by repeat constructor|vm_refl].
  - reflexivity.
  - vm_refl.
  - destruct Hsee as (v & Hle & Hv); [vm_compute; discriminate|]. exists v. split; [exact Hle|]. 
    assert (status (get_of get1_end) = OK) as E by (vm_refl). rewrite E in Hv. exact Hv.
Defined.

(** ** What the guarantees do not cover *)

(** The processes that hold a version of the key, by address. *)
Definition holders (key : string) (w : World store) : list Addr :=
  (filter (λ p, is_Some (readLocal p.2 key)) (map_to_list w)).*1.

Definition n4 : NodeInfo := mkNode "node4" "h4" 5004.
Definition only_1_and_2 : option (string → bool) :=
  Some (λ id, String.eqb id "node1" || String.eqb id "node2").
Definition degraded : Coordinator :=
  mkCoordinator Router.n1 (Router.addPhysicalNode n4 Router.r3) (config 20) only_1_and_2.
Definition put2 := coordinatePut degraded 50 0 "user:42" "v" ∅ 3 3 st0.
Definition both_answered : list (@Event Fate) :=
  [Call 0 RoundTrip; Call 0 RoundTrip; Record_ 0; Record_ 0; Wake false].
Definition put2_end : @WriteRun store := Eval vm_compute in
  default (run_of put2) (write_run (req_of put2) both_answered (run_of put2)).

(** One replica can be counted for two acknowledgements.  The key's owners
    are node1, node4 and node3; the last two are known dead and both are
    replaced by the same stand-in, node2.  A write with W = 3 succeeds although
    only two processes hold it. *)
Theorem two_dead_owners_share_a_standin :
  write_run (F := Fate) (req_of put2) both_answered (run_of put2) = Some put2_end ∧
  wr_W (req_of put2) = 3%Z ∧ put_ok (put_of put2_end) = true ∧
  length (holders "user:42" (world (w_state put2_end))) = 2.
Proof. split_and!; vm_refl. Qed.

(** Versions written by node2 in sequence. *)
Definition ver (n : Z) (d : string) : VersionedValue := mkVV d (VectorClock.set_at ∅ "node2" n (40 + n)) false.
Definition behind : World store := holding Router.n2 "user:42" (ver 2 "b") (holding Router.n1 "user:42" (ver 1 "a") boot).
Definition get2 := coordinateGet at_node1 "user:42" 3 2 (mkState behind None InMemoryMetrics.zero).
Definition overtaken : list (@Event Fate) :=
  [Call 1 RoundTrip; Record_ 0; Foreign (addr Router.n1) "user:42" (ver 3 "c"); Wake false].
Definition get2_end : @ReadRun store := Eval vm_compute in
  default (rrun_of get2) (read_run (rreq_of get2) overtaken (rrun_of get2)).

(** A read can undo a newer write on the coordinator's own store.  The read
    at node1 finds its copy older than node2's; before it repairs, a REPLICATE
    of a yet newer version is stored and acknowledged at node1; the repair then
    overwrites it with the older one. *)
Theorem local_repair_can_regress :
  read_run (F := Fate) (rreq_of get2) overtaken (rrun_of get2) = Some get2_end ∧
  copy (apply_at (addr Router.n1) "user:42" (ver 3 "c") behind) Router.n1 "user:42" = Some (ver 3 "c") ∧
  copy (world (r_state get2_end)) Router.n1 "user:42" = Some (ver 2 "b") ∧
  VectorClock.compare (clock (ver 2 "b")) (clock (ver 3 "c")) = VectorClock.B_DOMINATES.
Proof. split_and!; vm_refl. Qed.

(** The test of a replicated version at a node. *)
Definition tests (w : World store) (n : NodeInfo) (key : string) (v : VersionedValue) : bool :=
  match w !! addr n with Some s => replicate_stores s key v | None => false end.

(** Two REPLICATEs served by two threads of one replica can regress it.  Neither
    holds a lock between its test and its put: both tests pass on the old version, the
    newer version is put first and the older one replaces it.  One after the other
    they keep the newer one. *)
Theorem racing_replicates_can_regress :
  tests behind Router.n1 "user:42" (ver 3 "c") = true ∧ tests behind Router.n1 "user:42" (ver 2 "b") = true ∧
  copy (put_at (addr Router.n1) "user:42" (ver 2 "b") (put_at (addr Router.n1) "user:42" (ver 3 "c") behind))
    Router.n1 "user:42" = Some (ver 2 "b") ∧
  copy (apply_at (addr Router.n1) "user:42" (ver 2 "b") (apply_at (addr Router.n1) "user:42" (ver 3 "c") behind))
    Router.n1 "user:42" = Some (ver 3 "c").
Proof. split_and!; vm_refl. Qed.

Definition del1 := coordinateDelete at_node1 60 0 "user:42" ∅ 3 3
  (mkState (holding Router.n1 "user:42" (ver 1 "a") boot) None InMemoryMetrics.zero).
Definition del1_end : @WriteRun store := Eval vm_compute in default (run_of del1)
  (write_run (req_of del1) both_answered (run_of del1)).
Definition get3 := coordinateGet at_node2 "user:42" 3 2 (w_state del1_end).
Definition from_node3 : list (@Event Fate) := [Call 1 RoundTrip; Record_ 0; Wake false].
Definition get3_end : @ReadRun store := Eval vm_compute in
  default (rrun_of get3) (read_run (rreq_of get3) from_node3 (rrun_of get3)).

(** A deleted key can read back as an empty value.  After a delete that all
    three replicas acknowledged, a quorum read at node2 answered by itself and
    node3 returns OK with the empty string instead of NOTFOUND. *)
Theorem deleted_key_reads_as_empty_value :
  write_run (F := Fate) (req_of del1) both_answered (run_of del1) = Some del1_end ∧
  put_ok (put_of del1_end) = true ∧ acks del1_end = 3%Z ∧
  read_run (F := Fate) (rreq_of get3) from_node3 (rrun_of get3) = Some get3_end ∧
  status (get_of get3_end) = OK ∧ data <$> values (get_of get3_end) = [""].
Proof. split_and!; vm_refl. Qed.

End Example3.

(** ** Racing writes at one coordinator *)

(** Two puts at the same coordinator that both read the local clock before
    either stores its value carry equal clocks; replicas that keep different
    ones of the two values are then indistinguishable to a read, which returns
    the first it hears of and repairs neither. *)
Theorem racing_puts_share_a_clock {S : Type} `{StorageLaws S} c now1 now2 key ctx a b (w : World S) p q :
  self_ok c → is_u64 now1 → is_u64 now2 → VectorClock.wire_ok ctx →
  (∀ now, size (VectorClock.set now ctx (node_id (self_ c)) (u64 (bumped_base c key ctx w + 1)))
     ≤ max_clock_entries (defaults_ c)) →
  let va := mkVV a (bumpedClock c now1 key ctx w) false in
  let vb := mkVV b (bumpedClock c now2 key ctx w) false in
  VectorClock.compare (clock va) (clock vb) = VectorClock.EQUAL ∧
  maximalVersions [mkResp p true va; mkResp q true vb] = [va] ∧
  stale va (mkResp q true vb) = false.
Proof.
  intros Hid Hn1 Hn2 Hctx Hsz va vb.
  assert (VectorClock.compare (clock va) (clock vb) = VectorClock.EQUAL) as Hab.
  { apply VectorClock.compare_spec; [by apply bumped_ok..|]. intros k. unfold va, vb. cbn [clock].
    by rewrite !bumped_get by apply Hsz. }
  assert (∀ v, vv_ok v → VectorClock.compare (clock v) (clock v) = VectorClock.EQUAL) as Hrefl.
  { intros v Hv. apply VectorClock.compare_spec; [by apply vv_ok_wf..|]. by intros k. }
  assert (VectorClock.compare (clock vb) (clock va) = VectorClock.EQUAL) as Hba.
  { apply VectorClock.compare_spec; [by apply bumped_ok..|].
    apply VectorClock.compare_spec in Hab; [by symmetry|by apply bumped_ok..]. }
  pose proof (Hrefl va (bumped_ok c now1 key ctx w Hid Hn1 Hctx)) as Haa.
  pose proof (Hrefl vb (bumped_ok c now2 key ctx w Hid Hn2 Hctx)) as Hbb.
  split_and!; [done| |unfold stale; cbn [resp_found resp_vv]; by rewrite Hab].
  unfold maximalVersions. cbn [filter list_filter fmap list_fmap resp_found resp_vv].
  rewrite !decide_True by done. cbn [fmap list_fmap foldl existsb resp_vv].
  rewrite Haa, Hba, Hab, Hbb, !(bool_decide_eq_false_2 (VectorClock.EQUAL = VectorClock.A_DOMINATES)) by done.
  cbn [existsb orb app]. by rewrite Hab.
Qed.

Lemma racing_puts_share_a_clock_witness :
  VectorClock.compare (bumpedClock at_node1 50 "k" ∅ boot) (bumpedClock at_node1 51 "k" ∅ boot) = VectorClock.EQUAL.
Proof.
  apply (racing_puts_share_a_clock at_node1 50 51 "k" ∅ "a" "b" boot Router.n1 Router.n2).
  - vm_decide.
  - vm_decide.
  - vm_decide.
  - vm_decide.
  - intros now. vm_compute. lia.
Defined.
