(* ===== verification/Events.v ===== *)
(** * Membership events (src/gossip/member_event.h, src/gossip/member_event.cpp)

    The events that SWIM messages carry and their text form
    ["TYPE:node_id:host:port:incarnation"], lists of them joined with [';'].
    [EventType] is a C++ enum read back from one character by a cast, so any
    other character is a value of it too.  The theorem shows that a list of
    well-formed events survives the wire. *)
From S2P Require Import Prelude Util.
From Stdlib Require Import Ascii String ZArith Lia.
From stdpp Require Import base gmap list strings numbers.

Module EventType.
Inductive t := Join | Suspect | Dead | Leave | Alive | Other (c : ascii).

#[global] Instance eq_dec : EqDecision t.
Proof. solve_decision. Defined.

(** [static_cast<char>] and [static_cast<EventType>]. *)
Definition to_char (x : t) : ascii :=
  match x with
  | Join => "J" | Suspect => "S" | Dead => "D" | Leave => "L" | Alive => "A" | Other c => c
  end.

Definition of_char (c : ascii) : t :=
  if Ascii.eqb c "J" then Join else if Ascii.eqb c "S" then Suspect
  else if Ascii.eqb c "D" then Dead else if Ascii.eqb c "L" then Leave
  else if Ascii.eqb c "A" then Alive else Other c.
End EventType.

Record MemberEvent := mkEvent {
  ev_type : EventType.t;
  ev_id : string;
  ev_host : string;
  ev_port : Z;
  incarnation : Z;
}.

#[global] Instance MemberEvent_eq_dec : EqDecision MemberEvent.
Proof. solve_decision. Defined.

Definition no_event : MemberEvent := mkEvent EventType.Alive "" "" 0 0.

Module MemberEvent.

Definition serialize (e : MemberEvent) : string :=
  String (EventType.to_char (ev_type e)) (":" +:+ ev_id e +:+ ":" +:+ ev_host e +:+ ":"
    +:+ to_string (ev_port e) +:+ ":" +:+ to_string (incarnation e)).

(** The early returns leave the remaining fields at their defaults. *)
Definition deserialize (s : string) : MemberEvent :=
  match s with
  | String c (String c1 (String _ _)) =>
      if negb (Ascii.eqb c1 ":") then no_event else
      let type := EventType.of_char c in
      let p1 := 2 in
      match find_from ":" s p1 with
      | None => mkEvent type "" "" 0 0
      | Some p2 =>
          let node_id := substr s p1 (p2 - p1) in
          let p1 := p2 + 1 in
          match find_from ":" s p1 with
          | None => mkEvent type node_id "" 0 0
          | Some p2 =>
              let host := substr s p1 (p2 - p1) in
              let p1 := p2 + 1 in
              match find_from ":" s p1 with
              | None => mkEvent type node_id host 0 0
              | Some p2 =>
                  let port := match stoi (substr s p1 (p2 - p1)) with
                              | Some n => u16 n | None => 0%Z end in
                  let p1 := p2 + 1 in
                  let inc := match stoull (substr_from s p1) with Some n => n | None => 0%Z end in
                  mkEvent type node_id host port inc
              end
          end
      end
  | _ => no_event
  end.

End MemberEvent.

Definition serializeEvents (events : list MemberEvent) : string :=
  str_join ";" (MemberEvent.serialize <$> events).

(** The loop splits at every [';'] and skips empty tokens. *)
Definition deserializeEvents (s : string) : list MemberEvent :=
  if str_empty s then []
  else MemberEvent.deserialize <$> filter (λ token, token ≠ "") (splitAll s ";").

(** ** Round trip *)

Definition host_ok (h : string) : Prop :=
  str_free ":" h = true ∧ str_free ";" h = true ∧ str_free "|" h = true.

(** Events the node emits. *)
Record event_ok (e : MemberEvent) : Prop := {
  eok_type : ∀ c, ev_type e ≠ EventType.Other c;
  eok_id : isValidNodeId (ev_id e) = true;
  eok_host : host_ok (ev_host e);
  eok_port : is_u16 (ev_port e);
  eok_inc : is_u64 (incarnation e);
}.

Lemma of_char_to_char x : (∀ c, x ≠ EventType.Other c) → EventType.of_char (EventType.to_char x) = x.
Proof. intros Hx. destruct x; try reflexivity. by destruct (Hx c). Qed.

(** One field read at [p1]: its end, its text and what follows. *)
Lemma field_at s p1 a c b :
  str_drop p1 s = a +:+ String c b → str_free c a = true →
  find_from c s p1 = Some (p1 + String.length a) ∧
  substr s p1 (p1 + String.length a - p1) = a ∧
  str_drop (p1 + String.length a + 1) s = b.
Proof.
  intros Hs Ha. unfold find_from, substr. rewrite Hs, find_char_app by done. split_and!; [done| |].
  - replace (p1 + String.length a - p1) with (String.length a) by lia. apply str_take_app.
  - rewrite <- Nat.add_assoc, <- str_drop_drop, Hs. apply str_drop_app_S.
Qed.

Lemma deserialize_serialize_event e : event_ok e → MemberEvent.deserialize (MemberEvent.serialize e) = e.
Proof.
  intros [Ht Hid (Hh & _ & _) Hp Hi]. destruct e as [t id h p i].
  unfold MemberEvent.serialize. cbn [ev_type ev_id ev_host ev_port incarnation] in *.
  pose proof (valid_id_free id ":" Hid eq_refl) as Hidf.
  assert (str_free ":" (to_string p) = true) as Hpf.
  { apply to_string_free; [|done]. unfold is_u16, is_u64, U64_MAX in *. lia. }
  pose proof (of_char_to_char t Ht) as Hc. pose proof (stoi_to_string p Hp) as Hsp.
  pose proof (stoull_to_string i Hi) as Hsi.
  destruct id as [|i0 id']; [by apply valid_id_nonempty in Hid|]. set (id := String i0 id') in *.
  generalize dependent (to_string p). intros ps Hpf Hsp.
  generalize dependent (to_string i). intros ns Hsi.
  set (s := String (EventType.to_char t) _).
  assert (str_drop 2 s = id +:+ String ":" (h +:+ String ":" (ps +:+ String ":" ns))) as Hs by reflexivity.
  destruct (field_at s 2 id _ _ Hs Hidf) as (E1 & E2 & E3).
  destruct (field_at s _ h _ _ E3 Hh) as (E4 & E5 & E6).
  destruct (field_at s _ ps _ _ E6 Hpf) as (E7 & E8 & E9).
  assert (∃ r, s = String (EventType.to_char t) (String ":" (String i0 r))) as [r Hr] by (eexists; reflexivity).
  clearbody s. subst s. unfold MemberEvent.deserialize. cbv zeta.
  change (negb (Ascii.eqb ":" ":")) with false. cbv iota.
    rewrite E1, E4, E7, E2, E5, E8. unfold substr_from. rewrite E9, Hsp, Hsi, Hc.
  by rewrite u16_id.
Qed.

Lemma serialize_event_free e : event_ok e → str_free ";" (MemberEvent.serialize e) = true ∧
  str_free "|" (MemberEvent.serialize e) = true.
Proof.
  intros [Ht Hid (_ & Hh1 & Hh2) Hp Hi].
  assert (is_u64 (ev_port e)) as Hp64 by (unfold is_u16, is_u64, U64_MAX in *; lia).
  assert (∀ c, id_char_ok c = false → is_digit c = false → str_free c (ev_host e) = true →
    Ascii.eqb (EventType.to_char (ev_type e)) c = false → Ascii.eqb ":" c = false →
    str_free c (MemberEvent.serialize e) = true) as Hc.
  { intros c Hc1 Hc2 Hh Ht' Hcol. unfold MemberEvent.serialize.
    change (str_free c (String ?x ?r)) with (negb (Ascii.eqb x c) && str_free c r). rewrite Ht'.
    rewrite !str_free_app, (valid_id_free _ c Hid Hc1), Hh, !to_string_free by done.
    change (str_free c ":") with (negb (Ascii.eqb ":" c) && true). by rewrite Hcol. }
  split; apply Hc; try done; destruct (ev_type e) eqn:E; try reflexivity; by destruct (Ht c).
Qed.

Lemma deserialize_events_ok l :
  Forall event_ok l → deserializeEvents (serializeEvents l) = l.
Proof.
  intros Hl. unfold deserializeEvents, serializeEvents.
  destruct l as [|e l]; [done|].
  assert (Forall (λ x, str_free ";" x = true) (MemberEvent.serialize <$> e :: l)) as Hfree.
  { apply list.Forall_fmap. eapply list.Forall_impl; [exact Hl|]. intros x Hx. by apply serialize_event_free. }
  assert (Forall (λ x, x ≠ "") (MemberEvent.serialize <$> e :: l)) as Hne.
  { apply list.Forall_fmap, list.Forall_forall. intros x _. discriminate. }
  destruct (str_empty (str_join ";" (MemberEvent.serialize <$> e :: l))) eqn:E.
  { apply str_empty_spec in E. by destruct l. }
  rewrite splitAll_join, filter_all by done. rewrite <- list_fmap_compose.
  apply list_fmap_id_on. rewrite list.Forall_forall in Hl. intros x Hx. by apply deserialize_serialize_event, Hl.
Qed.

(** A list of events that the node emits reads back unchanged at the other
    end of the wire. *)
Theorem events_roundtrip l :
  Forall event_ok l → deserializeEvents (serializeEvents l) = l.
Proof. apply deserialize_events_ok. Qed.

Lemma events_roundtrip_witness :
  deserializeEvents (serializeEvents [mkEvent EventType.Alive "node1" "10.0.0.1" 5001 3;
                                      mkEvent EventType.Leave "node-2.b" "" 0 0]) =
  [mkEvent EventType.Alive "node1" "10.0.0.1" 5001 3; mkEvent EventType.Leave "node-2.b" "" 0 0].
Proof.
  apply events_roundtrip. repeat (apply list.Forall_cons; split); try apply Forall_nil_2;
    (split; [intros c; discriminate|reflexivity|vm_decide|vm_decide|vm_decide]).
Defined.

(** Whatever the bytes, the numbers parsed are in range. *)
Lemma deserialize_event_u64 s : is_u64 (incarnation (MemberEvent.deserialize s)).
Proof.
  assert (is_u64 0) as H0 by vm_decide. unfold MemberEvent.deserialize, no_event.
  repeat (case_match; cbn; try done); by eapply stoull_range.
Qed.

Lemma deserialize_events_u64 s : Forall (λ e, is_u64 (incarnation e)) (deserializeEvents s).
Proof.
  unfold deserializeEvents. destruct (str_empty s); [apply Forall_nil_2|].
  apply list.Forall_fmap, list.Forall_forall. intros x _. apply deserialize_event_u64.
Qed.

(** Malformed tokens: too short, no second colon, a host with a colon. *)
Example malformed_events :
  MemberEvent.deserialize "A:" = no_event ∧
  MemberEvent.deserialize "D:node1" = mkEvent EventType.Dead "" "" 0 0 ∧
  MemberEvent.deserialize "A:node1:::1:5001:3" = mkEvent EventType.Alive "node1" "" 0 1.
Proof. vm_compute. repeat split. Qed.
