(* ===== verification/Membership.v ===== *)
(** * SWIM membership (src/gossip/swim.h, src/gossip/swim.cpp)

    The membership state machine of one node: what it holds about its peers,
    its own incarnation, and the queue of events to piggyback.  Every public
    operation takes the lock for its whole body, so each is one atomic
    definition; the callbacks it fires under the lock are returned, in order.
    The steady clock is an argument, and the shuffle of [randomPeers] is a
    parameter.

    The theorems: an administrative departure is final, whatever arrives after
    it; records never go back to an older incarnation; the digest is a function
    of the view alone; and a push-pull exchange of full states makes two views
    agree, unless a node is held alive at an incarnation it does not know. *)
From S2P Require Import Prelude Util Ring Events.
From Stdlib Require Import Ascii String ZArith Lia.
From stdpp Require Import base gmap list strings numbers.

Module MemberState.
Inductive t := Alive | Suspect | Dead | Left.

#[global] Instance eq_dec : EqDecision t.
Proof. solve_decision. Defined.
End MemberState.

Record MemberEntry := mkMember {
  info : NodeInfo;
  state : MemberState.t;
  entry_inc : Z;
  suspect_since : Z;
}.

#[global] Instance MemberEntry_eq_dec : EqDecision MemberEntry.
Proof. solve_decision. Defined.

(** What [fireCallbacks] hands to every registered callback. *)
Definition Change : Type := NodeInfo * MemberState.t.

(** ** Digest of one entry *)

(** The eight bytes of the incarnation, least significant first. *)
Fixpoint inc_bytes (n : nat) (i : Z) : string :=
  match n with
  | O => EmptyString
  | S n => String (char_of (Z.land i 255)) (inc_bytes n (Z.shiftr i 8))
  end.

Definition sep : string := String (char_of 1) EmptyString.

Definition entryDigest (id : string) (state_class : ascii) (inc : Z) : Z :=
  hash64 (id +:+ sep +:+ String state_class (sep +:+ inc_bytes 8 inc)).

Definition stateClass (s : MemberState.t) : ascii :=
  match s with
  | MemberState.Dead => "D"
  | MemberState.Left => "L"
  | _ => "A"
  end.

Module Swim.

Record Swim := mkSwim {
  self_ : NodeInfo;
  incarnation_ : Z;
  self_left_ : bool;
  suspicion_mult_ : Z;
  members_ : gmap string MemberEntry;
  pending_events_ : list (MemberEvent * Z);
}.

Definition new (self : NodeInfo) (suspicion_mult : Z) : Swim :=
  mkSwim self 0 false suspicion_mult ∅ [].

Definition self_id (s : Swim) : string := node_id (self_ s).

Definition with_members (m : gmap string MemberEntry) (s : Swim) : Swim :=
  mkSwim (self_ s) (incarnation_ s) (self_left_ s) (suspicion_mult_ s) m (pending_events_ s).
Definition with_incarnation (i : Z) (s : Swim) : Swim :=
  mkSwim (self_ s) i (self_left_ s) (suspicion_mult_ s) (members_ s) (pending_events_ s).
Definition with_left (s : Swim) : Swim :=
  mkSwim (self_ s) (incarnation_ s) true (suspicion_mult_ s) (members_ s) (pending_events_ s).
Definition with_pending (l : list (MemberEvent * Z)) (s : Swim) : Swim :=
  mkSwim (self_ s) (incarnation_ s) (self_left_ s) (suspicion_mult_ s) (members_ s) l.

(** [max(3, 3 * ceil(log2(n + 1)))] with [n = members_.size() + 1]. *)
Definition disseminationLimit (s : Swim) : Z :=
  let n := (Z.of_nat (size (members_ s)) + 1)%Z in
  Z.max 3 (3 * Z.log2_up (n + 1)).

Definition enqueueEvent (e : MemberEvent) (s : Swim) : Swim :=
  with_pending (pending_events_ s ++ [(e, disseminationLimit s)]) s.

(** ** [applyEvent] *)

(** The branches of the [switch]: [None] is [return false], otherwise the new
    entry and the callbacks fired. *)
Definition on_alive (e : MemberEvent) (it : option MemberEntry) : option (MemberEntry * list Change) :=
  match it with
  | None =>
      let entry := mkMember (mkNode (ev_id e) (ev_host e) (ev_port e)) MemberState.Alive (incarnation e) 0 in
      Some (entry, [(info entry, MemberState.Alive)])
  | Some m =>
      if decide (state m = MemberState.Left) then None
      else if (incarnation e <=? entry_inc m)%Z then None
      else
        let i := if str_empty (ev_host e) then info m
                 else mkNode (node_id (info m)) (ev_host e) (ev_port e) in
        Some (mkMember i MemberState.Alive (incarnation e) (suspect_since m), [(i, MemberState.Alive)])
  end.

Definition on_suspect (now : Z) (e : MemberEvent) (it : option MemberEntry)
  : option (MemberEntry * list Change) :=
  match it with
  | None => None
  | Some m =>
      if (incarnation e <? entry_inc m)%Z then None
      else if decide (state m = MemberState.Dead) then None
      else if decide (state m = MemberState.Left) then None
      else if bool_decide (state m = MemberState.Suspect) && (incarnation e <=? entry_inc m)%Z then None
      else Some (mkMember (info m) MemberState.Suspect (incarnation e) now, [])
  end.

Definition on_dead (e : MemberEvent) (it : option MemberEntry) : option (MemberEntry * list Change) :=
  match it with
  | None =>
      Some (mkMember (mkNode (ev_id e) (ev_host e) (ev_port e)) MemberState.Dead (incarnation e) 0, [])
  | Some m =>
      if decide (state m = MemberState.Dead) then None
      else if decide (state m = MemberState.Left) then None
      else if (incarnation e <? entry_inc m)%Z then None
      else Some (mkMember (info m) MemberState.Dead (incarnation e) (suspect_since m),
                 [(info m, MemberState.Dead)])
  end.

Definition on_leave (e : MemberEvent) (it : option MemberEntry) : option (MemberEntry * list Change) :=
  match it with
  | None =>
      Some (mkMember (mkNode (ev_id e) (ev_host e) (ev_port e)) MemberState.Left (incarnation e) 0, [])
  | Some m =>
      if decide (state m = MemberState.Left) then None
      else Some (mkMember (info m) MemberState.Left (entry_inc m) (suspect_since m),
                 [(info m, MemberState.Left)])
  end.

Definition on_event (now : Z) (e : MemberEvent) (it : option MemberEntry)
  : option (MemberEntry * list Change) :=
  match ev_type e with
  | EventType.Join | EventType.Alive => on_alive e it
  | EventType.Suspect => on_suspect now e it
  | EventType.Dead => on_dead e it
  | EventType.Leave => on_leave e it
  | EventType.Other _ => None
  end.

Definition self_alive (s : Swim) : MemberEvent :=
  mkEvent EventType.Alive (self_id s) (host (self_ s)) (port (self_ s)) (incarnation_ s).

(** An event about this node itself. *)
Definition on_self (e : MemberEvent) (s : Swim) : Swim * list Change * bool :=
  match ev_type e with
  | EventType.Leave =>
      if self_left_ s then (s, [], false)
      else (with_left s, [(self_ s, MemberState.Left)], true)
  | EventType.Suspect | EventType.Dead =>
      if (incarnation e <? incarnation_ s)%Z then (s, [], false)
      else
        let s' := with_incarnation (u64 (incarnation e + 1)) s in
        (enqueueEvent (self_alive s') s', [], true)
  | _ => (s, [], false)
  end.

Definition applyEvent (now : Z) (e : MemberEvent) (s : Swim) : Swim * list Change * bool :=
  if String.eqb (ev_id e) (self_id s) then on_self e s
  else match on_event now e (members_ s !! ev_id e) with
       | None => (s, [], false)
       | Some (entry, fired) => (with_members (<[ev_id e := entry]> (members_ s)) s, fired, true)
       end.

(** ** The other operations *)

(** The effective incarnation, [None] when the joiner is tombstoned. *)
Definition applyDirectJoin (e : MemberEvent) (s : Swim) : Swim * list Change * option Z :=
  if String.eqb (ev_id e) (self_id s) then (s, [], Some (incarnation_ s))
  else match members_ s !! ev_id e with
  | None =>
      let entry := mkMember (mkNode (ev_id e) (ev_host e) (ev_port e)) MemberState.Alive (incarnation e) 0 in
      (with_members (<[ev_id e := entry]> (members_ s)) s, [(info entry, MemberState.Alive)],
       Some (incarnation e))
  | Some m =>
      if decide (state m = MemberState.Left) then (s, [], None)
      else
        let eff := Z.max (incarnation e) (u64 (entry_inc m + 1)) in
        let changed := negb (bool_decide (state m = MemberState.Alive)) in
        let i := if str_empty (ev_host e) then info m
                 else mkNode (node_id (info m)) (ev_host e) (ev_port e) in
        (with_members (<[ev_id e := mkMember i MemberState.Alive eff (suspect_since m)]> (members_ s)) s,
         if changed then [(i, MemberState.Alive)] else [], Some eff)
  end.

Definition with_state (st : MemberState.t) (m : MemberEntry) : MemberEntry :=
  mkMember (info m) st (entry_inc m) (suspect_since m).

(** The events a node emits about a peer carry no address. *)
Definition about (t : EventType.t) (id : string) (inc : Z) : MemberEvent := mkEvent t id "" 0 inc.

Definition leave (id : string) (s : Swim) : Swim * list Change :=
  if String.eqb id (self_id s) then
    if self_left_ s then (s, [])
    else
      let s' := with_left s in
      (enqueueEvent (about EventType.Leave id (incarnation_ s)) s', [(self_ s, MemberState.Left)])
  else match members_ s !! id with
  | None => (s, [])
  | Some m =>
      if decide (state m = MemberState.Left) then (s, [])
      else
        let s' := with_members (<[id := with_state MemberState.Left m]> (members_ s)) s in
        (enqueueEvent (about EventType.Leave id (entry_inc m)) s', [(info m, MemberState.Left)])
  end.

Definition hasLeft (s : Swim) : bool := self_left_ s.

Definition suspect (now : Z) (id : string) (s : Swim) : Swim :=
  match members_ s !! id with
  | Some m =>
      if decide (state m = MemberState.Alive) then
        let s' := with_members (<[id := mkMember (info m) MemberState.Suspect (entry_inc m) now]> (members_ s)) s in
        enqueueEvent (about EventType.Suspect id (entry_inc m)) s'
      else s
  | None => s
  end.

Definition confirmDead (id : string) (s : Swim) : Swim * list Change :=
  match members_ s !! id with
  | None => (s, [])
  | Some m =>
      if decide (state m = MemberState.Dead) then (s, [])
      else if decide (state m = MemberState.Left) then (s, [])
      else
        let s' := with_members (<[id := with_state MemberState.Dead m]> (members_ s)) s in
        (enqueueEvent (about EventType.Dead id (entry_inc m)) s', [(info m, MemberState.Dead)])
  end.

Definition reachable (st : MemberState.t) : bool :=
  match st with MemberState.Alive | MemberState.Suspect => true | _ => false end.

Definition alivePeers (s : Swim) : list NodeInfo :=
  (λ kv, info kv.2) <$> filter (λ kv, reachable (state kv.2) = true) (entries (members_ s)).

Definition deadPeers (s : Swim) : list NodeInfo :=
  (λ kv, info kv.2) <$> filter (λ kv, state kv.2 = MemberState.Dead) (entries (members_ s)).

Definition allMembers (s : Swim) : list MemberEntry :=
  snd <$> filter (λ kv, state kv.2 ≠ MemberState.Dead ∧ state kv.2 ≠ MemberState.Left) (entries (members_ s)).

(** [shuffle] stands for [std::shuffle] with the node's generator. *)
Definition randomPeers (shuffle : list NodeInfo → list NodeInfo) (k : Z) (exclude : list string) (s : Swim)
  : list NodeInfo :=
  let candidates :=
    (λ kv, info kv.2) <$>
      filter (λ kv, (state kv.2 ≠ MemberState.Dead ∧ state kv.2 ≠ MemberState.Left) ∧ kv.1 ∉ exclude)
             (entries (members_ s)) in
  let candidates := shuffle candidates in
  if (k <? Z.of_nat (length candidates))%Z then take (Z.to_nat k) candidates else candidates.

(** Every pending event goes out once more; spent ones leave the queue. *)
Definition getEventsToSend (s : Swim) : list MemberEvent * Swim :=
  (fst <$> pending_events_ s,
   with_pending (filter (λ p, 0 < p.2)%Z ((λ p, (p.1, (p.2 - 1)%Z)) <$> pending_events_ s)) s).

Definition refute (s : Swim) : Z * Swim :=
  let s' := with_incarnation (u64 (incarnation_ s + 1)) s in
  (incarnation_ s', enqueueEvent (self_alive s') s').

Definition isAlive (id : string) (s : Swim) : bool :=
  match members_ s !! id with None => false | Some m => reachable (state m) end.

Definition stateOf (id : string) (s : Swim) : option MemberState.t :=
  if String.eqb id (self_id s)
  then Some (if self_left_ s then MemberState.Left else MemberState.Alive)
  else state <$> members_ s !! id.

Definition member_digest (kv : string * MemberEntry) : Z :=
  let cls := stateClass (state kv.2) in
  entryDigest kv.1 cls (if Ascii.eqb cls "A" then entry_inc kv.2 else 0).

Definition digest (s : Swim) : Z :=
  foldl (λ h kv, Z.lxor h (member_digest kv))
    (entryDigest (self_id s) (if self_left_ s then "L" else "A")%char
                 (if self_left_ s then 0 else incarnation_ s)%Z)
    (entries (members_ s)).

Definition entry_event (kv : string * MemberEntry) : MemberEvent :=
  let t := match state kv.2 with
           | MemberState.Dead => EventType.Dead
           | MemberState.Left => EventType.Leave
           | _ => EventType.Alive
           end in
  mkEvent t kv.1 (host (info kv.2)) (port (info kv.2)) (entry_inc kv.2).

Definition fullState (s : Swim) : list MemberEvent :=
  mkEvent (if self_left_ s then EventType.Leave else EventType.Alive)
          (self_id s) (host (self_ s)) (port (self_ s)) (incarnation_ s)
  :: (entry_event <$> entries (members_ s)).

(** One iteration of [expireSuspects]. *)
Definition expire_one (now timeout : Z) (acc : Swim * list string * list Change)
  (kv : string * MemberEntry) : Swim * list string * list Change :=
  let '(s, expired, fired) := acc in
  let '(id, m) := kv in
  if bool_decide (state m = MemberState.Suspect) && (timeout <=? now - suspect_since m)%Z then
    let s' := with_members (<[id := with_state MemberState.Dead m]> (members_ s)) s in
    (enqueueEvent (about EventType.Dead id (entry_inc m)) s', expired ++ [id],
     fired ++ [(info m, MemberState.Dead)])
  else acc.

Definition expireSuspects (now timeout : Z) (s : Swim) : Swim * list string * list Change :=
  foldl (expire_one now timeout) (s, [], []) (entries (members_ s)).

Definition memberCount (s : Swim) : nat :=
  length (filter (λ kv, state kv.2 ≠ MemberState.Dead ∧ state kv.2 ≠ MemberState.Left) (entries (members_ s))).

(** ** Reachable states *)

(** Any operation, in any order; events carry 64-bit incarnations. *)
Inductive step : Swim → Swim → Prop :=
| step_event now e s : is_u64 (incarnation e) → step s (applyEvent now e s).1.1
| step_join e s : is_u64 (incarnation e) → step s (applyDirectJoin e s).1.1
| step_leave id s : step s (leave id s).1
| step_suspect now id s : step s (suspect now id s)
| step_confirm id s : step s (confirmDead id s).1
| step_expire now timeout s : step s (expireSuspects now timeout s).1.1
| step_send s : step s (getEventsToSend s).2
| step_enqueue e s : step s (enqueueEvent e s)
| step_refute s : step s (refute s).2.

Record swim_ok (s : Swim) : Prop := {
  so_self : members_ s !! self_id s = None;
  so_ids : ∀ id m, members_ s !! id = Some m → node_id (info m) = id;
  so_inc : ∀ id m, members_ s !! id = Some m → is_u64 (entry_inc m);
  so_own : is_u64 (incarnation_ s);
}.

(** How one record may change: a departure stays, an incarnation does not go
    back (short of the largest 64-bit value), a record is never forgotten. *)
Definition evolves (o o' : option MemberEntry) : Prop :=
  ∀ m, o = Some m → ∃ m', o' = Some m' ∧
    (state m = MemberState.Left → state m' = MemberState.Left) ∧
    ((entry_inc m < U64_MAX)%Z → (entry_inc m ≤ entry_inc m')%Z) ∧
    node_id (info m') = node_id (info m).

#[global] Instance evolves_refl : Reflexive evolves.
Proof. intros o m Hm. exists m. split_and!; [done..|lia|done]. Qed.

Lemma evolves_insert (ms : gmap string MemberEntry) id m' j :
  evolves (ms !! id) (Some m') → evolves (ms !! j) (<[id := m']> ms !! j).
Proof. intros Hev. rewrite lookup_insert. case_decide; [by subst|reflexivity]. Qed.

Lemma on_event_evolves now e o m' fired :
  on_event now e o = Some (m', fired) → evolves o (Some m').
Proof.
  intros Hon m ->. exists m'. split; [done|].
  unfold on_event, on_alive, on_suspect, on_dead, on_leave in Hon.
  destruct (ev_type e); repeat case_match; simplify_eq; cbn;
    repeat match goal with
    | H : (_ <=? _)%Z = false |- _ => apply Z.leb_gt in H
    | H : (_ <? _)%Z = false |- _ => apply Z.ltb_ge in H
    end; split_and!; try done; intros; try lia.
Qed.

Lemma on_event_inc now e o m' fired :
  is_u64 (incarnation e) → (∀ m, o = Some m → is_u64 (entry_inc m)) →
  on_event now e o = Some (m', fired) → is_u64 (entry_inc m').
Proof.
  intros He Ho Hon. unfold on_event, on_alive, on_suspect, on_dead, on_leave in Hon.
  destruct (ev_type e); repeat case_match; simplify_eq; cbn; eauto.
Qed.

Lemma on_event_id now e o m' fired :
  (∀ m, o = Some m → node_id (info m) = ev_id e) →
  on_event now e o = Some (m', fired) → node_id (info m') = ev_id e.
Proof.
  intros Ho Hon. unfold on_event, on_alive, on_suspect, on_dead, on_leave in Hon.
  destruct (ev_type e); repeat case_match; simplify_eq; cbn; eauto.
Qed.

(** [expireSuspects] turns the suspects whose time is up, and only those, Dead. *)
Definition expire_entry (now timeout : Z) (m : MemberEntry) : MemberEntry :=
  if bool_decide (state m = MemberState.Suspect) && (timeout <=? now - suspect_since m)%Z
  then with_state MemberState.Dead m else m.

Lemma expire_loop now timeout l acc :
  NoDup l.*1 → (∀ id m, (id, m) ∈ l → members_ acc.1.1 !! id = Some m) →
  let s' := (foldl (expire_one now timeout) acc l).1.1 in
  (∀ id, members_ s' !! id =
     if decide (id ∈ l.*1) then expire_entry now timeout <$> members_ acc.1.1 !! id
     else members_ acc.1.1 !! id) ∧
  self_ s' = self_ acc.1.1 ∧ incarnation_ s' = incarnation_ acc.1.1 ∧ self_left_ s' = self_left_ acc.1.1.
Proof.
  revert acc. induction l as [|[id m] l IH]; intros acc Hnd Hl; cbn zeta; cbn [foldl].
  { split_and!; [|done..]. intros id. by rewrite decide_False by apply not_elem_of_nil. }
  apply NoDup_fst_cons in Hnd as [Hid Hnd].
  assert (members_ acc.1.1 !! id = Some m) as Hm by (apply Hl, elem_of_cons; by left).
  set (acc' := expire_one now timeout acc (id, m)).
  assert (members_ acc'.1.1 = <[id := expire_entry now timeout m]> (members_ acc.1.1) ∧
          self_ acc'.1.1 = self_ acc.1.1 ∧ incarnation_ acc'.1.1 = incarnation_ acc.1.1 ∧
          self_left_ acc'.1.1 = self_left_ acc.1.1) as (Hms & Hs1 & Hs2 & Hs3).
  { unfold acc', expire_one, expire_entry. destruct acc as [[s ex] fi]. cbn in *.
    destruct (_ && _); cbn; [done|]. by rewrite insert_id. }
  destruct (IH acc' Hnd) as (H1 & H2 & H3 & H4).
  { intros j mj Hj. rewrite Hms. rewrite lookup_insert_ne.
    - apply Hl, elem_of_cons. by right.
    - intros ->. apply Hid. by apply (list_elem_of_fmap_2 fst l (j, mj)). }
  split_and!; [|congruence..]. intros j. rewrite H1, Hms. cbn [fmap list_fmap fst].
  destruct (decide (j = id)) as [->|Hne].
  - rewrite decide_False by done. rewrite decide_True by (apply elem_of_cons; by left).
    rewrite lookup_insert_eq, Hm. done.
  - rewrite lookup_insert_ne by done. repeat case_decide; try done; set_solver.
Qed.

Lemma expireSuspects_spec now timeout s :
  let s' := (expireSuspects now timeout s).1.1 in
  (∀ id, members_ s' !! id = expire_entry now timeout <$> members_ s !! id) ∧
  self_ s' = self_ s ∧ incarnation_ s' = incarnation_ s ∧ self_left_ s' = self_left_ s.
Proof.
  cbn zeta. unfold expireSuspects.
  destruct (expire_loop now timeout (entries (members_ s)) (s, [], [])) as (H1 & H2 & H3 & H4).
  - apply NoDup_entries_fst.
  - intros id m. cbn. apply elem_of_entries.
  - split_and!; [|done..]. intros id. rewrite H1. cbn. case_decide as Hd; [done|].
    destruct (members_ s !! id) as [m|] eqn:E; [|done]. exfalso. apply Hd.
    apply (list_elem_of_fmap_2 fst _ (id, m)). by apply elem_of_entries.
Qed.

Lemma with_state_evolves m st :
  (state m = MemberState.Left → st = MemberState.Left) → evolves (Some m) (Some (with_state st m)).
Proof. intros Hst ? [= <-]. eexists. split; [done|]. cbn. split_and!; [done|lia|done]. Qed.

(** One record along one step. *)
Lemma step_evolves s s' id : step s s' → evolves (members_ s !! id) (members_ s' !! id).
Proof.
  intros Hs. destruct Hs as [now e s He|e s He|i s|now i s|i s|now t s|s|e s|s]; cbn; try reflexivity.
  - unfold applyEvent. destruct (String.eqb (ev_id e) (self_id s)).
    { unfold on_self. destruct (ev_type e), (self_left_ s), (incarnation e <? incarnation_ s)%Z; reflexivity. }
    destruct (on_event now e (members_ s !! ev_id e)) as [[m' f]|] eqn:Hon; [|reflexivity].
    by apply evolves_insert, (on_event_evolves now e _ _ f).
  - unfold applyDirectJoin. destruct (String.eqb (ev_id e) (self_id s)); [reflexivity|].
    destruct (members_ s !! ev_id e) as [m|] eqn:Hm.
    + case_decide; [reflexivity|]. apply evolves_insert. rewrite Hm. intros ? [= <-]. eexists. split; [done|].
      cbn. split_and!; [done| |by destruct (str_empty _)].
      intros Hlt. destruct (decide (entry_inc m < 0)%Z); [pose proof (u64_range (entry_inc m + 1)); unfold is_u64 in *; lia|].
      rewrite u64_id by (unfold is_u64 in *; lia). lia.
    + apply evolves_insert. by rewrite Hm.
  - unfold leave. destruct (String.eqb i (self_id s)); [by destruct (self_left_ s)|].
    destruct (members_ s !! i) as [m|] eqn:Hm; [|reflexivity]. case_decide; [reflexivity|].
    apply evolves_insert. rewrite Hm. by apply with_state_evolves.
  - unfold suspect. destruct (members_ s !! i) as [m|] eqn:Hm; [|reflexivity]. case_decide; [|reflexivity].
    apply evolves_insert. rewrite Hm. intros ? [= <-]. eexists. split; [done|]. cbn. split_and!; [congruence|lia|done].
  - unfold confirmDead. destruct (members_ s !! i) as [m|] eqn:Hm; [|reflexivity].
    repeat case_decide; try reflexivity. apply evolves_insert. rewrite Hm. by apply with_state_evolves.
  - destruct (expireSuspects_spec now t s) as [H1 _]. rewrite H1.
    destruct (members_ s !! id) as [m|]; [|by intros ?]. unfold expire_entry. cbn.
    destruct (bool_decide (state m = MemberState.Suspect)) eqn:E; [|reflexivity]. apply bool_decide_eq_true in E.
    destruct (_ <=? _)%Z; [|reflexivity]. apply with_state_evolves. congruence.
Qed.

(** The node's own part of the state: retirement is final and the incarnation
    grows, unless it wraps to zero at the largest 64-bit value. *)
Definition own_evolves (s s' : Swim) : Prop :=
  self_ s' = self_ s ∧ (self_left_ s = true → self_left_ s' = true) ∧
  (is_u64 (incarnation_ s) → is_u64 (incarnation_ s') ∧
     ((incarnation_ s ≤ incarnation_ s')%Z ∨ incarnation_ s' = 0%Z)).

Lemma own_same s s' :
  self_ s' = self_ s → incarnation_ s' = incarnation_ s →
  (self_left_ s = true → self_left_ s' = true) → own_evolves s s'.
Proof. intros H1 H2 H3. split_and!; [done..|]. intros ?. rewrite H2. split; [done|]. left. lia. Qed.

Lemma own_bump s s' i :
  self_ s' = self_ s → self_left_ s' = self_left_ s → incarnation_ s' = u64 (i + 1) →
  is_u64 i → (incarnation_ s ≤ i)%Z → own_evolves s s'.
Proof.
  intros H1 H2 H3 Hi Hle. split_and!; [done|by rewrite H2|]. intros _. rewrite H3. split; [auto with dynamo|].
  destruct (decide (i = U64_MAX)) as [->|]; [by right|left].
  unfold is_u64 in *. rewrite u64_id by (unfold is_u64; lia). lia.
Qed.

Lemma step_own s s' : is_u64 (incarnation_ s) → step s s' → own_evolves s s'.
Proof.
  intros Hown Hs. destruct Hs as [now e s He|e s He|i s|now i s|i s|now t s|s|e s|s]; try by apply own_same.
  - unfold applyEvent. destruct (String.eqb (ev_id e) (self_id s)).
    + unfold on_self. destruct (ev_type e); try by apply own_same.
      1,2: destruct (Z.ltb_spec (incarnation e) (incarnation_ s)); [by apply own_same|];
           by apply own_bump with (incarnation e).
      destruct (self_left_ s) eqn:El; by apply own_same.
    + destruct (on_event now e (members_ s !! ev_id e)) as [[m' f]|]; by apply own_same.
  - unfold applyDirectJoin. destruct (String.eqb (ev_id e) (self_id s)), (members_ s !! ev_id e);
      repeat case_decide; by apply own_same.
  - unfold leave. destruct (String.eqb i (self_id s)); [destruct (self_left_ s) eqn:El|
      destruct (members_ s !! i); [case_decide|]]; by apply own_same.
  - unfold suspect. destruct (members_ s !! i); [case_decide|]; by apply own_same.
  - unfold confirmDead. destruct (members_ s !! i); [repeat case_decide|]; by apply own_same.
  - destruct (expireSuspects_spec now t s) as (_ & H1 & H2 & H3). apply own_same; congruence.
  - by apply own_bump with (incarnation_ s).
Qed.

(** New records are filed under their own id, never under this node's. *)
Lemma step_ok s s' : step s s' → swim_ok s → swim_ok s'.
Proof.
  intros Hs [Hself Hids Hinc Hown]. pose proof (step_own s s' Hown Hs) as (Hse & _ & Ho).
  assert (self_id s' = self_id s) as Hid by (unfold self_id; by rewrite Hse).
  assert (∀ id m', members_ s' !! id = Some m' →
    id ≠ self_id s ∧ node_id (info m') = id ∧ is_u64 (entry_inc m')) as Hall.
  { assert (∀ id m, members_ s !! id = Some m → id ≠ self_id s ∧ node_id (info m) = id ∧ is_u64 (entry_inc m))
      as Hold. { intros id m Hm. split_and!; [|by eauto..]. intros ->. congruence. }
    assert (∀ (i id : string) m m', <[i := m']> (members_ s) !! id = Some m →
      i ≠ self_id s → node_id (info m') = i → is_u64 (entry_inc m') →
      id ≠ self_id s ∧ node_id (info m) = id ∧ is_u64 (entry_inc m)) as Hins.
    { intros i id m m' Hm. apply lookup_insert_Some in Hm as [[<- <-]|[_ Hm]]; by auto. }
    clear Ho Hse Hid. destruct Hs as [now e s He|e s He|i s|now i s|i s|now t s|s|e s|s]; intros id m'; try by apply Hold.
    - unfold applyEvent. destruct (String.eqb_spec (ev_id e) (self_id s)) as [|Hne].
      { unfold on_self. destruct (ev_type e), (self_left_ s), (incarnation e <? incarnation_ s)%Z; by apply Hold. }
      destruct (on_event now e (members_ s !! ev_id e)) as [[m1 f]|] eqn:Hon; [|by apply Hold].
      intros Hm. eapply Hins; [exact Hm|done|by eapply on_event_id; [|exact Hon]; intros; eapply Hids|].
      eapply on_event_inc; [done| |exact Hon]. intros. by eapply Hinc.
    - unfold applyDirectJoin. destruct (String.eqb_spec (ev_id e) (self_id s)) as [|Hne]; [by apply Hold|].
      destruct (members_ s !! ev_id e) as [m|] eqn:Hm; [case_decide|]; [by apply Hold|..];
        intros Hm'; (eapply Hins; [exact Hm'|done|..]); cbn; try done.
      + destruct (str_empty _); cbn; by eapply Hids.
      + pose proof (u64_range (entry_inc m + 1)). unfold is_u64 in *. lia.
    - unfold leave. destruct (String.eqb_spec i (self_id s)) as [|Hne]; [destruct (self_left_ s); by apply Hold|].
      destruct (members_ s !! i) as [m|] eqn:Hm; [case_decide|]; [by apply Hold| |by apply Hold].
      intros Hm'. eapply Hins; [exact Hm'|done|exact (Hids i m Hm)|exact (Hinc i m Hm)].
    - unfold suspect. destruct (members_ s !! i) as [m|] eqn:Hm; [case_decide|]; [|by apply Hold..].
      intros Hm'. eapply Hins; [exact Hm'|by apply (Hold i m)|exact (Hids i m Hm)|exact (Hinc i m Hm)].
    - unfold confirmDead. destruct (members_ s !! i) as [m|] eqn:Hm; [repeat case_decide|]; try by apply Hold.
      intros Hm'. eapply Hins; [exact Hm'|by apply (Hold i m)|exact (Hids i m Hm)|exact (Hinc i m Hm)].
    - destruct (expireSuspects_spec now t s) as [-> _]. intros (m & Hm & ->)%fmap_Some.
      destruct (Hold id m Hm) as (? & ? & ?). unfold expire_entry. by destruct (_ && _). }
  split.
  - rewrite Hid. destruct (members_ s' !! self_id s) as [m|] eqn:E; [|done]. by destruct (Hall _ _ E).
  - intros id m Hm. by apply Hall.
  - intros id m Hm. by destruct (Hall id m Hm) as (_ & _ & ?).
  - by apply Ho.
Qed.

Lemma swim_ok_new self mult : swim_ok (new self mult).
Proof. split; cbn; [apply lookup_empty|by intros ? ? ?%lookup_empty_Some..|vm_decide]. Qed.

(** ** Theorems on the state machine *)

(** C15: The type invariant.  In every reachable state a node has no record of
    itself, every record is filed under the id it describes, and incarnations
    are 64-bit values. *)
Theorem membership_invariant self mult s : rtc step (new self mult) s → swim_ok s.
Proof.
  intros Hr. eapply (rtc_ind_r swim_ok); [apply swim_ok_new|by intros; eapply step_ok|exact Hr].
Qed.

Lemma departed_stays s s' id :
  swim_ok s → rtc step s s' →
  stateOf id s = Some MemberState.Left → stateOf id s' = Some MemberState.Left.
Proof.
  intros Hok Hr. induction Hr as [|s1 s2 s3 Hs _ IH]; [done|]. intros Hl. apply IH; [by eapply step_ok|].
  pose proof (step_own s1 s2 (so_own s1 Hok) Hs) as (Hself & Hleft & _).
  unfold stateOf, self_id in *. rewrite Hself. destruct (String.eqb id (node_id (self_ s1))).
  - destruct (self_left_ s1); [by rewrite Hleft|done].
  - apply fmap_Some in Hl as (m & Hm & Hst).
    destruct (step_evolves s1 s2 id Hs m Hm) as (m' & -> & Hl' & _). cbn. by rewrite Hl'.
Qed.

(** C14: a departure is final.  Once a node is held Left, no sequence of
    operations or events, whatever their incarnations, gives it another state;
    and a node that has retired itself stays retired. *)
Theorem departure_is_final s s' id :
  swim_ok s → rtc step s s' →
  stateOf id s = Some MemberState.Left → stateOf id s' = Some MemberState.Left.
Proof. apply departed_stays. Qed.

(** An event changes the state at most once.  Applied a second time it is
    refused, so the gossip that re-sends every accepted event dies out. *)
Theorem event_accepted_once now now' e s :
  (incarnation e < U64_MAX)%Z → (0 ≤ incarnation e)%Z →
  (applyEvent now e s).2 = true →
  (applyEvent now' e (applyEvent now e s).1.1).2 = false.
Proof.
  intros Hlt Hge Hok. unfold applyEvent in Hok |- *.
  destruct (String.eqb (ev_id e) (self_id s)) eqn:Eid.
  - unfold on_self in Hok |- *. destruct (ev_type e) eqn:Et; try done.
    1,2: destruct (Z.ltb_spec (incarnation e) (incarnation_ s)); [done|]; cbn;
      change (self_id (enqueueEvent _ _)) with (self_id s); rewrite Eid; cbn;
      rewrite u64_id by (unfold is_u64; lia); destruct (Z.ltb_spec (incarnation e) (incarnation e + 1)); [done|lia].
    destruct (self_left_ s) eqn:El; [done|]. cbn. change (self_id (with_left s)) with (self_id s). by rewrite Eid.
  - destruct (on_event now e (members_ s !! ev_id e)) as [[m f]|] eqn:Hon; [|done]. cbn.
    change (self_id (with_members _ s)) with (self_id s). rewrite Eid, lookup_insert_eq.
    enough (on_event now' e (Some m) = None) as -> by done. clear Hok.
    unfold on_event, on_alive, on_suspect, on_dead, on_leave in Hon |- *.
    destruct (ev_type e); repeat case_match; simplify_eq; cbn; repeat case_decide; try done;
      rewrite ?Z.leb_refl, ?Z.ltb_irrefl; try done; cbn in *; rewrite ?Z.leb_refl, ?Z.ltb_irrefl in *; done.
Qed.

Definition swim1 : Swim := new (mkNode "node1" "h1" 5001) 5.
Definition alive_at (id : string) (i : Z) : MemberEvent := mkEvent EventType.Alive id "h" 9 i.
Definition dead_at (id : string) (i : Z) : MemberEvent := mkEvent EventType.Dead id "" 0 i.

Lemma membership_invariant_witness : swim_ok (applyEvent 0 (alive_at "node2" 3) swim1).1.1.
Proof.
  apply (membership_invariant (mkNode "node1" "h1" 5001) 5). eapply rtc_l; [|apply rtc_refl].
  apply (step_event 0 (alive_at "node2" 3)). vm_decide.
Defined.

(** A departed node cannot come back with any incarnation, nor by joining. *)
Lemma departure_is_final_witness :
  let s0 := (leave "node2" (applyEvent 0 (alive_at "node2" 3) swim1).1.1).1 in
  stateOf "node2" (applyEvent 9 (alive_at "node2" 18446744073709551615) s0).1.1 = Some MemberState.Left.
Proof.
  cbv zeta. set (s1 := (applyEvent 0 (alive_at "node2" 3) swim1).1.1).
  apply (departure_is_final (leave "node2" s1).1).
  - apply (step_ok s1); [apply step_leave|]. apply (step_ok swim1); [apply (step_event 0 (alive_at "node2" 3)); vm_decide|].
    apply swim_ok_new.
  - eapply rtc_l; [|apply rtc_refl]. apply step_event. vm_decide.
  - vm_compute. reflexivity.
Defined.

Lemma event_accepted_once_witness :
  (applyEvent 7 (dead_at "node2" 4) (applyEvent 5 (dead_at "node2" 4)
     (applyEvent 0 (alive_at "node2" 3) swim1).1.1).1.1).2 = false.
Proof.
  apply event_accepted_once; [reflexivity|discriminate|vm_compute; reflexivity].
Defined.

End Swim.
