(* ===== verification/Sync.v ===== *)
(** * Membership anti-entropy (src/gossip/swim.cpp: digest, fullState;
      src/gossip/gossip_thread.cpp: applyIncomingEvents, performSync)

    The digest compares whole views, and a mismatch triggers a push-pull
    exchange of full states.  A view is what the digest is computed from: per
    member, its class (alive or suspect, dead, left) and, for the living, the
    incarnation.  The theorems show that the digest is a function of the view,
    that two exchanges always bring two views together when neither node is
    held alive at an incarnation ahead of its own, and that such a lead is never
    repaired. *)
From S2P Require Import Prelude Util Ring Events Membership.
From Stdlib Require Import Ascii String ZArith Lia.
From stdpp Require Import base gmap list strings numbers.
Import Swim.

(** ** Views *)

Abbreviation View := (gmap string (ascii * Z)).

Definition entry_view (m : MemberEntry) : ascii * Z :=
  let cls := stateClass (state m) in (cls, if Ascii.eqb cls "A" then entry_inc m else 0%Z).

Definition self_view (s : Swim) : ascii * Z :=
  if self_left_ s then ("L"%char, 0%Z) else ("A"%char, incarnation_ s).

Definition view (s : Swim) : View := <[self_id s := self_view s]> (entry_view <$> members_ s).

Definition view_digest (kv : string * (ascii * Z)) : Z := entryDigest kv.1 kv.2.1 kv.2.2.

Lemma digest_view s :
  swim_ok s → digest s = xor_all (view_digest <$> map_to_list (view s)).
Proof.
  intros Hok. unfold digest. rewrite foldl_xor. unfold view.
  assert (map_to_list (<[self_id s := self_view s]> (entry_view <$> members_ s)) ≡ₚ
          (self_id s, self_view s) :: map_to_list (entry_view <$> members_ s)) as ->%(fmap_Permutation view_digest)%xor_all_perm.
  { apply map_to_list_insert. rewrite lookup_fmap, (so_self s Hok). done. }
  rewrite fmap_cons. rewrite xor_all_cons.
  assert (view_digest (self_id s, self_view s) =
    entryDigest (self_id s) (if self_left_ s then "L" else "A")%char (if self_left_ s then 0 else incarnation_ s)%Z) as ->
    by (unfold view_digest, self_view; by destruct (self_left_ s)).
  f_equal. apply xor_all_perm. rewrite entries_perm, map_to_list_fmap, <- list_fmap_compose.
  done.
Qed.

(** ** Applying a batch of events *)

(** [applyIncomingEvents] on parsed events, the callbacks apart. *)
Definition absorb_one (now : Z) (s : Swim) (e : MemberEvent) : Swim :=
  if isValidNodeId (ev_id e) then
    let '(s', _, changed) := applyEvent now e s in
    if changed then enqueueEvent e s' else s'
  else s.

Definition absorb (now : Z) (events : list MemberEvent) (s : Swim) : Swim :=
  foldl (absorb_one now) s events.

(** The record of [ev_id e] afterwards. *)
Definition entry_after (now : Z) (e : MemberEvent) (o : option MemberEntry) : option MemberEntry :=
  match on_event now e o with Some (m, _) => Some m | None => o end.

(** The parts of a state that the exchange looks at. *)
Definition own (s : Swim) : NodeInfo * Z * bool := (self_ s, incarnation_ s, self_left_ s).
Definition own_after (e : MemberEvent) (s : Swim) : NodeInfo * Z * bool := own (on_self e s).1.1.

Lemma own_after_self e s s' : own s' = own_after e s → self_ s' = self_ s.
Proof.
  unfold own_after, on_self, own. intros Ho. apply (f_equal (λ p, p.1.1)) in Ho. cbn in Ho. rewrite Ho.
  by destruct (ev_type e), (self_left_ s), (incarnation e <? incarnation_ s)%Z.
Qed.

Lemma own_after_ext e a b : own a = own b → own_after e a = own_after e b.
Proof.
  destruct a as [a1 a2 a3 a4 a5 a6], b as [b1 b2 b3 b4 b5 b6]. unfold own. cbn. intros [= -> -> ->].
  unfold own_after, on_self, own. cbn. by destruct (ev_type e), b3, (incarnation e <? b2)%Z.
Qed.

Lemma absorb_one_spec now s e :
  isValidNodeId (ev_id e) = true →
  (ev_id e = self_id s → members_ (absorb_one now s e) = members_ s ∧ own (absorb_one now s e) = own_after e s) ∧
  (ev_id e ≠ self_id s → own (absorb_one now s e) = own s ∧
     ∀ id, members_ (absorb_one now s e) !! id =
           if decide (id = ev_id e) then entry_after now e (members_ s !! id) else members_ s !! id).
Proof.
  intros Hv. unfold absorb_one, applyEvent. rewrite Hv. split; intros Hid.
  - rewrite Hid, String.eqb_refl. unfold own_after, on_self.
    destruct (ev_type e), (self_left_ s) eqn:El, (incarnation e <? incarnation_ s)%Z; cbn; unfold own; cbn; by rewrite ?El.
  - destruct (String.eqb_spec (ev_id e) (self_id s)); [done|]. unfold entry_after.
    destruct (on_event now e (members_ s !! ev_id e)) as [[m f]|] eqn:Hon; cbn.
    + split; [done|]. intros id. rewrite lookup_insert. repeat case_decide; try congruence. subst. by rewrite Hon.
    + split; [done|]. intros id. case_decide; [|done]. subst. by rewrite Hon.
Qed.

(** Events about different nodes do not interfere. *)
Lemma absorb_spec now l s :
  Forall (λ e, isValidNodeId (ev_id e) = true) l → NoDup (ev_id <$> l) →
  let s' := absorb now l s in
  (∀ e id, e ∈ l → ev_id e = id → id ≠ self_id s → members_ s' !! id = entry_after now e (members_ s !! id)) ∧
  (∀ id, id ∉ ev_id <$> l → members_ s' !! id = members_ s !! id) ∧
  (members_ s' !! self_id s = members_ s !! self_id s) ∧
  (∀ e, e ∈ l → ev_id e = self_id s → own s' = own_after e s) ∧
  (self_id s ∉ ev_id <$> l → own s' = own s).
Proof.
  intros Hv. revert s. induction Hv as [|e l He Hv IH]; intros s Hnd; cbn zeta.
  { split_and!; try done; by intros ? ? ?%elem_of_nil || intros ? ?%elem_of_nil. }
  cbn [fmap list_fmap] in Hnd. apply list.NoDup_cons in Hnd as [Hnin Hnd].
  destruct (absorb_one_spec now s e He) as [Hself Hoth].
  unfold absorb. cbn [foldl]. fold (absorb now l (absorb_one now s e)).
  destruct (IH (absorb_one now s e) Hnd) as (I1 & I2 & I3 & I4 & I5). clear IH.
  assert (self_id (absorb_one now s e) = self_id s) as Hid.
  { destruct (decide (ev_id e = self_id s)) as [E|E].
    - destruct (Hself E) as [_ Ho]. unfold self_id. f_equal. by eapply own_after_self.
    - destruct (Hoth E) as [Ho _]. unfold own in Ho. injection Ho as Ho _ _. unfold self_id. by rewrite Ho. }
  rewrite Hid in *. destruct (decide (ev_id e = self_id s)) as [E|E].
  - destruct (Hself E) as [Hm Ho]. clear Hself Hoth. rewrite Hm in *. split_and!.
    + intros x id [->|Hx]%elem_of_cons Hxid Hne; [congruence|by apply I1].
    + intros id Hnid. apply I2. set_solver.
    + done.
    + intros x [->|Hx]%elem_of_cons Hxid; [by rewrite I5 by congruence|].
      exfalso. apply Hnin. rewrite E, <- Hxid. by apply list_elem_of_fmap_2.
    + intros Hn. exfalso. apply Hn. cbn. rewrite E. by left.
  - destruct (Hoth E) as [Ho Hm]. clear Hself Hoth. split_and!.
    + intros x id [->|Hx]%elem_of_cons Hxid Hne.
      * rewrite I2 by congruence. rewrite Hm. by rewrite decide_True.
      * rewrite (I1 x id Hx Hxid Hne), Hm. rewrite decide_False; [done|]. intros ->. apply Hnin.
        rewrite <- Hxid. by apply list_elem_of_fmap_2.
    + intros id Hnid. rewrite I2 by set_solver. rewrite Hm. rewrite decide_False; [done|]. set_solver.
    + rewrite I3, Hm. by rewrite decide_False.
    + intros x [->|Hx]%elem_of_cons Hxid; [congruence|]. rewrite (I4 x Hx Hxid).
      by apply own_after_ext.
    + intros Hn. rewrite I5; [done|]. set_solver.
Qed.

(** ** The push-pull exchange *)

(** [performSync] of [a] with [b]: [b] absorbs [a]'s full state and answers with
    its own, which [a] absorbs. *)
Definition exchange (now : Z) (a b : Swim) : Swim * Swim :=
  let b' := absorb now (fullState a) b in (absorb now (fullState b') a, b').

Definition self_event (s : Swim) : MemberEvent :=
  mkEvent (if self_left_ s then EventType.Leave else EventType.Alive)
          (self_id s) (host (self_ s)) (port (self_ s)) (incarnation_ s).

(** What the sender's record [o] of a node makes of the receiver's [o']. *)
Definition send (now : Z) (id : string) (o o' : option MemberEntry) : option MemberEntry :=
  match o with Some m => entry_after now (entry_event (id, m)) o' | None => o' end.

Record ids_valid (s : Swim) : Prop := {
  iv_self : isValidNodeId (self_id s) = true;
  iv_members : ∀ id m, members_ s !! id = Some m → isValidNodeId id = true;
}.

Lemma fullState_ids s : ev_id <$> fullState s = self_id s :: (entries (members_ s)).*1.
Proof. unfold fullState. cbn. f_equal. rewrite <- list_fmap_compose. done. Qed.

Lemma elem_of_fullState_ids s id :
  id ∈ ev_id <$> fullState s ↔ id = self_id s ∨ is_Some (members_ s !! id).
Proof.
  rewrite fullState_ids, elem_of_cons. f_equiv. rewrite list_elem_of_fmap. split.
  - intros ([i m] & -> & Hm%elem_of_entries). by exists m.
  - intros [m Hm]. exists (id, m). by rewrite elem_of_entries.
Qed.

Lemma fullState_NoDup s : swim_ok s → NoDup (ev_id <$> fullState s).
Proof.
  intros Hok. rewrite fullState_ids. apply list.NoDup_cons. split; [|apply NoDup_entries_fst].
  intros ([i m] & E & Hm%elem_of_entries)%list_elem_of_fmap. cbn in E. subst i.
  rewrite (so_self s Hok) in Hm. done.
Qed.

Lemma fullState_valid s : ids_valid s → Forall (λ e, isValidNodeId (ev_id e) = true) (fullState s).
Proof.
  intros [H1 H2]. apply list.Forall_cons. split; [done|].
  apply list.Forall_fmap, list.Forall_forall. intros [id m] Hm%elem_of_entries. by eapply H2.
Qed.

(** The receiver's state after a full state from [a]. *)
Lemma absorb_full now a s :
  swim_ok a → ids_valid a → self_id a ≠ self_id s →
  let s' := absorb now (fullState a) s in
  members_ s' !! self_id a = entry_after now (self_event a) (members_ s !! self_id a) ∧
  (∀ id, id ≠ self_id a → id ≠ self_id s →
     members_ s' !! id = send now id (members_ a !! id) (members_ s !! id)) ∧
  (members_ s' !! self_id s = members_ s !! self_id s) ∧
  own s' = match members_ a !! self_id s with
           | Some m => own_after (entry_event (self_id s, m)) s | None => own s end.
Proof.
  intros Hok Hv Hne.
  destruct (absorb_spec now (fullState a) s (fullState_valid a Hv) (fullState_NoDup a Hok))
    as (I1 & I2 & I3 & I4 & I5). cbn zeta. split_and!.
  - apply (I1 (self_event a)); [by apply elem_of_cons; left|done|done].
  - intros id Ha Hs. unfold send. destruct (members_ a !! id) as [m|] eqn:E.
    + apply (I1 (entry_event (id, m))); [|done|done]. apply elem_of_cons. right.
      by apply list_elem_of_fmap_2, elem_of_entries.
    + apply I2. rewrite elem_of_fullState_ids, E. intros [?|[? ?]]; done.
  - done.
  - destruct (members_ a !! self_id s) as [m|] eqn:E.
    + apply (I4 (entry_event (self_id s, m))); [|done]. apply elem_of_cons. right.
      by apply list_elem_of_fmap_2, elem_of_entries.
    + apply I5. rewrite elem_of_fullState_ids, E. intros [?|[? ?]]; [by apply Hne|done].
Qed.

(** ** Agreement, record by record *)

(** What matters of a record: its class and its incarnation. *)
Inductive Class3 := CA | CD | CL.

Definition class3 (st : MemberState.t) : Class3 :=
  match st with MemberState.Dead => CD | MemberState.Left => CL | _ => CA end.
Definition rec3 (m : MemberEntry) : Class3 * Z := (class3 (state m), entry_inc m).
Definition view3 (r : Class3 * Z) : ascii * Z :=
  match r with (CA, i) => ("A"%char, i) | (CD, _) => ("D"%char, 0%Z) | (CL, _) => ("L"%char, 0%Z) end.

Lemma entry_view_rec3 m : entry_view m = view3 (rec3 m).
Proof. destruct m as [i [] n t]; reflexivity. Qed.

(** The three events a full state contains, on that abstraction. *)
Definition alive3 (i : Z) (o : option (Class3 * Z)) : option (Class3 * Z) :=
  match o with
  | None => Some (CA, i)
  | Some (CL, j) => Some (CL, j)
  | Some (c, j) => if (i <=? j)%Z then Some (c, j) else Some (CA, i)
  end.
Definition dead3 (i : Z) (o : option (Class3 * Z)) : option (Class3 * Z) :=
  match o with
  | None => Some (CD, i)
  | Some (CA, j) => if (i <? j)%Z then Some (CA, j) else Some (CD, i)
  | Some (c, j) => Some (c, j)
  end.
Definition leave3 (i : Z) (o : option (Class3 * Z)) : option (Class3 * Z) :=
  match o with None => Some (CL, i) | Some (_, j) => Some (CL, j) end.
Definition event3 (r : Class3 * Z) : option (Class3 * Z) → option (Class3 * Z) :=
  match r with (CA, i) => alive3 i | (CD, i) => dead3 i | (CL, i) => leave3 i end.

Lemma entry_after_alive now e o :
  ev_type e = EventType.Alive → rec3 <$> entry_after now e o = alive3 (incarnation e) (rec3 <$> o).
Proof.
  intros Ht. unfold entry_after, on_event. rewrite Ht. destruct o as [[i [] n t]|]; cbn; try done;
    by destruct (incarnation e <=? n)%Z.
Qed.

Lemma entry_after_dead now e o :
  ev_type e = EventType.Dead → rec3 <$> entry_after now e o = dead3 (incarnation e) (rec3 <$> o).
Proof.
  intros Ht. unfold entry_after, on_event. rewrite Ht. destruct o as [[i [] n t]|]; cbn; try done;
    by destruct (incarnation e <? n)%Z.
Qed.

Lemma entry_after_leave now e o :
  ev_type e = EventType.Leave → rec3 <$> entry_after now e o = leave3 (incarnation e) (rec3 <$> o).
Proof.
  intros Ht. unfold entry_after, on_event. rewrite Ht. by destruct o as [[i [] n t]|].
Qed.

Lemma entry_after_event now id m o :
  rec3 <$> entry_after now (entry_event (id, m)) o = event3 (rec3 m) (rec3 <$> o).
Proof.
  destruct m as [i st n t]. unfold rec3 at 2. cbn.
  destruct st; [apply entry_after_alive|apply entry_after_alive|apply entry_after_dead|apply entry_after_leave]; done.
Qed.

(** This node's own state in the same terms. *)
Definition own3 (s : Swim) : Class3 * Z := (if self_left_ s then CL else CA, incarnation_ s).

Lemma self_view_own3 s : self_view s = view3 (own3 s).
Proof. unfold self_view, own3. by destruct (self_left_ s). Qed.

Lemma entry_after_self now s o : rec3 <$> entry_after now (self_event s) o = event3 (own3 s) (rec3 <$> o).
Proof.
  unfold own3, self_event. destruct (self_left_ s); [by apply entry_after_leave|by apply entry_after_alive].
Qed.

(** A node hears about itself: it refutes a death, accepts a retirement. *)
Definition hear3 (r own : Class3 * Z) : Class3 * Z :=
  match r with
  | (CA, _) => own
  | (CD, i) => if (i <? own.2)%Z then own else (own.1, u64 (i + 1))
  | (CL, _) => (CL, own.2)
  end.

Lemma own_after_hear id m s s' :
  own s' = own_after (entry_event (id, m)) s → own3 s' = hear3 (rec3 m) (own3 s).
Proof.
  intros Ho. assert (own3 s' = own3 (on_self (entry_event (id, m)) s).1.1) as ->.
  { unfold own_after, own in Ho. unfold own3. by injection Ho as _ -> ->. }
  destruct m as [i st n t]. unfold on_self, own3, rec3. cbn.
  destruct st; cbn; try done; [|destruct (self_left_ s) eqn:E; cbn; by rewrite ?E].
  by destruct (n <? incarnation_ s)%Z.
Qed.

(** Decide the integer tests of the goal one by one. *)
Ltac z_cases :=
  cbn; try done;
  match goal with
  | |- context [if (?a <=? ?b)%Z then _ else _] => destruct (Z.leb_spec a b); z_cases
  | |- context [if (?a <? ?b)%Z then _ else _] => destruct (Z.ltb_spec a b); z_cases
  | _ => first [done|exfalso; lia|repeat f_equal; lia|idtac]
  end.

(** A node that neither side is: one exchange makes the classes agree. *)
Lemma third_agrees (oa ob : option (Class3 * Z)) :
  let send o o' := match o with Some r => event3 r o' | None => o' end in
  let ob' := send oa ob in
  view3 <$> send ob' oa = view3 <$> ob'.
Proof.
  cbn zeta. destruct oa as [[[] i]|], ob as [[[] j]|]; z_cases.
Qed.

(** The peer's record [o] of a node is not ahead of the node's own state. *)
Definition no_lead (o : option (Class3 * Z)) (own : Class3 * Z) : Prop :=
  match o, own with Some (CA, j), (CA, i) => (j ≤ i)%Z | _, _ => True end.
(** A recorded death can be refuted without overflow. *)
Definition dead_fits (o : option (Class3 * Z)) : Prop :=
  match o with Some (CD, j) => (0 ≤ j < U64_MAX)%Z | _ => True end.
(** A recorded death is already refuted by the node's incarnation. *)
Definition settled (o : option (Class3 * Z)) (own : Class3 * Z) : Prop :=
  match o, own with Some (CD, j), (CA, i) => (j < i)%Z | _, _ => True end.

Lemma hear3_dead j own :
  (0 ≤ j < U64_MAX)%Z → hear3 (CD, j) own = if (j <? own.2)%Z then own else (own.1, j + 1)%Z.
Proof. intros Hj. cbn. rewrite u64_id; [done|]. unfold is_u64. lia. Qed.

Ltac agree := split_and!; cbn; intros; first [done|lia|repeat f_equal; lia].

(** The side that starts the exchange, and what the other one records of it. *)
Lemma initiator_agrees own o :
  own.1 ≠ CD → no_lead o own → dead_fits o →
  let o' := event3 own o in
  let own' := match o' with Some r => hear3 r own | None => own end in
  (settled o own → Some (view3 own') = view3 <$> o') ∧
  own'.1 ≠ CD ∧ no_lead o' own' ∧ dead_fits o' ∧ settled o' own'.
Proof.
  intros Hc Hl Hd. destruct own as [[] i]; [|done|]; destruct o as [[[] j]|]; cbn in Hl, Hd; cbn zeta;
    cbn [event3 alive3 leave3]; try solve [agree];
    destruct (Z.leb_spec i j); cbn [hear3 fst snd]; try solve [agree].
  rewrite u64_id by (unfold is_u64; lia). destruct (Z.ltb_spec j i); [lia|]. agree.
Qed.

(** The side that answers. *)
Lemma responder_agrees own o :
  own.1 ≠ CD → no_lead o own → dead_fits o →
  let own' := match o with Some r => hear3 r own | None => own end in
  let o' := event3 own' o in
  Some (view3 own') = view3 <$> o' ∧ own'.1 ≠ CD ∧ no_lead o' own' ∧ dead_fits o'.
Proof.
  intros Hc Hl Hd. destruct own as [[] i]; [|done|]; destruct o as [[[] j]|]; cbn in Hl, Hd; cbn zeta;
    cbn [hear3 fst snd]; rewrite ?u64_id by (unfold is_u64; lia);
    try (destruct (Z.ltb_spec j i)); cbn [event3 alive3 leave3];
    repeat match goal with |- context [(?a <=? ?b)%Z] => destruct (Z.leb_spec a b) end;
    try lia; agree.
Qed.

(** ** Two nodes *)

Lemma absorb_one_step now s e : is_u64 (incarnation e) → rtc step s (absorb_one now s e).
Proof.
  intros He. unfold absorb_one. destruct (isValidNodeId (ev_id e)); [|apply rtc_refl].
  pose proof (step_event now e s He) as Hs. destruct (applyEvent now e s) as [[s' f] []]; cbn in Hs.
  - eapply rtc_l; [exact Hs|]. eapply rtc_l; [apply step_enqueue|apply rtc_refl].
  - eapply rtc_l; [exact Hs|apply rtc_refl].
Qed.

Lemma absorb_ok now l s : Forall (λ e, is_u64 (incarnation e)) l → swim_ok s → swim_ok (absorb now l s).
Proof.
  intros Hl. revert s. induction Hl as [|e l He Hl IH]; intros s Hs; [done|]. apply IH.
  pose proof (absorb_one_step now s e He) as Hr. revert Hs. induction Hr as [|s1 s2 s3 H1 _ IH2]; [done|].
  intros Hs. apply IH2. by eapply step_ok.
Qed.

Lemma fullState_u64 s : swim_ok s → Forall (λ e, is_u64 (incarnation e)) (fullState s).
Proof.
  intros Hok. apply list.Forall_cons. split; [apply Hok|].
  apply list.Forall_fmap, list.Forall_forall. intros [id m] Hm%elem_of_entries. by apply (so_inc s Hok id).
Qed.

Lemma absorb_full_ok now a s :
  swim_ok a → ids_valid a → swim_ok s → ids_valid s → self_id a ≠ self_id s →
  let s' := absorb now (fullState a) s in
  swim_ok s' ∧ ids_valid s' ∧ self_ s' = self_ s.
Proof.
  intros Ha Hva Hs Hvs Hne. cbn zeta.
  destruct (absorb_full now a s Ha Hva Hne) as (H1 & H2 & H3 & H4).
  assert (self_ (absorb now (fullState a) s) = self_ s) as Hself.
  { destruct (members_ a !! self_id s); [by eapply own_after_self|]. unfold own in H4. by injection H4. }
  split_and!; [by apply absorb_ok; [apply fullState_u64|]| |done]. split.
  - unfold self_id. rewrite Hself. apply Hvs.
  - intros id m. destruct (decide (id = self_id s)) as [->|Hs'].
    { intros _. apply Hvs. }
    destruct (decide (id = self_id a)) as [->|Ha']; [intros _; apply Hva|].
    rewrite H2 by done. unfold send. destruct (members_ a !! id) as [ma|] eqn:E.
    + intros _. by eapply Hva.
    + by apply Hvs.
Qed.

Record in_touch (a b : Swim) : Prop := {
  it_oka : swim_ok a;
  it_okb : swim_ok b;
  it_ida : ids_valid a;
  it_idb : ids_valid b;
  it_ne : self_id a ≠ self_id b;
  it_leada : no_lead (rec3 <$> members_ b !! self_id a) (own3 a);
  it_leadb : no_lead (rec3 <$> members_ a !! self_id b) (own3 b);
  it_deada : dead_fits (rec3 <$> members_ b !! self_id a);
  it_deadb : dead_fits (rec3 <$> members_ a !! self_id b);
}.

Lemma own3_not_dead s : (own3 s).1 ≠ CD.
Proof. unfold own3. by destruct (self_left_ s). Qed.

Lemma own_own3 s s' : own s = own s' → own3 s = own3 s'.
Proof. unfold own, own3. by intros [= _ -> ->]. Qed.

Lemma view_lookup s id :
  view s !! id = if decide (id = self_id s) then Some (view3 (own3 s))
                 else view3 <$> (rec3 <$> members_ s !! id).
Proof.
  unfold view. rewrite lookup_insert. case_decide as E; case_decide; try congruence.
  - by rewrite self_view_own3.
  - rewrite lookup_fmap. destruct (members_ s !! id); cbn; [|done]. by rewrite entry_view_rec3.
Qed.

Lemma exchange_spec now a b :
  in_touch a b →
  let '(a', b') := exchange now a b in
  in_touch a' b' ∧ self_id a' = self_id a ∧
  settled (rec3 <$> members_ b' !! self_id a) (own3 a') ∧
  (settled (rec3 <$> members_ b !! self_id a) (own3 a) → view a' = view b').
Proof.
  intros [Hoka Hokb Hva Hvb Hne Hla Hlb Hda Hdb]. unfold exchange.
  destruct (absorb_full now a b Hoka Hva Hne) as (B1 & B2 & B3 & B4).
  destruct (absorb_full_ok now a b Hoka Hva Hokb Hvb Hne) as (Hokb' & Hvb' & Hsb).
  set (b' := absorb now (fullState a) b) in *.
  assert (self_id b' = self_id b) as Hib by (unfold self_id; by rewrite Hsb).
  assert (self_id b' ≠ self_id a) as Hne' by congruence.
  destruct (absorb_full now b' a Hokb' Hvb' Hne') as (A1 & A2 & A3 & A4).
  destruct (absorb_full_ok now b' a Hokb' Hvb' Hoka Hva Hne') as (Hoka' & Hva' & Hsa).
  set (a' := absorb now (fullState b') a) in *.
  assert (self_id a' = self_id a) as Hia by (unfold self_id; by rewrite Hsa).
  (* the records of both nodes, in abstract form *)
  assert (rec3 <$> members_ b' !! self_id a = event3 (own3 a) (rec3 <$> members_ b !! self_id a)) as Rb.
  { rewrite B1. apply entry_after_self. }
  assert (own3 a' = match rec3 <$> members_ b' !! self_id a with
                    | Some r => hear3 r (own3 a) | None => own3 a end) as Oa.
  { destruct (members_ b' !! self_id a); cbn; [by eapply own_after_hear|].
    by apply own_own3. }
  assert (own3 b' = match rec3 <$> members_ a !! self_id b with
                    | Some r => hear3 r (own3 b) | None => own3 b end) as Ob.
  { destruct (members_ a !! self_id b); cbn; [by eapply own_after_hear|].
    by apply own_own3. }
  assert (rec3 <$> members_ a' !! self_id b = event3 (own3 b') (rec3 <$> members_ a !! self_id b)) as Ra.
  { rewrite <- Hib, A1. apply entry_after_self. }
  destruct (initiator_agrees (own3 a) (rec3 <$> members_ b !! self_id a) (own3_not_dead a) Hla Hda)
    as (I1 & _ & I2 & I3 & I4). rewrite <- Rb in I1, I2, I3, I4. rewrite <- Oa in I1, I2, I4.
  destruct (responder_agrees (own3 b) (rec3 <$> members_ a !! self_id b) (own3_not_dead b) Hlb Hdb)
    as (J1 & _ & J2 & J3). rewrite <- Ob in J1, J2, J3. rewrite <- Ra in J1, J2, J3.
  split_and!; [|done|done|].
  - split; rewrite ?Hia, ?Hib; done.
  - intros Hset. apply map_eq. intros id. rewrite !view_lookup, Hia, Hib.
    destruct (decide (id = self_id a)) as [->|Ea].
    { rewrite (decide_False (P := self_id a = self_id b)) by done. by rewrite I1. }
    destruct (decide (id = self_id b)) as [->|Eb]; [by rewrite <- J1|].
    rewrite A2 by congruence. rewrite B2 by done.
    assert (∀ o o', rec3 <$> send now id o o' = match rec3 <$> o with Some r => event3 r (rec3 <$> o') | None => rec3 <$> o' end) as Hsend.
    { intros o o'. unfold send. destruct o; cbn; [apply entry_after_event|done]. }
    rewrite !Hsend. apply third_agrees.
Qed.

(** ** Theorems *)

(** The digest is a function of the view, whatever the order in which a
    node stores it and with suspicion left out: nodes that hold the same view
    send the same digest. *)
Theorem digest_is_a_function_of_the_view a b :
  swim_ok a → swim_ok b → view a = view b → digest a = digest b.
Proof. intros Ha Hb Hv. by rewrite !digest_view, Hv. Qed.

(** C3: membership anti-entropy converges.  If neither node holds the other
    alive at an incarnation the other has not reached, two push-pull exchanges
    leave both with the same view, hence the same digest; one exchange is
    enough unless the responder holds the initiator dead at a current
    incarnation, in which case the first one makes it refute. *)
Theorem sync_converges now now' a b :
  in_touch a b →
  let '(a1, b1) := exchange now a b in
  let '(a2, b2) := exchange now' a1 b1 in
  view a2 = view b2 ∧ digest a2 = digest b2 ∧
  (settled (rec3 <$> members_ b !! self_id a) (own3 a) → view a1 = view b1).
Proof.
  intros Hit. pose proof (exchange_spec now a b Hit) as H1. destruct (exchange now a b) as [a1 b1].
  destruct H1 as (Hit1 & Hid & Hset & Hone). pose proof (exchange_spec now' a1 b1 Hit1) as H2.
  destruct (exchange now' a1 b1) as [a2 b2]. destruct H2 as (Hit2 & _ & _ & Htwo).
  rewrite Hid in Htwo. specialize (Htwo Hset). split_and!; [done| |done].
  rewrite !digest_view by apply Hit2. by rewrite Htwo.
Qed.

(** A record that is ahead survives an exchange unchanged. *)
Lemma exchange_keeps_lead now a b i j :
  swim_ok a → swim_ok b → ids_valid a → ids_valid b → self_id a ≠ self_id b →
  own3 a = (CA, i) → rec3 <$> members_ b !! self_id a = Some (CA, j) → (i < j)%Z →
  let '(a', b') := exchange now a b in
  swim_ok a' ∧ swim_ok b' ∧ ids_valid a' ∧ ids_valid b' ∧ self_id a' = self_id a ∧ self_id b' = self_id b ∧
  own3 a' = (CA, i) ∧ rec3 <$> members_ b' !! self_id a = Some (CA, j).
Proof.
  intros Hoka Hokb Hva Hvb Hne Ho Hr Hlt. unfold exchange.
  destruct (absorb_full now a b Hoka Hva Hne) as (B1 & _ & _ & _).
  destruct (absorb_full_ok now a b Hoka Hva Hokb Hvb Hne) as (Hokb' & Hvb' & Hsb).
  set (b' := absorb now (fullState a) b) in *.
  assert (self_id b' = self_id b) as Hib by (unfold self_id; by rewrite Hsb).
  assert (self_id b' ≠ self_id a) as Hne' by congruence.
  destruct (absorb_full now b' a Hokb' Hvb' Hne') as (_ & _ & _ & A4).
  destruct (absorb_full_ok now b' a Hokb' Hvb' Hoka Hva Hne') as (Hoka' & Hva' & Hsa).
  set (a' := absorb now (fullState b') a) in *.
  assert (rec3 <$> members_ b' !! self_id a = Some (CA, j)) as Rb.
  { rewrite B1, entry_after_self, Ho, Hr. cbn. destruct (Z.leb_spec i j); [done|lia]. }
  split_and!; try done; [unfold self_id; by rewrite Hsa|].
  destruct (members_ b' !! self_id a) as [m|]; [|done]. cbn in Rb. injection Rb as Rb.
  rewrite (own_after_hear _ _ _ _ A4). unfold rec3. by rewrite Rb, Ho.
Qed.

Fixpoint exchanges (n : nat) (now : nat → Z) (a b : Swim) : Swim * Swim :=
  match n with
  | O => (a, b)
  | S n => let '(a', b') := exchange (now n) a b in exchanges n now a' b'
  end.

(** A lead is never repaired.  If a node is held alive at an incarnation
    above its own, as the join handshake leaves a restarted node, then however
    many full-state exchanges follow, the two views keep differing on it. *)
Theorem lead_is_never_repaired n now a b i j :
  swim_ok a → swim_ok b → ids_valid a → ids_valid b → self_id a ≠ self_id b →
  own3 a = (CA, i) → rec3 <$> members_ b !! self_id a = Some (CA, j) → (i < j)%Z →
  let '(a', b') := exchanges n now a b in
  view a' !! self_id a = Some ("A"%char, i) ∧ view b' !! self_id a = Some ("A"%char, j) ∧ view a' ≠ view b'.
Proof.
  revert a b. induction n as [|n IH]; intros a b Hoka Hokb Hva Hvb Hne Ho Hr Hlt; cbn [exchanges].
  - assert (view a !! self_id a = Some ("A"%char, i)) as Va by (by rewrite view_lookup, decide_True, Ho).
    assert (view b !! self_id a = Some ("A"%char, j)) as Vb by (by rewrite view_lookup, decide_False, Hr).
    split_and!; [done..|]. intros E. rewrite E, Vb in Va. injection Va. lia.
  - pose proof (exchange_keeps_lead (now n) a b i j Hoka Hokb Hva Hvb Hne Ho Hr Hlt) as Hx.
    destruct (exchange (now n) a b) as [a1 b1]. destruct Hx as (H1 & H2 & H3 & H4 & Ia & Ib & H5 & H6).
    rewrite <- Ia. apply IH; [done..|congruence|done|by rewrite Ia|done].
Qed.

(** *** A restarted node *)

Definition nodeA : NodeInfo := mkNode "node1" "h1" 5001.
Definition nodeB : NodeInfo := mkNode "node2" "h2" 5002.

(** B knew node1 and declared it dead at incarnation 0. *)
Definition before : Swim := (confirmDead "node1" (applyEvent 0 (mkEvent EventType.Alive "node1" "h1" 5001 0) (new nodeB 5)).1.1).1.
(** The restarted process, at incarnation 0, joins through B. *)
Definition afterB : Swim := (applyDirectJoin (mkEvent EventType.Join "node1" "h1" 5001 0) before).1.1.
Definition afterA : Swim := absorb 0 [mkEvent EventType.Alive "node2" "h2" 5002 0] (new nodeA 5).

Lemma reach_ok self mult s : rtc step (new self mult) s → swim_ok s.
Proof. intros Hr. eapply (rtc_ind_r swim_ok); [apply swim_ok_new|by intros; eapply step_ok|exact Hr]. Qed.

Lemma before_ok : swim_ok before.
Proof.
  apply (reach_ok nodeB 5). eapply rtc_l; [apply (step_event 0 (mkEvent EventType.Alive "node1" "h1" 5001 0)); vm_decide|].
  eapply rtc_l; [apply step_confirm|apply rtc_refl].
Qed.

Lemma afterB_ok : swim_ok afterB.
Proof. eapply step_ok; [apply (step_join (mkEvent EventType.Join "node1" "h1" 5001 0)); vm_decide|apply before_ok]. Qed.

Lemma afterA_ok : swim_ok afterA.
Proof. apply absorb_ok; [by repeat constructor; vm_decide|apply swim_ok_new]. Qed.

Lemma ids_valid_check s :
  isValidNodeId (self_id s) = true → map_Forall (λ id _, isValidNodeId id = true) (members_ s) → ids_valid s.
Proof. intros H1 H2. split; [done|]. intros id m Hm. by apply (H2 id m). Qed.

Lemma digest_is_a_function_of_the_view_witness :
  let a := absorb 3 [mkEvent EventType.Alive "node3" "h3" 5003 2; mkEvent EventType.Alive "node2" "h2" 5002 0] (new nodeA 5) in
  let b := suspect 9 "node3" (absorb 4 [mkEvent EventType.Alive "node1" "h1" 5001 0; mkEvent EventType.Alive "node3" "h3" 5003 2] (new nodeB 5)) in
  digest a = digest b.
Proof.
  apply digest_is_a_function_of_the_view.
  - apply absorb_ok; [by repeat constructor; vm_decide|apply swim_ok_new].
  - eapply step_ok; [apply step_suspect|]. apply absorb_ok; [by repeat constructor; vm_decide|apply swim_ok_new].
  - vm_compute. reflexivity.
Defined.

(** A healed partition: B holds A dead, A never heard of it. *)
Lemma sync_converges_witness :
  let '(a1, b1) := exchange 10 afterA before in
  let '(a2, b2) := exchange 11 a1 b1 in view a2 = view b2.
Proof.
  pose proof (sync_converges 10 11 afterA before) as Hc.
  destruct (exchange 10 afterA before) as [a1 b1]. destruct (exchange 11 a1 b1) as [a2 b2].
  apply Hc. split.
  - apply afterA_ok.
  - apply before_ok.
  - apply ids_valid_check; [reflexivity|vm_decide].
  - apply ids_valid_check; [reflexivity|vm_decide].
  - discriminate.
  - vm_compute. exact I.
  - vm_compute. discriminate.
  - vm_compute. split; [discriminate|reflexivity].
  - vm_compute. exact I.
Defined.

Lemma lead_is_never_repaired_witness :
  let '(a', b') := exchanges 5 Z.of_nat afterA afterB in view a' ≠ view b'.
Proof.
  pose proof (lead_is_never_repaired 5 Z.of_nat afterA afterB 0 1) as Hc.
  destruct (exchanges 5 Z.of_nat afterA afterB) as [a' b'].
  destruct Hc as (_ & _ & Hne); [..|exact Hne].
  - apply afterA_ok.
  - apply afterB_ok.
  - apply ids_valid_check; [reflexivity|vm_decide].
  - apply ids_valid_check; [reflexivity|vm_decide].
  - discriminate.
  - vm_compute. reflexivity.
  - vm_compute. reflexivity.
  - reflexivity.
Defined.
