(* ===== verification/Gossip.v ===== *)
(** * The gossip driver (src/gossip/gossip_thread.h, src/gossip/gossip_thread.cpp)

    [GossipThread] owns the membership state machine, keeps the ring in step with
    it through the callback it registers, and speaks the SWIM verbs.  Sending a
    message and waiting for its reply changes the rest of the world, so
    [send_fn_] is a function on a type of worlds that also shows the steady
    clock and the node's random generator; the definitions thread it through.

    The theorems: in every reachable state the ring is the membership's
    (everyone reachable is in it, nobody departed is); a tombstoned joiner is
    turned away and retires itself; and one [performSync] over a working network
    is exactly the abstract exchange of [Sync]. *)
From S2P Require Import Prelude Util Ring Events Membership Sync.
From Stdlib Require Import Ascii String ZArith Lia.
From stdpp Require Import base gmap list strings numbers.
Import Swim.

Record GossipConfig := mkGossipConfig {
  protocol_period : Z;
  ping_timeout : Z;
  indirect_probe_count : Z;
  suspicion_mult : Z;
}.

Record MismatchState := mkMismatch { consecutive : Z; last_sync_tick : Z }.

Definition kSyncMismatchThreshold : Z := 2.
Definition kSyncCooldownTicks : Z := 10.
Definition kDeadProbeEveryTicks : Z := 5.

Module GossipThread.
Section GossipThread.
Context {Net : Type} (send_fn : string → Z → string → Net → string * Net)
        (clock_now : Net → Z) (shuffle : Net → list NodeInfo → list NodeInfo).

Record GossipThread := mkGossip {
  g_self : NodeInfo;
  g_router : Router.Router;
  g_config : GossipConfig;
  g_swim : Swim;
  mismatch_ : gmap string MismatchState;
  tick_count_ : Z;
  idx : Z;              (* the [thread_local] index of [tick] *)
  syncs : Z;            (* firings of [on_membership_sync_] *)
}.

Definition new (self : NodeInfo) (router : Router.Router) (config : GossipConfig) : GossipThread :=
  mkGossip self router config (Swim.new self (suspicion_mult config)) ∅ 0 0 0.

(** The callback registered by the constructor. *)
Definition on_change (r : Router.Router) (c : Change) : Router.Router :=
  match c.2 with
  | MemberState.Alive => Router.addPhysicalNode c.1 r
  | MemberState.Left => Router.removePhysicalNode (node_id c.1) r
  | _ => r
  end.

(** A [Swim] call: the new state machine and the callbacks it fired. *)
Definition swim_call (s : Swim) (fired : list Change) (g : GossipThread) : GossipThread :=
  mkGossip (g_self g) (foldl on_change (g_router g) fired) (g_config g) s (mismatch_ g)
           (tick_count_ g) (idx g) (syncs g).

Definition with_mismatch (m : gmap string MismatchState) (g : GossipThread) : GossipThread :=
  mkGossip (g_self g) (g_router g) (g_config g) (g_swim g) m (tick_count_ g) (idx g) (syncs g).
Definition with_tick (t : Z) (g : GossipThread) : GossipThread :=
  mkGossip (g_self g) (g_router g) (g_config g) (g_swim g) (mismatch_ g) t (idx g) (syncs g).
Definition with_idx (i : Z) (g : GossipThread) : GossipThread :=
  mkGossip (g_self g) (g_router g) (g_config g) (g_swim g) (mismatch_ g) (tick_count_ g) i (syncs g).
Definition synced (g : GossipThread) : GossipThread :=
  mkGossip (g_self g) (g_router g) (g_config g) (g_swim g) (mismatch_ g) (tick_count_ g) (idx g)
           (syncs g + 1).

(** ** Incoming events *)

Definition apply_incoming (now : Z) (g : GossipThread) (ev : MemberEvent) : GossipThread :=
  if isValidNodeId (ev_id ev) then
    let '(s, fired, changed) := applyEvent now ev (g_swim g) in
    swim_call (if changed then enqueueEvent ev s else s) fired g
  else g.

Definition applyIncomingEvents (now : Z) (events_field : string) (g : GossipThread) : GossipThread :=
  if str_empty events_field then g
  else foldl (apply_incoming now) g (deserializeEvents events_field).

(** ** Messages *)

Definition buildPing (target_id : string) (g : GossipThread) : string * GossipThread :=
  let '(events, s) := getEventsToSend (g_swim g) in
  ("SWIM_PING|" +:+ node_id (g_self g) +:+ "|" +:+ target_id +:+ "|" +:+ serializeEvents events,
   swim_call s [] g).

Definition buildPingReq (target_id : string) (g : GossipThread) : string * GossipThread :=
  let '(events, s) := getEventsToSend (g_swim g) in
  ("SWIM_PING_REQ|" +:+ node_id (g_self g) +:+ "|" +:+ target_id +:+ "|" +:+ node_id (g_self g) +:+ "|"
     +:+ serializeEvents events, swim_call s [] g).

Definition buildAck (target_id : string) (g : GossipThread) : string * GossipThread :=
  let '(events, s) := getEventsToSend (g_swim g) in
  ("SWIM_ACK|" +:+ node_id (g_self g) +:+ "|" +:+ target_id +:+ "|" +:+ serializeEvents events +:+ "|"
     +:+ to_string (digest s), swim_call s [] g).

(** ** Full-state sync *)

Definition sync_msg (verb : string) (g : GossipThread) : string :=
  verb +:+ "|" +:+ node_id (g_self g) +:+ "|" +:+ serializeEvents (fullState (g_swim g)).

Definition performSync (peer : NodeInfo) (gn : GossipThread * Net) : GossipThread * Net :=
  let '(g, net) := gn in
  let '(resp, net') := send_fn (host peer) (port peer) (sync_msg "SWIM_SYNC" g) net in
  if str_empty resp then (g, net')
  else
    let f := splitAll resp "|" in
    if negb (String.eqb (field f 0) "SWIM_SYNC_ACK") then (g, net')
    else (synced (applyIncomingEvents (clock_now net') (field f 2) g), net').

Definition maybeSync (peer : NodeInfo) (digest_field : string) (gn : GossipThread * Net)
  : GossipThread * Net :=
  let '(g, net) := gn in
  if str_empty digest_field then gn
  else match stoull digest_field with
  | None => gn
  | Some theirs =>
      if (theirs =? digest (g_swim g))%Z
      then (with_mismatch (delete (node_id peer) (mismatch_ g)) g, net)
      else
        let m := default (mkMismatch 0 0) (mismatch_ g !! node_id peer) in
        let m := mkMismatch (consecutive m + 1) (last_sync_tick m) in
        let g := with_mismatch (<[node_id peer := m]> (mismatch_ g)) g in
        if (consecutive m <? kSyncMismatchThreshold)%Z then (g, net)
        else if negb (last_sync_tick m =? 0)%Z &&
                (u64 (tick_count_ g - last_sync_tick m) <? kSyncCooldownTicks)%Z then (g, net)
        else
          performSync peer
            (with_mismatch (<[node_id peer := mkMismatch 0 (tick_count_ g)]> (mismatch_ g)) g, net)
  end.

(** ** Probing *)

Definition handleAck (peer : NodeInfo) (resp : string) (gn : GossipThread * Net)
  : bool * (GossipThread * Net) :=
  if str_empty resp then (false, gn)
  else
    let f := splitAll resp "|" in
    if negb (String.eqb (field f 0) "SWIM_ACK") then (false, gn)
    else
      let '(g, net) := gn in
      let g := applyIncomingEvents (clock_now net) (field f 3) g in
      (true, maybeSync peer (field f 4) (g, net)).

Definition probeDead (target : NodeInfo) (gn : GossipThread * Net) : GossipThread * Net :=
  let '(g, net) := gn in
  let '(ping, g) := buildPing (node_id target) g in
  let '(resp, net) := send_fn (host target) (port target) ping net in
  (handleAck target resp (g, net)).2.

(** The loop over the proxies, up to the first that acknowledges. *)
Fixpoint indirect_probe (target : NodeInfo) (proxies : list NodeInfo) (gn : GossipThread * Net)
  : bool * (GossipThread * Net) :=
  match proxies with
  | [] => (false, gn)
  | proxy :: proxies =>
      let '(g, net) := gn in
      let '(preq, g) := buildPingReq (node_id target) g in
      let '(presp, net) := send_fn (host proxy) (port proxy) preq net in
      let '(ok, gn) := handleAck proxy presp (g, net) in
      if ok then (true, gn) else indirect_probe target proxies gn
  end.

Definition pingTarget (target : NodeInfo) (gn : GossipThread * Net) : GossipThread * Net :=
  let '(g, net) := gn in
  let '(ping, g) := buildPing (node_id target) g in
  let '(resp, net) := send_fn (host target) (port target) ping net in
  if negb (str_empty resp) then (handleAck target resp (g, net)).2
  else
    let proxies := randomPeers (shuffle net) (indirect_probe_count (g_config g)) [node_id target] (g_swim g) in
    let '(got_ack, (g, net)) := indirect_probe target proxies (g, net) in
    if got_ack then (g, net)
    else (swim_call (suspect (clock_now net) (node_id target) (g_swim g)) [] g, net).

Definition tick (gn : GossipThread * Net) : GossipThread * Net :=
  let '(g, net) := gn in
  let g := with_tick (u64 (tick_count_ g + 1)) g in
  if hasLeft (g_swim g) then (g, net)
  else
    let timeout := (protocol_period (g_config g) * suspicion_mult (g_config g))%Z in
    let '(s, _, fired) := expireSuspects (clock_now net) timeout (g_swim g) in
    let g := swim_call s fired g in
    let '(g, net) :=
      if (tick_count_ g mod kDeadProbeEveryTicks =? 0)%Z then
        let dead := deadPeers (g_swim g) in
        match dead !! Z.to_nat ((tick_count_ g / kDeadProbeEveryTicks) mod Z.of_nat (length dead)) with
        | Some target => probeDead target (g, net)
        | None => (g, net)
        end
      else (g, net) in
    let peers := alivePeers (g_swim g) in
    match peers !! Z.to_nat (idx g mod Z.of_nat (length peers)) with
    | None => (g, net)
    | Some target => pingTarget target (with_idx (u64 (idx g + 1)) g, net)
    end.

(** ** Joining and leaving *)

Definition join_msg (g : GossipThread) : string :=
  "SWIM_JOIN|" +:+ node_id (g_self g) +:+ "|" +:+ host (g_self g) +:+ "|" +:+ to_string (port (g_self g))
  +:+ "|" +:+ to_string (incarnation_ (g_swim g)) +:+ "|".

(** The loop over the seeds, up to the first that answers. *)
Fixpoint join_loop (msg : string) (seeds : list string) (gn : GossipThread * Net) : GossipThread * Net :=
  match seeds with
  | [] => gn
  | seed :: seeds =>
      let parts := splitAll seed ":" in
      if bool_decide (length parts < 2) then join_loop msg seeds gn
      else match stoi (field parts 1) with
      | None => join_loop msg seeds gn
      | Some p =>
          let '(g, net) := gn in
          let '(resp, net) := send_fn (field parts 0) (u16 p) msg net in
          if str_empty resp then join_loop msg seeds (g, net)
          else
            let f := splitAll resp "|" in
            if String.eqb (field f 0) "SWIM_ACK"
            then (applyIncomingEvents (clock_now net) (field f 3) g, net)
            else join_loop msg seeds (g, net)
      end
  end.

Definition joinViaSeeds (seeds : list string) (gn : GossipThread * Net) : GossipThread * Net :=
  join_loop (join_msg gn.1) seeds gn.

Definition requestLeave (id : string) (g : GossipThread) : bool * GossipThread :=
  match stateOf id (g_swim g) with
  | None => (false, g)
  | Some _ => let '(s, fired) := leave id (g_swim g) in (true, swim_call s fired g)
  end.

(** ** Serving *)

Definition ack_of (g : GossipThread) (to : string) (events : list MemberEvent) : string :=
  "SWIM_ACK|" +:+ node_id (g_self g) +:+ "|" +:+ to +:+ "|" +:+ serializeEvents events.

(** The membership a joiner is told: ourselves and everyone reachable. *)
Definition full_list (g : GossipThread) : list MemberEvent :=
  mkEvent EventType.Alive (node_id (g_self g)) (host (g_self g)) (port (g_self g)) (incarnation_ (g_swim g))
  :: ((λ m, mkEvent EventType.Alive (node_id (info m)) (host (info m)) (port (info m)) (entry_inc m))
        <$> allMembers (g_swim g)).

Definition handleJoin (f : list string) (gn : GossipThread * Net) : string * (GossipThread * Net) :=
  let '(g, net) := gn in
  let sender_id := field f 1 in
  if negb (isValidNodeId sender_id) then ("", gn)
  else
    let port := match stoi (field f 3) with Some p => u16 p | None => 0%Z end in
    let inc := match stoull (field f 4) with Some i => i | None => 0%Z end in
    let g := applyIncomingEvents (clock_now net) (field f 5) g in
    let join_ev := mkEvent EventType.Join sender_id (field f 2) port inc in
    let '(s, fired, eff) := applyDirectJoin join_ev (g_swim g) in
    let g := swim_call s fired g in
    match eff with
    | None => (ack_of g sender_id [mkEvent EventType.Leave sender_id "" 0 0], (g, net))
    | Some eff =>
        let alive_ev := mkEvent EventType.Alive sender_id (field f 2) port eff in
        let g := swim_call (enqueueEvent alive_ev (g_swim g)) [] g in
        (ack_of g sender_id (full_list g), (g, net))
    end.

Definition handlePingReq (f : list string) (gn : GossipThread * Net) : string * (GossipThread * Net) :=
  let '(g, net) := gn in
  let g := applyIncomingEvents (clock_now net) (field f 4) g in
  let target_id := field f 2 in
  match List.find (λ m, String.eqb (node_id (info m)) target_id) (allMembers (g_swim g)) with
  | None => ("", (g, net))
  | Some m =>
      let '(ping, g) := buildPing target_id g in
      let '(resp, net) := send_fn (host (info m)) (port (info m)) ping net in
      if str_empty resp then ("", (g, net))
      else let '(ack, g) := buildAck (field f 1) g in (ack, (g, net))
  end.

Definition handleMessage (payload : string) (gn : GossipThread * Net) : string * (GossipThread * Net) :=
  let f := splitAll payload "|" in
  let type := field f 0 in
  let '(g, net) := gn in
  if String.eqb type "SWIM_PING" then
    let '(ack, g) := buildAck (field f 1) (applyIncomingEvents (clock_now net) (field f 3) g) in
    (ack, (g, net))
  else if String.eqb type "SWIM_PING_REQ" then handlePingReq f gn
  else if String.eqb type "SWIM_ACK" then ("", (applyIncomingEvents (clock_now net) (field f 3) g, net))
  else if String.eqb type "SWIM_SYNC" then
    let g := synced (applyIncomingEvents (clock_now net) (field f 2) g) in
    (sync_msg "SWIM_SYNC_ACK" g, (g, net))
  else if String.eqb type "SWIM_SYNC_ACK" then
    ("", (applyIncomingEvents (clock_now net) (field f 2) g, net))
  else if String.eqb type "SWIM_JOIN" then handleJoin f gn
  else ("", gn).

End GossipThread.

(** ** The calls the driver makes *)

(** One locked [Swim] call, with the callbacks it fires.  Gossip only applies
    events whose id is valid. *)
Inductive call : Swim → list Change → Swim → Prop :=
| call_event now e s : isValidNodeId (ev_id e) = true → is_u64 (incarnation e) →
    call s (applyEvent now e s).1.2 (applyEvent now e s).1.1
| call_join e s : isValidNodeId (ev_id e) = true → is_u64 (incarnation e) →
    call s (applyDirectJoin e s).1.2 (applyDirectJoin e s).1.1
| call_leave id s : call s (leave id s).2 (leave id s).1
| call_suspect now id s : call s [] (suspect now id s)
| call_expire now timeout s : call s (expireSuspects now timeout s).2 (expireSuspects now timeout s).1.1
| call_send s : call s [] (getEventsToSend s).2
| call_enqueue e s : call s [] (enqueueEvent e s).

Definition machine (g : GossipThread) : Swim * Router.Router := (g_swim g, g_router g).

(** The state machine and the ring move together: the callbacks run under the
    lock of the call that fires them.  Any interleaving of the gossip thread
    with the connection handlers is a sequence of these. *)
Definition acall (p p' : Swim * Router.Router) : Prop :=
  ∃ fired, call p.1 fired p'.1 ∧ p'.2 = foldl on_change p.2 fired.

Definition calls (g g' : GossipThread) : Prop :=
  rtc acall (machine g) (machine g') ∧ g_self g' = g_self g.

#[export] Instance calls_preorder : PreOrder calls.
Proof.
  split; [by intros g; split; [apply rtc_refl|]|]. intros g1 g2 g3 [H1 E1] [H2 E2].
  split; [by etrans|congruence].
Qed.

Lemma calls_call g s fired : call (g_swim g) fired s → calls g (swim_call s fired g).
Proof. intros Hc. split; [|done]. apply rtc_once. by exists fired. Qed.

Lemma call_step s fired s' : call s fired s' → step s s'.
Proof. destruct 1; by constructor. Qed.

Section Calls.
Context {Net : Type} (send_fn : string → Z → string → Net → string * Net)
        (clock_now : Net → Z) (shuffle : Net → list NodeInfo → list NodeInfo).

Abbreviation performSync := (performSync send_fn clock_now).
Abbreviation maybeSync := (maybeSync send_fn clock_now).
Abbreviation handleAck := (handleAck send_fn clock_now).
Abbreviation indirect_probe := (indirect_probe send_fn clock_now).
Abbreviation probeDead := (probeDead send_fn clock_now).
Abbreviation pingTarget := (pingTarget send_fn clock_now shuffle).
Abbreviation tick := (tick send_fn clock_now shuffle).
Abbreviation joinViaSeeds := (joinViaSeeds send_fn clock_now).
Abbreviation handleMessage := (handleMessage send_fn clock_now).

Lemma calls_incoming now ev g : is_u64 (incarnation ev) → calls g (apply_incoming now g ev).
Proof.
  intros Hu. unfold apply_incoming. destruct (isValidNodeId (ev_id ev)) eqn:Hv; [|done].
  pose proof (call_event now ev (g_swim g) Hv Hu) as Hc.
  destruct (applyEvent now ev (g_swim g)) as [[s fired] []]; cbn in Hc; [|by apply calls_call].
  etrans; [by apply calls_call|]. apply (calls_call (swim_call s fired g) _ []). apply call_enqueue.
Qed.

Lemma calls_events now f g : calls g (applyIncomingEvents now f g).
Proof.
  unfold applyIncomingEvents. destruct (str_empty f); [done|].
  pose proof (deserialize_events_u64 f) as Hl. revert g.
  induction Hl as [|e l He _ IH]; intros g; [done|]. cbn. etrans; [by apply calls_incoming|apply IH].
Qed.

Lemma calls_send g : calls g (swim_call (getEventsToSend (g_swim g)).2 [] g).
Proof. apply calls_call, call_send. Qed.

Lemma calls_sync peer gn : calls gn.1 (performSync peer gn).1.
Proof.
  destruct gn as [g net]. unfold performSync. cbn. destruct (send_fn _ _ _ _) as [resp net'].
  destruct (str_empty resp); [done|]. destruct (negb _); [done|]. apply calls_events.
Qed.

Lemma calls_maybe peer f gn : calls gn.1 (maybeSync peer f gn).1.
Proof.
  destruct gn as [g net]. unfold maybeSync.
  destruct (str_empty f); [done|]. destruct (stoull f) as [theirs|]; [|done].
  destruct (_ =? _)%Z; [done|]. destruct (_ <? _)%Z; [done|]. destruct (_ && _); [done|].
  etrans; [|apply calls_sync]. done.
Qed.

Lemma calls_ack peer resp gn : calls gn.1 (handleAck peer resp gn).2.1.
Proof.
  unfold handleAck. destruct (str_empty resp); [done|]. destruct (negb _); [done|].
  destruct gn as [g net]. etrans; [|apply calls_maybe]. apply calls_events.
Qed.

Lemma calls_probe target gn : calls gn.1 (probeDead target gn).1.
Proof.
  destruct gn as [g net]. unfold probeDead, buildPing. cbn. destruct (send_fn _ _ _ _) as [resp net'].
  etrans; [|apply calls_ack]. apply calls_send.
Qed.

Lemma calls_indirect target proxies gn : calls gn.1 (indirect_probe target proxies gn).2.1.
Proof.
  revert gn. induction proxies as [|proxy proxies IH]; intros [g net]; [done|]. cbn.
  destruct (send_fn _ _ _ _) as [resp net'].
  pose proof (calls_ack proxy resp (swim_call (getEventsToSend (g_swim g)).2 [] g, net')) as Ha.
  destruct (handleAck _ _ _) as [[] gn']; cbn in *; [by etrans; [apply calls_send|]|].
  etrans; [apply calls_send|]. etrans; [exact Ha|apply IH].
Qed.

Lemma calls_ping target gn : calls gn.1 (pingTarget target gn).1.
Proof.
  destruct gn as [g net]. unfold pingTarget, buildPing. cbn. destruct (send_fn _ _ _ _) as [resp net'].
  etrans; [apply calls_send|]. destruct (str_empty resp); cbn; [|by etrans; [|apply calls_ack]].
  set (g1 := swim_call _ _ g). set (ps := randomPeers _ _ _ _).
  pose proof (calls_indirect target ps (g1, net')) as Hi.
  destruct (indirect_probe target ps (g1, net')) as [[] [g2 net2]]; cbn in *; [done|].
  etrans; [exact Hi|]. apply calls_call, call_suspect.
Qed.

Lemma calls_tick gn : calls gn.1 (tick gn).1.
Proof.
  destruct gn as [g net]. unfold tick. set (g0 := with_tick _ g).
  assert (calls g g0) as H0 by done. cbn [fst].
  destruct (hasLeft (g_swim g0)); [done|].
  pose proof (call_expire (clock_now net) (protocol_period (g_config g0) * suspicion_mult (g_config g0)) (g_swim g0)) as Hc.
  destruct (expireSuspects _ _ _) as [[s ex] fired]. cbn in Hc. set (g1 := swim_call s fired g0).
  assert (calls g0 g1) as H1 by (by apply calls_call).
  match goal with |- context [if (?t =? 0)%Z then ?a else ?b] => set (gn2 := if (t =? 0)%Z then a else b) end.
  assert (calls g1 gn2.1) as H2.
  { unfold gn2. destruct (_ =? _)%Z; [|done]. destruct (deadPeers _ !! _); [apply (calls_probe _ (g1, net))|done]. }
  destruct gn2 as [g2 net2]. cbn in H2. destruct (alivePeers _ !! _) as [target|].
  - etrans; [exact H1|]. etrans; [exact H2|]. etrans; [|apply calls_ping]. done.
  - by etrans.
Qed.

Lemma calls_seeds seeds gn : calls gn.1 (joinViaSeeds seeds gn).1.
Proof.
  unfold joinViaSeeds. generalize (join_msg gn.1). intros msg. revert gn.
  induction seeds as [|seed seeds IH]; intros gn; [done|]. cbn.
  destruct (bool_decide _); [apply IH|]. destruct (stoi _); [|apply IH]. destruct gn as [g net].
  destruct (send_fn _ _ _ _) as [resp net']. destruct (str_empty resp); [apply (IH (g, net'))|].
  destruct (String.eqb _ _); [apply calls_events|apply (IH (g, net'))].
Qed.

Lemma calls_leave id g : calls g (requestLeave id g).2.
Proof.
  unfold requestLeave. destruct (stateOf id (g_swim g)); [|done].
  pose proof (call_leave id (g_swim g)) as Hc. destruct (leave id (g_swim g)). by apply calls_call.
Qed.

Lemma calls_join f gn : calls gn.1 (handleJoin clock_now f gn).2.1.
Proof.
  destruct gn as [g net]. unfold handleJoin. destruct (isValidNodeId (field f 1)) eqn:Hv; [|done]. cbn [negb].
  set (inc := match stoull _ with Some _ => _ | None => _ end).
  assert (is_u64 inc) as Hu.
  { unfold inc. destruct (stoull _) eqn:E; [by eapply stoull_range|vm_decide]. }
  set (g1 := applyIncomingEvents _ _ g). assert (calls g g1) as H1 by apply calls_events.
  set (e := mkEvent EventType.Join _ _ _ _).
  pose proof (call_join e (g_swim g1) Hv Hu) as Hc.
  destruct (applyDirectJoin e (g_swim g1)) as [[s fired] eff]. cbn in Hc |- *.
  assert (calls g (swim_call s fired g1)) as H2 by (by etrans; [|apply calls_call]).
  destruct eff; [|done]. cbn. etrans; [exact H2|]. apply (calls_call (swim_call s fired g1) _ []), call_enqueue.
Qed.

Lemma calls_message payload gn : calls gn.1 (handleMessage payload gn).2.1.
Proof.
  destruct gn as [g net]. unfold handleMessage. set (f := splitAll payload "|"). cbn [fst].
  assert (∀ k, calls g (applyIncomingEvents (clock_now net) (field f k) g)) as Hin by (intros; apply calls_events).
  destruct (String.eqb _ "SWIM_PING"); [cbn; etrans; [apply (Hin 3)|apply calls_send]|].
  destruct (String.eqb _ "SWIM_PING_REQ").
  { unfold handlePingReq. set (g1 := applyIncomingEvents _ _ g). assert (calls g g1) as H1 by apply (Hin 4).
    destruct (List.find _ _); [|done]. cbn. destruct (send_fn _ _ _ _) as [resp net'].
    set (g2 := swim_call (getEventsToSend (g_swim g1)).2 [] g1).
    assert (calls g g2) as H2 by (etrans; [exact H1|apply calls_send]).
    destruct (str_empty resp); [done|]. cbn. etrans; [exact H2|]. exact (calls_send g2). }
  destruct (String.eqb _ "SWIM_ACK"); [apply (Hin 3)|].
  destruct (String.eqb _ "SWIM_SYNC"); [apply (Hin 2)|].
  destruct (String.eqb _ "SWIM_SYNC_ACK"); [apply (Hin 2)|].
  destruct (String.eqb _ "SWIM_JOIN"); [apply (calls_join f (g, net))|done].
Qed.

(** What a node does over its life: ticks, messages served, joining, LEAVE
    commands, in any order and against any network. *)
Inductive gstep : GossipThread → GossipThread → Prop :=
| g_tick g net : gstep g (tick (g, net)).1
| g_message payload g net : gstep g (handleMessage payload (g, net)).2.1
| g_seeds seeds g net : gstep g (joinViaSeeds seeds (g, net)).1
| g_leave id g : gstep g (requestLeave id g).2.

Lemma gsteps_calls g g' : rtc gstep g g' → calls g g'.
Proof.
  induction 1 as [|g1 g2 g3 Hs _ IH]; [done|]. etrans; [|exact IH]. destruct Hs.
  - apply (calls_tick (g, net)).
  - apply (calls_message payload (g, net)).
  - apply (calls_seeds seeds (g, net)).
  - apply calls_leave.
Qed.
End Calls.

(** ** The ring follows the membership *)

(** What the state held for an id says of the ring: nobody unknown or departed
    is in it, everyone reachable is; a node held Dead keeps the place it had. *)
Definition ring_cond (st : option MemberState.t) (n : option NodeInfo) : Prop :=
  match st with
  | None | Some MemberState.Left => n = None
  | Some MemberState.Dead => True
  | Some _ => is_Some n
  end.

Record mirror (s : Swim) (r : Router.Router) : Prop := {
  mi_ring : ∀ id, ring_cond (stateOf id s) (Router.nodes r !! id);
  mi_ids : ∀ id n, Router.nodes r !! id = Some n → node_id n = id;
}.

Lemma nodes_on_change r c j :
  Router.nodes (on_change r c) !! j =
  if decide (j = node_id c.1) then
    match c.2 with
    | MemberState.Alive => Some (default c.1 (Router.nodes r !! j))
    | MemberState.Left => None
    | _ => Router.nodes r !! j
    end
  else Router.nodes r !! j.
Proof.
  unfold on_change, Router.addPhysicalNode, Router.removePhysicalNode.
  destruct c as [i st]; cbn. destruct st; repeat case_decide; subst; try done;
    destruct (Router.nodes r !! node_id i) eqn:E; cbn; rewrite ?E; try done;
    by rewrite ?lookup_insert_eq, ?lookup_insert_ne, ?lookup_delete_eq, ?lookup_delete_ne by done.
Qed.

Lemma changes_ids fired r :
  (∀ id n, Router.nodes r !! id = Some n → node_id n = id) →
  ∀ id n, Router.nodes (foldl on_change r fired) !! id = Some n → node_id n = id.
Proof.
  revert r. induction fired as [|c fired IH]; intros r Hr; [done|]. apply IH. intros id n.
  rewrite nodes_on_change. case_decide; [|by apply Hr]. subst.
  destruct c as [i st], st; cbn in *; [|by apply Hr|by apply Hr|done].
  intros [= <-]. destruct (Router.nodes r !! node_id i) eqn:E; cbn; [by apply Hr|done].
Qed.

Lemma changes_ne fired r id j :
  Forall (λ c, node_id c.1 = id) fired → j ≠ id →
  Router.nodes (foldl on_change r fired) !! j = Router.nodes r !! j.
Proof.
  intros Hf Hne. revert r. induction Hf as [|c fired Hc _ IH]; intros r; [done|]. cbn.
  rewrite IH, nodes_on_change, decide_False by congruence. done.
Qed.

(** A call that changes what is held for one id, and fires about that id only. *)
Lemma mirror_one s s' r fired id :
  (∀ j, j ≠ id → stateOf j s' = stateOf j s) → Forall (λ c, node_id c.1 = id) fired →
  (ring_cond (stateOf id s) (Router.nodes r !! id) →
   ring_cond (stateOf id s') (Router.nodes (foldl on_change r fired) !! id)) →
  mirror s r → mirror s' (foldl on_change r fired).
Proof.
  intros Hj Hf Hid [Hm Hids]. split; [|by apply changes_ids]. intros j.
  destruct (decide (j = id)) as [->|Hne]; [by apply Hid|].
  rewrite Hj by done. rewrite (changes_ne fired r id) by done. apply Hm.
Qed.

Lemma mirror_same s s' r : (∀ j, stateOf j s' = stateOf j s) → mirror s r → mirror s' r.
Proof. intros Hj [H1 H2]. split; [|done]. intros j. by rewrite Hj. Qed.

Lemma stateOf_insert s id m j :
  id ≠ self_id s →
  stateOf j (with_members (<[id := m]> (members_ s)) s) = if decide (j = id) then Some (state m) else stateOf j s.
Proof.
  intros Hne. unfold stateOf. change (self_id (with_members _ s)) with (self_id s). cbn.
  rewrite lookup_insert. repeat case_decide; subst; try done.
  by destruct (String.eqb_spec j (self_id s)).
Qed.

Lemma stateOf_member s id : id ≠ self_id s → stateOf id s = state <$> members_ s !! id.
Proof. intros Hne. unfold stateOf. by destruct (String.eqb_spec id (self_id s)). Qed.

(** The calls that file one record [m'] under [id]. *)
Lemma mirror_insert s r fired id m' :
  id ≠ self_id s → Forall (λ c, node_id c.1 = id) fired →
  (ring_cond (state <$> members_ s !! id) (Router.nodes r !! id) →
   ring_cond (Some (state m')) (Router.nodes (foldl on_change r fired) !! id)) →
  mirror s r → mirror (with_members (<[id := m']> (members_ s)) s) (foldl on_change r fired).
Proof.
  intros Hne Hf Hid. apply (mirror_one _ _ _ _ id); [|done|].
  - intros j Hj. by rewrite stateOf_insert, decide_False.
  - rewrite stateOf_insert, decide_True, stateOf_member by done. exact Hid.
Qed.

(** The retirement of the node itself. *)
Lemma mirror_retire s r : mirror s r → mirror (with_left s) (on_change r (self_ s, MemberState.Left)).
Proof.
  apply (mirror_one s (with_left s) r [(self_ s, MemberState.Left)] (self_id s)).
  - intros j Hj. unfold stateOf. cbn. change (self_id (with_left s)) with (self_id s).
    by destruct (String.eqb_spec j (self_id s)).
  - by repeat constructor.
  - intros _. unfold stateOf. change (self_id (with_left s)) with (self_id s). rewrite String.eqb_refl. cbn.
    change (Router.removePhysicalNode _ _) with (on_change r (self_ s, MemberState.Left)).
    rewrite nodes_on_change. by rewrite decide_True.
Qed.

Lemma on_event_mirror now e it m' fired r :
  on_event now e it = Some (m', fired) → (∀ m, it = Some m → node_id (info m) = ev_id e) →
  Forall (λ c, node_id c.1 = ev_id e) fired ∧
  (ring_cond (state <$> it) (Router.nodes r !! ev_id e) →
   ring_cond (Some (state m')) (Router.nodes (foldl on_change r fired) !! ev_id e)).
Proof.
  intros Hon Hids. unfold on_event, on_alive, on_suspect, on_dead, on_leave in Hon.
  assert (∀ i st, node_id i = ev_id e →
    Router.nodes (on_change r (i, st)) !! ev_id e = match st with
      | MemberState.Alive => Some (default i (Router.nodes r !! ev_id e))
      | MemberState.Left => None | _ => Router.nodes r !! ev_id e end) as Hoc.
  { intros i st Hi. rewrite nodes_on_change. cbn. by rewrite decide_True. }
  destruct (ev_type e); repeat case_match; simplify_eq; cbn [foldl];
    (split; [repeat constructor; cbn; by eauto|]); intros Hr; rewrite ?Hoc by (cbn; by eauto); cbn; try done.
  all: destruct (state m) eqn:Est; cbn in Hr; rewrite ?Est in *; done.
Qed.

Lemma expire_fired now timeout s : Forall (λ c, c.2 = MemberState.Dead) (expireSuspects now timeout s).2.
Proof.
  unfold expireSuspects. assert (∀ l acc, Forall (λ c : Change, c.2 = MemberState.Dead) acc.2 →
    Forall (λ c : Change, c.2 = MemberState.Dead) (foldl (expire_one now timeout) acc l).2) as Hl.
  { induction l as [|[id m] l IH]; intros acc Hacc; [done|]. apply IH. unfold expire_one.
    destruct acc as [[s' ex] fired]. destruct (_ && _); [|done]. cbn in *. apply Forall_app_2; [done|].
    by repeat constructor. }
  apply Hl, Forall_nil_2.
Qed.

Lemma changes_dead fired r : Forall (λ c, c.2 = MemberState.Dead) fired → foldl on_change r fired = r.
Proof.
  induction 1 as [|[i st] fired Hc _ IH]; [done|]. cbn in Hc |- *. subst st. exact IH.
Qed.

Lemma mirror_expire now timeout s r :
  mirror s r → mirror (expireSuspects now timeout s).1.1 (foldl on_change r (expireSuspects now timeout s).2).
Proof.
  intros [Hm Hids]. rewrite changes_dead by apply expire_fired. split; [|done]. intros id. specialize (Hm id).
  destruct (expireSuspects_spec now timeout s) as (H1 & H2 & _ & H4). unfold stateOf, self_id in *.
  rewrite H2, H4. destruct (String.eqb _ _); [done|]. rewrite H1.
  destruct (members_ s !! id) as [m|]; [|done]. cbn in *. unfold expire_entry.
  by destruct (bool_decide _ && _).
Qed.

Lemma mirror_event now e s r :
  swim_ok s → mirror s r → mirror (applyEvent now e s).1.1 (foldl on_change r (applyEvent now e s).1.2).
Proof.
  intros Hok Hm. unfold applyEvent. destruct (String.eqb_spec (ev_id e) (self_id s)) as [|Hne].
  - unfold on_self. destruct (ev_type e); try done.
    1,2: destruct (_ <? _)%Z; by apply (mirror_same s).
    destruct (self_left_ s); [done|]. by apply mirror_retire.
  - destruct (on_event now e _) as [[m' fired]|] eqn:Hon; [|done].
    destruct (on_event_mirror now e _ m' fired r Hon) as [H1 H2]; [intros m Hm'; by eapply so_ids|].
    by apply mirror_insert.
Qed.

Lemma mirror_join e s r :
  swim_ok s → mirror s r → mirror (applyDirectJoin e s).1.1 (foldl on_change r (applyDirectJoin e s).1.2).
Proof.
  intros Hok Hm. unfold applyDirectJoin. destruct (String.eqb_spec (ev_id e) (self_id s)) as [|Hne]; [done|].
  destruct (members_ s !! ev_id e) as [m|] eqn:E.
  - case_decide as Hl; [done|].
    assert (node_id (if str_empty (ev_host e) then info m else mkNode (node_id (info m)) (ev_host e) (ev_port e))
            = ev_id e) as Hi by (destruct (str_empty _); by eapply (so_ids s Hok)).
    destruct (bool_decide_reflect (state m = MemberState.Alive)) as [Ha|]; cbn [negb fst snd];
      apply mirror_insert; try done.
    + rewrite E. cbn. by rewrite Ha.
    + by apply list.Forall_singleton.
    + intros _. cbn [foldl]. rewrite nodes_on_change. cbn [fst snd]. rewrite decide_True by done. by eexists.
  - apply mirror_insert; [done|by apply list.Forall_singleton| |done]. intros _. cbn [foldl fst snd].
    rewrite nodes_on_change. cbn [fst snd node_id info]. rewrite decide_True by done. by eexists.
Qed.

Lemma call_mirror s fired s' r :
  call s fired s' → swim_ok s → mirror s r → mirror s' (foldl on_change r fired).
Proof.
  intros Hc Hok Hm. destruct Hc as [now e s _ _|e s _ _|id s|now id s|now t s|s|e s];
    try by apply (mirror_same s).
  - by apply mirror_event.
  - by apply mirror_join.
  - unfold leave. destruct (String.eqb_spec id (self_id s)) as [->|Hne].
    { destruct (self_left_ s); [done|]. by apply (mirror_same (with_left s)), mirror_retire. }
    destruct (members_ s !! id) as [m|] eqn:E; [|done]. case_decide; [done|].
    eapply mirror_same; [|apply (mirror_insert s r _ id (with_state MemberState.Left m))]; try done.
    + repeat constructor. by eapply so_ids.
    + intros _. cbn [foldl snd]. rewrite nodes_on_change. cbn. by rewrite decide_True by (symmetry; by eapply so_ids).
  - unfold suspect. destruct (members_ s !! id) as [m|] eqn:E; [|done]. case_decide as Ha; [|done].
    assert (id ≠ self_id s) as Hne by (intros ->; pose proof (so_self s Hok); congruence).
    eapply mirror_same; [|apply (mirror_insert s r [] id (mkMember (info m) MemberState.Suspect (entry_inc m) now))];
      try done. rewrite E. cbn. by rewrite Ha.
  - by apply mirror_expire.
Qed.

(** Everything that holds of the pair is kept by the calls, hence by the driver. *)
Lemma calls_mirror p p' :
  rtc acall p p' → swim_ok p.1 ∧ mirror p.1 p.2 → swim_ok p'.1 ∧ mirror p'.1 p'.2.
Proof.
  induction 1 as [|p1 p2 p3 (fired & Hc & Hr) _ IH]; [done|]. intros [Hok Hm]. apply IH. split.
  - by eapply step_ok; [eapply call_step|].
  - rewrite Hr. by eapply call_mirror.
Qed.

Lemma calls_steps p p' : rtc acall p p' → rtc step p.1 p'.1.
Proof.
  induction 1 as [|p1 p2 p3 (fired & Hc & _) _ IH]; [done|]. eapply rtc_l; [by eapply call_step|exact IH].
Qed.

Lemma mirror_start self vnodes config :
  mirror (g_swim (new self (Router.addPhysicalNode self (Router.new vnodes)) config))
         (Router.addPhysicalNode self (Router.new vnodes)).
Proof.
  split; cbn; intros id; unfold Router.addPhysicalNode; cbn; rewrite lookup_empty; cbn.
  - unfold stateOf. cbn. destruct (String.eqb_spec id (self_id (Swim.new self (suspicion_mult config)))) as [->|Hne]; cbn.
    + unfold self_id. cbn. rewrite lookup_insert_eq. by eexists.
    + rewrite lookup_empty. cbn. rewrite lookup_insert_ne, lookup_empty; [done|]. unfold self_id in Hne. cbn in Hne. congruence.
  - intros n [[<- <-]|[_ H]]%lookup_insert_Some; [done|]. by rewrite lookup_empty in H.
Qed.

Lemma owners_loop_known fuel l nds replicas it owners chosen res :
  Forall (λ n, ∃ id, nds !! id = Some n) owners →
  Router.owners_loop fuel l nds replicas it owners chosen = Some res →
  Forall (λ n, ∃ id, nds !! id = Some n) res.
Proof.
  revert it owners chosen. induction fuel as [|fuel IH]; intros it owners chosen Ho; [done|]. cbn.
  destruct (negb _); [by intros [= <-]|].
  destruct (nds !! (l !!! it).2) as [n|] eqn:E; [destruct (bool_decide (_ ∈ chosen))|];
    (destruct (bool_decide (size _ = _)); [intros [= <-]|apply IH]); try done;
    (apply Forall_app_2; [done|]; repeat constructor; by eexists).
Qed.

Lemma findOwners_known r key n owners o :
  Router.findOwners r key n = Some owners → o ∈ owners → ∃ id, Router.nodes r !! id = Some o.
Proof.
  unfold Router.findOwners. destruct (bool_decide _); [intros [= <-] Ho; by apply elem_of_nil in Ho|].
  intros Hl Ho. apply owners_loop_known in Hl; [|apply Forall_nil_2].
  by apply (proj1 (list.Forall_forall _ _) Hl).
Qed.

(** C4: the ring follows the membership.  Started as the server starts it, and
    through any sequence of ticks, messages, joins and LEAVE commands against any
    network, the ring contains every node held alive or suspect, including this
    one until it retires, and no node that is unknown or has left. *)
Theorem ring_follows_membership {Net} send_fn clock_now shuffle self vnodes config g id :
  rtc (gstep (Net := Net) send_fn clock_now shuffle)
      (new self (Router.addPhysicalNode self (Router.new vnodes)) config) g →
  ring_cond (stateOf id (g_swim g)) (Router.nodes (g_router g) !! id).
Proof.
  intros [Hr _]%gsteps_calls. apply calls_mirror in Hr as [_ Hm]; [apply Hm|].
  split; [apply swim_ok_new|apply mirror_start].
Qed.

(** C13: no key is ever placed on a departed node.  Once a node is held Left, no
    later state of the driver's ring, whatever happened in between, has it among
    the owners of any key. *)
Theorem departed_node_owns_nothing {Net} send_fn clock_now shuffle g g' id key n owners :
  swim_ok (g_swim g) → mirror (g_swim g) (g_router g) →
  stateOf id (g_swim g) = Some MemberState.Left →
  rtc (gstep (Net := Net) send_fn clock_now shuffle) g g' →
  Router.findOwners (g_router g') key n = Some owners →
  id ∉ node_id <$> owners.
Proof.
  intros Hok Hm Hl [Hr _]%gsteps_calls Ho (o & -> & Hin)%list_elem_of_fmap.
  pose proof (departed_stays _ _ _ Hok (calls_steps _ _ Hr) Hl) as Hl'.
  apply calls_mirror in Hr as [_ [Hm' Hids]]; [|done].
  destruct (findOwners_known _ _ _ _ _ Ho Hin) as [id Hid]. pose proof (Hids _ _ Hid) as <-.
  specialize (Hm' (node_id o)). cbn in *. rewrite Hl', Hid in Hm'. done.
Qed.

(** ** Two drivers on one wire *)

(** The network seen by one node when the other end is [b]: a message to [b]'s
    address is served by [b] at time [t], any other goes unanswered. *)
Definition peer_send (h : string) (p : Z) (payload : string) (net : GossipThread * Z)
  : string * (GossipThread * Z) :=
  let '(b, t) := net in
  if String.eqb h (host (g_self b)) && (p =? port (g_self b))%Z
  then handleMessage (λ _ _ _ u, (EmptyString, u)) (λ u, u) payload (b, t)
  else (EmptyString, net).

(** Addresses that survive the wire. *)
Definition addr_ok (n : NodeInfo) : Prop := host_ok (host n) ∧ is_u16 (port n).

Record on_air (g : GossipThread) : Prop := {
  oa_swim : swim_ok (g_swim g);
  oa_ids : ids_valid (g_swim g);
  oa_self : g_self g = self_ (g_swim g);
  oa_addr : addr_ok (g_self g);
  oa_addrs : ∀ id m, members_ (g_swim g) !! id = Some m → addr_ok (info m);
}.

Lemma fullState_event_ok s :
  swim_ok s → ids_valid s → addr_ok (self_ s) → (∀ id m, members_ s !! id = Some m → addr_ok (info m)) →
  Forall event_ok (fullState s).
Proof.
  intros Hok [Hs Hm] [Hh Hp] Ha. apply list.Forall_cons. split.
  - split; cbn; [by destruct (self_left_ s)|done..|apply Hok].
  - apply list.Forall_fmap, list.Forall_forall. intros [id m] Hin%elem_of_entries.
    destruct (Ha id m Hin). split; cbn; [by destruct (state m)|by eapply Hm|done..|by eapply so_inc].
Qed.

Lemma absorb_addrs now l s :
  Forall event_ok l → (∀ id m, members_ s !! id = Some m → addr_ok (info m)) →
  ∀ id m, members_ (absorb now l s) !! id = Some m → addr_ok (info m).
Proof.
  intros Hl. revert s. induction Hl as [|e l He _ IH]; intros s Hs; [done|]. apply IH. clear IH.
  intros id m. destruct (absorb_one_spec now s e (eok_id e He)) as [H1 H2].
  destruct (decide (ev_id e = self_id s)) as [Heq|Hne]; [destruct (H1 Heq) as [-> _]; apply Hs|].
  destruct (H2 Hne) as [_ ->]. case_decide; [|apply Hs]. subst. unfold entry_after.
  destruct (on_event now e _) as [[m' f]|] eqn:Hon; [|apply Hs]. intros [= <-].
  assert (addr_ok (mkNode (ev_id e) (ev_host e) (ev_port e))) as He' by (split; apply He).
  unfold on_event, on_alive, on_suspect, on_dead, on_leave in Hon.
  destruct (ev_type e); repeat case_match; simplify_eq; cbn; eauto.
Qed.

Lemma incoming_absorb now l g :
  g_swim (foldl (apply_incoming now) g l) = absorb now l (g_swim g) ∧
  g_self (foldl (apply_incoming now) g l) = g_self g ∧
  syncs (foldl (apply_incoming now) g l) = syncs g.
Proof.
  unfold absorb. revert g. induction l as [|e l IH]; intros g; [done|]. cbn [foldl].
  destruct (IH (apply_incoming now g e)) as (-> & -> & ->). unfold apply_incoming, absorb_one.
  destruct (isValidNodeId (ev_id e)); [|done]. by destruct (applyEvent now e (g_swim g)) as [[s f] []].
Qed.

(** A list of emitted events arrives as it was sent. *)
Lemma events_arrive now l g :
  Forall event_ok l → l ≠ [] →
  let g' := applyIncomingEvents now (serializeEvents l) g in
  g_swim g' = absorb now l (g_swim g) ∧ g_self g' = g_self g ∧ syncs g' = syncs g.
Proof.
  intros Hl Hne. cbn zeta. unfold applyIncomingEvents. rewrite str_empty_false.
  - rewrite deserialize_events_ok by done. apply incoming_absorb.
  - intros E. apply (f_equal deserializeEvents) in E. rewrite deserialize_events_ok in E by done. done.
Qed.

Lemma serializeEvents_free l : Forall event_ok l → str_free "|" (serializeEvents l) = true.
Proof.
  intros Hl. unfold serializeEvents. apply str_join_free; [done|]. apply list.Forall_fmap.
  eapply list.Forall_impl; [exact Hl|]. intros e He. by apply serialize_event_free.
Qed.

(** The three fields of a sync message. *)
Lemma split_sync verb g :
  str_free "|" verb = true → str_free "|" (node_id (g_self g)) = true → Forall event_ok (fullState (g_swim g)) →
  splitAll (sync_msg verb g) "|" = [verb; node_id (g_self g); serializeEvents (fullState (g_swim g))].
Proof.
  intros Hv Hi Hf. unfold sync_msg. change ("|" +:+ ?x) with (String "|" x).
  rewrite splitAll_app by done. f_equal. change ("|" +:+ ?x) with (String "|" x).
  rewrite splitAll_app by done. f_equal. apply splitAll_free. by apply serializeEvents_free.
Qed.

Lemma on_air_id g : on_air g → str_free "|" (node_id (g_self g)) = true.
Proof. intros H. apply valid_id_free; [|done]. rewrite (oa_self g H). apply (oa_ids g H). Qed.

Lemma on_air_state g : on_air g → Forall event_ok (fullState (g_swim g)).
Proof. intros [H1 H2 H3 H4 H5]. apply fullState_event_ok; [done..| |done]. by rewrite <- H3. Qed.

(** C36: a full-state sync implements the abstract exchange.  When the message and
    its reply get through, [performSync] leaves the two state machines exactly as
    [exchange] does, and counts one sync on each side. *)
Theorem perform_sync_is_exchange a b t :
  on_air a → on_air b → self_id (g_swim a) ≠ self_id (g_swim b) →
  let '(a', (b', _)) := performSync peer_send snd (g_self b) (a, (b, t)) in
  (g_swim a', g_swim b') = exchange t (g_swim a) (g_swim b) ∧
  syncs a' = (syncs a + 1)%Z ∧ syncs b' = (syncs b + 1)%Z.
Proof.
  intros Ha Hb Hne. unfold performSync, peer_send. rewrite String.eqb_refl, Z.eqb_refl. cbn [andb].
  unfold handleMessage. rewrite split_sync by (done || by apply on_air_id || by apply on_air_state).
  cbn [field lookup list_lookup default]. cbn -[serializeEvents applyIncomingEvents sync_msg splitAll str_empty].
  destruct (events_arrive t (fullState (g_swim a)) b (on_air_state a Ha)) as (E1 & E2 & E3); [done|].
  set (b1 := applyIncomingEvents _ _ b) in *.
  destruct (absorb_full_ok t (g_swim a) (g_swim b)) as (K1 & K2 & K3);
    [apply Ha|apply Ha|apply Hb|apply Hb|done|]. rewrite <- E1 in K1, K2, K3.
  assert (on_air (synced b1)) as Hb1.
  { split; cbn; [done|done|by rewrite E2, K3; apply Hb|rewrite E2; apply Hb|].
    rewrite E1. apply absorb_addrs; [by apply on_air_state|apply Hb]. }
  rewrite split_sync by (done || by apply on_air_id || by apply on_air_state).
  rewrite (str_empty_false (sync_msg _ _)) by discriminate. cbn -[serializeEvents applyIncomingEvents].
  destruct (events_arrive t (fullState (g_swim b1)) a (on_air_state _ Hb1)) as (F1 & _ & F3); [done|].
  rewrite F1, F3, E3. unfold exchange. rewrite <- E1. done.
Qed.

Definition leave_ev (id : string) : MemberEvent := mkEvent EventType.Leave id "" 0 0.

Lemma leave_ev_ok id : isValidNodeId id = true → Forall event_ok [leave_ev id].
Proof. intros Hv. apply list.Forall_singleton. split; [done|done|vm_decide|vm_decide|vm_decide]. Qed.

Lemma split_join g :
  on_air g → splitAll (join_msg g) "|" =
  ["SWIM_JOIN"; node_id (g_self g); host (g_self g); to_string (port (g_self g));
   to_string (incarnation_ (g_swim g)); ""].
Proof.
  intros Hg. pose proof (on_air_id g Hg) as Hid. destruct (oa_addr g Hg) as [(_ & _ & Hh) Hp].
  assert (is_u64 (port (g_self g))) as Hp' by (unfold is_u16, is_u64, U64_MAX in *; lia).
  pose proof (so_own _ (oa_swim g Hg)) as Hi. unfold join_msg.
  change ("SWIM_JOIN|" +:+ ?x) with ("SWIM_JOIN" +:+ String "|" x).
  rewrite splitAll_app by done. f_equal. change ("|" +:+ ?x) with (String "|" x).
  repeat (rewrite splitAll_app by (done || by apply to_string_free); f_equal;
          change ("|" +:+ ?x) with (String "|" x)).
Qed.

Lemma split_refusal g id :
  str_free "|" (node_id (g_self g)) = true → isValidNodeId id = true →
  splitAll (ack_of g id [leave_ev id]) "|" =
  ["SWIM_ACK"; node_id (g_self g); id; serializeEvents [leave_ev id]].
Proof.
  intros Hg Hv. unfold ack_of. change ("SWIM_ACK|" +:+ ?x) with ("SWIM_ACK" +:+ String "|" x).
  rewrite splitAll_app by done. f_equal. change ("|" +:+ ?x) with (String "|" x).
  rewrite splitAll_app by done. f_equal. change ("|" +:+ ?x) with (String "|" x).
  rewrite splitAll_app by (by apply valid_id_free). f_equal.
  apply splitAll_free, serializeEvents_free. by apply leave_ev_ok.
Qed.

(** The seed's answer to a joiner it holds Left. *)
Lemma join_refused {Net} send_fn clock_now j g (net : Net) :
  on_air j → node_id (g_self j) ≠ self_id (g_swim g) →
  stateOf (node_id (g_self j)) (g_swim g) = Some MemberState.Left →
  handleMessage send_fn clock_now (join_msg j) (g, net) =
  (ack_of g (node_id (g_self j)) [leave_ev (node_id (g_self j))], (g, net)).
Proof.
  intros Hj Hne Hl. unfold handleMessage. rewrite split_join by done.
  cbn -[handleJoin]. unfold handleJoin. cbn -[applyDirectJoin ack_of stoi stoull isValidNodeId].
  rewrite (oa_self j Hj) in *. change (node_id (self_ (g_swim j))) with (self_id (g_swim j)) in *.
  rewrite (iv_self _ (oa_ids j Hj)). cbn -[applyDirectJoin ack_of stoi stoull].
  rewrite stateOf_member in Hl by done. apply fmap_Some in Hl as (m & Hm & Hst).
  unfold applyDirectJoin. cbn -[ack_of stoi stoull]. destruct (String.eqb_spec (self_id (g_swim j)) (self_id (g_swim g))); [done|].
  rewrite Hm, decide_True by done. by destruct g.
Qed.

(** A node told that it has left retires. *)
Lemma told_to_leave now g :
  on_air g → hasLeft (g_swim g) = false →
  let g' := applyIncomingEvents now (serializeEvents [leave_ev (node_id (g_self g))]) g in
  hasLeft (g_swim g') = true ∧ members_ (g_swim g') = members_ (g_swim g) ∧
  Router.nodes (g_router g') !! node_id (g_self g) = None.
Proof.
  intros Hg Hn. cbn zeta. rewrite (oa_self g Hg). change (node_id (self_ (g_swim g))) with (self_id (g_swim g)).
  pose proof (iv_self _ (oa_ids g Hg)) as Hv.
  unfold applyIncomingEvents. rewrite str_empty_false by discriminate.
  rewrite deserialize_events_ok by (by apply leave_ev_ok). cbn [foldl]. unfold apply_incoming, applyEvent.
  change (ev_id (leave_ev ?x)) with x. rewrite Hv, String.eqb_refl. unfold on_self. cbn [ev_type leave_ev].
  unfold hasLeft in Hn. rewrite Hn. split_and!; [done|done|]. cbn [g_router swim_call foldl].
  rewrite nodes_on_change. by rewrite decide_True.
Qed.

(** A decommissioned node cannot walk back in.  Joining through a seed that
    holds it Left changes nothing at the seed, and the joiner learns it: it
    retires itself and leaves its own ring. *)
Theorem tombstoned_joiner_retires j g t :
  on_air j → on_air g → node_id (g_self j) ≠ self_id (g_swim g) →
  stateOf (node_id (g_self j)) (g_swim g) = Some MemberState.Left → hasLeft (g_swim j) = false →
  let seed := host (g_self g) +:+ ":" +:+ to_string (port (g_self g)) in
  let '(j', (g', _)) := joinViaSeeds peer_send snd [seed] (j, (g, t)) in
  g' = g ∧ hasLeft (g_swim j') = true ∧ members_ (g_swim j') = members_ (g_swim j) ∧
  Router.nodes (g_router j') !! node_id (g_self j) = None.
Proof.
  intros Hj Hg Hne Hl Hn seed. destruct (oa_addr g Hg) as [(Hh & _ & _) Hp].
  assert (is_u64 (port (g_self g))) as Hp' by (unfold is_u16, is_u64, U64_MAX in *; lia).
  assert (splitAll seed ":" = [host (g_self g); to_string (port (g_self g))]) as Hsp.
  { unfold seed. change (":" +:+ ?x) with (String ":" x). rewrite splitAll_app by done. f_equal.
    apply splitAll_free. by apply to_string_free. }
  assert (isValidNodeId (node_id (g_self j)) = true) as Hv by (rewrite (oa_self j Hj); apply (oa_ids j Hj)).
  unfold joinViaSeeds. cbn [join_loop fst]. rewrite Hsp. cbn [length field lookup list_lookup default].
  cbn -[to_string stoi u16 peer_send join_msg splitAll]. rewrite stoi_to_string, u16_id by done.
  unfold peer_send. rewrite String.eqb_refl, Z.eqb_refl. cbn [andb]. rewrite join_refused by done.
  rewrite str_empty_false by discriminate. rewrite split_refusal by (done || by apply on_air_id).
  cbn -[serializeEvents applyIncomingEvents]. split; [done|]. by apply told_to_leave.
Qed.

(** ** Examples *)

Definition cfg : GossipConfig := mkGossipConfig 1000 200 3 5.
Definition no_send : string → Z → string → Z → string * Z := λ _ _ _ u, (EmptyString, u).
Definition boot (n : NodeInfo) : GossipThread := new n (Router.addPhysicalNode n (Router.new 4)) cfg.
Definition hear (payload : string) (g : GossipThread) : GossipThread :=
  (handleMessage no_send (λ u, u) payload (g, 0%Z)).2.1.

Definition node (i : string) (p : Z) : NodeInfo := mkNode ("node" +:+ i) ("h" +:+ i) p.
Definition join_as (n : NodeInfo) : string := join_msg (boot n).

(** node1 and node3 each know the other and node2. *)
Definition g1 : GossipThread :=
  Eval vm_compute in hear (join_as (node "3" 5003)) (hear (join_as (node "2" 5002)) (boot (node "1" 5001))).
Definition g3 : GossipThread :=
  Eval vm_compute in hear (join_as (node "1" 5001)) (hear (join_as (node "2" 5002)) (boot (node "3" 5003))).
(** node1 after [LEAVE|node2]. *)
Definition g1_left : GossipThread := Eval vm_compute in (requestLeave "node2" g1).2.

Abbreviation grun := (rtc (gstep no_send (λ u, u) (λ _ l, l))).

Lemma hear_run payload g g' : grun g g' → grun g (hear payload g').
Proof. intros H. eapply rtc_r; [exact H|]. apply (g_message no_send (λ u, u) (λ _ l, l) payload g' 0%Z). Qed.

Lemma g1_run : grun (boot (node "1" 5001)) g1.
Proof.
  assert (g1 = hear (join_as (node "3" 5003)) (hear (join_as (node "2" 5002)) (boot (node "1" 5001)))) as -> by vm_refl.
  by do 2 apply hear_run.
Qed.

Lemma g1_left_run : grun (boot (node "1" 5001)) g1_left.
Proof.
  eapply rtc_r; [apply g1_run|]. assert (g1_left = (requestLeave "node2" g1).2) as -> by vm_refl. apply g_leave.
Qed.

Lemma run_ok n g : grun (boot n) g → swim_ok (g_swim g) ∧ mirror (g_swim g) (g_router g).
Proof.
  intros [Hr _]%gsteps_calls. apply calls_mirror in Hr; [done|]. split; [apply swim_ok_new|apply mirror_start].
Qed.

Lemma ring_follows_membership_witness :
  is_Some (Router.nodes (g_router g1_left) !! "node3") ∧ Router.nodes (g_router g1_left) !! "node2" = None.
Proof.
  split.
  - exact (ring_follows_membership no_send (λ u, u) (λ _ l, l) _ _ _ g1_left "node3" g1_left_run).
  - exact (ring_follows_membership no_send (λ u, u) (λ _ l, l) _ _ _ g1_left "node2" g1_left_run).
Defined.

(** node2 left and tries to join again. *)
Lemma departed_node_owns_nothing_witness :
  "node2" ∉ node_id <$> default [] (Router.findOwners (g_router (hear (join_as (node "2" 5002)) g1_left)) "key" 3).
Proof.
  destruct (run_ok _ _ g1_left_run) as [Hok Hm].
  apply (departed_node_owns_nothing no_send (λ u, u) (λ _ l, l) g1_left
           (hear (join_as (node "2" 5002)) g1_left) "node2" "key" 3); [done|done|reflexivity|by apply hear_run|].
  vm_compute. reflexivity.
Defined.

Lemma on_air_check g :
  swim_ok (g_swim g) → g_self g = self_ (g_swim g) →
  isValidNodeId (self_id (g_swim g)) = true → addr_ok (g_self g) →
  map_Forall (λ id m, isValidNodeId id = true ∧ addr_ok (info m)) (members_ (g_swim g)) → on_air g.
Proof.
  intros Hok Hs Hid Ha Hm. split; try done.
  - split; [done|]. intros id m H. by apply (Hm id m H).
  - intros id m H. by apply (Hm id m H).
Qed.

Lemma on_air_run n g :
  grun (boot n) g → g_self g = self_ (g_swim g) → isValidNodeId (self_id (g_swim g)) = true → addr_ok (g_self g) →
  map_Forall (λ id m, isValidNodeId id = true ∧ addr_ok (info m)) (members_ (g_swim g)) → on_air g.
Proof. intros Hr. apply on_air_check. by eapply run_ok. Qed.

#[local] Instance addr_ok_dec n : Decision (addr_ok n).
Proof. unfold addr_ok, host_ok, is_u16. apply _. Defined.

Lemma g1_left_air : on_air g1_left.
Proof. eapply on_air_run; [apply g1_left_run|reflexivity|reflexivity|vm_decide|vm_decide]. Qed.

Lemma boot_air n : isValidNodeId (node_id n) = true → addr_ok n → on_air (boot n).
Proof. intros Hv Ha. eapply on_air_run; [apply rtc_refl|done|done|done|]. apply map_Forall_empty. Qed.

(** A node that restarts and syncs with node1. *)
Lemma perform_sync_is_exchange_witness :
  let a := boot (node "4" 5004) in
  let '(a', (b', _)) := performSync peer_send snd (g_self g1_left) (a, (g1_left, 7%Z)) in
  (g_swim a', g_swim b') = exchange 7 (g_swim a) (g_swim g1_left) ∧
  syncs a' = 1%Z ∧ syncs b' = 1%Z.
Proof.
  apply (perform_sync_is_exchange (boot (node "4" 5004)) g1_left 7).
  - apply boot_air; [reflexivity|vm_decide].
  - exact g1_left_air.
  - discriminate.
Defined.

Lemma tombstoned_joiner_retires_witness :
  let '(j', (g', _)) := joinViaSeeds peer_send snd ["h1:5001"] (boot (node "2" 5002), (g1_left, 7%Z)) in
  g' = g1_left ∧ hasLeft (g_swim j') = true ∧ members_ (g_swim j') = ∅ ∧
  Router.nodes (g_router j') !! "node2" = None.
Proof.
  apply (tombstoned_joiner_retires (boot (node "2" 5002)) g1_left 7); [|exact g1_left_air|discriminate|reflexivity|reflexivity].
  apply boot_air; [reflexivity|vm_decide].
Defined.

(** A join whose host carries delimiters. *)
Definition forged_join : string := "SWIM_JOIN|node9|h:1:0;L:node2::0:0;A:node9:h|5|0|".

(** The join handshake checks the joiner's id but not its host, and the host
    is re-serialized into the piggyback stream.  node1 serves one join whose
    host spells out further events; node1 itself still holds node2 alive and in
    its ring, but its next ping makes node3 tombstone node2 for good. *)
Theorem join_host_injects_events :
  let g1' := hear forged_join g1 in
  let '(ping, _) := buildPing "node3" g1' in
  let g3' := hear ping g3 in
  stateOf "node2" (g_swim g1') = Some MemberState.Alive ∧
  is_Some (Router.nodes (g_router g1') !! "node2") ∧
  stateOf "node2" (g_swim g3) = Some MemberState.Alive ∧
  stateOf "node2" (g_swim g3') = Some MemberState.Left ∧
  Router.nodes (g_router g3') !! "node2" = None.
Proof. vm_compute. split_and!; try reflexivity. by eexists. Qed.
End GossipThread.
