(* ===== verification/Node.v ===== *)
(** * The protocol edge (src/node.h, src/node.cpp)

    A [Node] parses a request, dispatches it and answers.  Its router is shared
    with the gossip driver, which is the only part that changes it.  A request
    that starts a quorum ends in the [Await] reactions, whose run the
    coordinator's steps continue; the reply is then [put_reply] or [get_reply]
    of the result.

    The theorems show which requests can change the ring, that an acknowledged
    LEAVE has removed its node, how a write reaches the coordinator of its key,
    and that forwarding stops within the cluster's size as long as every node is on
    its own ring and the rings name running processes by their present addresses; a
    retired node breaks that condition. *)
From S2P Require Import Prelude Util Base64 Clock Value Storage Ring Placement Metrics Hints Wire Coordinator Quorum Events Membership Sync Gossip.
From Stdlib Require Import Ascii String ZArith Lia.
From stdpp Require Import base gmap sets list strings numbers relations.
Import VersionedValue replica_ops Coordinator Swim.

Definition toInt (f : list string) (i : nat) : Z :=
  if str_empty (field f i) then 0%Z else default 0%Z (stoi (field f i)).

Definition put_reply (pr : PutResult) : string :=
  if put_ok pr then "RESPONSE|OK|" +:+ VectorClock.serialize (put_clock pr)
  else "RESPONSE|ERROR|" +:+ put_error pr.

Definition version_fields (v : VersionedValue) : string :=
  base64.encode (data v) +:+ "|" +:+ VectorClock.serialize (clock v).

(** [gr.values.front()] is only read with the OK status, on a non-empty list. *)
Definition get_reply (gr : GetResult) : string :=
  match status gr with
  | OK => "RESPONSE|OK|" +:+ version_fields (hd no_value (values gr))
  | SIBLINGS =>
      foldl (λ oss v, oss +:+ "|" +:+ version_fields v)
            ("RESPONSE|SIBLINGS|" +:+ to_string (Z.of_nat (length (values gr)))) (values gr)
  | NOTFOUND => "RESPONSE|NOTFOUND"
  | ERROR => "RESPONSE|ERROR|" +:+ get_error gr
  end.

Definition ring_row (n : NodeInfo) : string :=
  node_id n +:+ "|" +:+ host n +:+ "|" +:+ to_string (port n) +:+ String "010" EmptyString.

Definition ring_reply (r : Router.Router) : string :=
  let nodes := Router.getAllPhysicalNodes r in
  foldl (λ oss n, oss +:+ ring_row n)
        ("RING" +:+ String "010" (to_string (Z.of_nat (length nodes)) +:+ String "010" EmptyString)) nodes.

Module Node.
Section Node.
Context {S : Type} `{StorageLaws S} {Net : Type}.
Context (send_fn : string → Z → string → Net → string * Net).
(** [TCPClient::sendAndReceiveFramed] with the forwarding timeout. *)
Context (forward_fn : NodeInfo → string → Net → string * Net).
Context (clock_now wall_now steady_now : Net → Z).

Record Node := mkNodeState {
  n_info : NodeInfo;
  n_router : Router.Router;
  n_cfg : QuorumConfig;
  n_live : bool;                              (* [setLivenessCheck] was called *)
  n_gossip : option GossipThread.GossipThread;
  n_state : State S;
}.

Definition with_state (st : State S) (n : Node) : Node :=
  mkNodeState (n_info n) (n_router n) (n_cfg n) (n_live n) (n_gossip n) st.
Definition with_gossip (g : GossipThread.GossipThread) (n : Node) : Node :=
  mkNodeState (n_info n) (n_router n) (n_cfg n) (n_live n) (Some g) (n_state n).

(** The router object the node was built with is the gossip driver's. *)
Definition router (n : Node) : Router.Router :=
  match n_gossip n with Some g => GossipThread.g_router g | None => n_router n end.

Definition liveness (n : Node) : option (string → bool) :=
  match n_gossip n with
  | Some g => if n_live n then Some (λ id, isAlive id (GossipThread.g_swim g)) else None
  | None => None
  end.

Definition coordinator_ (n : Node) : Coordinator :=
  mkCoordinator (n_info n) (router n) (n_cfg n) (liveness n).

Definition effN (n : Node) (requested : Z) : Z := if (0 <? requested)%Z then requested
  else let '(mkConfig N _ _ _) := n_cfg n in N.
Definition effW (n : Node) (requested : Z) : Z := if (0 <? requested)%Z then requested
  else let '(mkConfig _ W _ _) := n_cfg n in W.
Definition effR (n : Node) (requested : Z) : Z := if (0 <? requested)%Z then requested
  else let '(mkConfig _ _ R _) := n_cfg n in R.

Inductive Reaction :=
| Reply (payload : string)
| Silent
| Stuck                                       (* [findOwners] does not return *)
| AwaitPut (req : WriteRequest) (run : @WriteRun S)
| AwaitGet (req : ReadRequest) (run : @ReadRun S).

Definition started (o : option Started) (n : Node) : Reaction * Node :=
  match o with
  | None => (Stuck, n)
  | Some (Refused res st) => (Reply (put_reply res), with_state st n)
  | Some (Running req run) => (AwaitPut req run, with_state (w_state run) n)
  end.

Definition forward (primary : NodeInfo) (raw : string) (nn : Node * Net) : Reaction * (Node * Net) :=
  let '(resp, net) := forward_fn primary raw nn.2 in
  (Reply (if str_empty resp then "RESPONSE|ERROR|forward_failed" else resp), (nn.1, net)).

Definition handlePut (f : list string) (raw : string) (nn : Node * Net) : Reaction * (Node * Net) :=
  let '(n, net) := nn in
  let key := field f 1 in
  match Router.findOwners (router n) key 1 with
  | None => (Stuck, nn)
  | Some [] => (Reply "RESPONSE|ERROR|no_nodes_in_ring", nn)
  | Some (primary :: _) =>
      if negb (String.eqb (node_id primary) (node_id (n_info n))) then forward primary raw nn
      else
        let value := base64.decode (field f 2) in
        let context := VectorClock.parse (field f 7) in
        let N := effN n (toInt f 4) in
        let W := effW n (toInt f 5) in
        let '(r, n) := started (coordinatePut (coordinator_ n) (wall_now net) (steady_now net) key value
                                  context N W (n_state n)) n in
        (r, (n, net))
  end.

Definition handleGet (f : list string) (nn : Node * Net) : Reaction * (Node * Net) :=
  let '(n, net) := nn in
  let N := effN n (toInt f 3) in
  let R := effR n (toInt f 4) in
  match coordinateGet (coordinator_ n) (field f 1) N R (n_state n) with
  | None => (Stuck, nn)
  | Some (inl (gr, st)) => (Reply (get_reply gr), (with_state st n, net))
  | Some (inr (req, run)) => (AwaitGet req run, (with_state (r_state run) n, net))
  end.

Definition handleDelete (f : list string) (raw : string) (nn : Node * Net) : Reaction * (Node * Net) :=
  let '(n, net) := nn in
  let key := field f 1 in
  match Router.findOwners (router n) key 1 with
  | None => (Stuck, nn)
  | Some [] => (Reply "RESPONSE|ERROR|no_nodes_in_ring", nn)
  | Some (primary :: _) =>
      if negb (String.eqb (node_id primary) (node_id (n_info n))) then forward primary raw nn
      else
        let context := VectorClock.parse (field f 5) in
        let N := effN n (toInt f 3) in
        let W := effW n (toInt f 4) in
        let '(r, n) := started (coordinateDelete (coordinator_ n) (wall_now net) (steady_now net) key
                                  context N W (n_state n)) n in
        (r, (n, net))
  end.

(** The replica verbs work on the store of this process. *)
Definition replica_verb (payload : string) (n : Node) : Reaction * Node :=
  let '(w, reply) := serve_at (addr (n_info n)) payload (world (n_state n)) in
  (match reply with Some r => Reply r | None => Silent end, with_state (with_world w (n_state n)) n).

Definition handleLeave (f : list string) (n : Node) : Reaction * Node :=
  let id := field f 1 in
  if str_empty id then (Reply "RESPONSE|ERROR|missing_node_id", n)
  else match n_gossip n with
       | None => (Reply "RESPONSE|ERROR|gossip_disabled", n)
       | Some g =>
           let '(ok, g) := GossipThread.requestLeave id g in
           if negb ok then (Reply "RESPONSE|ERROR|unknown_node", with_gossip g n)
           else (Reply "RESPONSE|OK|left", with_gossip g n)
       end.

Definition is_swim (type : string) : bool :=
  existsb (String.eqb type)
    ["SWIM_PING"; "SWIM_PING_REQ"; "SWIM_ACK"; "SWIM_JOIN"; "SWIM_SYNC"; "SWIM_SYNC_ACK"].

Definition counted (op : Op) (n : Node) : Node :=
  with_state (with_metrics (InMemoryMetrics.incRequest op (metrics_ (n_state n))) (n_state n)) n.

Definition handleRequest (payload : string) (nn : Node * Net) : Reaction * (Node * Net) :=
  let f := splitAll payload "|" in
  let type := field f 0 in
  let '(n, net) := nn in
  if str_empty type then (Silent, nn)
  else if String.eqb type "PUT" then handlePut f payload (counted Metrics.Put n, net)
  else if String.eqb type "GET" then handleGet f (counted Metrics.Get n, net)
  else if String.eqb type "DELETE" then handleDelete f payload (counted Metrics.Delete n, net)
  else if String.eqb type "REPLICATE" || String.eqb type "READ" then
    let '(r, n) := replica_verb payload n in (r, (n, net))
  else if String.eqb type "RING" then (Reply (ring_reply (router n)), nn)
  else if String.eqb type "LEAVE" then let '(r, n) := handleLeave f n in (r, (n, net))
  else if is_swim type then
    match n_gossip n with
    | None => (Silent, nn)
    | Some g =>
        let '(resp, (g, net)) := GossipThread.handleMessage send_fn clock_now payload (g, net) in
        (if str_empty resp then Silent else Reply resp, (with_gossip g n, net))
    end
  else (Reply "RESPONSE|ERROR|unknown_command", nn).


(** ** What a request can change *)

Lemma router_state st n : router (with_state st n) = router n.
Proof. done. Qed.

Lemma started_frame o n : router (started o n).2 = router n ∧ n_gossip (started o n).2 = n_gossip n.
Proof. destruct o as [[]|]; done. Qed.

Lemma forward_frame p raw nn : (forward p raw nn).2.1 = nn.1.
Proof. unfold forward. by destruct (forward_fn p raw nn.2). Qed.

Ltac frame_started :=
  match goal with
  | |- context [started ?o ?n] =>
      let E := fresh in pose proof (started_frame o n) as E; destruct (started o n); exact E
  end.

Lemma handlePut_frame f raw nn :
  router (handlePut f raw nn).2.1 = router nn.1 ∧ n_gossip (handlePut f raw nn).2.1 = n_gossip nn.1.
Proof.
  destruct nn as [n net]. unfold handlePut. destruct (Router.findOwners _ _ _) as [[|p os]|]; [done| |done].
  destruct (negb _); [by rewrite forward_frame|frame_started].
Qed.

Lemma handleDelete_frame f raw nn :
  router (handleDelete f raw nn).2.1 = router nn.1 ∧ n_gossip (handleDelete f raw nn).2.1 = n_gossip nn.1.
Proof.
  destruct nn as [n net]. unfold handleDelete. destruct (Router.findOwners _ _ _) as [[|p os]|]; [done| |done].
  destruct (negb _); [by rewrite forward_frame|frame_started].
Qed.

Lemma handleGet_frame f nn :
  router (handleGet f nn).2.1 = router nn.1 ∧ n_gossip (handleGet f nn).2.1 = n_gossip nn.1.
Proof.
  destruct nn as [n net]. unfold handleGet. destruct (coordinateGet _ _ _ _ _) as [[[gr st]|[req run]]|]; done.
Qed.

Lemma replica_verb_frame payload n :
  router (replica_verb payload n).2 = router n ∧ n_gossip (replica_verb payload n).2 = n_gossip n.
Proof. unfold replica_verb. by destruct (serve_at _ _ _). Qed.

(** Only gossip messages and LEAVE change the ring or the membership.  Any
    other request, well-formed or not, leaves both as they were, and a request
    whose verb is not known leaves the whole node as it was. *)
Theorem only_gossip_changes_the_ring payload nn :
  let type := field (splitAll payload "|") 0 in
  is_swim type = false → type ≠ "LEAVE" →
  router (handleRequest payload nn).2.1 = router nn.1 ∧
  n_gossip (handleRequest payload nn).2.1 = n_gossip nn.1 ∧
  (type ∉ ["PUT"; "GET"; "DELETE"; "REPLICATE"; "READ"] → (handleRequest payload nn).2 = nn).
Proof.
  intros type Hs Hl. destruct nn as [n net]. unfold handleRequest. fold type. clearbody type.
  rewrite Hs, (proj2 (String.eqb_neq type "LEAVE") Hl).
  destruct (str_empty type); [done|].
  destruct (String.eqb_spec type "PUT") as [->|H1].
  { destruct (handlePut_frame (splitAll payload "|") payload (counted Metrics.Put n, net)) as [-> ->]. set_solver. }
  destruct (String.eqb_spec type "GET") as [->|H2].
  { destruct (handleGet_frame (splitAll payload "|") (counted Metrics.Get n, net)) as [-> ->]. set_solver. }
  destruct (String.eqb_spec type "DELETE") as [->|H3].
  { destruct (handleDelete_frame (splitAll payload "|") payload (counted Metrics.Delete n, net)) as [-> ->]. set_solver. }
  destruct (String.eqb type "REPLICATE" || String.eqb type "READ") eqn:E; [|by destruct (String.eqb type "RING")].
  apply orb_true_iff in E as [E|E]; apply String.eqb_eq in E as ->;
    pose proof (replica_verb_frame payload n) as [Hr Hg]; destruct (replica_verb payload n); cbn in *; set_solver.
Qed.

(** ** LEAVE *)

Lemma leave_state id s : is_Some (stateOf id s) → stateOf id (leave id s).1 = Some MemberState.Left.
Proof.
  unfold leave, stateOf. destruct (String.eqb id (self_id s)) eqn:E.
  - destruct (self_left_ s) eqn:El; intros _; cbn.
    + by rewrite E, El.
    + change (self_id (enqueueEvent _ (with_left s))) with (self_id s). by rewrite E.
  - destruct (members_ s !! id) as [m|] eqn:Em; cbn; [|by intros [? [=]]]. intros _.
    case_decide as Hl; cbn; [by rewrite E, Em; cbn; rewrite Hl|].
    change (self_id (enqueueEvent _ (with_members _ s))) with (self_id s). rewrite E. cbn. by rewrite lookup_insert_eq.
Qed.

(** An acknowledged LEAVE has taken effect.  A node whose gossip state is
    consistent answers OK exactly for an id it knows; it then holds that id Left
    and its ring no longer contains it.  Every other answer is an error that
    leaves the node unchanged. *)
Theorem acknowledged_leave_removes_node f n g :
  n_gossip n = Some g → swim_ok (GossipThread.g_swim g) →
  GossipThread.mirror (GossipThread.g_swim g) (GossipThread.g_router g) →
  let id := field f 1 in
  let '(r, n') := handleLeave f n in
  if negb (str_empty id) && bool_decide (is_Some (stateOf id (GossipThread.g_swim g)))
  then r = Reply "RESPONSE|OK|left" ∧ Router.nodes (router n') !! id = None ∧
       stateOf id ∘ GossipThread.g_swim <$> n_gossip n' = Some (Some MemberState.Left)
  else n' = n ∧ ∃ reason, r = Reply ("RESPONSE|ERROR|" +:+ reason).
Proof.
  intros Hg Hok Hm. cbn zeta. unfold handleLeave. destruct (str_empty (field f 1)); cbn [negb andb].
  { split; [done|]. by exists "missing_node_id". }
  rewrite Hg. pose proof (GossipThread.calls_leave (field f 1) g) as [Hc _].
  apply GossipThread.calls_mirror in Hc as [_ [Hm' _]]; [|done]. specialize (Hm' (field f 1)). revert Hm'.
  unfold GossipThread.requestLeave, GossipThread.machine. case_bool_decide as Hs; cbn [negb andb].
  - pose proof (leave_state _ _ Hs) as Hl. destruct Hs as [x ->].
    destruct (leave (field f 1) (GossipThread.g_swim g)) as [s fired]. cbn in *. rewrite Hl. intros Hn. by split_and!.
  - apply eq_None_not_Some in Hs as ->. intros _. cbn. split; [|by exists "unknown_node"]. destruct n; cbn in *; by rewrite Hg.
Qed.

(** ** Forwarding: one node *)

Definition is_write (type : string) : Prop := type = "PUT" ∨ type = "DELETE".

(** The quorum write a PUT or DELETE asks for. *)
Definition begins (payload : string) (n : Node) (net : Net) : option (@Started S) :=
  let f := splitAll payload "|" in
  let key := field f 1 in
  if String.eqb (field f 0) "PUT" then
    coordinatePut (coordinator_ n) (wall_now net) (steady_now net) key (base64.decode (field f 2))
      (VectorClock.parse (field f 7)) (effN n (toInt f 4)) (effW n (toInt f 5)) (n_state (counted Metrics.Put n))
  else
    coordinateDelete (coordinator_ n) (wall_now net) (steady_now net) key
      (VectorClock.parse (field f 5)) (effN n (toInt f 3)) (effW n (toInt f 4)) (n_state (counted Metrics.Delete n)).

Lemma begins_runs payload n net :
  Router.ring_ok (router n) → Router.nodes (router n) ≠ ∅ →
  ∃ req run, begins payload n net = Some (Running req run).
Proof.
  intros Hok Hne. assert (∀ key N, ∃ o os, Router.findOwners (router n) key N = Some (o :: os)) as Ho.
  { intros key N. rewrite Router.findOwners_preference by done.
    destruct (map_choose _ Hne) as (i & m & Hm). assert (m ∈ Router.preference (router n) key) as Hin.
    { apply Router.elem_of_preference; [done|]. by rewrite (Router.ring_ids _ Hok _ _ Hm). }
    destruct (Router.preference (router n) key) as [|o l]; [by apply elem_of_nil in Hin|].
    exists o. destruct (Z.to_nat _) eqn:E; [exfalso|by eexists]. revert E. clear. repeat case_match; lia. }
  unfold begins, coordinatePut, coordinateDelete, writeQuorum. cbn [router_ coordinator_].
  destruct (String.eqb _ _); match goal with |- context [Router.findOwners _ ?k ?N] => destruct (Ho k N) as (o & os & ->) end;
    by eexists _, _.
Qed.

(** A PUT or DELETE at a node: it is coordinated here if the node is the first owner
    of the key on its own ring, and else passed on as it came. *)
Lemma write_arrives payload n net p rest :
  let type := field (splitAll payload "|") 0 in
  let c := counted (if String.eqb type "PUT" then Metrics.Put else Metrics.Delete) n in
  is_write type → Router.findOwners (router n) (field (splitAll payload "|") 1) 1 = Some (p :: rest) →
  handleRequest payload (n, net) =
    if String.eqb (node_id p) (node_id (n_info n))
    then let '(r, m) := started (begins payload n net) c in (r, (m, net))
    else forward p payload (c, net).
Proof.
  intros type c Ht Ho. unfold handleRequest, begins, c. fold type. clearbody type.
  destruct Ht as [->| ->]; cbn [str_empty String.eqb Ascii.eqb Bool.eqb]; unfold handlePut, handleDelete;
    rewrite ?router_state; change (router (counted _ n)) with (router n); rewrite Ho;
    change (n_info (counted _ n)) with (n_info n); destruct (String.eqb (node_id p) _); reflexivity.
Qed.

End Node.
Arguments Node : clear implicits.

(** ** Forwarding: the cluster

    The processes by address, with the addresses a request has visited.  A node reaches
    another at the host and port its own ring has for it; where no process listens the
    call fails, and a reply that does not come within the forwarding timeout is not
    heard.  [complete] is what becomes of a quorum write the node started. *)
Section forwarding.
Context {S : Type} `{StorageLaws S} {T : Type}.

Record Procs := mkProcs {
  procs : gmap Addr (Node S);
  visited : list Addr;
  rest : T;
}.

Definition arrived (a : Addr) (net : Procs) : Procs := mkProcs (procs net) (visited net ++ [a]) (rest net).
Definition store_at (a : Addr) (n : Node S) (net : Procs) : Procs := mkProcs (<[a := n]> (procs net)) (visited net) (rest net).

Context (send_fn : string → Z → string → Procs → string * Procs) (clock_now wall_now steady_now : Procs → Z).
Context (complete : WriteRequest → @WriteRun S → PutResult * State S).
Context (complete_get : ReadRequest → @ReadRun S → GetResult * State S).
Context (heard : Addr → bool).

(** The process at [a] receives a request; the reply, empty when there is none. *)
Fixpoint receive (fuel : nat) (a : Addr) (payload : string) (net : Procs) : string * Procs :=
  match fuel with
  | O => (EmptyString, net)
  | Datatypes.S fuel =>
      match procs net !! a with
      | None => (EmptyString, net)
      | Some n =>
          let forward_fn p raw net :=
            let '(resp, net) := receive fuel (addr p) raw net in
            (if heard (addr p) then resp else EmptyString, net) in
          let '(r, (n, net)) := handleRequest send_fn forward_fn clock_now wall_now steady_now payload (n, arrived a net) in
          match r with
          | Reply resp => (resp, store_at a n net)
          | Silent | Stuck => (EmptyString, store_at a n net)
          | AwaitPut req run =>
              let '(pr, st) := complete req run in (put_reply pr, store_at a (with_state st n) net)
          | AwaitGet req run =>
              let '(gr, st) := complete_get req run in (get_reply gr, store_at a (with_state st n) net)
          end
      end
  end.

(** Every process is on its own ring, all rings place the same number of virtual
    nodes without collisions, and they only name processes of the cluster, by their
    present address. *)
Record routable (cluster : gmap Addr (Node S)) (vnodes : Z) : Prop := {
  ro_ok : ∀ a n, cluster !! a = Some n → Router.ring_ok (router n);
  ro_placed : ∀ a n, cluster !! a = Some n → Placement.placed (router n);
  ro_vnodes : ∀ a n, cluster !! a = Some n → Router.virtual_nodes (router n) = vnodes;
  ro_self : ∀ a n, cluster !! a = Some n → is_Some (Router.nodes (router n) !! node_id (n_info n));
  ro_known : ∀ a n p, cluster !! a = Some n → Router.nodes (router n) !! node_id p = Some p →
    ∃ m, cluster !! addr p = Some m ∧ node_id (n_info m) = node_id p;
}.

Lemma first_owner cluster vnodes key a n :
  routable cluster vnodes → cluster !! a = Some n →
  ∃ p rest, Router.findOwners (router n) key 1 = Some (p :: rest) ∧
    (∃ m, cluster !! addr p = Some m ∧ node_id (n_info m) = node_id p) ∧
    (node_id p ≠ node_id (n_info n) →
     Placement.rank vnodes key (node_id p) < Placement.rank vnodes key (node_id (n_info n)))%Z.
Proof.
  intros Hr Hn. pose proof (ro_ok _ _ Hr _ _ Hn) as Hok. destruct (ro_self _ _ Hr _ _ Hn) as [m Hm].
  destruct (Router.preference (router n) key) as [|p rest] eqn:E.
  { assert (m ∈ Router.preference (router n) key) as Habs.
    { apply Router.elem_of_preference; [done|]. by rewrite (Router.ring_ids _ Hok _ _ Hm). }
    rewrite E in Habs. by apply elem_of_nil in Habs. }
  exists p, []. split_and!.
  - by rewrite Router.findOwners_preference, E by done.
  - eapply (ro_known _ _ Hr _ _ _ Hn). apply Router.elem_of_preference with key; [done|]. rewrite E. left.
  - intros Hne. rewrite <- (ro_vnodes _ _ Hr _ _ Hn).
    eapply Placement.primary_is_nearest; [done|by eapply ro_placed|done|by eexists|done].
Qed.

(** The processes nearer to the key than one with this id. *)
Definition nearer (cluster : gmap Addr (Node S)) (vnodes : Z) (key id : string) : list (Addr * Node S) :=
  filter (λ x, Placement.rank vnodes key (node_id (n_info x.2)) < Placement.rank vnodes key id)%Z (map_to_list cluster).

Lemma nearer_lt cluster vnodes key a n id :
  cluster !! a = Some n → (Placement.rank vnodes key (node_id (n_info n)) < Placement.rank vnodes key id)%Z →
  length (nearer cluster vnodes key (node_id (n_info n))) < length (nearer cluster vnodes key id).
Proof.
  intros Ha Hlt. apply (filter_length_lt _ _ _ (a, n)); [|by apply elem_of_map_to_list|cbn; lia|done]. intros. lia.
Qed.

(** What the client is told of a write that went through [hops] after the first node. *)
Definition relayed (hops : list Addr) (pr : PutResult) : string :=
  if forallb heard hops then put_reply pr else "RESPONSE|ERROR|forward_failed".

Lemma relayed_hop p hops pr :
  (let resp := if heard p then relayed hops pr else EmptyString in
   if str_empty resp then "RESPONSE|ERROR|forward_failed" else resp) = relayed (p :: hops) pr.
Proof.
  unfold relayed. cbn. destruct (heard p); cbn; [|done]. destruct (forallb heard hops); [|done].
  unfold put_reply. by destruct (put_ok pr).
Qed.

(** The cluster when a request has gone from [a] through [hops]. *)
Definition passed_on (a : Addr) (hops : list Addr) (net : Procs) : Procs :=
  mkProcs (procs net) (visited net ++ a :: hops) (rest net).

Lemma receive_bounded fuel vnodes payload a n net :
  let key := field (splitAll payload "|") 1 in
  routable (procs net) vnodes → is_write (field (splitAll payload "|") 0) → procs net !! a = Some n →
  length (nearer (procs net) vnodes key (node_id (n_info n))) < fuel →
  ∃ hops m req run,
    procs net !! default a (last hops) = Some m ∧ length hops < fuel ∧
    begins wall_now steady_now payload m (passed_on a hops net) = Some (Running req run) ∧
    (receive fuel a payload net).1 = relayed hops (complete req run).1 ∧
    visited (receive fuel a payload net).2 = visited net ++ a :: hops.
Proof.
  intros key Hr Ht. revert a n net Hr. induction fuel as [|fuel IH]; intros a n net Hr Hn Hlen; [lia|].
  destruct (first_owner _ _ key _ _ Hr Hn) as (p & os & Hp & (m & Hm & Hid) & Hlt). cbn [receive]. rewrite Hn.
  set (fw := λ (q : NodeInfo) (raw : string) (net : Procs), let '(resp, net) := receive fuel (addr q) raw net in
               (if heard (addr q) then resp else EmptyString, net)).
  rewrite (write_arrives send_fn fw clock_now wall_now steady_now payload n (arrived a net) p os Ht Hp).
  destruct (String.eqb_spec (node_id p) (node_id (n_info n))) as [_|Hne].
  - destruct (begins_runs wall_now steady_now payload n (arrived a net)) as (req & run & Hb).
    { by eapply ro_ok. }
    { intros E. destruct (ro_self _ _ Hr _ _ Hn) as [x Hx]. by rewrite E in Hx. }
    exists [], n, req, run. rewrite Hb. cbn. destruct (complete req run). split_and!; [done|lia|done..].
  - specialize (Hlt Hne). rewrite <- Hid in Hlt. pose proof (nearer_lt _ _ _ _ _ _ Hm Hlt) as Hlen'.
    destruct (IH (addr p) m (arrived a net) Hr Hm ltac:(cbn; lia)) as (hops & c & req & run & Hc & Hl & Hb & Hrep & Hvis).
    exists (addr p :: hops), c, req, run. unfold forward, fw. cbn [snd fst].
    destruct (receive fuel (addr p) payload (arrived a net)) as [resp net'] eqn:E. cbn in Hrep, Hvis |- *. subst resp.
    rewrite relayed_hop, Hvis, <- app_assoc. split_and!; [|lia| |done|done].
    + change (procs net !! default a (last (addr p :: hops)) = Some c). rewrite last_cons. by destruct (last hops).
    + revert Hb. unfold passed_on. cbn. by rewrite <- app_assoc.
Qed.

(** C8: a forwarded write reaches a coordinator.  Let every process be on its own ring,
    and all rings place the same number of virtual nodes, without hash collisions, and
    name only running processes, by their present address; they may disagree about
    which ones.  Then a PUT or DELETE that arrives anywhere is passed on unchanged, fewer
    times than there are processes, to one that starts the quorum write it asks for; and the client is told that write's result as
    the coordinator gave it, or forward_failed if a reply on the way did not come in
    time. *)
Theorem forwarding_reaches_a_coordinator vnodes payload a net :
  routable (procs net) vnodes → is_write (field (splitAll payload "|") 0) → is_Some (procs net !! a) →
  ∃ hops m req run,
    procs net !! default a (last hops) = Some m ∧ length hops < size (procs net) ∧
    begins wall_now steady_now payload m (passed_on a hops net) = Some (Running req run) ∧
    (receive (size (procs net)) a payload net).1 = relayed hops (complete req run).1 ∧
    visited (receive (size (procs net)) a payload net).2 = visited net ++ a :: hops.
Proof.
  intros Hr Ht [n Hn]. apply (receive_bounded _ vnodes _ _ n); [done..|].
  rewrite <- length_map_to_list. rewrite <- (filter_all (λ _, True) (map_to_list _)) by (by apply list.Forall_forall).
  apply (filter_length_lt _ _ _ (a, n)); [done|by apply elem_of_map_to_list|cbn; lia|done].
Qed.

End forwarding.
Arguments Procs : clear implicits.
End Node.

(** ** Examples *)

Module NodeExamples.
Import Node.

Definition plain (n : NodeInfo) (r : Router.Router) : Node store :=
  mkNodeState n r (config 20) false None (mkState boot None InMemoryMetrics.zero).

(** node2 has not heard of the others. *)
Definition r2 : Router.Router := Router.addPhysicalNode Router.n2 (Router.new 4).
Definition trio : gmap Addr (Node store) :=
  {[ addr Router.n1 := plain Router.n1 Router.r3; addr Router.n2 := plain Router.n2 r2; addr Router.n3 := plain Router.n3 Router.r3 ]}.

Lemma placed_r3 : Placement.placed Router.r3.
Proof. unfold Router.r3. do 3 (apply Placement.placed_add; [vm_decide|]). apply Placement.placed_new. Qed.

Lemma r2_ok : Router.ring_ok r2 ∧ Placement.placed r2.
Proof.
  split; unfold r2; [apply Router.ring_ok_add; [vm_compute; discriminate|vm_decide|apply Router.ring_ok_new]|].
  apply Placement.placed_add; [vm_decide|apply Placement.placed_new].
Qed.

Lemma trio_views a n : trio !! a = Some n →
  node_id (n_info n) ∈ dom (Router.nodes (router n)) ∧ (router n = Router.r3 ∨ router n = r2).
Proof.
  unfold trio. rewrite !lookup_insert_Some, lookup_singleton_Some.
  intros [[<- <-]|[_ [[<- <-]|[_ [<- <-]]]]]; (split; [vm_decide|]); [by left|by right|by left].
Qed.

Lemma trio_routable : routable trio 4.
Proof.
  assert (∀ r, r = Router.r3 ∨ r = r2 →
    Router.ring_ok r ∧ Placement.placed r ∧ Router.virtual_nodes r = 4%Z ∧
    map_Forall (λ i p, node_id ∘ n_info <$> trio !! addr p = Some i) (Router.nodes r)) as Hr.
  { intros r [->| ->]; (split_and!; [| |vm_refl|vm_decide]);
      [exact Router.r3_ok|exact placed_r3|exact (proj1 r2_ok)|exact (proj2 r2_ok)]. }
  split; intros a n; [..|intros p]; intros (Hd & H)%trio_views; apply Hr in H as (?&?&?&Hsub); try done.
  - by apply elem_of_dom.
  - intros Hp. specialize (Hsub _ _ Hp). cbn beta in Hsub. destruct (trio !! addr p) as [m|]; [|done]. injection Hsub as Hm. by exists m.
Qed.

Definition to_nobody : NodeInfo → string → Z → string * Z := λ _ _ u, (EmptyString, u).

Definition quiet {T} : string → Z → string → Procs store T → string * Procs store T := λ _ _ _ net, (EmptyString, net).
Definition start_of (l : gmap Addr (Node store)) : Procs store () := mkProcs l [] ().
Definition acked : WriteRequest → @WriteRun store → PutResult * State store :=
  λ req run, (mkPut true (clock (wr_vv req)) "", w_state run).
Definition read_nothing : ReadRequest → @ReadRun store → GetResult * State store :=
  λ _ run, (mkGet NOTFOUND [] "", r_state run).
Abbreviation in_cluster := (receive quiet (λ _, 0%Z) (λ _, 50%Z) (λ _, 0%Z) acked read_nothing (λ _, true)).

Lemma forwarding_reaches_a_coordinator_witness :
  visited (in_cluster (size trio) (addr Router.n3) "PUT|user:42|dg==|client|3|2|2|" (start_of trio)).2
  = [addr Router.n3; addr Router.n1].
Proof.
  destruct (forwarding_reaches_a_coordinator quiet (λ _, 0%Z) (λ _, 50%Z) (λ _, 0%Z) acked read_nothing (λ _, true)
              4 "PUT|user:42|dg==|client|3|2|2|" (addr Router.n3) (start_of trio) trio_routable)
    as (hops & m & req & run & _ & _ & _ & _ & Hv).
  - left. vm_refl.
  - vm_decide.
  - vm_refl.
Defined.

(** A node that has been told to leave is not on its own ring any more, and
    passes every write on, also to a node that has not heard and sends it back. *)
Definition retired : GossipThread.GossipThread := Eval vm_compute in
  (GossipThread.requestLeave "node1"
     (GossipThread.hear (GossipThread.join_as Router.n2) (GossipThread.boot Router.n1))).2.
Definition unaware : GossipThread.GossipThread := Eval vm_compute in
  GossipThread.hear (GossipThread.join_as Router.n1) (GossipThread.boot Router.n2).
Definition gossiping (n : NodeInfo) (g : GossipThread.GossipThread) : Node store :=
  with_gossip g (plain n (GossipThread.g_router g)).
Definition pair12 : gmap Addr (Node store) :=
  {[ addr Router.n1 := gossiping Router.n1 retired; addr Router.n2 := gossiping Router.n2 unaware ]}.

(** Without that condition a write can circulate for ever.  While node2 has
    not heard that node1 left, a key of node1 goes back and forth between them:
    any number of hops is used up without reaching a coordinator. *)
Theorem retired_node_bounces_writes fuel (net : Procs store ()) :
  procs net = pair12 →
  let bounced a := visited (in_cluster fuel a "PUT|user:42|dg==|client|3|2|2|" net).2 in
  length (bounced (addr Router.n1)) = length (visited net) + fuel ∧
  length (bounced (addr Router.n2)) = length (visited net) + fuel.
Proof.
  assert (pair12 !! addr Router.n1 = Some (gossiping Router.n1 retired)) as H1 by vm_refl.
  assert (pair12 !! addr Router.n2 = Some (gossiping Router.n2 unaware)) as H2 by vm_refl.
  assert (Router.findOwners (router (gossiping Router.n1 retired)) "user:42" 1 = Some [Router.n2]) as O1 by vm_refl.
  assert (Router.findOwners (router (gossiping Router.n2 unaware)) "user:42" 1 = Some [Router.n1]) as O2 by vm_refl.
  assert (is_write (field (splitAll "PUT|user:42|dg==|client|3|2|2|" "|") 0)) as Hw by (by left).
  revert net. induction fuel as [|fuel IH]; intros net Hp bounced; unfold bounced; clear bounced; [cbn; lia|].
  cbn [receive]. rewrite Hp, H1, H2.
  split.
  - rewrite (write_arrives _ _ _ _ _ _ (gossiping Router.n1 retired) _ Router.n2 [] Hw O1).
    change (String.eqb (node_id Router.n2) _) with false. unfold forward. cbn [fst snd].
    pose proof (IH (arrived (addr Router.n1) net) Hp) as [_ I]. destruct (in_cluster fuel (addr Router.n2) _ _).
    cbn in *. rewrite I, length_app. cbn. lia.
  - rewrite (write_arrives _ _ _ _ _ _ (gossiping Router.n2 unaware) _ Router.n1 [] Hw O2).
    change (String.eqb (node_id Router.n1) _) with false. unfold forward. cbn [fst snd].
    pose proof (IH (arrived (addr Router.n2) net) Hp) as [I _]. destruct (in_cluster fuel (addr Router.n1) _ _).
    cbn in *. rewrite I, length_app. cbn. lia.
Qed.

Lemma only_gossip_changes_the_ring_witness :
  (handleRequest GossipThread.no_send to_nobody (λ u, u) (λ u, u) (λ u, u) "JOIN|node9|h9|5009"
     (plain Router.n1 Router.r3, 0%Z)).2 = (plain Router.n1 Router.r3, 0%Z).
Proof.
  apply (only_gossip_changes_the_ring GossipThread.no_send to_nobody (λ u, u) (λ u, u) (λ u, u)
           "JOIN|node9|h9|5009" (plain Router.n1 Router.r3, 0%Z)); [reflexivity|discriminate|vm_decide].
Defined.

Lemma acknowledged_leave_removes_node_witness :
  Router.nodes (router (handleLeave ["LEAVE"; "node2"] (gossiping Router.n1 GossipThread.g1)).2) !! "node2" = None.
Proof.
  destruct (GossipThread.run_ok _ _ GossipThread.g1_run) as [Hok Hm].
  pose proof (acknowledged_leave_removes_node ["LEAVE"; "node2"] (gossiping Router.n1 GossipThread.g1)
                GossipThread.g1 eq_refl Hok Hm) as Hl. cbn zeta in Hl.
  rewrite (bool_decide_eq_true_2 (is_Some (stateOf (field ["LEAVE"; "node2"] 1) (GossipThread.g_swim GossipThread.g1))))
    in Hl by vm_decide.
  destruct (handleLeave ["LEAVE"; "node2"] (gossiping Router.n1 GossipThread.g1)) as [r n'].
  destruct Hl as (_ & Hl & _). exact Hl.
Defined.

End NodeExamples.
