(* ===== verification/Server.v ===== *)
(** * The server process (src/main.cpp)

    [main] reads its configuration from the environment, builds the components and
    connects them: three callbacks on membership changes in registration order
    (the ring's, the ring gauge's, and the handoff's), the delivery callback of the
    handoff thread, and the hint store of the coordinator.

    The first part is the configuration as a function of the environment.  The
    second is the running process: the membership state machine and the ring, the
    gauge, the hint store and the handoff thread, stepping in any interleaving.  The
    callbacks run under the lock of the call that fires them, so a call with its
    callbacks is one step; the handoff thread takes one step per hint, since it
    waits for the network between draining a target and storing a refused hint again.

    The theorems: only a valid node id boots; the gauge is the size of the ring; a
    hint that was accepted is, at every moment, in exactly one place; and a node that
    comes back is offered its hints on the thread's next turn. *)
From S2P Require Import Prelude Util Base64 Clock Value Storage Ring Metrics Hints Wire Events Membership Sync Gossip.
From Stdlib Require Import Ascii String ZArith Lia.
From stdpp Require Import base gmap list relations strings numbers.
Import Swim.

(** ** Configuration *)

Definition Env : Type := string → option string.

Definition getenv_str (env : Env) (var default_val : string) : string := default default_val (env var).

(** [token.find_first_not_of(' ')], [find_last_not_of(' ')] and [substr]. *)
Definition space : ascii := " ".

Fixpoint trim_left (s : string) : string :=
  match s with
  | String c s' => if Ascii.eqb c space then trim_left s' else s
  | EmptyString => EmptyString
  end.

Fixpoint trim_right (s : string) : string :=
  match s with
  | EmptyString => EmptyString
  | String c s' =>
      match trim_right s' with
      | EmptyString => if Ascii.eqb c space then EmptyString else String c EmptyString
      | r => String c r
      end
  end.

Definition trim (s : string) : string := trim_right (trim_left s).

Definition split_csv (s : string) : list string :=
  if str_empty s then []
  else filter (λ t, t ≠ EmptyString) (trim <$> getlines s ",").

Record Config := mkConfig {
  c_node_id : string;
  c_host : string;
  c_port : Z;
  c_seeds : list string;
  c_advertise_host : string;
  c_vnodes : Z;
  c_pool_max : Z;
  c_pool_reap_s : Z;
  c_max_clock_entries : Z;
  c_workers : Z;
  c_gossip : GossipConfig;
  c_hint_ttl : Z;
  c_ae_interval : Z;
}.

(** How [main] goes on: an exit code, the exception of a [stoi] that nothing
    catches, or the configuration it runs with. *)
Inductive Boot := Exits (code : Z) | Throws | Boots (c : Config).

(** [stoi(getenv_str(var, default))] before the rest of [main]. *)
Definition with_int (env : Env) (var dflt : string) (k : Z → Boot) : Boot :=
  match stoi (getenv_str env var dflt) with None => Throws | Some n => k n end.

Definition main_config (env : Env) : Boot :=
  let node_id := getenv_str env "NODE_ID" "" in
  let host := getenv_str env "HOST" "0.0.0.0" in
  with_int env "NODE_PORT" "" (λ port_,
  let port := u16 port_ in
  if negb (isValidNodeId node_id) then Exits 1
  else
    let seeds := split_csv (getenv_str env "SEED_NODES" "") in
    let bootstrap_ip := getenv_str env "BOOTSTRAP_IP" "" in
    with_int env "BOOTSTRAP_PORT" "0" (λ bport,
    let seeds :=
      if negb (str_empty bootstrap_ip) && bool_decide (seeds = [])
      then [bootstrap_ip +:+ ":" +:+ to_string (u16 bport)] else seeds in
    let advertise_host := getenv_str env "ADVERTISE_HOST" node_id in
    with_int env "VNODES" "128" (λ vnodes,
    with_int env "POOL_MAX_CONNS_PER_PEER" "4" (λ pool_max,
    with_int env "POOL_IDLE_REAP_SECONDS" "60" (λ pool_reap,
    with_int env "MAX_CLOCK_ENTRIES" "20" (λ clock_entries,
    with_int env "WORKER_THREADS" "64" (λ workers,
    with_int env "GOSSIP_PERIOD_MS" "1000" (λ period,
    with_int env "GOSSIP_PING_TIMEOUT_MS" "200" (λ ping,
    with_int env "GOSSIP_K" "3" (λ k,
    with_int env "GOSSIP_SUSPICION_MULT" "5" (λ mult,
    with_int env "HINT_TTL_SECONDS" "10800" (λ ttl,
    with_int env "ANTIENTROPY_INTERVAL_SECONDS" "300" (λ ae,
      Boots (mkConfig node_id host port seeds advertise_host vnodes (u64 pool_max) pool_reap
               (u64 clock_entries) (u64 workers) (mkGossipConfig period ping k mult) ttl ae)))))))))))))).

Definition myInfo (c : Config) : NodeInfo := mkNode (c_node_id c) (c_advertise_host c) (c_port c).

(** The gossip driver as [main] builds it, this node on the ring. *)
Definition main_gossip (c : Config) : GossipThread.GossipThread :=
  GossipThread.new (myInfo c) (Router.addPhysicalNode (myInfo c) (Router.new (c_vnodes c))) (c_gossip c).

(** *** Seeds *)

(** A seed as it is meant: no comma, no space at either end, not empty. *)
Definition seed_ok (s : string) : Prop := str_free "," s = true ∧ trim s = s ∧ s ≠ EmptyString.

Lemma trim_left_idem s : trim_left (trim_left s) = trim_left s.
Proof.
  induction s as [|c s IH]; [done|]. cbn. destruct (Ascii.eqb c space) eqn:E; [done|]. cbn. by rewrite E.
Qed.

Lemma trim_right_idem s : trim_right (trim_right s) = trim_right s.
Proof.
  induction s as [|c s IH]; [done|]. cbn. destruct (trim_right s) as [|d r] eqn:E.
  - destruct (Ascii.eqb c space) eqn:Ec; [done|]. cbn. by rewrite Ec.
  - cbn [trim_right] in IH |- *. by rewrite IH.
Qed.

Lemma trim_right_left s : trim_left s = s → trim_left (trim_right s) = trim_right s.
Proof.
  destruct s as [|c s]; [done|]. cbn. destruct (Ascii.eqb c space) eqn:E.
  - intros H. exfalso. assert (∀ s, String.length (trim_left s) ≤ String.length s) as Hl.
    { clear. induction s as [|c s IH]; cbn; [lia|]. destruct (Ascii.eqb c space); cbn; lia. }
    specialize (Hl s). rewrite H in Hl. cbn in Hl. lia.
  - intros _. destruct (trim_right s); cbn; by rewrite E.
Qed.

Lemma trim_idem s : trim (trim s) = trim s.
Proof. unfold trim. rewrite trim_right_left by apply trim_left_idem. apply trim_right_idem. Qed.

Lemma trim_free c s : str_free c s = true → str_free c (trim s) = true.
Proof.
  unfold trim. intros H. assert (str_free c (trim_left s) = true) as Hl.
  { induction s as [|d s IH]; [done|]. cbn in *. apply andb_true_iff in H as [Hd Hs].
    destruct (Ascii.eqb d space); [by apply IH|]. cbn. by rewrite Hd. }
  revert Hl. generalize (trim_left s) as t. intros t. clear. induction t as [|d t IH]; [done|]. cbn.
  intros [Hd Ht]%andb_true_iff. specialize (IH Ht).
  destruct (trim_right t); [destruct (Ascii.eqb d space); cbn; by rewrite ?Hd|].
  cbn in *. by rewrite Hd.
Qed.

Lemma split_csv_ok s : Forall seed_ok (split_csv s).
Proof.
  unfold split_csv. destruct (str_empty s); [done|]. apply list.Forall_forall. intros t [Hne Ht]%list_elem_of_filter.
  apply list_elem_of_fmap in Ht as (u & -> & Hu). split; [|by split; [apply trim_idem|]].
  apply trim_free. by apply (proj1 (list.Forall_forall _ _) (getlines_free "," s)).
Qed.

Lemma split_csv_join l : Forall seed_ok l → split_csv (str_join "," l) = l.
Proof.
  intros Hl. unfold split_csv. rewrite getlines_join.
  - assert (trim <$> l = l) as ->.
    { induction Hl as [|x l (_ & Hx & _) _ IH]; [done|]. cbn. by rewrite Hx, IH. }
    rewrite filter_all by (eapply list.Forall_impl; [exact Hl|]; by intros x (_ & _ & ?)).
    destruct Hl as [|x l (_ & _ & Hx) _]; [done|]. rewrite str_empty_false; [done|].
    destruct x; [done|]. by destruct l.
  - eapply list.Forall_impl; [exact Hl|]. by intros x (? & _ & ?).
Qed.

(** *** What boots *)

(** An environment that sets the variables of a list. *)
Definition env_of (l : list (string * string)) : Env := λ v, (list_to_map l : gmap string string) !! v.

Lemma with_int_boots env v d k c : with_int env v d k = Boots c → ∃ n, stoi (getenv_str env v d) = Some n ∧ k n = Boots c.
Proof. unfold with_int. destruct (stoi _); [eauto|done]. Qed.

Ltac next_int H := apply with_int_boots in H as (? & ? & H).

(** Only a usable identity boots.  Whatever the environment, a configuration
    [main] runs with has a node id of the accepted characters, a port of 16 bits and
    seeds that are trimmed, non-empty and free of the separator; and the driver it
    starts has exactly this node on its ring and satisfies the membership
    invariants that the cluster theorems start from. *)
Theorem boots_only_valid_nodes env c :
  main_config env = Boots c →
  isValidNodeId (c_node_id c) = true ∧ is_u16 (c_port c) ∧
  (Forall seed_ok (c_seeds c) ∨
   ∃ ip p, ip ≠ EmptyString ∧ is_u16 p ∧ c_seeds c = [ip +:+ ":" +:+ to_string p]) ∧
  swim_ok (GossipThread.g_swim (main_gossip c)) ∧
  GossipThread.mirror (GossipThread.g_swim (main_gossip c)) (GossipThread.g_router (main_gossip c)) ∧
  Router.nodes (GossipThread.g_router (main_gossip c)) = {[ c_node_id c := myInfo c ]}.
Proof.
  unfold main_config. intros H. next_int H. destruct (isValidNodeId _) eqn:Hid; [|done]. cbn [negb] in H.
  do 12 next_int H. injection H as <-. cbn [c_node_id c_port c_seeds].
  split_and!; [done|apply u16_range| |apply swim_ok_new|apply GossipThread.mirror_start|done].
  destruct (_ && _) eqn:Hb; [|left; apply split_csv_ok]. right. apply andb_true_iff in Hb as [Hb _].
  eexists _, _. split_and!; [|apply u16_range|done]. intros E. by rewrite E in Hb.
Qed.

(** The defaults, with only the identity and the seeds set. *)
Definition minimal : Env := env_of [("NODE_ID", "node1"); ("NODE_PORT", "5001"); ("SEED_NODES", "node2:5002, node3:5003 ,, ")].

Definition minimal_config : Config :=
  mkConfig "node1" "0.0.0.0" 5001 ["node2:5002"; "node3:5003"] "node1" 128 4 60 20 64
    (mkGossipConfig 1000 200 3 5) 10800 300.

Lemma boots_only_valid_nodes_witness :
  main_config minimal = Boots minimal_config ∧ isValidNodeId "node1" = true ∧
  Router.nodes (GossipThread.g_router (main_gossip minimal_config)) = {[ "node1" := mkNode "node1" "node1" 5001 ]}.
Proof.
  assert (main_config minimal = Boots minimal_config) as H by (vm_compute; reflexivity).
  destruct (boots_only_valid_nodes minimal minimal_config H) as (H1 & _ & _ & _ & _ & H2).
  exact (conj H (conj H1 H2)).
Defined.

(** An id that would break the wire formats is refused before anything starts. *)
Lemma invalid_id_exits env n :
  stoi (getenv_str env "NODE_PORT" "") = Some n → isValidNodeId (getenv_str env "NODE_ID" "") = false →
  main_config env = Exits 1.
Proof. intros Hp Hid. unfold main_config, with_int at 1. by rewrite Hp, Hid. Qed.

(** A port beyond 16 bits is not refused: the node listens on, and advertises, its
    remainder. *)
Lemma port_wraps :
  (∃ c, main_config (env_of [("NODE_ID", "node1"); ("NODE_PORT", "70000")]) = Boots c ∧ c_port c = 4464%Z).
Proof. eexists. split; vm_compute; reflexivity. Qed.

(** ** The running process *)

Module Process.
Import HintStore GossipThread.

(** A promised write, under the node it is for. *)
Abbreviation Promise := (string * (string * VersionedValue))%type.

Record Process := mkProcess {
  p_swim : Swim;
  p_router : Router.Router;
  p_metrics : InMemoryMetrics.t;
  p_gauge_cb : bool;                        (* the gauge's callback is registered *)
  p_handoff_cb : bool;                      (* and the handoff's *)
  p_store : HintStore;
  p_queue : list NodeInfo;                  (* recovery_queue_ *)
  p_targets : list NodeInfo;                (* swapped out by run *)
  p_flight : option (NodeInfo * list Hint); (* drained by deliverFor *)
  (* the ledger, for the statements *)
  l_accepted : list Promise;
  l_delivered : list Promise;
  l_expired : list Promise;
  l_dropped : list Promise;
  l_refused : list Promise;
}.

Definition promises (id : string) (l : list Hint) : list Promise :=
  (λ h, (id, HandoffThread.write_of h)) <$> l.

(** The three callbacks on one change, in registration order. *)
Definition gauge_cb (p : Process) : Process :=
  if p_gauge_cb p then
    let '(mkProcess a b c d e f g h i j k l m n) := p in
    mkProcess a b (InMemoryMetrics.setRingNodes (Z.of_nat (Router.physicalCount b)) c) d e f g h i j k l m n
  else p.

Definition handoff_cb (c : Change) (p : Process) : Process :=
  if p_handoff_cb p then
    let '(mkProcess a b m d e st q h i j k l dr n) := p in
    match c.2 with
    | MemberState.Alive => mkProcess a b m d e st (q ++ [c.1]) h i j k l dr n
    | MemberState.Left =>
        mkProcess a b m d e (dropTarget (node_id c.1) st).2 q h i j k l
          (dr ++ promises (node_id c.1) (hints_of (node_id c.1) st)) n
    | _ => p
    end
  else p.

Definition ring_cb (c : Change) (p : Process) : Process :=
  let '(mkProcess a b m d e f g h i j k l o n) := p in mkProcess a (on_change b c) m d e f g h i j k l o n.

Definition fire (p : Process) (c : Change) : Process := handoff_cb c (gauge_cb (ring_cb c p)).

Definition with_swim (s : Swim) (p : Process) : Process :=
  let '(mkProcess _ b c d e f g h i j k l m n) := p in mkProcess s b c d e f g h i j k l m n.

(** Storing a hint: accepted, or refused at the cap. *)
Definition put_hint (now : Z) (t key : string) (v : VersionedValue) (p : Process) : Process :=
  let '(mkProcess a b c d e st g h i j k l m rf) := p in
  mkProcess a b c d e (store now t key v st) g h i j k l m
    (rf ++ (if bool_decide (max_per_target_ st ≤ length (hints_of t st)) then [(t, (key, v))] else [])).

Definition accept (t key : string) (v : VersionedValue) (p : Process) : Process :=
  let '(mkProcess a b c d e st g h i ac k l m rf) := p in
  mkProcess a b c d e st g h i (ac ++ [(t, (key, v))]) k l m rf.

(** [deliver_fn] succeeded: the counter moves. *)
Definition delivered (t : string) (h : Hint) (p : Process) : Process :=
  let '(mkProcess a b c d e st g ts f ac dl l m rf) := p in
  mkProcess a b (InMemoryMetrics.incHintDelivered c) d e st g ts f ac (dl ++ [(t, HandoffThread.write_of h)]) l m rf.

Definition with_flight (f : option (NodeInfo * list Hint)) (p : Process) : Process :=
  let '(mkProcess a b c d e st g h _ j k l m n) := p in mkProcess a b c d e st g h f j k l m n.

(** [drain] at the head of [deliverFor]. *)
Definition begin_target (n : NodeInfo) (rest : list NodeInfo) (p : Process) : Process :=
  let '(mkProcess a b c d e st g _ _ j k l m rf) := p in
  mkProcess a b c d e (drain (node_id n) st).2 g rest (Some (n, (drain (node_id n) st).1)) j k l m rf.

Definition swap_queue (p : Process) : Process :=
  let '(mkProcess a b c d e st g _ f j k l m rf) := p in mkProcess a b c d e st [] g f j k l m rf.

(** [expireOld], the expired hints going to the ledger. *)
Definition expired_hints (now : Z) (st : HintStore) : list Promise :=
  map_fold (λ id l acc, promises id (filter (λ h, ¬ fresh now (ttl_ st) h) l) ++ acc) [] (hints_ st).

Definition expire (now : Z) (p : Process) : Process :=
  let '(mkProcess a b c d e st g h f j k ex m rf) := p in
  mkProcess a b c d e (expireOld now st) g h f j k (ex ++ expired_hints now st) m rf.

Definition set_gauge (p : Process) : Process :=
  let '(mkProcess a b c d e f g h i j k l m n) := p in
  mkProcess a b (InMemoryMetrics.setRingNodes (Z.of_nat (Router.physicalCount b)) c) d e f g h i j k l m n.

Definition register_gauge (p : Process) : Process :=
  let '(mkProcess a b c _ e f g h i j k l m n) := p in mkProcess a b c true e f g h i j k l m n.

Definition register_handoff (p : Process) : Process :=
  let '(mkProcess a b c d _ f g h i j k l m n) := p in mkProcess a b c d true f g h i j k l m n.

(** One step of the handoff thread, between two of which the others run. *)
Inductive hstep : Process → Process → Prop :=
| p_swap p : p_targets p = [] → p_flight p = None → hstep p (swap_queue p)
| p_begin n rest p : p_targets p = n :: rest → p_flight p = None → hstep p (begin_target n rest p)
| p_delivered n h hs p : p_flight p = Some (n, h :: hs) →
    hstep p (with_flight (Some (n, hs)) (delivered (node_id n) h p))
| p_failed now n h hs p : p_flight p = Some (n, h :: hs) →
    hstep p (with_flight (Some (n, hs)) (put_hint now (node_id n) (hint_key h) (hint_value h) p))
| p_done n p : p_flight p = Some (n, []) → hstep p (with_flight None p)
| p_expire now p : p_targets p = [] → p_flight p = None → hstep p (expire now p).

(** One step of one of the threads. *)
Inductive pstep : Process → Process → Prop :=
| p_call p fired s : call (p_swim p) fired s → pstep p (with_swim s (foldl fire p fired))
| p_set_gauge p : pstep p (set_gauge p)
| p_register_gauge p : pstep p (register_gauge p)
| p_register_handoff p : pstep p (register_handoff p)
| p_hint now t key v p :                         (* the coordinator, once it has the store *)
    p_handoff_cb p = true → pstep p (put_hint now t key v (accept t key v p))
| p_handoff p q : hstep p q → pstep p q.

(** As [main] builds it. *)
Definition start (c : Config) (max_hints : nat) : Process :=
  let g := main_gossip c in
  mkProcess (g_swim g) (g_router g) InMemoryMetrics.zero false false (HintStore.new (c_hint_ttl c) max_hints)
    [] [] None [] [] [] [] [].

Definition reachable (p : Process) : Prop := ∃ c max, rtc pstep (start c max) p.

(** ** The gauge *)

Definition gauge_exact (p : Process) : Prop :=
  Metrics.ringNodesCount (p_metrics p) = Z.of_nat (Router.physicalCount (p_router p)).

Lemma fire_gauge p c : p_gauge_cb p = true → gauge_exact (fire p c) ∧ p_gauge_cb (fire p c) = true.
Proof.
  destruct p as [a b [] d e]. cbn. intros ->. unfold fire, gauge_cb, ring_cb, handoff_cb. cbn.
  destruct e, c as [n []]; done.
Qed.

Lemma fire_all_gauge fired p :
  p_gauge_cb p = true → gauge_exact p ∨ fired ≠ [] →
  gauge_exact (foldl fire p fired) ∧ p_gauge_cb (foldl fire p fired) = true.
Proof.
  revert p. induction fired as [|c fired IH]; intros p Hcb Hx; cbn; [naive_solver|].
  destruct (fire_gauge p c Hcb) as [He Hcb']. apply IH; [done|by left].
Qed.

Lemma with_swim_gauge s p : gauge_exact (with_swim s p) ↔ gauge_exact p.
Proof. by destruct p. Qed.

Lemma gauge_step p q :
  p_gauge_cb p = true → pstep p q → gauge_exact p ∨ p_router q ≠ p_router p →
  gauge_exact q ∧ p_gauge_cb q = true.
Proof.
  intros Hcb Hstep Hx.
  destruct Hstep as [p fired s Hc|p|p|p|now t k v p Hh|p0 q0 [p|n rest p|n h hs p Hf|now n h hs p Hf|n p|now p]].
  { rewrite with_swim_gauge. replace (p_gauge_cb (with_swim s (foldl fire p fired)))
      with (p_gauge_cb (foldl fire p fired)) by (by destruct (foldl fire p fired)).
    apply fire_all_gauge; [done|]. destruct Hx as [?|Hx]; [by left|right]. intros ->. by destruct p. }
  all: destruct p as [? ? [] ? ? ?]; cbn in Hcb |- *; unfold gauge_exact in *; cbn in *;
       destruct Hx as [Hx|Hx]; try done.
Qed.

(** C20: The ring gauge is the size of the ring.  Once its callback is registered,
    as soon as the gauge is right or any change reaches the ring, it equals the
    number of physical nodes on the ring in every later state of the process,
    whatever the threads do in between. *)
Theorem gauge_follows_ring p q r :
  p_gauge_cb p = true → pstep p q → gauge_exact p ∨ p_router q ≠ p_router p → rtc pstep q r → gauge_exact r.
Proof.
  intros Hcb Hpq Hx Hr. destruct (gauge_step p q Hcb Hpq Hx) as [He Hcb'].
  assert (gauge_exact r ∧ p_gauge_cb r = true) as [? _]; [|done].
  clear p Hcb Hpq Hx. induction Hr as [|q q' r Hs _ IH]; [done|]. destruct (gauge_step q q' Hcb' Hs (or_introl He)). by apply IH.
Qed.

(** ** The ledger *)

Definition of_ (id : string) (l : list Promise) : list Promise := filter (λ x, x.1 = id) l.

#[local] Arguments of_ : simpl never.
#[local] Arguments promises : simpl never.
#[local] Arguments HintStore.hints_of : simpl never.
#[local] Arguments HintStore.store : simpl never.
#[local] Arguments HintStore.drain : simpl never.
#[local] Arguments HintStore.dropTarget : simpl never.
#[local] Arguments HintStore.expireOld : simpl never.

Definition in_flight (id : string) (p : Process) : list Promise :=
  match p_flight p with
  | Some (n, hs) => if decide (node_id n = id) then promises id hs else []
  | None => []
  end.

(** Every promise accepted for [id] is in one place. *)
Definition balanced (id : string) (p : Process) : Prop :=
  of_ id (l_accepted p) ≡ₚ
    promises id (hints_of id (p_store p)) ++ in_flight id p ++ of_ id (l_delivered p) ++
    of_ id (l_expired p) ++ of_ id (l_dropped p) ++ of_ id (l_refused p).

Lemma of_app id l k : of_ id (l ++ k) = of_ id l ++ of_ id k.
Proof. apply list.filter_app. Qed.

Lemma of_promises id t l : of_ id (promises t l) = if decide (t = id) then promises id l else [].
Proof.
  unfold of_, promises. induction l as [|h l IH]; [by case_decide|]. rewrite fmap_cons.
  destruct (decide (t = id)) as [->|]; [rewrite filter_cons_True by done; by rewrite IH|by rewrite filter_cons_False].
Qed.

Lemma of_one id t w : of_ id [(t, w)] = if decide (t = id) then [(id, w)] else [].
Proof. unfold of_. case_decide; [subst; by rewrite filter_cons_True|by rewrite filter_cons_False]. Qed.

(** Storing a hint puts it in the store or among the refused. *)
Lemma put_hint_places now id t k v st :
  promises id (hints_of id (store now t k v st)) ++
  of_ id (if bool_decide (max_per_target_ st ≤ length (hints_of t st)) then [(t, (k, v))] else []) ≡ₚ
  promises id (hints_of id st) ++ of_ id [(t, (k, v))].
Proof.
  rewrite hints_of_store, of_one. destruct (decide (t = id)) as [->|Hne].
  - case_bool_decide as Hcap; [rewrite decide_True by done; by rewrite of_one, decide_True|].
    rewrite decide_False by done. unfold promises. rewrite fmap_app. cbn. by rewrite app_nil_r.
  - case_bool_decide; [by rewrite of_one, decide_False|done].
Qed.

Lemma expired_places now id st :
  of_ id (expired_hints now st) ++ promises id (hints_of id (expireOld now st)) ≡ₚ promises id (hints_of id st).
Proof.
  rewrite hints_of_expire.
  assert (of_ id (expired_hints now st) = promises id (filter (λ h, ¬ fresh now (ttl_ st) h) (hints_of id st))) as ->.
  { unfold expired_hints, hints_of. generalize (hints_ st) as m, (ttl_ st) as ttl. intros m ttl.
    apply (map_fold_weak_ind (λ acc m, of_ id acc = promises id (filter (λ h, ¬ fresh now ttl h) (default [] (m !! id))))).
    - by rewrite lookup_empty.
    - intros t l m' acc Hm IH. rewrite of_app, of_promises, IH, lookup_insert. case_decide; [subst|done].
      rewrite Hm. cbn. by rewrite app_nil_r. }
  unfold promises. rewrite <- fmap_app. apply fmap_Permutation.
  rewrite Permutation_app_comm. apply filter_app_complement.
Qed.

Lemma hints_of_drop t st id :
  hints_of id (dropTarget t st).2 = if decide (t = id) then [] else hints_of id st.
Proof.
  rewrite <- hints_of_drain. unfold dropTarget, drain. by destruct (hints_ st !! t).
Qed.

Lemma balanced_fire id p c : balanced id p → balanced id (fire p c).
Proof.
  assert (∀ p, balanced id p → balanced id (gauge_cb p)) as Hg.
  { intros [] Hp. unfold gauge_cb. cbn. by destruct p_gauge_cb0. }
  intros Hp. unfold fire. assert (balanced id (gauge_cb (ring_cb c p))) as Hq by (apply Hg; by destruct p).
  revert Hq. generalize (gauge_cb (ring_cb c p)) as q. clear. intros q Hq. unfold handoff_cb.
  destruct (p_handoff_cb q); [|done]. destruct q as [a b m d e st qu ts fl ac dl ex dr rf], c as [n []]; try exact Hq.
  unfold balanced, in_flight in *. cbn in *. rewrite Hq, hints_of_drop, of_app, of_promises.
  case_decide; [subst|by rewrite app_nil_r]. solve_Permutation.
Qed.

Lemma balanced_put id now t k v p : balanced id p → balanced id (put_hint now t k v (accept t k v p)).
Proof.
  destruct p as [a b m d e st qu ts fl ac dl ex dr rf]. unfold balanced, in_flight. cbn. intros Hq.
  pose proof (put_hint_places now id t k v st) as Hp. rewrite !of_app, Hq.
  transitivity ((promises id (hints_of id st) ++ of_ id [(t, (k, v))]) ++ in_flight id (mkProcess a b m d e st qu ts fl ac dl ex dr rf)
                ++ of_ id dl ++ of_ id ex ++ of_ id dr ++ of_ id rf); [unfold in_flight; cbn; solve_Permutation|].
  rewrite <- Hp. unfold in_flight. cbn. solve_Permutation.
Qed.

Lemma balanced_failed id now n h hs p :
  p_flight p = Some (n, h :: hs) → balanced id p →
  balanced id (with_flight (Some (n, hs)) (put_hint now (node_id n) (hint_key h) (hint_value h) p)).
Proof.
  destruct p as [a b m d e st qu ts fl ac dl ex dr rf]. cbn. intros -> Hq.
  pose proof (put_hint_places now id (node_id n) (hint_key h) (hint_value h) st) as Hp.
  unfold balanced, in_flight in *. cbn in *. rewrite of_app, Hq. rewrite of_one in Hp.
  transitivity ((promises id (hints_of id st) ++ (if decide (node_id n = id) then [(id, (hint_key h, hint_value h))] else []))
                ++ (if decide (node_id n = id) then promises id hs else []) ++ of_ id dl ++ of_ id ex ++ of_ id dr ++ of_ id rf);
    [case_decide; cbn; solve_Permutation|].
  rewrite <- Hp. solve_Permutation.
Qed.

Lemma balanced_delivered id n h hs p :
  p_flight p = Some (n, h :: hs) → balanced id p →
  balanced id (with_flight (Some (n, hs)) (delivered (node_id n) h p)).
Proof.
  destruct p as [a b m d e st qu ts fl ac dl ex dr rf]. cbn. intros -> Hq.
  unfold balanced, in_flight in *. cbn in *. rewrite of_app, of_one, Hq. case_decide; cbn; [|by rewrite app_nil_r].
  solve_Permutation.
Qed.

Lemma balanced_fired id fired p : balanced id p → balanced id (foldl fire p fired).
Proof. revert p. induction fired as [|c fired IH]; intros p Hp; [done|]. by apply IH, balanced_fire. Qed.

Lemma balanced_step id p q : pstep p q → balanced id p → balanced id q.
Proof.
  intros Hstep. destruct Hstep as [p fired s Hc|p|p|p|now t k v p Hh|p0 q0 [p Ht Hf|n rest p Ht Hf|n h hs p Hf|now n h hs p Hf|n p Hf|now p Ht Hf]].
  - intros Hp%(balanced_fired id fired). by destruct (foldl fire p fired).
  - by destruct p.
  - by destruct p.
  - by destruct p.
  - apply balanced_put.
  - by destruct p.
  - destruct p as [a b m d e st qu ts fl ac dl ex dr rf]. cbn in *. subst. intros Hq.
    unfold balanced, in_flight in *. cbn in *. rewrite Hq, hints_of_drain, drain_out. case_decide; [by subst|done].
  - by apply balanced_delivered.
  - by apply balanced_failed.
  - destruct p. cbn in *. subst. unfold balanced, in_flight. cbn. by case_decide.
  - destruct p as [a b m d e st qu ts fl ac dl ex dr rf]. cbn in *. subst. intros Hq.
    unfold balanced, in_flight in *. cbn in *. rewrite Hq, of_app, <- (expired_places now id st). solve_Permutation.
Qed.

(** C18: A hint is never lost unaccounted for.  At every moment of the process, in
    any interleaving of the coordinator, the gossip callbacks, the handoff thread and
    expiry, the writes accepted on behalf of a node are exactly those in the store,
    those the handoff thread is holding, those delivered, those expired, those
    dropped because the node left, and those refused because the node's cap was
    reached: each in one of these places, none twice. *)
Theorem hints_accounted_for p id :
  reachable p →
  of_ id (l_accepted p) ≡ₚ
    promises id (hints_of id (p_store p)) ++ in_flight id p ++ of_ id (l_delivered p) ++
    of_ id (l_expired p) ++ of_ id (l_dropped p) ++ of_ id (l_refused p).
Proof.
  intros (c & max & Hr). change (balanced id p).
  eapply (rtc_ind_r (balanced id)); [|intros y z _ Hyz Hy; by eapply balanced_step|exact Hr].
  unfold balanced, hints_of. cbn. by rewrite lookup_empty.
Qed.

(** ** Recovery *)

Lemma fire_queue p c n :
  p_handoff_cb p = true → n ∈ p_queue p ∨ c = (n, MemberState.Alive) →
  n ∈ p_queue (fire p c) ∧ p_handoff_cb (fire p c) = true.
Proof.
  destruct p as [a b m d e st qu ts fl ac dl ex dr rf]. cbn. intros -> Hn. unfold fire, gauge_cb, handoff_cb. cbn.
  destruct d; cbn; (destruct c as [n' []]; cbn; try (split; [|done]; destruct Hn as [?|[=]]; set_solver)).
Qed.

Lemma fired_queue fired p n :
  p_handoff_cb p = true → n ∈ p_queue p ∨ (n, MemberState.Alive) ∈ fired →
  n ∈ p_queue (foldl fire p fired).
Proof.
  revert p. induction fired as [|c fired IH]; intros p Hcb Hn; cbn.
  { destruct Hn as [?|Hn%elem_of_nil]; done. }
  rewrite elem_of_cons in Hn.
  assert (p_handoff_cb (fire p c) = true) as Hcb'.
  { destruct p as [a b m d e]. cbn in Hcb. subst e. unfold fire, gauge_cb, handoff_cb. cbn. by destruct d, c as [? []]. }
  apply IH; [done|]. destruct Hn as [Hn|[Hn|Hn]]; [left..|by right]; apply fire_queue; auto.
Qed.

(** C17: A node that comes back is given its hints.  When gossip reports a node
    alive, it is queued in the same step; and on the handoff thread's next turn, if
    deliveries to the node are acknowledged, [deliver_fn] is called for it with exactly
    the writes of the hints held for it, each once and in order, and no hint is left,
    whatever happens to the other nodes of that turn. *)
Theorem recovered_node_gets_its_hints {Net} deliver_fn clock_now p fired s n d running (net : Net) :
  p_handoff_cb p = true → call (p_swim p) fired s → (n, MemberState.Alive) ∈ fired →
  (∀ m k v net, node_id m = node_id n → (deliver_fn m k v net).1 = true) →
  let p' := with_swim s (foldl fire p fired) in
  pstep p p' ∧ n ∈ p_queue p' ∧
  let '(t', (_, calls)) := HandoffThread.run_once (HandoffThread.recorded deliver_fn) clock_now
                             (HandoffThread.mkThread (p_store p') (p_queue p') d running, (net, [])) in
  HandoffThread.offered (node_id n) calls = HandoffThread.write_of <$> hints_of (node_id n) (p_store p') ∧
  hints_of (node_id n) (HandoffThread.store_ t') = [].
Proof.
  intros Hcb Hc Hf Hok p'. assert (n ∈ p_queue p') as Hq.
  { pose proof (fired_queue fired p n Hcb (or_intror Hf)) as Hq. unfold p'. by destruct (foldl fire p fired). }
  split; [by apply p_call|]. split; [done|]. by apply HandoffThread.turn_offers.
Qed.

(** ** The driver's runs *)

(** Every run of the gossip driver is a run of the process: the calls its
    operations make are steps here, with the ring they leave behind. *)
Lemma driver_runs m m' p :
  rtc acall m m' → (p_swim p, p_router p) = m →
  ∃ p', rtc pstep p p' ∧ (p_swim p', p_router p') = m'.
Proof.
  intros Hr. revert p. induction Hr as [m|m1 m2 m3 (fired & Hc & Hrt) _ IH]; intros p Hp; [by exists p|].
  subst m1. cbn in Hc, Hrt.
  assert (p_router (foldl fire p fired) = foldl on_change (p_router p) fired) as Hrouter.
  { clear. revert p. induction fired as [|c fired IH]; intros p; [done|]. cbn. rewrite IH. f_equal.
    destruct p as [a b m d e]. unfold fire, gauge_cb, handoff_cb. cbn. by destruct d, e, c as [? []]. }
  destruct (IH (with_swim m2.1 (foldl fire p fired))) as (p' & Hs & He).
  { rewrite (surjective_pairing m2), Hrt, <- Hrouter. by destruct (foldl fire p fired). }
  exists p'. split; [|done]. eapply rtc_l; [by apply p_call|done].
Qed.

(** ** A run *)

Definition small_config : Config :=
  mkConfig "node1" "0.0.0.0" 5001 [] "node1" 2 4 60 20 64 (mkGossipConfig 1000 200 3 5) 10800 300.

Definition node2 : NodeInfo := mkNode "node2" "h2" 5002.
Definition alive2 : MemberEvent := mkEvent EventType.Alive "node2" "h2" 5002 0.

Definition after_call (p : Process) (r : Swim * list Change) : Process := with_swim r.1 (foldl fire p r.2).

(** Callbacks registered; node2 heard of; a write hinted for it; the handoff
    thread takes it up; node2 is decommissioned; the delivery fails. *)
Definition q0 : Process := Eval vm_compute in register_handoff (register_gauge (set_gauge (start small_config 10))).
Definition r1 : Swim * list Change := Eval vm_compute in (applyEvent 0 alive2 (p_swim q0)).1.
Definition q1 : Process := Eval vm_compute in after_call q0 r1.
Definition held_value : VersionedValue := mkVV "v" ∅ false.
Definition q2 : Process := Eval vm_compute in put_hint 5 "node2" "k" held_value (accept "node2" "k" held_value q1).
Definition q3 : Process := Eval vm_compute in begin_target node2 [] (swap_queue q2).
Definition r4 : Swim * list Change := Eval vm_compute in leave "node2" (p_swim q3).
Definition q4 : Process := Eval vm_compute in after_call q3 r4.
Definition q5 : Process :=
  Eval vm_compute in with_flight (Some (node2, [])) (put_hint 6 "node2" "k" held_value q4).

Lemma q0_run : rtc pstep (start small_config 10) q0.
Proof.
  eapply rtc_l; [apply p_set_gauge|]. eapply rtc_l; [apply p_register_gauge|].
  eapply rtc_l; [apply p_register_handoff|]. vm_compute. apply rtc_refl.
Qed.

Lemma q1_step : pstep q0 q1.
Proof. refine (p_call q0 r1.2 r1.1 _). apply (call_event 0 alive2); vm_decide. Qed.

Lemma q5_run : rtc pstep q1 q5.
Proof.
  eapply rtc_l; [apply (p_hint 5 "node2" "k" held_value q1); reflexivity|].
  eapply rtc_l; [by apply p_handoff, p_swap|].
  eapply rtc_l; [by apply p_handoff, (p_begin node2 [])|].
  eapply rtc_l; [apply (p_call q3 r4.2 r4.1); apply (call_leave "node2")|].
  eapply rtc_l; [by apply p_handoff, (p_failed 6 node2 (mkHint "node2" "k" held_value 5) [] q4)|]. apply rtc_refl.
Qed.

Lemma q5_reachable : reachable q5.
Proof. exists small_config, 10. etrans; [exact q0_run|]. eapply rtc_l; [exact q1_step|exact q5_run]. Qed.

(** A decommission that comes while the handoff thread is delivering: the hints of
    the departed node are dropped, and the one in hand is stored again. *)
Theorem departed_node_keeps_a_hint :
  reachable q5 ∧ stateOf "node2" (p_swim q5) = Some MemberState.Left ∧
  promises "node2" (hints_of "node2" (p_store q5)) = [("node2", ("k", held_value))].
Proof. split; [exact q5_reachable|]. split; vm_compute; reflexivity. Qed.

Lemma gauge_follows_ring_witness : gauge_exact q5.
Proof.
  apply (gauge_follows_ring q0 q1 q5); [reflexivity|exact q1_step|left; reflexivity|exact q5_run].
Defined.

Lemma hints_accounted_for_witness :
  of_ "node2" (l_accepted q5) ≡ₚ promises "node2" (hints_of "node2" (p_store q5)) ++ [].
Proof. exact (hints_accounted_for q5 "node2" q5_reachable). Defined.

(** A write hinted for node2, which then comes back. *)
Definition qh : Process := Eval vm_compute in put_hint 5 "node2" "k" held_value (accept "node2" "k" held_value q0).

Lemma recovered_node_gets_its_hints_witness :
  let p' := with_swim r1.1 (foldl fire qh r1.2) in
  node2 ∈ p_queue p' ∧
  let '(t', (_, calls)) := HandoffThread.run_once (HandoffThread.recorded (λ _ _ _ u, (true, u))) (λ _, 0%Z)
                             (HandoffThread.mkThread (p_store p') (p_queue p') 0 true, (tt, [])) in
  HandoffThread.offered "node2" calls = [("k", held_value)] ∧ hints_of "node2" (HandoffThread.store_ t') = [].
Proof.
  destruct (recovered_node_gets_its_hints (λ _ _ _ u, (true, u)) (λ _, 0%Z) qh r1.2 r1.1 node2 0 true tt) as (_ & H1 & H2).
  - reflexivity.
  - apply (call_event 0 alive2); vm_decide.
  - vm_decide.
  - intros. reflexivity.
  - exact (conj H1 H2).
Defined.

End Process.

(** ** The callbacks that write *)

Import VersionedValue replica_ops ReplicaMessages.

Section callbacks.
Context {S : Type} `{StorageLaws S}.

(** [resp.find("RESPONSE|OK") != npos]. *)
Definition found_ok (resp : string) : bool :=
  match String.index 0 "RESPONSE|OK" resp with Some _ => true | None => false end.

(** The network a callback acts on: the replicas, the fates of its next calls,
    and the counters. *)
Record CallbackNet := mkNet { cn_world : World S; cn_fates : list Fate; cn_metrics : InMemoryMetrics.t }.

Definition main_send (target : NodeInfo) (payload : string) (n : CallbackNet) : string * CallbackNet :=
  let '(w, resp) := sendAndReceiveFramed (hd NoConnection (cn_fates n)) target payload (cn_world n) in
  (resp, mkNet w (tail (cn_fates n)) (cn_metrics n)).

Definition main_deliver (target : NodeInfo) (key : string) (value : VersionedValue) (n : CallbackNet) : bool * CallbackNet :=
  let payload := "REPLICATE|" +:+ key +:+ "|" +:+ base64.encode (data value) +:+ "|hint|" +:+ VectorClock.serialize (clock value) in
  let '(resp, n) := main_send target payload n in
  let ok := found_ok resp in
  (ok, if ok then mkNet (cn_world n) (cn_fates n) (InMemoryMetrics.incHintDelivered (cn_metrics n)) else n).

Definition main_push (peer : NodeInfo) (key : string) (value : VersionedValue) (n : CallbackNet) : bool * CallbackNet :=
  let payload := "REPLICATE|" +:+ key +:+ "|" +:+ base64.encode (data value) +:+ "|ae|" +:+ VectorClock.serialize (clock value) in
  let '(resp, n) := main_send peer payload n in
  (found_ok resp, n).

Definition push_write (origin : string) (target : NodeInfo) (key : string) (v : VersionedValue) (n : CallbackNet) :
    World S * bool :=
  TcpReplicaClient.writeReplica origin (hd NoConnection (cn_fates n)) target key v (cn_world n).

(** Both callbacks are the replica client's write under another origin. *)
Lemma send_write origin target key v n :
  str_free "|" origin = true → str_free "|" key = true → vv_ok v →
  let '(resp, n') := main_send target (write_msg origin key v) n in
  push_write origin target key v n = (cn_world n', found_ok resp) ∧
  cn_fates n' = tail (cn_fates n) ∧ cn_metrics n' = cn_metrics n.
Proof.
  intros Ho Hk Hv. unfold main_send, push_write, TcpReplicaClient.writeReplica, sendAndReceiveFramed.
  pose proof (attempt_write (hd NoConnection (cn_fates n)) origin target key v (cn_world n) Hk Ho Hv) as Ha.
  destruct (attempt _ _ _ _) as [w' r]. destruct Ha as [_ Hr]. destruct r as [| |reply]; [done..|].
  by destruct (Hr reply eq_refl) as (-> & _).
Qed.

(** What a replica has after [v] arrived. *)
Lemma keep_cases w w' target key v :
  vv_ok v → copy w' target key = Some (keep (copy w target key) (on_wire v)) →
  copy w' target key = Some (mkVV (data v) (clock v) false) ∨
  ∃ u, copy w target key = Some u ∧ superseded v u ∧ copy w' target key = Some u.
Proof.
  intros Hv ->. unfold keep. destruct (copy w target key) as [u|] eqn:E; [|by left]. case_decide as Hd; [right|by left].
  exists u. split_and!; [done| |done]. apply VectorClock.compare_spec in Hd; [exact Hd| |].
  - apply vv_ok_wf. unfold copy in E. destruct (w !! addr target) as [s|]; [|done]. by eapply readLocal_ok.
  - exact (vv_ok_wf v Hv).
Qed.

(** C21: A hint counted as delivered is at its target.  When the delivery callback
    reports success the target's store holds, for the hinted key, the data and clock of
    the hint as a live value (the message has no tombstone flag), or the version it held
    before, which is strictly newer; and the counter of delivered hints has moved by
    one.  When it reports failure the counter has not moved.  Either way no other copy
    in the cluster has changed. *)
Theorem delivered_hint_is_stored target key v n :
  str_free "|" key = true → vv_ok v →
  let '(ok, n') := main_deliver target key v n in
  (ok = true →
     (copy (cn_world n') target key = Some (mkVV (data v) (clock v) false) ∨
      ∃ u, copy (cn_world n) target key = Some u ∧ superseded v u ∧ copy (cn_world n') target key = Some u) ∧
     Metrics.hintDeliveredCount (cn_metrics n') = u64 (Metrics.hintDeliveredCount (cn_metrics n) + 1)) ∧
  (ok = false → cn_metrics n' = cn_metrics n) ∧
  (∀ m k', addr m ≠ addr target ∨ k' ≠ key → copy (cn_world n') m k' = copy (cn_world n) m k').
Proof.
  intros Hk Hv. unfold main_deliver.
  change (_ +:+ _) with (write_msg "hint" key v).
  pose proof (send_write "hint" target key v n eq_refl Hk Hv) as Hs.
  destruct (main_send target _ n) as [resp n']. destruct Hs as (Hw & _ & Hm).
  pose proof (@tcp_laws S _ _ "hint" eq_refl) as HL.
  assert (cn_world n' = (push_write "hint" target key v n).1) as Ew by (by rewrite Hw).
  assert (∀ m k', addr m ≠ addr target ∨ k' ≠ key → copy (cn_world n') m k' = copy (cn_world n) m k') as Hother.
  { intros m k' Hd. rewrite Ew.
    destruct (@write_copy _ _ _ _ HL (hd NoConnection (cn_fates n)) target key v (cn_world n) m k' Hk Hv) as [E|(? & ? & _)];
      [exact E|]. by destruct Hd. }
  assert (found_ok resp = true →
    copy (cn_world n') target key = Some (mkVV (data v) (clock v) false) ∨
    ∃ u, copy (cn_world n) target key = Some u ∧ superseded v u ∧ copy (cn_world n') target key = Some u) as Hok.
  { intros Hf. apply keep_cases; [exact Hv|]. rewrite Ew.
    apply (@write_ok _ _ _ _ HL (hd NoConnection (cn_fates n)) target key v (cn_world n) Hk Hv).
    change ((push_write "hint" target key v n).2 = true). by rewrite Hw. }
  destruct (found_ok resp); cbn [cn_world cn_metrics]; (split_and!; [|done|done]); [|done].
  intros _. split; [by apply Hok|]. rewrite Hm. by destruct (cn_metrics n).
Qed.


End callbacks.

Lemma delivered_hint_is_stored_witness :
  let n := mkNet ({[ addr Process.node2 := ∅ ]} : World (gmap string string)) [RoundTrip] InMemoryMetrics.zero in
  let '(ok, n') := main_deliver Process.node2 "k" Process.held_value n in
  ok = true ∧ copy (cn_world n') Process.node2 "k" = Some Process.held_value ∧
  Metrics.hintDeliveredCount (cn_metrics n') = 1%Z.
Proof.
  intros n. pose proof (delivered_hint_is_stored Process.node2 "k" Process.held_value n eq_refl ltac:(vm_decide)) as H.
  assert ((main_deliver Process.node2 "k" Process.held_value n).1 = true) as Hok by (vm_compute; reflexivity).
  destruct (main_deliver _ _ _ _) as [ok n']. cbn in Hok. destruct H as [H _]. destruct (H Hok) as [H1 H2].
  split_and!; [exact Hok| |etransitivity; [exact H2|reflexivity]]. destruct H1 as [H1|(u & H1 & _)]; [exact H1|].
  vm_compute in H1. discriminate.
Defined.
