(* ===== verification/Boot.v ===== *)
(** * Start-up of the server (main of src/main.cpp)

    [main] as a program: what it does, in order, or where it stops.  A parameter that
    does not parse ends it with an uncaught exception at the point where it is read,
    so a prefix of its actions has been taken by then; an invalid node id ends it
    with exit code 1.  Which libraries were found at build time, and whether the
    database opens and the exposer binds, are arguments.

    The server thread, the gossip thread and the handoff thread run as soon as they
    are started, while [main] goes on wiring the rest; [bstep] interleaves them.

    The theorems: an invalid id never gets to open a socket or to send a message; in
    every interleaving of the start-up the process is one that [Process] reaches,
    with no hint taken on before the callback that delivers it is registered; and,
    of the gauge, that a join between its first value and its registration is
    missed. *)
From S2P Require Import Prelude Util Clock Value Ring Metrics Hints Events Membership Sync Gossip Server.
From Stdlib Require Import Ascii String ZArith Lia.
From stdpp Require Import base gmap list relations strings numbers.
Import Process.

(** ** Programs that act, and may stop *)

Inductive Action :=
| LogInit (node_id : string)
| LogMsg (level message : string)
| MakeRouter (vnodes : Z)
| MakeMetrics (exposer : option string)
| MakePool (max_per_peer idle_s : Z)
| SetPoolCounters
| MakeStorage (directory : option string)
| MakeNode (info : NodeInfo) (max_clock_entries : Z)
| AddSelf (info : NodeInfo)
| StartServer (host : string) (port workers : Z)
| MakeGossip (info : NodeInfo) (config : GossipConfig)
| SetGossipThread
| SetGauge
| RegisterGauge
| RegisterSyncCounter
| JoinSeeds (seeds : list string)
| StartGossip
| MakeHintStore (ttl : Z)
| StartHandoff
| RegisterHandoff
| SetHintStore
| SetLiveness
| StartAntiEntropy (interval : Z).

Definition is_log (a : Action) : bool := match a with LogInit _ | LogMsg _ _ => true | _ => false end.

(** What has been done, and why it ended or what it gave. *)
Inductive Stop := ExitCode (code : Z) | Uncaught.
Definition Main (A : Type) : Type := list Action * (Stop + A).

Definition ret {A} (a : A) : Main A := ([], inr a).
Definition stop {A} (s : Stop) : Main A := ([], inl s).
Definition act (a : Action) : Main unit := ([a], inr tt).
Definition bind {A B} (m : Main A) (f : A → Main B) : Main B :=
  match m.2 with inl s => (m.1, inl s) | inr a => (m.1 ++ (f a).1, (f a).2) end.

Declare Scope main_scope.
Delimit Scope main_scope with main.
Notation "x ⟵ m ; k" := (bind m (λ x, k)) (at level 100, m at next level, right associativity) : main_scope.
Notation "a ;; k" := (bind (act a) (λ _, k)) (at level 100, right associativity) : main_scope.
Open Scope main_scope.

Section main.
(** The build, and the outside. *)
Context (have_rocksdb have_prometheus : bool) (db_opens exposer_binds : string → bool).

Definition env_int (env : Env) (var dflt : string) : Main Z :=
  match stoi (getenv_str env var dflt) with None => stop Uncaught | Some n => ret n end.

(** A constructor that may throw. *)
Definition guarded (ok : bool) (a : Action) : Main unit := if ok then act a else stop Uncaught.

Definition makeStorage (env : Env) (node_id : string) : Main unit :=
  if have_rocksdb then
    let engine := getenv_str env "STORAGE_ENGINE" "rocksdb" in
    if negb (String.eqb engine "memory") then
      let dir := getenv_str env "DATA_DIR" ("/data/" +:+ node_id) in
      LogMsg "info" ("storage: RocksDB at " +:+ dir) ;; guarded (db_opens dir) (MakeStorage (Some dir))
    else LogMsg "info" "storage: in-memory (non-durable)" ;; act (MakeStorage None)
  else LogMsg "info" "storage: in-memory (non-durable)" ;; act (MakeStorage None).

Definition makeMetrics (env : Env) (node_id : string) : Main unit :=
  if have_prometheus then
    let bind_ := "0.0.0.0:" +:+ getenv_str env "METRICS_PORT" "9100" in
    LogMsg "info" ("metrics: Prometheus exposer on " +:+ bind_ +:+ "/metrics") ;;
    guarded (exposer_binds bind_) (MakeMetrics (Some bind_))
  else act (MakeMetrics None).

(** Identity and seeds. *)
Record Identity := mkIdentity {
  i_node_id : string; i_host : string; i_port : Z; i_seed_str : string; i_bootstrap : string;
  i_seeds : list string; i_advertise : string;
}.

Definition boot_identity (env : Env) : Main Identity :=
  let node_id := getenv_str env "NODE_ID" "" in
  let host := getenv_str env "HOST" "0.0.0.0" in
  port ⟵ env_int env "NODE_PORT" "";
  LogInit node_id ;;
  if negb (isValidNodeId node_id) then
    LogMsg "error" ("NODE_ID '" +:+ node_id +:+
                    "' is invalid: 1-64 chars from [A-Za-z0-9._-] required " +:+
                    "(it is embedded in '|'/';'/':'-delimited wire formats)") ;;
    stop (ExitCode 1)
  else
    let seed_str := getenv_str env "SEED_NODES" "" in
    let seeds := split_csv seed_str in
    let bootstrap_ip := getenv_str env "BOOTSTRAP_IP" "" in
    bport ⟵ env_int env "BOOTSTRAP_PORT" "0";
    let seeds :=
      if negb (str_empty bootstrap_ip) && bool_decide (seeds = [])
      then [bootstrap_ip +:+ ":" +:+ to_string (u16 bport)] else seeds in
    ret (mkIdentity node_id host (u16 port) seed_str bootstrap_ip seeds (getenv_str env "ADVERTISE_HOST" node_id)).

(** The node and its server. *)
Definition boot_node (env : Env) (i : Identity) : Main (Z * Z * Z * Z * Z) :=
  vnodes ⟵ env_int env "VNODES" "128";
  MakeRouter vnodes ;;
  let info := mkNode (i_node_id i) (i_advertise i) (i_port i) in
  _ ⟵ makeMetrics env (i_node_id i);
  pool_max ⟵ env_int env "POOL_MAX_CONNS_PER_PEER" "4";
  pool_reap ⟵ env_int env "POOL_IDLE_REAP_SECONDS" "60";
  MakePool (u64 pool_max) pool_reap ;;
  SetPoolCounters ;;
  clock_entries ⟵ env_int env "MAX_CLOCK_ENTRIES" "20";
  _ ⟵ makeStorage env (i_node_id i);
  MakeNode info (u64 clock_entries) ;;
  AddSelf info ;;
  workers ⟵ env_int env "WORKER_THREADS" "64";
  StartServer (i_host i) (i_port i) (u64 workers) ;;
  LogMsg "info" ("TCP server listening on " +:+ i_host i +:+ ":" +:+ to_string (i_port i) +:+ " (workers=" +:+
                 to_string (u64 workers) +:+ ", pool_max=" +:+ to_string (u64 pool_max) +:+ ")") ;;
  ret (vnodes, u64 pool_max, pool_reap, u64 clock_entries, u64 workers).

(** Membership. *)
Definition boot_gossip (env : Env) (i : Identity) : Main GossipConfig :=
  period ⟵ env_int env "GOSSIP_PERIOD_MS" "1000";
  ping ⟵ env_int env "GOSSIP_PING_TIMEOUT_MS" "200";
  k ⟵ env_int env "GOSSIP_K" "3";
  mult ⟵ env_int env "GOSSIP_SUSPICION_MULT" "5";
  let gcfg := mkGossipConfig period ping k mult in
  MakeGossip (mkNode (i_node_id i) (i_advertise i) (i_port i)) gcfg ;;
  SetGossipThread ;;
  SetGauge ;;
  RegisterGauge ;;
  RegisterSyncCounter ;;
  _ ⟵ (match i_seeds i with
       | [] => act (LogMsg "info" "started as initial seed (no SEED_NODES)")
       | seeds =>
           LogMsg "info" ("joining cluster via seeds: " +:+ i_seed_str i +:+
                          (if str_empty (i_bootstrap i) then "" else " (from BOOTSTRAP_IP)")) ;;
           act (JoinSeeds seeds)
       end);
  StartGossip ;;
  ret gcfg.

(** Hinted handoff. *)
Definition boot_handoff (env : Env) : Main Z :=
  hint_ttl ⟵ env_int env "HINT_TTL_SECONDS" "10800";
  MakeHintStore hint_ttl ;;
  StartHandoff ;;
  RegisterHandoff ;;
  SetHintStore ;;
  SetLiveness ;;
  LogMsg "info" ("hinted handoff started (TTL=" +:+ int_string hint_ttl +:+ "s)") ;;
  ret hint_ttl.

(** Anti-entropy. *)
Definition boot_antientropy (env : Env) : Main Z :=
  ae_interval ⟵ env_int env "ANTIENTROPY_INTERVAL_SECONDS" "300";
  StartAntiEntropy ae_interval ;;
  LogMsg "info" ("anti-entropy started (interval=" +:+ int_string ae_interval +:+ "s)") ;;
  ret ae_interval.

Definition main (env : Env) : Main Config :=
  i ⟵ boot_identity env;
  n ⟵ boot_node env i;
  gcfg ⟵ boot_gossip env i;
  ttl ⟵ boot_handoff env;
  ae ⟵ boot_antientropy env;
  let '(vnodes, pool_max, pool_reap, clock_entries, workers) := n in
  ret (mkConfig (i_node_id i) (i_host i) (i_port i) (i_seeds i) (i_advertise i) vnodes pool_max pool_reap
         clock_entries workers gcfg ttl ae).

(** ** What a start-up consists of *)

(** Everything but log lines. *)
Definition effects (l : list Action) : list Action := filter (λ a, is_log a = false) l.

Lemma effects_app l1 l2 : effects (l1 ++ l2) = effects l1 ++ effects l2.
Proof. apply list.filter_app. Qed.

Lemma bind_done {A B} (m : Main A) (f : A → Main B) l b :
  bind m f = (l, inr b) → ∃ l1 a l2, m = (l1, inr a) ∧ f a = (l2, inr b) ∧ l = l1 ++ l2.
Proof.
  destruct m as [l1 [s|a]]; unfold bind; cbn; [done|]. destruct (f a) as [l2 r] eqn:E. cbn. intros [= <- ->].
  by exists l1, a, l2.
Qed.

Lemma act_done a l u : act a = (l, inr u) → l = [a].
Proof. by intros [= <-]. Qed.

Lemma env_int_done env var dflt l n :
  env_int env var dflt = (l, inr n) → l = [] ∧ stoi (getenv_str env var dflt) = Some n.
Proof. unfold env_int. destruct (stoi _); [by intros [= <- ->]|done]. Qed.

Lemma guarded_done ok a l u : guarded ok a = (l, inr u) → l = [a].
Proof. destruct ok; [apply act_done|done]. Qed.

End main.

(** Run a program that ended: every part of it ended. *)
Ltac run_main H :=
  lazymatch type of H with
  | bind _ _ = (_, inr _) =>
      let l1 := fresh "l" in let a := fresh "a" in let l2 := fresh "l" in
      let Hm := fresh "Hm" in
      apply bind_done in H as (l1 & a & l2 & Hm & H & ->); run_main Hm; run_main H
  | env_int _ _ _ = (_, inr _) => let Hs := fresh "Hs" in apply env_int_done in H as [-> Hs]
  | act _ = (_, inr _) => apply act_done in H as ->
  | guarded _ _ = (_, inr _) => apply guarded_done in H as ->
  | ret _ = (_, inr _) => unfold ret in H; simplify_eq
  | _ => idtac
  end.

Section effects.
Context (have_rocksdb have_prometheus : bool) (db_opens exposer_binds : string → bool).

Lemma identity_effects env l i :
  boot_identity env = (l, inr i) → effects l = [] ∧ isValidNodeId (i_node_id i) = true.
Proof.
  unfold boot_identity. intros H. run_main H. destruct (isValidNodeId _) eqn:Hid; cbn [negb] in H.
  - run_main H. done.
  - run_main H. done.
Qed.

Lemma storage_effects env id l u : makeStorage have_rocksdb db_opens env id = (l, inr u) → ∃ d, effects l = [MakeStorage d].
Proof.
  unfold makeStorage. destruct have_rocksdb; [destruct (negb _)|]; intros H; run_main H; by eexists.
Qed.

Lemma metrics_effects env id l u : makeMetrics have_prometheus exposer_binds env id = (l, inr u) → ∃ d, effects l = [MakeMetrics d].
Proof. unfold makeMetrics. destruct have_prometheus; intros H; run_main H; by eexists. Qed.

(** The joining step, if there are seeds. *)
Definition joins (seeds : list string) : list Action := match seeds with [] => [] | _ => [JoinSeeds seeds] end.

(** The effects of a start-up that succeeds, for its configuration. *)
Definition program (c : Config) (exposer directory : option string) : list Action :=
  [MakeRouter (c_vnodes c); MakeMetrics exposer; MakePool (c_pool_max c) (c_pool_reap_s c); SetPoolCounters;
   MakeStorage directory; MakeNode (myInfo c) (c_max_clock_entries c); AddSelf (myInfo c);
   StartServer (c_host c) (c_port c) (c_workers c);
   MakeGossip (myInfo c) (c_gossip c); SetGossipThread; SetGauge; RegisterGauge; RegisterSyncCounter] ++
  joins (c_seeds c) ++
  [StartGossip; MakeHintStore (c_hint_ttl c); StartHandoff; RegisterHandoff; SetHintStore; SetLiveness;
   StartAntiEntropy (c_ae_interval c)].

Lemma node_effects env i l vnodes pool_max pool_reap entries workers :
  boot_node have_rocksdb have_prometheus db_opens exposer_binds env i = (l, inr (vnodes, pool_max, pool_reap, entries, workers)) →
  ∃ m d, effects l =
    [MakeRouter vnodes; MakeMetrics m; MakePool pool_max pool_reap; SetPoolCounters; MakeStorage d;
     MakeNode (mkNode (i_node_id i) (i_advertise i) (i_port i)) entries; AddSelf (mkNode (i_node_id i) (i_advertise i) (i_port i));
     StartServer (i_host i) (i_port i) workers].
Proof.
  unfold boot_node. intros H. run_main H.
  lazymatch goal with Hx : makeStorage _ _ _ _ = _ |- _ => apply storage_effects in Hx as [d Hd] end.
  lazymatch goal with Hx : makeMetrics _ _ _ _ = _ |- _ => apply metrics_effects in Hx as [m Hm] end.
  exists m, d. rewrite !effects_app, Hd, Hm. reflexivity.
Qed.

Lemma gossip_effects env i l g :
  boot_gossip env i = (l, inr g) →
  effects l = [MakeGossip (mkNode (i_node_id i) (i_advertise i) (i_port i)) g; SetGossipThread; SetGauge; RegisterGauge;
               RegisterSyncCounter] ++ joins (i_seeds i) ++ [StartGossip].
Proof.
  unfold boot_gossip. intros H. run_main H.
  destruct (i_seeds i) as [|x xs];
    lazymatch goal with Hx : _ = (?l, inr ?u) |- context [?l] => run_main Hx end; reflexivity.
Qed.

Lemma handoff_effects env l ttl :
  boot_handoff env = (l, inr ttl) → effects l = [MakeHintStore ttl; StartHandoff; RegisterHandoff; SetHintStore; SetLiveness].
Proof. unfold boot_handoff. intros H. run_main H. reflexivity. Qed.

Lemma antientropy_effects env l ae : boot_antientropy env = (l, inr ae) → effects l = [StartAntiEntropy ae].
Proof. unfold boot_antientropy. intros H. run_main H. reflexivity. Qed.

Abbreviation main_ := (main have_rocksdb have_prometheus db_opens exposer_binds).

Lemma main_effects env l c : main_ env = (l, inr c) → ∃ m d, effects l = program c m d.
Proof.
  unfold main. intros H. run_main H. destruct a0 as [[[[vnodes pool_max] pool_reap] entries] workers].
  unfold ret in H. simplify_eq.
  repeat lazymatch goal with
  | Hx : boot_identity _ = _ |- _ => apply identity_effects in Hx as [Hi _]
  | Hx : boot_node _ _ _ _ _ _ = _ |- _ => apply node_effects in Hx as (m & d & Hn)
  | Hx : boot_gossip _ _ = _ |- _ => apply gossip_effects in Hx
  | Hx : boot_handoff _ = _ |- _ => apply handoff_effects in Hx
  | Hx : boot_antientropy _ = _ |- _ => apply antientropy_effects in Hx
  end.
  exists m, d. rewrite !effects_app. rewrite Hi, Hn. 
  repeat lazymatch goal with Hx : effects ?l = _ |- context [effects ?l] => rewrite Hx; clear Hx end.
  cbn. by rewrite ?app_nil_r, <- ?app_assoc.
Qed.

(** A start-up that succeeds runs with the configuration of [main_config]. *)
Lemma main_configured env l c : main_ env = (l, inr c) → main_config env = Boots c.
Proof.
  unfold main, boot_identity, boot_node, boot_gossip, boot_handoff, boot_antientropy. intros H. run_main H.
  lazymatch goal with Hx : (if negb ?b then _ else _) = _ |- _ => destruct b eqn:Hid; cbn [negb] in Hx; run_main Hx end; [|done].
  unfold main_config, with_int. repeat lazymatch goal with Hs : stoi _ = Some _ |- _ => rewrite Hs; clear Hs end.
  by rewrite Hid.
Qed.

(** C24: A node without a usable identity stays silent.  If NODE_ID is not a valid id,
    [main] stops, with exit code 1 or, when NODE_PORT does not parse either, with an
    uncaught exception, and it has done nothing but log: no store was opened, no
    socket listens, no message was sent.  A start-up that succeeds has a valid id and
    the configuration its environment describes. *)
Theorem unusable_identity_stays_silent env :
  (isValidNodeId (getenv_str env "NODE_ID" "") = false →
     effects (main_ env).1 = [] ∧
     (main_ env).2 = inl (match stoi (getenv_str env "NODE_PORT" "") with Some _ => ExitCode 1 | None => Uncaught end)) ∧
  (∀ l c, main_ env = (l, inr c) → isValidNodeId (c_node_id c) = true ∧ main_config env = Boots c).
Proof.
  split.
  - intros Hid. unfold main, boot_identity, env_int. destruct (stoi _); cbn; [|done]. rewrite Hid. by split.
  - intros l c H. split; [|by eapply main_configured]. unfold main in H. run_main H.
    lazymatch goal with Hx : boot_identity _ = _ |- _ => apply identity_effects in Hx as [_ Hi] end.
    lazymatch goal with n : (Z * Z * Z * Z * Z)%type |- _ => destruct n as [[[[? ?] ?] ?] ?] end.
    unfold ret in H. by simplify_eq.
Qed.

End effects.

(** ** Starting up while the threads run *)

(** Kinds of action. *)
Definition server (a : Action) : bool := match a with StartServer _ _ _ => true | _ => false end.
Definition gossip_set (a : Action) : bool := match a with SetGossipThread => true | _ => false end.
Definition gauge (a : Action) : bool := match a with RegisterGauge => true | _ => false end.
Definition gossiping (a : Action) : bool := match a with StartGossip => true | _ => false end.
Definition delivering (a : Action) : bool := match a with StartHandoff => true | _ => false end.
Definition handoff (a : Action) : bool := match a with RegisterHandoff => true | _ => false end.
Definition hints (a : Action) : bool := match a with SetHintStore => true | _ => false end.
Definition live (a : Action) : bool := match a with SetLiveness => true | _ => false end.

(** On every prefix with a [g] there is an [f]. *)
Definition precedes (f g : Action → bool) (l : list Action) : Prop :=
  ∀ l1 l2, l = l1 ++ l2 → existsb g l1 = true → existsb f l1 = true.

Lemma precedes_intro f g x a y : existsb g x = false → f a = true → precedes f g (x ++ a :: y).
Proof.
  intros Hx Hf l1 l2 He Hg. destruct (app_eq_inv _ _ _ _ He) as [(k & -> & Hk)|(k & -> & Hk)].
  - by rewrite existsb_app, Hg in Hx.
  - rewrite existsb_app in Hg |- *. rewrite Hx in Hg. destruct k as [|a' k]; [done|]. injection Hk as <- _.
    cbn. rewrite Hf. by rewrite orb_true_r.
Qed.

Lemma existsb_effects f l : (∀ a, is_log a = true → f a = false) → existsb f (effects l) = existsb f l.
Proof.
  intros Hf. induction l as [|a l IH]; [done|]. unfold effects. rewrite filter_cons. fold (effects l).
  case_decide as Ha; cbn; rewrite IH; [done|]. rewrite (Hf a); [done|]. by destruct (is_log a).
Qed.

Lemma precedes_effects f g l :
  (∀ a, is_log a = true → f a = false) → (∀ a, is_log a = true → g a = false) → precedes f g (effects l) → precedes f g l.
Proof.
  intros Hf Hg Hp l1 l2 -> Hin. rewrite <- (existsb_effects f) by done. eapply Hp; [apply effects_app|].
  by rewrite existsb_effects.
Qed.

Record Up := mkUp {
  up_todo : list Action;          (* what [main] has still to do *)
  up_process : Process;
  up_serving : bool;              (* requests are served *)
  up_gossip_set : bool;           (* ... and gossip messages *)
  up_gossiping : bool;            (* the gossip thread runs *)
  up_delivering : bool;           (* the handoff thread runs *)
  up_hints : bool;                (* the coordinator has the hint store *)
  up_live : bool;                 (* ... and the liveness check *)
}.

Definition begin (l : list Action) (c : Config) (max : nat) : Up :=
  mkUp l (Process.start c max) false false false false false false.

(** [main] takes its next action. *)
Definition perform (a : Action) (rest : list Action) (u : Up) : Up :=
  let '(mkUp _ p s g r d h v) := u in
  match a with
  | StartServer _ _ _ => mkUp rest p true g r d h v
  | SetGossipThread => mkUp rest p s true r d h v
  | SetGauge => mkUp rest (set_gauge p) s g r d h v
  | RegisterGauge => mkUp rest (register_gauge p) s g r d h v
  | StartGossip => mkUp rest p s g true d h v
  | StartHandoff => mkUp rest p s g r true h v
  | RegisterHandoff => mkUp rest (register_handoff p) s g r d h v
  | SetHintStore => mkUp rest p s g r d true v
  | SetLiveness => mkUp rest p s g r d h true
  | _ => mkUp rest p s g r d h v
  end.

Definition with_process (p : Process) (u : Up) : Up :=
  mkUp (up_todo u) p (up_serving u) (up_gossip_set u) (up_gossiping u) (up_delivering u) (up_hints u) (up_live u).

(** Who can change the membership: [main] while it joins, a served message, the
    gossip thread. *)
Definition may_call (u : Up) : Prop :=
  (∃ seeds rest, up_todo u = JoinSeeds seeds :: rest) ∨
  up_serving u = true ∧ up_gossip_set u = true ∨ up_gossiping u = true.

Inductive bstep : Up → Up → Prop :=
| b_main a rest u : up_todo u = a :: rest → bstep u (perform a rest u)
| b_call fired s u : may_call u → GossipThread.call (p_swim (up_process u)) fired s →
    bstep u (with_process (with_swim s (foldl fire (up_process u) fired)) u)
| b_hint now t key v u : up_serving u = true → up_hints u = true → up_live u = true →
    bstep u (with_process (put_hint now t key v (accept t key v (up_process u))) u)
| b_handoff p u : up_delivering u = true → hstep (up_process u) p → bstep u (with_process p u).

Lemma fire_callbacks fired p :
  p_gauge_cb (foldl fire p fired) = p_gauge_cb p ∧ p_handoff_cb (foldl fire p fired) = p_handoff_cb p.
Proof.
  revert p. induction fired as [|c fired IH]; intros p; [done|]. cbn. destruct (IH (fire p c)) as [-> ->].
  destruct p as [a b m d e]. unfold fire, handoff_cb, gauge_cb, ring_cb. cbn. destruct d, e, c as [n []]; done.
Qed.

Lemma hstep_callbacks p q : hstep p q → p_gauge_cb q = p_gauge_cb p ∧ p_handoff_cb q = p_handoff_cb p.
Proof. intros [r|n rest r|n h hs r|now n h hs r|n r|now r]; by destruct r. Qed.

(** What is on is what has been done. *)
Definition up_ok (l : list Action) (c : Config) (max : nat) (u : Up) : Prop :=
  rtc pstep (Process.start c max) (up_process u) ∧
  ∃ done, l = done ++ up_todo u ∧
    up_serving u = existsb server done ∧ up_gossip_set u = existsb gossip_set done ∧
    up_gossiping u = existsb gossiping done ∧ up_delivering u = existsb delivering done ∧
    up_hints u = existsb hints done ∧ up_live u = existsb live done ∧
    p_gauge_cb (up_process u) = existsb gauge done ∧ p_handoff_cb (up_process u) = existsb handoff done.

Lemma up_ok_process l c max u p :
  up_ok l c max u → pstep (up_process u) p →
  p_gauge_cb p = p_gauge_cb (up_process u) → p_handoff_cb p = p_handoff_cb (up_process u) → up_ok l c max (with_process p u).
Proof.
  intros [Hr (done & Hl & Hs)] Hp Hg Hh. split; [by eapply rtc_r|]. exists done. split; [done|]. cbn. by rewrite Hg, Hh.
Qed.

Lemma up_ok_main l c max a rest u : up_todo u = a :: rest → up_ok l c max u → up_ok l c max (perform a rest u).
Proof.
  destruct u as [t p s g r d h v]. cbn. intros -> [Hr (done & Hl & Hs)]. cbn in *.
  assert (∀ q, (q = p ∨ pstep p q) → rtc pstep (Process.start c max) q) as Hq.
  { intros q [->|Hq]; [done|by eapply rtc_r]. }
  split; [destruct a; cbn; apply Hq; first [by left|right; constructor]|].
  exists (done ++ [a]). split; [destruct a; cbn; by rewrite <- app_assoc|].
  rewrite !existsb_app. destruct Hs as (-> & -> & -> & -> & -> & -> & Hg & Hh).
  destruct p; cbn in Hg, Hh; subst; destruct a; cbn; by rewrite ?orb_true_r, ?orb_false_r.
Qed.

Lemma up_ok_step l c max u u' : precedes handoff hints l → bstep u u' → up_ok l c max u → up_ok l c max u'.
Proof.
  intros Hord [a rest v Ht|fired s v Hm Hc|now t key x v Hs Hh Hl|p v Hd Hp] Hok.
  - by apply up_ok_main.
  - apply up_ok_process; [done|by apply p_call| |]; destruct (fire_callbacks fired (up_process v)) as [H1 H2];
      by destruct (foldl fire (up_process v) fired).
  - assert (p_handoff_cb (up_process v) = true) as Hcb.
    { destruct Hok as [_ (done & -> & _ & _ & _ & _ & Hhd & _ & _ & ->)]. eapply Hord; [done|]. by rewrite <- Hhd. }
    apply up_ok_process; [done|by apply p_hint|by destruct (up_process v)..].
  - destruct (hstep_callbacks _ _ Hp). by apply up_ok_process; [|apply p_handoff|..].
Qed.

Lemma fire_accepted fired p : l_accepted (foldl fire p fired) = l_accepted p.
Proof.
  revert p. induction fired as [|c fired IH]; intros p; [done|]. cbn. rewrite IH.
  destruct p as [a b m d e]. unfold fire, handoff_cb, gauge_cb, ring_cb. cbn. destruct d, e, c as [n []]; done.
Qed.

(** Hints are accepted only once their target is watched. *)
Lemma accepted_is_watched c max p :
  rtc pstep (Process.start c max) p → l_accepted p ≠ [] → p_handoff_cb p = true.
Proof.
  revert p. refine (rtc_ind_r _ _ _ _); [done|]. intros p q _ Hpq IH.
  destruct Hpq as [p fired s Hc|p|p|p|now t key v p Hcb|p q Hs]; [|by destruct p..|].
  - destruct (fire_callbacks fired p) as [_ Hcb]. pose proof (fire_accepted fired p) as Ha.
    destruct (foldl fire p fired). cbn in *. by rewrite Ha, Hcb.
  - destruct (hstep_callbacks _ _ Hs) as [_ ->]. destruct Hs as [r|n rest r|n h hs r|t n h hs r|n r|t r]; by destruct r.
Qed.

Section startup.
Context (have_rocksdb have_prometheus : bool) (db_opens exposer_binds : string → bool).
Context (env : Env) (l : list Action) (c : Config).
Context (Hmain : main have_rocksdb have_prometheus db_opens exposer_binds env = (l, inr c)).

Lemma handoff_before_hints : precedes handoff hints l.
Proof using Hmain.
  apply main_effects in Hmain as (m & d & He). apply precedes_effects; [by intros []..|]. rewrite He. unfold program, joins.
  destruct (c_seeds c) as [|x xs].
  - by apply (precedes_intro _ _ [_; _; _; _; _; _; _; _; _; _; _; _; _; _; _; _]).
  - by apply (precedes_intro _ _ [_; _; _; _; _; _; _; _; _; _; _; _; _; _; _; _; _]).
Qed.

(** Every kind of action that [program] has is done when [main] is. *)
Lemma done_at_end f :
  (∀ a, is_log a = true → f a = false) → (∀ m d, existsb f (program c m d) = true) → existsb f l = true.
Proof using Hmain.
  intros Hf Hp. apply main_effects in Hmain as (m & d & He). rewrite <- (existsb_effects f), He by done. apply Hp.
Qed.

Lemma boot_begin_ok max : up_ok l c max (begin l c max).
Proof. split; [by apply rtc_refl|]. by exists []. Qed.

(** C19: Starting up is safe at every moment.  Whatever the server, gossip and handoff
    threads do while [main] is still connecting the components, the process is in a
    state that the running process reaches; the coordinator takes on no hint before
    the callback that sees recoveries and departures is registered, so the hints of a
    starting node are accounted for like any other; and when [main] is done the
    server serves, the threads run and every callback is in place. *)
Theorem startup_refines_process max u :
  rtc bstep (begin l c max) u →
  rtc pstep (Process.start c max) (up_process u) ∧
  (up_hints u = true ∨ l_accepted (up_process u) ≠ [] → p_handoff_cb (up_process u) = true) ∧
  (up_todo u = [] →
     up_serving u = true ∧ up_gossip_set u = true ∧ up_gossiping u = true ∧ up_delivering u = true ∧
     up_hints u = true ∧ up_live u = true ∧ p_gauge_cb (up_process u) = true ∧ p_handoff_cb (up_process u) = true).
Proof using Hmain.
  intros Hu. assert (up_ok l c max u) as Hok.
  { revert u Hu. refine (rtc_ind_r _ _ _ _); [apply boot_begin_ok|]. intros v w _ Hvw IH.
    by eapply up_ok_step; [apply handoff_before_hints| |]. }
  destruct Hok as [Hr (done & Hl & -> & -> & -> & -> & Hh & -> & -> & Hcb)]. rewrite Hh.
  split; [done|]. split.
  - intros [Hd|Ha]; [|by eapply accepted_is_watched]. rewrite Hcb. by eapply handoff_before_hints.
  - intros Ht. rewrite Ht, app_nil_r in Hl. subst done. rewrite Hcb.
    repeat split; (apply done_at_end; [by intros []|]; intros; unfold program, joins; by destruct (c_seeds c)).
Qed.

End startup.

Module BootExample.
Import Swim GossipThread.

Definition env : Env := env_of [("NODE_ID", "node1"); ("NODE_PORT", "5001"); ("VNODES", "2")].
Definition actions : list Action := Eval vm_compute in (main true true (λ _, true) (λ _, true) env).1.

Lemma main_env : main true true (λ _, true) (λ _, true) env = (actions, inr small_config).
Proof. vm_refl. Qed.

(** [main] on its own for [n] actions. *)
Fixpoint advance (n : nat) (u : Up) : Up :=
  match n, up_todo u with S n, a :: rest => advance n (perform a rest u) | _, _ => u end.

Lemma advance_run n u : rtc bstep u (advance n u).
Proof.
  revert u. induction n as [|n IH]; intros u; [apply rtc_refl|]. cbn. destruct (up_todo u) as [|a rest] eqn:E; [apply rtc_refl|].
  eapply rtc_l; [by apply (b_main a rest)|apply IH].
Qed.

(** A join is served right after the gauge is first set. *)
Definition u1 : Up := Eval vm_compute in advance 15 (begin actions small_config 10).
Definition joined : Swim * list Change := Eval vm_compute in (applyEvent 0 alive2 (p_swim (up_process u1))).1.
Definition u2 : Up := Eval vm_compute in with_process (after_call (up_process u1) joined) u1.
Definition u3 : Up := Eval vm_compute in advance 30 u2.

Lemma u3_run : rtc bstep (begin actions small_config 10) u3.
Proof.
  etrans; [apply (advance_run 15)|]. change (advance 15 _) with u1. eapply (rtc_l _ _ u2); [|apply (advance_run 30)].
  refine (b_call joined.2 joined.1 u1 _ _); [right; left; split; reflexivity|]. apply (call_event 0 alive2); vm_decide.
Qed.

Lemma startup_refines_process_witness :
  up_todo u3 = [] ∧ rtc pstep (Process.start small_config 10) (up_process u3) ∧ p_handoff_cb (up_process u3) = true.
Proof.
  destruct (startup_refines_process true true (λ _, true) (λ _, true) env actions small_config main_env 10 u3 u3_run)
    as (H1 & _ & H3).
  assert (up_todo u3 = []) as Ht by reflexivity. split; [exact Ht|]. split; [exact H1|]. apply (H3 Ht).
Defined.

(** An id with a separator of the wire formats. *)
Definition bad_env : Env := env_of [("NODE_ID", "node|1"); ("NODE_PORT", "5001")].

Lemma unusable_identity_stays_silent_witness :
  effects (main true true (λ _, true) (λ _, true) bad_env).1 = [] ∧
  (main true true (λ _, true) (λ _, true) bad_env).2 = inl (ExitCode 1).
Proof. exact (proj1 (unusable_identity_stays_silent true true (λ _, true) (λ _, true) bad_env) eq_refl). Defined.

(** Registering the gauge's callback and giving the gauge its first value are two
    steps, and the server is already serving gossip: the join between them is
    missed, and the gauge stays behind the ring until the next change. *)
Theorem gauge_can_miss_a_join :
  rtc bstep (begin actions small_config 10) u3 ∧ up_todo u3 = [] ∧
  Router.physicalCount (p_router (up_process u3)) = 2 ∧ Metrics.ringNodesCount (p_metrics (up_process u3)) = 1%Z.
Proof. split; [exact u3_run|]. repeat split; vm_compute; reflexivity. Qed.

End BootExample.
