(* ===== verification/Framing.v ===== *)
(** * Framing and the connection loop (src/net/framing.h, src/net/framing.cpp,
      TCPServer::handleConnection of src/net/tcp_server.cpp)

    A frame is the decimal length of the payload, a newline and the payload.
    [read] and [write] may move fewer bytes than asked for, be interrupted or
    fail; what one system call does is an [IO], and a socket is the schedule of
    its calls with the bytes that have arrived.  A loop that runs out of schedule
    has not returned yet: it is blocked in the next call.

    The theorems: whatever the schedule, what [recvFramed] accepts is exactly one
    frame of the stream and no byte more; it returns what [sendFramed] wrote once
    the bytes have arrived; and a connection hands every frame to the node once,
    in order, and closes. *)
From S2P Require Import Prelude.
From Stdlib Require Import Ascii String ZArith Lia.
From stdpp Require Import base list strings numbers.

Module framing.

Definition kMaxFrame : Z := 16 * 1024 * 1024.
Definition newline : ascii := "010".

(** One system call: it moves at most [n + 1] bytes, is interrupted, or fails.
    A read that moves and finds no byte left is the end of the stream. *)
Inductive IO := Moves (n : nat) | Interrupted | Broken.

#[global] Instance IO_eq_dec : EqDecision IO.
Proof. solve_decision. Defined.

(** The bytes moved by a call for at most [len] bytes. *)
Definition chunk (n len : nat) (s : string) : string := str_take (Nat.min (S n) len) s.

(** ** Sending *)

(** [None]: still writing.  Otherwise the verdict and the bytes that went out. *)
Fixpoint writeAll (evs : list IO) (out data : string) : option (bool * string * list IO) :=
  match data with
  | EmptyString => Some (true, out, evs)
  | _ =>
      match evs with
      | [] => None
      | Interrupted :: evs => writeAll evs out data
      | Broken :: evs => Some (false, out, evs)
      | Moves n :: evs =>
          let c := chunk n (String.length data) data in
          writeAll evs (out +:+ c) (str_drop (String.length c) data)
      end
  end.

Definition header (payload : string) : string :=
  to_string (Z.of_nat (String.length payload)) +:+ String newline EmptyString.

Definition sendFramed (evs : list IO) (out payload : string) : option (bool * string * list IO) :=
  match writeAll evs out (header payload) with
  | None => None
  | Some (false, out, evs) => Some (false, out, evs)
  | Some (true, out, evs) => writeAll evs out payload
  end.

(** ** Receiving *)

(** [None]: still reading.  Otherwise what was read ([None] for [false]), the
    schedule left and the bytes left. *)
Abbreviation Recv := (option (option string * list IO * string)).

Fixpoint readAll (evs : list IO) (input data : string) (len : nat) : Recv :=
  match len with
  | O => Some (Some data, evs, input)
  | _ =>
      match evs with
      | [] => None
      | Interrupted :: evs => readAll evs input data len
      | Broken :: evs => Some (None, evs, input)
      | Moves n :: evs =>
          let c := chunk n len input in
          if str_empty c then Some (None, evs, input)
          else readAll evs (str_drop (String.length c) input) (data +:+ c) (len - String.length c)
      end
  end.

Fixpoint readHeader (evs : list IO) (input lenStr : string) : Recv :=
  match evs with
  | [] => None
  | Interrupted :: evs => readHeader evs input lenStr
  | Broken :: evs => Some (None, evs, input)
  | Moves _ :: evs =>
      match input with
      | EmptyString => Some (None, evs, input)
      | String c input =>
          if Ascii.eqb c newline then Some (Some lenStr, evs, input)
          else if negb (is_digit c) then Some (None, evs, input)
          else
            let lenStr := lenStr +:+ String c EmptyString in
            if bool_decide (20 < String.length lenStr) then Some (None, evs, input)
            else readHeader evs input lenStr
      end
  end.

(** [std::strtoull] on a string of digits saturates. *)
Definition strtoull (digits : string) : Z := Z.min U64_MAX (dec_value digits 0).

Definition recvFramed (evs : list IO) (input : string) : Recv :=
  match readHeader evs input "" with
  | None => None
  | Some (None, evs, input) => Some (None, evs, input)
  | Some (Some lenStr, evs, input) =>
      if str_empty lenStr then Some (None, evs, input)
      else
        let len := strtoull lenStr in
        if (kMaxFrame <? len)%Z then Some (None, evs, input)
        else if (len =? 0)%Z then Some (Some "", evs, input)
        else readAll evs input "" (Z.to_nat len)
  end.

(** ** One connection *)

(** [handleConnection]: [handle] is [Node::handleRequest].  [None]: the
    connection is still open.  Every received frame consumes schedule, so its
    length is fuel enough. *)
Section connection.
Context {A : Type} (handle : string → A → A).

Fixpoint serve_loop (fuel : nat) (evs : list IO) (input : string) (st : A) : option A :=
  match fuel with
  | O => None
  | S fuel =>
      match recvFramed evs input with
      | None => None
      | Some (None, _, _) => Some st
      | Some (Some payload, evs, input) => serve_loop fuel evs input (handle payload st)
      end
  end.

Definition handleConnection (evs : list IO) (input : string) (st : A) : option A :=
  serve_loop (S (length evs)) evs input st.
End connection.

(** ** Schedules *)

Definition is_move (e : IO) : Prop := match e with Moves _ => True | _ => False end.
#[global] Instance is_move_dec e : Decision (is_move e).
Proof. destruct e; apply _. Defined.

Definition moves (evs : list IO) : nat := length (filter is_move evs).
Definition calm (evs : list IO) : Prop := Broken ∉ evs.
#[global] Instance calm_dec evs : Decision (calm evs).
Proof. unfold calm. apply _. Defined.

Lemma calm_cons e evs : calm (e :: evs) ↔ e ≠ Broken ∧ calm evs.
Proof. unfold calm. rewrite not_elem_of_cons. naive_solver. Qed.

Lemma str_take_drop k s : str_take k s +:+ str_drop k s = s.
Proof.
  revert s. induction k as [|k IH]; intros s; [by destruct s|]. destruct s as [|c s]; [done|].
  cbn. rewrite str_app_cons. by f_equal.
Qed.

Lemma str_length_take k s : String.length (str_take k s) = Nat.min k (String.length s).
Proof. revert s. induction k as [|k IH]; intros [|c s]; cbn; auto. Qed.

Lemma str_take_add k m s : str_take (k + m) s = str_take k s +:+ str_take m (str_drop k s).
Proof.
  revert s. induction k as [|k IH]; intros s; cbn [plus]; [by rewrite str_drop_0; destruct s|].
  destruct s as [|c s]; [by destruct m|]. cbn. rewrite str_app_cons. by f_equal.
Qed.

Lemma chunk_split n len s : chunk n len s +:+ str_drop (String.length (chunk n len s)) s = s.
Proof.
  unfold chunk. rewrite str_length_take. set (k := Nat.min (S n) len).
  destruct (Nat.le_gt_cases k (String.length s)); [by rewrite Nat.min_l, str_take_drop|].
  assert (∀ j, String.length s ≤ j → str_drop j s = "") as Hd.
  { intros j Hj. pose proof (str_length_drop j s) as Hl. destruct (str_drop j s); [done|cbn in Hl; lia]. }
  rewrite Nat.min_r, (Hd (String.length s)) by lia.
  pose proof (str_take_drop k s) as Hk. by rewrite (Hd k) in Hk by lia.
Qed.

(** ** Loops *)

Lemma dec_value_nonneg d acc : str_all is_digit d = true → (0 ≤ acc)%Z → (0 ≤ dec_value d acc)%Z.
Proof.
  revert acc. induction d as [|c d IH]; intros acc; [done|]. cbn.
  intros [Hc Hd]%andb_true_iff Ha. apply IH; [done|].
  unfold is_digit, digit_val in *. apply andb_true_iff in Hc as [H1 _]. rewrite Z.leb_le in H1. lia.
Qed.

Lemma writeAll_sound evs out data out' evs' :
  writeAll evs out data = Some (true, out', evs') → out' = out +:+ data.
Proof.
  revert out data. induction evs as [|e evs IH]; intros out data; destruct data as [|c data]; cbn [writeAll].
  1, 3: intros [= <- <-]; by rewrite str_app_nil_r.
  - done.
  - destruct e; [|apply IH|done]. intros ->%IH. rewrite str_app_assoc. f_equal. apply (chunk_split n _ (String c data)).
Qed.

Lemma sendFramed_bytes evs out payload out' evs' :
  sendFramed evs out payload = Some (true, out', evs') → out' = out +:+ header payload +:+ payload.
Proof.
  unfold sendFramed. destruct (writeAll evs out (header payload)) as [[[[] o] e]|] eqn:E; try done.
  intros ->%writeAll_sound. apply writeAll_sound in E as ->. by rewrite str_app_assoc.
Qed.

Lemma readAll_sound evs input data len out evs' rest :
  readAll evs input data len = Some (Some out, evs', rest) →
  ∃ body, out = data +:+ body ∧ String.length body = len ∧ input = body +:+ rest ∧ length evs' ≤ length evs.
Proof.
  revert input data len. induction evs as [|e evs IH]; intros input data len; destruct len as [|len]; cbn [readAll].
  1, 3: intros [= <- <- <-]; exists ""; by rewrite str_app_nil_r.
  - done.
  - destruct e as [n| |]; [|intros (b & ?)%IH; exists b; cbn [length]; naive_solver lia|done].
    set (c := chunk n (S len) input). destruct (str_empty c); [done|].
    intros (b & -> & Hlen & Hin & Hl)%IH. exists (c +:+ b). split_and!; [by rewrite str_app_assoc| | |cbn [length]; lia].
    + rewrite str_length_app, Hlen. assert (String.length c ≤ S len); [|lia].
      unfold c, chunk. rewrite str_length_take. lia.
    + rewrite str_app_assoc, <- Hin. symmetry. apply chunk_split.
Qed.

Lemma readHeader_sound evs input lenStr h evs' rest :
  readHeader evs input lenStr = Some (Some h, evs', rest) → String.length lenStr ≤ 20 →
  ∃ d, h = lenStr +:+ d ∧ str_all is_digit d = true ∧ input = d +:+ String newline rest ∧
       String.length h ≤ 20 ∧ length evs' < length evs.
Proof.
  revert input lenStr. induction evs as [|e evs IH]; intros input lenStr; cbn; [done|].
  destruct e as [n| |]; [|intros Hr Hl; destruct (IH _ _ Hr Hl) as (d & ?); exists d; naive_solver lia|done].
  destruct input as [|c input]; [done|].
  destruct (Ascii.eqb_spec c newline) as [->|]; [intros [= <- <- <-] ?; exists ""; rewrite str_app_nil_r; split_and!; [done..|lia]|].
  destruct (is_digit c) eqn:Hc; [|done]. cbn [negb]. case_bool_decide as Hlen; [done|].
  intros Hr _. destruct (IH _ _ Hr) as (d & -> & Hd & -> & Hl & He); [lia|].
  exists (String c d). split_and!; [by rewrite str_app_assoc|cbn; by rewrite Hc|done|done|lia].
Qed.

Lemma readAll_calm evs input data len :
  calm evs → len ≤ moves evs → len ≤ String.length input →
  ∃ evs', readAll evs input data len = Some (Some (data +:+ str_take len input), evs', str_drop len input) ∧
          calm evs' ∧ moves evs ≤ moves evs' + len.
Proof.
  revert input data len. induction evs as [|e evs IH]; intros input data [|len] Hc Hm Hi; cbn [readAll].
  1, 3: eexists; rewrite str_drop_0; split_and!; [|done|lia]; destruct input; cbn; by rewrite str_app_nil_r.
  { cbn in Hm. lia. }
  apply calm_cons in Hc as [Hne Hc]. destruct e as [n| |]; [|by apply IH|done].
  set (k := Nat.min (S n) (S len)). assert (String.length (chunk n (S len) input) = k) as Hk.
  { unfold chunk. rewrite str_length_take. lia. }
  rewrite str_empty_false by (intros E; rewrite E in Hk; cbn in Hk; lia). rewrite Hk.
  unfold moves in *. rewrite filter_cons_True in Hm |- * by done. cbn [length] in *.
  destruct (IH (str_drop k input) (data +:+ chunk n (S len) input) (S len - k)) as (evs' & -> & ? & ?);
    [done|lia|rewrite str_length_drop; lia|].
  exists evs'. split_and!; [|done|lia].
  rewrite str_drop_drop. replace (k + (S len - k)) with (S len) by lia. do 4 f_equal.
  rewrite str_app_assoc. f_equal. unfold chunk. fold k.
  rewrite <- str_take_add. f_equal. lia.
Qed.

Lemma readHeader_calm evs d rest lenStr :
  calm evs → String.length d < moves evs → str_all is_digit d = true →
  String.length lenStr + String.length d ≤ 20 →
  ∃ evs', readHeader evs (d +:+ String newline rest) lenStr = Some (Some (lenStr +:+ d), evs', rest) ∧
          calm evs' ∧ moves evs ≤ moves evs' + String.length d + 1.
Proof.
  revert d lenStr. induction evs as [|e evs IH]; intros d lenStr Hc Hm Hd Hl; [cbn in Hm; lia|].
  apply calm_cons in Hc as [Hne Hc]. destruct e as [n| |]; [|by apply IH|done].
  unfold moves in *. rewrite filter_cons_True in Hm |- * by done. cbn [length] in *.
  destruct d as [|c d].
  { cbn. exists evs. rewrite str_app_nil_r. split_and!; [done|done|lia]. }
  cbn in Hd. apply andb_true_iff in Hd as [Hc' Hd]. cbn [String.length] in *.
  rewrite str_app_cons. cbn [readHeader].
  destruct (Ascii.eqb_spec c newline) as [->|_]; [discriminate Hc'|]. rewrite Hc'. cbn [negb].
  rewrite bool_decide_eq_false_2 by (rewrite str_length_app; cbn; lia).
  destruct (IH d (lenStr +:+ String c "")) as (evs' & -> & ? & ?);
    [done|lia|done|rewrite str_length_app; cbn; lia|].
  exists evs'. split_and!; [by rewrite str_app_assoc|done|lia].
Qed.

(** ** Frames *)

Definition frame (payload : string) : string := header payload +:+ payload.
Definition small (payload : string) : Prop := (Z.of_nat (String.length payload) ≤ kMaxFrame)%Z.

#[global] Instance small_dec p : Decision (small p).
Proof. unfold small. apply _. Defined.

Lemma small_u64 p : small p → is_u64 (Z.of_nat (String.length p)).
Proof. unfold small, kMaxFrame, is_u64, U64_MAX. lia. Qed.

(** Any header that announces the payload's length. *)
Lemma recv_calm evs d p rest :
  small p → calm evs → str_all is_digit d = true → 1 ≤ String.length d ≤ 20 →
  dec_value d 0 = Z.of_nat (String.length p) → String.length d + 1 + String.length p ≤ moves evs →
  ∃ evs', recvFramed evs (d +:+ String newline (p +:+ rest)) = Some (Some p, evs', rest) ∧
          calm evs' ∧ moves evs ≤ moves evs' + (String.length d + 1 + String.length p).
Proof.
  intros Hp Hc Hd Hl Hv Hm. unfold recvFramed.
  destruct (readHeader_calm evs d (p +:+ rest) "") as (evs1 & -> & Hc1 & Hm1);
    [done|lia|done|cbn [String.length]; lia|]. rewrite str_app_empty_l.
  rewrite str_empty_false by (intros ->; cbn in Hl; lia). unfold strtoull. rewrite Hv.
  rewrite Z.min_r by apply (small_u64 p Hp).
  destruct (Z.ltb_spec kMaxFrame (Z.of_nat (String.length p))); [unfold small in Hp; lia|].
  destruct (Z.eqb_spec (Z.of_nat (String.length p)) 0) as [Hz|Hz].
  - assert (p = "") as -> by (destruct p; [done|exfalso; revert Hz; cbn [String.length]; lia]).
    exists evs1. split_and!; [done|done|cbn [String.length]; lia].
  - destruct (readAll_calm evs1 (p +:+ rest) "" (String.length p)) as (evs2 & Hr & ? & ?);
      [done|lia|rewrite str_length_app; lia|]. rewrite Nat2Z.id, Hr.
    exists evs2. rewrite str_take_app, str_drop_app, str_app_empty_l. split_and!; [done|done|lia].
Qed.

Lemma recv_frame evs p rest :
  small p → calm evs → String.length (frame p) ≤ moves evs →
  ∃ evs', recvFramed evs (frame p +:+ rest) = Some (Some p, evs', rest) ∧
          calm evs' ∧ moves evs ≤ moves evs' + String.length (frame p).
Proof.
  intros Hp Hc Hm. unfold frame, header in *. set (n := Z.of_nat (String.length p)) in *.
  destruct (to_string_ok n (small_u64 p Hp)) as (Hd & Hne & Hv & Hl).
  rewrite !str_length_app in Hm |- *. cbn [String.length] in *. rewrite !str_app_assoc, str_app_cons, str_app_empty_l.
  apply recv_calm; try done. destruct (to_string n); [done|cbn [String.length] in *; lia].
Qed.

Lemma frame_length p : 2 ≤ String.length (frame p) ∨ ¬ small p.
Proof.
  destruct (decide (small p)) as [Hp|]; [left|by right]. unfold frame, header. rewrite !str_length_app.
  destruct (to_string_ok _ (small_u64 p Hp)) as (_ & Hne & _). destruct (to_string _); [done|].
  cbn [String.length]. lia.
Qed.

Lemma recv_eof evs : calm evs → 0 < moves evs → ∃ evs', recvFramed evs "" = Some (None, evs', "").
Proof.
  unfold recvFramed. induction evs as [|e evs IH]; [cbn; lia|]. rewrite calm_cons. intros [Hne Hc] Hm.
  destruct e as [n| |]; [by exists evs|by apply IH|done].
Qed.

Definition wire (ps : list string) : string := foldr (λ p s, frame p +:+ s) "" ps.

Lemma serve_frames {A} (handle : string → A → A) ps fuel evs st :
  Forall small ps → calm evs → String.length (wire ps) < moves evs → length ps < fuel →
  serve_loop handle fuel evs (wire ps) st = Some (foldl (λ st p, handle p st) st ps).
Proof.
  intros Hps. revert fuel evs st. induction Hps as [|p ps Hp _ IH]; intros fuel evs st Hc Hm Hf;
    (destruct fuel as [|fuel]; [cbn in Hf; lia|]).
  - cbn [wire foldr serve_loop]. by destruct (recv_eof evs Hc) as [evs' ->]; [cbn in Hm; lia|].
  - cbn [wire foldr] in Hm |- *. rewrite str_length_app in Hm. cbn [serve_loop].
    destruct (recv_frame evs p (wire ps) Hp Hc) as (evs' & Hr & Hc' & Hm'); [lia|].
    unfold wire in Hr. rewrite Hr. cbn [foldl]. cbn [length] in Hf. apply IH; [done| |lia].
    unfold wire in *. lia.
Qed.

Lemma wire_length ps : Forall small ps → length ps ≤ String.length (wire ps).
Proof.
  induction 1 as [|p ps Hp _ IH]; [cbn; lia|]. cbn [wire foldr length]. rewrite str_length_app.
  unfold wire in *. destruct (frame_length p); [lia|done].
Qed.

(** The first newline ends the digits, and equal lengths split a string alike. *)
Lemma digits_newline_inj d d' r r' :
  str_all is_digit d = true → str_all is_digit d' = true →
  d +:+ String newline r = d' +:+ String newline r' → d' = d ∧ r = r'.
Proof.
  revert d'. induction d as [|c d IH]; intros [|c' d'] Hd Hd' E.
  - by injection E as ->.
  - injection E as <- _. discriminate Hd'.
  - injection E as -> _. discriminate Hd.
  - injection E as -> E. cbn [str_all] in Hd, Hd'. apply andb_true_iff in Hd as [_ Hd], Hd' as [_ Hd'].
    by destruct (IH d' Hd Hd' E) as [-> ->].
Qed.

Lemma str_app_inj_length a b r :
  a = b +:+ r → String.length a = String.length b → b = a ∧ r = "".
Proof.
  revert b. induction a as [|c a IH]; intros [|c' b] E Hl; try done; cbn in *.
  injection E as <- E. destruct (IH b E ltac:(lia)) as [-> ->]. done.
Qed.

(** What [recvFramed] accepts. *)
Lemma recv_sound evs input payload evs' rest :
  recvFramed evs input = Some (Some payload, evs', rest) →
  ∃ digits, input = digits +:+ String newline (payload +:+ rest) ∧
    str_all is_digit digits = true ∧ 1 ≤ String.length digits ≤ 20 ∧
    dec_value digits 0 = Z.of_nat (String.length payload) ∧ small payload.
Proof.
  unfold recvFramed. destruct (readHeader evs input "") as [[[[h|] e1] i1]|] eqn:Eh; try done.
  apply readHeader_sound in Eh as (d & Hh & Hd & -> & Hl & _); [|cbn; lia]. rewrite str_app_empty_l in Hh. subst h.
  destruct (str_empty d) eqn:Ed; [done|].
  assert (1 ≤ String.length d) as H1 by (destruct d; [discriminate Ed|cbn; lia]).
  destruct (Z.ltb_spec kMaxFrame (strtoull d)) as [|Hmax]; [done|].
  assert (strtoull d = dec_value d 0) as Hv by (unfold strtoull, kMaxFrame, U64_MAX in *; lia).
  assert (0 ≤ dec_value d 0)%Z as H0 by (by apply dec_value_nonneg).
  rewrite Hv in *. destruct (Z.eqb_spec (dec_value d 0) 0) as [Hz|Hz].
  - intros [= <- <- <-]. exists d. split_and!; [by rewrite str_app_empty_l|done|done|done|by cbn|by unfold small, kMaxFrame; cbn].
  - intros (b & Hb & Hlen & -> & _)%readAll_sound. rewrite str_app_empty_l in Hb. subst b.
    exists d. unfold small. rewrite Hlen, Z2Nat.id by done. done.
Qed.

(** A prefix of one frame is no frame, or that frame. *)
Lemma recv_prefix evs sent data payload evs' rest tail :
  is_u64 (Z.of_nat (String.length data)) → frame data = sent +:+ tail → recvFramed evs sent = Some (Some payload, evs', rest) →
  payload = data ∧ sent = frame data ∧ rest = "".
Proof.
  intros Hd Hsent (d & Hin & Hdig & _ & Hval & _)%recv_sound. subst sent. unfold frame, header in Hsent.
  destruct (to_string_ok _ Hd) as (Hd' & _ & Hv' & _).
  rewrite !str_app_assoc, !str_app_cons, str_app_empty_l in Hsent.
  apply digits_newline_inj in Hsent as [Hdd Hrest]; [|done..]. subst d. rewrite Hv' in Hval.
  rewrite str_app_assoc in Hrest. apply str_app_inj_length in Hrest as [-> Hnil]; [|lia].
  destruct rest; [|done]. rewrite str_app_nil_r. unfold frame, header. split_and!; [done| |done].
  by rewrite str_app_assoc.
Qed.

(** ** Theorems *)

(** What [recvFramed] accepts is one frame and nothing else.  Whatever the
    system calls do, when it returns a payload the stream began with one to
    twenty digits, a newline and exactly the announced number of bytes, within
    the limit, and exactly the bytes after the frame are left: a short stream, a
    bad header or an oversized length is never taken for a message. *)
Theorem recv_accepts_one_frame evs input payload evs' rest :
  recvFramed evs input = Some (Some payload, evs', rest) →
  ∃ digits, input = digits +:+ String newline (payload +:+ rest) ∧
    str_all is_digit digits = true ∧ 1 ≤ String.length digits ≤ 20 ∧
    dec_value digits 0 = Z.of_nat (String.length payload) ∧ small payload.
Proof. apply recv_sound. Qed.

(** Framing round trip.  When [sendFramed] has written a payload of at most
    16 MiB, in whatever pieces, [recvFramed] returns that payload once the bytes
    have arrived, in whatever pieces, and leaves what follows untouched. *)
Theorem framing_roundtrip wevs payload bytes wevs' evs rest :
  small payload → sendFramed wevs "" payload = Some (true, bytes, wevs') →
  calm evs → String.length bytes ≤ moves evs →
  ∃ evs', recvFramed evs (bytes +:+ rest) = Some (Some payload, evs', rest).
Proof.
  intros Hp Hs%sendFramed_bytes Hc Hm. rewrite str_app_empty_l in Hs. subst bytes.
  destruct (recv_frame evs payload rest) as (evs' & Hr & _); eauto.
Qed.

(** A connection serves every request once, in order, and ends.  On a stream
    of frames followed by the end of the stream, [handleConnection] returns and
    has handed the payloads to the node one by one in the order sent. *)
Theorem connection_serves_all {A} (handle : string → A → A) evs ps st :
  Forall small ps → calm evs → String.length (wire ps) < moves evs →
  handleConnection handle evs (wire ps) st = Some (foldl (λ st p, handle p st) st ps).
Proof.
  intros Hps Hc Hm. apply serve_frames; [done..|].
  pose proof (wire_length ps Hps). pose proof (length_filter is_move evs). unfold moves in Hm. lia.
Qed.

(** Two bytes at a time, with an interrupt. *)
Definition slow : list IO := Interrupted :: replicate 12 (Moves 1).

Lemma recv_accepts_one_frame_witness :
  ∃ digits, "5" +:+ String newline "hello2" = digits +:+ String newline ("hello" +:+ "2") ∧
    str_all is_digit digits = true ∧ 1 ≤ String.length digits ≤ 20 ∧
    dec_value digits 0 = 5%Z ∧ small "hello".
Proof.
  eapply (recv_accepts_one_frame slow ("5" +:+ String newline "hello2")). vm_compute. reflexivity.
Defined.

Lemma framing_roundtrip_witness :
  ∃ evs', recvFramed slow (("5" +:+ String newline "hello") +:+ "2") = Some (Some "hello", evs', "2").
Proof.
  eapply (framing_roundtrip slow "hello"); [vm_decide|vm_compute; reflexivity|vm_decide|vm_decide].
Defined.

Lemma connection_serves_all_witness :
  handleConnection (λ p l, l ++ [p]) slow (wire ["GET|k"; ""]) [] = Some ["GET|k"; ""].
Proof.
  apply (connection_serves_all (λ p l, l ++ [p]) slow ["GET|k"; ""]); vm_decide.
Defined.

(** A frame the sender does not refuse and no receiver accepts. *)
Lemma oversized_header evs rest :
  calm evs → 9 < moves evs → ∃ evs', recvFramed evs ("16777217" +:+ String newline rest) = Some (None, evs', rest).
Proof.
  intros Hc Hm. unfold recvFramed.
  destruct (readHeader_calm evs "16777217" rest "") as (evs' & -> & _); [done|cbn; lia|done|cbn; lia|].
  exists evs'. reflexivity.
Qed.

End framing.
