(* ===== verification/Pool.v ===== *)
(** * Connection pool (src/net/connection_pool.h, src/net/connection_pool.cpp,
      PooledReplicaClient::exchange of src/net/pooled_replica_client.cpp)

    The pool keeps idle descriptors per ["host:port"].  Each method holds the lock
    for its bookkeeping and closes or connects outside it, so each is one
    definition that returns the descriptors it closes; what [connect_] answers is
    an argument.

    The invariant is on the pool together with its callers: every open descriptor
    is idle in the pool under the peer it was dialled to, or held by exactly one
    caller, never both, and nothing is closed twice.  [exchange] keeps it and
    gives every descriptor back; its retry, however, is not always on a fresh
    connection. *)
From S2P Require Import Prelude Ring.
From Stdlib Require Import Ascii String ZArith Lia.
From stdpp Require Import base gmap list strings numbers.

Module ConnectionPool.

Record Idle := mkIdle { idle_fd : Z; returned_at : Z }.

Record ConnectionPool := mkPool {
  max_per_peer_ : nat;
  idle_ttl_ : Z;
  idle_ : gmap string (list Idle);
  stopping_ : bool;
  created_ : Z;       (* firings of [on_created_] *)
  reused_ : Z;        (* firings of [on_reused_] *)
  counters_ : bool;   (* the callbacks are set *)
}.

Definition new (max_per_peer : nat) (idle_ttl : Z) : ConnectionPool :=
  mkPool (if bool_decide (max_per_peer = 0) then 1 else max_per_peer) idle_ttl ∅ false 0 0 false.

Definition with_idle (m : gmap string (list Idle)) (p : ConnectionPool) : ConnectionPool :=
  mkPool (max_per_peer_ p) (idle_ttl_ p) m (stopping_ p) (created_ p) (reused_ p) (counters_ p).
Definition count_created (p : ConnectionPool) : ConnectionPool :=
  mkPool (max_per_peer_ p) (idle_ttl_ p) (idle_ p) (stopping_ p)
         (if counters_ p then created_ p + 1 else created_ p)%Z (reused_ p) (counters_ p).
Definition count_reused (p : ConnectionPool) : ConnectionPool :=
  mkPool (max_per_peer_ p) (idle_ttl_ p) (idle_ p) (stopping_ p) (created_ p)
         (if counters_ p then reused_ p + 1 else reused_ p)%Z (counters_ p).

Definition keyOf (host : string) (port : Z) : string := host +:+ ":" +:+ to_string port.

(** [it->second.back()] with [pop_back]. *)
Definition pop_idle (key : string) (p : ConnectionPool) : option (Z * ConnectionPool) :=
  match idle_ p !! key with
  | None => None
  | Some conns =>
      match list.last conns with
      | None => None
      | Some c => Some (idle_fd c, with_idle (<[key := take (length conns - 1) conns]> (idle_ p)) p)
      end
  end.

(** [connect_fd] is what [connect_] answers if it is called. *)
Definition checkout (host : string) (port : Z) (connect_fd : Z) (p : ConnectionPool)
  : Z * ConnectionPool :=
  match pop_idle (keyOf host port) p with
  | Some (fd, p) => (fd, count_reused p)
  | None => (connect_fd, if (0 <=? connect_fd)%Z then count_created p else p)
  end.

Definition checkin (now : Z) (host : string) (port : Z) (fd : Z) (p : ConnectionPool)
  : list Z * ConnectionPool :=
  if (fd <? 0)%Z then ([], p)
  else if stopping_ p then ([fd], p)
  else
    let conns := default [] (idle_ p !! keyOf host port) in
    if bool_decide (max_per_peer_ p ≤ length conns)
    then ([fd], with_idle (<[keyOf host port := conns]> (idle_ p)) p)
    else ([], with_idle (<[keyOf host port := conns ++ [mkIdle fd now]]> (idle_ p)) p).

Definition discard (fd : Z) : list Z := if (fd <? 0)%Z then [] else [fd].

Definition expired (now : Z) (p : ConnectionPool) (c : Idle) : Prop := (idle_ttl_ p < now - returned_at c)%Z.
#[global] Instance expired_dec now p c : Decision (expired now p c).
Proof. unfold expired. apply _. Defined.

Definition reapExpired (now : Z) (p : ConnectionPool) : list Z * ConnectionPool :=
  (map_to_list (idle_ p) ≫= λ kv, idle_fd <$> filter (expired now p) kv.2,
   with_idle ((λ conns, filter (λ c, ¬ expired now p c) conns) <$> idle_ p) p).

(** The destructor. *)
Definition shutdown (p : ConnectionPool) : list Z * ConnectionPool :=
  (map_to_list (idle_ p) ≫= λ kv, idle_fd <$> kv.2,
   mkPool (max_per_peer_ p) (idle_ttl_ p) ((λ _, []) <$> idle_ p) true
          (created_ p) (reused_ p) (counters_ p)).

Definition setCounters (p : ConnectionPool) : ConnectionPool :=
  mkPool (max_per_peer_ p) (idle_ttl_ p) (idle_ p) (stopping_ p) (created_ p) (reused_ p) true.

Definition idleCount (p : ConnectionPool) : nat :=
  foldl (λ n kv, n + length kv.2) 0 (map_to_list (idle_ p)).

(** ** The pool and its callers *)

(** Descriptors with the peer they were dialled to. *)
Abbreviation Conn := (string * Z)%type.

Record Sys := mkSys {
  pool : ConnectionPool;
  held : list Conn;
  open : list Conn;
}.

(** The operating system's table after [close] on each of [fds]. *)
Definition close_all (fds : list Z) (l : list Conn) : list Conn := filter (λ c, c.2 ∉ fds) l.

(** One call at [now], labelled with the descriptors it closes.  A caller checks in or
    discards what it holds, under the peer it asked for; a successful [connect]
    returns a descriptor that is not open. *)
Inductive step (now : Z) : Sys → list Z → Sys → Prop :=
| s_checkout s h p fd fd' pl :
    ((0 ≤ fd)%Z → fd ∉ (open s).*2) → checkout h p fd (pool s) = (fd', pl) → (0 ≤ fd')%Z →
    step now s [] (mkSys pl ((keyOf h p, fd') :: held s)
                 (if bool_decide (pop_idle (keyOf h p) (pool s) = None)
                  then (keyOf h p, fd') :: open s else open s))
| s_refused s h p fd pl :
    checkout h p fd (pool s) = (fd, pl) → (fd < 0)%Z → step now s [] (mkSys pl (held s) (open s))
| s_checkin s h p fd fds pl rest :
    held s ≡ₚ (keyOf h p, fd) :: rest → checkin now h p fd (pool s) = (fds, pl) →
    step now s fds (mkSys pl rest (close_all fds (open s)))
| s_discard s k fd rest :
    held s ≡ₚ (k, fd) :: rest → step now s (discard fd) (mkSys (pool s) rest (close_all (discard fd) (open s)))
| s_reap s fds pl :
    reapExpired now (pool s) = (fds, pl) → step now s fds (mkSys pl (held s) (close_all fds (open s)))
| s_shutdown s fds pl :
    shutdown (pool s) = (fds, pl) → step now s fds (mkSys pl (held s) (close_all fds (open s)))
| s_counters s : step now s [] (mkSys (setCounters (pool s)) (held s) (open s)).

(** ** One exchange *)

(** One turn of the loop of [exchange]: [c] is what [connect_] would answer and
    [round_trip fd] the reply on [fd], [None] when it fails.  [Some] returns. *)
Definition attempt (now : Z) (peer : NodeInfo) (c : Z) (round_trip : Z → option string) (s : Sys)
  : option string * Sys :=
  let '(fd, pl) := checkout (host peer) (port peer) c (pool s) in
  let key := keyOf (host peer) (port peer) in
  if (fd <? 0)%Z then (Some "", mkSys pl (held s) (open s))
  else
    let o := if bool_decide (pop_idle key (pool s) = None) then (key, fd) :: open s else open s in
    match round_trip fd with
    | Some reply =>
        let '(fds, pl) := checkin now (host peer) (port peer) fd pl in
        (Some reply, mkSys pl (held s) (close_all fds o))
    | None => (None, mkSys pl (held s) (close_all (discard fd) o))
    end.

Definition exchange (now : Z) (peer : NodeInfo) (c1 c2 : Z) (round_trip : Z → option string) (s : Sys)
  : string * Sys :=
  match attempt now peer c1 round_trip s with
  | (Some reply, s) => (reply, s)
  | (None, s) =>
      match attempt now peer c2 round_trip s with
      | (Some reply, s) => (reply, s)
      | (None, s) => ("", s)
      end
  end.

Definition tag (k : string) (c : Idle) : Conn := (k, idle_fd c).
Definition idles (m : gmap string (list Idle)) : list Conn := map_to_list m ≫= λ kv, tag kv.1 <$> kv.2.

Record pool_ok (s : Sys) : Prop := {
  po_open : open s ≡ₚ idles (idle_ (pool s)) ++ held s;
  po_nodup : NoDup (open s).*2;
  po_fds : Forall (λ c, 0 ≤ c.2)%Z (open s);
  po_cap : map_Forall (λ _ conns, length conns ≤ max_per_peer_ (pool s)) (idle_ (pool s));
}.

(** ** Idle lists *)

Lemma idles_insert m k l : idles (<[k := l]> m) ≡ₚ (tag k <$> l) ++ idles (delete k m).
Proof.
  unfold idles. rewrite <- insert_delete_eq.
  rewrite (map_to_list_insert (delete k m)) by apply lookup_delete_eq. done.
Qed.

Lemma idles_split m k l : m !! k = Some l → idles m ≡ₚ (tag k <$> l) ++ idles (delete k m).
Proof. intros Hk. rewrite <- (insert_id m k l Hk) at 1. apply idles_insert. Qed.

Lemma idles_default m k : idles m ≡ₚ (tag k <$> default [] (m !! k)) ++ idles (delete k m).
Proof.
  destruct (m !! k) as [l|] eqn:E; cbn; [by apply idles_split|]. by rewrite delete_id.
Qed.

Lemma pop_idle_spec key p fd p' :
  pop_idle key p = Some (fd, p') →
  ∃ conns c, idle_ p !! key = Some (conns ++ [c]) ∧ fd = idle_fd c ∧ p' = with_idle (<[key := conns]> (idle_ p)) p.
Proof.
  unfold pop_idle. destruct (idle_ p !! key) as [l|]; [|done].
  destruct l as [|c conns _] using rev_ind; [done|]. rewrite last_snoc. intros [= <- <-].
  exists conns, c. split_and!; [done|done|]. rewrite length_app. cbn.
  replace (length conns + 1 - 1) with (length conns) by lia. by rewrite take_app_length.
Qed.

Lemma idles_reap now p (m : gmap string (list Idle)) :
  idles m ≡ₚ idles ((λ l, filter (λ c, ¬ expired now p c) l) <$> m) ++
             (map_to_list m ≫= λ kv, tag kv.1 <$> filter (expired now p) kv.2).
Proof.
  unfold idles. rewrite map_to_list_fmap. generalize (map_to_list m) as l.
  induction l as [|[k c] l IH]; [done|]. cbn. rewrite IH.
  assert (tag k <$> c ≡ₚ (tag k <$> filter (λ c, ¬ expired now p c) c) ++ (tag k <$> filter (expired now p) c)) as ->.
  { rewrite <- fmap_app. apply fmap_Permutation. clear. induction c as [|x c IH]; [done|].
    rewrite !filter_cons. destruct (decide (expired now p x)).
    - rewrite decide_False by (intros Hn; by apply Hn). by rewrite <- Permutation_middle, <- IH.
    - rewrite decide_True by done. cbn. by rewrite <- IH. }
  solve_Permutation.
Qed.

Lemma snd_bind {A} (f : A → string) (g : A → list Idle) (l : list A) :
  (l ≫= λ x, tag (f x) <$> g x).*2 = l ≫= λ x, idle_fd <$> g x.
Proof. induction l as [|x l IH]; [done|]. cbn. by rewrite fmap_app, <- IH, <- list_fmap_compose. Qed.

(** Closing part of a table without repetitions leaves the other part. *)
Lemma close_part (o keep gone : list Conn) :
  o ≡ₚ keep ++ gone → NoDup o.*2 → close_all gone.*2 o ≡ₚ keep.
Proof.
  intros Ho Hn. unfold close_all. rewrite Ho in *.
  rewrite fmap_app in Hn. apply list.NoDup_app in Hn as (_ & Hd & _).
  rewrite list.filter_app. rewrite (filter_all _ keep), (filter_none _ gone), app_nil_r; [done| |].
  - apply list.Forall_forall. intros c Hc Hn. apply Hn. by apply list_elem_of_fmap_2.
  - apply list.Forall_forall. intros c Hc Hin. eapply Hd; [|exact Hin]. by apply list_elem_of_fmap_2.
Qed.

(** ** The invariant *)

Lemma ok_close s pl rest keep gone fds :
  pool_ok s → open s ≡ₚ keep ++ gone → fds = gone.*2 → keep ≡ₚ idles (idle_ pl) ++ rest →
  map_Forall (λ _ conns, length conns ≤ max_per_peer_ pl) (idle_ pl) →
  pool_ok (mkSys pl rest (close_all fds (open s))).
Proof.
  intros [Ho Hn Hf Hc] Hp -> Hk Hcap.
  assert (close_all gone.*2 (open s) ⊆+ open s) as Hsub by apply sublist_submseteq, sublist_filter.
  split; cbn; [by rewrite (close_part _ keep gone)| | |done].
  - eapply submseteq_NoDup_sub; [|exact Hn]. by apply fmap_submseteq.
  - apply list.Forall_forall. intros c Hin. apply (proj1 (list.Forall_forall _ _) Hf).
    by eapply elem_of_submseteq.
Qed.

Lemma step_checkout s h p fd fd' pl :
  pool_ok s → ((0 ≤ fd)%Z → fd ∉ (open s).*2) → checkout h p fd (pool s) = (fd', pl) → (0 ≤ fd')%Z →
  pool_ok (mkSys pl ((keyOf h p, fd') :: held s)
             (if bool_decide (pop_idle (keyOf h p) (pool s) = None)
              then (keyOf h p, fd') :: open s else open s)).
Proof.
  intros [Ho Hn Hf Hc] Hfresh Hout Hpos. unfold checkout in Hout. set (k := keyOf h p) in *.
  destruct (pop_idle k (pool s)) as [[fd0 p0]|] eqn:Hp; simplify_eq.
  - rewrite bool_decide_eq_false_2 by done. apply pop_idle_spec in Hp as (conns & c & Hl & -> & ->).
    split; cbn; [|done|done|].
    + rewrite Ho, idles_insert, (idles_split _ _ _ Hl), fmap_app. cbn. unfold tag at 2. solve_Permutation.
    + apply map_Forall_insert_2; [|done]. specialize (Hc k _ Hl). cbn in Hc. rewrite length_app in Hc. cbn in Hc. lia.
  - rewrite bool_decide_eq_true_2 by done. rewrite (proj2 (Z.leb_le _ _) Hpos).
    split; cbn; [rewrite Ho; solve_Permutation|by apply list.NoDup_cons; auto|by apply list.Forall_cons|done].
Qed.

Lemma step_checkin s h p fd now fds pl rest :
  pool_ok s → held s ≡ₚ (keyOf h p, fd) :: rest → checkin now h p fd (pool s) = (fds, pl) →
  pool_ok (mkSys pl rest (close_all fds (open s))).
Proof.
  intros Hok Hh Hin. destruct (Hok) as [Ho Hn Hf Hc]. unfold checkin in Hin. set (k := keyOf h p) in *.
  rewrite Hh in Ho.
  assert (0 ≤ fd)%Z as Hpos.
  { apply (proj1 (list.Forall_forall _ _) Hf (k, fd)). rewrite Ho. set_solver. }
  destruct (Z.ltb_spec fd 0); [lia|].
  set (conns := default [] (idle_ (pool s) !! k)) in *.
  assert (length conns ≤ max_per_peer_ (pool s)) as Hlen.
  { unfold conns. destruct (idle_ (pool s) !! k) eqn:E; cbn; [by apply (Hc k)|lia]. }
  assert (idles (idle_ (pool s)) ≡ₚ (tag k <$> conns) ++ idles (delete k (idle_ (pool s)))) as Hs by apply idles_default.
  destruct (stopping_ (pool s)); [|case_bool_decide]; simplify_eq.
  - apply (ok_close s _ _ (idles (idle_ (pool s)) ++ rest) [(k, fd)]); [done| |done|done|done].
    rewrite Ho. solve_Permutation.
  - apply (ok_close s _ _ (idles (idle_ (pool s)) ++ rest) [(k, fd)]); [done| |done|cbn; by rewrite idles_insert, Hs|cbn].
    + rewrite Ho. solve_Permutation.
    + by apply map_Forall_insert_2.
  - apply (ok_close s _ _ (open s) []); [done|by rewrite app_nil_r|done|cbn|cbn].
    + rewrite Ho, idles_insert, Hs, fmap_app. cbn. unfold tag at 3. cbn. solve_Permutation.
    + apply map_Forall_insert_2; [|done]. rewrite length_app. cbn. lia.
Qed.

Lemma step_pool_ok now s fds s' : pool_ok s → step now s fds s' → pool_ok s'.
Proof.
  intros Hok Hs. destruct Hs as [s h p fd fd' pl Hfr Hout Hpos|s h p fd pl Hout Hneg|s h p fd fds pl rest Hh Hin
    |s k fd rest Hh|s fds pl Hr|s fds pl Hr|s].
  - by eapply step_checkout.
  - destruct Hok as [Ho Hn Hf Hc]. unfold checkout in Hout.
    destruct (pop_idle (keyOf h p) (pool s)) as [[fd0 p0]|] eqn:Hp; simplify_eq.
    + exfalso. apply pop_idle_spec in Hp as (conns & c & Hl & -> & _).
      assert (tag (keyOf h p) c ∈ open s) as Hin.
      { rewrite Ho, (idles_split _ _ _ Hl), fmap_app. cbn. set_solver. }
      pose proof (proj1 (list.Forall_forall _ _) Hf _ Hin). cbn in *. lia.
    + destruct (Z.leb_spec 0 fd); [lia|]. done.
  - by eapply step_checkin.
  - pose proof (po_open s Hok) as Ho. rewrite Hh in Ho.
    assert (0 ≤ fd)%Z as Hpos.
    { apply (proj1 (list.Forall_forall _ _) (po_fds s Hok) (k, fd)). rewrite Ho. set_solver. }
    unfold discard. destruct (Z.ltb_spec fd 0); [lia|].
    apply (ok_close s _ _ (idles (idle_ (pool s)) ++ rest) [(k, fd)]); [done| |done|done|apply Hok].
    rewrite Ho. solve_Permutation.
  - unfold reapExpired in Hr. simplify_eq. destruct (Hok) as [Ho Hn Hf Hc].
    eapply (ok_close s _ _ (idles _ ++ held s)); [done| |symmetry; apply (snd_bind fst (λ kv, filter (expired now (pool s)) kv.2))|done|cbn].
    + rewrite Ho, (idles_reap now (pool s)) at 1. solve_Permutation.
    + intros k l (l0 & <- & Hl)%lookup_fmap_Some. etrans; [apply length_filter|]. by apply (Hc k).
  - unfold shutdown in Hr. simplify_eq. destruct (Hok) as [Ho Hn Hf Hc].
    eapply (ok_close s _ _ (held s) (idles (idle_ (pool s)))); [done|by rewrite Ho, Permutation_app_comm| | |cbn].
    + symmetry. apply (snd_bind fst (λ kv, kv.2)).
    + cbn. unfold idles. rewrite map_to_list_fmap. generalize (map_to_list (idle_ (pool s))).
      clear. induction l as [|[k c] l IH]; [done|]. cbn. exact IH.
    + intros k l (l0 & <- & Hl)%lookup_fmap_Some. cbn. lia.
  - destruct Hok. by split.
Qed.

(** What a call closes is part of what is open. *)
Lemma step_closes now s fds s' :
  pool_ok s → step now s fds s' → ∃ keep gone, open s ≡ₚ keep ++ gone ∧ fds = gone.*2.
Proof.
  intros Hok Hs. pose proof (po_open s Hok) as Ho.
  assert (∀ k fd rest, held s ≡ₚ (k, fd) :: rest → ∃ keep gone, open s ≡ₚ keep ++ gone ∧ [fd] = gone.*2) as H1.
  { intros k fd rest Hh. exists (idles (idle_ (pool s)) ++ rest), [(k, fd)]. split; [|done].
    rewrite Ho, Hh. solve_Permutation. }
  assert (∃ keep gone, open s ≡ₚ keep ++ gone ∧ [] = gone.*2) as H0
    by (exists (open s), []; by rewrite app_nil_r).
  destruct Hs as [| |s h p fd fds pl rest Hh Hin|s k fd rest Hh|s fds pl Hr|s fds pl Hr|]; try exact H0.
  - unfold checkin in Hin. destruct (fd <? 0)%Z; [by simplify_eq|].
    destruct (stopping_ (pool s)); [|case_bool_decide]; simplify_eq; eauto.
  - unfold discard. destruct (fd <? 0)%Z; eauto.
  - unfold reapExpired in Hr. simplify_eq. eexists (idles _ ++ held s), _.
    split; [|symmetry; apply (snd_bind fst (λ kv, filter (expired now (pool s)) kv.2))].
    rewrite Ho, (idles_reap now (pool s)) at 1. solve_Permutation.
  - unfold shutdown in Hr. simplify_eq. exists (held s), (idles (idle_ (pool s))).
    split; [by rewrite Ho, Permutation_app_comm|]. symmetry. apply (snd_bind fst (λ kv, kv.2)).
Qed.

Inductive reachable : Sys → Prop :=
| reach_start max ttl : reachable (mkSys (new max ttl) [] [])
| reach_step now s fds s' : reachable s → step now s fds s' → reachable s'.

Lemma pool_reachable_ok s : reachable s → pool_ok s.
Proof.
  induction 1; [|by eapply step_pool_ok]. split; cbn; [done|constructor|constructor|apply map_Forall_empty].
Qed.

(** The peer is determined by the key, whatever the host contains. *)
Lemma last_colon a d a' d' :
  a +:+ ":" +:+ d = a' +:+ ":" +:+ d' → str_free ":" d = true → str_free ":" d' = true → a = a' ∧ d = d'.
Proof.
  revert a'. induction a as [|c a IH]; intros [|c' a'] E Hd Hd'; str_simpl.
  - by simplify_eq.
  - injection E as <- ->. exfalso. rewrite str_free_app in Hd. cbn in Hd. by rewrite andb_false_r in Hd.
  - injection E as -> <-. exfalso. rewrite str_free_app in Hd'. cbn in Hd'. by rewrite andb_false_r in Hd'.
  - injection E as <- E. destruct (IH a' E Hd Hd') as [-> ->]. done.
Qed.

Lemma keyOf_inj h p h' p' : is_u16 p → is_u16 p' → keyOf h p = keyOf h' p' → h = h' ∧ p = p'.
Proof.
  intros Hp Hp' E. assert (∀ q, is_u16 q → is_u64 q) as H64 by (unfold is_u16, is_u64, U64_MAX; lia).
  apply last_colon in E as [-> E]; [|by apply to_string_free; [apply H64|]..]. split; [done|].
  apply (f_equal stoi) in E. rewrite !stoi_to_string in E by done. by simplify_eq.
Qed.

(** ** Theorems *)

(** C37: a connection has one owner.  In every state reachable by checkouts,
    check-ins, discards, reaping and shutdown, each open descriptor is either idle
    in the pool under the peer it was dialled to or held by one caller, no
    descriptor occurs twice, and no peer has more idle connections than the
    limit; and the next call closes only open descriptors, each once. *)
Theorem connections_have_one_owner now s fds s' :
  reachable s → step now s fds s' →
  open s ≡ₚ idles (idle_ (pool s)) ++ held s ∧ NoDup (open s).*2 ∧
  map_Forall (λ _ conns, length conns ≤ max_per_peer_ (pool s)) (idle_ (pool s)) ∧
  NoDup fds ∧ Forall (λ fd, fd ∈ (open s).*2) fds.
Proof.
  intros Hr Hs. pose proof (pool_reachable_ok s Hr) as Hok. destruct (Hok) as [Ho Hn Hf Hc].
  destruct (step_closes now s fds s' Hok Hs) as (keep & gone & Hp & ->). split_and!; [done..| |].
  - rewrite Hp, fmap_app in Hn. by apply list.NoDup_app in Hn as (_ & _ & ?).
  - apply list.Forall_forall. intros fd Hfd. rewrite Hp, fmap_app. apply elem_of_app. by right.
Qed.

Lemma attempt_ok now peer c rt s :
  pool_ok s → ((0 ≤ c)%Z → c ∉ (open s).*2) →
  pool_ok (attempt now peer c rt s).2 ∧ held (attempt now peer c rt s).2 = held s.
Proof.
  intros Hok Hfr. unfold attempt. set (k := keyOf (host peer) (port peer)).
  destruct (checkout (host peer) (port peer) c (pool s)) as [fd pl] eqn:Hout.
  destruct (Z.ltb_spec fd 0) as [Hneg|Hpos].
  - split; [|done]. cbn. assert (fd = c) as ->.
    { unfold checkout in Hout. fold k in Hout. destruct (pop_idle k (pool s)) as [[fd0 p0]|] eqn:Hp; [|by simplify_eq].
      exfalso. simplify_eq. apply pop_idle_spec in Hp as (conns & x & Hl & -> & _).
      assert (tag k x ∈ open s) as Hin by (rewrite (po_open s Hok), (idles_split _ _ _ Hl), fmap_app; cbn; set_solver).
      pose proof (proj1 (list.Forall_forall _ _) (po_fds s Hok) _ Hin). cbn in *. lia. }
    eapply (step_pool_ok now); [exact Hok|]. by eapply s_refused.
  - pose proof (step_checkout s (host peer) (port peer) c fd pl Hok Hfr Hout Hpos) as Hok1.
    fold k in Hok1. set (s1 := mkSys pl _ _) in Hok1. destruct (rt fd).
    + destruct (checkin now (host peer) (port peer) fd pl) as [fds pl'] eqn:Hin. split; [|done].
      by apply (step_checkin s1 (host peer) (port peer) fd now).
    + split; [|done]. eapply (step_pool_ok now); [exact Hok1|]. by apply (s_discard now s1 k fd (held s)).
Qed.

(** An exchange gives its connection back.  Whether the round trips succeed or
    fail, after [exchange] every descriptor it checked out is idle in the pool or
    closed: the callers hold what they held before, and the pool's invariant is
    kept.  (A successful [connect] returns a descriptor that is not open.) *)
Theorem exchange_gives_connections_back now peer c1 c2 rt s :
  pool_ok s → ((0 ≤ c1)%Z → c1 ∉ (open s).*2) →
  ((0 ≤ c2)%Z → c2 ∉ (open (attempt now peer c1 rt s).2).*2) →
  pool_ok (exchange now peer c1 c2 rt s).2 ∧ held (exchange now peer c1 c2 rt s).2 = held s.
Proof.
  intros Hok H1 H2. destruct (attempt_ok now peer c1 rt s Hok H1) as [Ho1 Hh1]. unfold exchange.
  destruct (attempt now peer c1 rt s) as [[reply|] s1]; cbn in *; [done|].
  destruct (attempt_ok now peer c2 rt s1 Ho1 H2) as [Ho2 Hh2]. rewrite <- Hh1.
  by destruct (attempt now peer c2 rt s1) as [[reply|] s2].
Qed.

(** The retry is not on a fresh connection.  When the pool holds two idle
    connections to a peer and both are stale, both attempts use them: the
    exchange fails although [connect] is never tried, so it fails even when the
    peer is up again and would answer. *)
Theorem retry_reuses_a_stale_connection now peer c1 c2 rt s conns a b :
  idle_ (pool s) !! keyOf (host peer) (port peer) = Some (conns ++ [a; b]) →
  (0 ≤ idle_fd a)%Z → (0 ≤ idle_fd b)%Z → rt (idle_fd a) = None → rt (idle_fd b) = None →
  (exchange now peer c1 c2 rt s).1 = "" ∧
  created_ (pool (exchange now peer c1 c2 rt s).2) = created_ (pool s).
Proof.
  intros Hl Ha Hb Ra Rb. set (k := keyOf (host peer) (port peer)) in *.
  assert (∀ c x l pl, (0 ≤ idle_fd x)%Z → rt (idle_fd x) = None → idle_ (pool pl) !! k = Some (l ++ [x]) →
    (attempt now peer c rt pl).1 = None ∧
    idle_ (pool (attempt now peer c rt pl).2) !! k = Some l ∧
    created_ (pool (attempt now peer c rt pl).2) = created_ (pool pl)) as Hat.
  { intros c x l pl Hx Rx Hlx. unfold attempt, checkout, pop_idle. fold k. rewrite Hlx, last_snoc, length_app. cbn.
    destruct (Z.ltb_spec (idle_fd x) 0); [lia|]. rewrite Rx. cbn.
    replace (length l + 1 - 1) with (length l) by lia. rewrite take_app_length. by rewrite lookup_insert_eq. }
  destruct (Hat c1 b (conns ++ [a]) s Hb Rb) as (E1 & L1 & C1); [by rewrite Hl, <- app_assoc|].
  unfold exchange. destruct (attempt now peer c1 rt s) as [o1 s1]. cbn in *. subst o1.
  destruct (Hat c2 a conns s1 Ha Ra L1) as (E2 & _ & C2).
  destruct (attempt now peer c2 rt s1) as [o2 s2]. cbn in *. subst o2. split; [done|]. cbn. congruence.
Qed.

(** ** Examples *)

Definition peer1 : NodeInfo := mkNode "node1" "h1" 5001.

(** Two callers check out, both check in, and the peer restarts. *)
Definition busy : Sys := mkSys (new 4 60) [("h1:5001", 8%Z); ("h1:5001", 7%Z)] [("h1:5001", 8%Z); ("h1:5001", 7%Z)].
Definition two_idle : Sys :=
  mkSys (mkPool 4 60 {[ "h1:5001" := [mkIdle 7 10; mkIdle 8 11] ]} false 0 0 false) []
        [("h1:5001", 8%Z); ("h1:5001", 7%Z)].

Lemma busy_reachable : reachable busy.
Proof.
  eapply (reach_step 1 (mkSys (new 4 60) [("h1:5001", 7%Z)] [("h1:5001", 7%Z)])).
  - eapply (reach_step 1 (mkSys (new 4 60) [] [])); [constructor|].
    apply (s_checkout 1 (mkSys (new 4 60) [] []) "h1" 5001 7 7 (new 4 60)); [set_solver|reflexivity|lia].
  - apply (s_checkout 1 (mkSys (new 4 60) [("h1:5001", 7%Z)] [("h1:5001", 7%Z)]) "h1" 5001 8 8 (new 4 60));
      [set_solver|reflexivity|lia].
Qed.

Lemma connections_have_one_owner_witness :
  NoDup (open busy).*2 ∧ Forall (λ fd, fd ∈ (open busy).*2) (@nil Z).
Proof.
  destruct (connections_have_one_owner 10 busy []
    (mkSys (checkin 10 "h1" 5001 8 (new 4 60)).2 [("h1:5001", 7%Z)] (open busy)) busy_reachable) as (_ & H1 & _ & _ & H2).
  - apply (s_checkin 10 busy "h1" 5001 8 []); reflexivity.
  - split; [exact H1|exact H2].
Defined.

Lemma two_idle_ok : pool_ok two_idle.
Proof.
  split; cbn; [|vm_decide|vm_decide|vm_decide]. unfold idles. rewrite map_to_list_singleton. cbn. by constructor.
Qed.

Definition restarted (fd : Z) : option string := if bool_decide (fd = 9)%Z then Some "RESPONSE|OK" else None.

Lemma exchange_gives_connections_back_witness :
  pool_ok (exchange 20 peer1 9 9 restarted two_idle).2 ∧ held (exchange 20 peer1 9 9 restarted two_idle).2 = [].
Proof.
  apply exchange_gives_connections_back; [exact two_idle_ok|intros _; vm_decide|intros _; vm_decide].
Defined.

Lemma retry_reuses_a_stale_connection_witness :
  (exchange 20 peer1 9 9 restarted two_idle).1 = "" ∧
  created_ (pool (exchange 20 peer1 9 9 restarted two_idle).2) = 0%Z.
Proof.
  apply (retry_reuses_a_stale_connection 20 peer1 9 9 restarted two_idle [] (mkIdle 7 10) (mkIdle 8 11));
    [reflexivity|cbn; lia|cbn; lia|reflexivity|reflexivity].
Defined.

End ConnectionPool.
