(* ===== verification/Reaper.v ===== *)
(** * Reaper of the connection pool (ConnectionPool::reaperLoop, the constructor's
      thread and the destructor of src/net/connection_pool.cpp)

    The reaper's thread waits half the idle limit, releases the lock, reaps, and
    waits again; the destructor sets [stopping_] under the lock and wakes it.  The
    thread, the callers of the pool and the passing of time interleave; moments
    and durations are in nanoseconds, and the reaper runs at most [delay] after its
    wait is over.

    The theorems: no connection stays idle for longer than one and a half times the
    limit, up to the delay; a stopped pool keeps nothing idle and its reaper
    returns, so the destructor does; and a limit below two seconds leaves the
    reaper without any wait. *)
From S2P Require Import Prelude Ring Pool.
From Stdlib Require Import Ascii String ZArith Lia.
From stdpp Require Import base gmap list relations strings numbers.
Import ConnectionPool.

Module Reaper.

Definition second : Z := 1000000000.

(** [idle_ttl_ / 2], a whole number of seconds. *)
Definition wait (p : ConnectionPool) : Z := (second * Z.quot (Z.quot (idle_ttl_ p) second) 2)%Z.

(** In [wait_for] until a moment, in [reapExpired] since, or returned. *)
Inductive Loop := Waiting (until : Z) | Reaping (since : Z) | Exited.

(** The test of the loop, with the lock held. *)
Definition again (now : Z) (p : ConnectionPool) : Loop := if stopping_ p then Exited else Waiting (now + wait p).

Record Timed := mkTimed { now : Z; sys : Sys; loop : Loop }.

(** One turn of [reaperLoop]. *)
Definition reaperLoop (t : Timed) : Timed :=
  match loop t with
  | Waiting d =>
      if stopping_ (pool (sys t)) then mkTimed (now t) (sys t) Exited
      else if (d <=? now t)%Z then mkTimed (now t) (sys t) (Reaping d) else t
  | Reaping _ =>
      let '(fds, p) := reapExpired (now t) (pool (sys t)) in
      mkTimed (now t) (mkSys p (held (sys t)) (close_all fds (open (sys t)))) (again (now t) p)
  | Exited => t
  end.

(** When the loop is next due, while it is. *)
Definition due (t : Timed) : option Z :=
  if stopping_ (pool (sys t)) then None
  else match loop t with Waiting d | Reaping d => Some d | Exited => None end.

Inductive tstep (delay : Z) : Timed → Timed → Prop :=
| t_time t n : (now t ≤ n)%Z → (∀ d, due t = Some d → n ≤ d + delay)%Z → tstep delay t (mkTimed n (sys t) (loop t))
| t_call t fds s : step (now t) (sys t) fds s → tstep delay t (mkTimed (now t) s (loop t))
| t_reaper t : tstep delay t (reaperLoop t).

(** The constructor. *)
Definition begin (max_per_peer : nat) (idle_s start : Z) : Timed :=
  let p := new max_per_peer (second * idle_s) in mkTimed start (mkSys p [] []) (again start p).
(** ** What the calls do to the idle connections *)

Definition idle_in (c : Idle) (p : ConnectionPool) : Prop := ∃ k l, idle_ p !! k = Some l ∧ c ∈ l.

(** A step from [p] to [q] at [n]. *)
Record moves (n : Z) (p q : ConnectionPool) : Prop := {
  mv_ttl : idle_ttl_ q = idle_ttl_ p;
  mv_stop : stopping_ p = true → stopping_ q = true;
  mv_idle c : idle_in c q → idle_in c p ∨ returned_at c = n ∧ stopping_ p = false;
  mv_stopped c : stopping_ p = false → stopping_ q = true → ¬ idle_in c q;
}.

Lemma moves_refl n p q : idle_ttl_ q = idle_ttl_ p → stopping_ q = stopping_ p → idle_ q = idle_ p → moves n p q.
Proof. intros Ht Hs Hi. split; [done|congruence| |congruence]. intros c (k & l & Hl & Hc). left. exists k, l. by rewrite <- Hi. Qed.

(** One bucket is replaced by part of itself, and possibly a connection returned now. *)
Lemma bucket_moves n p key conns q :
  idle_ttl_ q = idle_ttl_ p → stopping_ q = stopping_ p → idle_ q = <[key := conns]> (idle_ p) →
  (∀ c, c ∈ conns → c ∈ default [] (idle_ p !! key) ∨ returned_at c = n ∧ stopping_ p = false) →
  moves n p q.
Proof.
  intros Ht Hs Hi Hc. split; [done|congruence| |congruence]. intros c (k & l & Hl & Hin). rewrite Hi in Hl.
  apply lookup_insert_Some in Hl as [[<- <-]|[Hk Hl]]; [|left; by exists k, l].
  destruct (Hc c Hin) as [Hd|Hd]; [left|by right]. destruct (idle_ p !! key) as [l|] eqn:E; [by exists key, l|set_solver].
Qed.

Lemma reap_idle n p c :
  idle_in c (reapExpired n p).2 → idle_in c p ∧ (n - returned_at c ≤ idle_ttl_ p)%Z.
Proof.
  intros (k & l & (l0 & <- & Hl)%lookup_fmap_Some & Hc). apply list_elem_of_filter in Hc as [Hx Hc].
  unfold expired in Hx. split; [by exists k, l0|lia].
Qed.

Lemma reap_moves n p : moves n p (reapExpired n p).2.
Proof. split; cbn; [done|done| |congruence]. intros c Hc. left. by apply (reap_idle n p c). Qed.

Lemma step_moves n s fds s' : step n s fds s' → moves n (pool s) (pool s').
Proof.
  intros [r h p fd fd' pl _ Hout _|r h p fd pl Hout Hneg|r h p fd fds' pl rest _ Hin|r k fd rest _|r fds' pl Hr|r fds' pl Hr|r]; cbn.
  1,2: unfold checkout in Hout; destruct (pop_idle _ _) as [[x q]|] eqn:Hp; simplify_eq;
    [apply pop_idle_spec in Hp as (conns & c & Hl & -> & ->);
     eapply (bucket_moves _ _ _ conns); [done..|]; rewrite Hl; cbn; set_solver
    |destruct (_ <=? _)%Z; by apply moves_refl].
  - unfold checkin in Hin. destruct (_ <? _)%Z; [simplify_eq; by apply moves_refl|].
    destruct (stopping_ (pool r)) eqn:Hs; [simplify_eq; by apply moves_refl|].
    case_bool_decide; simplify_eq; (eapply bucket_moves; [done..|]); set_solver.
  - by apply moves_refl.
  - assert (pl = (reapExpired n (pool r)).2) as -> by (by rewrite Hr). apply reap_moves.
  - unfold shutdown in Hr. simplify_eq. split; cbn; [done|done| |];
      [intros c|intros c _ _]; intros (k & l & (l0 & <- & Hl)%lookup_fmap_Some & Hc); set_solver.
  - by apply moves_refl.
Qed.

(** ** The invariant *)

Record timed_ok (delay ttl : Z) (t : Timed) : Prop := {
  tm_ttl : idle_ttl_ (pool (sys t)) = ttl;
  tm_stop c : stopping_ (pool (sys t)) = true → ¬ idle_in c (pool (sys t));
  tm_runs : stopping_ (pool (sys t)) = false → loop t ≠ Exited;
  tm_due d : due t = Some d → (d - wait (pool (sys t)) ≤ now t ≤ d + delay)%Z;
  tm_idle c d : idle_in c (pool (sys t)) → due t = Some d → (d - wait (pool (sys t)) ≤ returned_at c + ttl)%Z;
}.

Section timed.
Context (delay ttl : Z) (Hdelay : (0 ≤ delay)%Z) (Httl : (0 ≤ ttl)%Z).

Lemma wait_bounds p : idle_ttl_ p = ttl → (0 ≤ 2 * wait p ≤ ttl)%Z.
Proof using Httl. unfold wait, second. intros ->. Z.to_euclidean_division_equations. lia. Qed.

Lemma due_call t s d :
  (stopping_ (pool (sys t)) = true → stopping_ (pool s) = true) → due (mkTimed (now t) s (loop t)) = Some d → due t = Some d.
Proof. unfold due. cbn. destruct (stopping_ (pool (sys t))), (stopping_ (pool s)); intros H Hd; try done. by specialize (H eq_refl). Qed.

Lemma reapExpired_pool n p :
  ∃ fds q, reapExpired n p = (fds, q) ∧ stopping_ q = stopping_ p ∧ idle_ttl_ q = idle_ttl_ p ∧
    ∀ c, idle_in c q → idle_in c p ∧ (n - returned_at c ≤ idle_ttl_ p)%Z.
Proof.
  eexists _, _. split_and!; [reflexivity|done|done|]. apply reap_idle.
Qed.

Lemma call_ok t fds s : step (now t) (sys t) fds s → timed_ok delay ttl t → timed_ok delay ttl (mkTimed (now t) s (loop t)).
Proof using Httl.
  intros [Ht Hs Hi Hst]%step_moves [Hk Hstop Hrun Hdue Hid]. assert (wait (pool s) = wait (pool (sys t))) as Hw by (unfold wait; by rewrite Ht).
  pose proof (wait_bounds _ Hk) as Hb. split; cbn [now sys loop]; rewrite ?Ht, ?Hw.
  - done.
  - intros c Hq. destruct (stopping_ (pool (sys t))) eqn:E; [|by apply Hst]. intros [Hc|[_ Hc]]%Hi; [by apply (Hstop c)|done].
  - intros Hq. apply Hrun. destruct (stopping_ (pool (sys t))) eqn:E; [|done]. by rewrite Hs in Hq.
  - intros d Hd. apply Hdue. revert Hd. apply due_call, Hs.
  - intros c d Hc Hd. assert (due t = Some d) as Hd' by (revert Hd; apply due_call, Hs).
    pose proof (Hdue d Hd'). destruct (Hi c Hc) as [Hc'|[-> _]]; [by apply Hid|lia].
Qed.

Lemma reaper_ok t : timed_ok delay ttl t → timed_ok delay ttl (reaperLoop t).
Proof using Hdelay Httl.
  intros Hok. pose proof Hok as [Hk Hstop Hrun Hdue Hid]. pose proof (wait_bounds _ Hk) as Hb.
  unfold reaperLoop. destruct (loop t) as [d|d|] eqn:El; [|clear Hok|done].
  - destruct (stopping_ (pool (sys t))) eqn:Es; [split; unfold due in *; cbn; rewrite ?Es in *; done|].
    destruct (Z.leb_spec d (now t)); [|done]. split; unfold due in *; cbn; rewrite ?Es, ?El in *; done.
  - destruct (reapExpired_pool (now t) (pool (sys t))) as (fds & p & E & Hs & Ht & Hi). rewrite E.
    split; unfold due, again in *; cbn; rewrite ?Hs, ?Ht in *.
    + done.
    + intros c Hq Hc. apply (Hstop c Hq). by apply Hi.
    + intros Hq. by rewrite Hq.
    + intros d' Hd. destruct (stopping_ (pool (sys t))); simplify_eq.
      assert (wait p = wait (pool (sys t))) as -> by (unfold wait; by rewrite Ht). lia.
    + intros c d' Hc Hd. destruct (stopping_ (pool (sys t))); simplify_eq. apply Hi in Hc as [_ Hc]. lia.
Qed.

Lemma tstep_ok t t' : tstep delay t t' → timed_ok delay ttl t → timed_ok delay ttl t'.
Proof using Hdelay Httl.
  intros [r n Hn Hd|r fds s Hs|r] Hok; [|by eapply call_ok|by apply reaper_ok].
  destruct Hok as [Hk Hstop Hrun Hdue Hid]. split; cbn; [done..| |done].
  intros d Hd'. pose proof (Hdue d Hd'). pose proof (Hd d Hd'). lia.
Qed.

End timed.

Lemma timed_begin_ok delay max s start :
  (0 ≤ delay)%Z → (0 ≤ s)%Z → timed_ok delay (second * s) (begin max s start).
Proof.
  intros Hd Hs. assert (0 ≤ second * s)%Z as H0 by (unfold second; lia).
  pose proof (wait_bounds _ H0 (new max (second * s)) eq_refl) as Hb.
  assert (∀ c, ¬ idle_in c (new max (second * s))) as Hn by (by intros c (k & l & Hl & _)).
  split; unfold due; cbn in *; [done|by intros c|done|intros d [= <-]; lia|]. intros c d Hc. by destruct (Hn c).
Qed.

Section limits.
Context (delay : Z) (max : nat) (idle_s start : Z) (Hdelay : (0 ≤ delay)%Z) (Hidle : (0 ≤ idle_s)%Z).
Context (t : Timed) (Hrun : rtc (tstep delay) (begin max idle_s start) t).

Lemma timed_run_ok : timed_ok delay (second * idle_s) t.
Proof using Hdelay Hidle Hrun.
  assert (0 ≤ second * idle_s)%Z by (unfold second; lia).
  revert t Hrun. refine (rtc_ind_r _ _ _ _); [by apply timed_begin_ok|]. intros u v _ Huv. by apply tstep_ok.
Qed.

(** C38: A connection lingers for at most one and a half times the idle limit.  With
    the reaper at most [delay] late after each of its waits, whatever the callers
    do and however the threads interleave, no connection of a running pool has been
    idle for longer than 3/2 of the limit plus the delay. *)
Theorem idle_connections_are_reaped c :
  stopping_ (pool (sys t)) = false → idle_in c (pool (sys t)) →
  (2 * (now t - returned_at c) ≤ 3 * (second * idle_s) + 2 * delay)%Z.
Proof using Hdelay Hidle Hrun.
  intros Hs Hc. destruct timed_run_ok as [Hk _ Hex Hdue Hid].
  assert (0 ≤ second * idle_s)%Z as H0 by (unfold second; lia).
  pose proof (wait_bounds _ H0 _ Hk) as Hb. specialize (Hex Hs). unfold due in *. rewrite Hs in *.
  destruct (loop t) as [d|d|]; [..|done]; pose proof (Hdue d eq_refl); pose proof (Hid c d Hc eq_refl); lia.
Qed.

(** The destructor: what was idle is closed, nothing becomes idle again, and the
    reaper returns at its next turn, so the join does. *)
Theorem stopped_pool_keeps_nothing c :
  stopping_ (pool (sys t)) = true → ¬ idle_in c (pool (sys t)) ∧ loop (reaperLoop t) = Exited.
Proof using Hdelay Hidle Hrun.
  intros Hs. split; [by apply (tm_stop _ _ _ timed_run_ok)|]. unfold reaperLoop. destruct (loop t) as [d|d|] eqn:El; [|cbn|done].
  - by rewrite Hs.
  - unfold again. cbn. by rewrite Hs.
Qed.

End limits.

(** The reaper is a caller of the pool like any other: the pool's invariant holds
    beside it. *)
Lemma reaper_steps t : reachable (sys t) → reachable (sys (reaperLoop t)).
Proof.
  intros Hr. unfold reaperLoop. destruct (loop t) as [d|d|]; [|cbn|done].
  - destruct (stopping_ _); [done|]. by destruct (_ <=? _)%Z.
  - eapply (reach_step (now t)); [exact Hr|]. by apply s_reap.
Qed.

Theorem reaped_pool_is_reachable delay max idle_s start t :
  rtc (tstep delay) (begin max idle_s start) t → reachable (sys t).
Proof.
  revert t. refine (rtc_ind_r _ _ _ _); [constructor|]. intros u v _ [r n _ _|r fds s Hs|r] Hu; [done| |by apply reaper_steps].
  by eapply reach_step.
Qed.

(** ** Examples *)

(** A limit below two seconds makes the wait zero: the reaper goes round without
    time passing, taking and releasing the lock. *)
Theorem short_limit_spins t d :
  (0 ≤ idle_ttl_ (pool (sys t)) < 2 * second)%Z → stopping_ (pool (sys t)) = false → loop t = Waiting d → (d ≤ now t)%Z →
  loop (reaperLoop (reaperLoop t)) = Waiting (now t) ∧ now (reaperLoop (reaperLoop t)) = now t.
Proof.
  intros Ht Hs Hl Hd. unfold reaperLoop at 2 4. rewrite Hl, Hs. destruct (Z.leb_spec d (now t)); [|lia]. cbn.
  unfold again, wait. cbn. rewrite Hs. split; [|done]. do 2 f_equal. unfold second in *. Z.to_euclidean_division_equations. lia.
Qed.

Module ReaperExample.

(** A connection is returned after a second, under a limit of 60; the reap at 61
    seconds spares it, and at 91 it is gone. *)
Definition sec (n : Z) : Z := (n * second)%Z.
Definition fresh : Sys := mkSys (new 4 (second * 60)) [] [].
Definition busy1 : Sys := mkSys (new 4 (second * 60)) [("h1:5001", 7%Z)] [("h1:5001", 7%Z)].
Definition idle1 : Sys := mkSys (checkin (sec 1) "h1" 5001 7 (new 4 (second * 60))).2 [] [("h1:5001", 7%Z)].

Definition t1 : Timed := mkTimed (sec 1) idle1 (Waiting (sec 30)).
Definition t2 : Timed := reaperLoop (reaperLoop (mkTimed (sec 31) (sys t1) (loop t1))).
Definition t3 : Timed := mkTimed (sec 61) (sys t2) (loop t2).
Definition t4 : Timed := mkTimed (sec 91) (sys (reaperLoop (reaperLoop t3))) (loop (reaperLoop (reaperLoop t3))).
Definition t5 : Timed := reaperLoop (reaperLoop t4).

Lemma t1_run : rtc (tstep second) (begin 4 60 0) t1.
Proof.
  eapply rtc_l; [apply (t_time _ (begin 4 60 0) (sec 1)); [vm_decide|intros d [= <-]; vm_decide]|].
  eapply rtc_l; [apply (t_call _ (mkTimed (sec 1) fresh (Waiting (sec 30))) [] busy1)|].
  - apply (s_checkout _ fresh "h1" 5001 7 7 (new 4 (second * 60))); [set_solver|reflexivity|lia].
  - eapply rtc_l; [apply (t_call _ (mkTimed (sec 1) busy1 (Waiting (sec 30))) [] idle1)|apply rtc_refl].
    apply (s_checkin _ busy1 "h1" 5001 7 []); reflexivity.
Qed.

Lemma t4_run : rtc (tstep second) (begin 4 60 0) t4.
Proof.
  etrans; [exact t1_run|].
  eapply rtc_l; [apply (t_time _ t1 (sec 31)); [vm_decide|intros d [= <-]; vm_decide]|].
  do 2 (eapply rtc_l; [apply t_reaper|]). change (reaperLoop (reaperLoop _)) with t2.
  eapply rtc_l; [apply (t_time _ t2 (sec 61)); [vm_decide|intros d [= <-]; vm_decide]|].
  do 2 (eapply rtc_l; [apply t_reaper|]). change (reaperLoop (reaperLoop _)) with (reaperLoop (reaperLoop t3)).
  eapply rtc_l; [apply (t_time _ (reaperLoop (reaperLoop t3)) (sec 91)); [vm_decide|intros d [= <-]; vm_decide]|].
  apply rtc_refl.
Qed.

(** At 91 seconds, before the reaper's turn, it has been idle for the whole of 3/2
    of the limit. *)
Lemma idle_connections_are_reaped_witness :
  idle_in (mkIdle 7 (sec 1)) (pool (sys t4)) ∧ (2 * (sec 91 - sec 1) ≤ 3 * (second * 60) + 2 * second)%Z ∧
  idleCount (pool (sys t5)) = 0.
Proof.
  assert (idle_in (mkIdle 7 (sec 1)) (pool (sys t4))) as Hc.
  { exists "h1:5001", [mkIdle 7 (sec 1)]. split; [vm_compute; reflexivity|]. apply list_elem_of_here. }
  split; [exact Hc|]. split; [|vm_compute; reflexivity].
  exact (idle_connections_are_reaped second 4 60 0 ltac:(vm_decide) ltac:(vm_decide) t4 t4_run _ eq_refl Hc).
Defined.

End ReaperExample.
End Reaper.
