(* ===== verification/Workers.v ===== *)
(** * Worker pool (src/net/thread_pool.h, src/net/thread_pool.cpp)

    A fixed set of threads takes tasks from one queue.  [enqueue], the beginning of
    [shutdown] and each turn of [workerLoop] under the lock are atomic; running a
    task is the time between two turns.  A worker blocked on the condition
    variable has no step.

    Besides the members of the class the state records, for the statements, the
    tasks accepted, taken and completed so far, in order.

    The theorems: tasks are taken exactly once and in the order they were
    accepted; a shutdown ends; and when it has joined its workers every accepted
    task has been run. *)
From S2P Require Import Prelude.
From Stdlib Require Import ZArith Lia.
From stdpp Require Import base list relations numbers.

Module ThreadPool.
Section ThreadPool.
Context {T : Type}.

Inductive Worker := Waiting | Running (task : T) | Exited.

Record ThreadPool := mkPool {
  workers_ : list Worker;
  tasks_ : list T;
  stopping_ : bool;
  accepted : list T;
  taken : list T;
  completed : list T;
}.

Definition new (workers : nat) : ThreadPool :=
  mkPool (replicate (if bool_decide (workers = 0) then 1 else workers) Waiting) [] false [] [] [].

Definition enqueue (task : T) (p : ThreadPool) : bool * ThreadPool :=
  if stopping_ p then (false, p)
  else (true, mkPool (workers_ p) (tasks_ p ++ [task]) (stopping_ p) (accepted p ++ [task]) (taken p) (completed p)).

(** [shutdown] up to the joins. *)
Definition shutdown (p : ThreadPool) : ThreadPool :=
  mkPool (workers_ p) (tasks_ p) true (accepted p) (taken p) (completed p).

(** The joins return when every worker has exited. *)
Definition joined (p : ThreadPool) : Prop := Forall (λ w, w = Exited) (workers_ p).

Definition workerCount (p : ThreadPool) : nat := length (workers_ p).

Definition with_worker (i : nat) (w : Worker) (p : ThreadPool) : ThreadPool :=
  mkPool (<[i := w]> (workers_ p)) (tasks_ p) (stopping_ p) (accepted p) (taken p) (completed p).

(** One turn of [workerLoop] of worker [i], or the end of its task. *)
Definition workerLoop (i : nat) (p : ThreadPool) : option ThreadPool :=
  match (workers_ p !! i : option Worker) with
  | None | Some Exited => None
  | Some (Running task) =>
      let p := with_worker i Waiting p in
      Some (mkPool (workers_ p) (tasks_ p) (stopping_ p) (accepted p) (taken p) (completed p ++ [task]))
  | Some Waiting =>
      match tasks_ p with
      | [] => if stopping_ p then Some (with_worker i Exited p) else None
      | task :: rest =>
          Some (mkPool (<[i := Running task]> (workers_ p)) rest (stopping_ p) (accepted p)
                       (taken p ++ [task]) (completed p))
      end
  end.

Inductive step : ThreadPool → ThreadPool → Prop :=
| step_enqueue task p : step p (enqueue task p).2
| step_shutdown p : step p (shutdown p)
| step_worker i p p' : workerLoop i p = Some p' → step p p'.

Definition reachable (p : ThreadPool) : Prop := ∃ n, rtc step (new n) p.

(** ** Invariant *)

Definition running (p : ThreadPool) : list T := omap (λ w, match w with Running t => Some t | _ => None end) (workers_ p).

Record pool_ok (p : ThreadPool) : Prop := {
  po_queue : accepted p = taken p ++ tasks_ p;
  po_taken : taken p ≡ₚ completed p ++ running p;
  po_exit : Exited ∈ workers_ p → stopping_ p = true ∧ tasks_ p = [];
  po_some : workers_ p ≠ [];
}.

Lemma running_insert (l : list Worker) i w w' :
  l !! i = Some w →
  omap (λ w, match w with Running t => Some t | _ => None end) l ++ match w' with Running t => [t] | _ => [] end ≡ₚ
  omap (λ w, match w with Running t => Some t | _ => None end) (<[i := w']> l) ++ match w with Running t => [t] | _ => [] end.
Proof.
  intros Hi. pose proof (lookup_lt_Some _ _ _ Hi). rewrite insert_take_drop by done.
  rewrite <- (take_drop_middle l i w Hi) at 1. rewrite !omap_app. cbn. destruct w, w'; cbn; solve_Permutation.
Qed.

Lemma elem_insert (l : list Worker) i w : Exited ∈ <[i := w]> l → w = Exited ∨ Exited ∈ l.
Proof. intros [j Hj]%list_elem_of_lookup_1. apply list_lookup_insert_Some in Hj as [(_ & ? & _)|[_ Hj]]; [by left|right]. by eapply list_elem_of_lookup_2. Qed.

Lemma insert_not_nil (l : list Worker) i w : l ≠ [] → <[i := w]> l ≠ [].
Proof. intros Hl E. apply Hl. apply (f_equal length) in E. rewrite length_insert in E. by destruct l. Qed.

Lemma worker_ok i p p' : pool_ok p → workerLoop i p = Some p' → pool_ok p'.
Proof.
  intros [Hq Ht He Hs] Hw. unfold workerLoop in Hw.
  destruct (workers_ p !! i) as [[|task|]|] eqn:Hi; try done.
  - destruct (tasks_ p) as [|task rest] eqn:Hts.
    + destruct (stopping_ p) eqn:Hst; simplify_eq. split; cbn; [by rewrite Hts|..|by apply insert_not_nil]; try done.
      rewrite Ht. unfold running. cbn. pose proof (running_insert _ i _ Exited Hi) as Hr. cbn in Hr.
      rewrite !app_nil_r in Hr. by rewrite Hr.
    + simplify_eq. split; cbn; [by rewrite Hq, <- app_assoc| | |by apply insert_not_nil].
      * rewrite Ht. unfold running. cbn. pose proof (running_insert _ i _ (Running task) Hi) as Hr. cbn in Hr.
        rewrite app_nil_r in Hr. by rewrite <- Hr, app_assoc.
      * intros [?|Hx]%elem_insert; [done|]. by destruct (He Hx).
  - simplify_eq. split; cbn; [done| | |by apply insert_not_nil].
    + rewrite Ht. unfold running. cbn. pose proof (running_insert _ i _ Waiting Hi) as Hr. cbn in Hr.
      rewrite app_nil_r in Hr. rewrite Hr. solve_Permutation.
    + intros [?|Hx]%elem_insert; [done|]. by apply He.
Qed.

Lemma worker_step_ok p p' : pool_ok p → step p p' → pool_ok p'.
Proof.
  intros Hok Hs. destruct Hs as [task p|p|i p p' Hw]; [|by destruct Hok as [? ? He ?]; split; cbn; naive_solver|by eapply worker_ok].
  unfold enqueue. destruct (stopping_ p) eqn:Hst; [done|]. destruct Hok as [Hq Ht He Hs].
  split; cbn; [by rewrite Hq, app_assoc|done| |done]. intros Hx. by destruct (He Hx); congruence.
Qed.

Lemma workers_reachable_ok p : reachable p → pool_ok p.
Proof.
  intros [n Hr]. eapply (rtc_ind_r pool_ok); [|by intros; eapply worker_step_ok|exact Hr]. split; cbn; [done| | |].
  - unfold running. cbn. generalize (if bool_decide (n = 0) then 1 else n). intros k. by induction k.
  - intros Hx. apply elem_of_replicate in Hx as [? _]. done.
  - case_bool_decide; [done|]. by destruct n.
Qed.

Definition exitedb (w : Worker) : bool := match w with Exited => true | _ => false end.

(** A bound on the worker steps left once no task can be added. *)
Definition weight (w : Worker) : nat := match w with Waiting => 1 | Running _ => 2 | Exited => 0 end.
Definition work (p : ThreadPool) : nat := 2 * length (tasks_ p) + sum_list (weight <$> workers_ p).

Lemma sum_insert (l : list Worker) i w w' :
  l !! i = Some w → sum_list (weight <$> <[i := w']> l) + weight w = sum_list (weight <$> l) + weight w'.
Proof.
  intros Hi. pose proof (lookup_lt_Some _ _ _ Hi). rewrite insert_take_drop by done.
  rewrite <- (take_drop_middle l i w Hi) at 3. rewrite !fmap_app, !sum_list_with_app. cbn. lia.
Qed.

(** ** Theorems *)

(** Tasks are run once and in order.  In every reachable state the tasks taken
    so far followed by the queue are the tasks accepted, in the order of
    acceptance, and a task taken is running on one worker or completed, exactly
    once. *)
Theorem tasks_taken_in_order p :
  reachable p → accepted p = taken p ++ tasks_ p ∧ taken p ≡ₚ completed p ++ running p.
Proof. intros Hr%workers_reachable_ok. split; apply Hr. Qed.

(** A shutdown drains the queue.  When [shutdown] has joined every worker, no
    task is queued and every task ever accepted has been run to completion.  (The
    comments say queued tasks are dropped.) *)
Theorem shutdown_drains p : reachable p → joined p → tasks_ p = [] ∧ completed p ≡ₚ accepted p.
Proof.
  intros Hr%workers_reachable_ok Hj. destruct Hr as [Hq Ht He Hs].
  assert (Exited ∈ workers_ p) as Hx.
  { unfold joined in Hj. destruct (workers_ p) as [|w ws]; [done|]. apply list.Forall_cons in Hj as [-> _].
    apply elem_of_cons. by left. }
  destruct (He Hx) as [_ Hnil]. split; [done|]. rewrite Hq, Hnil, app_nil_r, Ht.
  assert (running p = []) as ->; [|by rewrite app_nil_r].
  unfold running, joined in *. clear -Hj. induction Hj as [|w ws -> _ IH]; [done|]. exact IH.
Qed.

(** A shutdown ends.  Once stopping, either every worker has exited or some
    worker has a step; and every worker step uses up some of a finite amount of
    work, so after at most [work p] turns the joins return. *)
Theorem shutdown_terminates p :
  stopping_ p = true →
  (joined p ∨ ∃ i p', workerLoop i p = Some p') ∧
  (∀ i p', workerLoop i p = Some p' → stopping_ p' = true ∧ work p' < work p).
Proof.
  intros Hst. split.
  - destruct (decide (Forall (λ w, exitedb w = true) (workers_ p))) as [Hall|Hn].
    + left. eapply list.Forall_impl; [exact Hall|]. by intros [].
    + right. apply not_Forall_Exists in Hn; [|apply _]. apply list.Exists_exists in Hn as (w & Hin & Hw).
      apply list_elem_of_lookup_1 in Hin as [i Hi]. exists i. unfold workerLoop. rewrite Hi, Hst.
      destruct w; [|by eexists|by destruct Hw]. destruct (tasks_ p); by eexists.
  - intros i p' Hw. unfold workerLoop in Hw. destruct (workers_ p !! i) as [[|task|]|] eqn:Hi; try done.
    + pose proof (sum_insert _ i _ Exited Hi). destruct (tasks_ p) as [|task rest] eqn:Hts.
      * rewrite Hst in Hw. simplify_eq. split; [done|]. unfold work. cbn in *. rewrite Hts. lia.
      * pose proof (sum_insert _ i _ (Running task) Hi). simplify_eq. split; [done|].
        unfold work. cbn in *. rewrite Hts. cbn. lia.
    + pose proof (sum_insert _ i _ Waiting Hi). simplify_eq. split; [done|]. unfold work. cbn in *. lia.
Qed.
End ThreadPool.

(** One worker, two tasks, and a shutdown with the second still queued. *)
Definition closing : @ThreadPool nat := shutdown (enqueue 2 (enqueue 1 (new 1)).2).2.
Fixpoint turns (n : nat) (p : @ThreadPool nat) : @ThreadPool nat :=
  match n with O => p | S n => default p (workerLoop 0 (turns n p)) end.
Definition closed : @ThreadPool nat := turns 5 closing.

Lemma closed_reachable : reachable closed.
Proof.
  exists 1. assert (∀ n, n ≤ 5 → rtc step (new 1) closing → rtc step (new 1) (turns n closing)) as Ht.
  { induction n as [|n IH]; intros Hn Hc; [done|]. eapply rtc_r; [apply IH; [lia|done]|].
    apply (step_worker 0). do 5 (destruct n as [|n]; [reflexivity|]). lia. }
  apply Ht; [lia|].
  eapply rtc_r; [|apply step_shutdown]. eapply rtc_r; [|apply step_enqueue]. apply rtc_once. apply step_enqueue.
Qed.

Lemma tasks_taken_in_order_witness : accepted closed = [1; 2] ++ [] ∧ taken closed ≡ₚ [1; 2] ++ [].
Proof. exact (tasks_taken_in_order closed closed_reachable). Defined.

Lemma shutdown_drains_witness : tasks_ closed = [] ∧ completed closed ≡ₚ [1; 2].
Proof. apply (shutdown_drains closed closed_reachable). by repeat constructor. Defined.

Lemma shutdown_terminates_witness : joined closing ∨ ∃ i p', workerLoop i closing = Some p'.
Proof. exact (proj1 (shutdown_terminates closing eq_refl)). Defined.

End ThreadPool.
