(* ===== verification/Threads.v ===== *)
(** * Background threads (start, stop and run of src/gossip/gossip_thread.cpp,
      src/hints/handoff_thread.cpp and src/antientropy/antientropy_thread.cpp;
      Coordinator::Background of src/coordinator.cpp)

    The three periodic threads have the same life: [start] launches a loop unless
    one runs, [stop] clears a flag and joins.  The owner calls them one after the
    other; the loop takes its turns in between, and reads the flag at its own pace.
    Assigning to a [std::thread] that is still joinable ends the program.

    The coordinator's detached workers are counted, and its destructor waits for
    the count to be zero.

    The theorems: there is never more than one loop, restarting is safe, [stop]
    returns and leaves no loop behind; and no detached worker of a coordinator is
    still running when its destructor returns. *)
From S2P Require Import Prelude.
From Stdlib Require Import ZArith Lia.
From stdpp Require Import base list relations numbers.

(** ** Periodic threads *)

Module Periodic.

(** Where a loop stands: at its test, in [tick], or asleep with seconds to go. *)
Inductive Phase := Top | Working | Sleeping (left : nat).

(** One turn of [run], reading the flag where the code does; [None]: it returns.
    Gossip and handoff work and then sleep once. *)
Definition gossip_turn (running : bool) (ph : Phase) : option Phase :=
  match ph with
  | Top => if running then Some Working else None
  | Working => Some (Sleeping 1)
  | Sleeping _ => Some Top
  end.

(** Anti-entropy sleeps [interval] seconds one by one, looks again, and works. *)
Definition antientropy_turn (interval : Z) (running : bool) (ph : Phase) : option Phase :=
  match ph with
  | Top => if running then Some (Sleeping (Z.to_nat interval)) else None
  | Sleeping (S n) => if running then Some (Sleeping n) else None
  | Sleeping O => if running then Some Working else None
  | Working => Some Top
  end.

(** [thread_]: nothing to join, a loop, or a loop that has returned. *)
Inductive Handle := NotJoinable | Looping (ph : Phase) | Returned.

(** What the owner is doing; [Terminated]: the program has ended. *)
Inductive Owner := Idle | Joining | Terminated.

Record Periodic := mkPeriodic {
  running_ : bool;
  thread_ : Handle;
  owner : Owner;
}.

Definition new : Periodic := mkPeriodic false NotJoinable Idle.

Definition start (p : Periodic) : Periodic :=
  if running_ p then p
  else
    match thread_ p with
    | NotJoinable => mkPeriodic true (Looping Top) (owner p)
    | _ => mkPeriodic true (thread_ p) Terminated
    end.

(** [stop] up to the join, and the join. *)
Definition stop (p : Periodic) : Periodic :=
  match thread_ p with
  | NotJoinable => mkPeriodic false NotJoinable (owner p)
  | h => mkPeriodic false h Joining
  end.
Definition join (p : Periodic) : option Periodic :=
  match owner p, thread_ p with
  | Joining, Returned => Some (mkPeriodic (running_ p) NotJoinable Idle)
  | _, _ => None
  end.

(** The three loops. *)
Inductive Loop := Gossip | Handoff | AntiEntropy (interval : Z).
Definition turn (l : Loop) : bool → Phase → option Phase :=
  match l with
  | Gossip | Handoff => gossip_turn
  | AntiEntropy interval => antientropy_turn interval
  end.

(** One turn of the loop thread. *)
Definition loop_turn (l : Loop) (p : Periodic) : option Periodic :=
  match thread_ p with
  | Looping ph =>
      let h := match turn l (running_ p) ph with Some ph' => Looping ph' | None => Returned end in
      Some (mkPeriodic (running_ p) h (owner p))
  | _ => None
  end.

Inductive step (l : Loop) : Periodic → Periodic → Prop :=
| step_start p : owner p = Idle → step l p (start p)
| step_stop p : owner p = Idle → step l p (stop p)
| step_join p p' : join p = Some p' → step l p p'
| step_loop p p' : loop_turn l p = Some p' → step l p p'.

(** Turns in a row. *)
Fixpoint turns (l : Loop) (n : nat) (p : Periodic) : Periodic :=
  match n with
  | O => p
  | S n => match loop_turn l p with Some p' => turns l n p' | None => p end
  end.

Definition periodic_ok (p : Periodic) : Prop :=
  match owner p, thread_ p with
  | Idle, NotJoinable => running_ p = false
  | Idle, Looping _ => running_ p = true
  | Joining, (Looping _ | Returned) => running_ p = false
  | _, _ => False
  end.

(** A loop returns only when told to, and then within three turns. *)
Lemma turn_goes_on l ph : is_Some (turn l true ph).
Proof. destruct l, ph as [| |[|n]]; eauto. Qed.

Lemma turns_returns l ph :
  ∃ n, n ≤ 3 ∧ thread_ (turns l n (mkPeriodic false (Looping ph) Joining)) = Returned ∧
       join (turns l n (mkPeriodic false (Looping ph) Joining)) = Some new.
Proof.
  destruct l, ph as [| |[|n]];
    first [exists 1; split; [lia|split; reflexivity]|exists 2; split; [lia|split; reflexivity]
          |exists 3; split; [lia|split; reflexivity]].
Qed.

Lemma periodic_step_ok l p p' : step l p p' → periodic_ok p → periodic_ok p'.
Proof.
  intros [q Ho|q Ho|q q' Hj|q q' Hl]; destruct q as [r h o]; unfold periodic_ok; cbn in *.
  - subst o. destruct r, h; done.
  - subst o. destruct h; done.
  - destruct o, h; try done. by injection Hj as <-.
  - destruct h as [|ph|]; try done. injection Hl as <-. cbn. destruct o; try done; intros ->.
    + by destruct (turn_goes_on l ph) as [? ->].
    + by destruct (turn l false ph).
Qed.

Lemma periodic_run_ok l p : rtc (step l) new p → periodic_ok p.
Proof. apply (rtc_ind_r periodic_ok); [reflexivity|]. intros y z _ Hyz. by apply periodic_step_ok with l. Qed.

(** Starting and stopping a background thread is safe, and [stop] returns.  In
    every state of any sequence of [start] and [stop] calls with the loop running in
    between, no second loop has been launched over a joinable one, and while the
    owner is idle a loop exists exactly when the flag is up.  A [stop] that waits
    for the loop returns within three of the loop's turns, whatever the interval,
    and leaves the object as it was constructed. *)
Theorem background_thread_stops l p :
  rtc (step l) new p →
  owner p ≠ Terminated ∧
  (owner p = Idle → (running_ p = true ↔ ∃ ph, thread_ p = Looping ph) ∧ (running_ p = false ↔ p = new)) ∧
  (owner p = Joining → ∃ n, n ≤ 3 ∧ join (turns l n p) = Some new).
Proof.
  intros Hok%periodic_run_ok. destruct p as [r h o]. unfold periodic_ok in Hok. cbn in *. split_and!.
  - by intros ->.
  - intros ->. destruct h; [subst r|subst r|done]; split; split; try done; eauto; by intros [].
  - intros ->. destruct h as [|ph|]; [done| |exists 0; subst; split; [lia|reflexivity]]. subst r.
    destruct (turns_returns l ph) as (n & ? & _ & ?). by exists n.
Qed.

(** Stopped while it sleeps the second of its sixty seconds. *)
Example background_thread_stops_witness :
  ∃ n, n ≤ 3 ∧ join (turns (AntiEntropy 60) n (mkPeriodic false (Looping (Sleeping 59)) Joining)) = Some new.
Proof.
  apply (background_thread_stops (AntiEntropy 60)); [|reflexivity].
  eapply rtc_l; [by apply step_start|].
  eapply rtc_l; [by apply step_loop|].
  eapply rtc_l; [by apply step_loop|].
  by apply rtc_once, (step_stop _ (mkPeriodic true (Looping (Sleeping 59)) Idle)).
Defined.

End Periodic.

(** ** Detached workers of the coordinator *)

Module Background.

(** A worker: its function runs, or has returned and the count is still to be
    taken down. *)
Inductive Worker := Running | Finishing.

Record Background := mkBackground {
  outstanding : Z;
  workers : list Worker;
  destroyed : bool;
}.

Definition make : Background := mkBackground 0 [] false.

(** [spawnBackground]: count, then launch. *)
Definition count_up (b : Background) : Background := mkBackground (outstanding b + 1) (workers b) (destroyed b).
Definition launch (b : Background) : Background := mkBackground (outstanding b) (workers b ++ [Running]) (destroyed b).
Definition spawnBackground (b : Background) : Background := launch (count_up b).

(** The worker at index [i]: [fn] returns; the count goes down. *)
Definition returns (i : nat) (b : Background) : option Background :=
  match workers b !! i with
  | Some Running => Some (mkBackground (outstanding b) (<[i := Finishing]> (workers b)) (destroyed b))
  | _ => None
  end.
Definition count_down (i : nat) (b : Background) : option Background :=
  match workers b !! i with
  | Some Finishing => Some (mkBackground (outstanding b - 1) (delete i (workers b)) (destroyed b))
  | _ => None
  end.

(** The destructor returns when its wait is over. *)
Definition destroy (b : Background) : option Background :=
  if (outstanding b =? 0)%Z then Some (mkBackground (outstanding b) (workers b) true) else None.

(** Requests are coordinated only before the destruction; workers take their steps
    at any time. *)
Inductive step : Background → Background → Prop :=
| step_spawn b : destroyed b = false → step b (spawnBackground b)
| step_returns i b b' : returns i b = Some b' → step b b'
| step_down i b b' : count_down i b = Some b' → step b b'
| step_destroy b b' : destroyed b = false → destroy b = Some b' → step b b'.

Definition background_ok (b : Background) : Prop :=
  outstanding b = Z.of_nat (length (workers b)) ∧ (destroyed b = true → workers b = []).

Lemma background_step_ok b b' : step b b' → background_ok b → background_ok b'.
Proof.
  intros [c Hd|i c c' Hs|i c c' Hs|c c' Hd Hs] [Ho Hw]; destruct c as [o ws d]; unfold returns, count_down, destroy in *; cbn in *; subst o.
  - split; cbn; [rewrite length_app; cbn; lia|by rewrite Hd].
  - destruct (ws !! i) as [[]|] eqn:E; try done. injection Hs as <-. split; cbn; [by rewrite length_insert|].
    intros Hd. by rewrite (Hw Hd).
  - destruct (ws !! i) as [[]|] eqn:E; try done. injection Hs as <-. split; cbn.
    + pose proof (lookup_lt_Some _ _ _ E). rewrite length_delete; [lia|by eauto].
    + intros Hd. by rewrite (Hw Hd) in E.
  - destruct (Z.eqb_spec (Z.of_nat (length ws)) 0); [|done]. injection Hs as <-. split; [done|].
    intros _. cbn. destruct ws; [done|cbn in *; lia].
Qed.

Lemma background_run_ok b : rtc step make b → background_ok b.
Proof. apply (rtc_ind_r background_ok); [done|]. intros y z _ Hyz. by apply background_step_ok. Qed.

(** The steps the workers have left. *)
Definition left_to_do (b : Background) : nat :=
  foldr (λ w n, n + match w with Running => 2 | Finishing => 1 end) 0 (workers b).

(** One worker step. *)
Definition worker_step (b b' : Background) : Prop := ∃ i, returns i b = Some b' ∨ count_down i b = Some b'.

Lemma worker_progress b : workers b ≠ [] → ∃ b', worker_step b b' ∧ left_to_do b' < left_to_do b.
Proof.
  destruct b as [o [|w ws] d]; [done|]. intros _. destruct w.
  - exists (mkBackground o (Finishing :: ws) d). split; [exists 0; by left|]. unfold left_to_do. cbn. lia.
  - exists (mkBackground (o - 1) ws d). split; [exists 0; by right|]. unfold left_to_do. cbn. lia.
Qed.

Lemma workers_drain b : ∃ b', rtc worker_step b b' ∧ workers b' = [] ∧ destroyed b' = destroyed b.
Proof.
  remember (left_to_do b) as n eqn:Hn. revert b Hn. induction (lt_wf n) as [n _ IH]. intros b ->.
  destruct (decide (workers b = [])) as [He|Hne]; [by exists b|].
  destruct (worker_progress b Hne) as (c & Hc & Hlt). destruct (IH _ Hlt c eq_refl) as (b' & Hr & Hw & Hd).
  exists b'. split; [by eapply rtc_l|]. split; [done|]. rewrite Hd.
  destruct Hc as [i [H|H]]; unfold returns, count_down in H; by destruct (workers b !! i) as [[]|]; simplify_eq.
Qed.

(** C34: The coordinator outlives the threads it detached, and its destructor returns.
    In every state the count is the number of workers that have not taken it down, so
    once the destructor has returned no fan-out or repair thread is running; and from
    every state before that the workers alone can bring the count to zero and let the
    destructor return. *)
Theorem coordinator_outlives_workers b :
  rtc step make b →
  outstanding b = Z.of_nat (length (workers b)) ∧
  (destroyed b = true → workers b = []) ∧
  ∃ b', rtc worker_step b b' ∧ is_Some (destroy b').
Proof.
  intros Hr. destruct (background_run_ok b Hr) as [Ho Hw]. split_and!; [done..|].
  destruct (workers_drain b) as (b' & Hb & He & _). exists b'. split; [done|].
  assert (rtc step b b') as Hs.
  { revert Hb. apply (rtc_ind_r (λ c, rtc step b c)); [done|]. intros y z _ [i [H|H]] IH; (eapply rtc_r; [exact IH|]); by econstructor. }
  destruct (background_run_ok b') as [Ho' _]; [by etrans|]. unfold destroy. rewrite Ho', He. by eexists.
Qed.

(** Two replicas written to, one of which has answered. *)
Example coordinator_outlives_workers_witness :
  outstanding (mkBackground 2 [Running; Finishing] false) = 2%Z ∧
  ∃ b', rtc worker_step (mkBackground 2 [Running; Finishing] false) b' ∧ is_Some (destroy b').
Proof.
  destruct (coordinator_outlives_workers (mkBackground 2 [Running; Finishing] false)) as (H1 & _ & H2); [|done].
  eapply rtc_l; [by apply step_spawn|]. eapply rtc_l; [by apply step_spawn|].
  by apply rtc_once, (step_returns 1).
Defined.

End Background.
