(* ===== verification/Socket.v ===== *)
(** * Sockets (src/net/tcp_connect.cpp, src/net/tcp_client.cpp,
      TCPServer of src/net/tcp_server.cpp)

    The code that opens, uses and closes descriptors.  The kernel is a table of
    open sockets with their flags and timeouts, and a count of address lists not
    yet freed; what each system call returns is an argument ([Syscalls]), as are
    the schedules of the reads and writes (Framing.v).  [FD_SET] on a descriptor
    of [FD_SETSIZE] or more writes outside the set: such a run is [None].

    The theorems: [dial] returns a connected blocking socket with its timeouts or
    leaves nothing behind; a one-shot call is, as seen by its caller and by the
    process it calls, one of the three fates that Wire.v assumes of the network;
    and every connection the server accepts is owned by the queue or by exactly
    one worker until it is closed. *)
From S2P Require Import Prelude Clock Value Storage Ring Wire Framing Workers.
From Stdlib Require Import Ascii String ZArith Lia.
From stdpp Require Import base gmap list relations strings numbers.

Local Open Scope Z_scope.

(** ** The kernel *)

(** [timeval] of a number of milliseconds, with C++'s division. *)
Definition timeval (ms : Z) : Z * Z := (Z.quot ms 1000, Z.rem ms 1000 * 1000).

Record Sock := mkSock {
  s_flags : Z;
  s_rcvtimeo : option (Z * Z);
  s_sndtimeo : option (Z * Z);
}.

Record Kernel := mkKernel {
  fds : gmap Z Sock;
  addrinfos : Z;
}.

Definition O_NONBLOCK : Z := 2048.
Definition FD_SETSIZE : Z := 1024.

Definition sock_new : Sock := mkSock 2 None None.

Definition on_fd (f : Sock → Sock) (fd : Z) (k : Kernel) : Kernel := mkKernel (alter f fd (fds k)) (addrinfos k).
Definition close (fd : Z) (k : Kernel) : Kernel := mkKernel (delete fd (fds k)) (addrinfos k).
Definition F_GETFL (fd : Z) (k : Kernel) : Z := from_option s_flags (-1) (fds k !! fd).
Definition F_SETFL (fd flags : Z) : Kernel → Kernel :=
  on_fd (λ s, mkSock flags (s_rcvtimeo s) (s_sndtimeo s)) fd.
Definition SO_RCVTIMEO (fd : Z) (tv : Z * Z) : Kernel → Kernel :=
  on_fd (λ s, mkSock (s_flags s) (Some tv) (s_sndtimeo s)) fd.
Definition SO_SNDTIMEO (fd : Z) (tv : Z * Z) : Kernel → Kernel :=
  on_fd (λ s, mkSock (s_flags s) (s_rcvtimeo s) (Some tv)) fd.
Definition freeaddrinfo (k : Kernel) : Kernel := mkKernel (fds k) (addrinfos k - 1).

Inductive ConnectResult := Connected | InProgress | Refused.

(** What the calls made by one [dial] return: the resolver's error and whether it
    returned a list, the new descriptor, how the connect starts, what [select]
    returns when it may wait that long, and the result and value of [SO_ERROR]. *)
Record Syscalls := mkCalls {
  r_getaddrinfo : string → string → Z * bool;
  r_socket : Z;
  r_connect : ConnectResult;
  r_select : Z * Z → Z;
  r_getsockopt : Z * Z;
}.

Module tcpconnect.

Definition connectWithTimeout (r : Syscalls) (sock timeout_ms : Z) (k : Kernel) : option (bool * Kernel) :=
  let flags := F_GETFL sock k in
  let k := F_SETFL sock (Z.lor flags O_NONBLOCK) k in
  match r_connect r with
  | Connected => Some (true, F_SETFL sock flags k)
  | Refused => Some (false, k)
  | InProgress =>
      if FD_SETSIZE <=? sock then None
      else if r_select r (timeval timeout_ms) <=? 0 then Some (false, k)
      else
        let '(rc, soErr) := r_getsockopt r in
        if (rc <? 0) || negb (soErr =? 0) then Some (false, k)
        else Some (true, F_SETFL sock flags k)
  end.

Definition dial (r : Syscalls) (host : string) (port timeout_ms io_timeout_ms : Z) (k : Kernel) : option (Z * Kernel) :=
  let '(err, res) := r_getaddrinfo r host (to_string port) in
  if negb (err =? 0) || negb res then Some (-1, k)
  else
    let k := mkKernel (fds k) (addrinfos k + 1) in
    let sock := r_socket r in
    if sock <? 0 then Some (-1, freeaddrinfo k)
    else
      let k := mkKernel (<[sock := sock_new]> (fds k)) (addrinfos k) in
      match connectWithTimeout r sock timeout_ms k with
      | None => None
      | Some (false, k) => Some (-1, close sock (freeaddrinfo k))
      | Some (true, k) =>
          let k := freeaddrinfo k in
          let tv := timeval io_timeout_ms in
          Some (sock, SO_SNDTIMEO sock tv (SO_RCVTIMEO sock tv k))
      end.

(** The kernel hands out descriptors that are not in use. *)
Definition fresh_socket (r : Syscalls) (k : Kernel) : Prop := 0 ≤ r_socket r → fds k !! r_socket r = None.

(** A connected socket as [dial] promises it: blocking, with both timeouts. *)
Definition dialled (io_timeout_ms : Z) : Sock :=
  mkSock 2 (Some (timeval io_timeout_ms)) (Some (timeval io_timeout_ms)).

Lemma dial_spec r host port t io k sock k' :
  fresh_socket r k → dial r host port t io k = Some (sock, k') →
  (sock = -1 ∧ k' = k) ∨
  (0 ≤ sock ∧ fds k !! sock = None ∧ k' = mkKernel (<[sock := dialled io]> (fds k)) (addrinfos k)).
Proof.
  destruct k as [fs ai]. intros Hf. unfold dial. destruct (r_getaddrinfo r _ _) as [err res].
  destruct (_ || _); [intros [= <- <-]; by left|]. unfold freeaddrinfo. cbn [fds addrinfos].
  destruct (Z.ltb_spec (r_socket r) 0) as [|Hs]; [intros [= <- <-]; left; split; [done|f_equal; cbn; lia]|].
  specialize (Hf Hs). cbn [fds] in Hf. unfold connectWithTimeout, F_GETFL, F_SETFL, on_fd. cbn [fds addrinfos].
  assert (∀ o : Z → Sock → Sock,
            mkKernel (delete (r_socket r) (alter (o 0) (r_socket r) (<[r_socket r := sock_new]> fs))) (ai + 1 - 1) =
            mkKernel fs ai) as Hclosed.
  { intros o. f_equal; [|lia]. rewrite alter_insert_eq, delete_insert_eq. by apply delete_id. }
  rewrite lookup_insert_eq. cbn [from_option].
  destruct (r_connect r).
  - intros [= <- <-]. right. split_and!; [done..|]. unfold SO_SNDTIMEO, SO_RCVTIMEO, on_fd. cbn [fds addrinfos].
    f_equal; [|lia]. by rewrite !alter_insert_eq.
  - destruct (_ <=? _); [done|]. destruct (_ <=? _).
    + intros [= <- <-]. left. split; [done|]. unfold close. cbn [fds addrinfos].
      exact (Hclosed (λ _ s, mkSock (Z.lor (s_flags sock_new) O_NONBLOCK) (s_rcvtimeo s) (s_sndtimeo s))).
    + destruct (r_getsockopt r) as [rc soErr]. destruct (_ || _).
      * intros [= <- <-]. left. split; [done|]. unfold close. cbn [fds addrinfos].
        exact (Hclosed (λ _ s, mkSock (Z.lor (s_flags sock_new) O_NONBLOCK) (s_rcvtimeo s) (s_sndtimeo s))).
      * intros [= <- <-]. right. split_and!; [done..|]. unfold SO_SNDTIMEO, SO_RCVTIMEO, on_fd. cbn [fds addrinfos].
        f_equal; [|lia]. by rewrite !alter_insert_eq.
  - intros [= <- <-]. left. split; [done|]. unfold close. cbn [fds addrinfos].
    exact (Hclosed (λ _ s, mkSock (Z.lor (s_flags sock_new) O_NONBLOCK) (s_rcvtimeo s) (s_sndtimeo s))).
Qed.

(** The deadline given to [select] and to the socket is the one asked for. *)
Lemma timeval_ok ms : 0 ≤ ms →
  (timeval ms).1 * 1000000 + (timeval ms).2 = ms * 1000 ∧ 0 ≤ (timeval ms).2 < 1000000.
Proof. intros H. unfold timeval. cbn. pose proof (Z.quot_rem' ms 1000). pose proof (Z.rem_bound_pos ms 1000). lia. Qed.

(** [dial] leaves nothing behind.  Whatever the system calls return, it either
    gives up with the descriptor table and the address lists as they were before,
    or returns a descriptor that was not in use, connected, back in blocking mode
    and with the send and receive timeouts asked for; no other descriptor changes.
    It returns whenever the descriptor fits an [fd_set]. *)
Theorem dial_leaves_nothing_behind r host port t io k :
  fresh_socket r k → r_socket r < FD_SETSIZE → 0 ≤ io →
  ∃ sock k', dial r host port t io k = Some (sock, k') ∧
    ((sock = -1 ∧ k' = k) ∨
     (0 ≤ sock ∧ fds k !! sock = None ∧ k' = mkKernel (<[sock := dialled io]> (fds k)) (addrinfos k) ∧
      Z.land (s_flags (dialled io)) O_NONBLOCK = 0 ∧
      (timeval io).1 * 1000000 + (timeval io).2 = io * 1000)).
Proof.
  intros Hf Hs Hio. destruct (dial r host port t io k) as [[sock k']|] eqn:E.
  - exists sock, k'. split; [done|]. destruct (dial_spec _ _ _ _ _ _ _ _ Hf E) as [?|(? & ? & ?)]; [by left|right].
    split_and!; try done. by apply timeval_ok.
  - exfalso. revert E. unfold dial, connectWithTimeout. destruct (r_getaddrinfo r _ _). destruct (_ || _); [done|].
    destruct (_ <? _); [done|]. destruct (r_connect r); [done| |done].
    destruct (Z.leb_spec FD_SETSIZE (r_socket r)); [lia|]. destruct (_ <=? _); [done|].
    destruct (r_getsockopt r). by destruct (_ || _).
Qed.

(** With 1024 descriptors open, a connect that does not complete at once writes
    outside its [fd_set]. *)
Lemma dial_overruns_fd_set host port t io :
  dial (mkCalls (λ _ _, (0, true)) 1024 InProgress (λ _, 1) (0, 0)) host port t io (mkKernel ∅ 0) = None.
Proof. reflexivity. Qed.

Definition answered : Syscalls := mkCalls (λ _ _, (0, true)) 5 InProgress (λ _, 1) (0, 0).

Lemma dial_leaves_nothing_behind_witness :
  dial answered "n2" 5000 1500 1500 (mkKernel ∅ 0) =
    Some (5, mkKernel {[ 5 := mkSock 2 (Some (1, 500000)) (Some (1, 500000)) ]} 0).
Proof.
  destruct (dial_leaves_nothing_behind answered "n2" 5000 1500 1500 (mkKernel ∅ 0)) as (s & k & He & [[-> ->]|(_ & _ & -> & _)]);
    [by intros _|reflexivity|discriminate|vm_compute in He; discriminate|].
  rewrite He. vm_compute in He. injection He as <-. reflexivity.
Defined.

End tcpconnect.

(** ** One-shot calls *)

Module TCPClient.
Import framing.

(** [arrives] are the bytes the peer's replies bring.  [None]: not returned.
    Otherwise the reply, the bytes written, and the kernel. *)
Definition sendAndReceiveFramed (r : Syscalls) (evs : list IO) (arrives host : string) (port : Z)
    (data : string) (timeout_ms : Z) (k : Kernel) : option (string * string * Kernel) :=
  match tcpconnect.dial r host port timeout_ms timeout_ms k with
  | None => None
  | Some (sock, k) =>
      if sock <? 0 then Some ("", "", k)
      else
        match sendFramed evs "" data with
        | None => None
        | Some (false, out, _) => Some ("", out, close sock k)
        | Some (true, out, evs) =>
            match recvFramed evs arrives with
            | None => None
            | Some (None, _, _) => Some ("", out, close sock k)
            | Some (Some reply, _, _) => Some (reply, out, close sock k)
            end
        end
  end.

(** The requests a connection has handed to the node so far. *)
Fixpoint handled (fuel : nat) (evs : list IO) (input : string) : list string :=
  match fuel with
  | O => []
  | S fuel =>
      match recvFramed evs input with
      | Some (Some payload, evs, input) => payload :: handled fuel evs input
      | _ => []
      end
  end.

(** They are what [handleConnection] handles. *)
Lemma serve_handled {A} (handle : string → A → A) fuel evs input st st' :
  serve_loop handle fuel evs input st = Some st' → st' = foldl (λ st p, handle p st) st (handled fuel evs input).
Proof.
  revert evs input st. induction fuel as [|fuel IH]; intros evs input st; [done|]. cbn.
  destruct (recvFramed evs input) as [[[[p|] e] i]|]; [apply IH|by intros [= <-]|done].
Qed.

Lemma recv_nothing evs : match recvFramed evs "" with Some (Some _, _, _) => False | _ => True end.
Proof.
  destruct (recvFramed evs "") as [[[[p|] e] i]|] eqn:E; try done.
  apply recv_sound in E as (d & E & _ & Hd & _). destruct d; cbn in Hd; [lia|discriminate E].
Qed.

Lemma handled_nothing n evs : handled n evs "" = [].
Proof.
  destruct n as [|n]; [done|]. cbn. pose proof (recv_nothing evs). by destruct (recvFramed evs "") as [[[[]]]|].
Qed.

(** Any string in memory. *)
Definition fits (s : string) : Prop := is_u64 (Z.of_nat (String.length s)).

(** Of one frame sent, whatever part of it arrives, the receiver handles the
    payload once or nothing. *)
Lemma handled_once fuel evs sent data tail :
  fits data → frame data = sent +:+ tail →
  handled fuel evs sent = [] ∨ (handled fuel evs sent = [data] ∧ sent = frame data).
Proof.
  intros Hd Hs. destruct fuel as [|fuel]; [by left|]. cbn.
  destruct (recvFramed evs sent) as [[[[p|] e] i]|] eqn:E; [|by left..].
  destruct (recv_prefix _ _ _ _ _ _ _ Hd Hs E) as (-> & -> & ->). right. split; [|done]. f_equal.
  apply handled_nothing.
Qed.

Lemma close_dialled sock io k : fds k !! sock = None → 
  close sock (mkKernel (<[sock := tcpconnect.dialled io]> (fds k)) (addrinfos k)) = k.
Proof. intros Hn. unfold close. cbn. rewrite delete_insert_id by done. by destruct k. Qed.

(** What a call writes is the beginning of its frame. *)
Lemma writeAll_prefix evs out data ok out' evs' :
  writeAll evs out data = Some (ok, out', evs') → ∃ tail, out +:+ data = out' +:+ tail ∧ (ok = true → tail = "").
Proof.
  revert out data. induction evs as [|e evs IH]; intros out data; destruct data as [|c data]; cbn [writeAll].
  1, 3: intros [= <- <- <-]; exists ""; done.
  - done.
  - destruct e; [|apply IH|].
    + intros (tl & Ht & Hok)%IH. exists tl. split; [|done]. rewrite <- Ht, str_app_assoc. f_equal.
      symmetry. apply (chunk_split n _ (String c data)).
    + intros [= <- <- <-]. by exists (String c data).
Qed.

Lemma send_prefix evs data ok out evs' :
  sendFramed evs "" data = Some (ok, out, evs') → ∃ tail, frame data = out +:+ tail.
Proof.
  unfold sendFramed, frame. destruct (writeAll evs "" (header data)) as [[[[] o] e]|] eqn:E; [| |done].
  - apply writeAll_prefix in E as (t1 & Ht1 & Hok). rewrite (Hok eq_refl), str_app_nil_r, str_app_empty_l in Ht1.
    intros (tl & Ht & _)%writeAll_prefix. exists tl. by rewrite Ht1.
  - intros [= <- <- <-]. apply writeAll_prefix in E as (t1 & Ht1 & _). rewrite str_app_empty_l in Ht1.
    exists (t1 +:+ data). by rewrite Ht1, str_app_assoc.
Qed.

Section fate.
Context {S : Type} `{StorageLaws S}.

(** The process at [a] after the requests of a connection, and the replies it
    wrote, framed. *)
Definition served (a : Addr) (w : World S) (reqs : list string) : World S :=
  foldl (λ w q, (serve_at a q w).1) w reqs.
Fixpoint replies (a : Addr) (w : World S) (reqs : list string) : string :=
  match reqs with
  | [] => ""
  | q :: reqs =>
      match (serve_at a q w).2 with Some reply => frame reply | None => "" end
      +:+ replies a (serve_at a q w).1 reqs
  end.

(** C26: A one-shot call over real sockets has one of the three fates.  The call
    writes some part of its frame, some part of what it wrote arrives, and some part
    of the replies comes back, in whatever pieces and with whatever failures.  Then
    for some fate the process called and the caller end exactly as the network model
    says: no connection and nothing handled; a failure, the request handled once or
    not at all; or a round trip, the reply being the one the process gave.  The
    caller's descriptors are as they were. *)
Theorem one_shot_call_is_a_fate r evs sevs n peer data t k w reply out k' delivered lost arrives missing :
  fits data → from_option fits True (serve_at (addr peer) data w).2 → tcpconnect.fresh_socket r k →
  sendAndReceiveFramed r evs arrives (host peer) (port peer) data t k = Some (reply, out, k') →
  out = delivered +:+ lost →
  let reqs := handled n sevs delivered in
  replies (addr peer) w reqs = arrives +:+ missing →
  (∃ fate, Wire.sendAndReceiveFramed fate peer data w = (served (addr peer) w reqs, reply)) ∧
  k' = k.
Proof.
  intros Hd Hrep Hf Hcall Hout reqs Harr. subst reqs. unfold sendAndReceiveFramed in Hcall.
  destruct (tcpconnect.dial _ _ _ _ _ _) as [[sock k1]|] eqn:Ed; [|done].
  destruct (tcpconnect.dial_spec _ _ _ _ _ _ _ _ Hf Ed) as [[-> ->]|(Hs & Hfree & ->)].
  { cbn in Hcall. injection Hcall as <- <- <-. destruct delivered; [|done].
    rewrite handled_nothing. split; [by exists NoConnection|done]. }
  destruct (Z.ltb_spec sock 0); [lia|]. rewrite close_dialled in Hcall by done.
  destruct (sendFramed evs "" data) as [[[ok o] e]|] eqn:Es; [|done].
  destruct (send_prefix _ _ _ _ _ Es) as [tail Ht].
  assert (o = out ∧ k' = k ∧ (reply = "" ∨ ∃ e' i', recvFramed e arrives = Some (Some reply, e', i'))) as (-> & -> & Hr).
  { destruct ok; [|by injection Hcall as <- <- <-; auto].
    destruct (recvFramed e arrives) as [[[[p|] e'] i']|] eqn:Er; [| |done]; injection Hcall as <- <- <-; eauto 8. }
  split; [|done]. subst out. rewrite str_app_assoc in Ht.
  destruct (handled_once n sevs delivered data _ Hd Ht) as [Hno|[Hone ->]].
  - rewrite Hno in Harr |- *. cbn in Harr. destruct arrives; [|done]. exists (Wire.Broken false).
    destruct Hr as [->|(e' & i' & Hr)]; [done|]. pose proof (recv_nothing e) as Hn. by rewrite Hr in Hn.
  - rewrite Hone in Harr |- *. unfold served, Wire.sendAndReceiveFramed, attempt. cbn [foldl replies] in Harr |- *.
    rewrite str_app_nil_r in Harr.
    destruct Hr as [->|(e' & i' & Hr)]; [by exists (Wire.Broken true)|].
    exists RoundTrip. destruct (serve_at (addr peer) data w) as [w' [rp|]]; cbn in Harr, Hrep |- *.
    + by destruct (recv_prefix _ _ _ _ _ _ _ Hrep Harr Hr) as (-> & _).
    + destruct arrives; [|done]. pose proof (recv_nothing e) as Hn. by rewrite Hr in Hn.
Qed.

End fate.

Definition peer2 : NodeInfo := mkNode "n2" "10.0.0.2" 5002.
Definition alone : World (gmap string string) := {[ addr peer2 := ∅ ]}.
Definition patient : list IO := replicate 40 (Moves 2).

Lemma one_shot_call_is_a_fate_witness :
  ∃ fate, Wire.sendAndReceiveFramed fate peer2 "READ|k|n1" alone =
    (served (addr peer2) alone (handled 5 patient (frame "READ|k|n1")), "VAL|NOTFOUND").
Proof.
  destruct (one_shot_call_is_a_fate (S := gmap string string) tcpconnect.answered patient patient 5 peer2 "READ|k|n1" 500
              (mkKernel ∅ 0) alone "VAL|NOTFOUND" (frame "READ|k|n1") (mkKernel ∅ 0) (frame "READ|k|n1") ""
              (frame "VAL|NOTFOUND") "") as [[fate Hfate] _].
  - vm_decide.
  - vm_decide.
  - intros _. reflexivity.
  - vm_compute. reflexivity.
  - vm_compute. reflexivity.
  - vm_compute. reflexivity.
  - exists fate. exact Hfate.
Defined.

End TCPClient.

(** ** The server *)

Module TCPServer.
Import ThreadPool.

(** Linux's option names, which are numbers and not bits. *)
Definition SO_REUSEADDR : Z := 2.
Definition SO_REUSEPORT : Z := 15.

(** What the calls of [start] before its loop return: the listening descriptor,
    the option that is set, or the exit. *)
Definition listen_on (socket_ setsockopt_ bind_ listen_ : Z) : option (Z * Z) :=
  if socket_ =? 0 then None
  else if negb (setsockopt_ =? 0) then None
  else if bind_ <? 0 then None
  else if listen_ <? 0 then None
  else Some (socket_, Z.lor SO_REUSEADDR SO_REUSEPORT).

(** The option set is the one for sharing a port; reuse of the address is not
    asked for. *)
Lemma only_reuseport s a b c r : listen_on s a b c = Some r → r.2 = SO_REUSEPORT.
Proof. unfold listen_on. repeat (destruct (_ : bool); [done|]). by intros [= <-]. Qed.

Record Server := mkServer {
  kernel : Kernel;
  pool_ : @ThreadPool Z;
  idle_timeout_ms_ : Z;
}.

(** The constructor. *)
Definition new_server (workers : nat) (idle_timeout_ms : Z) (k : Kernel) : Server :=
  mkServer k (ThreadPool.new workers) idle_timeout_ms.

(** One turn of the accept loop; the task of a connection is its descriptor. *)
Definition accept_turn (new_socket : Z) (s : Server) : Server :=
  if new_socket <? 0 then s
  else
    let k := mkKernel (<[new_socket := sock_new]> (fds (kernel s))) (addrinfos (kernel s)) in
    let '(ok, p) := enqueue new_socket (pool_ s) in
    mkServer (if ok then k else close new_socket k) p (idle_timeout_ms_ s).

(** A worker's turn: taking a connection sets its idle timeout, and the end of
    [handleConnection] closes it. *)
Definition worker_turn (i : nat) (s : Server) : option Server :=
  p ← workerLoop i (pool_ s);
  let k := kernel s in
  let k :=
    match workers_ (pool_ s) !! i, workers_ p !! i with
    | Some (Running fd), _ => close fd k
    | _, Some (Running fd) => SO_RCVTIMEO fd (timeval (idle_timeout_ms_ s)) k
    | _, _ => k
    end in
  Some (mkServer k p (idle_timeout_ms_ s)).

Inductive sstep : Server → Server → Prop :=
| ss_accept fd s : (0 ≤ fd → fds (kernel s) !! fd = None) → sstep s (accept_turn fd s)
| ss_worker i s s' : worker_turn i s = Some s' → sstep s s'
| ss_shutdown s : sstep s (mkServer (kernel s) (shutdown (pool_ s)) (idle_timeout_ms_ s)).

(** The connections held: waiting in the queue, or being served. *)
Definition held (s : Server) : list Z := tasks_ (pool_ s) ++ running (pool_ s).

(** The open descriptors are those open before and those in [l], each once. *)
Definition owns (before : gmap Z Sock) (l : list Z) (m : gmap Z Sock) : Prop :=
  NoDup l ∧ (∀ fd, fd ∈ l → before !! fd = None) ∧
  ∀ fd, is_Some (m !! fd) ↔ (fd ∈ l ∨ is_Some (before !! fd)).

Definition server_ok (before : gmap Z Sock) (s : Server) : Prop := owns before (held s) (fds (kernel s)).

#[local] Instance owns_proper before : Proper ((≡ₚ) ==> (=) ==> iff) (owns before).
Proof.
  intros l l' Hl m m' <-. unfold owns. rewrite Hl.
  by setoid_rewrite (λ fd, elem_of_Permutation_proper fd l l' Hl).
Qed.

Lemma owns_add before l m fd x : m !! fd = None → owns before l m → owns before (fd :: l) (<[fd := x]> m).
Proof.
  intros Hm (Hnd & Hb & Hf). assert (¬ (fd ∈ l ∨ is_Some (before !! fd))) as Hn by (rewrite <- Hf, Hm; by intros [? ?]).
  split_and!; [constructor; [tauto|done]| |].
  - intros fd' [->|Hi]%elem_of_cons; [apply eq_None_not_Some; tauto|auto].
  - intros fd'. rewrite elem_of_cons, lookup_insert_is_Some. specialize (Hf fd'). destruct (decide (fd = fd')); naive_solver.
Qed.

Lemma owns_remove before l m fd : owns before (fd :: l) m → owns before l (delete fd m).
Proof.
  intros ([Hni Hnd]%list.NoDup_cons & Hb & Hf). split_and!; [done|set_solver|]. intros fd'.
  rewrite lookup_delete_is_Some, Hf, elem_of_cons. specialize (Hb fd ltac:(left)).
  destruct (decide (fd' = fd)) as [->|]; [rewrite Hb|]; naive_solver.
Qed.

Lemma owns_dom before l m m' :
  (∀ fd, is_Some (m' !! fd) ↔ is_Some (m !! fd)) → owns before l m → owns before l m'.
Proof. intros Hm (? & ? & Hf). split_and!; [done..|]. intros fd. by rewrite Hm. Qed.

Lemma worker_held i (p p' : @ThreadPool Z) :
  workerLoop i p = Some p' →
  match workers_ p !! i with
  | Some (Running fd) => tasks_ p ++ running p ≡ₚ fd :: tasks_ p' ++ running p'
  | _ => tasks_ p ++ running p ≡ₚ tasks_ p' ++ running p'
  end.
Proof.
  unfold workerLoop. destruct (workers_ p !! i) as [[|fd|]|] eqn:Hi; try done; unfold running.
  - destruct (tasks_ p) as [|fd rest] eqn:Ht.
    + destruct (stopping_ p); [|done]. intros [= <-]. cbn. rewrite Ht. pose proof (running_insert _ i _ Exited Hi) as Hr.
      cbn in Hr. rewrite !app_nil_r in Hr. by rewrite Hr.
    + intros [= <-]. cbn. pose proof (running_insert _ i _ (Running fd) Hi) as Hr. cbn in Hr. rewrite app_nil_r in Hr.
      rewrite <- Hr. solve_Permutation.
  - intros [= <-]. cbn. pose proof (running_insert _ i _ Waiting Hi) as Hr. cbn in Hr. rewrite app_nil_r in Hr.
    rewrite Hr. solve_Permutation.
Qed.

Lemma running_new n : running (ThreadPool.new n : @ThreadPool Z) = [].
Proof. unfold running. cbn. generalize (if bool_decide (n = 0%nat) then 1%nat else n). intros m. by induction m. Qed.

Lemma timeout_keeps_fds fd tv k fd' : is_Some (fds (SO_RCVTIMEO fd tv k) !! fd') ↔ is_Some (fds k !! fd').
Proof. unfold SO_RCVTIMEO, on_fd. cbn. apply lookup_alter_is_Some. Qed.

Lemma server_step_ok before s s' : server_ok before s → sstep s s' → server_ok before s'.
Proof.
  unfold server_ok. intros Hok Hstep. destruct Hstep as [fd s Hfree|i s s' Hw|s]; [| |done].
  - unfold accept_turn. destruct (Z.ltb_spec fd 0) as [|Hfd]; [done|]. specialize (Hfree Hfd).
    unfold enqueue. destruct (stopping_ (pool_ s)); cbn; [by rewrite delete_insert_id|].
    assert (held s ++ [fd] ≡ₚ fd :: held s) as Hp by solve_Permutation.
    unfold held. cbn. rewrite <- app_assoc, (Permutation_app_comm [fd]), app_assoc. fold (held s).
    change (running _) with (running (pool_ s)). fold (held s). rewrite Hp. by apply owns_add.
  - unfold worker_turn in Hw. destruct (workerLoop i (pool_ s)) as [p|] eqn:Ew; [|done]. injection Hw as <-.
    apply worker_held in Ew. cbn. unfold held in Hok |- *. cbn.
    destruct (workers_ (pool_ s) !! i) as [[|fd|]|]; rewrite Ew in Hok; [|by apply owns_remove| |];
      (destruct (workers_ p !! i) as [[|fd|]|]; try done; eapply owns_dom; [intros fd'; apply timeout_keeps_fds|done]).
Qed.

(** C27: The server loses no connection and no two workers share one.  From its
    start, after any interleaving of accepted and failed connections, workers
    taking and finishing them, and a shutdown, the descriptors open besides those
    the process had are exactly those of the connections in the queue or in the
    hands of a worker, each held once: none leaks, and none is closed while a worker
    still serves it. *)
Theorem accepted_connections_have_one_owner k n idle s :
  rtc sstep (new_server n idle k) s →
  NoDup (held s) ∧ (∀ fd, fd ∈ held s → fds k !! fd = None) ∧
  ∀ fd, is_Some (fds (kernel s) !! fd) ↔ (fd ∈ held s ∨ is_Some (fds k !! fd)).
Proof.
  intros Hr. eapply (rtc_ind_r (server_ok (fds k))); [|intros y z _ Hyz Hy; by eapply server_step_ok|exact Hr].
  unfold server_ok, held, new_server. cbn [pool_ kernel]. rewrite running_new. cbn [tasks_ ThreadPool.new app]. split_and!; [constructor|by intros ? ?%elem_of_nil|].
  intros fd. rewrite elem_of_nil. tauto.
Qed.

(** Two connections on one worker: 7 is being served, 8 waits. *)
Definition serving : Server :=
  default (new_server 1 1000 (mkKernel ∅ 0))
    (worker_turn 0 (accept_turn 8 (accept_turn (-1) (accept_turn 7 (new_server 1 1000 (mkKernel ∅ 0)))))).

Lemma accepted_connections_have_one_owner_witness :
  held serving = [8; 7] ∧ (is_Some (fds (kernel serving) !! 7) ↔ (7 ∈ held serving ∨ is_Some ((∅ : gmap Z Sock) !! 7))).
Proof.
  split; [vm_compute; reflexivity|].
  apply (accepted_connections_have_one_owner (mkKernel ∅ 0) 1 1000 serving).
  eapply rtc_l; [apply (ss_accept 7); intros _; vm_compute; reflexivity|].
  eapply rtc_l; [apply (ss_accept (-1)); intros _; vm_compute; reflexivity|].
  eapply rtc_l; [apply (ss_accept 8); intros _; vm_compute; reflexivity|].
  eapply rtc_l; [apply (ss_worker 0); vm_compute; reflexivity|]. apply rtc_refl.
Defined.

End TCPServer.
