(* ===== verification/Merkle.v ===== *)
(** * Merkle trees (src/antientropy/merkle_tree.h, src/antientropy/merkle_tree.cpp)

    A complete binary tree in level order: the root at index 1, the children of
    [i] at [2 i] and [2 i + 1], the leaves from [2 ^ depth] on.  A key belongs to
    the leaf of its top [depth] bits, leaves accumulate value hashes with
    exclusive or, and so do inner nodes.

    The theorems: [build] makes every inner node the exclusive or of its
    children, so the root is that of all leaves; [diff] ends and reports exactly
    the differing leaves that differ at every ancestor too; a single divergent
    leaf is always among them; and the range reported for a leaf holds exactly
    the hashes that belong to it.  What cancels out is not seen. *)
From S2P Require Import Prelude.
From Stdlib Require Import ZArith Lia.
From stdpp Require Import base sets list numbers.

Module MerkleTree.

Record MerkleTree := mkTree {
  depth_ : nat;
  leaf_start_ : nat;
  nodes_ : list Z;
}.

Definition kDefaultDepth : nat := 15.

Definition new (depth : nat) : MerkleTree :=
  let leaf_start := 2 ^ depth in mkTree depth leaf_start (replicate (leaf_start * 2) 0%Z).

Definition with_nodes (l : list Z) (t : MerkleTree) : MerkleTree := mkTree (depth_ t) (leaf_start_ t) l.

(** [key_hash >> (64 - depth_)]. *)
Definition leaf_of (depth : nat) (key_hash : Z) : nat := Z.to_nat (Z.shiftr key_hash (64 - Z.of_nat depth)).

Definition insert (key_hash value_hash : Z) (t : MerkleTree) : MerkleTree :=
  let leaf_idx := leaf_of (depth_ t) key_hash in
  with_nodes (alter (λ h, Z.lxor h value_hash) (leaf_start_ t + leaf_idx) (nodes_ t)) t.

(** The loop from [i] down to 1. *)
Fixpoint build_loop (i : nat) (nodes : list Z) : list Z :=
  match i with
  | O => nodes
  | S i' => build_loop i' (<[i := Z.lxor (nodes !!! (2 * i)) (nodes !!! (2 * i + 1))]> nodes)
  end.

Definition build (t : MerkleTree) : MerkleTree := with_nodes (build_loop (leaf_start_ t - 1) (nodes_ t)) t.

Definition rootHash (t : MerkleTree) : Z :=
  if bool_decide (1 < length (nodes_ t)) then nodes_ t !!! 1 else 0%Z.

Definition nodeHash (index : nat) (t : MerkleTree) : Z := default 0%Z (nodes_ t !! index).

Definition nodeCount (t : MerkleTree) : nat := length (nodes_ t).

Definition clear (t : MerkleTree) : MerkleTree := with_nodes ((λ _, 0%Z) <$> nodes_ t) t.

Record DiffRange := mkRange { leaf_index : nat; range_start : Z; range_end : Z }.

(** For a tree of depth at least one; at depth zero the C++ shift is by 64. *)
Definition range_of (depth leaf_idx : nat) : DiffRange :=
  let range_bits := u64 (Z.shiftl (Z.of_nat leaf_idx) (64 - Z.of_nat depth)) in
  let range_size := u64 (Z.shiftl 1 (64 - Z.of_nat depth)) in
  mkRange leaf_idx range_bits
    (if (range_size =? 0)%Z then U64_MAX else u64 (range_bits + range_size - 1)).

Definition same (a b : MerkleTree) (i : nat) : bool := (nodes_ a !!! i =? nodes_ b !!! i)%Z.

(** The body of the loop over the queue: the next queue and the result. *)
Definition visit (a b : MerkleTree) (acc : list nat * list DiffRange) (idx : nat) : list nat * list DiffRange :=
  let '(next, result) := acc in
  if same a b idx then acc
  else if bool_decide (leaf_start_ a ≤ idx)
  then (next, result ++ [range_of (depth_ a) (idx - leaf_start_ a)])
  else (next ++ [2 * idx; 2 * idx + 1], result).

(** The [while] loop; [None] when the fuel does not suffice. *)
Fixpoint bfs (fuel : nat) (a b : MerkleTree) (queue : list nat) (result : list DiffRange)
  : option (list DiffRange) :=
  match queue with
  | [] => Some result
  | _ =>
      match fuel with
      | O => None
      | S fuel =>
          let '(next, result) := foldl (visit a b) ([], result) queue in bfs fuel a b next result
      end
  end.

(** One turn per level is enough. *)
Definition diff (a b : MerkleTree) : option (list DiffRange) :=
  if negb (bool_decide (depth_ a = depth_ b)) then Some []
  else if (rootHash a =? rootHash b)%Z then Some []
  else bfs (S (depth_ a)) a b [1] [].

(** ** Well-formed trees *)

Record tree_ok (t : MerkleTree) : Prop := {
  to_start : leaf_start_ t = 2 ^ depth_ t;
  to_nodes : length (nodes_ t) = 2 * leaf_start_ t;
}.

(** Every inner node holds the exclusive or of its children. *)
Definition built (t : MerkleTree) : Prop :=
  ∀ i, 1 ≤ i < leaf_start_ t → nodes_ t !!! i = Z.lxor (nodes_ t !!! (2 * i)) (nodes_ t !!! (2 * i + 1)).

Lemma pow2_pos d : 0 < 2 ^ d.
Proof. pose proof (Nat.pow_nonzero 2 d). lia. Qed.

Lemma new_ok d : tree_ok (new d).
Proof. split; cbn; [done|]. rewrite length_replicate. lia. Qed.

Lemma insert_ok k v t : tree_ok t → tree_ok (insert k v t).
Proof. intros [H1 H2]. split; cbn; [done|]. by rewrite length_alter. Qed.

Lemma build_loop_length i l : length (build_loop i l) = length l.
Proof. revert l. induction i as [|i IH]; intros l; [done|]. cbn [build_loop]. by rewrite IH, length_insert. Qed.

Lemma build_ok t : tree_ok t → tree_ok (build t).
Proof. intros [H1 H2]. split; cbn; [done|]. by rewrite build_loop_length. Qed.

(** The loop writes below [i + 1] only. *)
Lemma build_loop_high i l j : i < j → build_loop i l !!! j = l !!! j.
Proof.
  revert l. induction i as [|i IH]; intros l Hj; [done|]. cbn [build_loop].
  rewrite IH by lia. by rewrite list_lookup_total_insert_ne by lia.
Qed.

Lemma build_loop_spec i l j :
  1 ≤ j ≤ i → 2 * i + 1 < length l →
  build_loop i l !!! j = Z.lxor (build_loop i l !!! (2 * j)) (build_loop i l !!! (2 * j + 1)).
Proof.
  revert l. induction i as [|i IH]; intros l Hj Hl; [lia|]. cbn [build_loop].
  set (l' := <[S i := _]> l).
  destruct (decide (j = S i)) as [->|Hne]; [|apply IH; [lia|unfold l'; rewrite length_insert; lia]].
  rewrite !build_loop_high by lia. unfold l'.
  rewrite list_lookup_total_insert_eq by lia. by rewrite !list_lookup_total_insert_ne by lia.
Qed.

Lemma build_built t : tree_ok t → built (build t).
Proof.
  intros [H1 H2] i Hi. cbn in *. apply build_loop_spec; lia.
Qed.

(** ** Levels *)

Definition level (t : MerkleTree) (l : nat) : list Z := (λ i, nodes_ t !!! i) <$> seq (2 ^ l) (2 ^ l).

Lemma seq_double s n : (seq s n ≫= λ i, [2 * i; 2 * i + 1]) = seq (2 * s) (2 * n).
Proof.
  revert s. induction n as [|n IH]; intros s; [done|]. cbn -[Nat.mul]. rewrite IH.
  replace (2 * S n) with (S (S (2 * n))) by lia. cbn -[Nat.mul].
  replace (S (S (2 * s))) with (2 * S s) by lia. by replace (S (2 * s)) with (2 * s + 1) by lia.
Qed.

Lemma level_children t l :
  built t → 2 ^ S l ≤ leaf_start_ t → xor_all (level t l) = xor_all (level t (S l)).
Proof.
  intros Hb Hl. unfold level. rewrite !Nat.pow_succ_r' in *. rewrite <- seq_double.
  assert (Forall (λ i, 1 ≤ i < leaf_start_ t) (seq (2 ^ l) (2 ^ l))) as Hs.
  { apply list.Forall_forall. intros i Hi%elem_of_seq. pose proof (pow2_pos l). lia. }
  induction Hs as [|i s Hi _ IH]; [done|]. rewrite bind_cons, fmap_app, xor_all_app, <- IH, fmap_cons.
  rewrite xor_all_cons. rewrite Hb by done.
  unfold xor_all at 2. cbn -[Nat.mul]. by rewrite Z.lxor_0_r.
Qed.

Lemma root_level t l :
  tree_ok t → built t → l ≤ depth_ t → rootHash t = xor_all (level t l).
Proof.
  intros [H1 H2] Hb. pose proof (pow2_pos (depth_ t)). induction l as [|l IH]; intros Hl.
  - unfold rootHash. rewrite bool_decide_eq_true_2 by lia. unfold level, xor_all. cbn. by rewrite Z.lxor_0_r.
  - rewrite IH by lia. apply level_children; [done|]. rewrite H1. by apply Nat.pow_le_mono_r.
Qed.

(** ** The search *)

Definition children (i : nat) : list nat := [2 * i; 2 * i + 1].

(** The [l] proper ancestors of [i] all differ. *)
Fixpoint seen (a b : MerkleTree) (l i : nat) : bool :=
  match l with
  | O => true
  | S l => seen a b l (i / 2) && negb (same a b (i / 2))
  end.

Definition queue_at (a b : MerkleTree) (l : nat) : list nat :=
  filter (λ i, seen a b l i = true) (seq (2 ^ l) (2 ^ l)).

Definition differing (a b : MerkleTree) (q : list nat) : list nat := filter (λ i, same a b i = false) q.

Lemma visit_inner a b q next res :
  Forall (λ i, i < leaf_start_ a) q →
  foldl (visit a b) (next, res) q = (next ++ (differing a b q ≫= children), res).
Proof.
  intros Hq. revert next. induction Hq as [|i q Hi _ IH]; intros next; [cbn; by rewrite app_nil_r|].
  cbn [foldl visit]. unfold differing in *. rewrite filter_cons. destruct (same a b i) eqn:E.
  - rewrite IH. by rewrite decide_False by congruence.
  - rewrite bool_decide_eq_false_2 by lia. rewrite IH, decide_True by done. cbn [mbind list_bind].
    by rewrite <- app_assoc.
Qed.

Lemma visit_leaves a b q next res :
  Forall (λ i, leaf_start_ a ≤ i) q →
  foldl (visit a b) (next, res) q =
  (next, res ++ ((λ i, range_of (depth_ a) (i - leaf_start_ a)) <$> differing a b q)).
Proof.
  intros Hq. revert res. induction Hq as [|i q Hi _ IH]; intros res; [cbn; by rewrite app_nil_r|].
  cbn [foldl visit]. unfold differing in *. rewrite filter_cons. destruct (same a b i) eqn:E.
  - rewrite IH. by rewrite decide_False by congruence.
  - rewrite bool_decide_eq_true_2 by done. rewrite IH, decide_True by done. cbn. by rewrite <- app_assoc.
Qed.

Lemma filter_children (P : nat → Prop) `{!∀ i, Decision (P i)} (q : list nat) :
  filter (λ c, P (c / 2)) (q ≫= children) = filter P q ≫= children.
Proof.
  induction q as [|i q IH]; [done|]. cbn [mbind list_bind]. unfold children at 1.
  assert ((2 * i) / 2 = i) as E1 by (rewrite Nat.mul_comm; by apply Nat.div_mul).
  assert ((2 * i + 1) / 2 = i) as E2 by (symmetry; apply (Nat.div_unique _ 2 _ 1); lia).
  cbn [app]. rewrite !filter_cons, E1, E2. case_decide; [|exact IH]. cbn [mbind list_bind children app].
  by rewrite IH.
Qed.

Lemma queue_step a b l : queue_at a b (S l) = differing a b (queue_at a b l) ≫= children.
Proof.
  unfold queue_at, differing. rewrite !Nat.pow_succ_r', <- seq_double, list_filter_filter.
  rewrite <- (filter_children (λ i, same a b i = false ∧ seen a b l i = true)).
  apply list_filter_iff. intros i. cbn [seen]. rewrite andb_true_iff, negb_true_iff. tauto.
Qed.

Lemma bfs_S fuel a b q res :
  bfs (S fuel) a b q res = let '(next, res) := foldl (visit a b) ([], res) q in bfs fuel a b next res.
Proof. destruct q; [by destruct fuel|done]. Qed.

Lemma queue_range a b l : Forall (λ i, 2 ^ l ≤ i < 2 ^ S l) (queue_at a b l).
Proof.
  apply list.Forall_forall. intros i [_ Hi%elem_of_seq]%list_elem_of_filter. rewrite Nat.pow_succ_r'. lia.
Qed.

Lemma bfs_levels a b n l res :
  leaf_start_ a = 2 ^ depth_ a → l + n = depth_ a →
  bfs (S n) a b (queue_at a b l) res =
  Some (res ++ ((λ i, range_of (depth_ a) (i - leaf_start_ a)) <$> differing a b (queue_at a b (depth_ a)))).
Proof.
  intros Hs. revert l. induction n as [|n IH]; intros l Hl; rewrite bfs_S.
  - replace l with (depth_ a) by lia. rewrite visit_leaves; [done|].
    eapply list.Forall_impl; [apply queue_range|]. cbn. intros i. lia.
  - rewrite visit_inner.
    + cbn [app]. rewrite <- queue_step. apply IH. lia.
    + eapply list.Forall_impl; [apply queue_range|]. cbn beta. intros i [_ Hi]. rewrite Hs.
      eapply Nat.lt_le_trans; [exact Hi|]. apply Nat.pow_le_mono_r; lia.
Qed.

(** Leaf [j] and all its ancestors differ. *)
Definition visible (a b : MerkleTree) (j : nat) : bool :=
  let i := leaf_start_ a + j in seen a b (depth_ a) i && negb (same a b i).

Lemma seen_root a b l i : seen a b l i = true → 2 ^ l ≤ i < 2 ^ S l → same a b i = false → same a b 1 = false.
Proof.
  revert i. induction l as [|l IH]; intros i; [intros _ Hi; cbn in Hi; by replace i with 1 by lia|].
  cbn [seen]. intros [Hs Hd%negb_true_iff]%andb_true_iff Hi _. apply (IH (i / 2)); [done| |done].
  rewrite !Nat.pow_succ_r' in *. pose proof (Nat.div_mod_eq i 2). pose proof (Nat.mod_upper_bound i 2). lia.
Qed.

Lemma seq_shift s n : seq s n = (λ j, s + j) <$> seq 0 n.
Proof.
  revert s. induction n as [|n IH]; intros s; [done|]. cbn. rewrite (IH (S s)), (IH 1), <- list_fmap_compose.
  f_equal; [lia|]. apply list_fmap_ext. intros ? ? _. cbn. lia.
Qed.

Lemma differing_leaves a b :
  leaf_start_ a = 2 ^ depth_ a →
  (λ i, range_of (depth_ a) (i - leaf_start_ a)) <$> differing a b (queue_at a b (depth_ a)) =
  range_of (depth_ a) <$> filter (λ j, visible a b j = true) (seq 0 (2 ^ depth_ a)).
Proof.
  intros Hs. unfold differing, queue_at. rewrite list_filter_filter, (seq_shift (2 ^ depth_ a)), fmap_filter, <- list_fmap_compose, <- Hs.
  erewrite list_filter_iff; [apply list_fmap_ext|].
  - intros ? j _. cbn. f_equal. lia.
  - intros j. cbn. unfold visible. rewrite andb_true_iff, negb_true_iff. tauto.
Qed.

Lemma diff_visible a b :
  tree_ok a → tree_ok b → depth_ a = depth_ b →
  diff a b = Some (range_of (depth_ a) <$> filter (λ j, visible a b j = true) (seq 0 (2 ^ depth_ a))).
Proof.
  intros [Ha1 Ha2] [Hb1 Hb2] Hd. unfold diff. rewrite bool_decide_eq_true_2 by done. cbn [negb].
  pose proof (pow2_pos (depth_ a)). rewrite <- differing_leaves by done.
  unfold rootHash. rewrite !bool_decide_eq_true_2 by (rewrite <- ?Hd in *; lia).
  fold (same a b 1). destruct (same a b 1) eqn:E.
  - assert (differing a b (queue_at a b (depth_ a)) = []) as ->; [|done]. apply filter_none.
    apply list.Forall_forall. intros i Hi Hsame.
    pose proof (proj1 (list.Forall_forall _ _) (queue_range a b (depth_ a)) i Hi) as Hr.
    apply list_elem_of_filter in Hi as [Hseen _]. by rewrite (seen_root a b (depth_ a) i Hseen Hr Hsame) in E.
  - assert (queue_at a b 0 = [1]) as <- by reflexivity. by rewrite (bfs_levels a b (depth_ a) 0).
Qed.

(** ** A single divergent leaf *)

Definition delta (a b : MerkleTree) (i : nat) : Z := Z.lxor (nodes_ a !!! i) (nodes_ b !!! i).

Lemma delta_same a b i : same a b i = true ↔ delta a b i = 0%Z.
Proof. unfold same, delta. rewrite Z.eqb_eq. symmetry. apply Z.lxor_eq_0_iff. Qed.

Lemma delta_children a b i :
  built a → built b → leaf_start_ a = leaf_start_ b → 1 ≤ i < leaf_start_ a →
  delta a b i = Z.lxor (delta a b (2 * i)) (delta a b (2 * i + 1)).
Proof.
  intros Ha Hb Hs Hi. unfold delta. rewrite (Ha i), (Hb i) by lia.
  rewrite !Z.lxor_assoc. f_equal. rewrite <- !Z.lxor_assoc. f_equal. apply Z.lxor_comm.
Qed.

(** The difference travels up the path from leaf [p] and nowhere else. *)
Lemma delta_path a b p n i :
  built a → built b → leaf_start_ a = leaf_start_ b → leaf_start_ a = 2 ^ depth_ a →
  (∀ q, 2 ^ depth_ a ≤ q < 2 ^ S (depth_ a) → q ≠ p → delta a b q = 0%Z) →
  2 ^ depth_ a ≤ p < 2 ^ S (depth_ a) → n ≤ depth_ a →
  2 ^ (depth_ a - n) ≤ i < 2 ^ S (depth_ a - n) →
  delta a b i = if decide (i = p / 2 ^ n) then delta a b p else 0%Z.
Proof.
  intros Ha Hb Hs Hl Hq Hp. revert i. induction n as [|n IH]; intros i Hn Hi.
  { rewrite Nat.sub_0_r in Hi. rewrite Nat.pow_0_r, Nat.div_1_r. case_decide; [by subst|by apply Hq]. }
  replace (depth_ a - n) with (S (depth_ a - S n)) in IH by lia.
  assert (2 ^ S (depth_ a - S n) ≤ 2 ^ depth_ a) by (apply Nat.pow_le_mono_r; lia).
  pose proof (pow2_pos (depth_ a - S n)).
  rewrite delta_children by (done || lia). rewrite (IH (2 * i)), (IH (2 * i + 1)) by (rewrite ?Nat.pow_succ_r' in *; lia).
  rewrite Nat.pow_succ_r', (Nat.mul_comm 2 (2 ^ n)), <- Nat.Div0.div_div.
  set (x := p / 2 ^ n). pose proof (Nat.div_mod_eq x 2). pose proof (Nat.mod_upper_bound x 2 ltac:(lia)).
  repeat case_decide; rewrite ?Z.lxor_0_r, ?Z.lxor_0_l; try done; exfalso; lia.
Qed.

Lemma path_seen a b p n :
  (∀ k, 1 ≤ k ≤ n → same a b (p / 2 ^ k) = false) → seen a b n p = true.
Proof.
  revert p. induction n as [|n IH]; intros p Hp; [done|]. cbn [seen]. apply andb_true_iff. split.
  - apply IH. intros k Hk. rewrite Nat.Div0.div_div, <- Nat.pow_succ_r'. apply Hp. lia.
  - apply negb_true_iff. specialize (Hp 1). cbn in Hp. apply Hp. lia.
Qed.

Lemma single_visible a b j :
  tree_ok a → tree_ok b → built a → built b → depth_ a = depth_ b → j < 2 ^ depth_ a →
  nodes_ a !!! (2 ^ depth_ a + j) ≠ nodes_ b !!! (2 ^ depth_ a + j) →
  (∀ q, q < 2 ^ depth_ a → q ≠ j → nodes_ a !!! (2 ^ depth_ a + q) = nodes_ b !!! (2 ^ depth_ a + q)) →
  ∀ q, q < 2 ^ depth_ a → visible a b q = true ↔ q = j.
Proof.
  intros [Ha1 Ha2] [Hb1 Hb2] Ha Hb Hd Hj Hdiff Hrest q Hq. unfold visible. rewrite Ha1.
  rewrite andb_true_iff, negb_true_iff. set (p := 2 ^ depth_ a + j) in *.
  assert (delta a b p ≠ 0%Z) as Hp by (unfold delta; by rewrite Z.lxor_eq_0_iff).
  split.
  - intros [_ Hs]. destruct (decide (q = j)) as [|Hne]; [done|]. exfalso.
    unfold same in Hs. rewrite (Hrest q) in Hs by done. by rewrite Z.eqb_refl in Hs.
  - intros ->. fold p. assert (∀ k, k ≤ depth_ a → same a b (p / 2 ^ k) = false) as Hk.
    + intros k Hk. apply not_true_iff_false. rewrite delta_same.
      rewrite (delta_path a b p k); [by rewrite decide_True|done|done|congruence|done| |unfold p; rewrite Nat.pow_succ_r'; lia|done|].
      * intros r Hr Hne. apply delta_same. unfold same. apply Z.eqb_eq. rewrite Nat.pow_succ_r' in Hr.
        replace r with (2 ^ depth_ a + (r - 2 ^ depth_ a)) by lia. apply Hrest; unfold p in *; lia.
      * assert (2 ^ depth_ a = 2 ^ (depth_ a - k) * 2 ^ k) as Hpow by (rewrite <- Nat.pow_add_r; f_equal; lia).
        pose proof (pow2_pos k). rewrite Nat.pow_succ_r'. split.
        -- apply Nat.div_le_lower_bound; [lia|]. unfold p. lia.
        -- apply Nat.Div0.div_lt_upper_bound. unfold p. lia.
    + split; [apply path_seen; intros; apply Hk; lia|]. specialize (Hk 0). rewrite Nat.pow_0_r, Nat.div_1_r in Hk. apply Hk. lia.
Qed.

(** ** Filling the leaves *)

Definition inserts (l : list (Z * Z)) (t : MerkleTree) : MerkleTree := foldl (λ t kv, insert kv.1 kv.2 t) t l.

(** The value hashes of the keys that belong to leaf [j]. *)
Definition bucket (d j : nat) (l : list (Z * Z)) : list Z := snd <$> filter (λ kv, leaf_of d kv.1 = j) l.

Lemma leaf_of_lt d h : 1 ≤ d ≤ 63 → is_u64 h → leaf_of d h < 2 ^ d.
Proof.
  intros Hd Hh. unfold leaf_of. rewrite Z.shiftr_div_pow2 by lia. apply Nat2Z.inj_lt.
  rewrite Z2Nat.id, Nat2Z.inj_pow by (apply Z.div_pos; unfold is_u64 in *; lia).
  apply Z.div_lt_upper_bound; [lia|]. rewrite <- Z.pow_add_r by lia.
  replace (64 - Z.of_nat d + Z.of_nat d)%Z with 64%Z by lia. unfold is_u64, U64_MAX in Hh. lia.
Qed.

Lemma inserts_shape l t : depth_ (inserts l t) = depth_ t ∧ leaf_start_ (inserts l t) = leaf_start_ t ∧
  length (nodes_ (inserts l t)) = length (nodes_ t).
Proof.
  revert t. induction l as [|kv l IH]; intros t; [done|]. destruct (IH (insert kv.1 kv.2 t)) as (H1 & H2 & H3).
  cbn [inserts foldl]. unfold inserts in *. rewrite H1, H2, H3. cbn. by rewrite length_alter.
Qed.

Lemma inserts_ok l t : tree_ok t → tree_ok (inserts l t).
Proof. intros [H1 H2]. destruct (inserts_shape l t) as (E1 & E2 & E3). split; congruence. Qed.

Lemma inserts_leaf l t j :
  tree_ok t → 1 ≤ depth_ t ≤ 63 → Forall (λ kv, is_u64 kv.1) l → j < 2 ^ depth_ t →
  nodes_ (inserts l t) !!! (leaf_start_ t + j) =
  Z.lxor (nodes_ t !!! (leaf_start_ t + j)) (xor_all (bucket (depth_ t) j l)).
Proof.
  intros Ht Hd Hl Hj. revert t Ht Hd Hj. induction Hl as [|[k v] l Hk _ IH]; intros t Ht Hd Hj.
  { cbn. by rewrite Z.lxor_0_r. }
  pose proof (leaf_of_lt (depth_ t) k Hd Hk) as Hlt. destruct (Ht) as [Hs Hn].
  cbn [inserts foldl fst snd]. change (leaf_start_ t) with (leaf_start_ (insert k v t)).
  unfold inserts in IH. rewrite IH by (done || by apply insert_ok).
  change (depth_ (insert k v t)) with (depth_ t). change (leaf_start_ (insert k v t)) with (leaf_start_ t).
  unfold bucket. rewrite filter_cons. cbn [fst insert nodes_ with_nodes].
  case_decide as Hb; subst.
  - rewrite list_lookup_total_alter_eq by lia. rewrite fmap_cons. cbn [snd].
    rewrite xor_all_cons. by rewrite Z.lxor_assoc.
  - by rewrite list_lookup_total_alter_ne by lia.
Qed.

Lemma inserts_new_leaf d l j :
  1 ≤ d ≤ 63 → Forall (λ kv, is_u64 kv.1) l → j < 2 ^ d →
  nodes_ (build (inserts l (new d))) !!! (2 ^ d + j) = xor_all (bucket d j l).
Proof.
  intros Hd Hl Hj. cbn [build nodes_ with_nodes].
  rewrite build_loop_high by (rewrite (proj1 (proj2 (inserts_shape l (new d)))); cbn; lia).
  change (2 ^ d) with (leaf_start_ (new d)). rewrite inserts_leaf by (done || apply new_ok). cbn [depth_ new nodes_ leaf_start_].
  rewrite lookup_total_replicate_2 by lia. apply Z.lxor_0_l.
Qed.

(** Every value is in one bucket. *)
Lemma xor_buckets d n (l : list (Z * Z)) :
  Forall (λ kv, leaf_of d kv.1 < n) l →
  xor_all ((λ j, xor_all (bucket d j l)) <$> seq 0 n) = xor_all l.*2.
Proof.
  induction 1 as [|[k v] l Hk _ IH].
  - generalize (seq 0 n). intros q. induction q as [|j q IH]; [done|]. rewrite fmap_cons, xor_all_cons. by rewrite IH.
  - rewrite fmap_cons. cbn [fst snd] in *. rewrite (xor_all_cons v), <- IH.
    assert (∀ q : list nat, (λ j, xor_all (bucket d j ((k, v) :: l))) <$> q =
      (λ j, Z.lxor (if decide (leaf_of d k = j) then v else 0%Z) (xor_all (bucket d j l))) <$> q) as Hcons.
    { intros q. apply list_fmap_ext. intros _ j _. unfold bucket. rewrite filter_cons. cbn [fst].
      case_decide; [done|by rewrite Z.lxor_0_l]. }
    rewrite Hcons. clear IH Hcons. revert Hk. generalize (leaf_of d k) as j0. intros j0 Hj0.
    set (f := λ j, xor_all (bucket d j l)).
    assert (∀ q, NoDup q → xor_all ((λ j, Z.lxor (if decide (j0 = j) then v else 0%Z) (f j)) <$> q) =
      Z.lxor (if decide (j0 ∈ q) then v else 0%Z) (xor_all (f <$> q))) as Hq.
    { induction 1 as [|j q Hj _ IH]; [by rewrite decide_False by apply not_elem_of_nil|].
      rewrite !fmap_cons, !xor_all_cons, IH.
      destruct (decide (j0 = j)) as [->|Hne].
      - rewrite (decide_False (P := j ∈ q)) by done. rewrite (decide_True (P := j ∈ j :: q)) by (apply elem_of_cons; by left).
        by rewrite Z.lxor_0_l, Z.lxor_assoc.
      - rewrite Z.lxor_0_l. rewrite <- !Z.lxor_assoc, (Z.lxor_comm (f j)).
        repeat case_decide; set_solver. }
    rewrite Hq by apply NoDup_seq. rewrite decide_True; [done|]. apply elem_of_seq. lia.
Qed.

Lemma level_buckets d l :
  1 ≤ d ≤ 63 → Forall (λ kv, is_u64 kv.1) l →
  level (build (inserts l (new d))) d = (λ j, xor_all (bucket d j l)) <$> seq 0 (2 ^ d).
Proof.
  intros Hd Hl. unfold level. rewrite seq_shift, <- list_fmap_compose. apply list_fmap_ext.
  intros i j Hj%lookup_seq. cbn. apply inserts_new_leaf; [done|done|lia].
Qed.

Lemma root_leaves d l :
  1 ≤ d ≤ 63 → rootHash (build (inserts l (new d))) = xor_all (level (build (inserts l (new d))) d).
Proof.
  intros Hd. pose proof (inserts_ok l (new d) (new_ok d)) as Hok.
  destruct (inserts_shape l (new d)) as (E1 & _). cbn in E1.
  apply root_level; [by apply build_ok|by apply build_built|]. cbn. lia.
Qed.

Lemma root_values d l :
  1 ≤ d ≤ 63 → Forall (λ kv, is_u64 kv.1) l → rootHash (build (inserts l (new d))) = xor_all l.*2.
Proof.
  intros Hd Hl. rewrite root_leaves, level_buckets by done. apply xor_buckets.
  eapply list.Forall_impl; [exact Hl|]. intros kv Hk. by apply leaf_of_lt.
Qed.

(** ** Theorems *)

(** The root summarizes all leaves.  Whatever was inserted, after [build] the
    root is the exclusive or of the leaves, and leaf [j] is the exclusive or of
    the value hashes of the keys that belong to it, whatever their order. *)
Theorem root_is_xor_of_leaves d l :
  1 ≤ d ≤ 63 → Forall (λ kv, is_u64 kv.1) l →
  let t := build (inserts l (new d)) in
  rootHash t = xor_all (level t d) ∧
  level t d = (λ j, xor_all (bucket d j l)) <$> seq 0 (2 ^ d).
Proof.
  intros Hd Hl t. split; [by apply root_leaves|by apply level_buckets].
Qed.

(** C39: [diff] ends and is exact up to cancellation.  On two trees of the same
    depth it returns the ranges of exactly those leaves, in order, that differ
    and whose ancestors all differ; the fuel of one turn per level suffices. *)
Theorem diff_reports_visible_leaves a b :
  tree_ok a → tree_ok b → depth_ a = depth_ b →
  diff a b = Some (range_of (depth_ a) <$> filter (λ j, visible a b j = true) (seq 0 (2 ^ depth_ a))).
Proof. apply diff_visible. Qed.

(** One divergent leaf is always found.  If two built trees differ in exactly
    one leaf, [diff] reports that leaf and nothing else. *)
Theorem single_divergence_found a b j :
  tree_ok a → tree_ok b → built a → built b → depth_ a = depth_ b → j < 2 ^ depth_ a →
  nodes_ a !!! (2 ^ depth_ a + j) ≠ nodes_ b !!! (2 ^ depth_ a + j) →
  (∀ q, q < 2 ^ depth_ a → q ≠ j → nodes_ a !!! (2 ^ depth_ a + q) = nodes_ b !!! (2 ^ depth_ a + q)) →
  diff a b = Some [range_of (depth_ a) j].
Proof.
  intros Ha Hb Hba Hbb Hd Hj Hdiff Hrest. rewrite diff_visible by done. do 2 f_equal.
  pose proof (single_visible a b j Ha Hb Hba Hbb Hd Hj Hdiff Hrest) as Hv.
  assert (filter (λ q, visible a b q = true) (seq 0 (2 ^ depth_ a)) = [j]) as ->; [|done].
  replace (2 ^ depth_ a) with (j + S (2 ^ depth_ a - j - 1)) in * by lia.
  rewrite seq_app. cbn [seq plus]. rewrite list.filter_app, filter_cons_True by (apply Hv; lia).
  rewrite !filter_none; [done| |]; apply list.Forall_forall; intros q Hq%elem_of_seq; rewrite Hv by lia; lia.
Qed.

(** The range reported for a leaf holds exactly the key hashes that belong to
    it, without overflow at the last leaf. *)
Theorem range_is_the_bucket d j h :
  1 ≤ d ≤ 63 → j < 2 ^ d → is_u64 h →
  leaf_of d h = j ↔ (range_start (range_of d j) ≤ h ≤ range_end (range_of d j))%Z.
Proof.
  intros Hd Hj Hh. unfold range_of, leaf_of. cbn [range_start range_end].
  rewrite Z.shiftr_div_pow2, !Z.shiftl_mul_pow2 by lia.
  set (w := (2 ^ (64 - Z.of_nat d))%Z). set (n := (2 ^ Z.of_nat d)%Z).
  assert (w * n = 18446744073709551616)%Z as Hwn.
  { unfold w, n. rewrite <- Z.pow_add_r by lia. by replace (64 - Z.of_nat d + Z.of_nat d)%Z with 64%Z by lia. }
  assert (0 < w)%Z as Hw by (apply Z.pow_pos_nonneg; lia).
  assert (2 ≤ n)%Z as Hn by (unfold n; apply (Z.pow_le_mono_r 2 1); lia).
  assert (0 ≤ Z.of_nat j < n)%Z as Hjn.
  { unfold n. change 2%Z with (Z.of_nat 2). rewrite <- Nat2Z.inj_pow. lia. }
  unfold is_u64, U64_MAX in *. rewrite Z.mul_1_l.
  rewrite (u64_id (Z.of_nat j * w)), (u64_id w) by (unfold is_u64, U64_MAX; nia).
  destruct (Z.eqb_spec w 0); [lia|]. rewrite u64_id by (unfold is_u64, U64_MAX; nia).
  pose proof (Z.div_mod h w ltac:(lia)). pose proof (Z.mod_pos_bound h w Hw).
  assert (0 ≤ h / w)%Z by (apply Z.div_pos; lia). split; [intros <-; rewrite Z2Nat.id by done; nia|].
  intros Hr. apply Nat2Z.inj. rewrite Z2Nat.id by done. nia.
Qed.

(** ** Examples *)

Definition small_a : MerkleTree := build (inserts [(1, 5); (2 ^ 63, 9)]%Z (new 2)).
Definition small_b : MerkleTree := build (inserts [(1, 5); (2 ^ 63, 8)]%Z (new 2)).

Lemma small_ok l : tree_ok (build (inserts l (new 2))) ∧ built (build (inserts l (new 2))).
Proof. pose proof (inserts_ok l (new 2) (new_ok 2)). split; [by apply build_ok|by apply build_built]. Qed.

Lemma root_is_xor_of_leaves_witness : rootHash small_a = xor_all (level small_a 2).
Proof. apply (root_is_xor_of_leaves 2 [(1, 5); (2 ^ 63, 9)]%Z); [lia|vm_decide]. Defined.

Lemma diff_reports_visible_leaves_witness :
  diff small_a small_b = Some (range_of 2 <$> filter (λ j, visible small_a small_b j = true) (seq 0 4)).
Proof. apply (diff_reports_visible_leaves small_a small_b); [apply small_ok..|reflexivity]. Defined.

Lemma single_divergence_found_witness : diff small_a small_b = Some [range_of 2 2].
Proof.
  apply (single_divergence_found small_a small_b 2); [apply small_ok..|reflexivity|vm_decide|vm_compute; discriminate|].
  intros q Hq Hne. do 4 (destruct q as [|q]; [vm_compute; first [reflexivity|by destruct Hne]|]). cbn in Hq. lia.
Defined.

Lemma range_is_the_bucket_witness :
  leaf_of 2 (2 ^ 63) = 2 ↔ (range_start (range_of 2 2) ≤ 2 ^ 63 ≤ range_end (range_of 2 2))%Z.
Proof. apply range_is_the_bucket; [lia|vm_decide|vm_decide]. Defined.
End MerkleTree.
