(* ===== verification/AntiEntropy.v ===== *)
(** * Anti-entropy (src/antientropy/antientropy_thread.h,
      src/antientropy/antientropy_thread.cpp, its wiring in src/main.cpp)

    The periodic job that compares a Merkle tree of the local store with a peer's
    and pulls or pushes the keys of the ranges that differ.  Fetching the peer's
    tree, pulling and pushing are callbacks, so they are functions on a type of
    worlds, which also shows the choice of the random generator.

    The theorems: a tick returns, never makes the local copy of a key older, and
    leaves no pulled key older than what was pulled; the root of a store's tree
    depends on the values only, not on their keys, so divergence can be invisible
    and a store can look empty; and with the callbacks [main] installs a tick
    changes nothing. *)
From S2P Require Import Prelude Util Clock Value Storage Ring Merkle.
From Stdlib Require Import Ascii String ZArith Lia.
From stdpp Require Import base gmap list strings numbers.
Import VersionedValue replica_ops MerkleTree.

Module AntiEntropyThread.
Section AntiEntropyThread.
Context {S : Type} `{StorageLaws S} {Net : Type}.
Context (exchange_fn : NodeInfo → MerkleTree → Net → MerkleTree * Net)
        (pull_fn : NodeInfo → Z → Z → Net → list (string * VersionedValue) * Net)
        (push_fn : NodeInfo → string → VersionedValue → Net → bool * Net)
        (pick : Net → nat → nat).

Record AntiEntropyThread := mkAE {
  ae_self : NodeInfo;
  ae_router : Router.Router;
  storage_ : S;
  syncs_ : Z;
  keys_repaired_ : Z;
}.

Definition with_storage (s : S) (t : AntiEntropyThread) : AntiEntropyThread :=
  mkAE (ae_self t) (ae_router t) s (syncs_ t) (keys_repaired_ t).
Definition synced (t : AntiEntropyThread) : AntiEntropyThread :=
  mkAE (ae_self t) (ae_router t) (storage_ t) (u64 (syncs_ t + 1)) (keys_repaired_ t).
Definition repaired (t : AntiEntropyThread) : AntiEntropyThread :=
  mkAE (ae_self t) (ae_router t) (storage_ t) (syncs_ t) (u64 (keys_repaired_ t + 1)).

(** What [forEach] feeds to the tree. *)
Definition hashes (s : S) : list (Z * Z) := (λ kv, (hash64 kv.1, hash64 kv.2)) <$> forEach s.

Definition buildLocalTree (t : AntiEntropyThread) : MerkleTree :=
  build (inserts (hashes (storage_ t)) (MerkleTree.new kDefaultDepth)).

(** One pulled key. *)
Definition sync_key (peer : NodeInfo) (acc : AntiEntropyThread * Net) (kv : string * VersionedValue)
  : AntiEntropyThread * Net :=
  let '(t, net) := acc in
  let '(key, remote_vv) := kv in
  match Storage.get key (storage_ t) with
  | None => (repaired (with_storage (Storage.put key (serialize remote_vv) (storage_ t)) t), net)
  | Some local_stored =>
      let local_vv := deserialize local_stored in
      match VectorClock.compare (clock remote_vv) (clock local_vv) with
      | VectorClock.A_DOMINATES =>
          (repaired (with_storage (Storage.put key (serialize remote_vv) (storage_ t)) t), net)
      | VectorClock.B_DOMINATES =>
          let '(_, net) := push_fn peer key local_vv net in (repaired t, net)
      | _ => (t, net)
      end
  end.

(** One divergent range. *)
Definition sync_range (peer : NodeInfo) (acc : AntiEntropyThread * Net) (dr : DiffRange)
  : AntiEntropyThread * Net :=
  let '(t, net) := acc in
  let '(remote_keys, net) := pull_fn peer (range_start dr) (range_end dr) net in
  foldl (sync_key peer) (t, net) remote_keys.

Definition peers_of (t : AntiEntropyThread) : list NodeInfo :=
  filter (λ n, node_id n ≠ node_id (ae_self t)) (Router.getAllPhysicalNodes (ae_router t)).

(** [None] when [diff] does not return. *)
Definition tick (t : AntiEntropyThread) (net : Net) : option (AntiEntropyThread * Net) :=
  let peers := peers_of t in
  match peers !! pick net (length peers) with
  | None => Some (t, net)
  | Some peer =>
      let local_tree := buildLocalTree t in
      if (rootHash local_tree =? 0)%Z then Some (t, net)
      else
        let '(peer_tree, net) := exchange_fn peer local_tree net in
        if (rootHash peer_tree =? 0)%Z && (rootHash local_tree =? 0)%Z then Some (t, net)
        else match diff local_tree peer_tree with
        | None => None
        | Some [] => Some (synced t, net)
        | Some diffs =>
            let '(t, net) := foldl (sync_range peer) (t, net) diffs in Some (synced t, net)
        end
  end.

(** ** The local store along a tick *)

(** A pulled version replaces the local one only when it dominates it. *)
Lemma sync_key_read peer t net k v k' :
  vv_ok v →
  readLocal (storage_ (sync_key peer (t, net) (k, v)).1) k' =
  if decide (k = k') then
    match readLocal (storage_ t) k with
    | None => Some v
    | Some l => if decide (VectorClock.compare (clock v) (clock l) = VectorClock.A_DOMINATES)
                then Some v else Some l
    end
  else readLocal (storage_ t) k'.
Proof.
  intros Hv. unfold sync_key. unfold readLocal at 2. destruct (Storage.get k (storage_ t)) as [st|] eqn:E.
  - destruct (VectorClock.compare (clock v) (clock (deserialize st))) eqn:Hc;
      try (destruct (push_fn _ _ _ _)); cbn; rewrite ?readLocal_put by done;
      repeat case_decide; try done; subst k'; unfold readLocal; by rewrite E.
  - cbn. by apply readLocal_put.
Qed.

(** [s'] is no older than [s] on every key. *)
Definition no_older (s s' : S) : Prop :=
  ∀ k l, readLocal s k = Some l → ∃ r, readLocal s' k = Some r ∧ VectorClock.causal_le (clock l) (clock r).

#[export] Instance no_older_preorder : PreOrder no_older.
Proof.
  split; [by intros s k l Hl; exists l|]. intros s1 s2 s3 H1 H2 k l Hl.
  destruct (H1 k l Hl) as (r & Hr & Hle). destruct (H2 k r Hr) as (r' & Hr' & Hle'). exists r'. split; [done|by etrans].
Qed.

Lemma sync_key_no_older peer acc kv :
  vv_ok kv.2 → no_older (storage_ acc.1) (storage_ (sync_key peer acc kv).1).
Proof.
  destruct acc as [t net], kv as [k v]. cbn [fst snd]. intros Hv k' l Hl. rewrite sync_key_read by done.
  case_decide; [subst k'|by exists l]. rewrite Hl. case_decide as Hc; [|by exists l]. exists v. split; [done|].
  apply compare_dominates in Hc; [|done|by eapply readLocal_ok]. by destruct Hc.
Qed.

(** What is pulled is not newer than what is held afterwards. *)
Lemma sync_key_catches_up peer acc k v :
  vv_ok v → ∃ r, readLocal (storage_ (sync_key peer acc (k, v)).1) k = Some r ∧ ¬ superseded r v.
Proof.
  destruct acc as [t net]. intros Hv. rewrite sync_key_read, decide_True by done.
  assert (¬ superseded v v) as Hirr by (intros [_ [x Hx]]; lia).
  destruct (readLocal (storage_ t) k) as [l|] eqn:E; [|by exists v].
  case_decide as Hc; [by exists v|]. exists l. split; [done|].
  rewrite compare_dominates in Hc; [done|done|by eapply readLocal_ok].
Qed.

Lemma not_superseded_le a b v :
  VectorClock.causal_le (clock a) (clock b) → ¬ superseded a v → ¬ superseded b v.
Proof.
  intros Hle Hn [Hbv [x Hx]]. apply Hn. split; [by transitivity (clock b)|]. exists x. specialize (Hle x). lia.
Qed.

Lemma sync_keys_ok peer l acc :
  Forall (λ kv, vv_ok kv.2) l →
  no_older (storage_ acc.1) (storage_ (foldl (sync_key peer) acc l).1) ∧
  Forall (λ kv, ∃ r, readLocal (storage_ (foldl (sync_key peer) acc l).1) kv.1 = Some r ∧ ¬ superseded r kv.2) l.
Proof.
  intros Hl. revert acc. induction Hl as [|[k v] l Hv _ IH]; intros acc; [split; [done|constructor]|].
  cbn [foldl]. destruct (IH (sync_key peer acc (k, v))) as [H1 H2]. split.
  - etrans; [|exact H1]. by apply sync_key_no_older.
  - apply list.Forall_cons. split; [|done]. destruct (sync_key_catches_up peer acc k v Hv) as (r & Hr & Hn).
    destruct (H1 k r Hr) as (r' & Hr' & Hle). exists r'. split; [done|]. by eapply not_superseded_le.
Qed.

Definition pulls_ok : Prop := ∀ peer lo hi net, Forall (λ kv, vv_ok kv.2) (pull_fn peer lo hi net).1.

Lemma sync_range_no_older peer acc dr :
  pulls_ok → no_older (storage_ acc.1) (storage_ (sync_range peer acc dr).1).
Proof.
  intros Hp. destruct acc as [t net]. unfold sync_range.
  pose proof (Hp peer (range_start dr) (range_end dr) net) as Hl.
  destruct (pull_fn peer _ _ net) as [keys net']. by apply (sync_keys_ok peer keys (t, net')).
Qed.

Lemma sync_ranges_no_older peer l acc :
  pulls_ok → no_older (storage_ acc.1) (storage_ (foldl (sync_range peer) acc l).1).
Proof.
  intros Hp. revert acc. induction l as [|dr l IH]; intros acc; [done|]. cbn [foldl].
  etrans; [by apply sync_range_no_older|apply IH].
Qed.

(** ** The root of a store's tree *)

Lemma hashes_u64 s : Forall (λ kv, is_u64 kv.1) (hashes s).
Proof. apply list.Forall_fmap, list.Forall_forall. intros kv _. apply hash64_range. Qed.

Lemma local_tree_ok t : tree_ok (buildLocalTree t) ∧ built (buildLocalTree t) ∧ depth_ (buildLocalTree t) = kDefaultDepth.
Proof.
  pose proof (inserts_ok (hashes (storage_ t)) _ (new_ok kDefaultDepth)) as Hok.
  split_and!; [by apply build_ok|by apply build_built|].
  cbn. by destruct (inserts_shape (hashes (storage_ t)) (MerkleTree.new kDefaultDepth)) as (-> & _).
Qed.

Lemma local_root t :
  rootHash (buildLocalTree t) = xor_all ((λ kv, hash64 kv.2) <$> forEach (storage_ t)).
Proof.
  unfold buildLocalTree. rewrite root_values; [|unfold kDefaultDepth; lia|apply hashes_u64].
  unfold hashes. by rewrite <- list_fmap_compose.
Qed.

Definition trees_ok : Prop := ∀ peer t net, tree_ok (exchange_fn peer t net).1.

Lemma diff_returns a b : tree_ok a → tree_ok b → ∃ l, diff a b = Some l.
Proof.
  intros Ha Hb. destruct (decide (depth_ a = depth_ b)) as [Hd|Hd]; [rewrite diff_visible by done; by eexists|].
  unfold diff. rewrite bool_decide_eq_false_2 by done. by eexists.
Qed.

(** ** Theorems *)

(** Anti-entropy never makes the local store older.  When the peers' trees are
    trees and pulled versions have proper clocks, a tick returns and every key
    held before is held afterwards at a version at least as new. *)
Theorem anti_entropy_never_regresses t net :
  trees_ok → pulls_ok →
  ∃ t' net', tick t net = Some (t', net') ∧ no_older (storage_ t) (storage_ t').
Proof.
  intros Ht Hp. unfold tick. destruct (peers_of t !! _) as [peer|]; [|by eexists _, _].
  destruct (rootHash (buildLocalTree t) =? 0)%Z; [by eexists _, _|].
  pose proof (Ht peer (buildLocalTree t) net) as Hpeer.
  destruct (exchange_fn peer (buildLocalTree t) net) as [pt net1].
  destruct (_ && _); [by eexists _, _|].
  destruct (diff_returns (buildLocalTree t) pt) as [l ->]; [by apply local_tree_ok|done|].
  destruct l as [|dr l]; [by eexists _, _|].
  pose proof (sync_ranges_no_older peer (dr :: l) (t, net1) Hp) as Hn.
  destruct (foldl (sync_range peer) (t, net1) (dr :: l)) as [t' net']. by eexists _, _.
Qed.

(** A range that is synced is caught up.  After [sync_range], for every version
    the peer sent the local store holds a version of that key which the peer's
    does not supersede. *)
Theorem synced_range_is_caught_up peer t net dr :
  pulls_ok →
  Forall (λ kv, ∃ r, readLocal (storage_ (sync_range peer (t, net) dr).1) kv.1 = Some r ∧ ¬ superseded r kv.2)
         (pull_fn peer (range_start dr) (range_end dr) net).1.
Proof.
  intros Hp. unfold sync_range. pose proof (Hp peer (range_start dr) (range_end dr) net) as Hl.
  destruct (pull_fn peer _ _ net) as [keys net']. by apply (sync_keys_ok peer keys (t, net')).
Qed.

(** The tree does not see keys.  Its root is the exclusive or of the hashes of
    the stored values alone, so two stores that hold the same values, under
    whatever different keys, are reported as not differing at all. *)
Theorem divergent_keys_are_not_seen t1 t2 :
  (forEach (storage_ t1)).*2 ≡ₚ (forEach (storage_ t2)).*2 →
  rootHash (buildLocalTree t1) = rootHash (buildLocalTree t2) ∧
  diff (buildLocalTree t1) (buildLocalTree t2) = Some [].
Proof.
  intros Hperm. assert (rootHash (buildLocalTree t1) = rootHash (buildLocalTree t2)) as Hr.
  { rewrite !local_root. apply xor_all_perm. pose proof (fmap_Permutation hash64 _ _ Hperm) as Hp.
    rewrite <- !list_fmap_compose in Hp. exact Hp. }
  split; [done|]. unfold diff. destruct (local_tree_ok t1) as (_ & _ & ->), (local_tree_ok t2) as (_ & _ & ->).
  rewrite bool_decide_eq_true_2 by done. by rewrite Hr, Z.eqb_refl.
Qed.

(** A store with one value under two keys looks empty.  The two hashes cancel,
    the root is zero, and the tick takes the store for an empty one and returns
    without contacting anybody. *)
Theorem twin_values_look_empty t net k1 k2 v :
  forEach (storage_ t) ≡ₚ [(k1, v); (k2, v)] → tick t net = Some (t, net).
Proof.
  intros Hs. unfold tick. destruct (peers_of t !! _); [|done]. rewrite local_root.
  rewrite (xor_all_perm _ _ (fmap_Permutation (λ kv, hash64 kv.2) _ _ Hs)). cbn [fmap list_fmap fst snd].
  unfold xor_all. cbn [foldr]. rewrite Z.lxor_0_r, Z.lxor_nilpotent. done.
Qed.

End AntiEntropyThread.

(** ** The callbacks of [main] *)

Definition main_exchange {Net} (_ : NodeInfo) (_ : MerkleTree) (net : Net) : MerkleTree * Net :=
  (MerkleTree.new kDefaultDepth, net).
Definition main_pull {Net} (_ : NodeInfo) (_ _ : Z) (net : Net) : list (string * VersionedValue) * Net := ([], net).

(** As [main] wires it, anti-entropy repairs nothing, which the project's own
    documents state (README.md, "Honest status").  With the callbacks it installs, a tick returns with the store and the network untouched and no key
    repaired, whatever the store holds and whatever [push_fn] would do. *)
Theorem wired_tick_repairs_nothing {S} `{StorageLaws S} {Net} push_fn pick (t : @AntiEntropyThread S) (net : Net) :
  ∃ t', tick main_exchange main_pull push_fn pick t net = Some (t', net) ∧
        storage_ t' = storage_ t ∧ keys_repaired_ t' = keys_repaired_ t.
Proof.
  unfold tick. destruct (peers_of t !! _) as [peer|]; [|by eexists]. destruct (_ =? 0)%Z; [by eexists|].
  unfold main_exchange. destruct (_ && _); [by eexists|].
  destruct (diff_returns (buildLocalTree t) (MerkleTree.new kDefaultDepth)) as [l ->];
    [apply local_tree_ok|apply new_ok|].
  assert (foldl (sync_range main_pull push_fn peer) (t, net) l = (t, net)) as Hl by (by induction l).
  destruct l; [by eexists|]. rewrite Hl. by eexists.
Qed.

(** ** Examples *)

Abbreviation store := (gmap string string).
Definition holding (s : store) : @AntiEntropyThread store := mkAE Router.n1 Router.r3 s 0 0.
Definition pull_v2 (_ : NodeInfo) (_ _ : Z) (net : unit) : list (string * VersionedValue) * unit := ([("k", v2)], net).
Definition no_push (_ : NodeInfo) (_ : string) (_ : VersionedValue) (net : unit) : bool * unit := (true, net).

Lemma pull_v2_ok : pulls_ok pull_v2.
Proof. intros peer lo hi net. cbn. vm_decide. Qed.

Lemma anti_entropy_never_regresses_witness :
  ∃ t' net', tick (main_exchange (Net := unit)) pull_v2 no_push (λ _ _, 0) (holding {[ "k" := serialize v1 ]}) tt =
    Some (t', net') ∧ no_older (storage_ (holding {[ "k" := serialize v1 ]})) (storage_ t').
Proof.
  apply (anti_entropy_never_regresses (main_exchange (Net := unit)) pull_v2 no_push (λ _ _, 0)
           (holding {[ "k" := serialize v1 ]}) tt).
  - intros peer t net. apply new_ok.
  - apply pull_v2_ok.
Defined.

Lemma synced_range_is_caught_up_witness :
  Forall (λ kv, ∃ r, readLocal (storage_ (sync_range pull_v2 no_push Router.n2
    (holding {[ "k" := serialize v1 ]}, tt) (mkRange 0 0 5)).1) kv.1 = Some r ∧ ¬ superseded r kv.2) [("k", v2)].
Proof. exact (synced_range_is_caught_up pull_v2 no_push Router.n2 _ tt (mkRange 0 0 5) pull_v2_ok). Defined.

Lemma divergent_keys_are_not_seen_witness :
  rootHash (buildLocalTree (holding {[ "a" := "v" ]})) = rootHash (buildLocalTree (holding {[ "b" := "v" ]})) ∧
  diff (buildLocalTree (holding {[ "a" := "v" ]})) (buildLocalTree (holding {[ "b" := "v" ]})) = Some [].
Proof.
  apply (divergent_keys_are_not_seen (holding {[ "a" := "v" ]}) (holding {[ "b" := "v" ]})).
  vm_compute. reflexivity.
Defined.

Lemma twin_values_look_empty_witness :
  tick (main_exchange (Net := unit)) pull_v2 no_push (λ _ _, 0) (holding {[ "a" := "v"; "b" := "v" ]}) tt =
  Some (holding {[ "a" := "v"; "b" := "v" ]}, tt).
Proof. apply (twin_values_look_empty _ _ _ _ _ _ "a" "b" "v"). vm_compute. first [reflexivity|apply perm_swap]. Defined.
End AntiEntropyThread.
