(* ===== verification/Utf8.v ===== *)
(** * UTF-8 in the gateway's strings

    The gateway turns bytes into Java strings with [new String(bytes, UTF_8)]
    (KvService.toDto, KvService.captureBefore, ClusterClient.recvFramed), which never
    fails: what is not UTF-8 becomes U+FFFD.  A Java string without unpaired surrogates
    is given here as its UTF-8 bytes, so that [getBytes(UTF_8)] is the identity and the
    decoder is a function from bytes to bytes.

    The decoder is the JDK's, with the number of bytes it replaces at a time.  It keeps
    every well-formed string, its result is always well-formed, and decoding twice is
    decoding once. *)
From S2P Require Import Prelude.
From Stdlib Require Import Ascii String ZArith Lia.
From stdpp Require Import base list strings numbers.

Module Utf8.
Local Open Scope Z_scope.

(** U+FFFD. *)
Definition replacement (rest : string) : string :=
  String "239" (String "191" (String "189" rest)).

(** A first byte by the length of its sequence. *)
Definition is_ascii (b1 : ascii) : bool := byte_of b1 <? 0x80.
Definition leads2 (b1 : ascii) : bool := (0xC2 <=? byte_of b1) && (byte_of b1 <=? 0xDF).
Definition leads3 (b1 : ascii) : bool := (0xE0 <=? byte_of b1) && (byte_of b1 <=? 0xEF).
Definition leads4 (b1 : ascii) : bool := (0xF0 <=? byte_of b1) && (byte_of b1 <=? 0xF7).

Definition isNotContinuation (b : ascii) : bool := negb (Z.land (byte_of b) 0xC0 =? 0x80).

(** The second byte of three, and of four, where the JDK looks at it alone. *)
Definition isMalformed3_2 (b1 b2 : ascii) : bool :=
  (byte_of b1 =? 0xE0) && (Z.land (byte_of b2) 0xE0 =? 0x80) || isNotContinuation b2.
Definition isMalformed4_2 (b1 b2 : ascii) : bool :=
  (byte_of b1 =? 0xF0) && ((byte_of b2 <? 0x90) || (0xBF <? byte_of b2)) ||
  (byte_of b1 =? 0xF4) && negb (Z.land (byte_of b2) 0xF0 =? 0x80) || isNotContinuation b2.

Definition isMalformed3 (b1 b2 b3 : ascii) : bool := isMalformed3_2 b1 b2 || isNotContinuation b3.
Definition isMalformed4 (b2 b3 b4 : ascii) : bool :=
  isNotContinuation b2 || isNotContinuation b3 || isNotContinuation b4.

Definition low (bits : Z) (b : ascii) : Z := Z.land (byte_of b) (Z.ones bits).
Definition decode3 (b1 b2 b3 : ascii) : Z :=
  Z.lor (Z.shiftl (low 4 b1) 12) (Z.lor (Z.shiftl (low 6 b2) 6) (low 6 b3)).
Definition decode4 (b1 b2 b3 b4 : ascii) : Z :=
  Z.lor (Z.shiftl (low 3 b1) 18) (Z.lor (Z.shiftl (low 6 b2) 12) (Z.lor (Z.shiftl (low 6 b3) 6) (low 6 b4))).

Definition isSurrogate (c : Z) : bool := (0xD800 <=? c) && (c <=? 0xDFFF).
Definition isSupplementaryCodePoint (c : Z) : bool := (0x10000 <=? c) && (c <=? 0x10FFFF).

(** The sequences that are characters. *)
Definition char3 (b1 b2 b3 : ascii) : bool := negb (isMalformed3 b1 b2 b3) && negb (isSurrogate (decode3 b1 b2 b3)).
Definition char4 (b1 b2 b3 b4 : ascii) : bool :=
  negb (isMalformed4 b2 b3 b4) && isSupplementaryCodePoint (decode4 b1 b2 b3 b4).

(** [new String(bytes, UTF_8)]. *)
Fixpoint decode (s : string) : string :=
  match s with
  | EmptyString => EmptyString
  | String b1 s1 =>
      if is_ascii b1 then String b1 (decode s1)
      else if leads2 b1 then
        match s1 with
        | EmptyString => replacement EmptyString
        | String b2 s2 => if isNotContinuation b2 then replacement (decode s1) else String b1 (String b2 (decode s2))
        end
      else if leads3 b1 then
        match s1 with
        | EmptyString => replacement EmptyString
        | String b2 EmptyString => if isMalformed3_2 b1 b2 then replacement (decode s1) else replacement EmptyString
        | String b2 (String b3 s3 as s2) =>
            if isMalformed3 b1 b2 b3 then replacement (if isMalformed3_2 b1 b2 then decode s1 else decode s2)
            else if isSurrogate (decode3 b1 b2 b3) then replacement (decode s3)
            else String b1 (String b2 (String b3 (decode s3)))
        end
      else if leads4 b1 then
        match s1 with
        | String b2 (String b3 (String b4 s4 as s3) as s2) =>
            if char4 b1 b2 b3 b4 then String b1 (String b2 (String b3 (String b4 (decode s4))))
            else replacement (if (0xF4 <? byte_of b1) || isMalformed4_2 b1 b2 then decode s1
                              else if isNotContinuation b3 then decode s2 else decode s3)
        | EmptyString => replacement EmptyString
        | String b2 EmptyString =>
            replacement (if (0xF4 <? byte_of b1) || isMalformed4_2 b1 b2 then decode s1 else EmptyString)
        | String b2 (String b3 EmptyString as s2) =>
            replacement (if (0xF4 <? byte_of b1) || isMalformed4_2 b1 b2 then decode s1
                         else if isNotContinuation b3 then decode s2 else EmptyString)
        end
      else replacement (decode s1)
  end.

(** UTF-8: characters of one to four bytes, the shortest way, no surrogates. *)
Fixpoint valid (s : string) : bool :=
  match s with
  | EmptyString => true
  | String b1 s1 =>
      if is_ascii b1 then valid s1
      else if leads2 b1 then
        match s1 with String b2 s2 => negb (isNotContinuation b2) && valid s2 | _ => false end
      else if leads3 b1 then
        match s1 with String b2 (String b3 s3) => char3 b1 b2 b3 && valid s3 | _ => false end
      else if leads4 b1 then
        match s1 with String b2 (String b3 (String b4 s4)) => char4 b1 b2 b3 b4 && valid s4 | _ => false end
      else false
  end.

Lemma valid_replacement s : valid (replacement s) = valid s.
Proof. reflexivity. Qed.

(** Induction along strings whose tails are all covered. *)
Lemma str_strong_ind (P : string → Prop) :
  (∀ s, (∀ t, (String.length t < String.length s)%nat → P t) → P s) → ∀ s, P s.
Proof.
  intros HP s. remember (String.length s) as n eqn:Hn. revert s Hn.
  induction (lt_wf n) as [n _ IH]. intros s ->. apply HP. intros t Ht. by eapply IH.
Qed.

(** Well-formed text is kept as it is. *)
Lemma decode_valid s : valid s = true → decode s = s.
Proof.
  induction s as [[|b1 s1] IH] using str_strong_ind; [done|]. cbn [valid decode].
  destruct (is_ascii b1); [intros Hv; rewrite IH; [done|cbn; lia|done]|].
  destruct (leads2 b1).
  { destruct s1 as [|b2 s2]; [done|]. intros [Hb Hv]%andb_true_iff. destruct (isNotContinuation b2); [done|].
    rewrite IH; [done|cbn; lia|done]. }
  destruct (leads3 b1).
  { destruct s1 as [|b2 [|b3 s3]]; [done..|]. unfold char3. rewrite !andb_true_iff. intros [[Hm Hs] Hv].
    apply negb_true_iff in Hm as ->, Hs as ->. rewrite IH; [done|cbn; lia|done]. }
  destruct (leads4 b1); [|done]. destruct s1 as [|b2 [|b3 [|b4 s4]]]; [done..|].
  intros [-> Hv]%andb_true_iff. rewrite IH; [done|cbn; lia|done].
Qed.

(** What comes out is well-formed. *)
Lemma valid_decode s : valid (decode s) = true.
Proof.
  induction s as [[|b1 s1] IH] using str_strong_ind; [done|].
  assert (∀ t, (String.length t < String.length (String b1 s1))%nat → valid (replacement (decode t)) = true) as Hr.
  { intros t Ht. rewrite valid_replacement. by apply IH. }
  cbn [decode]. destruct (is_ascii b1) eqn:E1; [cbn; rewrite E1; apply IH; cbn; lia|].
  destruct (leads2 b1) eqn:E2.
  { destruct s1 as [|b2 s2]; [done|]. destruct (isNotContinuation b2) eqn:Eb; [apply Hr; cbn; lia|].
    cbn [valid]. rewrite E1, E2, Eb. apply IH. cbn. lia. }
  destruct (leads3 b1) eqn:E3.
  { destruct s1 as [|b2 [|b3 s3]]; [done|destruct (isMalformed3_2 b1 b2); [apply Hr; cbn; lia|done]|].
    destruct (isMalformed3 b1 b2 b3) eqn:Em; [destruct (isMalformed3_2 b1 b2); apply Hr; cbn; lia|].
    destruct (isSurrogate _) eqn:Es; [apply Hr; cbn; lia|].
    cbn [valid]. rewrite E1, E2, E3. unfold char3. rewrite Em, Es. apply IH. cbn. lia. }
  destruct (leads4 b1) eqn:E4; [|apply Hr; cbn; lia].
  destruct s1 as [|b2 [|b3 [|b4 s4]]]; [done|destruct (_ || _); [apply Hr; cbn; lia|done]| |].
  { destruct (_ || _); [apply Hr; cbn; lia|]. destruct (isNotContinuation b3); [apply Hr; cbn; lia|done]. }
  destruct (char4 b1 b2 b3 b4) eqn:Ec.
  - cbn [valid]. rewrite E1, E2, E3, E4, Ec. apply IH. cbn. lia.
  - destruct (_ || _); [|destruct (isNotContinuation b3)]; apply Hr; cbn; lia.
Qed.

Lemma decode_idem s : decode (decode s) = decode s.
Proof. apply decode_valid, valid_decode. Qed.

Lemma valid_ascii s : str_all is_ascii s = true → valid s = true.
Proof. induction s as [|c s IH]; [done|]. cbn. intros [-> Hs]%andb_true_iff. by apply IH. Qed.

(** An overlong form, a truncated one, a surrogate and a byte that starts nothing. *)
Example replaced :
  decode (String "192" (String "128" "a")) = replacement (replacement "a") ∧
  decode (String "226" (String "130" EmptyString)) = replacement EmptyString ∧
  decode (String "237" (String "160" (String "128" EmptyString))) = replacement EmptyString ∧
  decode (String "226" (String "130" (String "172" EmptyString))) = String "226" (String "130" (String "172" EmptyString)) ∧
  decode (String "255" EmptyString) = replacement EmptyString.
Proof. split_and!; reflexivity. Qed.

End Utf8.
