(* ===== verification/Gateway.v ===== *)
(** * The gateway's ring (gateway/.../cluster/HashUtil.java, RingRouter.java)

    The gateway is written in Java and keeps its own copy of the ring, so that
    it can send a request straight to the node that will coordinate it.  A
    [long] is an integer in the signed 64-bit range, with its wrap-around
    written out ([s64]); a [Long] compared unsigned is the unsigned integer it
    denotes.  Strings are their UTF-8 bytes.

    The theorems show that the Java hash is the C++ hash bit for bit, and that
    the owners the gateway computes from a node's membership are the owners the
    node computes. *)
From S2P Require Import Prelude Util Ring Placement.
From Stdlib Require Import Ascii String ZArith Lia.
From stdpp Require Import sorting base gmap sets list strings numbers.

(** ** [long] arithmetic *)

Definition s64 (z : Z) : Z := ((z + 9223372036854775808) mod 18446744073709551616 - 9223372036854775808)%Z.
Definition is_long (z : Z) : Prop := (-9223372036854775808 ≤ z < 9223372036854775808)%Z.

(** [h >>> k]. *)
Definition ushr (h k : Z) : Z := s64 (Z.shiftr (u64 h) k).

Module HashUtil.

Definition FNV_OFFSET_BASIS : Z := 1469598103934665603.
Definition FNV_PRIME : Z := 1099511628211.

(** [b & 0xffL] for a signed [byte]. *)
Definition signed_byte (c : ascii) : Z := (if 128 <=? byte_of c then byte_of c - 256 else byte_of c)%Z.

Fixpoint bytes_loop (s : string) (h : Z) : Z :=
  match s with
  | EmptyString => h
  | String b s =>
      let h := Z.lxor h (Z.land (signed_byte b) 255) in
      let h := s64 (h * FNV_PRIME) in
      bytes_loop s h
  end.

Definition hash64 (s : string) : Z :=
  let h := bytes_loop s FNV_OFFSET_BASIS in
  let h := Z.lxor h (ushr h 33) in
  let h := s64 (h * s64 0xff51afd7ed558ccd) in
  let h := Z.lxor h (ushr h 33) in
  let h := s64 (h * s64 0xc4ceb9fe1a85ec53) in
  let h := Z.lxor h (ushr h 33) in
  h.

Local Open Scope Z_scope.

Lemma u64_s64 z : u64 (s64 z) = u64 z.
Proof.
  unfold u64, s64. rewrite Zminus_mod_idemp_l. f_equal. lia.
Qed.

Lemma s64_range z : is_long (s64 z).
Proof.
  unfold is_long, s64. pose proof (Z.mod_pos_bound (z + 9223372036854775808) 18446744073709551616). lia.
Qed.

Lemma s64_u64 z : is_long z → s64 (u64 z) = z.
Proof.
  unfold is_long, s64, u64. intros. rewrite Zplus_mod_idemp_l, Z.mod_small by lia. lia.
Qed.

Lemma u64_land z : u64 z = Z.land z (Z.ones 64).
Proof. rewrite Z.land_ones by lia. done. Qed.

Lemma u64_lxor a b : u64 (Z.lxor a b) = Z.lxor (u64 a) (u64 b).
Proof.
  rewrite !u64_land. apply Z.bits_inj'. intros i Hi. rewrite !Z.lxor_spec, !Z.land_spec, !Z.lxor_spec.
  by destruct (Z.testbit a i), (Z.testbit b i), (Z.testbit (Z.ones 64) i).
Qed.

Lemma u64_mul a b : u64 (s64 (a * b)) = u64 (u64 a * u64 b).
Proof. rewrite u64_s64. unfold u64. by rewrite <- Z.mul_mod by lia. Qed.

Lemma u64_ushr h : u64 (ushr h 33) = Z.shiftr (u64 h) 33.
Proof.
  unfold ushr. rewrite u64_s64. apply u64_id, shiftr_u64; [lia|]. apply u64_range.
Qed.

Lemma masked_byte c : Z.land (signed_byte c) 255 = byte_of c.
Proof.
  change 255 with (Z.ones 8). rewrite Z.land_ones by lia. unfold signed_byte. pose proof (byte_of_range c).
  change (2 ^ 8) with 256. destruct (Z.leb_spec 128 (byte_of c)); [|by apply Z.mod_small; lia].
  rewrite <- (Z_mod_plus_full _ 1), Z.mod_small; lia.
Qed.

Lemma bytes_loop_u64 s h : u64 (bytes_loop s h) = fnv_loop s (u64 h).
Proof.
  revert h. induction s as [|c s IH]; intros h; cbn [bytes_loop fnv_loop]; [done|].
  rewrite IH, u64_mul, u64_lxor, masked_byte, (u64_id (byte_of c)) by apply byte_of_u64. done.
Qed.

Lemma xorshift_u64 h : u64 (Z.lxor h (ushr h 33)) = Z.lxor (u64 h) (Z.shiftr (u64 h) 33).
Proof. by rewrite u64_lxor, u64_ushr. Qed.

Lemma hash64_u64 s : u64 (hash64 s) = Util.hash64 s.
Proof.
  unfold hash64, Util.hash64, fmix64. cbv zeta.
  rewrite xorshift_u64, u64_mul, xorshift_u64, u64_mul, xorshift_u64, bytes_loop_u64, !u64_s64. done.
Qed.

Lemma is_long_sign z : is_long z ↔ Z.shiftr z 63 = 0 ∨ Z.shiftr z 63 = -1.
Proof.
  unfold is_long. rewrite Z.shiftr_div_pow2 by lia. change (2 ^ 63) with 9223372036854775808.
  split; intros; Z.div_mod_to_equations; lia.
Qed.

Lemma lxor_long a b : is_long a → is_long b → is_long (Z.lxor a b).
Proof. rewrite !is_long_sign, Z.shiftr_lxor. intros [-> | ->] [-> | ->]; cbn; auto. Qed.

Lemma hash64_long s : is_long (hash64 s).
Proof. apply lxor_long; apply s64_range. Qed.

(** The gateway's hash is the cluster's, bit for bit: read unsigned, the
    [long] that Java computes for a string is the [uint64_t] of the C++ code, and
    two strings get the same [long] exactly when they get the same [uint64_t]. *)
Theorem java_hash_is_cpp_hash s t :
  u64 (hash64 s) = Util.hash64 s ∧ is_long (hash64 s) ∧ (hash64 s = hash64 t ↔ Util.hash64 s = Util.hash64 t).
Proof.
  split_and!; [apply hash64_u64|apply hash64_long|]. rewrite <- !hash64_u64. split; [by intros ->|].
  intros E. by rewrite <- (s64_u64 (hash64 s)), <- (s64_u64 (hash64 t)), E by apply hash64_long.
Qed.

(** The two programs agree on a seed that is not the FNV-1a offset basis: it is
    the basis with its last decimal digit missing. *)
Example seed_is_not_the_fnv_basis :
  fnv_offset = FNV_OFFSET_BASIS ∧ FNV_OFFSET_BASIS ≠ 0xcbf29ce484222325 ∧ 0xcbf29ce484222325 / 10 = FNV_OFFSET_BASIS.
Proof. repeat split. discriminate. Qed.

End HashUtil.

(** ** [RingRouter] *)

(** The record [RingNode] has the fields of [NodeInfo]. *)
Abbreviation RingNode := NodeInfo.

Module RingRouter.

Record RingRouter := mkRingRouter {
  virtualNodes : Z;
  snap_ring : gmap Z RingNode;         (* keyed by the unsigned value of the [Long] *)
  snap_physicalCount : nat;
}.

Definition countPhysicals (ring : gmap Z RingNode) : nat :=
  size (list_to_set (node_id <$> (entries ring).*2) : gset string).

Definition new (vnodes : Z) : RingRouter := mkRingRouter vnodes ∅ (countPhysicals ∅).

Definition place (node : RingNode) (next : gmap Z RingNode) (i : nat) : gmap Z RingNode :=
  <[u64 (HashUtil.hash64 (node_id node +:+ "#vn" +:+ to_string (Z.of_nat i))) := node]> next.

Definition rebuild (nodes : list RingNode) (g : RingRouter) : RingRouter :=
  let next := foldl (λ next node, foldl (place node) next (seq 0 (Z.to_nat (virtualNodes g)))) ∅ nodes in
  mkRingRouter (virtualNodes g) next (countPhysicals next).

(** [ceilingEntry], [higherKey] and [firstKey] of the [TreeMap]. *)
Definition ceilingEntry (ring : gmap Z RingNode) (h : Z) : option (Z * RingNode) :=
  List.find (λ e, h <=? e.1)%Z (entries ring).
Definition higherKey (ring : gmap Z RingNode) (cursor : Z) : option Z :=
  fst <$> List.find (λ e, cursor <? e.1)%Z (entries ring).
Definition firstKey (ring : gmap Z RingNode) : Z := default 0%Z (fst <$> head (entries ring)).

(** [owners.add(node)] on a [LinkedHashSet]. *)
Definition add_distinct (owners : list RingNode) (node : RingNode) : list RingNode :=
  if bool_decide (node ∈ owners) then owners else owners ++ [node].

(** The [while] loop; [None] is a loop that does not stop within the fuel. *)
Fixpoint walk (fuel : nat) (ring : gmap Z RingNode) (physicalCount : nat) (n cursor : Z)
    (owners : list RingNode) : option (list RingNode) :=
  match fuel with
  | O => None
  | S fuel =>
      if negb (Z.of_nat (length owners) <? n)%Z then Some owners
      else
        let owners := add_distinct owners (ring !!! cursor) in
        if bool_decide (length owners = physicalCount) then Some owners
        else walk fuel ring physicalCount n (default (firstKey ring) (higherKey ring cursor)) owners
  end.

Definition ownersFor (g : RingRouter) (key : string) (n : Z) : option (list RingNode) :=
  let n := if (n <=? 0)%Z then 1%Z else n in
  if bool_decide (snap_ring g = ∅) then Some []
  else
    let h := u64 (HashUtil.hash64 key) in
    let cursor := match ceilingEntry (snap_ring g) h with
                  | Some start => start.1
                  | None => firstKey (snap_ring g)
                  end in
    walk (S (size (snap_ring g))) (snap_ring g) (snap_physicalCount g) n cursor [].

Definition primaryFor (g : RingRouter) (key : string) : option RingNode :=
  ownersFor g key 1 ≫= head.

Definition physicalNodeCount (g : RingRouter) : nat := snap_physicalCount g.

(** ** The snapshot of a node's membership *)

(** The snapshot holds the virtual nodes of the members, with their addresses. *)
Definition addressed (r : Router.Router) : gmap Z RingNode := Router.info_of (Router.nodes r) <$> Router.ring r.

Lemma foldl_place_lookup node rg idx h n :
  foldl (place node) rg idx !! h = Some n ↔
  (n = node ∧ h ∈ Router.vnode_hash (node_id node) <$> idx) ∨
  (h ∉ Router.vnode_hash (node_id node) <$> idx) ∧ rg !! h = Some n.
Proof.
  revert rg. induction idx as [|i idx IH]; intros rg; cbn [foldl fmap list_fmap]; [set_solver|].
  rewrite IH. unfold place. rewrite HashUtil.hash64_u64. fold (Router.vnode_hash (node_id node) i).
  rewrite elem_of_cons, lookup_insert_Some.
  destruct (decide (h ∈ Router.vnode_hash (node_id node) <$> idx)); destruct (decide (h = Router.vnode_hash (node_id node) i));
    naive_solver.
Qed.

Abbreviation place_all v := (foldl (λ next node, foldl (place node) next (seq 0 (Z.to_nat v)))).

Lemma place_all_sound v nodes (rg : gmap Z RingNode) h n :
  place_all v rg nodes !! h = Some n →
  (n ∈ nodes ∧ h ∈ Placement.positions v (node_id n)) ∨ rg !! h = Some n.
Proof.
  revert rg. induction nodes as [|a nodes IH]; intros rg; cbn [foldl]; [by right|].
  intros [[Hn Hh]|Hn]%IH; [left; split; [by right|done]|].
  apply foldl_place_lookup in Hn as [[-> Hh]|[_ Hn]]; [left; split; [by left|done]|by right].
Qed.

Lemma place_all_complete v nodes (rg : gmap Z RingNode) h :
  is_Some (rg !! h) ∨ Exists (λ n, h ∈ Placement.positions v (node_id n)) nodes →
  is_Some (place_all v rg nodes !! h).
Proof.
  revert rg. induction nodes as [|a nodes IH]; intros rg H; cbn [foldl].
  { destruct H as [H|H]; [done|by apply List.Exists_nil in H]. }
  apply IH. rewrite List.Exists_cons in H. destruct (decide (h ∈ Placement.positions v (node_id a))) as [Hh|Hh].
  - left. exists a. apply foldl_place_lookup. by left.
  - destruct H as [[n Hn]|[?|?]]; [|done|by right]. left. exists n. apply foldl_place_lookup. by right.
Qed.

Lemma placed_unique r a b h :
  Placement.placed r → a ∈ Router.getAllPhysicalNodes r → b ∈ Router.getAllPhysicalNodes r → Router.ring_ok r →
  h ∈ Placement.positions (Router.virtual_nodes r) (node_id a) →
  h ∈ Placement.positions (Router.virtual_nodes r) (node_id b) → a = b.
Proof.
  unfold Router.getAllPhysicalNodes. intros Hp Ha Hb Hok Hha Hhb.
  apply list_elem_of_fmap in Ha as ([i a'] & -> & Ha%elem_of_entries), Hb as ([j b'] & -> & Hb%elem_of_entries). cbn in *.
  pose proof (Router.ring_ids r Hok _ _ Ha). pose proof (Router.ring_ids r Hok _ _ Hb). subst i j.
  assert (Router.ring r !! h = Some (node_id a')) by (apply Hp; eauto).
  assert (Router.ring r !! h = Some (node_id b')) by (apply Hp; eauto). congruence.
Qed.

Lemma rebuild_addressed r g :
  Router.ring_ok r → Placement.placed r → virtualNodes g = Router.virtual_nodes r →
  snap_ring (rebuild (Router.getAllPhysicalNodes r) g) = addressed r.
Proof.
  intros Hok Hp Hv. cbn. rewrite Hv. apply map_eq. intros h. unfold addressed. rewrite lookup_fmap.
  set (l := Router.getAllPhysicalNodes r).
  assert (∀ n, n ∈ l ↔ Router.nodes r !! node_id n = Some n) as Hl.
  { intros n. unfold l, Router.getAllPhysicalNodes. rewrite list_elem_of_fmap. split.
    - intros ([i m] & -> & Hm%elem_of_entries). cbn. by rewrite (Router.ring_ids r Hok _ _ Hm).
    - intros Hn. exists (node_id n, n). split; [done|]. by apply elem_of_entries. }
  destruct (Router.ring r !! h) as [id|] eqn:Er; cbn.
  - pose proof Er as [[n Hn] Hh]%Hp. pose proof (Router.ring_ids r Hok _ _ Hn) as <-. unfold Router.info_of. rewrite Hn. cbn.
    destruct (place_all_complete (Router.virtual_nodes r) l ∅ h) as [m Hm].
    { right. apply list.Exists_exists. exists n. split; [by apply Hl|done]. }
    rewrite Hm. f_equal. apply place_all_sound in Hm as [[Hm Hmh]|Hm]; [|by rewrite lookup_empty in Hm].
    by eapply (placed_unique r m n h); try done; apply Hl.
  - destruct (place_all _ ∅ l !! h) as [m|] eqn:Em; [|done].
    apply place_all_sound in Em as [[Hm Hmh]|Hm]; [|by rewrite lookup_empty in Hm].
    apply Hl in Hm. assert (Router.ring r !! h = Some (node_id m)) by (apply Hp; eauto). congruence.
Qed.

(** ** The walk *)

Lemma find_lower_bound (l : list (Z * string)) h :
  List.find (λ e, h <=? e.1)%Z l = l !! Router.lower_bound l h.
Proof.
  induction l as [|x l IH]; [done|]. cbn. destruct (Z.leb_spec h x.1), (Z.ltb_spec x.1 h); try lia; done.
Qed.

Lemma lower_bound_le l h : Router.lower_bound l h ≤ length l.
Proof. induction l as [|x l IH]; cbn; [done|]. destruct (x.1 <? h)%Z; lia. Qed.

Lemma find_next (l : list (Z * string)) it :
  StronglySorted entry_le l → NoDup l.*1 → it < length l →
  List.find (λ e, (l !!! it).1 <? e.1)%Z l = l !! S it.
Proof.
  intros Hs. revert it. induction Hs as [|x l Hs IH Hx]; intros it Hnd Hit; [cbn in Hit; lia|].
  rewrite fmap_cons, list.NoDup_cons in Hnd. destruct Hnd as [Hnx Hnd].
  assert (∀ y, y ∈ l → x.1 < y.1)%Z as Hlt.
  { intros y Hy. pose proof (proj1 (list.Forall_forall _ _) Hx y Hy) as Hle. unfold entry_le in Hle. cbn in Hle.
    enough (x.1 ≠ y.1) by lia. intros E. apply Hnx. rewrite E. by apply list_elem_of_fmap_2. }
  destruct it as [|it]; [cbn|change ((x :: l) !!! S it) with (l !!! it); change ((x :: l) !! S (S it)) with (l !! S it); cbn [List.find]].
  - rewrite Z.ltb_irrefl. destruct l as [|y l]; [done|]. cbn.
    destruct (Z.ltb_spec x.1 y.1) as [|Hge]; [done|]. specialize (Hlt y ltac:(left)). lia.
  - cbn in Hit. assert (l !!! it ∈ l) as Hin by (apply list_elem_of_lookup_total_2; lia).
    specialize (Hlt _ Hin). destruct (Z.ltb_spec (l !!! it).1 x.1); [lia|]. apply IH; [done|lia].
Qed.

Section snapshot.
Context (r : Router.Router) (Hok : Router.ring_ok r).
Let l := entries (Router.ring r).

Lemma entries_addressed : entries (addressed r) = prod_map id (Router.info_of (Router.nodes r)) <$> l.
Proof. apply entries_fmap. Qed.

Lemma addressed_get it : it < length l →
  ∃ n, Router.nodes r !! (l !!! it).2 = Some n ∧ node_id n = (l !!! it).2 ∧ addressed r !!! (l !!! it).1 = n.
Proof.
  intros Hit. assert (l !!! it ∈ l) as Hin by (apply list_elem_of_lookup_total_2; lia).
  destruct (l !!! it) as [h id] eqn:E. apply elem_of_entries in Hin. cbn.
  destruct (Router.ring_vals r Hok _ _ Hin) as [n Hn]. exists n. split_and!; [done|by eapply Router.ring_ids|].
  apply lookup_total_correct. unfold addressed. rewrite lookup_fmap, Hin. cbn. unfold Router.info_of. by rewrite Hn.
Qed.

Lemma first_key : 0 < length l → firstKey (addressed r) = (l !!! 0).1.
Proof. intros Hl. unfold firstKey. rewrite entries_addressed. by destruct l; [cbn in Hl; lia|]. Qed.

Lemma next_cursor it : it < length l →
  default (firstKey (addressed r)) (higherKey (addressed r) (l !!! it).1) =
  (l !!! (if bool_decide (S it = length l) then 0 else S it)).1.
Proof.
  intros Hit. unfold higherKey. rewrite entries_addressed, find_fmap.
  replace (List.find _ l) with (l !! S it)
    by (symmetry; apply (find_next l it); [apply entries_sorted|apply NoDup_entries_fst|done]).
  case_bool_decide as Hlast.
  - rewrite Hlast, lookup_ge_None_2 by done. apply first_key. lia.
  - destruct (lookup_lt_is_Some_2 l (S it)) as [e He]; [lia|]. rewrite (list_lookup_total_correct _ _ _ He), He. done.
Qed.

(** The two loops take the same steps. *)
Lemma walk_loop fuel n it owners :
  it < length l → NoDup (node_id <$> owners) → (∀ o, o ∈ owners → Router.nodes r !! node_id o = Some o) →
  walk fuel (addressed r) (size (Router.nodes r)) n (l !!! it).1 owners =
  Router.owners_loop fuel l (Router.nodes r) n it owners (list_to_set (node_id <$> owners)).
Proof.
  revert it owners. induction fuel as [|fuel IH]; intros it owners Hit Hnd Hown; [done|]. cbn [walk Router.owners_loop].
  destruct (negb _); [done|]. destruct (addressed_get it Hit) as (p & Hp & Hpid & ->). rewrite Hp.
  assert (∀ os, NoDup (node_id <$> os) →
    size (list_to_set (node_id <$> os) : gset string) = length os) as Hsize.
  { intros os Hos. rewrite size_list_to_set by done. apply length_fmap. }
  assert (((l !!! it).2 ∈ (list_to_set (node_id <$> owners) : gset string)) ↔ p ∈ owners) as Hin.
  { rewrite elem_of_list_to_set, list_elem_of_fmap. split; [|intros ?; by exists p].
    intros (o & Ho & Hin). pose proof (Hown o Hin) as Hn. rewrite <- Ho, Hp in Hn. by injection Hn as ->. }
  rewrite (bool_decide_ext _ _ Hin). unfold add_distinct.
  destruct (bool_decide_reflect (p ∈ owners)) as [Hc|Hc]; cbv beta iota zeta.
  - rewrite Hsize by done. case_bool_decide; [done|]. rewrite next_cursor by done. apply IH; [|done..].
    case_bool_decide; lia.
  - assert (NoDup (node_id <$> owners ++ [p])) as Hnd'.
    { rewrite fmap_app. apply list.NoDup_app. split_and!; [done| |apply NoDup_singleton].
      intros x (o & -> & Ho)%list_elem_of_fmap Hx%list_elem_of_singleton. apply Hc.
      pose proof (Hown o Ho) as Hn. rewrite Hx, Hpid, Hp in Hn. by injection Hn as ->. }
    assert ({[(l !!! it).2]} ∪ list_to_set (node_id <$> owners) =
            (list_to_set (node_id <$> owners ++ [p]) : gset string)) as ->.
    { rewrite fmap_app, list_to_set_app_L. cbn. rewrite Hpid. set_solver. }
    rewrite Hsize by done. case_bool_decide; [done|]. rewrite next_cursor by done. apply IH; [|done|].
    + case_bool_decide; lia.
    + intros o [Ho|Ho%list_elem_of_singleton]%elem_of_app; [by apply Hown|]. subst o. by rewrite Hpid.
Qed.

Lemma count_addressed : countPhysicals (addressed r) = size (Router.nodes r).
Proof.
  unfold countPhysicals. rewrite <- size_dom. f_equal. apply set_eq. intros id.
  rewrite elem_of_list_to_set, entries_addressed, elem_of_dom, <- (Router.elem_of_ring_ids r id Hok). fold l.
  rewrite <- !list_fmap_compose. split; intros ([h x] & -> & Hx)%list_elem_of_fmap; apply list_elem_of_fmap;
    exists (h, x); (split; [|done]); cbn; apply elem_of_entries in Hx;
    destruct (Router.ring_vals r Hok _ _ Hx) as [n Hn]; unfold Router.info_of; rewrite Hn; cbn;
    [|symmetry]; by eapply Router.ring_ids.
Qed.

Lemma ownersFor_findOwners g key n :
  Placement.placed r → virtualNodes g = Router.virtual_nodes r →
  ownersFor (rebuild (Router.getAllPhysicalNodes r) g) key n = Router.findOwners r key n.
Proof.
  intros Hp Hv. unfold ownersFor, Router.findOwners. rewrite rebuild_addressed by done.
  change (snap_physicalCount (rebuild (Router.getAllPhysicalNodes r) g))
    with (countPhysicals (snap_ring (rebuild (Router.getAllPhysicalNodes r) g))).
  rewrite rebuild_addressed, count_addressed by done.
  assert (addressed r = ∅ ↔ Router.ring r = ∅) as Hemp by (unfold addressed; apply fmap_empty_iff).
  rewrite (bool_decide_ext _ _ Hemp). case_bool_decide as He; [done|].
  assert (0 < length l) as Hl by (by apply Router.entries_ring_nil).
  assert (size (addressed r) = length l) as -> by (unfold addressed, l; by rewrite map_size_fmap, length_entries).
  fold l. rewrite <- walk_loop; [f_equal| |constructor|by intros ? ?%elem_of_nil].
  - rewrite HashUtil.hash64_u64. unfold ceilingEntry. rewrite entries_addressed, find_fmap.
    replace (List.find _ l) with (l !! Router.lower_bound l (hash64 key)) by (symmetry; apply find_lower_bound).
    unfold Router.start_index.
    destruct (l !! Router.lower_bound l (hash64 key)) as [e|] eqn:E; cbn.
    + rewrite bool_decide_eq_false_2 by (apply lookup_lt_Some in E; lia). by rewrite (list_lookup_total_correct _ _ _ E).
    + apply lookup_ge_None_1 in E. pose proof (lower_bound_le l (hash64 key)).
      rewrite bool_decide_eq_true_2 by lia. by apply first_key.
  - unfold Router.start_index. pose proof (lower_bound_le l (hash64 key)). case_bool_decide; lia.
Qed.

End snapshot.

End RingRouter.
