(* ===== verification/GatewayClient.v ===== *)
(** * The gateway's cluster client (gateway/.../cluster/ClusterClient.java,
      KvController.validateKey)

    What the gateway writes to a node and how it reads the answers: the request
    payloads, the parsers of the three kinds of reply, and the order in which
    nodes are tried.  The other end is [Node.handleRequest] and the replies of
    [Node.v].  An exception is [None].

    The theorems follow a request through both programs: the owners the gateway
    computes from a RING reply are the ones the answering node computes, a node
    reads back the key, value and context the gateway was given, the gateway
    reads back the versions and the outcome the node reported, and a put the
    gateway reports as stored is on W replicas. *)
From S2P Require Import Prelude Util Base64 Clock Value Storage Ring Placement Metrics Hints Wire Coordinator Quorum Events Membership Sync Gossip Node Gateway.
From Stdlib Require Import Ascii String ZArith Lia.
From stdpp Require Import base gmap sets list strings numbers relations.
Import VersionedValue replica_ops Coordinator.

(** A Java call: its result, an [IOException], or a runtime exception. *)
Inductive Java (A : Type) := Returns (a : A) | IOException | RuntimeException.
#[global] Arguments Returns {A} _.
#[global] Arguments IOException {A}.
#[global] Arguments RuntimeException {A}.

(** ** Java library calls *)

(** [s.split(c)]: trailing empty pieces are dropped; a string without the
    separator is its only piece. *)
Fixpoint drop_trailing (l : list string) : list string :=
  match l with
  | [] => []
  | x :: l => match drop_trailing l with
              | [] => if str_empty x then [] else [x]
              | l' => x :: l'
              end
  end.
Definition split_trim (s : string) (c : ascii) : list string :=
  if str_free c s then [s] else drop_trailing (splitAll s c).

(** [s.trim()]: characters up to the space are white. *)
Definition is_white (c : ascii) : bool := (byte_of c <=? 32)%Z.
Fixpoint trim_front (s : string) : string :=
  match s with
  | String c s' => if is_white c then trim_front s' else s
  | EmptyString => EmptyString
  end.
Fixpoint trim_back (s : string) : string :=
  match s with
  | EmptyString => EmptyString
  | String c s => match trim_back s with
                  | EmptyString => if is_white c then EmptyString else String c EmptyString
                  | s' => String c s'
                  end
  end.
Definition trim (s : string) : string := trim_back (trim_front s).

Definition is_int (z : Z) : Prop := (-2147483648 ≤ z ≤ 2147483647)%Z.
#[export] Instance is_int_dec z : Decision (is_int z).
Proof. unfold is_int. apply _. Defined.

(** [Integer.toString(n)] is [int_string]; [Integer.parseInt(s)] on ASCII digits. *)
Definition parseInt (s : string) : option Z :=
  let '(neg, ds) := match s with
                    | String "-" s => (true, s)
                    | String "+" s => (false, s)
                    | _ => (false, s)
                    end in
  if str_empty ds || negb (str_all is_digit ds) then None
  else let v := if neg : bool then (- dec_value ds 0)%Z else dec_value ds 0 in
       if bool_decide (is_int v) then Some v else None.

(** [Base64.getDecoder().decode(s)]: strict on characters and on padding. *)
Definition sextet_value (c : ascii) : option Z :=
  let v := base64.kDecode c in if (v =? 0xFF)%Z then None else Some v.
Definition byte_1 (v0 v1 : Z) : ascii := char_of (v0 * 4 + v1 / 16).
Definition byte_2 (v1 v2 : Z) : ascii := char_of (v1 mod 16 * 16 + v2 / 4).
Definition byte_3 (v2 v3 : Z) : ascii := char_of (v2 mod 4 * 64 + v3).

Fixpoint unb64 (s : string) : option string :=
  match s with
  | EmptyString => Some EmptyString
  | String c0 (String c1 rest) =>
      v0 ← sextet_value c0; v1 ← sextet_value c1;
      match rest with
      | EmptyString => Some (String (byte_1 v0 v1) EmptyString)
      | String c2 rest =>
          if Ascii.eqb c2 "=" then
            if String.eqb rest "=" then Some (String (byte_1 v0 v1) EmptyString) else None
          else
            v2 ← sextet_value c2;
            match rest with
            | EmptyString => Some (String (byte_1 v0 v1) (String (byte_2 v1 v2) EmptyString))
            | String c3 rest =>
                if Ascii.eqb c3 "=" then
                  if str_empty rest then Some (String (byte_1 v0 v1) (String (byte_2 v1 v2) EmptyString)) else None
                else
                  v3 ← sextet_value c3;
                  out ← unb64 rest;
                  Some (String (byte_1 v0 v1) (String (byte_2 v1 v2) (String (byte_3 v2 v3) out)))
            end
      end
  | _ => None
  end.

(** ** Lemmas on the library calls *)

Lemma sextet_value_alpha v : (0 ≤ v < 64)%Z → sextet_value (base64.alpha v) = Some v.
Proof.
  intros Hv. unfold sextet_value. rewrite base64.kDecode_alpha by done. by destruct (Z.eqb_spec v 255); [lia|].
Qed.

Lemma alpha_not_pad v : (0 ≤ v < 64)%Z → Ascii.eqb (base64.alpha v) "=" = false.
Proof.
  intros Hv. destruct (Ascii.eqb_spec (base64.alpha v) "=") as [E|]; [|done].
  pose proof (sextet_value_alpha v Hv) as Hs. by rewrite E in Hs.
Qed.

Lemma unb64_encode raw : unb64 (base64.encode raw) = Some raw.
Proof.
  induction raw as [|a|a b|a b c r IH] using base64.string_ind3; [done|..];
    pose proof (byte_of_range a); try pose proof (byte_of_range b); try pose proof (byte_of_range c).
  - erewrite base64.encode_1 by reflexivity. set (n := (byte_of a * 65536)%Z). cbn [unb64].
    rewrite !sextet_value_alpha by base64.sextet_bounds. cbn. do 2 f_equal.
    apply base64.char_of_eq. subst n. Z.div_mod_to_equations; lia.
  - erewrite base64.encode_2 by reflexivity. set (n := (byte_of a * 65536 + byte_of b * 256)%Z). cbn [unb64].
    rewrite !sextet_value_alpha by base64.sextet_bounds. cbn [mbind option_bind].
    rewrite alpha_not_pad by base64.sextet_bounds. cbn.
    f_equal. f_equal; [|f_equal]; apply base64.char_of_eq; subst n; Z.div_mod_to_equations; lia.
  - erewrite base64.encode_3 by reflexivity. set (n := (byte_of a * 65536 + byte_of b * 256 + byte_of c)%Z). cbn [unb64].
    rewrite !sextet_value_alpha by base64.sextet_bounds. cbn [mbind option_bind].
    rewrite !alpha_not_pad by base64.sextet_bounds.
    cbn [mbind option_bind]. rewrite IH. cbn [mbind option_bind].
    f_equal. f_equal; [|f_equal; [|f_equal]]; apply base64.char_of_eq; subst n; Z.div_mod_to_equations; lia.
Qed.

Lemma int_string_digits n : is_int n →
  ∃ ds, str_all is_digit ds = true ∧ ds ≠ EmptyString ∧
    ((n < 0)%Z ∧ int_string n = String "-" ds ∧ dec_value ds 0 = (- n)%Z ∨
     (0 ≤ n)%Z ∧ int_string n = ds ∧ dec_value ds 0 = n).
Proof.
  unfold is_int, int_string. intros Hn. exists (to_string (Z.abs n)).
  destruct (to_string_ok (Z.abs n)) as (Hd & Hne & Hv & _); [unfold is_u64, U64_MAX; lia|].
  split_and!; [done..|]. destruct (Z.ltb_spec n 0); [left|right];
    (split_and!; [lia| |rewrite Hv; lia]); [|by rewrite Z.abs_eq by lia]. by rewrite Z.abs_neq by lia.
Qed.

Lemma stoi_int_string n : is_int n → stoi (int_string n) = Some n.
Proof.
  intros Hn. destruct (int_string_digits n Hn) as (ds & Hd & Hne & [(? & -> & Hv)|(? & -> & Hv)]).
  - unfold stoi, read_number. cbn [skip_space]. change (Ascii.is_space "-") with false. cbv iota.
    rewrite read_digits_value by done. cbn [default]. rewrite Hv. cbn. rewrite Z.opp_involutive.
    unfold is_int in Hn. by destruct (Z.ltb_spec n (-2147483648)); [lia|]; destruct (Z.ltb_spec 2147483647 n); [lia|].
  - unfold stoi. rewrite read_number_digits, Hv by done. unfold is_int in Hn.
    by destruct (Z.ltb_spec n (-2147483648)); [lia|]; destruct (Z.ltb_spec 2147483647 n); [lia|].
Qed.

Lemma int_string_free c n : is_int n → is_digit c = false → c ≠ "-"%char → str_free c (int_string n) = true.
Proof.
  intros Hn Hc Hm. destruct (int_string_digits n Hn) as (ds & Hd & _ & [(? & -> & _)|(? & -> & _)]);
    (assert (str_free c ds = true) as Hf;
      [unfold str_free; eapply str_all_impl; [|exact Hd]; intros x Hx; cbn; destruct (Ascii.eqb_spec x c); [congruence|done]|]);
    [|done].
  unfold str_free in *. cbn [str_all]. rewrite Hf. by destruct (Ascii.eqb_spec "-" c); [congruence|].
Qed.

Lemma parseInt_port n : is_u16 n → parseInt (to_string n) = Some n.
Proof.
  unfold is_u16. intros Hn. destruct (to_string_ok n) as (Hd & Hne & Hv & _); [unfold is_u64, U64_MAX; lia|].
  unfold parseInt. destruct (to_string n) as [|c s] eqn:E; [done|].
  assert (is_digit c = true) as Hc by (cbn in Hd; by apply andb_true_iff in Hd as [? _]).
  assert (match String c s with String "-" t => (true, t) | String "+" t => (false, t) | _ => (false, String c s) end
           = (false, String c s)) as ->.
  { by destruct c as [[] [] [] [] [] [] [] []]. }
  rewrite Hd, Hv. cbn. rewrite bool_decide_eq_true_2; [done|]. unfold is_int. lia.
Qed.

(** ** Requests *)

Module ClusterClient.

Definition ORIGIN : string := "gateway".

(** [nz(clock)]: a missing clock is [None]. *)
Definition nz (s : option string) : string := default EmptyString s.

Definition put_payload (key value : string) (clock : option string) (n w r : Z) : string :=
  str_join "|" ["PUT"; key; base64.encode value; ORIGIN; int_string n; int_string w; int_string r; nz clock].
Definition delete_payload (key : string) (clock : option string) (n w : Z) : string :=
  str_join "|" ["DELETE"; key; ORIGIN; int_string n; int_string w; nz clock].
Definition get_payload (key : string) (n r : Z) : string :=
  str_join "|" ["GET"; key; ORIGIN; int_string n; int_string r].

(** ** Replies *)

Inductive WriteResult :=
| WriteOk (clock : string)
| WriteQuorumFailed
| WriteError (reason : string).

Definition ValueVersion := (string * string)%type.

Inductive ReadResult :=
| ReadOk (v : ValueVersion)
| ReadSiblings (vs : list ValueVersion)
| ReadNotFound
| ReadQuorumFailed
| ReadError (reason : string).

Definition isQuorumFailure (reason : string) : bool :=
  String.eqb reason "quorum_not_met" || String.eqb reason "no_nodes_in_ring".

Definition parseWrite (resp : string) : WriteResult :=
  let p := splitAll resp "|" in
  if bool_decide (2 ≤ length p) && String.eqb (field p 0) "RESPONSE" && String.eqb (field p 1) "OK"
  then WriteOk (if bool_decide (3 ≤ length p) then field p 2 else "")
  else let reason := if bool_decide (3 ≤ length p) then field p 2 else "unknown" in
       if isQuorumFailure reason then WriteQuorumFailed else WriteError reason.

(** [for (int i = 3; i + 1 < p.length; i += 2)], on the fields from [i] on. *)
Fixpoint versions (p : list string) : option (list ValueVersion) :=
  match p with
  | b :: c :: p => v ← unb64 b; vs ← versions p; Some ((v, c) :: vs)
  | _ => Some []
  end.

Definition parseRead (resp : string) : option ReadResult :=
  let p := splitAll resp "|" in
  if bool_decide (length p < 2) || negb (String.eqb (field p 0) "RESPONSE")
  then Some (ReadError "malformed_response")
  else if String.eqb (field p 1) "OK" then
    b ← p !! 2; v ← unb64 b; c ← p !! 3; Some (ReadOk (v, c))
  else if String.eqb (field p 1) "SIBLINGS" then ReadSiblings <$> versions (drop 3 p)
  else if String.eqb (field p 1) "NOTFOUND" then Some ReadNotFound
  else let reason := if bool_decide (3 ≤ length p) then field p 2 else "unknown" in
       Some (if isQuorumFailure reason then ReadQuorumFailed else ReadError reason).

(** One row of the snapshot; a malformed one is skipped. *)
Definition parse_row (line : string) : option RingNode :=
  let line := trim line in
  if str_empty line then None
  else match splitAll line "|" with
       | [id; host; port] => mkNode id host <$> parseInt port
       | _ => None
       end.

Definition parseRing (resp : string) : option (list RingNode) :=
  let lines := split_trim resp "010" in
  match lines with
  | [] => None
  | l0 :: _ => if String.eqb (trim l0) "RING" then Some (omap parse_row (drop 2 lines)) else None
  end.

(** ** Targets *)

Definition Endpoint := (string * Z)%type.
Definition endpoint_key (e : Endpoint) : string := e.1 +:+ ":" +:+ int_string e.2.

Definition add_target (out : list Endpoint * list string) (e : Endpoint) : list Endpoint * list string :=
  if bool_decide (endpoint_key e ∈ out.2) then out else (out.1 ++ [e], out.2 ++ [endpoint_key e]).

Definition targetsForKey (g : RingRouter.RingRouter) (seeds : list Endpoint) (key : string) (n : Z)
  : option (list Endpoint) :=
  owners ← RingRouter.ownersFor g key n;
  Some (foldl add_target (foldl add_target ([], []) ((λ o, (host o, port o)) <$> owners)) seeds).1.

(** [exchange]: the first target that answers; an [IOException] moves on to the
    next one, and [None] is the [ClusterUnavailableException] at the end. *)
Fixpoint exchange {Net} (roundTrip : Endpoint → string → Net → Java string * Net)
    (targets : list Endpoint) (payload : string) (net : Net) : Java (option string) * Net :=
  match targets with
  | [] => (Returns None, net)
  | e :: targets =>
      match roundTrip e payload net with
      | (Returns reply, net) => (Returns (Some reply), net)
      | (IOException, net) => exchange roundTrip targets payload net
      | (RuntimeException, net) => (RuntimeException, net)
      end
  end.

(** [KvController.validateKey]. *)
Definition validateKey (key : string) : bool := negb (str_empty key) && str_free "|" key.

End ClusterClient.

(** ** Both ends of a request *)

Section requests.
Import ClusterClient.
Context (key value : string) (n w r : Z) (ctx : VectorClock.clock).
Context (Hkey : validateKey key = true) (Hn : is_int n) (Hw : is_int w) (Hr : is_int r).
Context (Hctx : VectorClock.wire_ok ctx).

Lemma key_free : str_free "|" key = true.
Proof using Hkey. by apply andb_true_iff in Hkey as [_ ?]. Qed.

Lemma put_fields :
  splitAll (put_payload key value (Some (VectorClock.serialize ctx)) n w r) "|" =
  ["PUT"; key; base64.encode value; ORIGIN; int_string n; int_string w; int_string r; VectorClock.serialize ctx].
Proof using All.
  apply (splitAll_join "|"); [|done].
  repeat (apply Forall_cons; split); try apply Forall_nil; try done;
    [apply key_free|by apply base64.encode_free|by apply int_string_free..|by apply VectorClock.serialize_bar_free].
Qed.

Lemma delete_fields :
  splitAll (delete_payload key (Some (VectorClock.serialize ctx)) n w) "|" =
  ["DELETE"; key; ORIGIN; int_string n; int_string w; VectorClock.serialize ctx].
Proof using Hkey Hn Hw Hctx.
  apply (splitAll_join "|"); [|done].
  repeat (apply Forall_cons; split); try apply Forall_nil; try done;
    [apply key_free|by apply int_string_free..|by apply VectorClock.serialize_bar_free].
Qed.

Lemma get_fields : splitAll (get_payload key n r) "|" = ["GET"; key; ORIGIN; int_string n; int_string r].
Proof using Hkey Hn Hr.
  apply (splitAll_join "|"); [|done].
  repeat (apply Forall_cons; split); try apply Forall_nil; try done; [apply key_free|by apply int_string_free..].
Qed.

Lemma toInt_int_string f i z : f !! i = Some (int_string z) → is_int z → toInt f i = z.
Proof using.
  intros Hf Hz. unfold toInt, field. rewrite Hf. cbn [from_option id].
  destruct (int_string_digits z Hz) as (ds & _ & Hne & Hd).
  assert (int_string z ≠ EmptyString) as Hs by (by destruct Hd as [(_ & -> & _)|(_ & -> & _)]).
  by rewrite str_empty_false, stoi_int_string.
Qed.

End requests.

(** A node reads what the gateway was given.  For a key the gateway accepts,
    any value, and a context clock handed out earlier, the fields the node
    extracts from a PUT, DELETE or GET payload are the key, the value's bytes, the
    clock and the quorum parameters of the request, whatever they contain. *)
Theorem gateway_request_understood key value n w r ctx :
  ClusterClient.validateKey key = true → is_int n → is_int w → is_int r → VectorClock.wire_ok ctx →
  let token := Some (VectorClock.serialize ctx) in
  let p := splitAll (ClusterClient.put_payload key value token n w r) "|" in
  let d := splitAll (ClusterClient.delete_payload key token n w) "|" in
  let g := splitAll (ClusterClient.get_payload key n r) "|" in
  (field p 0, field p 1, base64.decode (field p 2), toInt p 4, toInt p 5, VectorClock.parse (field p 7)) =
    ("PUT", key, value, n, w, ctx) ∧
  (field d 0, field d 1, toInt d 3, toInt d 4, VectorClock.parse (field d 5)) = ("DELETE", key, n, w, ctx) ∧
  (field g 0, field g 1, toInt g 3, toInt g 4) = ("GET", key, n, r).
Proof.
  intros Hkey Hn Hw Hr Hctx. cbv zeta. rewrite put_fields, delete_fields, get_fields by done.
  destruct Hctx as (Hwf & Hids & _). split_and!.
  - rewrite (toInt_int_string _ 4 n), (toInt_int_string _ 5 w) by done.
    unfold field. cbn -[base64.decode base64.encode VectorClock.parse]. by rewrite base64.decode_encode, VectorClock.parse_serialize.
  - rewrite (toInt_int_string _ 3 n), (toInt_int_string _ 4 w) by done.
    unfold field. cbn -[VectorClock.parse]. by rewrite VectorClock.parse_serialize.
  - by rewrite (toInt_int_string _ 3 n), (toInt_int_string _ 4 r).
Qed.

(** ** Both ends of a reply *)

Section replies.
Import ClusterClient.

(** A version as the gateway hands it on: its bytes and its clock's token. *)
Definition seen (v : VersionedValue) : ValueVersion := (data v, VectorClock.serialize (clock v)).

Definition version_pieces (l : list VersionedValue) : list string :=
  l ≫= λ v, [base64.encode (data v); VectorClock.serialize (clock v)].

Lemma version_pieces_free l : Forall vv_ok l → Forall (λ x, str_free "|" x = true) (version_pieces l).
Proof.
  induction 1 as [|v l Hv _ IH]; [constructor|]. cbn. constructor; [by apply base64.encode_free|].
  constructor; [by apply VectorClock.serialize_bar_free|done].
Qed.

Lemma foldl_versions l k :
  l ≠ [] → foldl (λ oss v, oss +:+ "|" +:+ version_fields v) (str_join "|" l) k = str_join "|" (l ++ version_pieces k).
Proof.
  revert l. induction k as [|v k IH]; intros l Hl; cbn [foldl version_pieces mbind list_bind]; [by rewrite app_nil_r|].
  replace (str_join "|" l +:+ "|" +:+ version_fields v)
    with (str_join "|" (l ++ [base64.encode (data v); VectorClock.serialize (clock v)]))
    by (by rewrite str_join_app).
  rewrite IH by (by destruct l). by rewrite <- (assoc_L (++)).
Qed.

Lemma versions_pieces l : versions (version_pieces l) = Some (seen <$> l).
Proof.
  induction l as [|v l IH]; [done|].
  change (version_pieces (v :: l)) with (base64.encode (data v) :: VectorClock.serialize (clock v) :: version_pieces l).
  cbn [versions]. by rewrite unb64_encode, IH.
Qed.

Lemma digits_free s : str_all is_digit s = true → str_free "|" s = true.
Proof. apply str_all_impl. intros c Hc. destruct (Ascii.eqb_spec c "|"); [by subst|done]. Qed.

Lemma siblings_fields gr :
  status gr = SIBLINGS → Forall vv_ok (values gr) →
  splitAll (get_reply gr) "|" =
  "RESPONSE" :: "SIBLINGS" :: to_string (Z.of_nat (length (values gr))) :: version_pieces (values gr).
Proof.
  intros Hs Hv. unfold get_reply. rewrite Hs.
  change ("RESPONSE|SIBLINGS|" +:+ to_string (Z.of_nat (length (values gr))))
    with (str_join "|" ["RESPONSE"; "SIBLINGS"; to_string (Z.of_nat (length (values gr)))]).
  rewrite foldl_versions by done. apply (splitAll_join "|"); [|done].
  do 2 (constructor; [done|]). constructor; [apply digits_free, to_string_digits|by apply version_pieces_free].
Qed.

Lemma ok_fields v : vv_ok v →
  splitAll ("RESPONSE|OK|" +:+ version_fields v) "|" = ["RESPONSE"; "OK"; base64.encode (data v); VectorClock.serialize (clock v)].
Proof.
  intros Hv. change ("RESPONSE|OK|" +:+ version_fields v)
    with (str_join "|" (["RESPONSE"; "OK"] ++ version_pieces [v])).
  apply (splitAll_join "|"); [|done]. do 2 (constructor; [done|]).
  apply (version_pieces_free [v]). by apply list.Forall_singleton.
Qed.

Lemma ok_line x : str_free "|" x = true → splitAll ("RESPONSE|OK|" +:+ x) "|" = ["RESPONSE"; "OK"; x].
Proof. intros Hx. apply (splitAll_join "|" ["RESPONSE"; "OK"; x]); [|done]. by repeat constructor. Qed.

Lemma error_line x : str_free "|" x = true → splitAll ("RESPONSE|ERROR|" +:+ x) "|" = ["RESPONSE"; "ERROR"; x].
Proof. intros Hx. apply (splitAll_join "|" ["RESPONSE"; "ERROR"; x]); [|done]. by repeat constructor. Qed.

Lemma put_reply_ok pr c : parseWrite (put_reply pr) = WriteOk c → put_ok pr = true.
Proof.
  unfold put_reply. destruct (put_ok pr); [done|].
  assert (splitAll ("RESPONSE|ERROR|" +:+ put_error pr) "|" = "RESPONSE" :: "ERROR" :: splitAll (put_error pr) "|") as E.
  { change ("RESPONSE|ERROR|" +:+ put_error pr) with ("RESPONSE" +:+ String "|" ("ERROR" +:+ String "|" (put_error pr))).
    by rewrite !splitAll_app. }
  unfold parseWrite. rewrite E. cbn -[splitAll]. rewrite andb_false_r. by destruct (isQuorumFailure _).
Qed.

Lemma parseWrite_put_reply pr :
  VectorClock.wire_ok (put_clock pr) → str_free "|" (put_error pr) = true →
  parseWrite (put_reply pr) =
  if put_ok pr then WriteOk (VectorClock.serialize (put_clock pr))
  else if isQuorumFailure (put_error pr) then WriteQuorumFailed else WriteError (put_error pr).
Proof.
  intros Hc He. unfold parseWrite, put_reply. destruct (put_ok pr).
  - by rewrite ok_line by (by apply VectorClock.serialize_bar_free).
  - by rewrite error_line.
Qed.

Lemma parseRead_get_reply gr :
  Forall vv_ok (values gr) → str_free "|" (get_error gr) = true →
  parseRead (get_reply gr) = Some
    match status gr with
    | OK => ReadOk (seen (hd no_value (values gr)))
    | SIBLINGS => ReadSiblings (seen <$> values gr)
    | NOTFOUND => ReadNotFound
    | ERROR => if isQuorumFailure (get_error gr) then ReadQuorumFailed else ReadError (get_error gr)
    end.
Proof.
  intros Hv He. destruct (status gr) eqn:Hs; unfold parseRead.
  - unfold get_reply. rewrite Hs, ok_fields.
    + cbn -[unb64 base64.encode]. by rewrite unb64_encode.
    + destruct Hv; [apply VectorClock.wire_ok_empty|done].
  - rewrite siblings_fields by done. cbn -[versions version_pieces to_string]. by rewrite drop_0, versions_pieces.
  - unfold get_reply. by rewrite Hs.
  - unfold get_reply. by rewrite Hs, error_line.
Qed.

End replies.

(** The gateway reads what the node answered.  The outcome of a write and
    the outcome of a read, one version, several, none or an error, come out of
    the gateway's parsers as they went into the node's replies, every value byte
    for byte, and the token it hands to the client denotes the version's clock. *)
Theorem gateway_reply_understood pr gr :
  VectorClock.wire_ok (put_clock pr) → str_free "|" (put_error pr) = true →
  Forall vv_ok (values gr) → str_free "|" (get_error gr) = true →
  ClusterClient.parseWrite (put_reply pr) =
    (if put_ok pr then ClusterClient.WriteOk (VectorClock.serialize (put_clock pr))
     else if ClusterClient.isQuorumFailure (put_error pr) then ClusterClient.WriteQuorumFailed
     else ClusterClient.WriteError (put_error pr)) ∧
  ClusterClient.parseRead (get_reply gr) = Some
    match status gr with
    | OK => ClusterClient.ReadOk (seen (hd no_value (values gr)))
    | SIBLINGS => ClusterClient.ReadSiblings (seen <$> values gr)
    | NOTFOUND => ClusterClient.ReadNotFound
    | ERROR => if ClusterClient.isQuorumFailure (get_error gr) then ClusterClient.ReadQuorumFailed
               else ClusterClient.ReadError (get_error gr)
    end ∧
  (λ v, VectorClock.parse (seen v).2) <$> values gr = clock <$> values gr.
Proof.
  intros Hc He Hv Hge. split_and!; [by apply parseWrite_put_reply|by apply parseRead_get_reply|].
  apply list_fmap_ext. intros i v Hi. rewrite list.Forall_lookup in Hv. destruct (Hv i v Hi) as (Hwf & Hids & _).
  by apply VectorClock.parse_serialize.
Qed.

(** ** The ring snapshot *)

Section snapshots.
Import ClusterClient.

Abbreviation nl := (String "010" EmptyString).

(** What a node may be called and where it may be, for its row to be one line of
    three fields. *)
Record row_ok (n : NodeInfo) : Prop := {
  row_id : isValidNodeId (node_id n) = true;
  row_host_bar : str_free "|" (host n) = true;
  row_host_nl : str_free "010" (host n) = true;
  row_port : is_u16 (port n);
}.

Definition row (n : NodeInfo) : string := str_join "|" [node_id n; host n; to_string (port n)].

Lemma foldl_rows l k :
  l ≠ [] → foldl (λ oss n, oss +:+ ring_row n) (str_join nl (l ++ [EmptyString])) k =
           str_join nl ((l ++ (row <$> k)) ++ [EmptyString]).
Proof.
  revert l. induction k as [|n k IH]; intros l Hl; cbn [foldl fmap list_fmap]; [by rewrite app_nil_r|].
  replace (str_join nl (l ++ [EmptyString]) +:+ ring_row n) with (str_join nl ((l ++ [row n]) ++ [EmptyString])).
  - rewrite IH by (by destruct l). by rewrite <- (assoc_L (++) l).
  - rewrite !str_join_app by (done || by destruct l). change (str_join nl [EmptyString]) with EmptyString.
    change (str_join nl [row n]) with (row n). rewrite !str_app_assoc. unfold ring_row, row. cbn [str_join].
    by rewrite !str_app_assoc.
Qed.

Lemma drop_trailing_snoc l : Forall (λ x, x ≠ EmptyString) l → drop_trailing (l ++ [EmptyString]) = l.
Proof.
  induction 1 as [|x l Hx _ IH]; [done|]. cbn [app drop_trailing]. rewrite IH. destruct l; [|done].
  by rewrite str_empty_false.
Qed.

Lemma digits_nl_free s : str_all is_digit s = true → str_free "010" s = true.
Proof. apply str_all_impl. intros c Hc. destruct (Ascii.eqb_spec c "010"); [by subst|done]. Qed.

Lemma row_free n : row_ok n → str_free "010" (row n) = true.
Proof.
  intros [Hid _ Hh _]. apply str_join_free; [done|]. constructor; [by apply valid_id_free|].
  constructor; [done|]. constructor; [apply digits_nl_free, to_string_digits|constructor].
Qed.

Lemma row_nonempty n : row_ok n → row n ≠ EmptyString.
Proof. intros [Hid _ _ _] E. apply (valid_id_nonempty _ Hid). unfold row in E. cbn [str_join] in E. by destruct (node_id n). Qed.

Lemma trim_back_end a b :
  str_all (λ c, negb (is_white c)) b = true → b ≠ EmptyString → trim_back (a +:+ b) = a +:+ b.
Proof.
  intros Hb Hne. induction a as [|c a IH].
  - rewrite str_app_empty_l. clear Hne. induction b as [|c b IH]; [done|]. cbn in Hb |- *.
    apply andb_true_iff in Hb as [Hc Hb]. rewrite IH by done. destruct b; [|done]. by destruct (is_white c).
  - rewrite str_app_cons. cbn [trim_back]. rewrite IH. destruct (a +:+ b) eqn:E; [|done].
    destruct a; [|done]. rewrite str_app_empty_l in E. done.
Qed.

Lemma parse_row_row n : row_ok n → parse_row (row n) = Some n.
Proof.
  intros Hr. pose proof Hr as [Hid Hb _ Hp].
  destruct (to_string_ok (port n)) as (Hd & Hne & _); [unfold is_u64, is_u16, U64_MAX in *; lia|].
  assert (trim (row n) = row n) as Ht.
  { unfold trim. assert (trim_front (row n) = row n) as ->.
    - unfold row. cbn [str_join]. pose proof Hid as [_ Hall]%isValidNodeId_spec.
      destruct (node_id n) as [|c id]; [done|]. rewrite str_app_cons. cbn [trim_front].
      cbn in Hall. apply andb_true_iff in Hall as [Hc _]. assert (is_white c = false) as ->; [|done].
      by destruct c as [[] [] [] [] [] [] [] []].
    - unfold row. cbn [str_join]. rewrite <- !str_app_assoc. apply trim_back_end; [|done].
      eapply str_all_impl; [|exact Hd]. intros c Hc. by destruct c as [[] [] [] [] [] [] [] []]. }
  unfold parse_row. rewrite Ht, str_empty_false by (by apply row_nonempty).
  unfold row. rewrite splitAll_join; [|repeat constructor; try done|done].
  - rewrite parseInt_port by done. by destruct n.
  - by apply valid_id_free.
  - apply digits_free, to_string_digits.
Qed.

Lemma parse_rows l : Forall row_ok l → omap parse_row (row <$> l) = l.
Proof.
  induction 1 as [|n k Hn _ IH]; [done|]. cbn [fmap list_fmap omap list_omap].
  rewrite parse_row_row by done. f_equal. exact IH.
Qed.

Lemma parseRing_ring_reply r :
  Forall row_ok (Router.getAllPhysicalNodes r) →
  parseRing (ring_reply r) = Some (Router.getAllPhysicalNodes r).
Proof.
  unfold ring_reply. set (l := Router.getAllPhysicalNodes r). intros Hl. set (count := to_string (Z.of_nat (length l))).
  assert (count ≠ EmptyString) as Hc by apply to_string_nonempty.
  replace ("RING" +:+ String "010" (count +:+ nl)) with (str_join nl (["RING"; count] ++ [EmptyString]))
    by (cbn [app str_join]; by rewrite str_app_nil_r).
  rewrite foldl_rows by done. unfold parseRing, split_trim.
  assert (Forall (λ x, str_free "010" x = true) ((["RING"; count] ++ (row <$> l)) ++ [EmptyString])) as Hfree.
  { constructor; [done|]. constructor; [apply digits_nl_free, to_string_digits|]. cbn [app].
    apply Forall_app_2; [|by repeat constructor]. apply list.Forall_fmap. eapply list.Forall_impl; [exact Hl|]. apply row_free. }
  assert (str_free "010" (str_join nl ((["RING"; count] ++ (row <$> l)) ++ [EmptyString])) = false) as ->.
  { rewrite str_join_app by done. rewrite !str_free_app. cbn. by rewrite andb_false_r. }
  rewrite splitAll_join by done. rewrite drop_trailing_snoc.
  - change (drop 2 (["RING"; count] ++ (row <$> l))) with (row <$> l). by rewrite parse_rows.
  - constructor; [done|]. constructor; [done|]. cbn [app]. apply list.Forall_fmap.
    eapply list.Forall_impl; [exact Hl|]. apply row_nonempty.
Qed.

Lemma add_target_prefix out e : out.1 `prefix_of` (add_target out e).1.
Proof. unfold add_target. destruct (bool_decide _); [done|]. by exists [e]. Qed.

Lemma add_targets_prefix out l : out.1 `prefix_of` (foldl add_target out l).1.
Proof. revert out. induction l as [|e l IH]; intros out; [done|]. etrans; [apply add_target_prefix|apply IH]. Qed.

End snapshots.

(** C7: the gateway's ring is the cluster's.  After polling a node, the owners
    the gateway computes for any key and replica count, walking its own ring, are
    the ones the node computes, and the first endpoint the gateway tries is the
    node that will coordinate the key's writes. *)
Theorem gateway_ring_agrees r g key n :
  Router.ring_ok r → Placement.placed r → RingRouter.virtualNodes g = Router.virtual_nodes r →
  Forall row_ok (Router.getAllPhysicalNodes r) →
  ∃ nodes, ClusterClient.parseRing (ring_reply r) = Some nodes ∧
    RingRouter.ownersFor (RingRouter.rebuild nodes g) key n = Router.findOwners r key n ∧
    ∀ seeds p rest, Router.preference r key = p :: rest →
      ∃ others, ClusterClient.targetsForKey (RingRouter.rebuild nodes g) seeds key n = Some (addr p :: others).
Proof.
  intros Hok Hp Hv Hrows. eexists. split_and!; [by apply parseRing_ring_reply|by apply RingRouter.ownersFor_findOwners|].
  intros seeds p rest Hpref. unfold ClusterClient.targetsForKey.
  rewrite RingRouter.ownersFor_findOwners, Router.findOwners_preference, Hpref by done.
  destruct (Z.to_nat (Z.max n 1)) as [|k] eqn:E; [lia|]. cbn [take fmap list_fmap foldl mbind option_bind].
  set (out := foldl _ _ (_ <$> take k rest)). pose proof (add_targets_prefix out seeds) as [more ->].
  pose proof (add_targets_prefix (ClusterClient.add_target ([], []) (host p, port p))
                ((λ o, (host o, port o)) <$> take k rest)) as [more' Hout].
  change (out.1 = [addr p] ++ more') in Hout. rewrite Hout. by eexists.
Qed.

(** ** A put, from the gateway to the replicas *)

(** The token of a write is its clock. *)
Lemma token_clock res token :
  VectorClock.wire_ok (put_clock res) → put_ok res = true → ClusterClient.parseWrite (put_reply res) = ClusterClient.WriteOk token →
  VectorClock.parse token = put_clock res.
Proof.
  intros Hwire Hok Ht. assert (token = VectorClock.serialize (put_clock res)) as ->.
  { unfold put_reply, ClusterClient.parseWrite in Ht. rewrite Hok, ok_line in Ht by (by apply VectorClock.serialize_bar_free).
    by injection Ht as <-. }
  destruct Hwire as (Hwf & Hids & _). by rewrite VectorClock.parse_serialize.
Qed.

Section durable.
Context {S : Type} `{StorageLaws S} {F : Type} `{!ReplicaClient S F, !ReplicaLaws S F} {Net : Type}.
Context (send_fn : string → Z → string → Net → string * Net) (forward_fn : NodeInfo → string → Net → string * Net).
Context (clock_now wall_now steady_now : Net → Z).

Lemma put_starts key value n w r ctx (m m' : Node.Node S) net net' req run :
  ClusterClient.validateKey key = true → is_int n → is_int w → is_int r → VectorClock.wire_ok ctx →
  Node.handleRequest send_fn forward_fn clock_now wall_now steady_now
    (ClusterClient.put_payload key value (Some (VectorClock.serialize ctx)) n w r) (m, net) =
    (Node.AwaitPut req run, (m', net')) →
  coordinatePut (Node.coordinator_ m) (wall_now net) (steady_now net) key value ctx (Node.effN m n) (Node.effW m w)
    (Node.n_state (Node.counted Metrics.Put m)) = Some (Running req run).
Proof using.
  intros Hkey Hn Hw Hr Hctx. unfold Node.handleRequest. rewrite put_fields by done.
  set (f := ["PUT"; _; _; _; _; _; _; _]). change (field f 0) with "PUT". cbn [str_empty String.eqb Ascii.eqb Bool.eqb].
  unfold Node.handlePut. change (field f 1) with key.
  rewrite (toInt_int_string f 4 n), (toInt_int_string f 5 w) by done.
  change (field f 2) with (base64.encode value). change (field f 7) with (VectorClock.serialize ctx).
  destruct Hctx as (Hwf & Hids & _). rewrite base64.decode_encode, VectorClock.parse_serialize by done.
  destruct (Router.findOwners _ key 1) as [[|p os]|]; [done| |done].
  destruct (negb _); [unfold Node.forward; by destruct (forward_fn _ _ _)|].
  unfold Node.started. change (Node.coordinator_ (Node.counted Metrics.Put m)) with (Node.coordinator_ m).
  change (Node.effN (Node.counted Metrics.Put m) n) with (Node.effN m n).
  change (Node.effW (Node.counted Metrics.Put m) w) with (Node.effW m w).
  destruct (coordinatePut _ _ _ _ _ _ _ _ _) as [[res st|req' run']|]; [done| |done].
  by intros [= -> -> _ _].
Qed.

(** A put the gateway reports as stored is stored.  When a node accepts the
    gateway's PUT as coordinator and the reply parses as a success, then at least W
    processes at different addresses, with W the effective write quorum of the
    request, less one for every owner known dead beyond the first, hold a version of
    the key at least as new as the clock that the returned token denotes. *)
Theorem gateway_put_is_durable key value n w r ctx (m m' : Node.Node S) net net' req run run' res token :
  coherent (Node.coordinator_ m) → ClusterClient.validateKey key = true → is_int n → is_int w → is_int r →
  VectorClock.wire_ok ctx → is_u64 (wall_now net) → is_Some (world (Node.n_state m) !! addr (Node.n_info m)) →
  Node.handleRequest send_fn forward_fn clock_now wall_now steady_now
    (ClusterClient.put_payload key value (Some (VectorClock.serialize ctx)) n w r) (m, net) =
    (Node.AwaitPut req run, (m', net')) →
  rtc (write_next (F := F) req) run run' → result run' = Some res →
  ClusterClient.parseWrite (put_reply res) = ClusterClient.WriteOk token →
  ∃ owners A, Router.findOwners (Node.router m) key (Node.effN m n) = Some owners ∧ NoDup (addr <$> A) ∧
    (Node.effW m w ≤ Z.of_nat (length A + (dead_owners (Node.coordinator_ m) owners - 1)))%Z ∧
    ∀ x, x ∈ A → member (Node.coordinator_ m) x ∧ holds (world (w_state run')) x key (VectorClock.parse token).
Proof.
  intros Hc Hkey Hn Hw Hr Hctx Hnow Hself Hreq Hrun Hres Htok.
  apply put_starts in Hreq; [|done..]. pose proof (put_reply_ok _ _ Htok) as Hok.
  destruct (acked_on_replicas (Node.coordinator_ m) (wall_now net) (steady_now net) key value ctx (Node.effN m n)
              (Node.effW m w) (Node.n_state (Node.counted Metrics.Put m)) req run run' res)
    as (Hwire & owners & A & Ho & Hnd & HW & HA); try done; [by apply key_free|by left|].
  exists owners, A. split_and!; [done..|]. by rewrite (token_clock res token).
Qed.

End durable.

(** ** Examples *)

Module GatewayExamples.
Import NodeExamples Example3.

Definition ctx1 : VectorClock.clock := VectorClock.set_at ∅ "node2" 3 40.

Lemma gateway_request_understood_witness :
  field (splitAll (ClusterClient.put_payload "user:42" "a|b" (Some (VectorClock.serialize ctx1)) 3 2 (-1)) "|") 1 = "user:42".
Proof.
  destruct (gateway_request_understood "user:42" "a|b" 3 2 (-1) ctx1) as (Hp & _); [reflexivity|vm_decide..|].
  exact (f_equal (λ t, t.1.1.1.1.2) Hp).
Defined.

Definition two : GetResult := mkGet SIBLINGS [mkVV "x|y" ctx1 false; mkVV "" (VectorClock.set_at ∅ "node1" 1 7) false] "".

Lemma gateway_reply_understood_witness :
  ClusterClient.parseRead (get_reply two) = Some (ClusterClient.ReadSiblings (seen <$> values two)).
Proof.
  apply (gateway_reply_understood (mkPut true ctx1 "") two); [vm_decide|reflexivity|vm_decide|reflexivity].
Defined.

Lemma rows_r3 : Forall row_ok (Router.getAllPhysicalNodes Router.r3).
Proof.
  assert (Router.getAllPhysicalNodes Router.r3 = [Router.n1; Router.n2; Router.n3]) as -> by vm_refl.
  repeat constructor; vm_compute; try reflexivity; discriminate.
Qed.

Lemma gateway_ring_agrees_witness :
  ∃ nodes, ClusterClient.parseRing (ring_reply Router.r3) = Some nodes ∧
    RingRouter.ownersFor (RingRouter.rebuild nodes (RingRouter.new 4)) "user:42" 2 = Router.findOwners Router.r3 "user:42" 2.
Proof.
  destruct (gateway_ring_agrees Router.r3 (RingRouter.new 4) "user:42" 2 Router.r3_ok placed_r3 eq_refl rows_r3)
    as (nodes & Hn & Ho & _). exists nodes. split; [exact Hn|exact Ho].
Defined.

(** The put of [put1], sent by the gateway to node1. *)
Definition put_msg : string := ClusterClient.put_payload "user:42" "v" (Some (VectorClock.serialize ∅)) 3 2 2.
Definition node1 : Node.Node store := plain Router.n1 Router.r3.
Definition accepted := Node.handleRequest GossipThread.no_send to_nobody (λ u, u) (λ _, 50%Z) (λ _, 0%Z) put_msg (node1, 0%Z).
Definition accepted_req : WriteRequest :=
  match accepted.1 with Node.AwaitPut req _ => req | _ => req_of None end.
Definition accepted_run : @WriteRun store :=
  match accepted.1 with Node.AwaitPut _ run => run | _ => run_of None end.
Definition accepted_end : @WriteRun store := Eval vm_compute in
  default accepted_run (write_run accepted_req answered accepted_run).

Lemma gateway_put_is_durable_witness :
  ∃ A, NoDup (addr <$> A) ∧ 2 ≤ length A ∧
    ∀ x, x ∈ A → member (Node.coordinator_ node1) x ∧
      holds (world (w_state accepted_end)) x "user:42" (VectorClock.parse "node1:1:50").
Proof.
  destruct (gateway_put_is_durable (F := Fate) GossipThread.no_send to_nobody (λ u, u) (λ _, 50%Z) (λ _, 0%Z) "user:42" "v" 3 2 2 ∅
           node1 accepted.2.1 0%Z 0%Z accepted_req accepted_run accepted_end (put_of accepted_end) "node1:1:50")
    as (owners & A & _ & Hnd & HW & HA).
  - apply coherent_r3. vm_decide.
  - reflexivity.
  - vm_decide.
  - vm_decide.
  - vm_decide.
  - vm_decide.
  - vm_decide.
  - vm_decide.
  - vm_refl.
  - apply (write_run_reach (F := Fate) accepted_req answered); [by repeat constructor|vm_refl].
  - vm_refl.
  - vm_refl.
  - exists A. split_and!; [exact Hnd| |exact HA]. unfold dead_owners in HW. cbn in HW.
    rewrite filter_none in HW by (apply list.Forall_forall; done). cbn in HW. lia.
Defined.

End GatewayExamples.
