(* ===== verification/GatewayTransport.v ===== *)
(** * The gateway's transport (gateway/.../cluster/ClusterClient.java)

    The Java side of the wire: its copy of the framing and its pool of sockets.  A
    stream is the bytes that arrive before it ends or times out, both of which the
    code sees as an [IOException].  An exception the code does not catch as an
    [IOException] is kept apart: [Integer.parseInt] throws one on a length that is
    not an [int].

    The theorems: gateway and node accept the same frames, and each reads what the
    other writes; and every socket the gateway has open is in the pool of one
    endpoint when a call returns, at most the configured number each, whatever
    failed on the way.  The uncaught exception is the exception to both. *)
From S2P Require Import Prelude Ring Framing Wire Coordinator Gateway GatewayClient Utf8.
From Stdlib Require Import Ascii String ZArith Lia.
From stdpp Require Import base gmap sets list strings numbers.

(** ** Framing *)

Module JavaFraming.
Import framing.

Definition MAX_FRAME : Z := 16 * 1024 * 1024.

Definition sendFramed (payload : string) : string :=
  int_string (Z.of_nat (String.length payload)) +:+ String newline EmptyString +:+ payload.

Fixpoint read_header (in_ len : string) : Java (string * string) :=
  match in_ with
  | EmptyString => IOException
  | String c in_ =>
      if Ascii.eqb c newline then Returns (len, in_)
      else if negb (is_digit c) then IOException
      else
        let len := len +:+ String c EmptyString in
        if bool_decide (20 < String.length len) then IOException else read_header in_ len
  end.

(** The payload and what is left of the stream. *)
Definition recvFramed (in_ : string) : Java (string * string) :=
  match read_header in_ EmptyString with
  | IOException => IOException
  | RuntimeException => RuntimeException
  | Returns (len, in_) =>
      if str_empty len then IOException
      else
        match parseInt len with
        | None => RuntimeException
        | Some n =>
            if (n <? 0)%Z || (MAX_FRAME <? n)%Z then IOException
            else
              let body := str_take (Z.to_nat n) in_ in
              if negb (Nat.eqb (String.length body) (Z.to_nat n)) then IOException
              else Returns (Utf8.decode body, str_drop (Z.to_nat n) in_)
        end
  end.

(** A frame as both ends define it. *)
Definition is_frame (stream payload rest : string) : Prop :=
  ∃ digits, stream = digits +:+ String newline (payload +:+ rest) ∧
    str_all is_digit digits = true ∧ 1 ≤ String.length digits ≤ 20 ∧
    dec_value digits 0 = Z.of_nat (String.length payload) ∧ small payload.

Lemma read_header_ok d rest len :
  str_all is_digit d = true → String.length len + String.length d ≤ 20 →
  read_header (d +:+ String newline rest) len = Returns (len +:+ d, rest).
Proof.
  revert len. induction d as [|c d IH]; intros len Hd Hl.
  { cbn. by rewrite str_app_nil_r. }
  cbn [str_all] in Hd. apply andb_true_iff in Hd as [Hc Hd]. cbn [String.length] in Hl.
  rewrite str_app_cons. cbn [read_header]. destruct (Ascii.eqb_spec c newline) as [->|_]; [discriminate Hc|].
  rewrite Hc. cbn [negb]. rewrite bool_decide_eq_false_2 by (rewrite str_length_app; cbn; lia).
  rewrite IH by (done || rewrite str_length_app; cbn; lia). by rewrite str_app_assoc.
Qed.

Lemma read_header_sound in_ len h rest :
  read_header in_ len = Returns (h, rest) → String.length len ≤ 20 →
  ∃ d, h = len +:+ d ∧ str_all is_digit d = true ∧ in_ = d +:+ String newline rest ∧ String.length h ≤ 20.
Proof.
  revert len. induction in_ as [|c in_ IH]; intros len; cbn; [done|].
  destruct (Ascii.eqb_spec c newline) as [->|].
  { intros [= <- <-] Hl. exists EmptyString. by rewrite str_app_nil_r. }
  destruct (is_digit c) eqn:Hc; [|done]. cbn [negb]. case_bool_decide as Hlen; [done|]. intros Hr _.
  destruct (IH _ Hr) as (d & -> & Hd & -> & Hl); [lia|].
  exists (String c d). split_and!; [by rewrite str_app_assoc|cbn; by rewrite Hc|done|done].
Qed.

Lemma parseInt_digits d : str_all is_digit d = true → d ≠ EmptyString →
  parseInt d = if bool_decide (is_int (dec_value d 0)) then Some (dec_value d 0) else None.
Proof.
  intros Hd Hne. unfold parseInt. destruct d as [|c d]; [done|].
  assert (is_digit c = true) as Hc by (cbn in Hd; by apply andb_true_iff in Hd as [? _]).
  assert (match String c d with String "-" t => (true, t) | String "+" t => (false, t) | _ => (false, String c d) end
           = (false, String c d)) as ->.
  { by destruct c as [[] [] [] [] [] [] [] []]. }
  rewrite Hd. done.
Qed.

Lemma java_accepts s q rest : recvFramed s = Returns (q, rest) ↔ ∃ p, q = Utf8.decode p ∧ is_frame s p rest.
Proof.
  unfold recvFramed, is_frame. split.
  - destruct (read_header s EmptyString) as [[h in_]| |] eqn:E; [|done..].
    apply read_header_sound in E as (d & Hh & Hd & -> & Hl); [|cbn; lia]. rewrite str_app_empty_l in Hh. subst h.
    destruct (str_empty d) eqn:Ed; [done|]. assert (d ≠ EmptyString) as Hne by (by intros ->).
    rewrite parseInt_digits by done. case_bool_decide; [|done].
    pose proof (dec_value_nonneg d 0 Hd ltac:(lia)) as H0.
    destruct (Z.ltb_spec (dec_value d 0) 0); [lia|]. destruct (Z.ltb_spec MAX_FRAME (dec_value d 0)) as [|Hmax]; [done|]. cbn [orb].
    destruct (Nat.eqb_spec (String.length (str_take (Z.to_nat (dec_value d 0)) in_)) (Z.to_nat (dec_value d 0))) as [Hlen|]; [|done].
    cbn [negb]. intros [= <- <-]. eexists. split; [reflexivity|]. exists d. rewrite str_take_drop. split_and!; [done..| |done|lia|].
    + destruct d; [done|cbn; lia].
    + unfold small. rewrite Hlen, Z2Nat.id by lia. exact Hmax.
  - intros (p & -> & d & -> & Hd & Hl & Hv & Hs). rewrite read_header_ok by (done || cbn; lia). rewrite str_app_empty_l.
    assert (d ≠ EmptyString) as Hne by (intros ->; cbn in Hl; lia). rewrite str_empty_false by done.
    unfold small, kMaxFrame in Hs.
    rewrite parseInt_digits, Hv, bool_decide_eq_true_2 by (done || unfold is_int; lia).
    destruct (Z.ltb_spec (Z.of_nat (String.length p)) 0); [lia|].
    destruct (Z.ltb_spec MAX_FRAME (Z.of_nat (String.length p))); [unfold MAX_FRAME in *; lia|]. cbn [orb].
    rewrite Nat2Z.id, str_take_app, str_drop_app, Nat.eqb_refl. done.
Qed.

Lemma send_is_frame p : sendFramed p = frame p.
Proof.
  unfold sendFramed, frame, header, int_string. destruct (Z.ltb_spec (Z.of_nat (String.length p)) 0); [lia|].
  by rewrite str_app_assoc.
Qed.

Lemma frame_is_frame p rest : small p → is_frame (frame p +:+ rest) p rest.
Proof.
  intros Hp. unfold is_frame, frame, header. destruct (to_string_ok _ (small_u64 p Hp)) as (Hd & Hne & Hv & Hl).
  exists (to_string (Z.of_nat (String.length p))). rewrite !str_app_assoc, str_app_cons, str_app_empty_l.
  split_and!; try done. destruct (to_string _); [done|cbn; lia].
Qed.

(** C28: Gateway and node speak the same framing.  The gateway accepts exactly the
    streams the node accepts, with the same bytes left over and the payload decoded as
    UTF-8 (what is not UTF-8 in it becomes U+FFFD): what either receiver returns, the
    other returns once the bytes are there.  What the gateway writes for a payload of at
    most 16 MiB the node reads back as that payload; and what the node has written, in
    whatever pieces, the gateway reads back decoded, which is the payload itself if that
    is UTF-8. *)
Theorem framings_agree :
  (∀ evs s p evs' rest, framing.recvFramed evs s = Some (Some p, evs', rest) → recvFramed s = Returns (Utf8.decode p, rest)) ∧
  (∀ evs s q rest, recvFramed s = Returns (q, rest) → calm evs → String.length s ≤ moves evs →
     ∃ p evs', q = Utf8.decode p ∧ framing.recvFramed evs s = Some (Some p, evs', rest)) ∧
  (∀ evs p rest, small p → calm evs → String.length (sendFramed p) ≤ moves evs →
     ∃ evs', framing.recvFramed evs (sendFramed p +:+ rest) = Some (Some p, evs', rest)) ∧
  (∀ wevs p bytes wevs' rest, small p → framing.sendFramed wevs "" p = Some (true, bytes, wevs') →
     recvFramed (bytes +:+ rest) = Returns (Utf8.decode p, rest) ∧ (Utf8.valid p = true → Utf8.decode p = p)).
Proof.
  split_and!.
  - intros evs s p evs' rest H%recv_sound. apply java_accepts. by exists p.
  - intros evs s q rest (p & -> & d & -> & Hd & Hl & Hv & Hp)%java_accepts Hc Hm.
    rewrite !str_length_app in Hm. cbn [String.length] in Hm. rewrite str_length_app in Hm.
    destruct (recv_calm evs d p rest) as (evs' & ? & _); try done; [lia|by eexists _, _].
  - intros evs p rest Hp Hc. rewrite send_is_frame. intros Hm.
    destruct (recv_frame evs p rest Hp Hc Hm) as (evs' & ? & _). by eexists.
  - intros wevs p bytes wevs' rest Hp Hs%sendFramed_bytes. rewrite str_app_empty_l in Hs. subst bytes.
    split; [|apply Utf8.decode_valid]. apply java_accepts. exists p. split; [done|]. by apply frame_is_frame.
Qed.

(** A length of eleven to twenty digits is no [int]: the node refuses the frame,
    the gateway throws what its callers do not catch as an [IOException]. *)
Lemma long_length_is_uncaught rest : recvFramed ("99999999999" +:+ String newline rest) = RuntimeException.
Proof. reflexivity. Qed.

End JavaFraming.

(** ** The socket pool *)

Module ClientPool.
Import ClusterClient.

(** Sockets are numbered; [opened] are those not closed. *)
Record Pools := mkPools {
  pools : gmap string (list Z);
  opened : gset Z;
}.

Definition closeQuietly (s : Z) (p : Pools) : Pools := mkPools (pools p) (opened p ∖ {[ s ]}).

(** [while ((s = dq.pollFirst()) != null)]: the first open socket and the rest. *)
Fixpoint poll (dq : list Z) (op : gset Z) : option Z * list Z :=
  match dq with
  | [] => (None, [])
  | s :: dq => if bool_decide (s ∈ op) then (Some s, dq) else poll dq op
  end.

Definition pollPooled (e : Endpoint) (p : Pools) : option Z * Pools :=
  match pools p !! endpoint_key e with
  | None => (None, p)
  | Some dq => let '(s, dq) := poll dq (opened p) in (s, mkPools (<[endpoint_key e := dq]> (pools p)) (opened p))
  end.

Section client.
(** [roundTrip] on a socket, and [dial], which knows the sockets in use, in a
    world [Net]. *)
Context {Net : Type} (roundTrip : Z → string → Net → Java string * Net)
        (dial : Endpoint → gset Z → Net → Java Z * Net) (maxConnectionsPerNode : Z).

Definition checkin (e : Endpoint) (s : Z) (p : Pools) : Pools :=
  let dq := default [] (pools p !! endpoint_key e) in
  if (Z.of_nat (length dq) <? maxConnectionsPerNode)%Z
  then mkPools (<[endpoint_key e := s :: dq]> (pools p)) (opened p)
  else closeQuietly s (mkPools (<[endpoint_key e := dq]> (pools p)) (opened p)).

(** The round trip on a fresh socket. *)
Definition on_fresh (e : Endpoint) (payload : string) (p : Pools) (net : Net) : Java string * (Pools * Net) :=
  match dial e (opened p) net with
  | (IOException, net) => (IOException, (p, net))
  | (RuntimeException, net) => (RuntimeException, (p, net))
  | (Returns s, net) =>
      let p := mkPools (pools p) (opened p ∪ {[ s ]}) in
      match roundTrip s payload net with
      | (Returns reply, net) => (Returns reply, (checkin e s p, net))
      | (IOException, net) => (IOException, (closeQuietly s p, net))
      | (RuntimeException, net) => (RuntimeException, (p, net))
      end
  end.

Definition roundTripPooled (e : Endpoint) (payload : string) (pn : Pools * Net) : Java string * (Pools * Net) :=
  let '(p, net) := pn in
  match pollPooled e p with
  | (None, p) => on_fresh e payload p net
  | (Some s, p) =>
      match roundTrip s payload net with
      | (Returns reply, net) => (Returns reply, (checkin e s p, net))
      | (IOException, net) => on_fresh e payload (closeQuietly s p) net
      | (RuntimeException, net) => (RuntimeException, (p, net))
      end
  end.

(** ** Where the sockets are *)

(** The pools hold at most [maxConnectionsPerNode] sockets each, all open, none
    twice; the open sockets are those and [held]. *)
Record pools_ok (held : gset Z) (p : Pools) : Prop := {
  pk_len : ∀ k dq, pools p !! k = Some dq → (Z.of_nat (length dq) ≤ Z.max 0 maxConnectionsPerNode)%Z;
  pk_nodup : ∀ k dq, pools p !! k = Some dq → NoDup dq;
  pk_one : ∀ k k' dq dq' s, pools p !! k = Some dq → pools p !! k' = Some dq' → s ∈ dq → s ∈ dq' → k = k';
  pk_free : ∀ k dq s, pools p !! k = Some dq → s ∈ dq → s ∉ held;
  pk_open : ∀ s, s ∈ opened p ↔ (s ∈ held ∨ ∃ k dq, pools p !! k = Some dq ∧ s ∈ dq);
}.

Lemma poll_open dq op : (∀ s, s ∈ dq → s ∈ op) → poll dq op = (head dq, tail dq).
Proof. destruct dq as [|s dq]; [done|]. intros H. cbn. rewrite bool_decide_eq_true_2; [done|]. apply H. left. Qed.

(** One pool and the sockets in hand change; the other pools stay. *)
Lemma update_ok held held' p k dq' op' :
  let dq := default [] (pools p !! k) in
  pools_ok held p →
  (Z.of_nat (length dq') ≤ Z.max 0 maxConnectionsPerNode)%Z → NoDup dq' →
  (∀ s, s ∈ dq' → (s ∉ held') ∧ (s ∈ dq ∨ s ∈ held)) → (∀ s, s ∈ held' → s ∈ dq ∨ s ∈ held) →
  (∀ s, s ∈ op' ↔ (s ∈ held' ∨ s ∈ dq' ∨ (s ∈ opened p ∧ (s ∉ held) ∧ (s ∉ dq)))) →
  pools_ok held' (mkPools (<[k := dq']> (pools p)) op').
Proof.
  intros dq [Hlen Hnd Hone Hfree Hopen] Hl Hn Hdq Hheld Hop.
  assert (∀ k' l s, k' ≠ k → pools p !! k' = Some l → s ∈ l → (s ∉ dq) ∧ (s ∉ held)) as Helse.
  { intros k' l s Hk Hl' Hs. split; [|by eapply Hfree]. intros Hd. unfold dq in Hd.
    destruct (pools p !! k) as [l'|] eqn:E; [|by apply elem_of_nil in Hd]. by eapply Hk, Hone. }
  split; cbn [pools opened].
  - intros k' l [[<- <-]|[_ Hk]]%lookup_insert_Some; eauto.
  - intros k' l [[<- <-]|[_ Hk]]%lookup_insert_Some; eauto.
  - intros k1 k2 l1 l2 s [[<- <-]|[Hk1 H1]]%lookup_insert_Some [[<- <-]|[Hk2 H2]]%lookup_insert_Some Hs1 Hs2; [done| | |by eapply Hone].
    + destruct (Helse k2 l2 s) as [? ?]; [done..|]. destruct (Hdq s Hs1) as [_ [?|?]]; done.
    + destruct (Helse k1 l1 s) as [? ?]; [done..|]. destruct (Hdq s Hs2) as [_ [?|?]]; done.
  - intros k' l s [[<- <-]|[Hk Hl']]%lookup_insert_Some Hs; [by apply Hdq|]. intros Hh.
    destruct (Helse k' l s) as [? ?]; [done..|]. destruct (Hheld s Hh); done.
  - intros s. rewrite Hop, Hopen. split.
    + intros [?|[?|([?|(k' & l & Hk & Hs)] & Hnh & Hnd')]]; [by left|right; exists k, dq'; by rewrite lookup_insert_eq|done|].
      right. exists k', l. rewrite lookup_insert_ne; [done|]. intros <-. unfold dq in Hnd'. by rewrite Hk in Hnd'.
    + intros [?|(k' & l & [[<- <-]|[Hk Hl']]%lookup_insert_Some & Hs)]; [by left|by right; left|].
      right. right. destruct (Helse k' l s) as [? ?]; [done..|]. eauto 8.
Qed.

Lemma pollPooled_ok e p :
  pools_ok ∅ p →
  match pollPooled e p with
  | (None, p') => pools_ok ∅ p'
  | (Some s, p') => pools_ok {[ s ]} p'
  end.
Proof.
  intros Hok. unfold pollPooled. destruct (pools p !! endpoint_key e) as [dq|] eqn:E; [|done].
  rewrite poll_open by (intros s Hs; apply (pk_open _ _ Hok); eauto).
  pose proof (pk_len _ _ Hok _ _ E) as Hlen. pose proof (pk_nodup _ _ Hok _ _ E) as Hnd.
  pose proof (pk_open _ _ Hok) as Hopen.
  destruct dq as [|s dq]; cbn [head tail].
  - eapply update_ok; [exact Hok|cbn; lia|constructor|by intros ? ?%elem_of_nil|set_solver|].
    intros s. rewrite E. cbn. set_solver.
  - apply list.NoDup_cons in Hnd as [Hni Hnd]. cbn [length] in Hlen.
    eapply update_ok; [exact Hok|lia|done|rewrite E; cbn; set_solver|rewrite E; cbn; set_solver|].
    intros x. rewrite E. cbn. rewrite elem_of_singleton, elem_of_cons, elem_of_empty.
    destruct (decide (x = s)) as [->|]; [|destruct (decide (x ∈ dq))]; [| |naive_solver].
    + split; [by left|]. intros _. apply Hopen. right. eexists _, _. split; [done|left].
    + split; [by right; left|]. intros _. apply Hopen. right. eexists _, _. split; [done|by right].
Qed.

Lemma close_ok s p : pools_ok {[ s ]} p → pools_ok ∅ (closeQuietly s p).
Proof.
  intros [Hlen Hnd Hone Hfree Hopen]. split; cbn; [done|done|done|set_solver|]. intros x.
  rewrite elem_of_difference, Hopen. split; [set_solver|]. intros [?|(k & dq & Hk & Hx)]; [set_solver|].
  split; [eauto|]. by eapply Hfree.
Qed.

Lemma checkin_ok e s p : pools_ok {[ s ]} p → pools_ok ∅ (checkin e s p).
Proof.
  intros Hok. unfold checkin. set (dq := default [] (pools p !! endpoint_key e)).
  assert (NoDup dq ∧ (s ∉ dq) ∧ (∀ x, x ∈ dq → x ∈ opened p) ∧ (Z.of_nat (length dq) ≤ Z.max 0 maxConnectionsPerNode)%Z)
    as (Hnd & Hs & Hop & Hlen).
  { subst dq. destruct (pools p !! endpoint_key e) as [dq|] eqn:E; cbn;
      [|split_and!; [constructor|by intros ?%elem_of_nil|by intros ? ?%elem_of_nil|lia]].
    split_and!; [by eapply pk_nodup| |intros x Hx; apply (pk_open _ _ Hok); eauto|by eapply pk_len].
    intros Hs. by apply (pk_free _ _ Hok _ _ _ E Hs), elem_of_singleton. }
  pose proof (pk_open _ _ Hok s) as Hso.
  destruct (Z.ltb_spec (Z.of_nat (length dq)) maxConnectionsPerNode).
  - eapply update_ok; [exact Hok|cbn; lia|by constructor|fold dq; set_solver|set_solver|].
    fold dq. intros x. rewrite elem_of_cons, elem_of_singleton, elem_of_empty.
    destruct (decide (x = s)) as [->|]; [|destruct (decide (x ∈ dq))]; [naive_solver set_solver|naive_solver|naive_solver].
  - apply close_ok. eapply update_ok; [exact Hok|done|done|fold dq; set_solver|set_solver|].
    fold dq. intros x. destruct (decide (x = s)) as [->|]; [|destruct (decide (x ∈ dq))]; [|naive_solver|]; set_solver.
Qed.

(** A new socket is not one of the open ones. *)
Definition dials_fresh : Prop := ∀ e op net s net', dial e op net = (Returns s, net') → s ∉ op.

Context (Hfresh : dials_fresh).

Lemma on_fresh_ok e payload p net :
  pools_ok ∅ p →
  match on_fresh e payload p net with
  | (RuntimeException, _) => True
  | (_, (p', _)) => pools_ok ∅ p'
  end.
Proof.
  intros Hok. unfold on_fresh. destruct (dial e (opened p) net) as [[s| |] net'] eqn:E; [|done..].
  apply Hfresh in E. assert (pools_ok {[ s ]} (mkPools (pools p) (opened p ∪ {[ s ]}))) as Hs.
  { destruct Hok as [Hlen Hnd Hone Hfree Hopen]. split; cbn; [done|done|done| |].
    - intros k dq x Hk Hx ->%elem_of_singleton. apply E, Hopen. eauto.
    - intros x. rewrite elem_of_union, Hopen. set_solver. }
  destruct (roundTrip s payload net') as [[reply| |] net'']; [by apply checkin_ok|by apply close_ok|done].
Qed.

Lemma roundTripPooled_ok e payload p net :
  pools_ok ∅ p →
  match roundTripPooled e payload (p, net) with
  | (RuntimeException, _) => True
  | (_, (p', _)) => pools_ok ∅ p'
  end.
Proof.
  intros Hok. unfold roundTripPooled. pose proof (pollPooled_ok e p Hok) as Hp.
  destruct (pollPooled e p) as [[s|] p']; [|by apply on_fresh_ok].
  destruct (roundTrip s payload net) as [[reply| |] net']; [by apply checkin_ok| |done].
  apply on_fresh_ok. by apply close_ok.
Qed.

(** C29: The gateway keeps account of its sockets.  After an exchange over any
    list of endpoints, answered or not, with stale sockets, refused connections and
    broken round trips on the way, every open socket is in the pool of exactly one
    endpoint, no pool holds more than configured, and no pooled socket is closed,
    provided no reply made the parser of the length throw. *)
Theorem gateway_sockets_accounted targets payload p net r p' net' :
  pools_ok ∅ p → exchange roundTripPooled targets payload (p, net) = (r, (p', net')) → r ≠ RuntimeException →
  (∀ k dq, pools p' !! k = Some dq → (Z.of_nat (length dq) ≤ Z.max 0 maxConnectionsPerNode)%Z ∧ NoDup dq) ∧
  (∀ k k' dq dq' s, pools p' !! k = Some dq → pools p' !! k' = Some dq' → s ∈ dq → s ∈ dq' → k = k') ∧
  (∀ s, s ∈ opened p' ↔ ∃ k dq, pools p' !! k = Some dq ∧ s ∈ dq).
Proof using Hfresh.
  intros Hok He Hr. assert (pools_ok ∅ p') as [Hlen Hnd Hone _ Hopen].
  { revert p net Hok He. induction targets as [|e targets IH]; intros p net Hok He; cbn [exchange] in He; [by injection He as <- <- <-|].
    pose proof (roundTripPooled_ok e payload p net Hok) as Hp.
    destruct (roundTripPooled e payload (p, net)) as [[reply| |] [p1 net1]]; [by injection He as <- <- <-|by eapply IH|].
    injection He as <- <- <-. done. }
  split_and!; [by eauto|done|]. intros s. rewrite Hopen. set_solver.
Qed.

End client.

(** ** A run *)

(** A world in which socket 1 has gone stale and others answer. *)
Definition trip1 (s : Z) (_ : string) (u : unit) : Java string * unit :=
  if (s =? 1)%Z then (IOException, u) else (Returns "RESPONSE|NOTFOUND", u).
Definition dial1 (_ : Endpoint) (op : gset Z) (u : unit) : Java Z * unit := (Returns (fresh op), u).
Definition one_stale : Pools := mkPools {[ endpoint_key ("h1", 5001%Z) := [1%Z] ]} {[ 1%Z ]}.

Lemma one_stale_ok : pools_ok 4 ∅ one_stale.
Proof.
  split; cbn.
  - intros k dq [<- <-]%lookup_singleton_Some. cbn. lia.
  - intros k dq [<- <-]%lookup_singleton_Some. apply NoDup_singleton.
  - intros k k' dq dq' s [<- <-]%lookup_singleton_Some [<- <-]%lookup_singleton_Some. done.
  - set_solver.
  - intros s. split; [intros ->%elem_of_singleton|].
    + right. eexists _, _. split; [apply lookup_singleton_eq|by left].
    + intros [?|(k & dq & [<- <-]%lookup_singleton_Some & Hs)]; [set_solver|]. set_solver.
Qed.

Lemma gateway_sockets_accounted_witness :
  let '(r, (p', _)) := exchange (roundTripPooled trip1 dial1 4) [("h1", 5001%Z)] "GET|k|gateway|3|2" (one_stale, tt) in
  r = Returns (Some "RESPONSE|NOTFOUND") ∧ ∀ s, s ∈ opened p' ↔ ∃ k dq, pools p' !! k = Some dq ∧ s ∈ dq.
Proof.
  pose proof (gateway_sockets_accounted trip1 dial1 4) as Ht.
  assert ((exchange (roundTripPooled trip1 dial1 4) [("h1", 5001%Z)] "GET|k|gateway|3|2" (one_stale, tt)).1 =
          Returns (Some "RESPONSE|NOTFOUND")) as Hr by (vm_compute; reflexivity).
  destruct (exchange _ _ _ _) as [r [p' u]] eqn:E. cbn in Hr.
  split; [exact Hr|].
  apply (Ht (λ e op net s net' Hd, ltac:(injection Hd as <-; apply is_fresh)) _ _ _ _ _ _ _ one_stale_ok E).
  rewrite Hr. discriminate.
Defined.

(** The same exchange with a reply whose length is no [int]: the socket is neither
    pooled nor closed. *)
Definition trip_long (_ : Z) (_ : string) (u : unit) : Java string * unit :=
  match JavaFraming.recvFramed ("99999999999" +:+ String framing.newline EmptyString) with
  | Returns (p, _) => (Returns p, u) | IOException => (IOException, u) | RuntimeException => (RuntimeException, u)
  end.

Lemma uncaught_reply_leaks_a_socket :
  let '(r, (p', _)) := exchange (roundTripPooled trip_long dial1 4) [("h1", 5001%Z); ("h2", 5002%Z)] "GET|k|gateway|3|2" (mkPools ∅ ∅, tt) in
  r = RuntimeException ∧ opened p' ≠ ∅ ∧ pools p' = ∅.
Proof.
  vm_compute. split_and!; [reflexivity| |reflexivity]. intros H. discriminate H.
Qed.

End ClientPool.
