(* ===== verification/GatewayService.v ===== *)
(** * The gateway's services (gateway/.../service, controller, exception, security,
      cluster/RingPoller.java)

    From an HTTP request to the cluster and back: the authentication filter and the
    route rules, the controllers with their key check, the key-value use cases with
    their quorum defaults and the audit log, the mapping of exceptions to statuses,
    and the poller that keeps the client-side ring and the node registry current.

    Spring, the JWT library and Postgres are not part of the sources.  A request is
    given as the handler it is routed to, with its method and path; what Spring, its
    actuator and the API docs serve themselves is a class; the token library is a class
    with the two facts its documentation states; the repositories are a map, a log and
    the rows of the configuration table, and a class says which rows the database takes.
    Java strings are their UTF-8 bytes, and bytes become strings through [Utf8.decode].

    The theorems: outside the public routes, without a token the library accepts nothing
    happens and the answer is 401; the status and body of a read and of a write are those the node's
    outcome calls for; a delete is audited exactly when it is answered with success,
    and lost to the log when the database refuses its record; and after a
    poll the gateway places keys as the polled node does, and keeps its ring when a
    poll fails. *)
From S2P Require Import Prelude Util Base64 Clock Value Storage Ring Placement Wire Coordinator Node Utf8 Gateway GatewayClient.
From Stdlib Require Import Ascii String ZArith Lia.
From stdpp Require Import base gmap list strings numbers.
Import VersionedValue ClusterClient.

(** ** Exceptions and responses *)

Inductive Exn :=
| KeyNotFoundException (key : string)
| SiblingsConflictException (siblings : list ValueVersion)
| QuorumNotMetException
| ClusterUnavailableException
| ClusterProtocolException (reason : string)
| BadCredentialsException
| MethodArgumentNotValidException (detail : string)
| IllegalArgumentException (message : string)
| OtherException.

(** A row of the node registry, filed under its id. *)
Record NodeEntity := mkEntity { e_host : string; e_port : Z; e_added_at : Z; e_last_seen : Z }.

Inductive Body :=
| WriteResponse (clock : string)
| KvValueResponse (v : ValueVersion)
| SiblingsResponse (vs : list ValueVersion)
| TokenResponse (token : string) (expiresInSeconds : Z)
| NodesResponse (nodes : list (string * NodeEntity))
| RingResponse (nodes : list RingNode)
| ApiError (error message : string)
| SentError (message : string)      (* left to the servlet container *)
| Page (content : string).          (* of Spring, its actuator or the API docs *)

(** [GlobalExceptionHandler]; what it does not list ends in the container's 500. *)
Definition handle_exception (e : Exn) : Z * Body :=
  match e with
  | KeyNotFoundException key => (404%Z, ApiError "not_found" ("key not found: " +:+ key))
  | SiblingsConflictException vs => (409%Z, SiblingsResponse vs)
  | QuorumNotMetException => (503%Z, ApiError "quorum_not_met" "cluster could not meet the requested quorum")
  | ClusterUnavailableException => (503%Z, ApiError "cluster_unavailable" "no cluster node could be reached")
  | ClusterProtocolException reason => (502%Z, ApiError "cluster_error" ("cluster error: " +:+ reason))
  | BadCredentialsException => (401%Z, ApiError "invalid_credentials" "invalid username or password")
  | MethodArgumentNotValidException detail => (400%Z, ApiError "bad_request" detail)
  | IllegalArgumentException message => (400%Z, ApiError "bad_request" message)
  | OtherException => (500%Z, SentError "")
  end.

Definition respond {A} (body : A → Body) (r : Exn + A) : Z * Body :=
  match r with inl e => handle_exception e | inr a => (200%Z, body a) end.

(** ** State *)

Record AuditLogEntity := mkAudit {
  a_actor : string; a_action : string; a_key : string; a_before : option string; a_at : Z;
}.

Record Gw (Net : Type) := mkGw {
  gw_net : Net;
  gw_ring : RingRouter.RingRouter;
  gw_nodes : gmap string NodeEntity;
  gw_audit : list AuditLogEntity;
}.
#[global] Arguments mkGw {Net} _ _ _ _.
#[global] Arguments gw_net {Net} _.
#[global] Arguments gw_ring {Net} _.
#[global] Arguments gw_nodes {Net} _.
#[global] Arguments gw_audit {Net} _.

(** The database: whether a table takes a row.  A column has a length, and a text
    no zero byte; what is refused is an exception of the repository's [save]. *)
Class Repositories := {
  saves_audit : AuditLogEntity → bool;
  saves_node : RingNode → bool;
}.

(** What Spring serves at a method and path that no controller here handles: the
    actuator's endpoints, the API docs, 404. *)
Class Framework := framework_page : string → string → Z * string.

(** ** Requests *)

(** A request as Spring routes it, the absent parts being [None]. *)
Inductive Request :=
| KvPut (key : string) (value clock : option string) (n w r : option Z)
| KvGet (key : string) (n r : option Z)
| KvDelete (key : string) (clock : option string) (n w : option Z)
| Token (username password : option string)
| ClusterNodes
| ClusterRing
| Elsewhere (method path : string).

(** The method and path of a request. *)
Definition route (req : Request) : string * string :=
  match req with
  | KvPut key _ _ _ _ _ => ("PUT", "/v1/kv/" +:+ key)
  | KvGet key _ _ => ("GET", "/v1/kv/" +:+ key)
  | KvDelete key _ _ _ => ("DELETE", "/v1/kv/" +:+ key)
  | Token _ _ => ("POST", "/v1/auth/token")
  | ClusterNodes => ("GET", "/v1/cluster/nodes")
  | ClusterRing => ("GET", "/v1/cluster/ring")
  | Elsewhere method path => (method, path)
  end.

(** [validateKey], with the exception it throws. *)
Definition checkKey (key : string) : option Exn :=
  if str_empty key then Some (IllegalArgumentException "key must not be empty")
  else if negb (str_free "|" key) then Some (IllegalArgumentException "key must not contain '|'")
  else None.

(** ** Tokens *)

Record Claims := mkClaims { c_subject : string; c_roles : list string; c_issued_at : Z; c_expiration : Z }.

(** The token library: signing the claims with a key, and verifying the signature
    and the expiry of a token at a time. *)
Class Jwts := {
  jwts_sign : string → Claims → string;
  jwts_verify : string → Z → string → option Claims;
}.

(** Documented: a token verifies under its own key until it expires, and not
    afterwards. *)
Class JwtsLaws `{Jwts} := {
  verify_signed key claims t : (t < c_expiration claims)%Z → jwts_verify key t (jwts_sign key claims) = Some claims;
  verify_expired key claims t : (c_expiration claims < t)%Z → jwts_verify key t (jwts_sign key claims) = None;
}.

(** [JwtService]; a key of less than 256 bits is refused at start-up. *)
Record JwtService := mkJwtService { jwt_key : string; jwt_expirySeconds : Z }.

Definition newJwtService (secret : string) (expiryMinutes : Z) : option JwtService :=
  if bool_decide (String.length secret < 32) then None else Some (mkJwtService secret (expiryMinutes * 60)%Z).

Definition jwt_issue `{Jwts} (jwt : JwtService) (t : Z) (username : string) (roles : list string) : string :=
  jwts_sign (jwt_key jwt) (mkClaims username roles t (t + jwt_expirySeconds jwt)%Z).

Definition jwt_parse `{Jwts} (jwt : JwtService) (t : Z) (token : string) : option Claims :=
  jwts_verify (jwt_key jwt) t token.

(** ** Configuration *)

(** A row of [config_versions]; the one with the highest version is in effect. *)
Record ConfigVersionEntity := mkVersion { cv_version : Z; cv_n : Z; cv_w : Z; cv_r : Z }.

Definition newer (c : option ConfigVersionEntity) (d : ConfigVersionEntity) : option ConfigVersionEntity :=
  match c with Some c => if (cv_version c <? cv_version d)%Z then Some d else Some c | None => Some d end.

Definition findFirstByOrderByVersionDesc (rows : list ConfigVersionEntity) : option ConfigVersionEntity :=
  foldl newer None rows.

(** [String.lastIndexOf(c)]. *)
Fixpoint lastIndexOf (c : ascii) (s : string) : option nat :=
  match s with
  | EmptyString => None
  | String x s =>
      match lastIndexOf c s with
      | Some i => Some (S i)
      | None => if Ascii.eqb x c then Some 0 else None
      end
  end.

(** [ClusterClient.seedEndpoints], one entry: without a colon [substring] throws, and
    [parseInt] a [NumberFormatException], which is an [IllegalArgumentException]. *)
Definition seedEndpoint (ep : string) : Exn + Endpoint :=
  match lastIndexOf ":" ep with
  | None => inl OtherException
  | Some c =>
      match parseInt (str_drop (S c) ep) with
      | Some p => inr (str_take c ep, p)
      | None => inl (IllegalArgumentException "For input string")
      end
  end.

Fixpoint seedEndpoints (nodes : list string) : Exn + list Endpoint :=
  match nodes with
  | [] => inr []
  | ep :: nodes =>
      match seedEndpoint ep with
      | inl e => inl e
      | inr e => match seedEndpoints nodes with inl x => inl x | inr l => inr (e :: l) end
      end
  end.

Lemma seedEndpoint_throws ep e :
  seedEndpoint ep = inl e → e = OtherException ∨ e = IllegalArgumentException "For input string".
Proof. unfold seedEndpoint. destruct (lastIndexOf _ _); [|intros [= <-]; by left]. destruct (parseInt _); [done|]. intros [= <-]. by right. Qed.

Lemma seedEndpoints_throws l e :
  seedEndpoints l = inl e → e = OtherException ∨ e = IllegalArgumentException "For input string".
Proof.
  induction l as [|ep l IH]; [done|]. cbn. destruct (seedEndpoint ep) as [x|] eqn:E; [|by destruct (seedEndpoints l); simplify_eq; auto].
  intros [= <-]. by apply seedEndpoint_throws in E.
Qed.

Lemma lastIndexOf_app c a b : str_free c b = true → lastIndexOf c (a +:+ String c b) = Some (String.length a).
Proof.
  intros Hb. assert (lastIndexOf c b = None) as Hn.
  { induction b as [|x b IH]; [done|]. apply str_free_cons in Hb as [Hx Hb]. cbn. rewrite IH by done.
    by destruct (Ascii.eqb_spec x c). }
  induction a as [|x a IH]; [|by rewrite str_app_cons; cbn; rewrite IH]. rewrite str_app_empty_l. cbn. by rewrite Hn, Ascii.eqb_refl.
Qed.

(** An endpoint is read back from its name, whatever its host contains. *)
Lemma seedEndpoint_key e : is_u16 e.2 → seedEndpoint (endpoint_key e) = inr e.
Proof.
  destruct e as [h p]. cbn. intros Hp. unfold seedEndpoint, endpoint_key. cbn [fst snd].
  assert (int_string p = to_string p) as ->.
  { unfold int_string. destruct (Z.ltb_spec p 0); [unfold is_u16 in Hp; lia|done]. }
  change (":" +:+ to_string p) with (String ":" (to_string p)).
  rewrite lastIndexOf_app by (apply to_string_free; [unfold is_u16, is_u64, U64_MAX in *; lia|done]).
  by rewrite <- Nat.add_1_r, str_drop_app_S, str_take_app, parseInt_port.
Qed.

(** The seed list that names some endpoints is read back as those, in their order. *)
Theorem seeds_read_back (l : list Endpoint) :
  Forall (λ e, is_u16 e.2) l → seedEndpoints (endpoint_key <$> l) = inr l.
Proof. induction 1 as [|e l He _ IH]; [done|]. cbn. by rewrite seedEndpoint_key, IH. Qed.

(** The configuration in effect is the one added last: a row whose version is above
    the others' is found wherever the database returns it. *)
Theorem newest_configuration_wins rows c :
  c ∈ rows → (∀ d, d ∈ rows → d = c ∨ (cv_version d < cv_version c)%Z) → findFirstByOrderByVersionDesc rows = Some c.
Proof.
  intros Hin Hmax. unfold findFirstByOrderByVersionDesc.
  assert (∀ acc, (acc = Some c ∨ c ∈ rows ∧ ∀ d, acc = Some d → (cv_version d < cv_version c)%Z) → foldl newer acc rows = Some c) as Hf;
    [|apply Hf; right; by split].
  clear Hin. induction rows as [|d rows IH]; intros acc Hacc; [destruct Hacc as [->|[Hin _]]; [done|by apply elem_of_nil in Hin]|].
  cbn. apply IH; [intros x Hx; apply Hmax; by right|]. destruct (Hmax d ltac:(by left)) as [->|Hd].
  - left. destruct Hacc as [->|[_ Hlt]]; cbn; [by rewrite Z.ltb_irrefl|]. destruct acc as [a|]; [|done].
    cbn. by rewrite (proj2 (Z.ltb_lt _ _) (Hlt a eq_refl)).
  - destruct Hacc as [->|[Hin Hlt]]; [left; cbn; destruct (Z.ltb_spec (cv_version c) (cv_version d)); [lia|done]|right].
    apply elem_of_cons in Hin as [->|Hin]; [lia|]. split; [done|]. intros x Hx.
    destruct acc as [a|]; cbn in Hx; [destruct (_ <? _)%Z|]; simplify_eq; auto.
Qed.

Section service.
Context `{Repositories} `{Framework}.
(** The transport, the seed list of the configuration, the configuration table and
    the clock. *)
Context {Net : Type} (roundTrip : Endpoint → string → Net → Java string * Net) (cluster_nodes : list string).
Context (config : list ConfigVersionEntity) (now : Net → Z).

Definition with_net (net : Net) (g : Gw Net) : Gw Net := mkGw net (gw_ring g) (gw_nodes g) (gw_audit g).

(** ** Cluster calls *)

(** A [NumberFormatException] is an [IllegalArgumentException]. *)
Definition exchange_targets (targets : list Endpoint) (payload : string) (g : Gw Net) : (Exn + string) * Gw Net :=
  match exchange roundTrip targets payload (gw_net g) with
  | (Returns (Some reply), net) => (inr reply, with_net net g)
  | (Returns None, net) => (inl ClusterUnavailableException, with_net net g)
  | (IOException, net) => (inl OtherException, with_net net g)
  | (RuntimeException, net) => (inl (IllegalArgumentException "For input string"), with_net net g)
  end.

Definition exchangeForKey (key payload : string) (n : Z) (g : Gw Net) : (Exn + string) * Gw Net :=
  match RingRouter.ownersFor (gw_ring g) key n, seedEndpoints cluster_nodes with
  | None, _ => (inl OtherException, g)
  | Some _, inl e => (inl e, g)
  | Some _, inr seeds =>
      match targetsForKey (gw_ring g) seeds key n with
      | None => (inl OtherException, g)
      | Some targets => exchange_targets targets payload g
      end
  end.

Definition exchangeAny (payload : string) (g : Gw Net) : (Exn + string) * Gw Net :=
  match seedEndpoints cluster_nodes with inl e => (inl e, g) | inr seeds => exchange_targets seeds payload g end.

Definition cluster_put (key value : string) (clock : option string) (n w r : Z) (g : Gw Net) : (Exn + WriteResult) * Gw Net :=
  match exchangeForKey key (put_payload key value clock n w r) n g with
  | (inl e, g) => (inl e, g)
  | (inr resp, g) => (inr (parseWrite resp), g)
  end.

Definition cluster_delete (key : string) (clock : option string) (n w : Z) (g : Gw Net) : (Exn + WriteResult) * Gw Net :=
  match exchangeForKey key (delete_payload key clock n w) n g with
  | (inl e, g) => (inl e, g)
  | (inr resp, g) => (inr (parseWrite resp), g)
  end.

(** What [parseRead] throws on a reply it cannot read: the decoder's exception, or
    a missing field's. *)
Definition read_failure (resp : string) : Exn :=
  let p := splitAll resp "|" in
  if String.eqb (field p 1) "OK" then
    match p !! 2 with
    | None => OtherException
    | Some b => match unb64 b with None => IllegalArgumentException "Illegal base64" | Some _ => OtherException end
    end
  else IllegalArgumentException "Illegal base64".

Definition cluster_get (key : string) (n r : Z) (g : Gw Net) : (Exn + ReadResult) * Gw Net :=
  match exchangeForKey key (get_payload key n r) n g with
  | (inl e, g) => (inl e, g)
  | (inr resp, g) => (match parseRead resp with Some x => inr x | None => inl (read_failure resp) end, g)
  end.

Definition cluster_ring (g : Gw Net) : (Exn + list RingNode) * Gw Net :=
  match exchangeAny ("RING|" +:+ ORIGIN) g with
  | (inl e, g) => (inl e, g)
  | (inr resp, g) => (match parseRing resp with Some l => inr l | None => inl ClusterUnavailableException end, g)
  end.

(** ** KvService *)

Definition defaults : Z * Z * Z :=
  default (3, 2, 2)%Z ((λ c, (cv_n c, cv_w c, cv_r c)) <$> findFirstByOrderByVersionDesc config).

Definition orDefault (requested : option Z) (fallback : Z) : Z :=
  match requested with Some n => if (0 <? n)%Z then n else fallback | None => fallback end.

Definition write_outcome (r : Exn + WriteResult) : Exn + string :=
  match r with
  | inl e => inl e
  | inr (WriteOk clock) => inr clock
  | inr WriteQuorumFailed => inl QuorumNotMetException
  | inr (WriteError reason) => inl (ClusterProtocolException reason)
  end.

Definition kv_put (key value : string) (clock : option string) (n w r : option Z) (g : Gw Net) : (Exn + string) * Gw Net :=
  let '(dn, dw, dr) := defaults in
  let '(res, g) := cluster_put key value clock (orDefault n dn) (orDefault w dw) (orDefault r dr) g in
  (write_outcome res, g).

Definition toDto (v : ValueVersion) : ValueVersion := (Utf8.decode v.1, v.2).

Definition read_outcome (key : string) (r : Exn + ReadResult) : Exn + ValueVersion :=
  match r with
  | inl e => inl e
  | inr (ReadOk v) => inr (toDto v)
  | inr (ReadSiblings vs) => inl (SiblingsConflictException (toDto <$> vs))
  | inr ReadNotFound => inl (KeyNotFoundException key)
  | inr ReadQuorumFailed => inl QuorumNotMetException
  | inr (ReadError reason) => inl (ClusterProtocolException reason)
  end.

Definition kv_get (key : string) (n r : option Z) (g : Gw Net) : (Exn + ValueVersion) * Gw Net :=
  let '(dn, _, dr) := defaults in
  let '(res, g) := cluster_get key (orDefault n dn) (orDefault r dr) g in
  (read_outcome key res, g).

Definition captureBefore (key : string) (n r : Z) (g : Gw Net) : option string * Gw Net :=
  let '(res, g) := cluster_get key n r g in
  (match res with inr (ReadOk v) => Some (Utf8.decode v.1) | _ => None end, g).

Definition audit (actor key : string) (before : option string) (g : Gw Net) : option (Gw Net) :=
  let row := mkAudit actor "DELETE" key before (now (gw_net g)) in
  if saves_audit row then Some (mkGw (gw_net g) (gw_ring g) (gw_nodes g) (gw_audit g ++ [row])) else None.

Definition kv_delete (key : string) (clock : option string) (n w : option Z) (actor : string) (g : Gw Net) : (Exn + string) * Gw Net :=
  let '(dn, dw, dr) := defaults in
  let en := orDefault n dn in
  let ew := orDefault w dw in
  let '(before, g) := captureBefore key en dr g in
  let '(res, g) := cluster_delete key clock en ew g in
  match write_outcome res with
  | inr clock => match audit actor key before g with Some g => (inr clock, g) | None => (inl OtherException, g) end
  | inl e => (inl e, g)
  end.

(** ** Registry and poller *)

Definition persist_one (at_ : Z) (nodes : gmap string NodeEntity) (rn : RingNode) : gmap string NodeEntity :=
  match nodes !! node_id rn with
  | None => <[node_id rn := mkEntity (host rn) (port rn) at_ at_]> nodes
  | Some e => <[node_id rn := mkEntity (host rn) (port rn) (e_added_at e) at_]> nodes
  end.

(** One transaction: an exception undoes it. *)
Definition persist (ring : list RingNode) (g : Gw Net) : option (Gw Net) :=
  if forallb saves_node ring
  then Some (mkGw (gw_net g) (gw_ring g) (foldl (persist_one (now (gw_net g))) (gw_nodes g) ring) (gw_audit g)) else None.

(** [RingPoller.poll]. *)
Definition poll (g : Gw Net) : Gw Net :=
  match cluster_ring g with
  | (inl _, g) => g
  | (inr ring, g) =>
      match ring with
      | [] => g
      | _ =>
          let g := mkGw (gw_net g) (RingRouter.rebuild ring (gw_ring g)) (gw_nodes g) (gw_audit g) in
          default g (persist ring g)
      end
  end.

(** [NodeRegistryService.syncOnStartup]. *)
Definition syncOnStartup (g : Gw Net) : Gw Net :=
  match cluster_ring g with (inl _, g) => g | (inr ring, g) => default g (persist ring g) end.

(** ** Security *)

Context `{JwtsLaws} (jwt : JwtService) (auth_username auth_password : string).

Definition PREFIX : string := "Bearer ".

(** [JwtAuthFilter]: the caller and its authorities, if the header has a token
    that parses. *)
Definition doFilterInternal (authorization : option string) (t : Z) : option (string * list string) :=
  match authorization with
  | None => None
  | Some header =>
      if String.prefix PREFIX header then
        match jwt_parse jwt t (str_drop (String.length PREFIX) header) with
        | Some claims => Some (c_subject claims, (λ r, "ROLE_" +:+ r) <$> c_roles claims)
        | None => None
        end
      else None
  end.

(** A path pattern that ends in [/**]: the path itself and everything below it. *)
Definition below (base path : string) : bool := String.eqb path base || String.prefix (base +:+ "/") path.

(** The matchers of [SecurityConfig.filterChain] with [permitAll]. *)
Definition permitAll (method path : string) : bool :=
  (String.eqb method "POST" && String.eqb path "/v1/auth/token")
  || (below "/actuator/health" path || String.eqb path "/actuator/info" || String.eqb path "/actuator/prometheus")
  || (below "/swagger-ui" path || String.eqb path "/swagger-ui.html" || below "/v3/api-docs" path).

(** [SecurityConfig]: the public routes are open, the rest needs a caller. *)
Definition permitted (req : Request) (principal : option (string * list string)) : bool :=
  let '(method, path) := route req in
  permitAll method path || match principal with Some _ => true | None => false end.

(** [AuthService.authenticate]. *)
Definition authenticate (username password : string) (t : Z) : Exn + (string * Z) :=
  if String.eqb auth_username username && String.eqb auth_password password
  then inr (jwt_issue jwt t username ["ADMIN"], jwt_expirySeconds jwt)
  else inl BadCredentialsException.

(** [@NotBlank] on both fields of a token request; of two field errors the
    validator's choice is answered. *)
Context (first_error : string → string → string).
Definition blank (s : option string) : bool :=
  match s with Some s => str_empty (trim s) | None => true end.
Definition token_error (username password : option string) : option Exn :=
  let u := "username: username is required" in
  let p := "password: password is required" in
  match blank username, blank password with
  | true, true => Some (MethodArgumentNotValidException (first_error u p))
  | true, false => Some (MethodArgumentNotValidException u)
  | false, true => Some (MethodArgumentNotValidException p)
  | false, false => None
  end.

Definition controller (req : Request) (principal : option (string * list string)) (g : Gw Net) : (Z * Body) * Gw Net :=
  match req with
  | KvPut key value clock n w r =>
      match value with
      | None => (handle_exception (MethodArgumentNotValidException "value: value is required"), g)
      | Some value =>
          match checkKey key with
          | Some e => (handle_exception e, g)
          | None => let '(res, g) := kv_put key value clock n w r g in (respond WriteResponse res, g)
          end
      end
  | KvGet key n r =>
      match checkKey key with
      | Some e => (handle_exception e, g)
      | None => let '(res, g) := kv_get key n r g in (respond KvValueResponse res, g)
      end
  | KvDelete key clock n w =>
      match checkKey key with
      | Some e => (handle_exception e, g)
      | None =>
          let actor := match principal with Some (user, _) => user | None => "anonymous" end in
          let '(res, g) := kv_delete key clock n w actor g in (respond WriteResponse res, g)
      end
  | Token username password =>
      match token_error username password with
      | Some e => (handle_exception e, g)
      | None =>
          (respond (λ p, TokenResponse p.1 p.2)
             (authenticate (default "" username) (default "" password) (now (gw_net g))), g)
      end
  | ClusterNodes => ((200%Z, NodesResponse (entries (gw_nodes g))), g)
  | ClusterRing => let '(res, g) := cluster_ring g in (respond RingResponse res, g)
  | Elsewhere method path => let '(code, content) := framework_page method path in ((code, Page content), g)
  end.

(** A request from the edge to the response. *)
Definition handle (authorization : option string) (req : Request) (g : Gw Net) : (Z * Body) * Gw Net :=
  let principal := doFilterInternal authorization (now (gw_net g)) in
  if permitted req principal then controller req principal g
  else ((401%Z, SentError "unauthorized"), g).

(** ** Theorems *)

Lemma checkKey_valid key : checkKey key = None ↔ validateKey key = true.
Proof. unfold checkKey, validateKey. destruct (str_empty key), (str_free "|" key); done. Qed.

(** Of the gateway's own handlers, only the token endpoint is public. *)
Lemma public_routes req :
  (permitAll (route req).1 (route req).2 = true) →
  (∃ user pass, req = Token user pass) ∨ ∃ method path, req = Elsewhere method path.
Proof. destruct req; [done..|by left; eexists _, _|done|done|by right; eexists _, _]. Qed.

Lemma bearer_filter token t :
  doFilterInternal (Some (PREFIX +:+ token)) t =
    (λ c, (c_subject c, (λ r, "ROLE_" +:+ r) <$> c_roles c)) <$> jwt_parse jwt t token.
Proof.
  unfold doFilterInternal. rewrite str_drop_app. destruct token; cbn; by destruct (jwt_parse _ _ _).
Qed.

Lemma prefix_app p s : String.prefix p s = true → ∃ t, s = p +:+ t.
Proof.
  revert s. induction p as [|c p IH]; intros s; [by exists s|]. destruct s as [|d s]; [done|]. cbn.
  destruct (ascii_dec c d) as [->|]; [|done]. intros [t ->]%IH. by exists t.
Qed.

(** A caller is known only by a token the library verifies. *)
Lemma unknown_caller authorization t :
  (∀ token, authorization = Some (PREFIX +:+ token) → jwt_parse jwt t token = None) →
  doFilterInternal authorization t = None.
Proof.
  intros Hno. destruct authorization as [header|]; [|done]. destruct (String.prefix PREFIX header) eqn:E.
  - apply prefix_app in E as [token ->]. by rewrite bearer_filter, (Hno token eq_refl).
  - unfold doFilterInternal. by rewrite E.
Qed.

(** C23: Nothing but the public routes is served without a valid token.  The public
    routes are the token endpoint and, of what no handler of the gateway serves, health,
    info, metrics and the API docs.  Any other request whose Authorization header is
    missing, is not a bearer token, or carries a token that does not verify under the
    gateway's key now, is answered 401 with the cluster, the ring, the registry and the
    audit log untouched.  A token is issued for the configured credentials only; until
    it expires every request with it is handled, as its user, and afterwards it is
    refused. *)
Theorem only_valid_tokens_are_served req g :
  (permitAll (route req).1 (route req).2 = true →
     (∃ user pass, req = Token user pass) ∨ ∃ method path, req = Elsewhere method path) ∧
  (∀ authorization, permitAll (route req).1 (route req).2 = false →
     (∀ token, authorization = Some (PREFIX +:+ token) → jwts_verify (jwt_key jwt) (now (gw_net g)) token = None) →
     handle authorization req g = ((401%Z, SentError "unauthorized"), g)) ∧
  ∀ user pass t token expires,
    authenticate user pass t = inr (token, expires) →
    user = auth_username ∧ pass = auth_password ∧
    ((now (gw_net g) < t + jwt_expirySeconds jwt)%Z →
       handle (Some (PREFIX +:+ token)) req g = controller req (Some (user, ["ROLE_ADMIN"])) g) ∧
    ((t + jwt_expirySeconds jwt < now (gw_net g))%Z → permitAll (route req).1 (route req).2 = false →
       handle (Some (PREFIX +:+ token)) req g = ((401%Z, SentError "unauthorized"), g)).
Proof.
  assert (∀ authorization, permitAll (route req).1 (route req).2 = false →
    doFilterInternal authorization (now (gw_net g)) = None →
    handle authorization req g = ((401%Z, SentError "unauthorized"), g)) as Hrefuse.
  { intros a Hp Hf. unfold handle, permitted. rewrite Hf. destruct (route req). cbn in Hp. by rewrite Hp. }
  split; [apply public_routes|]. split.
  - intros authorization Hp Hno. apply Hrefuse; [done|]. by apply unknown_caller.
  - intros user pass t token expires. unfold authenticate.
    destruct (String.eqb_spec auth_username user) as [->|]; [|done].
    destruct (String.eqb_spec auth_password pass) as [->|]; [|done]. cbn [andb]. intros [= <- <-].
    split_and!; [done..| |].
    + intros Ht. unfold handle. rewrite bearer_filter. unfold jwt_parse, jwt_issue. rewrite verify_signed by done. cbn.
      unfold permitted. destruct (route req). by rewrite orb_true_r.
    + intros Ht Hp. apply Hrefuse; [done|]. rewrite bearer_filter. unfold jwt_parse, jwt_issue. by rewrite verify_expired.
Qed.

(** A version as the client sees it: the data as text, and the token. *)
Definition shown (v : VersionedValue) : string * string := (Utf8.decode (data v), VectorClock.serialize (clock v)).

(** The status and body a node's answer to a read calls for. *)
Definition http_of_get (key : string) (gr : GetResult) : Z * Body :=
  match status gr with
  | OK => (200%Z, KvValueResponse (shown (hd no_value (values gr))))
  | SIBLINGS => (409%Z, SiblingsResponse (shown <$> values gr))
  | NOTFOUND => (404%Z, ApiError "not_found" ("key not found: " +:+ key))
  | ERROR => if isQuorumFailure (get_error gr)
             then (503%Z, ApiError "quorum_not_met" "cluster could not meet the requested quorum")
             else (502%Z, ApiError "cluster_error" ("cluster error: " +:+ get_error gr))
  end.

Definition http_of_put (pr : PutResult) : Z * Body :=
  if put_ok pr then (200%Z, WriteResponse (VectorClock.serialize (put_clock pr)))
  else if isQuorumFailure (put_error pr)
       then (503%Z, ApiError "quorum_not_met" "cluster could not meet the requested quorum")
       else (502%Z, ApiError "cluster_error" ("cluster error: " +:+ put_error pr)).

(** C22: The HTTP answer is the node's outcome.  When the node that was reached
    replies with the outcome of a read, the client gets 200 with the value, decoded as
    UTF-8, and its token, 409 with every sibling, 404, 503 when the quorum was missed,
    or 502, and nothing else; a value that is UTF-8 comes as it was stored.  When it
    replies with the outcome of a write, the client gets 200 with the token, 503 or 502.
    A key that is empty or contains the separator gets 400 whatever state the cluster is
    in, and no node is contacted. *)
Theorem http_answer_is_the_outcome key value clock n w r principal g :
  let '(dn, dw, dr) := defaults in
  (∀ gr g1, validateKey key = true → Forall vv_ok (values gr) → str_free "|" (get_error gr) = true →
     exchangeForKey key (get_payload key (orDefault n dn) (orDefault r dr)) (orDefault n dn) g = (inr (get_reply gr), g1) →
     controller (KvGet key n r) principal g = (http_of_get key gr, g1) ∧
     ∀ v, v ∈ values gr → Utf8.valid (data v) = true → (shown v).1 = data v) ∧
  (∀ pr g2, validateKey key = true → VectorClock.wire_ok (put_clock pr) → str_free "|" (put_error pr) = true →
     exchangeForKey key (put_payload key value clock (orDefault n dn) (orDefault w dw) (orDefault r dr)) (orDefault n dn) g
       = (inr (put_reply pr), g2) →
     controller (KvPut key (Some value) clock n w r) principal g = (http_of_put pr, g2)) ∧
  (validateKey key = false → ∀ req, req ∈ [KvGet key n r; KvPut key (Some value) clock n w r; KvDelete key clock n w] →
     (controller req principal g).1.1 = 400%Z ∧ (controller req principal g).2 = g).
Proof.
  destruct defaults as [[dn dw] dr] eqn:Hd. split_and!.
  - intros gr g1 Hk%checkKey_valid Hv Hge Hget. split; [|intros v _; apply Utf8.decode_valid].
    unfold controller. rewrite Hk. unfold kv_get, cluster_get. rewrite Hd, Hget, parseRead_get_reply by done.
    unfold http_of_get. destruct (status gr); cbn; [done|by rewrite <- list_fmap_compose|done|by destruct (isQuorumFailure _)].
  - intros pr g2 Hk%checkKey_valid Hc He Hput. unfold controller. rewrite Hk.
    unfold kv_put, cluster_put. rewrite Hd, Hput, parseWrite_put_reply by done.
    unfold http_of_put. by destruct (put_ok pr); [|destruct (isQuorumFailure _)].
  - intros Hk req Hreq. assert (∃ m, checkKey key = Some (IllegalArgumentException m)) as [m Hm].
    { unfold checkKey, validateKey in *. destruct (str_empty key); [by eexists|]. cbn in Hk. rewrite Hk. by eexists. }
    repeat (apply elem_of_cons in Hreq as [->|Hreq]; [cbn; by rewrite Hm|]). by apply elem_of_nil in Hreq.
Qed.

(** *** Deletes *)

Definition same_records (g g' : Gw Net) : Prop :=
  gw_ring g' = gw_ring g ∧ gw_nodes g' = gw_nodes g ∧ gw_audit g' = gw_audit g.

Lemma exchange_targets_records targets payload g : same_records g (exchange_targets targets payload g).2.
Proof. unfold exchange_targets. by destruct (exchange _ _ _ _) as [[[]| |] ?]. Qed.

Lemma exchange_records key payload n g : same_records g (exchangeForKey key payload n g).2.
Proof.
  unfold exchangeForKey. destruct (RingRouter.ownersFor _ _ _); [|done]. destruct (seedEndpoints cluster_nodes); [done|].
  destruct (targetsForKey _ _ _ _); [apply exchange_targets_records|done].
Qed.

Lemma exchangeAny_records payload g : same_records g (exchangeAny payload g).2.
Proof. unfold exchangeAny. destruct (seedEndpoints cluster_nodes); [done|]. apply exchange_targets_records. Qed.

Lemma capture_records key n r g : same_records g (captureBefore key n r g).2.
Proof.
  unfold captureBefore, cluster_get. pose proof (exchange_records key (get_payload key n r) n g) as Hx.
  by destruct (exchangeForKey _ _ _ _) as [[] ?].
Qed.

Lemma delete_records key clock n w g : same_records g (cluster_delete key clock n w g).2.
Proof.
  unfold cluster_delete. pose proof (exchange_records key (delete_payload key clock n w) n g) as Hx.
  by destruct (exchangeForKey _ _ _ _) as [[] ?].
Qed.

(** A delete is audited exactly when it is answered with success.  Such a delete
    adds one record, with the actor, the key and the value read just before (none if
    it could not be read); any other adds none; and neither touches the ring or the
    registry. *)
Theorem delete_is_audited key clock n w actor g :
  let '(dn, dw, dr) := defaults in
  let '(res, g') := kv_delete key clock n w actor g in
  gw_ring g' = gw_ring g ∧ gw_nodes g' = gw_nodes g ∧
  match res with
  | inr _ => ∃ t, gw_audit g' = gw_audit g ++ [mkAudit actor "DELETE" key (captureBefore key (orDefault n dn) dr g).1 t]
  | inl _ => gw_audit g' = gw_audit g
  end.
Proof.
  destruct defaults as [[dn dw] dr] eqn:Hd. unfold kv_delete. rewrite Hd.
  pose proof (capture_records key (orDefault n dn) dr g) as Hc.
  destruct (captureBefore key (orDefault n dn) dr g) as [before g1]. destruct Hc as (Hr1 & Hn1 & Ha1).
  pose proof (delete_records key clock (orDefault n dn) (orDefault w dw) g1) as Hx.
  destruct (cluster_delete _ _ _ _ g1) as [res g2]. destruct Hx as (Hr2 & Hn2 & Ha2). cbn in *.
  unfold audit. destruct (write_outcome res) as [e|c]; [|destruct (saves_audit _)]; cbn;
    rewrite ?Hr2, ?Hn2, ?Ha2, ?Hr1, ?Hn1, ?Ha1; eauto.
Qed.

(** The cluster is asked first: when the database refuses the record, the delete has
    taken effect all the same, is answered 500 and is not audited. *)
Theorem refused_audit_loses_the_record key clock n w actor g :
  let '(dn, dw, dr) := defaults in
  let g1 := (captureBefore key (orDefault n dn) dr g).2 in
  let '(res, g2) := cluster_delete key clock (orDefault n dn) (orDefault w dw) g1 in
  (∀ before t, saves_audit (mkAudit actor "DELETE" key before t) = false) →
  ∀ token, res = inr (WriteOk token) →
  kv_delete key clock n w actor g = (inl OtherException, g2) ∧ gw_audit g2 = gw_audit g.
Proof.
  destruct defaults as [[dn dw] dr] eqn:Hd. cbv zeta. pose proof (capture_records key (orDefault n dn) dr g) as Hc.
  unfold kv_delete. rewrite Hd. destruct (captureBefore key (orDefault n dn) dr g) as [before g1]. cbn in *.
  pose proof (delete_records key clock (orDefault n dn) (orDefault w dw) g1) as Hx.
  destruct (cluster_delete _ _ _ _ g1) as [res g2]. intros Hno token ->. unfold audit. cbn. rewrite Hno.
  destruct Hc as (_ & _ & <-), Hx as (_ & _ & <-). done.
Qed.

(** *** Polling *)

Lemma persist_one_other t nodes rn id : id ≠ node_id rn → persist_one t nodes rn !! id = nodes !! id.
Proof. intros Hid. unfold persist_one. destruct (nodes !! node_id rn); by rewrite lookup_insert_ne. Qed.

Lemma persist_other t ring nodes id :
  id ∉ node_id <$> ring → foldl (persist_one t) nodes ring !! id = nodes !! id.
Proof.
  revert nodes. induction ring as [|rn ring IH]; intros nodes Hid; [done|]. rewrite fmap_cons in Hid.
  apply not_elem_of_cons in Hid as [Hne Hni]. cbn. rewrite IH by done. by apply persist_one_other.
Qed.

Lemma persist_there t ring nodes rn :
  NoDup (node_id <$> ring) → rn ∈ ring →
  foldl (persist_one t) nodes ring !! node_id rn =
    Some (mkEntity (host rn) (port rn) (from_option e_added_at t (nodes !! node_id rn)) t).
Proof.
  revert nodes. induction ring as [|x ring IH]; intros nodes Hnd Hin; [by apply elem_of_nil in Hin|].
  rewrite fmap_cons in Hnd. apply list.NoDup_cons in Hnd as [Hx Hnd]. cbn. apply elem_of_cons in Hin as [->|Hin].
  - rewrite persist_other by done. unfold persist_one. by destruct (nodes !! node_id x); rewrite lookup_insert_eq.
  - rewrite IH by done. rewrite persist_one_other; [done|]. intros E. apply Hx. rewrite <- E. by apply list_elem_of_fmap_2.
Qed.

(** C25: A poll adopts the ring it read and keeps the ring it had otherwise.  When
    a node answers with its ring, the gateway afterwards computes the owners that
    node computes, for every key and replica count; and if the database takes the
    rows, the registry holds every node of that ring with its address, seen now,
    first seen when it first was, and the other rows as before; if it refuses one,
    the registry stays as it was.  When no node answers, or with something that is not a
    ring, ring and registry stay as they were. *)
Theorem poll_adopts_the_ring g r g1 :
  (exchangeAny ("RING|" +:+ ORIGIN) g = (inr (ring_reply r), g1) →
     Router.ring_ok r → Placement.placed r → RingRouter.virtualNodes (gw_ring g) = Router.virtual_nodes r →
     Forall row_ok (Router.getAllPhysicalNodes r) → NoDup (node_id <$> Router.getAllPhysicalNodes r) →
     Router.getAllPhysicalNodes r ≠ [] →
     (∀ key n, RingRouter.ownersFor (gw_ring (poll g)) key n = Router.findOwners r key n) ∧
     if forallb saves_node (Router.getAllPhysicalNodes r) then
       (∀ x, x ∈ Router.getAllPhysicalNodes r →
          gw_nodes (poll g) !! node_id x =
            Some (mkEntity (host x) (port x)
                    (from_option e_added_at (now (gw_net g1)) (gw_nodes g !! node_id x)) (now (gw_net g1)))) ∧
       (∀ id, id ∉ node_id <$> Router.getAllPhysicalNodes r → gw_nodes (poll g) !! id = gw_nodes g !! id)
     else gw_nodes (poll g) = gw_nodes g) ∧
  (∀ e, (cluster_ring g).1 = inl e → gw_ring (poll g) = gw_ring g ∧ gw_nodes (poll g) = gw_nodes g).
Proof.
  pose proof (exchangeAny_records ("RING|" +:+ ORIGIN) g) as Hrec. split.
  - intros Hx Hok Hp Hv Hrows Hnd Hne. rewrite Hx in Hrec. destruct Hrec as (Hr & Hn & _). cbn in Hr, Hn.
    unfold poll, cluster_ring. rewrite Hx, parseRing_ring_reply by done.
    destruct (Router.getAllPhysicalNodes r) as [|y l] eqn:E; [done|]. rewrite <- E in *. clear E. unfold persist.
    destruct (forallb saves_node _); cbn; rewrite Hr, Hn; (split; [intros key n; by apply RingRouter.ownersFor_findOwners|]); [|done].
    split; [by intros x Hin; apply persist_there|]. intros id. apply persist_other.
  - intros e He. unfold poll. unfold cluster_ring in *.
    destruct (exchangeAny _ g) as [[e'|resp] g']; destruct Hrec as (? & ? & _); [done|].
    by destruct (parseRing resp).
Qed.

End service.

(** ** Examples *)

Module ServiceExamples.

(** A token library: the token is its contents, with the secret. *)
Fixpoint bits (p : positive) : string :=
  match p with xH => EmptyString | xO p => String "0" (bits p) | xI p => String "1" (bits p) end.
Fixpoint unbits (s : string) : positive :=
  match s with
  | EmptyString => xH
  | String c s => if Ascii.eqb c "0" then xO (unbits s) else xI (unbits s)
  end.

Lemma unbits_bits p : unbits (bits p) = p.
Proof. induction p as [p IH|p IH|]; cbn; by rewrite ?IH. Qed.

Definition open_sign (key : string) (c : Claims) : string :=
  bits (encode (key, c_subject c, c_roles c, c_issued_at c, c_expiration c)).
Definition open_verify (key : string) (t : Z) (token : string) : option Claims :=
  '(key', user, roles, issued, expires) ← decode (A := string * string * list string * Z * Z) (unbits token);
  if bool_decide (key = key' ∧ (t < expires)%Z) then Some (mkClaims user roles issued expires) else None.

#[global] Instance open_jwts : Jwts := {| jwts_sign := open_sign; jwts_verify := open_verify |}.

#[global] Instance open_laws : JwtsLaws.
Proof.
  split; intros key [user roles issued expires] t Ht; cbn in *; unfold open_verify, open_sign;
    rewrite unbits_bits, decode_encode; cbn.
  - by rewrite bool_decide_eq_true_2.
  - rewrite bool_decide_eq_false_2; [done|]. lia.
Qed.

(** Tables with the column lengths of the schema (V1__init.sql); texts of ASCII. *)
Definition fits (n : nat) (s : string) : bool := bool_decide (String.length s ≤ n) && str_free "000" s.

#[global] Instance schema : Repositories := {|
  saves_audit a := fits 255 (a_actor a) && fits 64 (a_action a) && fits 512 (a_key a) &&
                   match a_before a with Some b => str_free "000" b | None => true end;
  saves_node n := fits 255 (node_id n) && fits 255 (host n);
|}.

#[global] Instance no_pages : Framework := λ _ _, (404%Z, "").

Definition service : JwtService := mkJwtService "0123456789abcdef0123456789abcdef" 3600.

(** One node that answers every read with a value, every write with success. *)
Definition got : GetResult := mkGet OK [mkVV "v" ∅ false] "".
Definition stored : PutResult := mkPut true ∅ "".
Definition answer (_ : Endpoint) (payload : string) (u : Z) : Java string * Z :=
  let verb := field (splitAll payload "|") 0 in
  (Returns (if String.eqb verb "GET" then get_reply got
            else if String.eqb verb "RING" then ring_reply Router.r3 else put_reply stored), u).
Definition seed : list string := ["h1:5001"].
Definition fresh_gw : Gw Z := mkGw 1000%Z (RingRouter.new 2) ∅ [].

Lemma only_valid_tokens_are_served_witness :
  handle answer seed [] (λ t, t) service "admin" "pw" (λ u _, u) (Some "Bearer 01") (KvGet "k" None None) fresh_gw =
    ((401%Z, SentError "unauthorized"), fresh_gw) ∧
  handle answer seed [] (λ t, t) service "admin" "pw" (λ u _, u) (Some (PREFIX +:+ jwt_issue service 900 "admin" ["ADMIN"]))
    (KvGet "k" None None) fresh_gw = ((200%Z, KvValueResponse ("v", "")), fresh_gw).
Proof.
  destruct (only_valid_tokens_are_served answer seed [] (λ t, t) service "admin" "pw" (λ u _, u)
              (KvGet "k" None None) fresh_gw) as (_ & H1 & H2).
  split.
  - apply H1; [reflexivity|]. intros token Ht. assert (token = "01") as ->; [|vm_compute; reflexivity].
    injection Ht as Ht. symmetry. exact Ht.
  - destruct (H2 "admin" "pw" 900%Z (jwt_issue service 900 "admin" ["ADMIN"]) 3600%Z eq_refl) as (_ & _ & H & _).
    etransitivity; [apply H; cbn; lia|vm_compute; reflexivity].
Defined.

Lemma http_answer_is_the_outcome_witness :
  controller answer seed [] (λ t, t) service "admin" "pw" (λ u _, u) (KvGet "k" None None) None fresh_gw =
    ((200%Z, KvValueResponse ("v", "")), fresh_gw) ∧
  controller answer seed [] (λ t, t) service "admin" "pw" (λ u _, u) (KvPut "k" (Some "v") None None None None) None fresh_gw =
    ((200%Z, WriteResponse ""), fresh_gw).
Proof.
  destruct (http_answer_is_the_outcome answer seed [] (λ t, t) service "admin" "pw" (λ u _, u) "k" "v" None None None None None
              fresh_gw) as (Hg & Hp & _).
  split.
  - apply (Hg got fresh_gw); [reflexivity|vm_decide|reflexivity|vm_compute; reflexivity].
  - apply (Hp stored fresh_gw); [reflexivity|vm_decide|reflexivity|vm_compute; reflexivity].
Defined.

(** Under the schema, a key that the key column cannot hold: the cluster answers a
    success, the client gets an error, and the log stays empty. *)
Fixpoint long_key (n : nat) : string := match n with O => EmptyString | S n => String "k" (long_key n) end.

Theorem long_key_is_deleted_unaudited :
  controller answer seed [] (λ t, t) service "admin" "pw" (λ u _, u) (KvDelete (long_key 513) None None None) None fresh_gw =
    ((500%Z, SentError ""), fresh_gw).
Proof. vm_compute. reflexivity. Qed.

(** What is wrong with a node or with the configuration is answered as if the
    request were: an undecodable value in a reply, and a seed without a port. *)
Definition garbled (_ : Endpoint) (_ : string) (u : Z) : Java string * Z := (Returns "RESPONSE|OK|a|", u).

Theorem server_faults_are_bad_requests :
  (controller garbled seed [] (λ t, t) service "admin" "pw" (λ u _, u) (KvGet "k" None None) None fresh_gw).1.1 = 400%Z ∧
  (controller answer ["h1:"] [] (λ t, t) service "admin" "pw" (λ u _, u) (KvGet "k" None None) None fresh_gw).1.1 = 400%Z.
Proof. split; vm_compute; reflexivity. Qed.

Definition polling : Gw Z := mkGw 1000%Z (RingRouter.new 4) ∅ [].

Lemma poll_adopts_the_ring_witness :
  RingRouter.ownersFor (gw_ring (poll answer seed (λ t, t) polling)) "user:42" 2 = Router.findOwners Router.r3 "user:42" 2 ∧
  gw_nodes (poll answer seed (λ t, t) polling) !! "node1" = Some (mkEntity "h1" 5001 1000 1000).
Proof.
  assert (forallb saves_node (Router.getAllPhysicalNodes Router.r3) = true) as Hs by (vm_compute; reflexivity).
  pose proof (proj1 (poll_adopts_the_ring answer seed (λ t, t) polling Router.r3 polling)) as Hp. rewrite Hs in Hp.
  destruct Hp as (H1 & H2 & _).
  - vm_compute. reflexivity.
  - exact Router.r3_ok.
  - exact NodeExamples.placed_r3.
  - reflexivity.
  - exact GatewayExamples.rows_r3.
  - vm_decide.
  - vm_compute. discriminate.
  - split; [exact (H1 "user:42" 2%Z)|]. exact (H2 Router.n1 ltac:(vm_decide)).
Defined.

End ServiceExamples.
