(* ===== verification/GatewayApp.v ===== *)
(** * The gateway as an application (gateway/.../config, web/RequestIdFilter.java)

    The configuration properties with the defaults of their classes, what start-up
    builds from them, and the correlation of log lines: the filter in front of the
    security chain puts the request's id into the thread's diagnostic context (the
    MDC of the logging library, a map per thread that every line is printed with)
    and takes it out again however the chain ends.

    Spring's binding of the properties and its filter chain are not part of the
    sources: properties are a record, and the chain is an argument that logs and may
    throw.  A worker thread of the server serves one request after the other.

    The theorems: a gateway with an unusable secret does not start, and one that
    starts gives tokens only to the configured account; and the lines logged for a request carry its id and no other, also after a request
    that failed. *)
From S2P Require Import Prelude Util Base64 Clock Value Storage Ring Wire Coordinator Node Gateway GatewayClient GatewayService.
From Stdlib Require Import Ascii String ZArith Lia.
From stdpp Require Import base gmap list strings numbers.
Import ClusterClient.

(** ** Properties *)

Record ClusterProperties := mkClusterProperties {
  cp_nodes : list string; cp_connectTimeoutMs : Z; cp_readTimeoutMs : Z;
  cp_virtualNodes : Z; cp_ringPollIntervalMs : Z; cp_maxConnectionsPerNode : Z;
}.

Definition cluster_properties : ClusterProperties := mkClusterProperties ["localhost:5001"] 1000 2000 128 5000 4.

Record AuthProperties := mkAuthProperties { ap_username : string; ap_password : string }.

Definition auth_properties : AuthProperties := mkAuthProperties "admin" "changeme".

Record JwtProperties := mkJwtProperties { jp_secret : option string; jp_expiryMinutes : Z }.

Definition jwt_properties : JwtProperties := mkJwtProperties None 30.

(** ** Start-up *)

(** The token service, whose constructor may throw. *)
Definition start_service (jp : JwtProperties) : option JwtService :=
  secret ← jp_secret jp; newJwtService secret (jp_expiryMinutes jp).

(** ** Correlation *)

Module RequestIdFilter.

Definition HEADER : string := "X-Request-Id".
Definition MDC_KEY : string := "request_id".

(** [Character.isWhitespace] on the bytes a header decodes to. *)
Definition is_whitespace (c : ascii) : bool :=
  let b := byte_of c in ((9 <=? b) && (b <=? 13) || (28 <=? b) && (b <=? 32))%Z.

(** [StringUtils.hasText]. *)
Definition hasText (s : option string) : bool :=
  match s with Some s => negb (str_all is_whitespace s) | None => false end.

(** A worker: its diagnostic context and the lines it has logged, each with the id
    it was printed with. *)
Record Worker := mkWorker { mdc : gmap string string; lines : list (option string * string) }.

Definition log_line (message : string) (w : Worker) : Worker :=
  mkWorker (mdc w) (lines w ++ [(mdc w !! MDC_KEY, message)]).

(** What the chain does: lines, and an answer or an exception. *)
Record Chain (A : Type) := mkChain { c_messages : list string; c_result : option A }.
Arguments mkChain {A} _ _.
Arguments c_messages {A} _.
Arguments c_result {A} _.

Definition run_chain {A} (c : Chain A) (w : Worker) : option A * Worker :=
  (c_result c, foldl (λ w m, log_line m w) w (c_messages c)).

(** The filter: the response's headers, what the chain answered, and the worker. *)
Definition doFilterInternal {A} (header : option string) (uuid : string) (c : Chain A) (w : Worker)
  : gmap string string * option A * Worker :=
  let requestId := if hasText header then default "" header else uuid in
  let w := mkWorker (<[MDC_KEY := requestId]> (mdc w)) (lines w) in
  let headers := {[ HEADER := requestId ]} in
  let '(res, w) := run_chain c w in
  (headers, res, mkWorker (delete MDC_KEY (mdc w)) (lines w)).

(** One worker, one request after the other. *)
Definition serve {A} (reqs : list (option string * string * Chain A)) (w : Worker) : Worker :=
  foldl (λ w req, let '(header, uuid, c) := req in (doFilterInternal header uuid c w).2) w reqs.

Definition id_of {A} (req : option string * string * Chain A) : string :=
  if hasText req.1.1 then default "" req.1.1 else req.1.2.

Lemma run_messages msgs w :
  foldl (λ w m, log_line m w) w msgs = mkWorker (mdc w) (lines w ++ ((λ m, (mdc w !! MDC_KEY, m)) <$> msgs)).
Proof.
  revert w. induction msgs as [|m msgs IH]; intros w; cbn; [by rewrite app_nil_r; destruct w|].
  rewrite IH. cbn. by rewrite <- app_assoc.
Qed.

Lemma filter_effect {A} header uuid (c : Chain A) w :
  mdc w !! MDC_KEY = None →
  (doFilterInternal header uuid c w).2 =
    mkWorker (mdc w) (lines w ++ ((λ m, (Some (id_of (header, uuid, c)), m)) <$> c_messages c)).
Proof.
  intros Hw. unfold doFilterInternal, run_chain. rewrite run_messages. cbn. by rewrite lookup_insert_eq, delete_insert_id.
Qed.

(** Lines carry their own request's id.  Whatever the requests of a worker log, and
    whether they are answered or throw, each line has the id of the request it was
    logged for, taken from its header or generated, the same that the response's
    header names; and between requests the worker has no id. *)
Theorem lines_are_correlated {A} (reqs : list (option string * string * Chain A)) w :
  mdc w !! MDC_KEY = None →
  mdc (serve reqs w) = mdc w ∧
  lines (serve reqs w) = lines w ++ (reqs ≫= λ req, (λ m, (Some (id_of req), m)) <$> c_messages req.2) ∧
  Forall (λ req, ∀ v, (doFilterInternal req.1.1 req.1.2 req.2 v).1.1 !! HEADER = Some (id_of req)) reqs.
Proof.
  revert w. induction reqs as [|[[header uuid] c] reqs IH]; intros w Hw; [cbn; by rewrite app_nil_r|].
  unfold serve. cbn [foldl]. rewrite filter_effect by done.
  destruct (IH (mkWorker (mdc w) (lines w ++ ((λ m, (Some (id_of (header, uuid, c)), m)) <$> c_messages c))) Hw) as (H1 & H2 & H3).
  split; [exact H1|]. split; [etrans; [exact H2|]; cbn; by rewrite <- app_assoc|].
  constructor; [|exact H3]. intros v. apply lookup_singleton_eq.
Qed.

End RequestIdFilter.

(** ** The application *)

Section application.
Context `{Repositories, !Framework, JwtsLaws} {Net : Type} (roundTrip : Endpoint → string → Net → Java string * Net).
Context (config : list ConfigVersionEntity) (now : Net → Z) (first_error : string → string → string).
Context (cp : ClusterProperties) (ap : AuthProperties) (jp : JwtProperties).

(** A started gateway's handler. *)
Definition application : option (option string → Request → Gw Net → (Z * Body) * Gw Net) :=
  jwt ← start_service jp;
  Some (handle roundTrip (cp_nodes cp) config now jwt (ap_username ap) (ap_password ap) first_error).

(** A gateway starts exactly when its secret has 256 bits; it then issues tokens only
    for the configured credentials, and its tokens live for the configured time. *)
Theorem starts_with_a_strong_secret :
  (is_Some application ↔ ∃ s, jp_secret jp = Some s ∧ 32 ≤ String.length s) ∧
  ∀ http user pass g status token expires g', application = Some http →
    http None (Token (Some user) (Some pass)) g = ((status, TokenResponse token expires), g') →
    user = ap_username ap ∧ pass = ap_password ap ∧ expires = (jp_expiryMinutes jp * 60)%Z ∧ g' = g.
Proof.
  unfold application, start_service, newJwtService. split.
  - destruct (jp_secret jp) as [s|]; cbn; [|split; [by intros []|by intros (? & ? & _)]].
    case_bool_decide; cbn.
    + split; [by intros []|]. intros (s' & [= <-] & Hs). lia.
    + split; [|done]. intros _. exists s. split; [done|lia].
  - intros http user pass g status token expires g' Ha. destruct (jp_secret jp) as [s|]; [|done]. cbn in Ha.
    case_bool_decide; [done|]. cbn in Ha. injection Ha as <-. unfold handle. cbn.
    destruct (token_error _ _ _) as [e|]; [by destruct e|]. cbn. unfold authenticate.
    destruct (String.eqb_spec (ap_username ap) user) as [->|]; [|done].
    destruct (String.eqb_spec (ap_password ap) pass) as [->|]; [|done]. cbn. intros Hh. by simplify_eq.
Qed.

End application.
