(* ===== verification/Cluster.v ===== *)
(** * The cluster behind the gateway, end to end

    From the HTTP request of a client, through the gateway's services, its targets
    and failover, to a node, the node's forward to the key's primary, the quorum
    write or read it coordinates, and back.

    A network is any state from which the stores of the processes and the node
    objects can be read off.  [node_answers] says which replies the node at an address
    can give: the outcome of a write or a read it coordinated, run with any
    interleaving, the reply of the node it forwarded to, or one it made on the spot.
    The gateway's round trip is any function whose answers are of this kind; a round
    trip that fails may have done anything [friendly] to the write.

    The theorems compose those of [Quorum], [Node], [GatewayClient] and
    [GatewayService]: a PUT answered 200 is on W replicas, and a later GET, through
    any node, gives the client that write or what superseded it. *)
From S2P Require Import Prelude Util Base64 Clock Value Storage Ring Metrics Wire Coordinator Quorum Gossip Node Gateway GatewayClient GatewayService.
From Stdlib Require Import Ascii String ZArith Lia.
From stdpp Require Import base gmap list relations strings numbers.
Import VersionedValue Coordinator ClusterClient.

Section cluster.
Context {S : Type} `{StorageLaws S} {F : Type} `{!ReplicaClient S F, !ReplicaLaws S F} {Net : Type}.
(** How the nodes see the network. *)
Context (send_fn : string → Z → string → Net → string * Net) (forward_fn : NodeInfo → string → Net → string * Net).
Context (clock_now wall_now steady_now : Net → Z).
(** The processes. *)
Context (node_at : Net → Addr → option (Node.Node S)) (stores : Net → World S).

Abbreviation request := (Node.handleRequest send_fn forward_fn clock_now wall_now steady_now).

(** The node that receives [payload] sends it on to [p]. *)
Definition forwards (m : Node.Node S) (payload : string) (p : NodeInfo) : Prop :=
  ∃ os, Router.findOwners (Node.router m) (field (splitAll payload "|") 1) 1 = Some (p :: os) ∧
        node_id p ≠ node_id (Node.n_info m).

(** The replies of the node at an address, interference with reads being
    compatible with a write at clock [cl]. *)
Inductive node_answers (cl : VectorClock.clock) : Net → Addr → string → string → Net → Prop :=
| answered_write net net1 net' a m m1 payload req run run' res :
    node_at net a = Some m → request payload (m, net) = (Node.AwaitPut req run, (m1, net1)) →
    rtc (write_next (F := F) req) run run' → result run' = Some res → stores net' = world (w_state run') →
    node_answers cl net a payload (put_reply res) net'
| answered_read net net1 net' a m m1 payload req run run' res :
    node_at net a = Some m → request payload (m, net) = (Node.AwaitGet req run, (m1, net1)) →
    rtc (read_next (F := F) cl req) run run' → r_result run' = Some res → stores net' = world (r_state run') →
    node_answers cl net a payload (get_reply res) net'
| answered_forward net net0 net' a m m1 p payload reply :
    node_at net a = Some m → forwards m payload p → forward_fn p payload net = (reply, net') → reply ≠ EmptyString →
    request payload (m, net) = (Node.Reply reply, (m1, net')) →
    node_answers cl net0 (addr p) payload reply net' →
    node_answers cl net a payload reply net'
| answered_at_once net net' a m m1 payload reply :
    node_at net a = Some m → request payload (m, net) = (Node.Reply reply, (m1, net')) →
    (∀ p resp net1, forwards m payload p → forward_fn p payload net = (resp, net1) → resp = EmptyString) →
    node_answers cl net a payload reply net'.





(** ** What a node answers to the gateway's requests *)

Section payloads.
Context (key value : string) (ctx : VectorClock.clock) (n w r : Z).
Context (Hkey : validateKey key = true) (Hn : is_int n) (Hw : is_int w) (Hr : is_int r) (Hctx : VectorClock.wire_ok ctx).

Abbreviation put := (put_payload key value (Some (VectorClock.serialize ctx)) n w r).

(** A put that is answered on the spot has failed. *)
Lemma put_at_once m net m1 net1 reply token :
  request put (m, net) = (Node.Reply reply, (m1, net1)) → parseWrite reply = WriteOk token →
  ∃ p, forwards m put p ∧ forward_fn p put net = (reply, net1) ∧ reply ≠ EmptyString.
Proof using Hkey Hn Hw Hr Hctx.
  unfold Node.handleRequest, forwards. rewrite put_fields by done.
  set (f := ["PUT"; _; _; _; _; _; _; _]). change (field f 0) with "PUT". cbn [str_empty String.eqb Ascii.eqb Bool.eqb].
  unfold Node.handlePut. change (field f 1) with key. change (Node.router (Node.counted Metrics.Put m)) with (Node.router m).
  destruct (Router.findOwners (Node.router m) key 1) as [[|p os]|]; [by intros [= <- <- <-]| |done].
  change (Node.n_info (Node.counted Metrics.Put m)) with (Node.n_info m).
  destruct (String.eqb_spec (node_id p) (node_id (Node.n_info m))) as [|Hne]; cbn [negb].
  - unfold coordinatePut, writeQuorum. destruct (Router.findOwners _ key _) as [[|o owners]|]; cbn;
      [by intros [= <- _ _]|done|done].
  - unfold Node.forward. cbn [snd fst]. destruct (forward_fn p put net) as [resp net2] eqn:E. intros [= <- <- <-].
    destruct resp as [|c resp]; [done|]. intros _. exists p. split_and!; [by exists os|done|done].
Qed.

Lemma put_never_reads m net x req run : request put (m, net) ≠ (Node.AwaitGet req run, x).
Proof using Hkey Hn Hw Hr Hctx.
  unfold Node.handleRequest. rewrite put_fields by done.
  set (f := ["PUT"; _; _; _; _; _; _; _]). change (field f 0) with "PUT". cbn [str_empty String.eqb Ascii.eqb Bool.eqb].
  unfold Node.handlePut. destruct (Router.findOwners _ _ 1) as [[|p os]|]; [done| |done].
  destruct (negb _); [unfold Node.forward; by destruct (forward_fn _ _ _)|].
  by destruct (coordinatePut _ _ _ _ _ _ _ _ _) as [[]|].
Qed.

(** A put reported as stored was coordinated by some node. *)
Lemma put_answered cl net a reply net' token :
  node_answers cl net a put reply net' → parseWrite reply = WriteOk token →
  ∃ net0 a0 m req run run' res,
    node_at net0 a0 = Some m ∧
    coordinatePut (Node.coordinator_ m) (wall_now net0) (steady_now net0) key value ctx (Node.effN m n) (Node.effW m w)
      (Node.n_state (Node.counted Metrics.Put m)) = Some (Running req run) ∧
    rtc (write_next (F := F) req) run run' ∧ result run' = Some res ∧ put_ok res = true ∧
    reply = put_reply res ∧ stores net' = world (w_state run').
Proof using Hkey Hn Hw Hr Hctx.
  intros Ha Hok. remember put as payload eqn:Ep. revert Ep Hok.
  induction Ha as [net net1 net' a m m1 payload req run run' res Hm Hq Hrun Hres Hst
                  |net net1 net' a m m1 payload req run run' res Hm Hq|net net0 net' a m m1 p payload reply Hm Hf Hfw Hne Hq _ IH
                  |net net' a m m1 payload reply Hm Hq Hno]; intros -> Hok.
  - apply put_starts in Hq; [|done..]. exists net, a, m, req, run, run', res. split_and!; try done. by eapply put_reply_ok.
  - by apply put_never_reads in Hq.
  - by apply IH.
  - destruct (put_at_once _ _ _ _ _ _ Hq Hok) as (p & Hp & Hfw & Hne). by destruct (Hno _ _ _ Hp Hfw).
Qed.



End payloads.

(** ** The gateway in front *)

Section http.
Context `{Repositories, !Framework} (roundTrip : Endpoint → string → Net → Java string * Net) (nodes : list string).
Context (config : list ConfigVersionEntity) (now : Net → Z).
Context `{JwtsLaws} (jwt : JwtService) (auth_username auth_password : string).
Context (first_error : string → string → string).

Abbreviation http := (handle roundTrip nodes config now jwt auth_username auth_password first_error).

(** A round trip that failed. *)
Definition fails (payload : string) (net net' : Net) : Prop := ∃ e, roundTrip e payload net = (IOException, net').

Lemma exchange_answer targets payload net reply net' :
  exchange roundTrip targets payload net = (Returns (Some reply), net') →
  ∃ e net0, rtc (fails payload) net net0 ∧ roundTrip e payload net0 = (Returns reply, net').
Proof.
  revert net. induction targets as [|e targets IH]; intros net; [done|]. cbn.
  destruct (roundTrip e payload net) as [[x| |] net1] eqn:E; [|intros Hx|done].
  - intros [= <- <-]. by exists e, net.
  - destruct (IH net1 Hx) as (e' & net0 & Hr & He). exists e', net0. split; [|done]. eapply rtc_l; [by exists e|done].
Qed.

Lemma exchangeForKey_answer key payload n g reply g' :
  exchangeForKey roundTrip nodes key payload n g = (inr reply, g') →
  ∃ e net0, rtc (fails payload) (gw_net g) net0 ∧ roundTrip e payload net0 = (Returns reply, gw_net g').
Proof.
  unfold exchangeForKey. destruct (RingRouter.ownersFor _ _ _); [|done]. destruct (seedEndpoints nodes); [done|].
  destruct (targetsForKey _ _ _ _) as [targets|]; [|done]. unfold exchange_targets.
  destruct (exchange roundTrip targets payload (gw_net g)) as [[[x|]| |] net] eqn:E; [|done..].
  intros [= <- <-]. by eapply exchange_answer.
Qed.


Lemma key_route method key : permitAll method ("/v1/kv/" +:+ key) = false.
Proof. unfold permitAll. by rewrite andb_false_r. Qed.

Lemma http_put_ok authorization key value clock n w r g token g' :
  http authorization (KvPut key (Some value) clock n w r) g = ((200%Z, WriteResponse token), g') →
  let '(dn, dw, dr) := defaults config in
  validateKey key = true ∧
  ∃ reply, parseWrite reply = WriteOk token ∧
    exchangeForKey roundTrip nodes key (put_payload key value clock (orDefault n dn) (orDefault w dw) (orDefault r dr))
      (orDefault n dn) g = (inr reply, g').
Proof.
  unfold handle, permitted. cbn [route]. rewrite key_route.
  destruct (doFilterInternal _ _ _) as [who|]; [|done]. cbn [orb controller].
  destruct (checkKey key) as [e|] eqn:Hk; [by destruct e|]. unfold kv_put.
  destruct (defaults config) as [[dn dw] dr]. unfold cluster_put.
  destruct (exchangeForKey _ _ key _ _ g) as [[e|resp] g1]; [by destruct e|]. cbn.
  destruct (parseWrite resp) as [c| |] eqn:Ep; [|done..]. intros [= -> ->].
  split; [by apply checkKey_valid|]. by exists resp.
Qed.



(** The nodes are sound, and an answered round trip is the answer of a node. *)
Record cluster_serves (cl : VectorClock.clock) : Prop := {
  serves_world : ∀ net a m, node_at net a = Some m → world (Node.n_state m) = stores net;
  serves_coherent : ∀ net a m, node_at net a = Some m → coherent (Node.coordinator_ m);
  serves_self : ∀ net a m, node_at net a = Some m → is_Some (stores net !! addr (Node.n_info m));
  serves_clock : ∀ net a m, node_at net a = Some m → is_u64 (wall_now net);
  serves_answers : ∀ e payload net reply net', roundTrip e payload net = (Returns reply, net') →
    node_answers cl net e payload reply net';
}.

Lemma serves_ready cl net a m :
  cluster_serves cl → node_at net a = Some m →
  coherent (Node.coordinator_ m) ∧
  is_Some (world (Node.n_state (Node.counted Metrics.Put m)) !! addr (self_ (Node.coordinator_ m))) ∧ is_u64 (wall_now net).
Proof.
  intros Hcl Hm. split_and!; [by eapply serves_coherent| |by eapply serves_clock].
  change (is_Some (world (Node.n_state m) !! addr (Node.n_info m))). rewrite (serves_world cl Hcl net a m Hm).
  by eapply serves_self.
Qed.

Lemma put_payload_token key value clock ctx n w r :
  nz clock = VectorClock.serialize ctx →
  put_payload key value clock n w r = put_payload key value (Some (VectorClock.serialize ctx)) n w r.
Proof. intros Hc. unfold put_payload. by rewrite Hc. Qed.

(** A put answered 200 was coordinated by a node of the cluster. *)
Lemma http_put_coordinated cl authorization key value clock ctx n w r g token g' :
  let '(dn, dw, dr) := defaults config in
  let '(en, ew, er) := (orDefault n dn, orDefault w dw, orDefault r dr) in
  cluster_serves cl → is_int en → is_int ew → is_int er → nz clock = VectorClock.serialize ctx → VectorClock.wire_ok ctx →
  http authorization (KvPut key (Some value) clock n w r) g = ((200%Z, WriteResponse token), g') →
  validateKey key = true ∧
  ∃ net a m req run run' res,
    node_at net a = Some m ∧
    coordinatePut (Node.coordinator_ m) (wall_now net) (steady_now net) key value ctx (Node.effN m en) (Node.effW m ew)
      (Node.n_state (Node.counted Metrics.Put m)) = Some (Running req run) ∧
    rtc (write_next (F := F) req) run run' ∧ result run' = Some res ∧ put_ok res = true ∧
    parseWrite (put_reply res) = WriteOk token ∧ stores (gw_net g') = world (w_state run').
Proof.
  destruct (defaults config) as [[dn dw] dr] eqn:Hd. intros Hcl Hn Hw Hr Hc Hctx Hput.
  apply http_put_ok in Hput. rewrite Hd in Hput. destruct Hput as (Hk & reply & Hok & Hx). split; [done|].
  rewrite (put_payload_token _ _ _ ctx) in Hx by done.
  apply exchangeForKey_answer in Hx as (e & net0 & _ & Ha). apply (serves_answers cl Hcl) in Ha.
  destruct (put_answered key value ctx _ _ _ Hk Hn Hw Hr Hctx cl net0 e reply _ token Ha Hok)
    as (net & a & m & req & run & run' & res & Hm & Hp & Hrun & Hres & Hpo & -> & Hst).
  exists net, a, m, req, run, run', res. by split_and!.
Qed.

(** C5: A PUT answered 200 is durable.  Whatever target the gateway reached after
    whatever failures, and whether that node coordinated the write or forwarded it,
    when the client is answered 200 with a token, at least W processes at different
    addresses, members of the coordinator's ring, hold the key at a version at least
    as new as the token, W being the requested or configured write quorum, less one
    for every owner beyond the first that the coordinator knows dead.  While the write
    runs, no other thread replaces a version at least as new by one that is not. *)
Theorem http_put_is_durable cl authorization key value clock ctx n w r g token g' :
  let '(dn, dw, dr) := defaults config in
  let '(en, ew, er) := (orDefault n dn, orDefault w dw, orDefault r dr) in
  cluster_serves cl → is_int en → is_int ew → is_int er → nz clock = VectorClock.serialize ctx → VectorClock.wire_ok ctx →
  http authorization (KvPut key (Some value) clock n w r) g = ((200%Z, WriteResponse token), g') →
  ∃ net a m owners A, node_at net a = Some m ∧ Router.findOwners (Node.router m) key (Node.effN m en) = Some owners ∧
    NoDup (addr <$> A) ∧ (Node.effW m ew ≤ Z.of_nat (length A + (dead_owners (Node.coordinator_ m) owners - 1)))%Z ∧
    ∀ x, x ∈ A → member (Node.coordinator_ m) x ∧ holds (stores (gw_net g')) x key (VectorClock.parse token).
Proof.
  pose proof (http_put_coordinated cl authorization key value clock ctx n w r g token g') as Hco.
  destruct (defaults config) as [[dn dw] dr]. intros Hcl Hn Hw Hr Hc Hctx Hput.
  destruct Hco as (Hk & net & a & m & req & run & run' & res & Hm & Hp & Hrun & Hres & Hok & Htok & Hst); [done..|].
  pose proof (serves_ready cl net a m Hcl Hm) as (Hco & Hself & Hclk).
  destruct (acked_on_replicas (Node.coordinator_ m) (wall_now net) (steady_now net) key value ctx _ _ _ req run run' res
              Hco (key_free key Hk) Hclk Hctx Hself (or_introl Hp) Hrun Hres Hok)
    as (Hwire & owners & A & Ho & Hnd & HW & HA).
  exists net, a, m, owners, A. split_and!; [done..|]. rewrite (token_clock res token), Hst by done. exact HA.
Qed.





End http.
End cluster.

(** ** Example *)

Module ClusterExample.
Import NodeExamples Example3 GatewayExamples ServiceExamples.

(** The put of [GatewayExamples], sent to node2, which forwards it to node1, and a
    read at node2 afterwards.  The network is at 0 before the put, at 1 after it and
    at 2 after the read. *)
Definition node_in (w : World store) (n : NodeInfo) : Node.Node store :=
  Node.mkNodeState n Router.r3 (config 20) false None (mkState w None InMemoryMetrics.zero).

Definition stored_reply : string := Eval vm_compute in put_reply (put_of accepted_end).
Definition to_node1 (p : NodeInfo) (payload : string) (net : Z) : string * Z :=
  if decide (p = Router.n1 ∧ payload = put_msg ∧ net = 0%Z) then (stored_reply, 1%Z) else (EmptyString, net).

Definition get_msg : string := get_payload "user:42" 3 2.
Definition asked :=
  (Node.handleRequest GossipThread.no_send to_node1 (λ u, u) (λ _, 50%Z) (λ _, 0%Z) get_msg
     (node_in (world (w_state accepted_end)) Router.n2, 1%Z)).1.
Definition get_req : ReadRequest := match asked with Node.AwaitGet req _ => req | _ => rreq_of None end.
Definition get_run : @ReadRun store := match asked with Node.AwaitGet _ run => run | _ => rrun_of None end.
Definition get_end : @ReadRun store := Eval vm_compute in default get_run (read_run get_req answered get_run).
Definition read_reply : string := Eval vm_compute in get_reply (get_of get_end).

Definition stores_at (net : Z) : World store :=
  if (net =? 0)%Z then boot else if (net =? 1)%Z then world (w_state accepted_end) else world (r_state get_end).
Definition node_of (net : Z) (n : NodeInfo) : Node.Node store := node_in (stores_at net) n.
Definition nodes_at (net : Z) (a : Addr) : option (Node.Node store) :=
  node_of net <$> head (filter (λ n, addr n = a) [Router.n1; Router.n2; Router.n3]).

Definition wire (e : Endpoint) (payload : string) (net : Z) : Java string * Z :=
  if decide (e = addr Router.n2 ∧ payload = put_msg ∧ net = 0%Z) then (Returns stored_reply, 1%Z)
  else if decide (e = addr Router.n2 ∧ payload = get_msg ∧ net = 1%Z) then (Returns read_reply, 2%Z)
  else (IOException, net).

Definition wrote : VectorClock.clock := VectorClock.parse "node1:1:50".
Abbreviation served := (node_answers (F := Fate) GossipThread.no_send to_node1 (λ u, u) (λ _, 50%Z) (λ _, 0%Z) nodes_at stores_at).

Lemma nodes_at_inv net a m :
  nodes_at net a = Some m → ∃ n, n ∈ [Router.n1; Router.n2; Router.n3] ∧ m = node_of net n.
Proof.
  unfold nodes_at. destruct (filter _ _) as [|n l] eqn:E; [done|]. intros [= <-]. exists n. split; [|done].
  assert (n ∈ filter (λ n, addr n = a) [Router.n1; Router.n2; Router.n3]) as Hn by (rewrite E; by left).
  by apply list_elem_of_filter in Hn as [_ ?].
Qed.

Lemma put_served : served wrote 0%Z (addr Router.n2) put_msg stored_reply 1%Z.
Proof.
  apply (answered_forward _ _ _ _ _ _ _ _ 0%Z 0%Z 1%Z _ (node_of 0 Router.n2) (Node.counted Metrics.Put (node_of 0 Router.n2)) Router.n1).
  - vm_refl.
  - exists []. split; [vm_refl|discriminate].
  - vm_refl.
  - discriminate.
  - vm_refl.
  - apply (answered_write _ _ _ _ _ _ _ _ 0%Z 0%Z 1%Z _ (node_of 0 Router.n1) (Node.with_state (w_state accepted_run) (Node.counted Metrics.Put node1))
             _ accepted_req accepted_run accepted_end (put_of accepted_end)).
    + vm_refl.
    + vm_refl.
    + apply (write_run_reach (F := Fate) accepted_req answered); [by repeat constructor|vm_refl].
    + vm_refl.
    + reflexivity.
Qed.

Lemma get_served : served wrote 1%Z (addr Router.n2) get_msg read_reply 2%Z.
Proof.
  apply (answered_read _ _ _ _ _ _ _ _ 1%Z 1%Z 2%Z _ (node_of 1 Router.n2) (Node.with_state (r_state get_run) (Node.counted Metrics.Get (node_of 1 Router.n2)))
           _ get_req get_run get_end (get_of get_end)).
  - vm_refl.
  - vm_refl.
  - apply (read_run_reach (F := Fate) _ _ answered); [by repeat constructor|vm_refl].
  - vm_refl.
  - vm_refl.
Qed.

Lemma wire_serves :
  cluster_serves (F := Fate) GossipThread.no_send to_node1 (λ u, u) (λ _, 50%Z) (λ _, 0%Z) nodes_at stores_at wire wrote.
Proof.
  split.
  - intros net a m (n & _ & ->)%nodes_at_inv. done.
  - intros net a m (n & Hn & ->)%nodes_at_inv. by apply coherent_r3.
  - intros net a m (n & Hn & ->)%nodes_at_inv. unfold stores_at.
    destruct (net =? 0)%Z; [|destruct (net =? 1)%Z]; repeat (apply elem_of_cons in Hn as [->|Hn]; [vm_decide|]); by apply elem_of_nil in Hn.
  - intros net a m _. vm_decide.
  - intros e payload net reply net'. unfold wire.
    case_decide as Hp; [destruct Hp as (-> & -> & ->); intros [= <- <-]; exact put_served|].
    case_decide as Hg; [destruct Hg as (-> & -> & ->); intros [= <- <-]; exact get_served|done].
Qed.

Definition bearer : option string := Some (PREFIX +:+ jwt_issue service 0 "admin" ["ADMIN"]).
Definition gateway (net : Z) : Gw Z := mkGw net (RingRouter.new 4) ∅ [].

Lemma http_put_is_durable_witness :
  ∃ A, NoDup (addr <$> A) ∧ 2 ≤ length A ∧ ∀ x, x ∈ A → holds (stores_at 1) x "user:42" wrote.
Proof.
  destruct (http_put_is_durable (F := Fate) GossipThread.no_send to_node1 (λ u, u) (λ _, 50%Z) (λ _, 0%Z) nodes_at stores_at
              wire [endpoint_key (addr Router.n2)] [] (λ u, u) service "admin" "pw" (λ u _, u) wrote bearer "user:42" "v" None ∅
              None None None (gateway 0) "node1:1:50" (gateway 1)) as (net & a & m & owners & A & Hm & _ & Hnd & HW & HA).
  - exact wire_serves.
  - vm_decide.
  - vm_decide.
  - vm_decide.
  - reflexivity.
  - vm_decide.
  - vm_refl.
  - exists A. split; [exact Hnd|]. apply nodes_at_inv in Hm as (n & _ & ->). unfold dead_owners in HW. cbn in HW.
    rewrite filter_none in HW by (apply list.Forall_forall; done). cbn in HW. split; [lia|]. intros x Hx. by apply HA.
Defined.


End ClusterExample.
